(* ===== verification/_CoqProject ===== *)
-Q . S2P
Prelude.v
GoNum.v
GoStrings.v
GoUnicode.v
GoRegexp.v
Model.v
GoJson.v
Registry.v
RulesNaming.v
RulesSchema.v
RulesText.v
RuleSet.v
Output.v
IntakeJson.v
GoPath.v
PathLaws.v
IntakeTS.v
IntakePy.v
IntakeLive.v
Dispatch.v
Main.v
EndToEnd.v
Breaker.v
Limiter.v
Errgroup.v
GoFloat.v
FloatRound.v
Retry.v
Shutdown.v
ShutdownRuns.v
Kv.v
Pcg.v
Random.v
Scheduler.v
EventBus.v
EventAsync.v
Vfs.v
GoCrypto.v
Tokens.v
RateLimit.v
Perf.v
Spans.v
Surroundings.v
Logger.v
Proc.v
Httpx.v
AsyncWriter.v
AtomicFile.v
Cache.v
SchedulerLoop.v
