(* ===== verification/Prelude.v ===== *)
(** * mcpcheck: a linter for the tools of MCP servers

    mcpcheck loads the tools an MCP server declares, from a JSON dump, from
    Python or TypeScript source, or from a live server over stdio, runs a set
    of rules over them, and prints the findings as text, JSON or SARIF; its
    exit status says whether there were any. The repository also carries a set
    of infrastructure packages under [internal/] that stand on their own.

    This library translates both halves. A Go function is a Rocq function; a Go
    function that returns an error returns a [result]; an object that goroutines
    share is a state with a step function whose actions are the critical
    sections, channel operations and condition-variable steps of the code, so
    that a theorem about every list of actions is one about every interleaving.

    ** The files

    Shared ground:
    - [Prelude]: results, lemmas on lists and on counting, map iteration,
      sorting, tactics and hints;
    - [GoNum], [GoFloat], [FloatRound]: 64-bit integers with their wrap-around,
      [time.Time] and [time.Duration], binary64 and its rounding; [Pcg]: the
      generator of [math/rand/v2];
    - [GoStrings], [GoUnicode], [GoPath], [PathLaws]: strings as bytes, UTF-8,
      the functions of [strings], [unicode], [strconv], [fmt] and [filepath];
    - [GoRegexp]: regular expressions, leftmost-first, with captures;
    - [GoJson]: [encoding/json]; [GoCrypto]: SHA-256, HMAC and base64.

    The linter, in the order data flows:
    - [Model]: [internal/mcpmodel], tools and decoded JSON values;
    - [IntakeJson], [IntakePy], [IntakeTS], [IntakeLive], [Dispatch]:
      [internal/scanner], one file per intake and one for the choice between
      them and the directory walks;
    - [Registry]: [internal/v2], the registry, the contexts through which a rule
      reports, and the dispatchers that run the rules;
    - [RulesNaming], [RulesSchema], [RulesText]: [internal/rules], and
      [RuleSet], the registry its [init] functions build;
    - [Output]: [internal/output]; [Main]: [cmd/mcpcheck], which composes all of
      the above; [EndToEnd]: theorems about the whole composition, from the text
      of a file or the lines of a server to the document printed.

    The infrastructure packages, each [internal/] directory in its file:
    - [Breaker] (circuitbreaker), [Limiter] (limiter), [Errgroup] (errgroup, a
      client of the class of [Limiter]), [Scheduler] and [SchedulerLoop]
      (scheduler, another client: the jobs, and [Start] and [Stop] over them),
      [RateLimit] (ratelimit), [Retry] (retry), [Shutdown] and [ShutdownRuns]
      (shutdown: one call, and any number of calls with the hooks' goroutines);
    - [Kv] (kv), [Vfs] (vfs, on [PathLaws]), [Random] (random, on [Pcg] and
      [FloatRound]; its class is the interface of the package), [Tokens]
      (tokens, on [GoCrypto] and [GoJson]), [Perf] and [Spans] (perf);
    - [EventBus] and [EventAsync] (the two buses of eventbus), [AsyncWriter] (the
      background writer of cacheutil), [AtomicFile] (fsutil, with the program
      logic of file operations), [Cache] (the rest of cacheutil: versioned
      directory, sharded paths, compressed payloads);
    - [Surroundings] (clock, env, idgen), [Logger] (logger), [Proc] (proc),
      [Httpx] (httpx): mostly the in-memory implementations.

    ** What the theorems show

    - The registry: a sequence of [Register] calls keeps the registry
      well-formed or panics exactly on a malformed or duplicate rule; a finding
      carries the identity of the rule that reported it, and the dispatchers run
      each rule of their kind once, in order of registration.
    - The rules: each rule is characterised by an independent description of
      the findings it reports, duplicates and order included; and the whole run
      does not depend on the order in which Go visits its maps ([any_equiv]
      relates values that differ in that order only).
    - The intakes: the Python and TypeScript scanners agree with a description of
      the declarations they recognise, a printed tool list is read back as it
      was, and the live handshake follows the protocol whatever the peer sends.
    - The output: JSON output parses back to the findings; text and SARIF output
      have the stated shape. The exit status of the command is determined by the
      findings, the flags and the errors; and from end to end, what is printed
      about a dump, alone or against a live server, attributes to every rule
      exactly what that rule says about the tools listed ([json_report],
      [json_report_live]); the rule listing is read back too.
    - State machines against their specifications: the circuit breaker, the
      key-value store ([refinement] of a plain map with expiry).
    - Concurrent objects: in every interleaving, permits and reservations are
      conserved, limits are kept, every waiter that could go on is woken or has a
      wake-up on its way, each task runs at most once, each event is delivered
      once and in order or counted as dropped, each cache write accepted is done
      and its error reported, shutdown hooks start in reverse order and one that
      runs past its turn was given up.
    - Crashes: in every state visible while a file is replaced, a reader of the
      path sees the old content or the whole new one ([atomic_writes]); in every
      state visible while a cache directory is opened, a side file is whole, and
      entries written under other tokens are still marked as such or gone
      ([versioned_dir]); both use the program logic [wp] of [AtomicFile].
    - Data: the in-memory file system is a tree in every reachable state; tokens
      verify exactly when their signature and times do, and an issued token is
      read back; timing trees have the shape of the calls that made them.
    - Numbers: delays, jitter, capacities and random indexes stay in their
      ranges, overflow and rounding included; the rejection loop of the seeded
      source ends from every state of its generator ([seeded_terminates]).

    ** Fuel and bounds

    - [GoRegexp]: a star is unrolled at most as often as input remains; the fuel
      of the JSON parser is proportional to its input; [Vfs.MkdirAll] recurs at
      most once per byte of the path; [Perf] renders with the height of the tree
      as fuel. That this is enough is [run_derives], [scan_fuel], [mem_tree] and
      [renderNode_fuel].
    - A power of two at least [n] is found within 62 doublings, as [n] is below
      2^62; slice capacities are below that too, since a larger slice cannot be
      allocated.
    - The loop of [Rand.uint64n] has no fuel: it recurs on the accessibility of
      the generator's states, which its full period gives.
    - Counters of subscriptions and entries, which count calls, do not reach
      2^64; where the code adds times or durations the wrap-around is written out.

    ** Parameters

    Code outside the repository is an argument of the definitions, with its
    documented behaviour as laws: the JSON Schema validator of the examples
    rule, the Unicode tables above Latin-1 ([UnicodeTables]), the order of map
    iteration ([MapIter]), the operating system under the cache directory
    ([FileSystem]), the child process of a live server, the conversion of
    out-of-range floats ([FloatConv]), the bytes of [crypto/rand] ([Random.Reader]),
    the zstd and gob codecs of the cache payloads, the loggers of [log/slog]
    ([Slog]), what [os/exec] does with the
    command of [OS.Run] and [net/http] with the request of [Real.Do]. A writer
    or reader is any state with an operation that may fail. Clock readings are
    arguments.

    ** Not modelled

    - The flag parser of [cmd/mcpcheck] is package [flag].
    - Methods that only hand their arguments on: the system clock, the [OS]
      environment and file system.
    - Interfaces have no definition of their own but where a client is proved
      against one ([Limiter], [Random], [Reader], [Logger], [MapIter]); the setters
      [OnHookError] and [SetClock] are arguments of what they set.
    - Timers: a timer of [Scheduler.Start], of a hook of [Shutdown] or of
      [Bucket.WaitN] may fire at any time after it is set.
    - [internal/rules/doc.go] is a comment. *)
From Stdlib Require Export ZArith Lia.
From Stdlib Require Export Sorting.Sorted.
From stdpp Require Export base list gmap strings sets relations sorting.

(** ** Results of fallible Go code

    A Go function returning [(T, error)] becomes a function into [result];
    [Err] carries the non-nil error, [Ok] the value returned with a nil error. *)
Inductive result (E A : Type) : Type :=
| Ok (a : A)
| Err (e : E).
Arguments Ok {E A} a.
Arguments Err {E A} e.

#[export] Instance result_ret E : MRet (result E) := fun A a => Ok a.
#[export] Instance result_bind E : MBind (result E) := fun A B f m =>
  match m with Ok a => f a | Err e => Err e end.
#[export] Instance result_fmap E : FMap (result E) := fun A B f m =>
  match m with Ok a => Ok (f a) | Err e => Err e end.
#[export] Instance result_eq_dec `{EqDecision E, EqDecision A} :
  EqDecision (result E A).
Proof. solve_decision. Defined.

Definition is_ok {E A} (r : result E A) : bool :=
  match r with Ok _ => true | Err _ => false end.

(** A computation that may panic: [None] is a Go panic that unwinds out of
    the function. *)
Abbreviation may_panic A := (option A) (only parsing).

#[export] Set Warnings "-register-all,-clear-no-such-hyp".

From Stdlib Require Ascii.
Export Ascii.AsciiSyntax.
Delimit Scope char_scope with char.

Abbreviation ascii := Ascii.ascii.
#[global] Arguments String.append !_ _ / : simpl nomatch.

(** ** Automation *)

Create HintDb go discriminated.

(** Case analysis on every [if decide], [match] and boolean test left. *)
Ltac go_cases :=
  repeat first [ progress simplify_eq/= | case_decide | case_match | progress destruct_and? ].

(** Turn boolean comparisons into propositions everywhere. *)
Ltac bool_to_prop :=
  repeat match goal with
  | H : andb _ _ = true |- _ => apply andb_true_iff in H; destruct H
  | H : orb _ _ = false |- _ => apply orb_false_iff in H; destruct H
  | H : negb _ = true |- _ => apply negb_true_iff in H
  | H : negb _ = false |- _ => apply negb_false_iff in H
  | H : (_ <? _)%Z = true |- _ => apply Z.ltb_lt in H
  | H : (_ <? _)%Z = false |- _ => apply Z.ltb_ge in H
  | H : (_ <=? _)%Z = true |- _ => apply Z.leb_le in H
  | H : (_ <=? _)%Z = false |- _ => apply Z.leb_gt in H
  | H : (_ =? _)%Z = true |- _ => apply Z.eqb_eq in H
  | H : (_ =? _)%Z = false |- _ => apply Z.eqb_neq in H
  | H : (_ =? _)%string = true |- _ => apply String.eqb_eq in H
  | H : (_ =? _)%string = false |- _ => apply String.eqb_neq in H
  | H : bool_decide _ = true |- _ => apply bool_decide_eq_true_1 in H
  | H : bool_decide _ = false |- _ => apply bool_decide_eq_false_1 in H
  end.

(** ** Lists *)

Lemma list_filter_all {A} (P : A -> Prop) `{!forall x, Decision (P x)} (l : list A) :
  (forall x, x ∈ l -> P x) -> filter P l = l.
Proof.
  induction l as [|x l IH]; intros Hl; [done|].
  rewrite filter_cons_True by (apply Hl; left). f_equal. apply IH. intros; apply Hl; by right.
Qed.

Lemma list_filter_none {A} (P : A -> Prop) `{!forall x, Decision (P x)} (l : list A) :
  (forall x, x ∈ l -> ~ P x) -> filter P l = [].
Proof.
  induction l as [|x l IH]; intros Hl; [done|].
  rewrite filter_cons_False by (apply Hl; left). apply IH. intros; apply Hl; by right.
Qed.

Lemma elem_of_map {A B} (f : A -> B) (l : list A) y : y ∈ map f l <-> exists x, y = f x /\ x ∈ l.
Proof. exact (list_elem_of_fmap f l y). Qed.

Lemma Forall_map_const {A B} (f : A -> B) (P : B -> Prop) l :
  (forall a, P (f a)) -> Forall P (map f l).
Proof. intros. induction l; constructor; auto. Qed.

(** Grouping a list by a key whose values are listed without repetition. *)
Lemma bind_filter_perm {A B} `{EqDecision B} (f : A -> B) (ks : list B) (l : list A) :
  NoDup ks ->
  (k ← ks; filter (fun a => f a = k) l) ≡ₚ filter (fun a => f a ∈ ks) l.
Proof.
  induction 1 as [|k ks Hk Hnd IH].
  - simpl. by rewrite list_filter_none by set_solver.
  - rewrite bind_cons, IH. clear IH. induction l as [|a l IH]; [done|].
    destruct (decide (f a = k)) as [<-|Hne].
    + rewrite filter_cons_True by done. rewrite (filter_cons_False _ a) by done.
      rewrite (filter_cons_True (fun a0 => f a0 ∈ f a :: ks)) by left. simpl. by rewrite IH.
    + rewrite filter_cons_False by done. destruct (decide (f a ∈ ks)).
      * rewrite (filter_cons_True (fun a0 => f a0 ∈ ks)) by done.
        rewrite (filter_cons_True (fun a0 => f a0 ∈ k :: ks)) by (by right).
        rewrite <- IH. by rewrite Permutation_middle.
      * rewrite (filter_cons_False (fun a0 => f a0 ∈ ks)) by done.
        rewrite (filter_cons_False (fun a0 => f a0 ∈ k :: ks)) by set_solver. done.
Qed.

(** ** Sums over a list

    [tally f l] counts the elements [f] selects. The step lemmas rewrite a sum
    when the list is extended or updated at an index. *)
Definition total {A} (f : A -> Z) (l : list A) : Z := foldr (fun x => Z.add (f x)) 0%Z l.
Abbreviation b2z := Z.b2z.
Definition tally {A} (f : A -> bool) (l : list A) : Z := total (fun x => b2z (f x)) l.

#[global] Arguments total : simpl never.
#[global] Arguments tally : simpl never.

Lemma total_cons {A} (f : A -> Z) x l : total f (x :: l) = (f x + total f l)%Z.
Proof. done. Qed.

Lemma total_snoc {A} (f : A -> Z) l x : total f (l ++ [x]) = (total f l + f x)%Z.
Proof.
  induction l as [|y l IH]; [unfold total; simpl; lia|].
  rewrite <- app_comm_cons, !total_cons. lia.
Qed.

Lemma total_insert {A} (f : A -> Z) l i x y :
  l !! i = Some x -> total f (<[i:=y]> l) = (total f l - f x + f y)%Z.
Proof.
  revert i. induction l as [|z l IH]; intros [|i] Hi; simplify_eq/=; rewrite !total_cons; [lia|].
  specialize (IH _ Hi). lia.
Qed.

Lemma total_ext {A} (f g : A -> Z) l : (forall x, x ∈ l -> f x = g x) -> total f l = total g l.
Proof.
  induction l as [|x l IH]; intros Hl; [done|].
  rewrite !total_cons, (Hl x), IH; [done| |by left]. intros. apply Hl. by right.
Qed.

Lemma total_map {A B} (f : B -> Z) (g : A -> B) l : total f (map g l) = total (fun x => f (g x)) l.
Proof. induction l as [|x l IH]; [done|]. simpl. by rewrite !total_cons, IH. Qed.

Lemma total_nonneg {A} (f : A -> Z) l : (forall x, x ∈ l -> 0 <= f x)%Z -> (0 <= total f l)%Z.
Proof.
  induction l as [|x l IH]; intros Hl; [done|]. rewrite total_cons.
  specialize (Hl x ltac:(left)) as Hx.
  specialize (IH (fun y Hy => Hl y ltac:(by right))). lia.
Qed.

Lemma total_app {A} (f : A -> Z) l1 l2 : total f (l1 ++ l2) = (total f l1 + total f l2)%Z.
Proof. induction l1 as [|x l1 IH]; simpl; [done|]. rewrite !total_cons, IH. lia. Qed.

Lemma tally_snoc {A} (f : A -> bool) l x : tally f (l ++ [x]) = (tally f l + b2z (f x))%Z.
Proof. exact (total_snoc (fun x => b2z (f x)) l x). Qed.

Lemma tally_insert {A} (f : A -> bool) l i x y :
  l !! i = Some x -> tally f (<[i:=y]> l) = (tally f l - b2z (f x) + b2z (f y))%Z.
Proof. exact (total_insert (fun x => b2z (f x)) l i x y). Qed.

Lemma tally_nonneg {A} (f : A -> bool) l : (0 <= tally f l)%Z.
Proof. apply total_nonneg. intros x _. by destruct (f x). Qed.

Lemma tally_none {A} (f : A -> bool) l : (forall x, x ∈ l -> f x = false) -> tally f l = 0%Z.
Proof.
  unfold tally. induction l as [|x l IH]; intros Hl; [done|].
  rewrite total_cons, IH, (Hl x); [done|by left|]. intros. apply Hl. by right.
Qed.

Lemma tally_pos {A} (f : A -> bool) l i x : l !! i = Some x -> f x = true -> (1 <= tally f l)%Z.
Proof.
  intros Hi Hx. apply list_elem_of_split_length in Hi as (l1 & l2 & -> & _).
  induction l1 as [|y l1 IH]; unfold tally in *; simpl; rewrite total_cons.
  - rewrite Hx. pose proof (tally_nonneg f l2). unfold tally in *. simpl. lia.
  - assert (0 <= b2z (f y))%Z by (by destruct (f y)). lia.
Qed.

(** Two elements a predicate selects. *)
Lemma tally_two {A} (f : A -> bool) (l : list A) i j a b :
  l !! i = Some a -> l !! j = Some b -> i <> j -> f a = true -> f b = true -> (2 <= tally f l)%Z.
Proof.
  intros Hi Hj Hne Ha Hb. revert i j Hi Hj Hne.
  induction l as [|x l IH]; intros [|i] [|j] Hi Hj Hne; simplify_eq/=; unfold tally in *; rewrite total_cons.
  - pose proof (tally_pos f l _ _ Hj Hb). unfold tally in *. rewrite Ha. simpl. lia.
  - pose proof (tally_pos f l _ _ Hi Ha). unfold tally in *. rewrite Hb. simpl. lia.
  - specialize (IH i j Hi Hj ltac:(congruence)). destruct (f x); simpl; lia.
Qed.

Lemma b2z_pos_tally {A} (f : A -> bool) l b : b2z b = tally f l ->
  (exists i r, l !! i = Some r /\ f r = true) <-> b = true.
Proof.
  intros Hb. split.
  - intros (i & r & Hi & Hr). pose proof (tally_pos _ _ _ _ Hi Hr). by destruct b; simpl in *; [|lia].
  - intros ->. destruct (decide (Forall (fun r => f r = false) l)) as [Hall|Hsome].
    + rewrite (tally_none f) in Hb; [done|]. by apply Forall_forall.
    + apply not_Forall_Exists in Hsome; [|apply _].
      apply Exists_exists in Hsome as (r & [i Hi]%list_elem_of_lookup & Hr%not_false_is_true). eauto.
Qed.

(** ** Ranging over a Go map

    [range m] visits the entries of [m] once each in an order the language
    leaves open; code is modelled for every such order. *)
Class MapIter := {
  range : forall {V}, gmap string V -> list (string * V);
  range_perm : forall V (m : gmap string V), range m ≡ₚ map_to_list m
}.

#[export] Instance canonical_iter : MapIter :=
  {| range V m := map_to_list m; range_perm V m := Permutation_refl _ |}.

Lemma elem_of_range `{MapIter} {V} (m : gmap string V) k v : (k, v) ∈ range m <-> m !! k = Some v.
Proof. by rewrite range_perm, elem_of_map_to_list. Qed.

Lemma NoDup_range_keys `{MapIter} {V} (m : gmap string V) : NoDup (range m).*1.
Proof. rewrite range_perm. apply NoDup_fst_map_to_list. Qed.

(** The keys [range] visits that a predicate selects, sorted: an ordinary Go
    idiom whose result no longer depends on the iteration order. *)
Lemma range_keys_filter_perm (I1 I2 : MapIter) {V} (m : gmap string V) (P : string * V -> Prop)
  `{!forall x, Decision (P x)} :
  (filter P (@range I1 V m)).*1 ≡ₚ (filter P (@range I2 V m)).*1.
Proof. by rewrite (@range_perm I1), (@range_perm I2). Qed.

(** ** Insertion sort

    [sort.SliceStable] and, at keys that are pairwise distinct, [sort.Slice]
    and [sort.Strings] all compute what [isort] computes: the stable sorted
    rearrangement. [le] is "not less the other way round". *)
Section isort.
Context {A : Type} (le : A -> A -> bool).

Fixpoint insert_sorted (x : A) (l : list A) : list A :=
  match l with
  | [] => [x]
  | y :: l' => if le x y then x :: l else y :: insert_sorted x l'
  end.

Fixpoint isort (l : list A) : list A :=
  match l with
  | [] => []
  | x :: l' => insert_sorted x (isort l')
  end.

Lemma insert_sorted_perm x l : insert_sorted x l ≡ₚ x :: l.
Proof.
  induction l as [|y l IH]; simpl; [done|].
  destruct (le x y); [done|]. rewrite IH. by constructor.
Qed.

Lemma isort_perm l : isort l ≡ₚ l.
Proof. induction l; simpl; [done|]. by rewrite insert_sorted_perm, IHl. Qed.

Lemma length_isort l : length (isort l) = length l.
Proof. by rewrite isort_perm. Qed.

Lemma elem_of_isort x l : x ∈ isort l <-> x ∈ l.
Proof. by rewrite isort_perm. Qed.

Context (le_total : forall x y, le x y = true \/ le y x = true).
Context (le_trans : forall x y z, le x y = true -> le y z = true -> le x z = true).

Definition sorted_by (l : list A) : Prop := StronglySorted (fun x y => le x y = true) l.

Lemma insert_sorted_sorted x l : sorted_by l -> sorted_by (insert_sorted x l).
Proof.
  unfold sorted_by. induction 1 as [|y l Hl IH Hy]; simpl; [repeat constructor|].
  destruct (le x y) eqn:E.
  - constructor; [by constructor|]. constructor; [done|].
    eapply Forall_impl; [done|]. simpl. eauto.
  - constructor; [done|]. rewrite insert_sorted_perm. constructor; [|done].
    destruct (le_total x y); congruence.
Qed.

Lemma isort_sorted l : sorted_by (isort l).
Proof. induction l; simpl; [constructor|]. by apply insert_sorted_sorted. Qed.

(** Stability: elements a predicate selects, when [le] relates them both
    ways, keep their order. *)
Lemma insert_sorted_filter (P : A -> Prop) `{!forall x, Decision (P x)} x l :
  (forall y, P x -> P y -> le x y = true) ->
  filter P (insert_sorted x l) = filter P (x :: l).
Proof.
  intros HP. induction l as [|y l IH]; simpl; [done|].
  destruct (le x y) eqn:E; [done|].
  rewrite !filter_cons in *. rewrite IH.
  destruct (decide (P y)), (decide (P x)); try done.
  rewrite HP in E by done. done.
Qed.

Lemma isort_stable (P : A -> Prop) `{!forall x, Decision (P x)} (l : list A) :
  (forall x y, P x -> P y -> le x y = true) ->
  filter P (isort l) = filter P l.
Proof.
  intros HP. induction l as [|x l IH]; simpl; [done|].
  rewrite insert_sorted_filter by eauto. by rewrite !filter_cons, IH.
Qed.

(** A sorted list is determined by its elements when the order is
    antisymmetric on them. *)
Lemma sorted_by_unique l1 l2 :
  (forall x y, x ∈ l1 -> y ∈ l1 -> le x y = true -> le y x = true -> x = y) ->
  l1 ≡ₚ l2 -> sorted_by l1 -> sorted_by l2 -> l1 = l2.
Proof.
  unfold sorted_by. intros Hanti Hp H1. revert l2 Hp.
  induction H1 as [|x l1 H1 IH Hx]; intros l2 Hp H2.
  { by apply Permutation_nil in Hp as ->. }
  destruct H2 as [|y l2 H2 Hy]; [by apply Permutation_nil_r in Hp|].
  assert (x = y) as ->.
  { assert (x ∈ y :: l2) as Hxin by (rewrite <- Hp; left).
    assert (y ∈ x :: l1) as Hyin by (rewrite Hp; left).
    apply elem_of_cons in Hxin as [->|Hxin]; [done|].
    apply elem_of_cons in Hyin as [->|Hyin]; [done|].
    rewrite Forall_forall in Hx, Hy.
    apply Hanti; [left|by right|..]; eauto. }
  f_equal. apply IH; [|by apply Permutation_cons_inv in Hp|done].
  intros; apply Hanti; [by right..|done|done].
Qed.

Lemma isort_proper l1 l2 :
  (forall x y, x ∈ l1 -> y ∈ l1 -> le x y = true -> le y x = true -> x = y) ->
  l1 ≡ₚ l2 -> isort l1 = isort l2.
Proof.
  intros Hanti Hp. apply sorted_by_unique; [|by rewrite !isort_perm|apply isort_sorted..].
  intros x y. rewrite !elem_of_isort. by apply Hanti.
Qed.

Lemma isort_id l : sorted_by l -> isort l = l.
Proof.
  unfold sorted_by. induction 1 as [|x l Hl IH Hx]; simpl; [done|].
  rewrite IH. destruct l as [|y l]; simpl; [done|].
  inversion Hx; simplify_eq. by rewrite H1.
Qed.
End isort.

(** ** The byte order of Go strings *)

Lemma string_leb_spec s1 s2 : String.leb s1 s2 = true <-> String.compare s1 s2 <> Gt.
Proof. unfold String.leb. destruct (String.compare s1 s2); naive_solver. Qed.

Lemma ascii_compare_refl c : Ascii.compare c c = Eq.
Proof. unfold Ascii.compare. apply N.compare_refl. Qed.

Lemma ascii_compare_trans c a b d :
  Ascii.compare a b = c -> Ascii.compare b d = c -> Ascii.compare a d = c.
Proof.
  unfold Ascii.compare. intros <-.
  destruct (N.compare_spec (Ascii.N_of_ascii a) (Ascii.N_of_ascii b)),
    (N.compare_spec (Ascii.N_of_ascii b) (Ascii.N_of_ascii d)); intros; try done;
    destruct (N.compare_spec (Ascii.N_of_ascii a) (Ascii.N_of_ascii d)); try done; lia.
Qed.

Lemma ascii_compare_eq a b : Ascii.compare a b = Eq <-> a = b.
Proof.
  split; [|intros ->; apply ascii_compare_refl].
  unfold Ascii.compare. intros H%N.compare_eq.
  by rewrite <- (Ascii.ascii_N_embedding a), H, Ascii.ascii_N_embedding.
Qed.

Lemma string_compare_eq s1 s2 : String.compare s1 s2 = Eq <-> s1 = s2.
Proof.
  split; [apply String.compare_eq_iff|intros ->].
  induction s2 as [|c s2 IH]; simpl; [done|]. by rewrite ascii_compare_refl.
Qed.

Lemma string_leb_total s1 s2 : String.leb s1 s2 = true \/ String.leb s2 s1 = true.
Proof.
  rewrite !string_leb_spec, (String.compare_antisym s1 s2).
  destruct (String.compare s2 s1); simpl; [by left|by right|by left].
Qed.

Lemma string_leb_antisym s1 s2 :
  String.leb s1 s2 = true -> String.leb s2 s1 = true -> s1 = s2.
Proof.
  rewrite !string_leb_spec, (String.compare_antisym s1 s2).
  destruct (String.compare s2 s1) eqn:E; simpl; try done.
  intros _ _. symmetry. by apply string_compare_eq.
Qed.

Lemma string_leb_trans s1 s2 s3 :
  String.leb s1 s2 = true -> String.leb s2 s3 = true -> String.leb s1 s3 = true.
Proof.
  rewrite !string_leb_spec. revert s2 s3.
  induction s1 as [|a s1 IH]; intros [|b s2] [|c s3]; simpl; try done.
  destruct (Ascii.compare a b) eqn:E1, (Ascii.compare b c) eqn:E2; try done; intros H1 H2.
  - apply ascii_compare_eq in E1 as ->, E2 as ->. rewrite ascii_compare_refl. eauto.
  - apply ascii_compare_eq in E1 as ->. by rewrite E2.
  - apply ascii_compare_eq in E2 as ->. by rewrite E1.
  - by rewrite (ascii_compare_trans Lt a b c).
Qed.

#[export] Hint Resolve string_leb_total string_leb_trans string_leb_antisym : go.

(** [sort.Strings]. The byte order is total, so the sorted rearrangement is
    unique and does not depend on the algorithm. *)
Definition sort_Strings : list string -> list string := isort String.leb.

Lemma sort_Strings_perm l : sort_Strings l ≡ₚ l.
Proof. apply isort_perm. Qed.

Lemma sort_Strings_sorted l : sorted_by String.leb (sort_Strings l).
Proof. apply isort_sorted; eauto with go. Qed.

#[export] Instance sort_Strings_Proper : Proper ((≡ₚ) ==> (=)) sort_Strings.
Proof. intros l1 l2. apply isort_proper; eauto with go. Qed.
