(* ===== verification/GoNum.v ===== *)
(** Machine integers and the [time] package, as the Go code uses them.

    An [int], [int64] or [time.Duration] is a [Z] in the 64-bit two's
    complement range; [wrap64] is the wrap-around of an arithmetic result.
    A [time.Time] is the number of nanoseconds since the zero [Time] (year 1);
    the second counter of a [Time] has 64 bits of its own, so sums of a [Time]
    and a [Duration] do not wrap over any representable clock. *)
From S2P Require Import Prelude.
Open Scope Z_scope.

Definition minInt64 : Z := - 2 ^ 63.
Definition maxInt64 : Z := 2 ^ 63 - 1.
Definition int64_ok (z : Z) : Prop := minInt64 <= z <= maxInt64.
Definition wrap64 (z : Z) : Z := (z + 2 ^ 63) mod 2 ^ 64 - 2 ^ 63.

Lemma wrap64_ok z : int64_ok (wrap64 z).
Proof.
  unfold int64_ok, wrap64, minInt64, maxInt64.
  pose proof (Z.mod_pos_bound (z + 2 ^ 63) (2 ^ 64)). lia.
Qed.

Lemma wrap64_id z : int64_ok z -> wrap64 z = z.
Proof.
  unfold int64_ok, wrap64, minInt64, maxInt64. intros.
  rewrite Z.mod_small; lia.
Qed.

Lemma wrap64_idemp z : wrap64 (wrap64 z) = wrap64 z.
Proof. apply wrap64_id, wrap64_ok. Qed.

Lemma wrap64_add_l a b : wrap64 (wrap64 a + b) = wrap64 (a + b).
Proof.
  unfold wrap64. f_equal.
  replace ((a + 2 ^ 63) mod 2 ^ 64 - 2 ^ 63 + b + 2 ^ 63) with ((a + 2 ^ 63) mod 2 ^ 64 + b) by lia.
  rewrite Zplus_mod_idemp_l. f_equal. lia.
Qed.

Lemma wrap64_succ z : wrap64 (wrap64 z + 1) = wrap64 (z + 1).
Proof. apply wrap64_add_l. Qed.

#[export] Instance int64_ok_dec z : Decision (int64_ok z).
Proof. unfold int64_ok. apply _. Defined.

#[export] Hint Resolve wrap64_ok : go.

(** Truncated division of Go: [Z.quot] and [Z.rem]. *)

(** ** Durations and times *)

Abbreviation Duration := Z (only parsing).
Abbreviation Time := Z (only parsing).

Definition Nanosecond : Duration := 1.
Definition Microsecond : Duration := 1000.
Definition Millisecond : Duration := 1000000.
Definition Second : Duration := 1000000000.
Definition Minute : Duration := 60 * Second.

Definition zeroTime : Time := 0.
Definition IsZero (t : Time) : bool := t =? 0.
Definition Add (t : Time) (d : Duration) : Time := t + d.
Definition Before (t u : Time) : bool := t <? u.
Definition After (t u : Time) : bool := u <? t.

(** [t.Sub(u)] saturates at the ends of [Duration]. *)
Definition Sub (t u : Time) : Duration := Z.max minInt64 (Z.min maxInt64 (t - u)).

Definition Milliseconds (d : Duration) : Z := d ÷ Millisecond.
Definition Microseconds (d : Duration) : Z := d ÷ Microsecond.

Lemma Sub_ok t u : int64_ok (Sub t u).
Proof. unfold int64_ok, Sub, minInt64, maxInt64. lia. Qed.

Lemma Sub_exact t u : int64_ok (t - u) -> Sub t u = t - u.
Proof. unfold int64_ok, Sub, minInt64, maxInt64. lia. Qed.

Lemma Sub_lt_exact t u d : d <= maxInt64 -> minInt64 < d -> Sub t u < d <-> t - u < d.
Proof. unfold Sub, minInt64, maxInt64. lia. Qed.

(** ** [context.Context]

    What the code reads of a context is [ctx.Err()]: nil while it is live, and
    afterwards one of two errors. *)
Inductive ctx_err := Canceled | DeadlineExceeded.

#[export] Instance ctx_err_eq_dec : EqDecision ctx_err.
Proof. solve_decision. Defined.
