(* ===== verification/GoStrings.v ===== *)
(** Strings, runes and the parts of [strings], [unicode], [utf8], [strconv]
    and [fmt] the Go code uses.

    A Go string is a byte sequence: Rocq's [string]. A rune is a [Z]. The
    Unicode tables above Latin-1 are data of the Go distribution that differ
    between releases; they are the fields of the class [UnicodeTables], and
    nothing is assumed of them. *)
From S2P Require Import Prelude.
Open Scope Z_scope.

(** ** Bytes *)

Definition byteZ (c : ascii) : Z := Z.of_N (Ascii.N_of_ascii c).
Definition Zbyte (z : Z) : ascii := Ascii.ascii_of_N (Z.to_N z).

Lemma byteZ_range c : 0 <= byteZ c < 256.
Proof. unfold byteZ. pose proof (Ascii.N_ascii_bounded c). lia. Qed.

Lemma Zbyte_byteZ c : Zbyte (byteZ c) = c.
Proof. unfold Zbyte, byteZ. rewrite N2Z.id. apply Ascii.ascii_N_embedding. Qed.

Lemma byteZ_Zbyte z : 0 <= z < 256 -> byteZ (Zbyte z) = z.
Proof. intros. unfold Zbyte, byteZ. rewrite Ascii.N_ascii_embedding; lia. Qed.

Definition lf : ascii := Zbyte 10.
Definition newline : string := String lf EmptyString.
Definition dquote : string := String (Zbyte 34) EmptyString.

(** ** Slicing and searching *)

Fixpoint str_take (n : nat) (s : string) : string :=
  match n, s with
  | S n, String c s => String c (str_take n s)
  | _, _ => EmptyString
  end.

Fixpoint str_drop (n : nat) (s : string) : string :=
  match n, s with
  | S n, String _ s => str_drop n s
  | _, _ => s
  end.

Abbreviation len := String.length.

Definition HasPrefix (s p : string) : bool := String.prefix p s.
Definition HasSuffix (s p : string) : bool :=
  (len p <=? len s)%nat && (str_drop (len s - len p) s =? p)%string.

Definition TrimSuffix (s p : string) : string :=
  if HasSuffix s p then str_take (len s - len p) s else s.

(** [strings.Index]: [None] is -1. *)
Fixpoint Index (s sub : string) : option nat :=
  if HasPrefix s sub then Some O else
  match s with
  | EmptyString => None
  | String _ s' => S <$> Index s' sub
  end.

Definition Contains (s sub : string) : bool :=
  match Index s sub with Some _ => true | None => false end.

Fixpoint filter_bytes (f : ascii -> bool) (s : string) : string :=
  match s with
  | EmptyString => EmptyString
  | String c s => if f c then String c (filter_bytes f s) else filter_bytes f s
  end.

(** [strings.ReplaceAll(s, c, "")] for a one-byte [c]. *)
Definition RemoveAll (s : string) (c : ascii) : string :=
  filter_bytes (fun d => negb (Ascii.eqb d c)) s.

(** [strings.Count(s, c)] for a one-byte [c]. *)
Fixpoint CountByte (s : string) (c : ascii) : nat :=
  match s with
  | EmptyString => O
  | String d s => if Ascii.eqb d c then S (CountByte s c) else CountByte s c
  end.

Fixpoint Join (l : list string) (sep : string) : string :=
  match l with
  | [] => EmptyString
  | [s] => s
  | s :: l => s +:+ sep +:+ Join l sep
  end.

(** [strings.Split(s, c)] for a one-byte [c]: never empty. *)
Fixpoint SplitByte (s : string) (c : ascii) : list string :=
  match s with
  | EmptyString => [EmptyString]
  | String d s =>
    if Ascii.eqb d c then EmptyString :: SplitByte s c
    else match SplitByte s c with
         | [] => [String d EmptyString]
         | h :: t => String d h :: t
         end
  end.

Fixpoint str_forall (P : ascii -> bool) (s : string) : bool :=
  match s with
  | EmptyString => true
  | String c s => P c && str_forall P s
  end.

Fixpoint str_concat (l : list string) : string :=
  match l with [] => EmptyString | s :: l => s +:+ str_concat l end.

Section slicing_lemmas.
Open Scope nat_scope.

Lemma str_app_nil_r s : s +:+ EmptyString = s.
Proof. induction s; simpl; congruence. Qed.

Lemma str_app_assoc s t u : (s +:+ t) +:+ u = s +:+ (t +:+ u).
Proof. induction s; simpl; congruence. Qed.

Lemma str_len_app s t : len (s +:+ t) = len s + len t.
Proof. induction s; simpl; congruence. Qed.

Lemma str_take_drop n s : str_take n s +:+ str_drop n s = s.
Proof. revert s. induction n; intros [|c s]; simpl; congruence. Qed.

Lemma str_take_app s t : str_take (len s) (s +:+ t) = s.
Proof. induction s; simpl; [by destruct t|congruence]. Qed.

Lemma str_drop_app s t : str_drop (len s) (s +:+ t) = t.
Proof. induction s; simpl; [by destruct t|congruence]. Qed.

Lemma str_len_drop n s : len (str_drop n s) = len s - n.
Proof. revert s; induction n; intros [|c s]; simpl; auto. Qed.

Lemma str_len_take n s : len (str_take n s) = Nat.min n (len s).
Proof. revert s; induction n; intros [|c s]; simpl; auto. Qed.

Lemma HasPrefix_spec s p : HasPrefix s p = true <-> exists t, s = p +:+ t.
Proof.
  unfold HasPrefix. revert s. induction p as [|c p IH]; intros [|d s]; simpl.
  - split; eauto.
  - split; eauto.
  - split; [done|intros [t Ht]; done].
  - destruct (Ascii.ascii_dec c d) as [->|Hcd].
    + rewrite IH. split; intros [t Ht]; exists t; congruence.
    + split; [done|intros [t Ht]; congruence].
Qed.

Lemma HasSuffix_spec s p : HasSuffix s p = true <-> exists t, s = t +:+ p.
Proof.
  unfold HasSuffix. rewrite andb_true_iff, Nat.leb_le, String.eqb_eq. split.
  - intros [Hl Hd]. exists (str_take (len s - len p) s).
    by rewrite <- Hd at 2; rewrite str_take_drop.
  - intros [t ->]. rewrite str_len_app. split; [lia|].
    replace (len t + len p - len p) with (len t) by lia. apply str_drop_app.
Qed.

Lemma str_app_inj_l s t u : s +:+ t = s +:+ u -> t = u.
Proof. induction s; simpl; [done|]. intros [=]; auto. Qed.

Lemma str_app_inj s t u v : len s = len t -> s +:+ u = t +:+ v -> s = t /\ u = v.
Proof.
  revert t. induction s as [|c s IH]; intros [|d t]; simpl; try done.
  intros [= Hl] [= -> H]. destruct (IH _ Hl H). naive_solver.
Qed.

Lemma CountByte_app s t c : CountByte (s +:+ t) c = CountByte s c + CountByte t c.
Proof. induction s; simpl; [done|]. case_match; simpl; congruence. Qed.

Lemma CountByte_take_le n m s c : n <= m -> CountByte (str_take n s) c <= CountByte (str_take m s) c.
Proof.
  revert m s. induction n as [|n IH]; intros [|m] [|d s] Hle; simpl; try lia.
  specialize (IH m s ltac:(lia)). case_match; lia.
Qed.

Lemma str_forall_app P s t : str_forall P (s +:+ t) = str_forall P s && str_forall P t.
Proof. induction s; simpl; [done|]. by rewrite IHs, andb_assoc. Qed.

Lemma str_forall_impl (P Q : ascii -> bool) s :
  (forall c, P c = true -> Q c = true) -> str_forall P s = true -> str_forall Q s = true.
Proof. intros HPQ. induction s; simpl; [done|]. rewrite !andb_true_iff. naive_solver. Qed.

Lemma SplitByte_cons_ne s c : exists h t, SplitByte s c = h :: t.
Proof. destruct s as [|d s]; simpl; [eauto|]. repeat case_match; eauto. Qed.

(** Splitting a join of parts that are free of the separator. *)
Lemma SplitByte_app s t c :
  str_forall (fun d => negb (Ascii.eqb d c)) s = true ->
  SplitByte (s +:+ String c t) c = s :: SplitByte t c.
Proof.
  induction s as [|d s IH]; simpl.
  - by rewrite Ascii.eqb_refl.
  - rewrite andb_true_iff, negb_true_iff. intros [-> H]. by rewrite IH.
Qed.

Lemma SplitByte_one s c :
  str_forall (fun d => negb (Ascii.eqb d c)) s = true -> SplitByte s c = [s].
Proof.
  induction s as [|d s IH]; simpl; [done|].
  rewrite andb_true_iff, negb_true_iff. intros [-> H]. by rewrite IH.
Qed.

Lemma SplitByte_Join s c : Join (SplitByte s c) (String c EmptyString) = s.
Proof.
  induction s as [|d s IH]; simpl; [done|].
  destruct (Ascii.eqb_spec d c) as [->|].
  - destruct (SplitByte_cons_ne s c) as (h & t & E). rewrite E in *. simpl in *.
    by rewrite IH.
  - destruct (SplitByte_cons_ne s c) as (h & t & E). rewrite E in *.
    destruct t; simpl in *; by rewrite IH.
Qed.
End slicing_lemmas.
