(* ===== verification/GoUnicode.v ===== *)
(** UTF-8, the [unicode] predicates, [strings.ToLower], [strings.TrimSpace],
    [strings.Fields], and the [%d], [%q], [%v] verbs of [fmt]. *)
From stdpp Require Import pretty.
From S2P Require Import Prelude GoStrings.
Open Scope Z_scope.

(** ** UTF-8 *)

Definition RuneError : Z := 65533.
Definition in_rng (lo hi z : Z) : bool := (lo <=? z) && (z <=? hi).

(** [utf8.DecodeRuneInString]: the rune and its width; an invalid sequence is
    [RuneError] of width 1. *)
Definition DecodeRune (s : string) : Z * nat :=
  match s with
  | EmptyString => (RuneError, 0%nat)
  | String c0 s1 =>
    let b0 := byteZ c0 in
    if b0 <? 0x80 then (b0, 1%nat)
    else if b0 <? 0xC2 then (RuneError, 1%nat)
    else match s1 with
    | EmptyString => (RuneError, 1%nat)
    | String c1 s2 =>
      let b1 := byteZ c1 in
      if b0 <? 0xE0 then
        if in_rng 0x80 0xBF b1 then (b0 mod 32 * 64 + b1 mod 64, 2%nat)
        else (RuneError, 1%nat)
      else match s2 with
      | EmptyString => (RuneError, 1%nat)
      | String c2 s3 =>
        let b2 := byteZ c2 in
        if b0 <? 0xF0 then
          if in_rng (if b0 =? 0xE0 then 0xA0 else 0x80) (if b0 =? 0xED then 0x9F else 0xBF) b1
             && in_rng 0x80 0xBF b2
          then (b0 mod 16 * 4096 + b1 mod 64 * 64 + b2 mod 64, 3%nat)
          else (RuneError, 1%nat)
        else match s3 with
        | EmptyString => (RuneError, 1%nat)
        | String c3 _ =>
          let b3 := byteZ c3 in
          if (b0 <? 0xF5)
             && in_rng (if b0 =? 0xF0 then 0x90 else 0x80) (if b0 =? 0xF4 then 0x8F else 0xBF) b1
             && in_rng 0x80 0xBF b2 && in_rng 0x80 0xBF b3
          then (b0 mod 8 * 262144 + b1 mod 64 * 4096 + b2 mod 64 * 64 + b3 mod 64, 4%nat)
          else (RuneError, 1%nat)
        end
      end
    end
  end.

Fixpoint bytes_str (l : list Z) : string :=
  match l with [] => EmptyString | b :: l => String (Zbyte b) (bytes_str l) end.

(** [utf8.AppendRune]; surrogates and out-of-range runes encode as
    [RuneError]. *)
Definition EncodeRune (r : Z) : string :=
  let enc3 r := bytes_str [0xE0 + r / 4096; 0x80 + r / 64 mod 64; 0x80 + r mod 64] in
  if in_rng 0 0x7F r then bytes_str [r]
  else if in_rng 0x80 0x7FF r then bytes_str [0xC0 + r / 64; 0x80 + r mod 64]
  else if in_rng 0x800 0xD7FF r || in_rng 0xE000 0xFFFF r then enc3 r
  else if in_rng 0x10000 0x10FFFF r then
    bytes_str [0xF0 + r / 262144; 0x80 + r / 4096 mod 64; 0x80 + r / 64 mod 64; 0x80 + r mod 64]
  else enc3 RuneError.

(** Simple case folding, as far as ASCII letters are concerned (Go's [(?i)] and
    the matching of JSON member names): besides ASCII case, [s] also matches U+017F and
    [k] matches U+212A. *)
Definition fold_rune (r : Z) : Z :=
  if in_rng 65 90 r then (r + 32)%Z
  else if (r =? 0x17F)%Z then 115
  else if (r =? 0x212A)%Z then 107
  else r.

(** The runes UTF-8 can encode, and the encoding and decoding of one rune. *)
Definition is_scalar (r : Z) : bool := in_rng 0 0xD7FF r || in_rng 0xE000 0x10FFFF r.

Ltac div_mod_lia := Z.div_mod_to_equations; lia.

(** Decide the comparisons of the goal one at a time. *)
Ltac decide_cmp :=
  repeat (cbv [andb orb]; match goal with
  | |- context [?a <? ?b] =>
    first [rewrite (proj2 (Z.ltb_lt a b)) by lia | rewrite (proj2 (Z.ltb_ge a b)) by lia]
  | |- context [?a <=? ?b] =>
    first [rewrite (proj2 (Z.leb_le a b)) by lia | rewrite (proj2 (Z.leb_gt a b)) by lia]
  | |- context [?a =? ?b] =>
    first [rewrite (proj2 (Z.eqb_eq a b)) by lia | rewrite (proj2 (Z.eqb_neq a b)) by lia]
  | |- context [if ?a =? ?b then _ else _] => destruct (Z.eqb_spec a b)
  end); cbv [andb orb].

Lemma low_bits base k r : 0 <= r < k -> base mod k = 0 -> (base + r) mod k = r.
Proof.
  intros Hr Hb. rewrite Z.add_mod, Hb, Z.add_0_l, Z.mod_mod by lia. by apply Z.mod_small.
Qed.

Lemma DecodeRune_EncodeRune r t :
  is_scalar r = true -> DecodeRune (EncodeRune r +:+ t) = (r, len (EncodeRune r)).
Proof.
  unfold is_scalar, EncodeRune. intros Hr.
  assert (0 <= r <= 0x10FFFF /\ ~ (0xD800 <= r <= 0xDFFF)) as [Hr1 Hr2].
  { unfold in_rng in Hr. apply orb_true_iff in Hr as [Hr|Hr]; bool_to_prop; lia. }
  clear Hr.
  pose proof (Z.mod_pos_bound r 64 ltac:(lia)). pose proof (Z.div_mod r 64 ltac:(lia)).
  set (q := r / 64) in *. set (m := r mod 64) in *.
  assert (r / 4096 = q / 64) as -> by (unfold q; by rewrite Z.div_div by lia).
  assert (r / 262144 = q / 64 / 64) as -> by (unfold q; by rewrite !Z.div_div by lia).
  pose proof (Z.mod_pos_bound q 64 ltac:(lia)). pose proof (Z.div_mod q 64 ltac:(lia)).
  set (q1 := q / 64) in *. set (m1 := q mod 64) in *.
  pose proof (Z.mod_pos_bound q1 64 ltac:(lia)). pose proof (Z.div_mod q1 64 ltac:(lia)).
  set (q2 := q1 / 64) in *. set (m2 := q1 mod 64) in *.
  clearbody q m q1 m1 q2 m2. subst r.
  set (r := 64 * (64 * (64 * q2 + m2) + m1) + m) in *.
  assert (r < 0x80 \/ 0x80 <= r < 0x800 \/ 0x800 <= r < 0xD800 \/ 0xE000 <= r < 0x10000 \/
          0x10000 <= r <= 0x10FFFF) as Hcase by lia.
  destruct Hcase as [?|[?|[?|[?|?]]]]; unfold in_rng; decide_cmp; simpl; unfold in_rng;
    rewrite ?byteZ_Zbyte by lia; decide_cmp; rewrite ?low_bits by (done || lia); f_equal; lia.
Qed.

Lemma div64 a m : 0 <= m < 64 -> (a * 64 + m) / 64 = a /\ (a * 64 + m) mod 64 = m.
Proof. intros. rewrite Z.add_comm, Z.div_add, Z.mod_add, Z.div_small, Z.mod_small by lia. lia. Qed.

Lemma byte_offset c base k :
  base mod k = 0 -> base <= byteZ c < base + k ->
  exists x, byteZ c = base + x /\ 0 <= x < k /\ c = Zbyte (base + x) /\ byteZ c mod k = x.
Proof.
  intros Hb Hc. exists (byteZ c - base). replace (base + (byteZ c - base)) with (byteZ c) by lia.
  rewrite Zbyte_byteZ. split_and!; [done|lia|lia|done|].
  replace (byteZ c) with (base + (byteZ c - base)) at 1 by lia. apply low_bits; [lia|done].
Qed.

Ltac is_cont c x := destruct (byte_offset c 0x80 64) as (x & ? & ? & -> & ->); [done|lia|].

Lemma encode2 c0 c1 (r := byteZ c0 mod 32 * 64 + byteZ c1 mod 64) :
  0xC2 <= byteZ c0 < 0xE0 -> 0x80 <= byteZ c1 <= 0xBF ->
  EncodeRune r = String c0 (String c1 "") /\ is_scalar r = true.
Proof.
  intros H0 H1. subst r.
  destruct (byte_offset c0 0xC0 32) as (x & ? & ? & -> & ->); [done|lia|]. is_cont c1 m.
  destruct (div64 x m) as [Hd Hm]; [lia|].
  unfold EncodeRune, is_scalar, in_rng. decide_cmp. by rewrite Hd, Hm.
Qed.

Lemma encode3 c0 c1 c2 (r := byteZ c0 mod 16 * 4096 + byteZ c1 mod 64 * 64 + byteZ c2 mod 64) :
  0xE0 <= byteZ c0 < 0xF0 -> 0x80 <= byteZ c1 <= 0xBF -> 0x80 <= byteZ c2 <= 0xBF ->
  (byteZ c0 = 0xE0 -> 0xA0 <= byteZ c1) -> (byteZ c0 = 0xED -> byteZ c1 <= 0x9F) ->
  EncodeRune r = String c0 (String c1 (String c2 "")) /\ is_scalar r = true.
Proof.
  intros H0 H1 H2 Hlo Hhi. subst r.
  destruct (byte_offset c0 0xE0 16) as (x & ? & ? & -> & ->); [done|lia|].
  is_cont c1 m1. is_cont c2 m.
  replace (x * 4096 + m1 * 64 + m) with ((x * 64 + m1) * 64 + m) by lia.
  assert (((x * 64 + m1) * 64 + m) / 4096 = x) as Hq4 by div_mod_lia.
  destruct (div64 (x * 64 + m1) m) as [Hd Hm]; [lia|]. destruct (div64 x m1) as [_ Hm1]; [lia|].
  set (r := (x * 64 + m1) * 64 + m) in *.
  assert (0x800 <= r <= 0xFFFF /\ ~ (0xD800 <= r <= 0xDFFF)) as [Hr1 Hr2] by lia.
  unfold EncodeRune, is_scalar, in_rng.
  rewrite Hq4, Hd, Hm, Hm1. clear -Hr1 Hr2.
  destruct (Z_lt_le_dec r 0xD800); decide_cmp; done.
Qed.

Lemma encode4 c0 c1 c2 c3
  (r := byteZ c0 mod 8 * 262144 + byteZ c1 mod 64 * 4096 + byteZ c2 mod 64 * 64 + byteZ c3 mod 64) :
  0xF0 <= byteZ c0 < 0xF5 -> 0x80 <= byteZ c1 <= 0xBF -> 0x80 <= byteZ c2 <= 0xBF ->
  0x80 <= byteZ c3 <= 0xBF ->
  (byteZ c0 = 0xF0 -> 0x90 <= byteZ c1) -> (byteZ c0 = 0xF4 -> byteZ c1 <= 0x8F) ->
  EncodeRune r = String c0 (String c1 (String c2 (String c3 ""))) /\ is_scalar r = true.
Proof.
  intros H0 H1 H2 H3 Hlo Hhi. subst r.
  destruct (byte_offset c0 0xF0 8) as (x & ? & ? & -> & ->); [done|lia|].
  is_cont c1 m2. is_cont c2 m1. is_cont c3 m.
  replace (x * 262144 + m2 * 4096 + m1 * 64 + m) with (((x * 64 + m2) * 64 + m1) * 64 + m) by lia.
  set (q := (x * 64 + m2) * 64 + m1) in *.
  assert ((q * 64 + m) / 4096 = x * 64 + m2) as Hq4 by (subst q; div_mod_lia).
  assert ((q * 64 + m) / 262144 = x) as Hq5 by (subst q; div_mod_lia).
  destruct (div64 q m) as [Hd Hm]; [lia|]. destruct (div64 (x * 64 + m2) m1) as [_ Hm1]; [lia|].
  destruct (div64 x m2) as [_ Hm2]; [lia|].
  unfold EncodeRune, is_scalar, in_rng.
  assert (0x10000 <= q * 64 + m <= 0x10FFFF) as Hr by lia.
  rewrite Hq4, Hq5, Hd, Hm, Hm2. fold q in Hm1. rewrite Hm1. clear -Hr.
  set (r := q * 64 + m) in *. clearbody r. decide_cmp. done.
Qed.

(** A sequence that decodes is the encoding of its rune. *)
Lemma EncodeRune_DecodeRune s r w :
  DecodeRune s = (r, w) -> ~ (r = RuneError /\ w <= 1)%nat ->
  EncodeRune r = str_take w s /\ is_scalar r = true.
Proof.
  intros Hd Hne. unfold DecodeRune in Hd.
  repeat match type of Hd with
  | context [match ?s with EmptyString => _ | String _ _ => _ end] => destruct s
  | context [if ?b then _ else _] => destruct b eqn:?
  end; simplify_eq; try (exfalso; apply Hne; split; [done|lia]); clear Hne;
    unfold in_rng in *; repeat match goal with
    | H : context [if ?b then _ else _] |- _ => destruct b eqn:?
    end; bool_to_prop; cbn [str_take];
    try (apply encode2; lia); try (apply encode3; lia); try (apply encode4; lia).
  all: pose proof (byteZ_range a); unfold EncodeRune, is_scalar, in_rng; decide_cmp; simpl;
    by rewrite Zbyte_byteZ.
Qed.

Lemma DecodeRune_ge c s : 0x80 <= byteZ c -> 0x80 <= (DecodeRune (String c s)).1.
Proof.
  intros Hc. destruct (DecodeRune (String c s)) as [r w] eqn:Hd. simpl.
  destruct (Z_lt_le_dec r 0x80) as [Hr|]; [exfalso|done].
  destruct (EncodeRune_DecodeRune _ _ _ Hd) as [He Hs]; [unfold RuneError; lia|].
  unfold is_scalar, EncodeRune, in_rng in *.
  assert (0 <= r) by (apply orb_true_iff in Hs as [Hs|Hs]; bool_to_prop; lia).
  revert He. decide_cmp. destruct w; simpl; [done|]. intros [= Hb _]. subst c.
  rewrite byteZ_Zbyte in Hc; lia.
Qed.

(** The runes of a string with their widths, as [for range] visits them. *)
Fixpoint runes_from (skip : nat) (s : string) : list (Z * nat) :=
  match s with
  | EmptyString => []
  | String _ s' =>
    match skip with
    | S k => runes_from k s'
    | O => let rw := DecodeRune s in rw :: runes_from (snd rw - 1) s'
    end
  end.

Definition runes (s : string) : list (Z * nat) := runes_from 0 s.

(** [for i, r := range s]: the byte index and the rune of each step. *)
Fixpoint with_index (i : nat) (l : list (Z * nat)) : list (nat * Z) :=
  match l with [] => [] | (r, w) :: l => (i, r) :: with_index (i + w) l end.

Definition range_string (s : string) : list (nat * Z) := with_index 0 (runes s).

Definition isASCII (s : string) : bool := str_forall (fun c => byteZ c <? 0x80) s.

Lemma DecodeRune_width s : (s <> EmptyString -> 1 <= snd (DecodeRune s))%nat.
Proof. destruct s; [done|]. intros _. unfold DecodeRune. repeat case_match; simpl; lia. Qed.

Lemma DecodeRune_ascii c s : byteZ c < 0x80 -> DecodeRune (String c s) = (byteZ c, 1%nat).
Proof. intros H. simpl. by rewrite (proj2 (Z.ltb_lt _ _) H). Qed.

Lemma runes_ascii_app s t :
  isASCII s = true ->
  runes (s +:+ t) = map (fun c => (byteZ c, 1%nat)) (String.list_ascii_of_string s) ++ runes t.
Proof.
  unfold isASCII, runes. induction s as [|c s IH]; [done|].
  cbn [str_forall]. rewrite andb_true_iff, Z.ltb_lt. intros [Hc Hs].
  cbn [String.append runes_from]. rewrite DecodeRune_ascii by done. simpl.
  f_equal. by apply IH.
Qed.

Lemma runes_ascii s :
  isASCII s = true -> runes s = map (fun c => (byteZ c, 1%nat)) (String.list_ascii_of_string s).
Proof.
  intros H. rewrite <- (str_app_nil_r s) at 1. rewrite runes_ascii_app by done. apply app_nil_r.
Qed.

Fixpoint total_width (l : list (Z * nat)) : nat :=
  match l with [] => O | (_, w) :: l => (w + total_width l)%nat end.

Lemma DecodeRune_width_le s : (snd (DecodeRune s) <= len s)%nat.
Proof. unfold DecodeRune. repeat case_match; simpl; lia. Qed.

Lemma runes_from_total k s : (k <= len s -> k + total_width (runes_from k s) = len s)%nat.
Proof.
  revert k. induction s as [|c s IH]; intros k Hk; [simpl in *; lia|].
  destruct k as [|k]; cbn [runes_from].
  - pose proof (DecodeRune_width (String c s) ltac:(done)).
    pose proof (DecodeRune_width_le (String c s)).
    destruct (DecodeRune (String c s)) as [r w]. cbn [snd total_width String.length] in *.
    specialize (IH (w - 1)%nat). lia.
  - specialize (IH k). simpl in *. lia.
Qed.

Lemma runes_total s : total_width (runes s) = len s.
Proof. pose proof (runes_from_total 0 s). unfold runes. lia. Qed.

Lemma runes_from_width k s r w : (r, w) ∈ runes_from k s -> (1 <= w)%nat.
Proof.
  revert k. induction s as [|c s IH]; intros [|k]; cbn [runes_from]; try set_solver.
  intros [Heq|Hin]%elem_of_cons; [|eauto].
  pose proof (DecodeRune_width (String c s) ltac:(done)) as Hw. rewrite <- Heq in Hw. done.
Qed.

Lemma DecodeRune_ascii_width s r w : DecodeRune s = (r, w) -> r < 0x80 -> (w = 1)%nat \/ s = EmptyString.
Proof.
  intros Hd Hr. destruct s as [|c s]; [by right|left]. revert Hd Hr.
  unfold DecodeRune, RuneError, in_rng. pose proof (byteZ_range c).
  repeat case_match; intros [= <- <-]; try done; intros; bool_to_prop; exfalso;
    repeat match goal with a : Ascii.ascii |- _ => pose proof (byteZ_range a); revert a end;
    intros; Z.div_mod_to_equations; try lia.
Qed.

Lemma runes_from_underscore k s r w :
  (r, w) ∈ runes_from k s -> r < 0x80 -> w = 1%nat.
Proof.
  revert k. induction s as [|c s IH]; intros [|k]; cbn [runes_from]; try set_solver.
  intros [Heq|Hin]%elem_of_cons Hr; [|eauto].
  destruct (DecodeRune_ascii_width _ _ _ (eq_sym Heq) Hr); done.
Qed.

(** ** Character classes *)

Class UnicodeTables := {
  uc_IsLower : Z -> bool;
  uc_IsDigit : Z -> bool;
  uc_ToLower : Z -> Z;
  uc_IsPrint : Z -> bool;
}.

(** Tables with no rune above Latin-1 in any class. *)
Definition latin1_tables : UnicodeTables := {|
  uc_IsLower _ := false; uc_IsDigit _ := false; uc_ToLower r := r; uc_IsPrint _ := false
|}.

Definition MaxLatin1 : Z := 0xFF.

Section unicode.
Context `{UnicodeTables}.

Definition IsLower (r : Z) : bool :=
  if r <=? MaxLatin1 then
    in_rng 97 122 r || (r =? 0xB5) || (in_rng 0xDF 0xFF r && negb (r =? 0xF7))
  else uc_IsLower r.

Definition IsDigit (r : Z) : bool :=
  if r <=? MaxLatin1 then in_rng 48 57 r else uc_IsDigit r.

Definition ToLowerRune (r : Z) : Z :=
  if r <=? MaxLatin1 then
    if in_rng 65 90 r || (in_rng 0xC0 0xDE r && negb (r =? 0xD7)) then r + 32 else r
  else uc_ToLower r.

Definition IsSpace (r : Z) : bool :=
  in_rng 9 13 r || (r =? 32) || (r =? 0x85) || (r =? 0xA0) || (r =? 0x1680)
  || in_rng 0x2000 0x200A r || in_rng 0x2028 0x2029 r || (r =? 0x202F)
  || (r =? 0x205F) || (r =? 0x3000).

Definition IsPrint (r : Z) : bool :=
  if r <=? MaxLatin1 then
    in_rng 0x20 0x7E r || (in_rng 0xA1 0xFF r && negb (r =? 0xAD))
  else uc_IsPrint r.

(** [strings.ToLower]: every rune mapped and re-encoded; an invalid byte
    becomes an encoded [RuneError]. *)
Definition ToLower (s : string) : string :=
  str_concat (map (fun rw => EncodeRune (ToLowerRune (fst rw))) (runes s)).

Definition lower_byte (c : ascii) : ascii :=
  if in_rng 65 90 (byteZ c) then Zbyte (byteZ c + 32) else c.

Fixpoint map_bytes (f : ascii -> ascii) (s : string) : string :=
  match s with EmptyString => EmptyString | String c s => String (f c) (map_bytes f s) end.

Lemma ToLower_ascii s : isASCII s = true -> ToLower s = map_bytes lower_byte s.
Proof.
  intros Hs. unfold ToLower. rewrite runes_ascii by done. revert Hs. unfold isASCII.
  induction s as [|c s IH]; [done|]. cbn [str_forall]. rewrite andb_true_iff, Z.ltb_lt.
  intros [Hc Hs]. simpl. rewrite IH by done. clear IH Hs.
  unfold ToLowerRune, lower_byte, MaxLatin1, EncodeRune.
  pose proof (byteZ_range c). unfold in_rng.
  repeat case_match; bool_to_prop; try lia; simpl; f_equal; try done.
  all: apply Zbyte_byteZ || (exfalso; lia) || idtac.
Qed.

(** ** Trimming and fields *)

Fixpoint lead_width (P : Z -> bool) (l : list (Z * nat)) : nat :=
  match l with
  | [] => O
  | (r, w) :: l => if P r then (w + lead_width P l)%nat else O
  end.

Definition TrimSpace (s : string) : string :=
  let a := lead_width IsSpace (runes s) in
  let b := lead_width IsSpace (rev (runes s)) in
  str_take (len s - a - b) (str_drop a s).

Lemma lead_width_le P l : (lead_width P l <= total_width l)%nat.
Proof. induction l as [|[r w] l IH]; simpl; [done|]. case_match; lia. Qed.

Lemma lead_width_stop P l r w : P r = false -> (lead_width P (l ++ [(r, w)]) <= total_width l)%nat.
Proof.
  intros Hr. induction l as [|[r' w'] l IH]; simpl; [by rewrite Hr|]. case_match; lia.
Qed.

Lemma total_width_rev l : total_width (rev l) = total_width l.
Proof.
  assert (Happ : forall l1 l2, (total_width (l1 ++ l2) = total_width l1 + total_width l2)%nat).
  { intros l1 l2. induction l1 as [|[r w] l1 IH]; simpl; lia. }
  induction l as [|[r w] l IH]; simpl; [done|]. rewrite Happ, IH. simpl. lia.
Qed.

(** A visible first byte survives trimming. *)
Lemma TrimSpace_first c s :
  byteZ c < 0x80 -> IsSpace (byteZ c) = false -> exists t, TrimSpace (String c s) = String c t.
Proof.
  intros Hc Hs. unfold TrimSpace.
  assert (runes (String c s) = (byteZ c, 1%nat) :: runes s) as ->.
  { unfold runes at 1. cbn [runes_from]. by rewrite DecodeRune_ascii. }
  cbn [lead_width rev]. rewrite Hs.
  pose proof (lead_width_stop IsSpace (rev (runes s)) (byteZ c) 1 Hs) as Hle.
  rewrite total_width_rev, runes_total in Hle. cbn [String.length str_drop].
  destruct (S (len s) - 0 - _)%nat as [|n] eqn:E; [lia|]. eauto.
Qed.

(** [strings.Fields]: maximal runs of non-space runes. *)
Fixpoint fields_from (skip : nat) (cur : string) (s : string) : list string :=
  let flush := if (cur =? "")%string then [] else [cur] in
  match s with
  | EmptyString => flush
  | String c s' =>
    match skip with
    | S k => fields_from k (cur +:+ String c EmptyString) s'
    | O =>
      let '(r, w) := DecodeRune s in
      if IsSpace r then flush ++ skip_space (w - 1) s'
      else fields_from (w - 1) (cur +:+ String c EmptyString) s'
    end
  end
with skip_space (skip : nat) (s : string) : list string :=
  match s with
  | EmptyString => []
  | String c s' =>
    match skip with
    | S k => skip_space k s'
    | O =>
      let '(r, w) := DecodeRune s in
      if IsSpace r then skip_space (w - 1) s'
      else fields_from (w - 1) (String c EmptyString) s'
    end
  end.

Definition Fields (s : string) : list string := fields_from 0 EmptyString s.

(** ** Formatting *)

Definition hexdigit (z : Z) : string :=
  String (if z <? 10 then Zbyte (48 + z) else Zbyte (87 + z)) EmptyString.

Fixpoint hex (width : nat) (z : Z) : string :=
  match width with
  | O => EmptyString
  | S w => hex w (z / 16) +:+ hexdigit (z mod 16)
  end.

(** [%d] *)
Definition Itoa (z : Z) : string := pretty z.

(** [strconv.Quote], the [%q] verb. *)
Definition quote_rune (r : Z) (w : nat) (b0 : Z) : string :=
  let bs := String (Zbyte 92) EmptyString in
  if (r =? RuneError) && (w =? 1)%nat then bs +:+ "x" +:+ hex 2 b0
  else if (r =? 34) || (r =? 92) then bs +:+ EncodeRune r
  else if IsPrint r then EncodeRune r
  else if r =? 7 then bs +:+ "a"
  else if r =? 8 then bs +:+ "b"
  else if r =? 12 then bs +:+ "f"
  else if r =? 10 then bs +:+ "n"
  else if r =? 13 then bs +:+ "r"
  else if r =? 9 then bs +:+ "t"
  else if r =? 11 then bs +:+ "v"
  else if (r <? 32) || (r =? 0x7F) then bs +:+ "x" +:+ hex 2 r
  else if r <? 0x10000 then bs +:+ "u" +:+ hex 4 r
  else bs +:+ "U" +:+ hex 8 r.

Fixpoint quote_from (skip : nat) (s : string) : string :=
  match s with
  | EmptyString => EmptyString
  | String c s' =>
    match skip with
    | S k => quote_from k s'
    | O => let '(r, w) := DecodeRune s in quote_rune r w (byteZ c) +:+ quote_from (w - 1) s'
    end
  end.

Definition Quote (s : string) : string := dquote +:+ quote_from 0 s +:+ dquote.

(** [%v] of a [[]string]. *)
Definition FmtStrings (l : list string) : string := "[" +:+ Join l " " +:+ "]".
End unicode.

Section unicode_tests.
Existing Instance latin1_tables.
Example ToLower_t : ToLower "ABCxyz_9" = "abcxyz_9". Proof. reflexivity. Qed.
Example TrimSpace_t : TrimSpace "  a b  " = "a b". Proof. reflexivity. Qed.
Example TrimSpace_all : TrimSpace "   " = "". Proof. reflexivity. Qed.
Example Fields_t : Fields "  node  dist/server.js x " = ["node"; "dist/server.js"; "x"].
Proof. reflexivity. Qed.
Example Quote_t : Quote (String (Zbyte 10) "a") = dquote +:+ String (Zbyte 92) "na" +:+ dquote.
Proof. reflexivity. Qed.
Example Itoa_t : Itoa (-120) = "-120". Proof. vm_compute. reflexivity. Qed.
Example runes_t : runes "a…b" = [(97, 1%nat); (0x2026, 3%nat); (98, 1%nat)].
Proof. reflexivity. Qed.
End unicode_tests.
