(* ===== verification/GoRegexp.v ===== *)
(** The [regexp] package: leftmost-first matching with captures.

    A regular expression is its syntax tree; [run] lists, in the priority
    order of Go (Perl) semantics, every state a match may end in, so the match
    Go reports is the head of the list. [derives] is the declarative meaning;
    [run_derives] shows that the two agree, in particular that the bound on
    the number of iterations of a star loses nothing. *)
From S2P Require Import Prelude GoStrings GoUnicode.

Inductive regex :=
| REmpty
| RClass (f : Z -> bool)
| RCat (r1 r2 : regex)
| RAlt (r1 r2 : regex)
| RStar (r : regex)
| RGroup (k : nat) (r : regex)
| RBegin
| REnd
| RWordB.

(** A position in the input, with the captures made so far. *)
Record mstate := MState {
  off : nat;                      (* byte offset *)
  prev : option Z;                (* the rune just before it *)
  rest : list (Z * nat);          (* the runes from it on, with widths *)
  caps : list (nat * (nat * nat)) (* group -> byte range, latest first *)
}.

Definition set_cap (k i : nat) (s : mstate) : mstate :=
  MState (off s) (prev s) (rest s) ((k, (i, off s)) :: caps s).

Definition is_word (r : Z) : bool :=
  in_rng 48 57 r || in_rng 65 90 r || in_rng 97 122 r || (r =? 95)%Z.

Definition is_word_opt (o : option Z) : bool := match o with Some r => is_word r | None => false end.

Definition at_word_boundary (s : mstate) : bool :=
  xorb (is_word_opt (prev s)) (is_word_opt (fst <$> head (rest s))).

Definition next_rune (f : Z -> bool) (s : mstate) : list mstate :=
  match rest s with
  | (r, w) :: l => if f r then [MState (off s + w) (Some r) l (caps s)] else []
  | [] => []
  end.

(** One more iteration is preferred to stopping; an iteration that consumes
    nothing does not repeat. *)
Fixpoint star_run (f : mstate -> list mstate) (n : nat) (s : mstate) : list mstate :=
  match n with
  | O => [s]
  | S n =>
    (s' ← f s; if (length (rest s') <? length (rest s))%nat then star_run f n s' else []) ++ [s]
  end.

Fixpoint run (r : regex) (s : mstate) : list mstate :=
  match r with
  | REmpty => [s]
  | RClass f => next_rune f s
  | RCat r1 r2 => s' ← run r1 s; run r2 s'
  | RAlt r1 r2 => run r1 s ++ run r2 s
  | RStar r => star_run (run r) (S (length (rest s))) s
  | RGroup k r => set_cap k (off s) <$> run r s
  | RBegin => if decide (off s = 0%nat) then [s] else []
  | REnd => if decide (rest s = []) then [s] else []
  | RWordB => if at_word_boundary s then [s] else []
  end.

(** ** Searching *)

Definition start_state (s : string) : mstate := MState 0%nat None (runes s) [].

(** The leftmost match from a position on: where it starts, and its end. *)
Fixpoint find_from (re : regex) (o : nat) (p : option Z) (l : list (Z * nat)) :
    option (nat * mstate) :=
  match run re (MState o p l []) with
  | s' :: _ => Some (o, s')
  | [] =>
    match l with
    | [] => None
    | (r, w) :: l => find_from re (o + w) (Some r) l
    end
  end.

Definition slice (s : string) (i j : nat) : string := str_take (j - i) (str_drop i s).

(** [FindStringIndex]; [None] is nil. *)
Definition FindStringIndex (re : regex) (s : string) : option (nat * nat) :=
  (fun m => (fst m, off (snd m))) <$> find_from re 0%nat None (runes s).

Fixpoint cap_of (caps : list (nat * (nat * nat))) (k : nat) : option (nat * nat) :=
  match caps with
  | [] => None
  | (k', ij) :: caps => if decide (k = k') then Some ij else cap_of caps k
  end.

(** Element [k] of a submatch slice: [""] for a group that took no part. *)
Definition submatch (s : string) (m : nat * mstate) (k : nat) : string :=
  match cap_of (caps (snd m)) k with Some (i, j) => slice s i j | None => "" end.

Definition FindStringSubmatch (re : regex) (s : string) : option (nat * mstate) :=
  find_from re 0%nat None (runes s).

(** [FindAllStringSubmatchIndex(s, -1)]: successive leftmost matches; an empty
    match moves on by one rune and is dropped next to the match before it. *)
Fixpoint find_all (fuel : nat) (re : regex) (o : nat) (p : option Z) (l : list (Z * nat))
    (prev_end : option nat) : list (nat * mstate) :=
  match fuel with
  | O => []
  | S fuel =>
    match find_from re o p l with
    | None => []
    | Some (i, s') =>
      if decide (off s' = o) then
        let out := if decide (Some i = prev_end) then [] else [(i, s')] in
        match l with
        | [] => out
        | (r, w) :: l => out ++ find_all fuel re (o + w) (Some r) l (Some (off s'))
        end
      else (i, s') :: find_all fuel re (off s') (prev s') (rest s') (Some (off s'))
    end
  end.

Definition FindAll (re : regex) (s : string) : list (nat * mstate) :=
  find_all (S (length (runes s))) re 0%nat None (runes s) None.

Definition FindAllString (re : regex) (s : string) : list string :=
  (fun m => slice s (fst m) (off (snd m))) <$> FindAll re s.

(** ** Notation for the expressions of the code *)

Definition RPlus (r : regex) : regex := RCat r (RStar r).
Definition ROpt (r : regex) : regex := RAlt r REmpty.
Fixpoint RCats (l : list regex) : regex :=
  match l with [] => REmpty | [r] => r | r :: l => RCat r (RCats l) end.
Fixpoint RAlts (l : list regex) : regex :=
  match l with [] => RClass (fun _ => false) | [r] => r | r :: l => RAlt r (RAlts l) end.
Definition RRep (n : nat) (r : regex) : regex := RCats (repeat r n).
(** [r{n,}] *)
Definition RAtLeast (n : nat) (r : regex) : regex := RCats (repeat r n ++ [RStar r]).

Definition one_of (cs : string) (r : Z) : bool :=
  existsb (fun c => (byteZ c =? r)%Z) (String.list_ascii_of_string cs).
Definition chr (c : ascii) : regex := RClass (fun r => (byteZ c =? r)%Z).
Arguments chr c%_char_scope.
Definition lit (s : string) : regex := RCats (map chr (String.list_ascii_of_string s)).

Definition is_digit (r : Z) : bool := in_rng 48 57 r.               (* \d *)
Definition is_space (r : Z) : bool :=                               (* \s *)
  in_rng 9 10 r || in_rng 12 13 r || (r =? 32)%Z.
Definition is_alpha (r : Z) : bool := in_rng 65 90 r || in_rng 97 122 r.
Definition spaces : regex := RStar (RClass is_space).
Definition not_newline (r : Z) : bool := negb (r =? 10)%Z.

(** ** Declarative meaning *)

Inductive derives : regex -> mstate -> mstate -> Prop :=
| d_empty s : derives REmpty s s
| d_class f s r w l :
    rest s = (r, w) :: l -> f r = true ->
    derives (RClass f) s (MState (off s + w) (Some r) l (caps s))
| d_cat r1 r2 s1 s2 s3 : derives r1 s1 s2 -> derives r2 s2 s3 -> derives (RCat r1 r2) s1 s3
| d_alt_l r1 r2 s s' : derives r1 s s' -> derives (RAlt r1 r2) s s'
| d_alt_r r1 r2 s s' : derives r2 s s' -> derives (RAlt r1 r2) s s'
| d_star_nil r s : derives (RStar r) s s
| d_star_step r s1 s2 s3 :
    derives r s1 s2 -> (length (rest s2) < length (rest s1))%nat ->
    derives (RStar r) s2 s3 -> derives (RStar r) s1 s3
| d_group k r s s' : derives r s s' -> derives (RGroup k r) s (set_cap k (off s) s')
| d_begin s : off s = 0%nat -> derives RBegin s s
| d_end s : rest s = [] -> derives REnd s s
| d_wordb s : at_word_boundary s = true -> derives RWordB s s.

#[export] Hint Constructors derives : go.

Lemma star_run_derives r (Hr : forall s s', s' ∈ run r s <-> derives r s s') n s s' :
  (length (rest s) < n)%nat -> s' ∈ star_run (run r) n s <-> derives (RStar r) s s'.
Proof.
  revert s s'. induction n as [|n IH]; intros s s' Hn; [lia|]. cbn [star_run].
  rewrite elem_of_app, list_elem_of_singleton, list_elem_of_bind. split.
  - intros [(s2 & Hin & Hs2)| ->]; [|constructor].
    destruct (Nat.ltb_spec (length (rest s2)) (length (rest s))); [|by apply not_elem_of_nil in Hin].
    apply Hr in Hs2. eapply d_star_step; [done..|]. apply IH; [lia|done].
  - intros Hd. inversion Hd as [| | | | | |? ? s2 ? H1 H2 H3| | | |]; subst; [by right|left].
    exists s2. rewrite (proj2 (Nat.ltb_lt _ _) H2). split; [|by apply Hr]. apply IH; [lia|done].
Qed.

(** The matcher is sound and complete. *)
Lemma run_derives r s s' : s' ∈ run r s <-> derives r s s'.
Proof.
  revert s s'. induction r as [|f|r1 IH1 r2 IH2|r1 IH1 r2 IH2|r IH|k r IH| | |]; intros s s';
    cbn [run].
  - rewrite list_elem_of_singleton. split; [intros ->; constructor|by inversion 1].
  - unfold next_rune. split.
    + destruct (rest s) as [|[r w] l] eqn:E; [set_solver|].
      destruct (f r) eqn:Ef; [|set_solver]. intros ->%list_elem_of_singleton. by constructor.
    + inversion 1 as [|? ? r w l E Ef| | | | | | | | |]; subst. rewrite E, Ef. by left.
  - rewrite list_elem_of_bind. split.
    + intros (s2 & H2%IH2 & H1%IH1). eauto with go.
    + inversion 1; subst. eexists. rewrite IH1, IH2. eauto.
  - rewrite elem_of_app, IH1, IH2. split; [intros []; eauto with go|inversion 1; eauto].
  - apply star_run_derives; [done|lia].
  - rewrite list_elem_of_fmap. setoid_rewrite IH. split.
    + intros (s2 & -> & H). by constructor.
    + inversion 1; subst. eauto.
  - split.
    + case_decide; [|by intros ?%not_elem_of_nil]. intros ->%list_elem_of_singleton. by constructor.
    + inversion 1; subst. rewrite decide_True by done. by left.
  - split.
    + case_decide; [|by intros ?%not_elem_of_nil]. intros ->%list_elem_of_singleton. by constructor.
    + inversion 1; subst. rewrite decide_True by done. by left.
  - split.
    + destruct (at_word_boundary s) eqn:E; [|by intros ?%not_elem_of_nil].
      intros ->%list_elem_of_singleton. by constructor.
    + inversion 1 as [| | | | | | | | | |? E]; subst. rewrite E. by left.
Qed.

(** ** Consuming input *)

(** The state after consuming the runes [w], with [l] left. *)
Definition advance (w l : list (Z * nat)) (s : mstate) : mstate :=
  MState (off s + total_width w)
         (match last w with Some rw => Some rw.1 | None => prev s end) l (caps s).

Lemma total_width_app w1 w2 : total_width (w1 ++ w2) = (total_width w1 + total_width w2)%nat.
Proof. induction w1 as [|[r w] w1 IH]; simpl; lia. Qed.

Lemma advance_nil s : advance [] (rest s) s = s.
Proof. destruct s. unfold advance. simpl. by rewrite Nat.add_0_r. Qed.

Lemma advance_start o p l c : advance [] l (MState o p l c) = MState o p l c.
Proof. apply (advance_nil (MState o p l c)). Qed.

Lemma advance_advance w1 w2 l1 l2 s :
  advance w2 l2 (advance w1 l1 s) = advance (w1 ++ w2) l2 s.
Proof.
  unfold advance. simpl. rewrite total_width_app, last_app. f_equal; [lia|].
  by destruct (last w2).
Qed.

Lemma derives_class f s s' :
  derives (RClass f) s s' <->
  exists rw l, rest s = rw :: l /\ f rw.1 = true /\ s' = advance [rw] l s.
Proof.
  split.
  - inversion 1 as [|? ? r w l E Ef| | | | | | | | |]; subst. exists (r, w), l.
    split_and!; [done..|]. unfold advance. simpl. by rewrite Nat.add_0_r.
  - intros ([r w] & l & E & Ef & ->). unfold advance. simpl. rewrite Nat.add_0_r. by constructor.
Qed.

Lemma derives_star_class f s s' :
  derives (RStar (RClass f)) s s' <->
  exists w l, rest s = w ++ l /\ Forall (fun rw => f rw.1 = true) w /\ s' = advance w l s.
Proof.
  split.
  - remember (RStar (RClass f)) as R eqn:HR. induction 1; simplify_eq.
    + exists [], (rest s). rewrite advance_nil. split_and!; [done|constructor|done].
    + apply derives_class in H as (rw & l & E & Ef & ->).
      destruct (IHderives2 eq_refl) as (w & l' & E' & Hw & ->). simpl in E'. subst.
      exists (rw :: w), l'. rewrite advance_advance. split_and!; [done|by constructor|done].
  - intros (w & l & E & Hw & ->). revert s E. induction Hw as [|rw w Hr Hw IH]; intros s E.
    + simpl in E. subst. rewrite advance_nil. constructor.
    + simpl in E. eapply d_star_step.
      * apply derives_class. eauto.
      * simpl. rewrite E. simpl. lia.
      * rewrite <- (advance_advance [rw] w (w ++ l)). by apply IH.
Qed.

Lemma derives_cat r1 r2 s s' :
  derives (RCat r1 r2) s s' <-> exists s1, derives r1 s s1 /\ derives r2 s1 s'.
Proof. split; [inversion 1; eauto|intros (? & ? & ?); eauto with go]. Qed.

Lemma derives_alt r1 r2 s s' :
  derives (RAlt r1 r2) s s' <-> derives r1 s s' \/ derives r2 s s'.
Proof. split; [inversion 1; eauto|intros []; eauto with go]. Qed.

Lemma derives_group k r s s' :
  derives (RGroup k r) s s' <-> exists s1, derives r s s1 /\ s' = set_cap k (off s) s1.
Proof. split; [inversion 1; eauto|intros (? & ? & ->); eauto with go]. Qed.

Lemma derives_empty s s' : derives REmpty s s' <-> s' = s.
Proof. split; [by inversion 1|intros ->; constructor]. Qed.

Lemma derives_wordb s s' : derives RWordB s s' <-> at_word_boundary s = true /\ s' = s.
Proof. split; [by inversion 1|intros [? ->]; by constructor]. Qed.

Lemma derives_begin s s' : derives RBegin s s' <-> off s = 0%nat /\ s' = s.
Proof. split; [by inversion 1|intros [? ->]; by constructor]. Qed.

Lemma derives_end s s' : derives REnd s s' <-> rest s = [] /\ s' = s.
Proof. split; [by inversion 1|intros [? ->]; by constructor]. Qed.

(** The code points of an ASCII text. *)
Definition codes (s : string) : list Z := map byteZ (String.list_ascii_of_string s).

Lemma derives_lit t s s' :
  derives (lit t) s s' <->
  exists w l, rest s = w ++ l /\ map fst w = codes t /\ s' = advance w l s.
Proof.
  revert s s'. induction t as [|c t IH]; intros s s'.
  - change (lit "") with REmpty. rewrite derives_empty. split.
    + intros ->. exists [], (rest s). by rewrite advance_nil.
    + intros (w & l & E & Hw & ->). destruct w; [|done]. simpl in E. subst. by rewrite advance_nil.
  - assert (derives (lit (String c t)) s s' <->
      exists s1, derives (chr c) s s1 /\ derives (lit t) s1 s') as ->.
    { destruct t as [|c' t]; [|apply derives_cat]. change (lit (String c "")) with (chr c).
      change (lit "") with REmpty. split; [intros H; exists s'; split; [done|constructor]|].
      by intros (s1 & H & ->%derives_empty). }
    setoid_rewrite IH. setoid_rewrite derives_class. split.
    + intros (s1 & (rw & l & E & Hrw%Z.eqb_eq & ->) & w & l' & E' & Hw & ->). simpl in E'. subst l.
      exists (rw :: w), l'. rewrite advance_advance. split_and!; [done| |done].
      unfold codes in *. simpl. by rewrite Hrw, Hw.
    + intros (w & l & E & Hw & ->). destruct w as [|rw w]; [done|].
      unfold codes in Hw. simpl in Hw. injection Hw as Hrw Hw.
      exists (advance [rw] (w ++ l) s). split.
      * exists rw, (w ++ l). split_and!; [done|by apply Z.eqb_eq|done].
      * exists w, l. by rewrite advance_advance.
Qed.

(** A match consumes a prefix of the input. *)
Lemma derives_consumes r s s' :
  derives r s s' ->
  exists w, rest s = w ++ rest s' /\ off s' = (off s + total_width w)%nat /\
            prev s' = match last w with Some rw => Some rw.1 | None => prev s end.
Proof.
  assert (Hnil : forall s, exists w, rest s = w ++ rest s /\ off s = (off s + total_width w)%nat /\
            prev s = match last w with Some rw => Some rw.1 | None => prev s end).
  { intros t. exists []. simpl. split_and!; [done|lia|done]. }
  assert (Htrans : forall s1 s2 s3,
    (exists w, rest s1 = w ++ rest s2 /\ off s2 = off s1 + total_width w /\
       prev s2 = match last w with Some rw => Some rw.1 | None => prev s1 end)%nat ->
    (exists w, rest s2 = w ++ rest s3 /\ off s3 = off s2 + total_width w /\
       prev s3 = match last w with Some rw => Some rw.1 | None => prev s2 end)%nat ->
    exists w, rest s1 = w ++ rest s3 /\ off s3 = (off s1 + total_width w)%nat /\
       prev s3 = match last w with Some rw => Some rw.1 | None => prev s1 end).
  { intros s1 s2 s3 (w1 & E1 & O1 & P1) (w2 & E2 & O2 & P2). exists (w1 ++ w2).
    rewrite <- app_assoc, <- E2, total_width_app, last_app. split_and!; [done|lia|].
    rewrite P2, P1. by destruct (last w2). }
  induction 1; eauto.
  exists [(r, w)]. simpl. split_and!; [done|lia|done].
Qed.

(** ** What searching finds *)

Lemma find_from_None re o p l :
  find_from re o p l = None <->
  forall pre suf, l = pre ++ suf ->
    forall s', ~ derives re (advance pre suf (MState o p l [])) s'.
Proof.
  revert o p. induction l as [|[r w] l IH]; intros o p; cbn [find_from].
  - destruct (run re (MState o p [] [])) as [|s0 ss] eqn:E.
    + split; [|done]. intros _ pre suf Heq s'. symmetry in Heq.
      apply app_eq_nil in Heq as [-> ->].
      rewrite advance_start, <- run_derives, E. apply not_elem_of_nil.
    + split; [done|]. intros H. exfalso. apply (H [] [] eq_refl s0).
      rewrite advance_start, <- run_derives, E. left.
  - destruct (run re (MState o p ((r, w) :: l) [])) as [|s0 ss] eqn:E.
    + rewrite IH. split.
      * intros H [|rw pre] suf Heq s'; simpl in Heq.
        { subst suf. rewrite advance_start, <- run_derives, E.
          apply not_elem_of_nil. }
        injection Heq as <- ->. specialize (H pre suf eq_refl s').
        change ((r, w) :: pre) with ([(r, w)] ++ pre).
        rewrite <- (advance_advance [(r, w)] pre (pre ++ suf)).
        unfold advance at 2. simpl. by rewrite Nat.add_0_r.
      * intros H pre suf -> s'. specialize (H ((r, w) :: pre) suf eq_refl s').
        change ((r, w) :: pre) with ([(r, w)] ++ pre) in H.
        rewrite <- (advance_advance [(r, w)] pre (pre ++ suf)) in H.
        unfold advance at 2 in H. simpl in H. by rewrite Nat.add_0_r in H.
    + split; [done|]. intros H. exfalso. apply (H [] _ eq_refl s0).
      rewrite advance_start, <- run_derives, E. left.
Qed.

Lemma find_from_Some re o p l i s' :
  find_from re o p l = Some (i, s') ->
  exists pre suf, l = pre ++ suf /\ i = (o + total_width pre)%nat /\
    head (run re (advance pre suf (MState o p l []))) = Some s' /\
    forall pre' suf', l = pre' ++ suf' -> (length pre' < length pre)%nat ->
      run re (advance pre' suf' (MState o p l [])) = [].
Proof.
  revert o p. induction l as [|[r w] l IH]; intros o p; cbn [find_from].
  - destruct (run re (MState o p [] [])) as [|s0 ss] eqn:E; [done|]. intros [= <- <-].
    exists [], []. rewrite advance_start, E. split_and!; [done|simpl; lia|done|].
    simpl. lia.
  - destruct (run re (MState o p ((r, w) :: l) [])) as [|s0 ss] eqn:E.
    + intros (pre & suf & -> & -> & Hh & Hmin)%IH. exists ((r, w) :: pre), suf.
      assert (Hadv : forall pre' suf', advance ((r, w) :: pre') suf' (MState o p ((r, w) :: pre ++ suf) [])
                     = advance pre' suf' (MState (o + w) (Some r) (pre ++ suf) [])).
      { intros. unfold advance. cbn [off prev caps total_width]. f_equal; [lia|].
        rewrite last_cons. by destruct (last pre'). }
      rewrite Hadv. split_and!; [done|simpl; lia|done|].
      intros [|rw pre'] suf' Heq Hlt; simpl in Heq.
      * subst suf'. by rewrite advance_start.
      * injection Heq as <- Heq. rewrite Hadv. apply Hmin; [done|simpl in Hlt; lia].
    + intros [= <- <-]. exists [], ((r, w) :: l).
      rewrite advance_start, E.
      split_and!; [done|simpl; lia|done|]. simpl. lia.
Qed.

Lemma find_from_derives re o p l i s' :
  find_from re o p l = Some (i, s') ->
  exists pre suf, l = pre ++ suf /\ i = (o + total_width pre)%nat /\
    derives re (advance pre suf (MState o p l [])) s'.
Proof.
  intros (pre & suf & ? & ? & Hh & _)%find_from_Some. exists pre, suf. split_and!; [done..|].
  apply run_derives. destruct (run _ _); simplify_eq/=. left.
Qed.

(** Whether a search succeeds. *)
Lemma find_from_is_Some re o p l :
  is_Some (find_from re o p l) <->
  exists pre suf s', l = pre ++ suf /\ derives re (advance pre suf (MState o p l [])) s'.
Proof.
  split.
  - intros [[i s'] (pre & suf & ? & _ & ?)%find_from_derives]. eauto.
  - intros (pre & suf & s' & Heq & Hd). destruct (find_from re o p l) as [m|] eqn:E; [eauto|].
    exfalso. rewrite find_from_None in E. by eapply E.
Qed.

(** ** Expressions without captures: all matches *)

(** The state at the split of the input into [pre] and [suf]. *)
Definition at_split (pre suf : list (Z * nat)) : mstate :=
  MState (total_width pre) (fst <$> last pre) suf [].

Lemma advance_at_split pre w l suf : advance w suf (at_split pre l) = at_split (pre ++ w) suf.
Proof.
  unfold advance, at_split. simpl. rewrite total_width_app, last_app. f_equal.
  by destruct (last w).
Qed.

(** [re] matches, between [pre] and [suf], exactly the words [W] says; words
    are not empty, are determined by where they start, and do not overlap. *)
Record rigid (re : regex) (W : list (Z * nat) -> list (Z * nat) -> list (Z * nat) -> Prop) : Prop := {
  rigid_derives pre l s' : derives re (at_split pre l) s' <->
    exists w suf, l = w ++ suf /\ W pre w suf /\ s' = at_split (pre ++ w) suf;
  rigid_nonempty pre w suf : W pre w suf -> w <> [];
  rigid_disjoint pre1 w1 suf1 pre2 w2 suf2 :
    pre1 ++ w1 ++ suf1 = pre2 ++ w2 ++ suf2 -> W pre1 w1 suf1 -> W pre2 w2 suf2 ->
    (length pre1 = length pre2 -> w1 = w2) /\
    (length pre1 < length pre2 -> length pre1 + length w1 <= length pre2)%nat
}.

Section rigid.
Context re W (HW : rigid re W).

Lemma rigid_find pre l i s' :
  find_from re (total_width pre) (fst <$> last pre) l = Some (i, s') ->
  exists gap w suf, l = gap ++ w ++ suf /\ W (pre ++ gap) w suf /\
    i = total_width (pre ++ gap) /\ s' = at_split (pre ++ gap ++ w) suf /\
    forall gap' w' suf', l = gap' ++ w' ++ suf' -> W (pre ++ gap') w' suf' ->
      (length gap <= length gap')%nat.
Proof.
  intros (gap & l' & -> & -> & Hh & Hmin)%find_from_Some.
  fold (at_split pre (gap ++ l')) in *. rewrite advance_at_split in Hh.
  assert (derives re (at_split (pre ++ gap) l') s') as Hd.
  { apply run_derives. destruct (run _ _); simplify_eq/=. left. }
  apply (rigid_derives _ _ HW) in Hd as (w & suf & -> & Hw & ->).
  exists gap, w, suf. rewrite total_width_app.
  split_and!; [done..|by rewrite app_assoc|].
  intros gap' w' suf' Hl Hw'. destruct (decide (length gap <= length gap')%nat); [done|].
  exfalso. specialize (Hmin gap' (w' ++ suf') Hl ltac:(lia)). rewrite advance_at_split in Hmin.
  assert (at_split (pre ++ gap' ++ w') suf' ∈ run re (at_split (pre ++ gap') (w' ++ suf'))) as Hin.
  { apply run_derives, (rigid_derives _ _ HW). exists w', suf'. by rewrite app_assoc. }
  rewrite Hmin in Hin. by apply not_elem_of_nil in Hin.
Qed.

Lemma total_width_pos w : w <> [] -> Forall (fun rw => 1 <= rw.2)%nat w -> (0 < total_width w)%nat.
Proof. intros Hne Hw. destruct Hw as [|[r k] w Hk _]; [done|]. simpl in *. lia. Qed.

Lemma app_split_at {A} (pre1 l1 pre2 l2 : list A) :
  pre1 ++ l1 = pre2 ++ l2 -> (length pre1 <= length pre2)%nat ->
  exists gap, pre2 = pre1 ++ gap /\ l1 = gap ++ l2.
Proof.
  intros Heq Hle. destruct (app_eq_inv _ _ _ _ Heq) as [(k & -> & ->)|(k & -> & ->)]; [|eauto].
  rewrite length_app in Hle. destruct k; [|simpl in Hle; lia].
  exists []. rewrite !app_nil_r. done.
Qed.

Lemma rigid_find_all fuel pre l pe i s' :
  (length l < fuel)%nat -> Forall (fun rw => 1 <= rw.2)%nat l ->
  (i, s') ∈ find_all fuel re (total_width pre) (fst <$> last pre) l pe <->
  exists gap w suf, l = gap ++ w ++ suf /\ W (pre ++ gap) w suf /\
    i = total_width (pre ++ gap) /\ s' = at_split (pre ++ gap ++ w) suf.
Proof.
  revert pre l pe. induction fuel as [|fuel IH]; intros pre l pe Hf Hl; [lia|].
  cbn [find_all].
  destruct (find_from re (total_width pre) (fst <$> last pre) l) as [[i0 s0]|] eqn:E.
  - apply rigid_find in E as (gap & w & suf & -> & Hw & -> & -> & Hmin).
    pose proof (rigid_nonempty _ _ HW _ _ _ Hw) as Hne.
    apply Forall_app in Hl as [Hlg Hl]. apply Forall_app in Hl as [Hlw Hls].
    pose proof (total_width_pos w Hne Hlw) as Hpos.
    rewrite decide_False by (simpl; rewrite !total_width_app; lia).
    rewrite elem_of_cons. cbn [off prev rest at_split].
    assert (0 < length w)%nat by (destruct w; [done|simpl; lia]).
    rewrite !length_app in Hf. rewrite IH; [|lia|done]. split.
    + intros [[= -> ->]|(g & v & z & -> & Hv & -> & ->)]; [eauto 10|].
      exists (gap ++ w ++ g), v, z. rewrite <- !app_assoc in *. done.
    + intros (g & v & z & Heq & Hv & -> & ->).
      assert (Hdis : pre ++ gap ++ w ++ suf = (pre ++ g) ++ v ++ z) by (by rewrite Heq, <- app_assoc).
      destruct (rigid_disjoint _ _ HW (pre ++ gap) w suf (pre ++ g) v z) as [Hsame Hlt];
        [by rewrite <- app_assoc|done..|].
      rewrite !length_app in Hsame, Hlt. specialize (Hmin _ _ _ Heq Hv).
      destruct (decide (length gap = length g)) as [Hlen|].
      * left. rewrite (Hsame ltac:(lia)) in *.
        apply app_inj_1 in Heq as [-> Heq]; [|done]. apply app_inv_head in Heq as ->. done.
      * right. destruct (app_split_at (gap ++ w) suf g (v ++ z)) as (g' & -> & ->).
        { by rewrite <- app_assoc. }
        { rewrite length_app. lia. }
        exists g', v, z. rewrite <- !app_assoc in *. done.
  - rewrite find_from_None in E. fold (at_split pre l) in E.
    split; [by intros ?%not_elem_of_nil|]. intros (g & v & z & -> & Hv & _).
    exfalso. apply (E g (v ++ z) eq_refl (at_split (pre ++ g ++ v) z)).
    rewrite advance_at_split. apply (rigid_derives _ _ HW). exists v, z. by rewrite app_assoc.
Qed.

(** [FindAll] on a rigid expression finds every match there is. *)
Lemma rigid_FindAll s i s' :
  (i, s') ∈ FindAll re s <->
  exists pre w suf, runes s = pre ++ w ++ suf /\ W pre w suf /\
    i = total_width pre /\ s' = at_split (pre ++ w) suf.
Proof.
  unfold FindAll. apply (rigid_find_all _ []); [lia|].
  apply Forall_forall. intros [r w] Hin. by eapply runes_from_width.
Qed.
End rigid.

(** ** ASCII slices *)

Definition rune_str (w : list (Z * nat)) : string := bytes_str w.*1.

Lemma runes_from_drop k s : runes_from k s = runes (str_drop k s).
Proof.
  unfold runes. revert s. induction k as [|k IH]; intros [|c s]; try done.
  cbn [runes_from str_drop]. apply IH.
Qed.

Lemma runes_cons s r w l :
  runes s = (r, w) :: l -> DecodeRune s = (r, w) /\ runes (str_drop w s) = l.
Proof.
  destruct s as [|c s]; [done|]. unfold runes at 1. cbn [runes_from].
  pose proof (DecodeRune_width (String c s) ltac:(done)) as Hw.
  destruct (DecodeRune (String c s)) as [r' w'] eqn:E. cbn [snd] in *. intros [= -> -> Hl].
  split; [done|]. rewrite <- Hl, runes_from_drop. destruct w as [|w]; [lia|].
  cbn [str_drop]. f_equal. f_equal. lia.
Qed.

Lemma str_drop_drop n m s : str_drop n (str_drop m s) = str_drop (m + n) s.
Proof. revert s. induction m; intros [|c s]; try done; [by destruct n|]. apply IHm. Qed.

Lemma runes_drop pre l s : runes s = pre ++ l -> runes (str_drop (total_width pre) s) = l.
Proof.
  revert s. induction pre as [|[r w] pre IH]; intros s; simpl; [done|].
  intros [_ H]%runes_cons. apply IH in H. by rewrite str_drop_drop in H.
Qed.

Lemma DecodeRune_ascii_byte s r w :
  DecodeRune s = (r, w) -> (r < 0x80)%Z -> s <> EmptyString ->
  exists s', s = String (Zbyte r) s' /\ w = 1%nat.
Proof.
  intros Hd Hr Hne. destruct (DecodeRune_ascii_width _ _ _ Hd Hr) as [->|]; [|done].
  destruct s as [|c s]; [done|]. exists s. split; [|done]. f_equal.
  pose proof (byteZ_range c) as Hc.
  destruct (Z_lt_dec (byteZ c) 0x80).
  { rewrite DecodeRune_ascii in Hd by done. injection Hd as <-. by rewrite Zbyte_byteZ. }
  exfalso. revert Hd. unfold DecodeRune. rewrite (proj2 (Z.ltb_ge _ _)) by lia.
  unfold RuneError in *. repeat case_match; intros [= <-]; lia.
Qed.

Lemma take_ascii_runes w suf s :
  runes s = w ++ suf -> Forall (fun rw => rw.1 < 0x80)%Z w ->
  str_take (total_width w) s = rune_str w.
Proof.
  intros Hs Hw. revert s Hs. induction Hw as [|[r k] w Hr Hw IH]; intros s Hs; [by destruct s|].
  simpl in *. assert (s <> EmptyString) by (intros ->; done).
  apply runes_cons in Hs as [Hd Hs].
  destruct (DecodeRune_ascii_byte _ _ _ Hd Hr) as (s' & -> & ->); [done|].
  simpl in *. unfold rune_str. simpl. f_equal. by apply IH.
Qed.

Lemma slice_ascii pre w suf s :
  runes s = pre ++ w ++ suf -> Forall (fun rw => rw.1 < 0x80)%Z w ->
  slice s (total_width pre) (total_width (pre ++ w)) = rune_str w.
Proof.
  intros Hs Hw. unfold slice. rewrite total_width_app.
  replace (total_width pre + total_width w - total_width pre)%nat with (total_width w) by lia.
  apply runes_drop in Hs. by apply take_ascii_runes with suf.
Qed.

(** ** What [FindAll] lists *)

(** Matches are disjoint and in order. *)
Definition match_before (m1 m2 : nat * mstate) : Prop := (off m1.2 <= m2.1)%nat.

Section find_all.
Context (re : regex).

(** A match inside [pre ++ l], at or after the end of [pre]. *)
Definition match_in (pre l : list (Z * nat)) (m : nat * mstate) : Prop :=
  exists gap suf, l = gap ++ suf /\ m.1 = total_width (pre ++ gap) /\
    derives re (at_split (pre ++ gap) suf) m.2.

Lemma match_in_bounds pre l m :
  match_in pre l m -> (total_width pre <= m.1 <= off m.2)%nat.
Proof.
  intros (gap & suf & -> & Hi & (w & _ & Ho & _)%derives_consumes).
  simpl in Ho. rewrite total_width_app in *. lia.
Qed.

Lemma match_in_shift pre g l m : match_in (pre ++ g) l m -> match_in pre (g ++ l) m.
Proof.
  intros (gap & suf & -> & Hi & Hd). exists (g ++ gap), suf. by rewrite <- !app_assoc in *.
Qed.

Lemma find_all_spec fuel pre l pe :
  Forall (match_in pre l) (find_all fuel re (total_width pre) (fst <$> last pre) l pe) /\
  StronglySorted match_before (find_all fuel re (total_width pre) (fst <$> last pre) l pe).
Proof.
  revert pre l pe. induction fuel as [|fuel IH]; intros pre l pe; [split; constructor|].
  cbn [find_all].
  destruct (find_from re _ _ l) as [[i s']|] eqn:E; [|split; constructor].
  assert (Hm : match_in pre l (i, s')).
  { apply find_from_derives in E as (gap & suf & -> & -> & Hd). exists gap, suf.
    fold (at_split pre (gap ++ suf)) in Hd. rewrite advance_at_split in Hd.
    cbn [fst snd]. rewrite total_width_app. done. }
  assert (Hcut : forall q l', off s' = total_width q -> match_in pre l (i, s') ->
    Forall (match_in q l') (find_all fuel re (total_width q) (fst <$> last q) l' (Some (off s'))) ->
    Forall (match_before (i, s')) (find_all fuel re (total_width q) (fst <$> last q) l' (Some (off s')))).
  { intros q l' Hq _ Hf. eapply Forall_impl; [exact Hf|]. intros m Hb%match_in_bounds.
    unfold match_before. simpl. lia. }
  case_decide as Hempty.
  - assert (Htail : forall r w l', l = (r, w) :: l' ->
      let rest := find_all fuel re (total_width pre + w) (Some r) l' (Some (off s')) in
      Forall (match_in pre l) rest /\ StronglySorted match_before rest /\
      Forall (match_before (i, s')) rest).
    { intros r w l' ->. cbv zeta. specialize (IH (pre ++ [(r, w)]) l' (Some (off s'))).
      rewrite total_width_app, last_snoc in IH. simpl in IH. rewrite Nat.add_0_r in IH.
      destruct IH as [IHf IHs]. split_and!; [|done|].
      - eapply Forall_impl; [exact IHf|]. intros m Hm'. by apply (match_in_shift pre [(r, w)]).
      - eapply Forall_impl; [exact IHf|]. intros m Hb%match_in_bounds.
        rewrite total_width_app in Hb. unfold match_before. simpl in *. lia. }
    destruct l as [|[r w] l'].
    + case_decide; (split; [|repeat constructor]); repeat constructor; done.
    + destruct (Htail r w l' eq_refl) as (Hf & Hs & Hb). case_decide; simpl.
      * done.
      * split; constructor; done.
  - pose proof Hm as (gap & suf & El & Ei & Hd). cbn [fst snd] in *.
    apply derives_consumes in Hd as (w & Ew & Eo & Ep). cbn [rest at_split] in Ew, Eo, Ep.
    specialize (IH (pre ++ gap ++ w) (rest s') (Some (off s'))).
    assert (total_width (pre ++ gap ++ w) = off s') as Ht.
    { rewrite Eo. simpl. by rewrite !total_width_app, Nat.add_assoc. }
    assert (fst <$> last (pre ++ gap ++ w) = prev s') as Hp.
    { rewrite Ep, app_assoc, last_app. by destruct (last w). }
    rewrite Ht, Hp in IH. destruct IH as [IHf IHs].
    split; constructor; [done| |done|].
    + eapply Forall_impl; [exact IHf|]. intros m Hm'. rewrite El, Ew.
      apply match_in_shift. by rewrite app_assoc in Hm'; apply match_in_shift.
    + eapply Forall_impl; [exact IHf|]. intros m Hb%match_in_bounds.
      unfold match_before. simpl. lia.
Qed.

Lemma FindAll_spec s :
  Forall (match_in [] (runes s)) (FindAll re s) /\ StronglySorted match_before (FindAll re s).
Proof. apply (find_all_spec _ [] (runes s)). Qed.

(** [FindAll] lists something when there is a match anywhere. *)
Lemma FindAll_nil s :
  (forall s1 s2, derives re s1 s2 -> (length (rest s2) < length (rest s1))%nat) ->
  FindAll re s = [] <->
  forall pre suf s', runes s = pre ++ suf -> ~ derives re (at_split pre suf) s'.
Proof.
  intros Hne. unfold FindAll. cbn [find_all].
  destruct (find_from re 0 None (runes s)) as [[i s']|] eqn:E.
  - split; [case_decide as Ho|]; intros H.
    + exfalso. apply find_from_derives in E as (pre & suf & El & Ei & Hd).
      pose proof (Hne _ _ Hd) as Hlt. apply derives_consumes in Hd as (w & Ew & Eo & _).
      simpl in *. assert (total_width w = 0)%nat as Hz by lia.
      assert (w <> []) by (intros ->; rewrite Ew in Hlt; simpl in Hlt; lia).
      destruct w as [|[r k] w]; [done|].
      assert ((r, k) ∈ runes s) as Hk by (rewrite El, Ew; set_solver).
      apply runes_from_width in Hk. simpl in Hz. lia.
    + done.
    + exfalso. apply find_from_derives in E as (pre & suf & El & Ei & Hd).
      apply (H pre suf s' El). fold (at_split [] (runes s)) in Hd.
      change (MState 0 None (runes s) []) with (at_split [] (runes s)) in Hd.
      by rewrite advance_at_split in Hd.
  - split; [|done]. intros _ pre suf s' El Hd. rewrite find_from_None in E.
    apply (E pre suf El s').
    change (MState 0 None (runes s) []) with (at_split [] (runes s)).
    by rewrite advance_at_split.
Qed.
End find_all.

(** ** Positions relative to the start of a match *)

(** The state after consuming [w], with [l] left and the captures [c]. *)
Definition past (s : mstate) (w l : list (Z * nat)) (c : list (nat * (nat * nat))) : mstate :=
  MState (off s + total_width w) (match last w with Some rw => Some rw.1 | None => prev s end) l c.

Section past.
Context (s : mstate).

Lemma past_start : past s [] (rest s) (caps s) = s.
Proof. destruct s. unfold past. simpl. by rewrite Nat.add_0_r. Qed.

Lemma past_advance w v l l' c : advance v l' (past s w l c) = past s (w ++ v) l' c.
Proof.
  unfold advance, past. simpl. rewrite total_width_app, last_app. f_equal; [lia|].
  by destruct (last v).
Qed.

Lemma past_class f w l c s' :
  derives (RClass f) (past s w l c) s' <->
  exists rw l', l = rw :: l' /\ f rw.1 = true /\ s' = past s (w ++ [rw]) l' c.
Proof. rewrite derives_class. setoid_rewrite past_advance. done. Qed.

Lemma past_star f w l c s' :
  derives (RStar (RClass f)) (past s w l c) s' <->
  exists v l', l = v ++ l' /\ Forall (fun rw => f rw.1 = true) v /\ s' = past s (w ++ v) l' c.
Proof. rewrite derives_star_class. setoid_rewrite past_advance. done. Qed.

Lemma past_lit t w l c s' :
  derives (lit t) (past s w l c) s' <->
  exists v l', l = v ++ l' /\ map fst v = codes t /\ s' = past s (w ++ v) l' c.
Proof.
  rewrite derives_lit. setoid_rewrite past_advance. split.
  - intros (v & l' & E & Hv & ->). exists v, l'. done.
  - intros (v & l' & E & Hv & ->). exists v, l'. done.
Qed.

Lemma past_set_cap k i w l c :
  set_cap k i (past s w l c) = past s w l ((k, (i, off s + total_width w)%nat) :: c).
Proof. done. Qed.

Lemma past_group k r w l c s' :
  derives (RGroup k r) (past s w l c) s' <->
  exists s1, derives r (past s w l c) s1 /\ s' = set_cap k (off s + total_width w) s1.
Proof. apply derives_group. Qed.

Lemma past_wordb w l c s' :
  derives RWordB (past s w l c) s' <->
  at_word_boundary (past s w l c) = true /\ s' = past s w l c.
Proof. apply derives_wordb. Qed.
End past.

(** ** Runes of concatenations *)

(** An ASCII byte never continues a sequence, so decoding does not look past
    it. *)
Lemma DecodeRune_app s c t :
  s <> "" -> (byteZ c < 0x80)%Z -> DecodeRune (s +:+ String c t) = DecodeRune s.
Proof.
  intros Hs Hc. assert (Hcont : forall lo hi, (0x80 <= lo)%Z -> in_rng lo hi (byteZ c) = false).
  { intros lo hi Hlo. unfold in_rng. by rewrite (proj2 (Z.leb_gt lo (byteZ c))) by lia. }
  destruct s as [|c0 [|c1 [|c2 [|c3 s]]]]; [done|..]; unfold DecodeRune; simpl;
    repeat (case_match; try done; simpl in *);
    repeat match goal with
    | H : _ && _ = true |- _ => apply andb_true_iff in H as [? ?]
    | H : in_rng _ _ (byteZ c) = true |- _ => rewrite Hcont in H; [done|by repeat case_match]
    end; try done.
Qed.

Lemma runes_app_ascii s c t :
  (byteZ c < 0x80)%Z -> runes (s +:+ String c t) = runes s ++ runes (String c t).
Proof.
  intros Hc. unfold runes.
  assert (Hgen : forall n s k, (len s <= n)%nat -> (k <= len s)%nat ->
    runes_from k (s +:+ String c t) = runes_from k s ++ runes_from 0 (String c t)).
  { clear s. induction n as [|n IH]; intros [|d s] k Hn Hk; simpl in Hn, Hk; try lia.
    - by replace k with 0%nat by lia.
    - by replace k with 0%nat by lia.
    - destruct k as [|k]; [|apply (IH s k); lia].
      change (String d s +:+ String c t) with (String d (s +:+ String c t)). cbn [runes_from].
      pose proof (DecodeRune_app (String d s) c t ltac:(done) Hc) as Hd.
      change (String d s +:+ String c t) with (String d (s +:+ String c t)) in Hd. rewrite Hd.
      pose proof (DecodeRune_width_le (String d s)) as Hw. cbn [String.length] in Hw.
      rewrite (IH s) by lia. done. }
  apply (Hgen (len s)); lia.
Qed.

(** The runes of an ASCII string. *)
Definition ascii_runes (s : string) : list (Z * nat) :=
  map (fun c => (byteZ c, 1%nat)) (String.list_ascii_of_string s).

Lemma ascii_runes_app s t : ascii_runes (s +:+ t) = ascii_runes s ++ ascii_runes t.
Proof. unfold ascii_runes. induction s as [|c s IH]; simpl; [done|]. by rewrite IH. Qed.

Lemma runes_ascii_l s t : isASCII s = true -> runes (s +:+ t) = ascii_runes s ++ runes t.
Proof. apply runes_ascii_app. Qed.

Lemma total_width_ascii s : total_width (ascii_runes s) = len s.
Proof. unfold ascii_runes. induction s as [|c s IH]; simpl; [done|]. by rewrite IH. Qed.

Lemma slice_app p s q : slice (p +:+ s +:+ q) (len p) (len p + len s) = s.
Proof.
  unfold slice. rewrite str_drop_app. replace (len p + len s - len p)%nat with (len s) by lia.
  apply str_take_app.
Qed.

(** ** Greedy spans *)

(** The next rune, if any, is outside the class. *)
Definition stops (f : Z -> bool) (l : list (Z * nat)) : Prop :=
  match l with [] => True | rw :: _ => f rw.1 = false end.

Lemma span_unique f (v1 v2 l1 l2 : list (Z * nat)) :
  v1 ++ l1 = v2 ++ l2 -> Forall (fun rw => f rw.1 = true) v1 -> Forall (fun rw => f rw.1 = true) v2 ->
  stops f l1 -> stops f l2 -> v1 = v2 /\ l1 = l2.
Proof.
  revert v2. induction v1 as [|x v1 IH]; intros [|y v2] Heq H1 H2 Hs1 Hs2; simpl in *.
  - done.
  - subst. simpl in Hs1. apply Forall_cons in H2 as [H2 _]. congruence.
  - subst. simpl in Hs2. apply Forall_cons in H1 as [H1 _]. congruence.
  - injection Heq as -> Heq. apply Forall_cons in H1 as [_ H1]. apply Forall_cons in H2 as [_ H2].
    destruct (IH v2 Heq H1 H2 Hs1 Hs2) as [-> ->]. done.
Qed.

(** A search that matches at the start, in one way only. *)
Lemma find_from_here re o p l s' :
  derives re (MState o p l []) s' ->
  exists s1, find_from re o p l = Some (o, s1) /\ derives re (MState o p l []) s1.
Proof.
  intros Hd. apply run_derives in Hd. destruct (run re (MState o p l [])) as [|s1 ss] eqn:E;
    [by apply not_elem_of_nil in Hd|].
  exists s1. split; [by destruct l; cbn [find_from]; rewrite E|]. apply run_derives. rewrite E. left.
Qed.

(** A search that cannot match at the first rune. *)
Lemma find_from_skip re o p r w l :
  (forall s', ~ derives re (MState o p ((r, w) :: l) []) s') ->
  find_from re o p ((r, w) :: l) = find_from re (o + w) (Some r) l.
Proof.
  intros Hn. cbn [find_from]. destruct (run re (MState o p ((r, w) :: l) [])) as [|s1 ss] eqn:E; [done|].
  exfalso. apply (Hn s1). apply run_derives. rewrite E. left.
Qed.

Lemma span_nil f x (X v l : list (Z * nat)) :
  x :: X = v ++ l -> f x.1 = false -> Forall (fun rw => f rw.1 = true) v -> v = [] /\ l = x :: X.
Proof.
  intros Heq Hx Hv. destruct v as [|y v]; [done|]. simpl in Heq. injection Heq as <- _.
  apply Forall_cons in Hv as [Hv _]. congruence.
Qed.

Lemma app_eq_ascii t v (X l : list (Z * nat)) :
  ascii_runes t ++ X = v ++ l -> map fst v = codes t -> v = ascii_runes t /\ l = X.
Proof.
  unfold ascii_runes, codes. revert v. generalize (String.list_ascii_of_string t).
  intros cs. induction cs as [|c cs IH]; intros [|rw v] Heq Hv; try done; simpl in *.
  injection Heq as <- Heq. injection Hv as Hv. destruct (IH v Heq Hv) as [-> ->]. done.
Qed.

Definition class_str (f : Z -> bool) (s : string) : bool := str_forall (fun c => f (byteZ c)) s.

Lemma class_str_Forall f s : class_str f s = true -> Forall (fun rw => f rw.1 = true) (ascii_runes s).
Proof.
  unfold class_str, ascii_runes. induction s as [|c s IH]; simpl; [constructor|].
  rewrite andb_true_iff. intros [Hc Hs]. constructor; [done|by apply IH].
Qed.

Lemma class_str_ascii f s : (forall r, f r = true -> (r < 0x80)%Z) -> class_str f s = true -> isASCII s = true.
Proof.
  intros Hf. apply str_forall_impl. intros c Hc. apply Z.ltb_lt. by apply Hf.
Qed.

Lemma is_word_lt r : is_word r = true -> (r < 0x80)%Z.
Proof.
  unfold is_word, in_rng. rewrite !orb_true_iff, !andb_true_iff, !Z.leb_le, Z.eqb_eq. lia.
Qed.

Lemma stops_lit f c t v l :
  map fst v = codes (String c t) -> f (byteZ c) = false -> stops f (v ++ l).
Proof. destruct v as [|rw v]; [done|]. unfold codes. simpl. intros [= -> _]. done. Qed.

(** An expression without captures all of whose classes lie in [f]. *)
Definition eats (f : Z -> bool) (r : regex) : Prop := forall s w l c s',
  derives r (past s w l c) s' ->
  exists p l', l = p ++ l' /\ Forall (fun rw => f rw.1 = true) p /\ s' = past s (w ++ p) l' c.

Lemma eats_empty f : eats f REmpty.
Proof. intros s w l c s' ->%derives_empty. exists [], l. by rewrite app_nil_r. Qed.

Lemma eats_class f g : (forall r, g r = true -> f r = true) -> eats f (RClass g).
Proof.
  intros Hg s w l c s' (rw & l' & -> & Hrw & ->)%past_class. exists [rw], l'.
  split_and!; [done| |done]. repeat constructor. by apply Hg.
Qed.

Lemma eats_cat f r1 r2 : eats f r1 -> eats f r2 -> eats f (RCat r1 r2).
Proof.
  intros H1 H2 s w l c s' (s1 & (p1 & l1 & -> & Hp1 & ->)%H1 & (p2 & l2 & -> & Hp2 & ->)%H2)%derives_cat.
  exists (p1 ++ p2), l2. rewrite <- !app_assoc. split_and!; [done| |done]. by apply Forall_app.
Qed.

Lemma eats_alt f r1 r2 : eats f r1 -> eats f r2 -> eats f (RAlt r1 r2).
Proof. intros H1 H2 s w l c s' [Hd|Hd]%derives_alt; [by apply H1|by apply H2]. Qed.

Lemma eats_opt f r : eats f r -> eats f (ROpt r).
Proof. intros Hr. apply eats_alt; [done|apply eats_empty]. Qed.

#[export] Hint Resolve eats_empty eats_class eats_cat eats_alt eats_opt : go.
