(* ===== verification/Model.v ===== *)
(** [internal/mcpmodel]: tools, tool sets, and the dynamic JSON values
    ([any]) their schemas are made of.

    A Go [map[string]any] is the list of its entries in the order a [range]
    loop happens to visit them; keys are distinct ([any_wf]). Two values that
    differ only in iteration order are related by [any_equiv], so "the result
    does not depend on Go's randomised map order" is a statement about
    [any_equiv]. *)
From Stdlib Require Import Floats.SpecFloat.
From S2P Require Import Prelude.

(** A Go [float64]: the IEEE 754 binary64 data of the standard library. *)
Abbreviation float64 := spec_float.

Inductive any : Type :=
| VNil
| VBool (b : bool)
| VNum (f : float64)
| VStr (s : string)
| VArr (l : list any)
| VMap (m : list (string * any)).

Abbreviation amap := (list (string * any)).

(** Induction with hypotheses for the elements of arrays and maps. *)
Section any_ind.
Context (P : any -> Prop)
  (Hnil : P VNil) (Hbool : forall b, P (VBool b)) (Hnum : forall f, P (VNum f))
  (Hstr : forall s, P (VStr s))
  (Harr : forall l, Forall P l -> P (VArr l))
  (Hmap : forall m, Forall (fun e => P (snd e)) m -> P (VMap m)).

Fixpoint any_ind_nested (v : any) : P v :=
  match v with
  | VNil => Hnil
  | VBool b => Hbool b
  | VNum f => Hnum f
  | VStr s => Hstr s
  | VArr l => Harr l
    ((fix go l := match l return Forall P l with
      | [] => List.Forall_nil _
      | x :: l => List.Forall_cons _ _ _ (any_ind_nested x) (go l) end) l)
  | VMap m => Hmap m
    ((fix go m := match m return Forall (fun e => P (snd e)) m with
      | [] => List.Forall_nil _
      | x :: m => List.Forall_cons _ _ _ (any_ind_nested (snd x)) (go m) end) m)
  end.
End any_ind.

(** Type assertions [v.(T)]. *)
Definition as_map (v : any) : option amap := match v with VMap m => Some m | _ => None end.
Definition as_arr (v : any) : option (list any) := match v with VArr l => Some l | _ => None end.
Definition as_str (v : any) : option string := match v with VStr s => Some s | _ => None end.

(** [m[k]], and the two-value form of it. *)
Fixpoint get (m : amap) (k : string) : option any :=
  match m with
  | [] => None
  | (k', v) :: m => if decide (k = k') then Some v else get m k
  end.

Definition has (m : amap) (k : string) : bool :=
  match get m k with Some _ => true | None => false end.

(** Every map has distinct keys. *)
Inductive any_wf : any -> Prop :=
| wf_nil : any_wf VNil
| wf_bool b : any_wf (VBool b)
| wf_num f : any_wf (VNum f)
| wf_str s : any_wf (VStr s)
| wf_arr l : Forall any_wf l -> any_wf (VArr l)
| wf_map m : NoDup m.*1 -> Forall (fun e => any_wf (snd e)) m -> any_wf (VMap m).

(** Equality up to the iteration order of maps. *)
Inductive any_equiv : any -> any -> Prop :=
| eqv_nil : any_equiv VNil VNil
| eqv_bool b : any_equiv (VBool b) (VBool b)
| eqv_num f : any_equiv (VNum f) (VNum f)
| eqv_str s : any_equiv (VStr s) (VStr s)
| eqv_arr l1 l2 : Forall2 any_equiv l1 l2 -> any_equiv (VArr l1) (VArr l2)
| eqv_map m1 m m2 :
    Forall2 (fun e1 e2 => fst e1 = fst e2 /\ any_equiv (snd e1) (snd e2)) m1 m ->
    m ≡ₚ m2 -> any_equiv (VMap m1) (VMap m2).

Definition amap_equiv (m1 m2 : amap) : Prop := any_equiv (VMap m1) (VMap m2).

Record Tool := mkTool {
  Name : string;
  Description : string;
  InputSchema : option amap;     (* [None] is the nil map *)
  SourceFile : string;
  SourceLine : Z
}.

Record ToolSet := mkToolSet { Tools : list Tool; Source : string }.

Definition tool_wf (t : Tool) : Prop :=
  match InputSchema t with None => True | Some m => any_wf (VMap m) end.

(** Tools equal up to the iteration order of their schemas' maps. *)
Definition tool_equiv (t1 t2 : Tool) : Prop :=
  Name t1 = Name t2 /\ Description t1 = Description t2 /\
  SourceFile t1 = SourceFile t2 /\ SourceLine t1 = SourceLine t2 /\
  match InputSchema t1, InputSchema t2 with
  | None, None => True
  | Some m1, Some m2 => amap_equiv m1 m2
  | _, _ => False
  end.

(** ** Lookups *)

Lemma get_Some_elem m k v : get m k = Some v -> (k, v) ∈ m.
Proof. induction m as [|[k' v'] m IH]; simpl; [done|]. case_decide; set_solver. Qed.

Lemma elem_get m k v : NoDup m.*1 -> (k, v) ∈ m -> get m k = Some v.
Proof.
  induction m as [|[k' v'] m IH]; simpl; [set_solver|].
  rewrite NoDup_cons. intros [Hk Hnd] [[= -> ->]|Hin]%elem_of_cons; case_decide; try done.
  - subst. exfalso. apply Hk. apply list_elem_of_fmap. by exists (k', v).
  - eauto.
Qed.

Lemma get_None m k : get m k = None <-> k ∉ m.*1.
Proof. induction m as [|[k' v'] m IH]; simpl; [set_solver|]. case_decide; set_solver. Qed.

Lemma get_perm m1 m2 k : NoDup m1.*1 -> m1 ≡ₚ m2 -> get m1 k = get m2 k.
Proof.
  intros Hnd Hp. destruct (get m1 k) as [v|] eqn:E.
  - symmetry. apply elem_get; [by rewrite <- Hp|]. rewrite <- Hp. by apply get_Some_elem.
  - symmetry. apply get_None. rewrite <- Hp. by apply get_None.
Qed.

Lemma get_Forall2 m1 m2 k :
  Forall2 (fun e1 e2 => fst e1 = fst e2 /\ any_equiv (snd e1) (snd e2)) m1 m2 ->
  option_relation any_equiv (fun _ => False) (fun _ => False) (get m1 k) (get m2 k).
Proof.
  induction 1 as [|[k1 v1] [k2 v2] m1 m2 [Hk Hv] _ IH]; simpl in *; [done|].
  subst. by case_decide.
Qed.

Lemma any_wf_map_inv m : any_wf (VMap m) -> NoDup m.*1 /\ Forall (fun e => any_wf (snd e)) m.
Proof. by inversion 1. Qed.

Lemma any_wf_get m k v : any_wf (VMap m) -> get m k = Some v -> any_wf v.
Proof.
  intros [_ Hf]%any_wf_map_inv Hg%get_Some_elem. rewrite Forall_forall in Hf.
  by apply (Hf (k, v)).
Qed.

Lemma Forall2_fst_eq m1 m2 :
  Forall2 (fun e1 e2 : string * any => fst e1 = fst e2 /\ any_equiv (snd e1) (snd e2)) m1 m2 ->
  m1.*1 = m2.*1.
Proof. induction 1; csimpl; [done|]. f_equal; naive_solver. Qed.

(** Equivalent maps give equivalent values at every key. *)
Lemma amap_equiv_get m1 m2 k :
  NoDup m1.*1 -> amap_equiv m1 m2 ->
  match get m1 k, get m2 k with
  | Some v1, Some v2 => any_equiv v1 v2
  | None, None => True
  | _, _ => False
  end.
Proof.
  intros Hnd Heq. inversion Heq as [| | | | |m1' m m2' Hf Hp]; subst.
  rewrite (Forall2_fst_eq _ _ Hf) in Hnd.
  rewrite <- (get_perm m m2) by done.
  pose proof (get_Forall2 _ _ k Hf) as Hr. by destruct (get m1 k), (get m k).
Qed.

Lemma amap_equiv_has m1 m2 k : NoDup m1.*1 -> amap_equiv m1 m2 -> has m1 k = has m2 k.
Proof.
  intros Hnd Heq. pose proof (amap_equiv_get m1 m2 k Hnd Heq). unfold has.
  by repeat case_match.
Qed.

(** Entries of equivalent maps correspond. *)
Lemma amap_equiv_elem m1 m2 k v :
  amap_equiv m1 m2 -> (k, v) ∈ m1 -> exists v', (k, v') ∈ m2 /\ any_equiv v v'.
Proof.
  intros Heq Hin. inversion Heq as [| | | | |m1' m m2' Hf Hp]; subst.
  apply list_elem_of_lookup in Hin as [i Hi].
  eapply Forall2_lookup_l in Hf as ([k' v'] & Hi' & Hk & Hv); [|done]. simpl in *; subst.
  exists v'. split; [|done]. rewrite <- Hp. by eapply list_elem_of_lookup_2.
Qed.

Lemma amap_equiv_keys m1 m2 : amap_equiv m1 m2 -> m1.*1 ≡ₚ m2.*1.
Proof.
  intros Heq. inversion Heq as [| | | | |m1' m m2' Hf Hp]; subst.
  rewrite (Forall2_fst_eq _ _ Hf). by rewrite Hp.
Qed.

(** ** [any_equiv] is an equivalence *)

#[export] Instance any_equiv_refl : Reflexive any_equiv.
Proof.
  intros v. induction v using any_ind_nested; try by constructor.
  - constructor. induction H; by constructor.
  - apply (eqv_map m m m); [|done]. induction H; by constructor.
Qed.

Abbreviation entry_equiv :=
  (fun e1 e2 : string * any => fst e1 = fst e2 /\ any_equiv (snd e1) (snd e2)).

Lemma any_equiv_sym v1 v2 : any_equiv v1 v2 -> any_equiv v2 v1.
Proof.
  revert v2. induction v1 as [| | | |l IH|m1 IH] using any_ind_nested; intros v2 Heq;
    inversion Heq as [| | | |? l2 Hf|? m m2 Hf Hp]; subst; try by constructor.
  - constructor. clear Heq. revert l2 Hf.
    induction IH; intros l2; inversion 1; subst; constructor; auto.
  - assert (Forall2 entry_equiv m m1) as Hf'.
    { clear Heq Hp. revert m Hf.
      induction IH; intros m; inversion 1; subst; constructor; naive_solver. }
    destruct (Permutation_Forall2 Hp Hf') as (m' & Hp' & Hf'').
    by apply (eqv_map m2 m' m1).
Qed.

#[export] Instance any_equiv_Symmetric : Symmetric any_equiv := any_equiv_sym.

Lemma any_equiv_trans v1 v2 v3 : any_equiv v1 v2 -> any_equiv v2 v3 -> any_equiv v1 v3.
Proof.
  revert v2 v3. induction v1 as [| | | |l IH|m1 IH] using any_ind_nested; intros v2 v3 H12 H23;
    inversion H12 as [| | | |? l2 Hf|? m m2 Hf Hp]; subst;
    inversion H23 as [| | | |? l3 Hf3|? m' m3 Hf3 Hp3]; subst; try by constructor.
  - constructor. clear H12 H23. revert l2 l3 Hf Hf3.
    induction IH; intros l2 l3; inversion 1; subst; inversion 1; subst; constructor; eauto.
  - destruct (Permutation_Forall2 (Permutation_sym Hp) Hf3) as (b & Hpb & Hfb).
    apply (eqv_map m1 b m3); [|by rewrite <- Hpb, Hp3].
    clear -IH Hf Hfb. revert m b Hf Hfb.
    induction IH; intros m b; inversion 1; subst; inversion 1; subst; constructor; [|eauto].
    destruct_and!. split; [congruence|]. eauto.
Qed.

#[export] Instance any_equiv_Equivalence : Equivalence any_equiv.
Proof. split; [apply _|apply _|exact any_equiv_trans]. Qed.

#[export] Instance as_str_Proper : Proper (any_equiv ==> (=)) as_str.
Proof. by destruct 1. Qed.

#[export] Instance tool_equiv_Equivalence : Equivalence tool_equiv.
Proof.
  unfold tool_equiv, amap_equiv. split.
  - intros t. do 4 (split; [done|]). by case_match.
  - intros t u (?&?&?&?&Hs). do 4 (split; [done|]).
    by destruct (InputSchema t), (InputSchema u).
  - intros t u v (?&?&?&?&Hs) (?&?&?&?&Hs'). do 4 (split; [congruence|]).
    destruct (InputSchema t), (InputSchema u), (InputSchema v); try done.
    by eapply any_equiv_trans.
Qed.
