(* ===== verification/GoJson.v ===== *)
(** [encoding/json], as far as the Go code uses it: documents, [Encode] with
    [SetIndent("", "  ")], [Marshal], the syntax check and the string decoding
    of [Unmarshal], and the decoding into [any].

    A document is a [json] tree: numbers stay literals, members keep the order
    of the text, duplicates included. *)
From Stdlib Require Import Floats.SpecFloat.
From stdpp Require Import pretty.
From S2P Require Import Prelude GoStrings GoUnicode Model.
Open Scope Z_scope.

Inductive json :=
| JNull
| JBool (b : bool)
| JNum (literal : string)
| JStr (s : string)
| JArr (l : list json)
| JObj (m : list (string * json)).

Section json_ind.
Context (P : json -> Prop)
  (Hnull : P JNull) (Hbool : forall b, P (JBool b)) (Hnum : forall s, P (JNum s))
  (Hstr : forall s, P (JStr s))
  (Harr : forall l, Forall P l -> P (JArr l))
  (Hobj : forall m, Forall (fun e => P (snd e)) m -> P (JObj m)).

Fixpoint json_ind_nested (v : json) : P v :=
  match v with
  | JNull => Hnull
  | JBool b => Hbool b
  | JNum f => Hnum f
  | JStr s => Hstr s
  | JArr l => Harr l
    ((fix go l := match l return Forall P l with
      | [] => List.Forall_nil _
      | x :: l => List.Forall_cons _ _ _ (json_ind_nested x) (go l) end) l)
  | JObj m => Hobj m
    ((fix go m := match m return Forall (fun e => P (snd e)) m with
      | [] => List.Forall_nil _
      | x :: m => List.Forall_cons _ _ _ (json_ind_nested (snd x)) (go m) end) m)
  end.
End json_ind.

(** ** Encoding *)

Definition bslash : string := String (Zbyte 92) EmptyString.

(** The ASCII bytes [appendString] copies as they are, HTML escaping on. *)
Definition htmlSafe (b : Z) : bool :=
  in_rng 32 127 b && negb (b =? 34) && negb (b =? 92) &&
  negb (b =? 60) && negb (b =? 62) && negb (b =? 38).

(** What the rune at the front of [s] is written as. *)
Definition json_escape (s : string) : string :=
  let '(r, w) := DecodeRune s in
  if r <? 0x80 then
    if htmlSafe r then str_take w s
    else if (r =? 34) || (r =? 92) then bslash +:+ str_take w s
    else if r =? 8 then bslash +:+ "b"
    else if r =? 12 then bslash +:+ "f"
    else if r =? 10 then bslash +:+ "n"
    else if r =? 13 then bslash +:+ "r"
    else if r =? 9 then bslash +:+ "t"
    else bslash +:+ "u" +:+ hex 4 r
  else if (r =? RuneError) && (w =? 1)%nat then bslash +:+ "ufffd"
  else if (r =? 0x2028) || (r =? 0x2029) then bslash +:+ "u" +:+ hex 4 r
  else str_take w s.

Fixpoint json_quote_from (skip : nat) (s : string) : string :=
  match s with
  | EmptyString => EmptyString
  | String _ s' =>
    match skip with
    | S k => json_quote_from k s'
    | O => json_escape s +:+ json_quote_from (snd (DecodeRune s) - 1) s'
    end
  end.

Definition json_quote (s : string) : string := dquote +:+ json_quote_from 0 s +:+ dquote.

(** A newline and [d] indents of two spaces. *)
Fixpoint spaces2 (d : nat) : string := match d with O => "" | S d => "  " +:+ spaces2 d end.

(** The layout between tokens: after an opening bracket or a comma, before a
    closing bracket, and after a colon. *)
Class Layout := { gap : nat -> string; after_colon : string }.

(** [SetIndent("", "  ")] *)
Definition indented : Layout := {| gap d := newline +:+ spaces2 d; after_colon := " " |}.
(** [Marshal] *)
Definition compact : Layout := {| gap _ := ""; after_colon := "" |}.

Section print.
Context `{Layout}.

Definition print_member (d : nat) (pr : json -> string) (e : string * json) : string :=
  gap d +:+ json_quote e.1 +:+ ":" +:+ after_colon +:+ pr e.2.

Fixpoint print (d : nat) (v : json) : string :=
  match v with
  | JNull => "null"
  | JBool b => if b then "true" else "false"
  | JNum l => l
  | JStr s => json_quote s
  | JArr [] => "[]"
  | JArr l => "[" +:+ Join (map (fun x => gap (S d) +:+ print (S d) x) l) "," +:+ gap d +:+ "]"
  | JObj [] => "{}"
  | JObj m => "{" +:+ Join (map (print_member (S d) (print (S d))) m) "," +:+ gap d +:+ "}"
  end.
End print.

(** [json.NewEncoder(w)], [SetIndent("", "  ")], [Encode(v)]: what is written. *)
Definition Encode (v : json) : string := @print indented 0 v +:+ newline.

Definition Marshal (v : json) : string := @print compact 0 v.

(** ** The syntax check *)

Definition is_ws (c : ascii) : bool :=
  let b := byteZ c in (b =? 32) || (b =? 9) || (b =? 10) || (b =? 13).

Fixpoint skip_ws (s : string) : string :=
  match s with
  | String c s' => if is_ws c then skip_ws s' else s
  | EmptyString => EmptyString
  end.

Definition hexval (c : ascii) : option Z :=
  let b := byteZ c in
  if in_rng 48 57 b then Some (b - 48)
  else if in_rng 97 102 b then Some (b - 87)
  else if in_rng 65 70 b then Some (b - 55)
  else None.

(** The value of the four digits at the front. *)
Definition hex4 (s : string) : option Z :=
  match s with
  | String a (String b (String c (String d _))) =>
    a ← hexval a; b ← hexval b; c ← hexval c; d ← hexval d;
    Some (((a * 16 + b) * 16 + c) * 16 + d)
  | _ => None
  end.

(** [getu4]: a whole [\uXXXX] at the front. *)
Definition getu4 (s : string) : option Z :=
  if HasPrefix s (bslash +:+ "u") then hex4 (str_drop 2 s) else None.

Definition simple_escape (b : Z) : option Z :=
  if b =? 34 then Some 34 else if b =? 92 then Some 92 else if b =? 47 then Some 47
  else if b =? 98 then Some 8 else if b =? 102 then Some 12 else if b =? 110 then Some 10
  else if b =? 114 then Some 13 else if b =? 116 then Some 9 else None.

(** One step through a string literal: its end, or a piece of the decoded
    string and the number of further bytes it came from. *)
Inductive lit_step := LEnd | LEmit (out : string) (more : nat).

Definition unquote_step (s : string) : option lit_step :=
  match s with
  | EmptyString => None
  | String c s' =>
    if byteZ c =? 34 then Some LEnd
    else if byteZ c =? 92 then
      match s' with
      | EmptyString => None
      | String e s1 =>
        if byteZ e =? 117 then
          rr ← hex4 s1;
          if in_rng 0xD800 0xDFFF rr then
            match getu4 (str_drop 4 s1) with
            | Some rr1 =>
              if in_rng 0xD800 0xDBFF rr && in_rng 0xDC00 0xDFFF rr1
              then Some (LEmit (EncodeRune ((rr - 0xD800) * 1024 + (rr1 - 0xDC00) + 0x10000)) 11)
              else Some (LEmit (EncodeRune RuneError) 5)
            | None => Some (LEmit (EncodeRune RuneError) 5)
            end
          else Some (LEmit (EncodeRune rr) 5)
        else
          b ← simple_escape (byteZ e); Some (LEmit (bytes_str [b]) 1)
      end
    else if byteZ c <? 32 then None
    else let '(r, w) := DecodeRune s in Some (LEmit (EncodeRune r) (w - 1))
  end.

(** The rest of a string literal: its decoded value and what follows the
    closing quote. *)
Fixpoint unquote (skip : nat) (s : string) : option (string * string) :=
  match s with
  | EmptyString => None
  | String _ s' =>
    match skip with
    | S k => unquote k s'
    | O =>
      match unquote_step s with
      | None => None
      | Some LEnd => Some (EmptyString, s')
      | Some (LEmit out more) => p ← unquote more s'; Some (out +:+ p.1, p.2)
      end
    end
  end.

Definition is_dig (c : ascii) : bool := in_rng 48 57 (byteZ c).

Fixpoint take_digits (s : string) : string * string :=
  match s with
  | String c s' => if is_dig c then let p := take_digits s' in (String c p.1, p.2) else ("", s)
  | EmptyString => ("", "")
  end.

(** At least one digit. *)
Definition digits1 (s : string) : option (string * string) :=
  let p := take_digits s in if (p.1 =? "")%string then None else Some p.

Definition opt_char (P : Z -> bool) (s : string) : string * string :=
  match s with
  | String c s' => if P (byteZ c) then (String c "", s') else ("", s)
  | EmptyString => ("", "")
  end.

(** The parts of a number literal: sign, integer, fraction and exponent, and
    the text after it. *)
Record num_parts := mkNum { np_neg : string; np_int : string; np_frac : string; np_exp : string }.

Definition scan_int (s : string) : option (string * string) :=
  match s with
  | String c s' => if byteZ c =? 48 then Some (String c "", s') else digits1 s
  | EmptyString => None
  end.

(** [.] and digits, or nothing. *)
Definition scan_frac (s : string) : option (string * string) :=
  match opt_char (fun b => b =? 46) s with
  | (EmptyString, _) => Some ("", s)
  | (dot, s1) => p ← digits1 s1; Some (dot +:+ p.1, p.2)
  end.

(** [e] or [E], an optional sign and digits, or nothing. *)
Definition scan_exp (s : string) : option (string * string) :=
  match opt_char (fun b => (b =? 101) || (b =? 69)) s with
  | (EmptyString, _) => Some ("", s)
  | (e, s1) =>
    let '(sg, s2) := opt_char (fun b => (b =? 43) || (b =? 45)) s1 in
    p ← digits1 s2; Some (e +:+ sg +:+ p.1, p.2)
  end.

Definition scan_number (s : string) : option (num_parts * string) :=
  let '(sg, s1) := opt_char (fun b => b =? 45) s in
  i ← scan_int s1; f ← scan_frac i.2; e ← scan_exp f.2;
  Some (mkNum sg i.1 f.1 e.1, e.2).

Definition num_text (p : num_parts) : string := np_neg p +:+ np_int p +:+ np_frac p +:+ np_exp p.

Definition maxNestingDepth : Z := 10000.

Definition scan_literal (s : string) : option (json * string) :=
  if HasPrefix s "null" then Some (JNull, str_drop 4 s)
  else if HasPrefix s "true" then Some (JBool true, str_drop 4 s)
  else if HasPrefix s "false" then Some (JBool false, str_drop 5 s)
  else p ← scan_number s; Some (JNum (num_text p.1), p.2).

(** A value, the elements of an array after its bracket or a comma, the
    members of an object likewise, each with the text after it. [d] is the
    nesting depth. *)
Fixpoint scan_value (fuel : nat) (d : Z) (s : string) : option (json * string) :=
  match fuel with
  | O => None
  | S n =>
    match skip_ws s with
    | EmptyString => None
    | String c s' as t =>
      if byteZ c =? 123 then
        if maxNestingDepth <? d + 1 then None else
        match skip_ws s' with
        | String c' s2 => if byteZ c' =? 125 then Some (JObj [], s2)
                          else p ← scan_members n (d + 1) s'; Some (JObj p.1, p.2)
        | EmptyString => None
        end
      else if byteZ c =? 91 then
        if maxNestingDepth <? d + 1 then None else
        match skip_ws s' with
        | String c' s2 => if byteZ c' =? 93 then Some (JArr [], s2)
                          else p ← scan_elems n (d + 1) s'; Some (JArr p.1, p.2)
        | EmptyString => None
        end
      else if byteZ c =? 34 then p ← unquote 0 s'; Some (JStr p.1, p.2)
      else scan_literal t
    end
  end
with scan_elems (fuel : nat) (d : Z) (s : string) : option (list json * string) :=
  match fuel with
  | O => None
  | S n =>
    v ← scan_value n d s;
    match skip_ws v.2 with
    | String c s2 =>
      if byteZ c =? 93 then Some ([v.1], s2)
      else if byteZ c =? 44 then p ← scan_elems n d s2; Some (v.1 :: p.1, p.2)
      else None
    | EmptyString => None
    end
  end
with scan_members (fuel : nat) (d : Z) (s : string) : option (list (string * json) * string) :=
  match fuel with
  | O => None
  | S n =>
    match skip_ws s with
    | String q s1 =>
      if byteZ q =? 34 then
        k ← unquote 0 s1;
        match skip_ws k.2 with
        | String c s2 =>
          if byteZ c =? 58 then
            v ← scan_value n d s2;
            match skip_ws v.2 with
            | String c' s3 =>
              if byteZ c' =? 125 then Some ([(k.1, v.1)], s3)
              else if byteZ c' =? 44 then p ← scan_members n d s3; Some ((k.1, v.1) :: p.1, p.2)
              else None
            | EmptyString => None
            end
          else None
        | EmptyString => None
        end
      else None
    | EmptyString => None
    end
  end.

(** The whole input: [None] is a [SyntaxError]. Every call of a scanner either
    consumes a byte or goes one level down in the same text, so the fuel
    suffices ([scan_fuel]). *)
Definition parse_json (s : string) : option json :=
  p ← scan_value (2 * len s + 2) 0 s;
  match skip_ws p.2 with EmptyString => Some p.1 | _ => None end.

(** ** Literals: what [Encode] writes, [Unmarshal] reads back *)

(** Every invalid byte replaced by U+FFFD: the identity on valid UTF-8. *)
Definition clean (s : string) : string := str_concat (map (fun rw => EncodeRune rw.1) (runes s)).

Lemma unquote_skip p r : unquote (len p) (p +:+ r) = unquote 0 r.
Proof. induction p; simpl; [done|]. done. Qed.

(** A step that emits [out] for the text [p]. *)
Lemma unquote_emit p c s r out :
  p = String c s -> unquote_step (p +:+ r) = Some (LEmit out (len s)) ->
  unquote 0 (p +:+ r) = (q ← unquote 0 r; Some (out +:+ q.1, q.2)).
Proof.
  intros -> Hstep. cbn [String.append] in *.
  change (unquote 0 (String c (s +:+ r))) with
    (match unquote_step (String c (s +:+ r)) with
     | None => None
     | Some LEnd => Some (EmptyString, s +:+ r)
     | Some (LEmit out more) => p ← unquote more (s +:+ r); Some (out +:+ p.1, p.2)
     end).
  rewrite Hstep. by rewrite unquote_skip.
Qed.

Lemma hexval_digit z : 0 <= z < 16 -> exists c, hexdigit z = String c "" /\ hexval c = Some z.
Proof.
  intros. unfold hexdigit. eexists; split; [done|]. unfold hexval, in_rng.
  destruct (Z.ltb_spec z 10); rewrite byteZ_Zbyte by lia; decide_cmp; f_equal; lia.
Qed.

Lemma hex4_hex z t : 0 <= z < 65536 -> hex4 (hex 4 z +:+ t) = Some z.
Proof.
  intros Hz. unfold hex.
  assert (z / 16 / 16 / 16 = z / 4096) as -> by (by rewrite !Z.div_div by lia).
  assert (z / 16 / 16 = z / 256) as -> by (by rewrite !Z.div_div by lia).
  destruct (hexval_digit (z / 4096 mod 16)) as (c1 & -> & E1); [div_mod_lia|].
  destruct (hexval_digit (z / 256 mod 16)) as (c2 & -> & E2); [div_mod_lia|].
  destruct (hexval_digit (z / 16 mod 16)) as (c3 & -> & E3); [div_mod_lia|].
  destruct (hexval_digit (z mod 16)) as (c4 & -> & E4); [div_mod_lia|].
  simpl. rewrite E1, E2, E3, E4. simpl. f_equal. div_mod_lia.
Qed.

Lemma len_hexdigit z : len (hexdigit z) = 1%nat.
Proof. unfold hexdigit. by case_match. Qed.

Lemma len_hex w z : len (hex w z) = w.
Proof.
  revert z. induction w as [|w IH]; intros z; simpl; [done|].
  rewrite str_len_app, IH, len_hexdigit. lia.
Qed.

Lemma unquote_step_raw c t :
  byteZ c <> 34 -> byteZ c <> 92 -> 32 <= byteZ c ->
  unquote_step (String c t) =
    let '(r, w) := DecodeRune (String c t) in Some (LEmit (EncodeRune r) (w - 1)).
Proof. intros. unfold unquote_step. by decide_cmp. Qed.

Lemma unquote_step_u z t :
  0 <= z < 65536 -> in_rng 0xD800 0xDFFF z = false ->
  unquote_step (bslash +:+ "u" +:+ hex 4 z +:+ t) = Some (LEmit (EncodeRune z) 5).
Proof.
  intros Hz Hs. change (unquote_step (bslash +:+ "u" +:+ hex 4 z +:+ t)) with
    (rr ← hex4 (hex 4 z +:+ t);
     if in_rng 0xD800 0xDFFF rr then
       match getu4 (str_drop 4 (hex 4 z +:+ t)) with
       | Some rr1 =>
         if in_rng 0xD800 0xDBFF rr && in_rng 0xDC00 0xDFFF rr1
         then Some (LEmit (EncodeRune ((rr - 0xD800) * 1024 + (rr1 - 0xDC00) + 0x10000)) 11)
         else Some (LEmit (EncodeRune RuneError) 5)
       | None => Some (LEmit (EncodeRune RuneError) 5)
       end
     else Some (LEmit (EncodeRune rr) 5)).
  rewrite hex4_hex by done. simpl. by rewrite Hs.
Qed.

Lemma bytes_str_byteZ c : bytes_str [byteZ c] = String c "".
Proof. simpl. by rewrite Zbyte_byteZ. Qed.

Lemma EncodeRune_byte c : byteZ c < 0x80 -> EncodeRune (byteZ c) = String c "".
Proof.
  intros. pose proof (byteZ_range c). unfold EncodeRune, in_rng. decide_cmp. apply bytes_str_byteZ.
Qed.

(** The escape of the rune at the front reads back as that rune. *)
Lemma json_escape_step c0 s0 (s := String c0 s0) t : exists c s',
  json_escape s = String c s' /\
  unquote_step (json_escape s +:+ t) = Some (LEmit (EncodeRune (DecodeRune s).1) (len s')).
Proof.
  unfold json_escape. destruct (DecodeRune s) as [r w] eqn:Hd.
  destruct (Z.ltb_spec r 0x80) as [Hr|Hr].
  - destruct (DecodeRune_ascii_width _ _ _ Hd Hr) as [->|]; [|done].
    assert (Hc0 : byteZ c0 < 0x80).
    { destruct (Z_lt_le_dec (byteZ c0) 0x80) as [|Hge]; [done|].
      pose proof (DecodeRune_ge _ s0 Hge) as Hge'. fold s in Hge'. rewrite Hd in Hge'. simpl in Hge'. lia. }
    subst s. rewrite DecodeRune_ascii in Hd by done. injection Hd as <-. simpl fst.
    pose proof (byteZ_range c0). cbn [str_take].
    rewrite EncodeRune_byte by done.
    destruct (htmlSafe (byteZ c0)) eqn:Hsafe.
    { eexists _, _. split; [done|]. unfold htmlSafe, in_rng in Hsafe. bool_to_prop.
      cbn [String.append]. rewrite unquote_step_raw by lia.
      rewrite DecodeRune_ascii by done. by rewrite EncodeRune_byte. }
    assert (Hconst : forall z, byteZ c0 = z -> c0 = Zbyte z) by (intros z <-; by rewrite Zbyte_byteZ).
    destruct ((byteZ c0 =? 34) || (byteZ c0 =? 92)) eqn:Hq.
    { apply orb_true_iff in Hq as [E|E]; apply Z.eqb_eq, Hconst in E as ->; by eexists _, _. }
    do 5 (match goal with |- context [byteZ c0 =? ?z] =>
      destruct (Z.eqb_spec (byteZ c0) z) as [E|?]; [apply Hconst in E as ->; by eexists _, _|] end).
    eexists _, _. split; [done|]. rewrite str_app_assoc, str_app_assoc, unquote_step_u.
    + rewrite EncodeRune_byte by done. by rewrite !str_len_app, len_hex.
    + lia.
    + unfold in_rng. by decide_cmp.
  - assert (Hc0 : 0x80 <= byteZ c0).
    { destruct (Z_lt_le_dec (byteZ c0) 0x80); [|done]. subst s.
      rewrite DecodeRune_ascii in Hd by done. injection Hd as <- <-. lia. }
    destruct ((r =? RuneError) && (w =? 1)%nat) eqn:Herr.
    { apply andb_true_iff in Herr as [->%Z.eqb_eq ->%Nat.eqb_eq]. by eexists _, _. }
    assert (Hne : ~ (r = RuneError /\ (w <= 1)%nat)).
    { intros [-> Hw]. pose proof (DecodeRune_width s) as Hw'. rewrite Hd in Hw'. simpl in *.
      assert (w = 1)%nat as -> by (specialize (Hw' ltac:(done)); lia). done. }
    destruct (EncodeRune_DecodeRune _ _ _ Hd Hne) as [He Hs].
    destruct ((r =? 0x2028) || (r =? 0x2029)) eqn:Hsep.
    { apply orb_true_iff in Hsep as [E|E]; apply Z.eqb_eq in E as ->; by eexists _, _. }
    assert (1 <= w)%nat as Hw1.
    { pose proof (DecodeRune_width s) as Hw. rewrite Hd in Hw. by apply Hw. }
    destruct w as [|w]; [lia|].
    exists c0, (str_take w s0). split; [done|]. cbn [fst].
    rewrite <- He. pose proof (DecodeRune_EncodeRune r t Hs) as Hd2.
    rewrite He in Hd2 |- *. subst s. cbn [str_take String.append] in *.
    rewrite unquote_step_raw by lia. rewrite Hd2.
    rewrite He. do 2 f_equal. simpl. lia.
Qed.

(** Quoting and unquoting: the identity up to [clean]. *)
Lemma unquote_quote_from s t :
  unquote 0 (json_quote_from 0 s +:+ dquote +:+ t) = Some (clean s, t).
Proof.
  unfold clean, runes.
  assert (Hgen : forall n s, (len s <= n)%nat -> forall k, (k <= len s)%nat ->
    unquote 0 (json_quote_from k s +:+ dquote +:+ t)
    = Some (str_concat (map (fun rw => EncodeRune rw.1) (runes_from k s)), t)).
  { clear s. intros n. induction n as [|n IH]; intros [|c s] Hn k Hk; simpl in Hn; try lia;
      [done..|].
    destruct k as [|k]; cbn [json_quote_from runes_from]; [|apply IH; simpl in *; lia].
    destruct (json_escape_step c s (json_quote_from (snd (DecodeRune (String c s)) - 1) s +:+ dquote +:+ t))
      as (c' & s' & E & Hstep).
    rewrite str_app_assoc, (unquote_emit _ _ _ _ _ E Hstep), IH by
      (pose proof (DecodeRune_width_le (String c s)); simpl in *; lia).
    done. }
  apply (Hgen (len s)); lia.
Qed.

(** ** Every scanner consumes, so the fuel of [parse_json] suffices *)

Section consume.
Open Scope nat_scope.

Lemma skip_ws_le s : len (skip_ws s) <= len s.
Proof. induction s; simpl; [done|]. case_match; simpl; lia. Qed.

Lemma unquote_lt k s p : unquote k s = Some p -> len p.2 < len s.
Proof.
  revert k p. induction s as [|c s IH]; intros k p; [done|]. cbn [unquote String.length].
  destruct k as [|k].
  - destruct (unquote_step (String c s)) as [[|out more]|]; [|destruct (unquote more s) as [q|] eqn:E|done];
      intros [= <-]; simpl; [lia|]. apply IH in E. lia.
  - intros H%IH. lia.
Qed.

Lemma take_digits_split s : (take_digits s).1 +:+ (take_digits s).2 = s.
Proof. induction s; simpl; [done|]. case_match; simpl; congruence. Qed.

Lemma digits1_split s p : digits1 s = Some p -> p.1 +:+ p.2 = s /\ p.1 <> "".
Proof.
  unfold digits1. destruct (String.eqb_spec (take_digits s).1 ""); [done|].
  intros [= <-]. split; [apply take_digits_split|done].
Qed.

Lemma opt_char_split P s : (opt_char P s).1 +:+ (opt_char P s).2 = s.
Proof. destruct s; simpl; [done|]. by case_match. Qed.

Lemma scan_int_split s p : scan_int s = Some p -> p.1 +:+ p.2 = s /\ p.1 <> "".
Proof.
  destruct s as [|c s]; simpl; [done|]. case_match; [by intros [= <-]|]. apply digits1_split.
Qed.

Lemma scan_frac_split s p : scan_frac s = Some p -> p.1 +:+ p.2 = s.
Proof.
  unfold scan_frac. pose proof (opt_char_split (fun b => b =? 46)%Z s) as Hs.
  destruct (opt_char _ s) as [[|c dot] s1]; [by intros [= <-]|].
  destruct (digits1 s1) as [q|] eqn:E; [|done]. intros [= <-]. apply digits1_split in E as [E _].
  rewrite <- Hs, <- E. simpl. by rewrite ?str_app_assoc.
Qed.

Lemma scan_exp_split s p : scan_exp s = Some p -> p.1 +:+ p.2 = s.
Proof.
  unfold scan_exp. pose proof (opt_char_split (fun b => (b =? 101) || (b =? 69))%Z s) as Hs.
  destruct (opt_char _ s) as [[|c dot] s1]; [by intros [= <-]|].
  pose proof (opt_char_split (fun b => (b =? 43) || (b =? 45))%Z s1) as Hs1.
  destruct (opt_char _ s1) as [sg s2].
  destruct (digits1 s2) as [q|] eqn:E; [|done]. intros [= <-]. apply digits1_split in E as [E _].
  cbn [fst snd] in *. rewrite <- Hs, <- Hs1, <- E. simpl. by rewrite ?str_app_assoc.
Qed.

Lemma scan_number_split s p :
  scan_number s = Some p -> num_text p.1 +:+ p.2 = s /\ np_int p.1 <> "".
Proof.
  unfold scan_number, num_text. pose proof (opt_char_split (fun b => b =? 45)%Z s) as Hs.
  destruct (opt_char _ s) as [sg s1].
  destruct (scan_int s1) as [i|] eqn:Ei; [|done]. cbn [mbind option_bind].
  destruct (scan_frac i.2) as [f|] eqn:Ef; [|done]. cbn [mbind option_bind].
  destruct (scan_exp f.2) as [e|] eqn:Ee; [|done]. intros [= <-].
  apply scan_int_split in Ei as [Ei Hne]. apply scan_frac_split in Ef. apply scan_exp_split in Ee.
  cbn [fst snd np_neg np_int np_frac np_exp] in *. split; [|done].
  rewrite <- Hs, <- Ei, <- Ef, <- Ee. by rewrite ?str_app_assoc.
Qed.

Lemma HasPrefix_drop_len s p : HasPrefix s p = true -> p <> "" -> len (str_drop (len p) s) < len s.
Proof.
  intros [t ->]%HasPrefix_spec Hp. rewrite str_drop_app, str_len_app. destruct p; simpl; [done|lia].
Qed.

Lemma scan_literal_lt s p : scan_literal s = Some p -> len p.2 < len s.
Proof.
  unfold scan_literal.
  do 3 (match goal with |- context [HasPrefix s ?p] => destruct (HasPrefix s p) eqn:?;
    [intros [= <-]; by apply (HasPrefix_drop_len s p)|] end).
  destruct (scan_number s) as [q|] eqn:E; [|done]. intros [= <-].
  apply scan_number_split in E as [<- Hne]. unfold num_text. rewrite !str_len_app.
  destruct (np_int q.1); [done|]. simpl. lia.
Qed.

Lemma scan_lt n :
  (forall d s p, scan_value n d s = Some p -> len p.2 < len s) /\
  (forall d s p, scan_elems n d s = Some p -> len p.2 < len s) /\
  (forall d s p, scan_members n d s = Some p -> len p.2 < len s).
Proof.
  induction n as [|n (IHv & IHe & IHm)]; [done|]. split_and!; intros d s p.
  - cbn [scan_value]. pose proof (skip_ws_le s) as Hs.
    destruct (skip_ws s) as [|c s'] eqn:Es; [done|]. simpl in Hs.
    destruct (byteZ c =? 123)%Z; [|destruct (byteZ c =? 91)%Z; [|destruct (byteZ c =? 34)%Z]].
    + case_match; [done|]. pose proof (skip_ws_le s') as Hs'.
      destruct (skip_ws s') as [|c' s2]; [done|]. simpl in Hs'. case_match; [intros [= <-]; simpl; lia|].
      destruct (scan_members n _ s') as [q|] eqn:E; [|done]. intros [= <-]. apply IHm in E. simpl. lia.
    + case_match; [done|]. pose proof (skip_ws_le s') as Hs'.
      destruct (skip_ws s') as [|c' s2]; [done|]. simpl in Hs'. case_match; [intros [= <-]; simpl; lia|].
      destruct (scan_elems n _ s') as [q|] eqn:E; [|done]. intros [= <-]. apply IHe in E. simpl. lia.
    + destruct (unquote 0 s') as [q|] eqn:E; [|done]. intros [= <-]. apply unquote_lt in E. simpl. lia.
    + intros Hp%scan_literal_lt. simpl in Hp. lia.
  - cbn [scan_elems]. destruct (scan_value n d s) as [v|] eqn:Ev; [|done]. apply IHv in Ev.
    cbn [mbind option_bind]. pose proof (skip_ws_le v.2) as Hs.
    destruct (skip_ws v.2) as [|c s2]; [done|]. simpl in Hs. case_match; [intros [= <-]; simpl; lia|].
    case_match; [|done]. destruct (scan_elems n d s2) as [q|] eqn:E; [|done].
    intros [= <-]. apply IHe in E. simpl. lia.
  - cbn [scan_members]. pose proof (skip_ws_le s) as Hs.
    destruct (skip_ws s) as [|q s1]; [done|]. simpl in Hs. case_match; [|done].
    destruct (unquote 0 s1) as [k|] eqn:Ek; [|done]. apply unquote_lt in Ek. cbn [mbind option_bind].
    pose proof (skip_ws_le k.2) as Hk. destruct (skip_ws k.2) as [|c s2]; [done|]. simpl in Hk.
    case_match; [|done]. destruct (scan_value n d s2) as [v|] eqn:Ev; [|done]. apply IHv in Ev.
    cbn [mbind option_bind]. pose proof (skip_ws_le v.2) as Hv.
    destruct (skip_ws v.2) as [|c' s3]; [done|]. simpl in Hv. case_match; [intros [= <-]; simpl; lia|].
    case_match; [|done]. destruct (scan_members n d s3) as [r|] eqn:E; [|done].
    intros [= <-]. apply IHm in E. simpl. lia.
Qed.

Definition same_scan (m n : nat) : Prop :=
  (forall d s, 2 * len s + 1 <= n -> scan_value m d s = scan_value n d s) /\
  (forall d s, 2 * len s + 2 <= n -> scan_elems m d s = scan_elems n d s) /\
  (forall d s, 2 * len s + 2 <= n -> scan_members m d s = scan_members n d s).

Lemma same_scan_S m n : same_scan m n -> same_scan (S m) (S n).
Proof.
  intros (IHv & IHe & IHm). split_and!; intros d s Hn.
  - cbn [scan_value]. pose proof (skip_ws_le s) as Hs. destruct (skip_ws s) as [|c s']; [done|].
    simpl in Hs. by rewrite (IHm _ s'), (IHe _ s') by lia.
  - cbn [scan_elems]. rewrite IHv by lia.
    destruct (scan_value n d s) as [v|] eqn:Ev; [|done]. apply (proj1 (scan_lt n)) in Ev.
    cbn [mbind option_bind]. pose proof (skip_ws_le v.2) as Hs.
    destruct (skip_ws v.2) as [|c s2]; [done|]. simpl in Hs. by rewrite (IHe _ s2) by lia.
  - cbn [scan_members]. pose proof (skip_ws_le s) as Hs.
    destruct (skip_ws s) as [|q s1]; [done|]. simpl in Hs. case_match; [|done].
    destruct (unquote 0 s1) as [k|] eqn:Ek; [|done]. apply unquote_lt in Ek. cbn [mbind option_bind].
    pose proof (skip_ws_le k.2) as Hk. destruct (skip_ws k.2) as [|c s2]; [done|]. simpl in Hk.
    rewrite (IHv _ s2) by lia.
    case_match; [|done]. destruct (scan_value n d s2) as [v|] eqn:Ev; [|done].
    apply (proj1 (scan_lt n)) in Ev.
    cbn [mbind option_bind]. pose proof (skip_ws_le v.2) as Hv.
    destruct (skip_ws v.2) as [|c' s3]; [done|]. simpl in Hv. by rewrite (IHm _ s3) by lia.
Qed.

Lemma scan_fuel_step n : same_scan (S n) n.
Proof.
  induction n as [|n IH]; [unfold same_scan; split_and!; intros; lia|]. by apply same_scan_S.
Qed.

(** More fuel than [2 * len s + 1] changes nothing. *)
Lemma scan_fuel n m d s :
  2 * len s + 1 <= n -> n <= m -> scan_value m d s = scan_value n d s.
Proof.
  intros Hn. induction 1 as [|m Hm IH]; [done|]. rewrite <- IH.
  apply (scan_fuel_step m). lia.
Qed.
End consume.

(** ** Numbers *)

Definition num_char (c : ascii) : bool :=
  is_dig c || (byteZ c =? 46) || (byteZ c =? 101) || (byteZ c =? 69).

(** Text that cannot continue a number. *)
Definition num_end (t : string) : Prop :=
  match t with EmptyString => True | String c _ => num_char c = false end.

Lemma num_end_byte c t : num_end (String c t) ->
  is_dig c = false /\ byteZ c <> 46 /\ byteZ c <> 101 /\ byteZ c <> 69.
Proof.
  simpl. unfold num_char. intros H.
  destruct (is_dig c), (Z.eqb_spec (byteZ c) 46), (Z.eqb_spec (byteZ c) 101),
    (Z.eqb_spec (byteZ c) 69); done.
Qed.

Section number_ext.
Context (t : string) (Ht : num_end t).

Lemma take_digits_ext s : take_digits (s +:+ t) = ((take_digits s).1, (take_digits s).2 +:+ t).
Proof.
  induction s as [|c s IH]; simpl.
  - destruct t as [|c t']; [done|]. apply num_end_byte in Ht as (Hd & _). simpl. by rewrite Hd.
  - rewrite IH. by case_match.
Qed.

Lemma digits1_ext s p : digits1 s = Some p -> digits1 (s +:+ t) = Some (p.1, p.2 +:+ t).
Proof.
  unfold digits1. rewrite take_digits_ext. simpl. case_match; [done|]. by intros [= <-].
Qed.

Lemma scan_int_ext s p : scan_int s = Some p -> scan_int (s +:+ t) = Some (p.1, p.2 +:+ t).
Proof.
  destruct s as [|c s]; simpl; [done|]. case_match; [by intros [= <-]|]. apply (digits1_ext (String c s)).
Qed.

Lemma opt_char_ext P s : (s <> "" \/ match t with "" => True | String c _ => P (byteZ c) = false end) ->
  opt_char P (s +:+ t) = ((opt_char P s).1, (opt_char P s).2 +:+ t).
Proof.
  intros H. destruct s as [|c s]; simpl; [|by destruct (P (byteZ c))].
  destruct H as [|H]; [done|]. destruct t; simpl; [done|]. by rewrite H.
Qed.

Lemma scan_frac_ext s p : scan_frac s = Some p -> scan_frac (s +:+ t) = Some (p.1, p.2 +:+ t).
Proof.
  unfold scan_frac. rewrite opt_char_ext.
  2:{ right. destruct t; [done|]. apply num_end_byte in Ht as (_ & ? & _). by apply Z.eqb_neq. }
  destruct (opt_char _ s) as [[|c dot] s1]; simpl; [by intros [= <-]|].
  destruct (digits1 s1) as [q|] eqn:E; [|done]. rewrite (digits1_ext _ _ E). by intros [= <-].
Qed.

Lemma scan_exp_ext s p : scan_exp s = Some p -> scan_exp (s +:+ t) = Some (p.1, p.2 +:+ t).
Proof.
  unfold scan_exp. rewrite opt_char_ext.
  2:{ right. destruct t; [done|]. apply num_end_byte in Ht as (_ & _ & ? & ?).
      apply orb_false_iff. by rewrite !Z.eqb_neq. }
  destruct (opt_char _ s) as [[|c dot] s1]; [by intros [= <-]|]. cbn [fst snd].
  destruct (decide (s1 = "")) as [->|Hne]; [done|].
  rewrite opt_char_ext by (by left). destruct (opt_char _ s1) as [sg s2]. cbn [fst snd].
  destruct (digits1 s2) as [q|] eqn:E; [|done]. rewrite (digits1_ext _ _ E). by intros [= <-].
Qed.

Lemma scan_number_ext s p : scan_number s = Some p -> scan_number (s +:+ t) = Some (p.1, p.2 +:+ t).
Proof.
  unfold scan_number. intros H.
  assert (s <> "") as Hne by (by intros ->). rewrite opt_char_ext by (by left).
  destruct (opt_char _ s) as [sg s1]. cbn [fst snd].
  destruct (scan_int s1) as [i|] eqn:Ei; [|done]. cbn [mbind option_bind] in H.
  destruct (scan_frac i.2) as [f|] eqn:Ef; [|done]. cbn [mbind option_bind] in H.
  destruct (scan_exp f.2) as [e|] eqn:Ee; [|done]. injection H as <-.
  rewrite (scan_int_ext _ _ Ei). cbn [mbind option_bind fst snd].
  rewrite (scan_frac_ext _ _ Ef). cbn [mbind option_bind fst snd].
  by rewrite (scan_exp_ext _ _ Ee).
Qed.
End number_ext.

(** A complete number literal. *)
Definition num_ok (l : string) : Prop := exists p, scan_number l = Some (p, "").

Lemma scan_literal_num l t : num_ok l -> num_end t -> scan_literal (l +:+ t) = Some (JNum l, t).
Proof.
  intros [p Hp] Ht. pose proof (scan_number_split _ _ Hp) as [Hs Hne]. cbn [fst snd] in *.
  rewrite str_app_nil_r in Hs. pose proof (scan_number_ext t Ht _ _ Hp) as He. cbn [fst snd] in He.
  assert (Hfirst : exists c l', l = String c l' /\ in_rng 45 57 (byteZ c) = true).
  { revert Hp. unfold scan_number. destruct l as [|c l']; [done|]. simpl.
    destruct (Z.eqb_spec (byteZ c) 45) as [E|]; [intros _; eexists _, _; split; [done|]; by rewrite E|].
    cbn [scan_int]. destruct (Z.eqb_spec (byteZ c) 48) as [E|];
      [intros _; eexists _, _; split; [done|]; by rewrite E|].
    unfold digits1. cbn [take_digits]. destruct (is_dig c) eqn:Ed; [|done].
    intros _. eexists _, _. split; [done|]. unfold is_dig, in_rng in *. bool_to_prop. by decide_cmp. }
  destruct Hfirst as (c & l' & -> & Hc). unfold in_rng in Hc. bool_to_prop.
  assert (Hne' : forall d s, (57 < byteZ d) -> HasPrefix (String c l' +:+ t) (String d s) = false).
  { intros d s Hd. simpl. destruct (Ascii.ascii_dec d c) as [->|]; [lia|done]. }
  unfold scan_literal. rewrite !Hne' by done. rewrite He. cbn. by rewrite Hs.
Qed.

(** ** Decimal integers *)

Fixpoint digits_val (acc : Z) (s : string) : Z :=
  match s with
  | EmptyString => acc
  | String c s => digits_val (acc * 10 + (byteZ c - 48)) s
  end.

(** [strconv.ParseInt(s, 10, 64)] of a JSON number literal: [None] is a syntax
    or a range error. *)
Definition ParseInt (s : string) : option Z :=
  let '(sg, s1) := opt_char (fun b => b =? 45) s in
  let p := take_digits s1 in
  if (p.1 =? "")%string || negb (p.2 =? "")%string then None
  else
    let v := digits_val 0 p.1 in
    let v := if (sg =? "")%string then v else - v in
    if (- 2 ^ 63 <=? v) && (v <? 2 ^ 63) then Some v else None.

Lemma digits_val_app acc s t : digits_val acc (s +:+ t) = digits_val (digits_val acc s) t.
Proof. revert acc. induction s; simpl; auto. Qed.

Lemma pretty_N_char_dig x : (x < 10)%N -> byteZ (pretty_N_char x) = 48 + Z.of_N x.
Proof.
  intros. assert (exists n, x = N.of_nat n /\ (n < 10)%nat) as (n & -> & Hn).
  { exists (N.to_nat x). lia. }
  do 10 (destruct n as [|n]; [done|]). lia.
Qed.

Lemma pretty_N_go_spec x s : (0 < x)%N -> exists c ds,
  pretty_N_go x s = String c ds +:+ s /\
  str_forall is_dig (String c ds) = true /\ byteZ c <> 48 /\
  digits_val 0 (String c ds) = Z.of_N x.
Proof.
  revert s. induction (N.lt_wf_0 x) as [x _ IH]; intros s Hx.
  rewrite pretty_N_go_step by done.
  assert (Hm : (x mod 10 < 10)%N) by (by apply N.mod_lt).
  pose proof (pretty_N_char_dig _ Hm) as Hc.
  assert (Hd : is_dig (pretty_N_char (x mod 10)) = true).
  { unfold is_dig, in_rng. rewrite Hc. pose proof (N2Z.is_nonneg (x mod 10)). pose proof (proj1 (N2Z.inj_lt _ _) Hm). by decide_cmp. }
  pose proof (N.div_mod x 10 ltac:(done)) as Hdm.
  destruct (decide (x / 10 = 0)%N) as [E|E].
  - rewrite E, pretty_N_go_0. exists (pretty_N_char (x mod 10)), "". split; [done|].
    cbn [str_forall digits_val]. rewrite Hd, Hc. split; [done|]. lia.
  - destruct (IH (x / 10)%N) with (s := String (pretty_N_char (x mod 10)) s) as (c & ds & -> & Hf & Hn & Hv).
    { by apply N.div_lt. } { lia. }
    exists c, (ds +:+ String (pretty_N_char (x mod 10)) "").
    split; [simpl; by rewrite str_app_assoc|]. split; [|split; [done|]].
    + change (String c (ds +:+ ?u)) with (String c ds +:+ u).
      rewrite str_forall_app, Hf. simpl. by rewrite Hd.
    + change (String c (ds +:+ ?u)) with (String c ds +:+ u).
      rewrite digits_val_app, Hv. cbn [digits_val]. rewrite Hc. lia.
Qed.

Lemma take_digits_all s t :
  str_forall is_dig s = true -> num_end t -> take_digits (s +:+ t) = (s, t).
Proof.
  intros Hs Ht. induction s as [|c s IH]; simpl.
  - destruct t; [done|]. apply num_end_byte in Ht as (Hd & _). simpl. by rewrite Hd.
  - simpl in Hs. apply andb_true_iff in Hs as [-> Hs]. by rewrite IH.
Qed.

Lemma take_digits_only s : str_forall is_dig s = true -> take_digits s = (s, "").
Proof. intros Hs. pose proof (take_digits_all s "" Hs I) as H. by rewrite str_app_nil_r in H. Qed.

(** The digits of a non-negative integer as a literal. *)
Lemma pretty_N_spec x : exists c ds,
  pretty x = String c ds /\ str_forall is_dig (String c ds) = true /\
  (byteZ c = 48 -> ds = "") /\ digits_val 0 (String c ds) = Z.of_N x.
Proof.
  unfold pretty, pretty_N. case_decide as Hx; [subst; by exists "0"%char, ""|].
  destruct (pretty_N_go_spec x "") as (c & ds & -> & Hf & Hn & Hv); [lia|].
  rewrite str_app_nil_r. by exists c, ds.
Qed.

Lemma scan_number_digits sg c ds :
  (sg = "" \/ sg = "-") -> str_forall is_dig (String c ds) = true -> (byteZ c = 48 -> ds = "") ->
  scan_number (sg +:+ String c ds) = Some (mkNum sg (String c ds) "" "", "").
Proof.
  intros Hsg Hf H0.
  assert (Hc : 48 <= byteZ c <= 57).
  { simpl in Hf. apply andb_true_iff in Hf as [Hf _]. unfold is_dig, in_rng in Hf. bool_to_prop. done. }
  assert (opt_char (fun b => b =? 45) (sg +:+ String c ds) = (sg, String c ds)) as Ho.
  { destruct Hsg as [->| ->]; simpl; [|done]. by decide_cmp. }
  unfold scan_number. rewrite Ho. cbn [scan_int].
  destruct (Z.eqb_spec (byteZ c) 48) as [E|E].
  - rewrite (H0 E). done.
  - unfold digits1. rewrite take_digits_only by done. done.
Qed.

Lemma Itoa_form z : exists sg c ds, Itoa z = sg +:+ String c ds /\ (sg = "" \/ sg = "-") /\
  str_forall is_dig (String c ds) = true /\ (byteZ c = 48 -> ds = "") /\
  (if (sg =? "")%string then digits_val 0 (String c ds) else - digits_val 0 (String c ds)) = z.
Proof.
  unfold Itoa, pretty, pretty_Z. destruct z as [|p|p].
  - exists "", "0"%char, "". split_and!; [done|by left|done..].
  - destruct (pretty_N_spec (N.pos p)) as (c & ds & E & Hf & H0 & Hv).
    exists "", c, ds. split_and!; auto.
  - destruct (pretty_N_spec (N.pos p)) as (c & ds & E & Hf & H0 & Hv).
    exists "-", c, ds. split_and!; [|by right|done|done|by rewrite Hv].
    exact (f_equal (String.append "-") E).
Qed.

Lemma num_ok_Itoa z : num_ok (Itoa z).
Proof.
  destruct (Itoa_form z) as (sg & c & ds & -> & Hsg & Hf & H0 & _).
  eexists. by apply scan_number_digits.
Qed.

Lemma ParseInt_Itoa z : - 2 ^ 63 <= z < 2 ^ 63 -> ParseInt (Itoa z) = Some z.
Proof.
  intros Hz. destruct (Itoa_form z) as (sg & c & ds & -> & Hsg & Hf & H0 & Hv).
  assert (Hc : 48 <= byteZ c <= 57).
  { simpl in Hf. apply andb_true_iff in Hf as [Hf' _]. unfold is_dig, in_rng in Hf'. bool_to_prop. done. }
  unfold ParseInt.
  assert (opt_char (fun b => b =? 45) (sg +:+ String c ds) = (sg, String c ds)) as ->.
  { destruct Hsg as [->| ->]; simpl; [|done]. by decide_cmp. }
  rewrite take_digits_only by done. cbn [fst snd]. rewrite Hv.
  change (String c ds =? "")%string with false. change ("" =? "")%string with true.
  cbn [orb negb]. by decide_cmp.
Qed.

(** ** Round trip: parsing what [print] writes *)

Fixpoint json_clean (v : json) : json :=
  match v with
  | JStr s => JStr (clean s)
  | JArr l => JArr (map json_clean l)
  | JObj m => JObj (map (fun e => (clean e.1, json_clean e.2)) m)
  | _ => v
  end.

(** Every number is a literal. *)
Inductive nums_ok : json -> Prop :=
| ok_null : nums_ok JNull
| ok_bool b : nums_ok (JBool b)
| ok_num l : num_ok l -> nums_ok (JNum l)
| ok_str s : nums_ok (JStr s)
| ok_arr l : Forall nums_ok l -> nums_ok (JArr l)
| ok_obj m : Forall (fun e => nums_ok (snd e)) m -> nums_ok (JObj m).

Fixpoint max_list (l : list Z) : Z := match l with [] => 0 | x :: l => Z.max x (max_list l) end.

Fixpoint depth (v : json) : Z :=
  match v with
  | JArr l => 1 + max_list (map depth l)
  | JObj m => 1 + max_list (map (fun e => depth e.2) m)
  | _ => 0
  end.

Lemma max_list_pos l : 0 <= max_list l.
Proof. induction l; simpl; lia. Qed.

Definition all_ws (w : string) : Prop := str_forall is_ws w = true.

Class WsLayout `{Layout} := { gap_ws : forall d, all_ws (gap d); colon_ws : all_ws after_colon }.

#[export] Instance indented_ws : @WsLayout indented.
Proof.
  split; [|done]. intros d. unfold all_ws, gap, indented. rewrite str_forall_app. simpl.
  induction d; simpl; [done|]. done.
Qed.

#[export] Instance compact_ws : @WsLayout compact.
Proof. by split. Qed.

Lemma skip_ws_app w s : all_ws w -> skip_ws (w +:+ s) = skip_ws s.
Proof.
  unfold all_ws. induction w as [|c w IH]; simpl; [done|]. rewrite andb_true_iff.
  intros [-> Hw]. auto.
Qed.

Lemma num_end_ws w c t : all_ws w -> num_char c = false -> num_end (w +:+ String c t).
Proof.
  destruct w as [|c' w]; [done|]. unfold all_ws. simpl. rewrite andb_true_iff. intros [Hc _] _.
  unfold is_ws in Hc. unfold num_char, is_dig, in_rng.
  repeat (apply orb_true_iff in Hc as [Hc|Hc]); apply Z.eqb_eq in Hc; by rewrite Hc.
Qed.

(** With enough fuel, the scanner of [s] at depth [d] gives [r]. *)
Definition scans {A} (scan : nat -> Z -> string -> option (A * string)) (d : Z) (s : string)
  (r : A * string) : Prop :=
  exists n0, forall n, (n0 <= n)%nat -> scan n d s = Some r.

Section roundtrip.
Context `{WsLayout}.

Lemma scans_ws w d s r : all_ws w -> scans scan_value d s r -> scans scan_value d (w +:+ s) r.
Proof.
  intros Hw [n0 Hn]. exists n0. intros n Hle. specialize (Hn n Hle).
  destruct n as [|n]; [done|]. cbn [scan_value] in *. by rewrite skip_ws_app.
Qed.

Lemma scans_literal d s c s' r :
  s = String c s' -> is_ws c = false -> byteZ c <> 123 -> byteZ c <> 91 -> byteZ c <> 34 ->
  scan_literal s = Some r -> scans scan_value d s r.
Proof.
  intros -> Hw H1 H2 H3 Hl. exists 1%nat. intros [|n] Hn; [lia|]. cbn [scan_value skip_ws].
  rewrite Hw. by decide_cmp.
Qed.

Lemma scans_string d s t : scans scan_value d (json_quote s +:+ t) (JStr (clean s), t).
Proof.
  exists 1%nat. intros [|n] Hn; [lia|]. unfold json_quote. rewrite !str_app_assoc.
  change (scan_value (S n) d (dquote +:+ ?u)) with (p ← unquote 0 u; Some (JStr p.1, p.2)).
  by rewrite unquote_quote_from.
Qed.

Lemma scans_num d l t : num_ok l -> num_end t -> scans scan_value d (l +:+ t) (JNum l, t).
Proof.
  intros Hl Ht. pose proof (scan_literal_num _ _ Hl Ht) as Hs.
  destruct l as [|c l]; [by destruct Hl|].
  assert (Hc : in_rng 45 57 (byteZ c) = true).
  { destruct Hl as [p Hp]. revert Hp. unfold scan_number. simpl.
    destruct (Z.eqb_spec (byteZ c) 45) as [->|]; [done|]. cbn [scan_int].
    destruct (Z.eqb_spec (byteZ c) 48) as [->|]; [done|].
    unfold digits1. cbn [take_digits]. destruct (is_dig c) eqn:Ed; [|done]. intros _.
    unfold is_dig, in_rng in *. bool_to_prop. by decide_cmp. }
  unfold in_rng in Hc. bool_to_prop. eapply scans_literal; [done|..|done]; [|lia..].
  unfold is_ws. by decide_cmp.
Qed.

(** One element and the rest, one member and the rest. *)
Lemma scans_elems_one d s v t w :
  all_ws w -> scans scan_value d s (v, w +:+ "]" +:+ t) -> scans scan_elems d s ([v], t).
Proof.
  intros Hw [n0 Hn]. exists (S n0). intros [|n] Hle; [lia|]. cbn [scan_elems].
  rewrite (Hn n) by lia. cbn [mbind option_bind snd]. by rewrite skip_ws_app.
Qed.

Lemma scans_elems_cons d s v u l t :
  scans scan_value d s (v, "," +:+ u) -> scans scan_elems d u (l, t) ->
  scans scan_elems d s (v :: l, t).
Proof.
  intros [n0 Hn] [n1 Hn1]. exists (S (Nat.max n0 n1)). intros [|n] Hle; [lia|]. cbn [scan_elems].
  rewrite (Hn n) by lia. cbn [mbind option_bind snd].
  change (skip_ws ("," +:+ u)) with ("," +:+ u). cbn. by rewrite (Hn1 n) by lia.
Qed.

Lemma scan_members_key n d w k s :
  all_ws w ->
  scan_members (S n) d (w +:+ json_quote k +:+ ":" +:+ s) =
    (v ← scan_value n d s;
     match skip_ws v.2 with
     | String c' s3 =>
       if byteZ c' =? 125 then Some ([(clean k, v.1)], s3)
       else if byteZ c' =? 44 then p ← scan_members n d s3; Some ((clean k, v.1) :: p.1, p.2)
       else None
     | EmptyString => None
     end).
Proof.
  intros Hw. cbn [scan_members]. rewrite skip_ws_app by done. unfold json_quote.
  rewrite !str_app_assoc. pose proof (unquote_quote_from k (":" +:+ s)) as Hq.
  unfold dquote in *. cbn [String.append] in *.
  change (skip_ws (String (Zbyte 34) ?u)) with (String (Zbyte 34) u).
  change (byteZ (Zbyte 34) =? 34) with true. cbv iota. rewrite Hq.
  cbn [mbind option_bind fst snd]. change (skip_ws (String ":"%char s)) with (String ":"%char s).
  change (byteZ ":"%char =? 58) with true. done.
Qed.

Lemma scans_members_one d w k s v t w' :
  all_ws w -> all_ws w' -> scans scan_value d s (v, w' +:+ "}" +:+ t) ->
  scans scan_members d (w +:+ json_quote k +:+ ":" +:+ s) ([(clean k, v)], t).
Proof.
  intros Hw Hw' [n0 Hn]. exists (S n0). intros [|n] Hle; [lia|].
  rewrite scan_members_key, (Hn n) by (done || lia). cbn [mbind option_bind snd fst].
  by rewrite skip_ws_app.
Qed.

Lemma scans_members_cons d w k s v u l t :
  all_ws w -> scans scan_value d s (v, "," +:+ u) -> scans scan_members d u (l, t) ->
  scans scan_members d (w +:+ json_quote k +:+ ":" +:+ s) ((clean k, v) :: l, t).
Proof.
  intros Hw [n0 Hn] [n1 Hn1]. exists (S (Nat.max n0 n1)). intros [|n] Hle; [lia|].
  rewrite scan_members_key, (Hn n) by (done || lia). cbn [mbind option_bind snd fst].
  change (skip_ws ("," +:+ u)) with ("," +:+ u). cbn. by rewrite (Hn1 n) by lia.
Qed.

Lemma elems_first n d s p :
  scan_elems n d s = Some p -> exists c s2, skip_ws s = String c s2 /\ byteZ c <> 93.
Proof.
  destruct n as [|[|n]]; [done|done|]. cbn [scan_elems scan_value].
  destruct (skip_ws s) as [|c s'] eqn:E; [done|]. intros Hs. exists c, s'. split; [done|].
  intros Hc. assert (c = Zbyte 93) as -> by (by rewrite <- Hc, Zbyte_byteZ). done.
Qed.

Lemma members_first n d s p :
  scan_members n d s = Some p -> exists c s2, skip_ws s = String c s2 /\ byteZ c <> 125.
Proof.
  destruct n as [|n]; [done|]. cbn [scan_members].
  destruct (skip_ws s) as [|c s'] eqn:E; [done|]. intros Hs. exists c, s'. split; [done|].
  destruct (Z.eqb_spec (byteZ c) 34); [lia|done].
Qed.

Lemma scans_array d s l t :
  d + 1 <= maxNestingDepth -> scans scan_elems (d + 1) s (l, t) ->
  scans scan_value d ("[" +:+ s) (JArr l, t).
Proof.
  intros Hd [n0 Hn]. exists (S n0). intros [|n] Hle; [lia|]. specialize (Hn n ltac:(lia)).
  destruct (elems_first _ _ _ _ Hn) as (c & s2 & Es & Hc).
  change ("[" +:+ s) with (String "["%char s). cbn [scan_value].
  change (skip_ws (String "["%char s)) with (String "["%char s).
  change (byteZ "["%char) with 91. cbn [Z.eqb Pos.eqb].
  rewrite Hn, Es. by decide_cmp.
Qed.

Lemma scans_object d s l t :
  d + 1 <= maxNestingDepth -> scans scan_members (d + 1) s (l, t) ->
  scans scan_value d ("{" +:+ s) (JObj l, t).
Proof.
  intros Hd [n0 Hn]. exists (S n0). intros [|n] Hle; [lia|]. specialize (Hn n ltac:(lia)).
  destruct (members_first _ _ _ _ Hn) as (c & s2 & Es & Hc).
  change ("{" +:+ s) with (String "{"%char s). cbn [scan_value].
  change (skip_ws (String "{"%char s)) with (String "{"%char s).
  change (byteZ "{"%char) with 123. cbn [Z.eqb Pos.eqb].
  rewrite Hn, Es. by decide_cmp.
Qed.

Definition parses_back (v : json) : Prop := forall k d t,
  nums_ok v -> d + depth v <= maxNestingDepth -> num_end t ->
  scans scan_value d (print k v +:+ t) (json_clean v, t).

Lemma print_elems l k d t :
  l <> [] -> Forall parses_back l -> Forall nums_ok l ->
  d + max_list (map depth l) <= maxNestingDepth ->
  scans scan_elems d (Join (map (fun x => gap (S k) +:+ print (S k) x) l) "," +:+ gap k +:+ "]" +:+ t)
    (map json_clean l, t).
Proof.
  intros Hne Hp Hok. induction l as [|v l IH]; [done|]. intros Hd. cbn [map max_list] in Hd.
  apply Forall_cons in Hp as [Hv Hp]. apply Forall_cons in Hok as [Hokv Hok].
  destruct l as [|v' l].
  - cbn [map Join]. rewrite str_app_assoc.
    apply (scans_elems_one _ _ _ _ (gap k)); [apply gap_ws|].
    apply scans_ws; [apply gap_ws|]. apply Hv; [done|lia|]. apply num_end_ws; [apply gap_ws|done].
  - change (Join (map ?f (v :: v' :: l)) ?c) with (f v +:+ c +:+ Join (map f (v' :: l)) c).
    cbv beta. rewrite !str_app_assoc.
    apply (scans_elems_cons _ _ _ (Join (map (fun x => gap (S k) +:+ print (S k) x) (v' :: l)) "," +:+ gap k +:+ "]" +:+ t)).
    + apply scans_ws; [apply gap_ws|]. apply Hv; [done|lia|done].
    + apply IH; [done..|lia].
Qed.

Lemma print_members l k d t :
  l <> [] -> Forall (fun e => parses_back e.2) l -> Forall (fun e => nums_ok e.2) l ->
  d + max_list (map (fun e => depth e.2) l) <= maxNestingDepth ->
  scans scan_members d (Join (map (print_member (S k) (print (S k))) l) "," +:+ gap k +:+ "}" +:+ t)
    (map (fun e => (clean e.1, json_clean e.2)) l, t).
Proof.
  intros Hne Hp Hok. induction l as [|v l IH]; [done|]. intros Hd. cbn [map max_list] in Hd.
  apply Forall_cons in Hp as [Hv Hp]. apply Forall_cons in Hok as [Hokv Hok].
  destruct l as [|v' l].
  - cbn [map Join]. unfold print_member. rewrite !str_app_assoc.
    apply (scans_members_one _ _ _ _ _ _ (gap k)); [apply gap_ws..|].
    apply scans_ws; [apply colon_ws|]. apply Hv; [done|lia|]. apply num_end_ws; [apply gap_ws|done].
  - change (Join (map ?f (v :: v' :: l)) ?c) with (f v +:+ c +:+ Join (map f (v' :: l)) c).
    unfold print_member at 1. rewrite !str_app_assoc.
    apply (scans_members_cons _ _ _ _ _ (Join (map (print_member (S k) (print (S k))) (v' :: l)) "," +:+ gap k +:+ "}" +:+ t)).
    + apply gap_ws.
    + apply scans_ws; [apply colon_ws|]. apply Hv; [done|lia|done].
    + apply IH; [done..|lia].
Qed.

Lemma print_parses_back v : parses_back v.
Proof.
  induction v as [|b|l|s|l IH|m IH] using json_ind_nested; intros k d t Hok Hd Ht.
  - apply (scans_literal _ _ "n"%char ("ull" +:+ t)); try done. by destruct t.
  - destruct b; [apply (scans_literal _ _ "t"%char ("rue" +:+ t))|
                 apply (scans_literal _ _ "f"%char ("alse" +:+ t))]; try done; by destruct t.
  - inversion Hok. by apply scans_num.
  - apply scans_string.
  - inversion Hok as [| | | |? Hall|]; subst. cbn [depth] in Hd.
    pose proof (max_list_pos (map depth l)).
    destruct l as [|v l].
    + exists 1%nat. intros [|n] Hle; [lia|]. cbn. by rewrite (proj2 (Z.ltb_ge _ _)) by (simpl in *; lia).
    + change (print k (JArr (v :: l))) with
        ("[" +:+ Join (map (fun x => gap (S k) +:+ print (S k) x) (v :: l)) "," +:+ gap k +:+ "]").
      rewrite !str_app_assoc. cbn [json_clean]. apply scans_array; [lia|].
      apply print_elems; [done..|lia].
  - inversion Hok as [| | | | |? Hall]; subst. cbn [depth] in Hd.
    pose proof (max_list_pos (map (fun e => depth e.2) m)).
    destruct m as [|e m].
    + exists 1%nat. intros [|n] Hle; [lia|]. cbn. by rewrite (proj2 (Z.ltb_ge _ _)) by (simpl in *; lia).
    + change (print k (JObj (e :: m))) with
        ("{" +:+ Join (map (print_member (S k) (print (S k))) (e :: m)) "," +:+ gap k +:+ "}").
      rewrite !str_app_assoc. cbn [json_clean]. apply scans_object; [lia|].
      apply print_members; [done..|lia].
Qed.

(** A printed document parses back, whatever whitespace follows it. *)
Lemma parse_print v w :
  nums_ok v -> depth v <= maxNestingDepth -> all_ws w ->
  parse_json (print 0 v +:+ w) = Some (json_clean v).
Proof.
  intros Hok Hd Hw. destruct (print_parses_back v 0%nat 0 w Hok) as [n0 Hn].
  { lia. }
  { destruct w as [|c w]; [done|]. exact (num_end_ws (String c w) " "%char "" Hw eq_refl). }
  unfold parse_json. set (s := print 0 v +:+ w) in *.
  rewrite <- (scan_fuel _ (Nat.max n0 (2 * len s + 2))) by lia.
  rewrite Hn by lia. cbn [mbind option_bind snd fst].
  rewrite <- (str_app_nil_r w), skip_ws_app by done. done.
Qed.
End roundtrip.

(** ** Decoding into [any] *)

(** The exponent of a literal; [strconv] stops accumulating at 10000. *)
Fixpoint exp_val (acc : Z) (s : string) : Z :=
  match s with
  | EmptyString => acc
  | String c s => exp_val (if acc <? 10000 then acc * 10 + (byteZ c - 48) else acc) s
  end.

Definition exp_of (s : string) : Z :=
  match s with
  | EmptyString => 0
  | String _ s =>
    let '(sg, ds) := opt_char (fun b => (b =? 43) || (b =? 45)) s in
    if (sg =? "-")%string then - exp_val 0 ds else exp_val 0 ds
  end.

(** [m * 10^e], correctly rounded. For a negative exponent the quotient is
    taken to more than 66 bits and its last bit made sticky. *)
Definition dec_float (m e : Z) : float64 :=
  if 0 <=? e then binary_normalize 53 1024 (m * 10 ^ e) 0 false
  else
    let d := 10 ^ (- e) in
    let s := Z.log2 d + 70 in
    let n := m * 2 ^ s in
    binary_normalize 53 1024 (2 * (n / d) + (if n mod d =? 0 then 0 else 1)) (- (s + 1)) false.

(** [strconv.ParseFloat(lit, 64)]: [None] is a range error. *)
Definition num_float (p : num_parts) : option float64 :=
  let frac := str_drop 1 (np_frac p) in
  let f := dec_float (digits_val 0 (np_int p +:+ frac)) (exp_of (np_exp p) - Z.of_nat (len frac)) in
  match f with
  | S754_infinity _ | S754_nan => None
  | _ => Some (if (np_neg p =? "")%string then f else SFopp f)
  end.

(** [m[k] = v] *)
Fixpoint amap_set {V} (m : list (string * V)) (k : string) (v : V) : list (string * V) :=
  match m with
  | [] => [(k, v)]
  | (k', v') :: m => if decide (k = k') then (k, v) :: m else (k', v') :: amap_set m k v
  end.

(** [None] is an [UnmarshalTypeError]: a number out of range. *)
Fixpoint to_any (v : json) : option any :=
  match v with
  | JNull => Some VNil
  | JBool b => Some (VBool b)
  | JStr s => Some (VStr s)
  | JNum l => p ← scan_number l; VNum <$> num_float p.1
  | JArr l =>
    (fix go (l : list json) (acc : list any) : option any :=
      match l with
      | [] => Some (VArr (reverse acc))
      | x :: l => y ← to_any x; go l (y :: acc)
      end) l []
  | JObj m =>
    (fix go (m : list (string * json)) (acc : amap) : option any :=
      match m with
      | [] => Some (VMap acc)
      | (k, x) :: m => y ← to_any x; go m (amap_set acc k y)
      end) m []
  end.

(** The members of an object decoded into a [map[string]any] that already
    holds [acc]. *)
Fixpoint members_into (m : list (string * json)) (acc : amap) : option amap :=
  match m with
  | [] => Some acc
  | (k, x) :: m => y ← to_any x; members_into m (amap_set acc k y)
  end.

Lemma to_any_obj m acc :
  (fix go (m : list (string * json)) (acc : amap) : option any :=
      match m with
      | [] => Some (VMap acc)
      | (k, x) :: m => y ← to_any x; go m (amap_set acc k y)
      end) m acc = VMap <$> members_into m acc.
Proof. revert acc. induction m as [|[k x] m IH]; intros acc; simpl; [done|]. by destruct (to_any x); simpl. Qed.

Lemma amap_set_keys {V} (m : list (string * V)) k v :
  NoDup m.*1 -> NoDup (amap_set m k v).*1 /\ forall k', k' ∈ (amap_set m k v).*1 <-> k' = k \/ k' ∈ m.*1.
Proof.
  induction m as [|[k0 v0] m IH]; simpl; intros Hnd.
  - split; [repeat constructor; set_solver|set_solver].
  - apply NoDup_cons in Hnd as [Hk0 Hnd]. destruct (IH Hnd) as [IH1 IH2].
    case_decide as Hk; simpl.
    + subst. split; [by apply NoDup_cons|set_solver].
    + split; [apply NoDup_cons; split; [|done]; rewrite IH2; set_solver|]. intros k'.
      rewrite !elem_of_cons, IH2. naive_solver.
Qed.

Lemma amap_set_Forall {V} (P : V -> Prop) (m : list (string * V)) k v :
  Forall (fun e => P e.2) m -> P v -> Forall (fun e => P e.2) (amap_set m k v).
Proof.
  induction 1 as [|[k0 v0] m Hv0 Hm IH]; simpl; intros Hv; [by repeat constructor|].
  case_decide; constructor; auto.
Qed.

Lemma members_into_wf m : Forall (fun e => forall v, to_any e.2 = Some v -> any_wf v) m ->
  forall acc m', any_wf (VMap acc) -> members_into m acc = Some m' -> any_wf (VMap m').
Proof.
  induction 1 as [|[k x] m Hx Hm IH]; intros acc m' Hacc; simpl; [by intros [= <-]|].
  destruct (to_any x) as [y|] eqn:Ey; [|done]. simpl. apply IH.
  apply any_wf_map_inv in Hacc as [Hnd Hf]. constructor.
  - by apply amap_set_keys.
  - apply amap_set_Forall; [done|]. by apply Hx.
Qed.

(** Decoded values are well formed: a map has each key once. *)
Lemma to_any_wf v a : to_any v = Some a -> any_wf a.
Proof.
  revert a. induction v as [|b|l|s|l IH|m IH] using json_ind_nested; intros a; cbn [to_any].
  - intros [= <-]. constructor.
  - intros [= <-]. constructor.
  - destruct (scan_number l) as [p|]; [|done]. simpl. destruct (num_float p.1); [|done].
    intros [= <-]. constructor.
  - intros [= <-]. constructor.
  - assert (Hacc : Forall any_wf []) by constructor. revert Hacc. generalize (@nil any).
    induction IH as [|x l Hx Hl IHl]; intros acc Hacc.
    { intros [= <-]. constructor. by apply Forall_reverse. }
    destruct (to_any x) as [y|] eqn:Ey; [|done]. simpl. apply IHl. constructor; [by apply Hx|done].
  - rewrite to_any_obj. destruct (members_into m []) as [m'|] eqn:E; [|done]. intros [= <-].
    eapply members_into_wf; [|apply (wf_map []); constructor|exact E]. done.
Qed.

(** ** Reading a document *)

(** The value of the last member named [k] (the one [Unmarshal] keeps). *)
Fixpoint member (k : string) (m : list (string * json)) : option json :=
  match m with
  | [] => None
  | (k', v) :: m =>
    match member k m with
    | Some w => Some w
    | None => if (k =? k')%string then Some v else None
    end
  end.

Definition jfield (k : string) (v : json) : option json :=
  match v with JObj m => member k m | _ => None end.
Definition jstr (v : json) : option string := match v with JStr s => Some s | _ => None end.
Definition jarr (v : json) : option (list json) := match v with JArr l => Some l | _ => None end.
Definition jint (v : json) : option Z := match v with JNum l => ParseInt l | _ => None end.

(** ** [clean] *)

Lemma clean_ascii s : isASCII s = true -> clean s = s.
Proof.
  intros Hs. unfold clean. rewrite runes_ascii by done. unfold isASCII in Hs.
  induction s as [|c s IH]; simpl in *; [done|].
  apply andb_true_iff in Hs as [Hc%Z.ltb_lt Hs]. rewrite EncodeRune_byte by done. simpl. by rewrite IH.
Qed.

Lemma DecodeRune_scalar s : is_scalar (DecodeRune s).1 = true.
Proof.
  destruct (DecodeRune s) as [r w] eqn:E. simpl.
  destruct (decide (r = RuneError)) as [->|Hne]; [done|].
  apply (EncodeRune_DecodeRune _ _ _ E). naive_solver.
Qed.

Lemma runes_from_skip p t : runes_from (len p) (p +:+ t) = runes t.
Proof. induction p; simpl; [done|]. done. Qed.

Lemma runes_EncodeRune r t :
  is_scalar r = true -> runes (EncodeRune r +:+ t) = (r, len (EncodeRune r)) :: runes t.
Proof.
  intros Hr. pose proof (DecodeRune_EncodeRune r t Hr) as Hd. unfold runes at 1.
  destruct (EncodeRune r) as [|c p] eqn:E.
  { simpl in *. exfalso. revert E. unfold EncodeRune. by repeat case_match. }
  change (String c p +:+ t) with (String c (p +:+ t)) in *. cbn [runes_from].
  rewrite Hd. cbn [snd String.length]. rewrite Nat.sub_succ, Nat.sub_0_r. by rewrite runes_from_skip.
Qed.

Lemma runes_encode l : Forall (fun r => is_scalar r = true) l ->
  runes (str_concat (map EncodeRune l)) = map (fun r => (r, len (EncodeRune r))) l.
Proof. induction 1 as [|r l Hr Hl IH]; [done|]. cbn [map str_concat]. by rewrite runes_EncodeRune, IH. Qed.

Lemma runes_scalar k s : Forall (fun rw => is_scalar rw.1 = true) (runes_from k s).
Proof.
  revert k. induction s as [|c s IH]; intros k; [constructor|]. cbn [runes_from].
  destruct k; [|apply IH]. constructor; [apply DecodeRune_scalar|apply IH].
Qed.

Lemma clean_idemp s : clean (clean s) = clean s.
Proof.
  assert (Hc : forall s, clean s = str_concat (map EncodeRune (map fst (runes s)))).
  { intros u. unfold clean. by rewrite map_map. }
  rewrite (Hc (clean s)). rewrite (Hc s) at 1.
  rewrite runes_encode by (apply Forall_fmap, runes_scalar). rewrite map_map.
  rewrite (Hc s). f_equal. by rewrite map_map.
Qed.

Definition valid_utf8 (s : string) : Prop := clean s = s.

(** Member names are ASCII. *)
Ltac clean_keys :=
  cbn [json_clean map fst snd app];
  repeat match goal with
  | |- context [clean (String ?c ?s)] => rewrite (clean_ascii (String c s) eq_refl)
  end.

Lemma max_list_const {A} (g : A -> json) (c : Z) l : (forall a, depth (g a) <= c) -> 0 <= c ->
  max_list (map depth (map g l)) <= c.
Proof. intros Hg Hc. induction l as [|a l IH]; simpl; [done|]. specialize (Hg a). lia. Qed.

Lemma Encode_parses v :
  nums_ok v -> depth v <= maxNestingDepth -> parse_json (Encode v) = Some (json_clean v).
Proof. intros. unfold Encode. by apply (@parse_print indented indented_ws). Qed.

Lemma Marshal_parses v :
  nums_ok v -> depth v <= maxNestingDepth -> parse_json (Marshal v) = Some (json_clean v).
Proof.
  intros. unfold Marshal. rewrite <- (str_app_nil_r (@print compact 0 v)).
  by apply (@parse_print compact compact_ws).
Qed.
