(* ===== verification/Registry.v ===== *)
(** [internal/v2]: rules, findings, the registry and the dispatch loops.

    Rule code reaches its context only through [Report] and [ReportTool] (the
    other fields are unexported), so a callback is the list of calls it makes,
    in order, and [run_calls] replays them on the context. *)
From S2P Require Import Prelude GoStrings Model.

Abbreviation Severity := string (only parsing).
Definition SevError : Severity := "error".
Definition SevWarning : Severity := "warning".
Definition SevInfo : Severity := "info".

Abbreviation FixLevel := string (only parsing).
Definition FixNone : FixLevel := "".
Definition FixCosmetic : FixLevel := "cosmetic".
Definition FixIdiomatic : FixLevel := "idiomatic".
Definition FixSemantic : FixLevel := "semantic".

Abbreviation Category := string (only parsing).
Definition CatAgreement : Category := "schema-handler-agreement".
Definition CatSpec : Category := "spec-compliance".
Definition CatSafety : Category := "safety-contract".
Definition CatExamples : Category := "examples".

Record Finding := mkFinding {
  RuleID : string;
  FSeverity : Severity;
  FCategory : Category;
  Message : string;
  ToolName : string;
  FSourceFile : string;
  FSourceLine : Z
}.

#[export] Instance Finding_eq_dec : EqDecision Finding.
Proof. solve_decision. Defined.

(** A call [cc.Report(msg)] or [cc.ReportTool(tool, msg)]. *)
Inductive cmp_call := CReport (msg : string) | CReportTool (tool : Tool) (msg : string).

Record Rule := mkRule {
  ID : string;
  RCategory : Category;
  RSeverity : Severity;
  RDescription : string;
  Fix : FixLevel;
  Implementation : option (Tool -> list string);
  ProjectImplementation : option (ToolSet -> list (Tool * string));
  ComparisonImplementation : option (option ToolSet -> option ToolSet -> list cmp_call)
}.

(** ** Contexts *)

Record Context := mkContext { ctx_Tool : Tool; ctx_findings : list Finding; ctx_rule : Rule }.

Definition Report (c : Context) (message : string) : Context :=
  {| ctx_Tool := ctx_Tool c;
     ctx_findings := ctx_findings c ++
       [{| RuleID := ID (ctx_rule c); FSeverity := RSeverity (ctx_rule c);
           FCategory := RCategory (ctx_rule c); Message := message;
           ToolName := Name (ctx_Tool c); FSourceFile := SourceFile (ctx_Tool c);
           FSourceLine := SourceLine (ctx_Tool c) |}];
     ctx_rule := ctx_rule c |}.

Definition Findings (c : Context) : list Finding := ctx_findings c.

Record ProjectContext := mkProjectContext {
  pc_ToolSet : ToolSet; pc_findings : list Finding; pc_rule : Rule }.

Definition ReportTool (pc : ProjectContext) (tool : Tool) (message : string) : ProjectContext :=
  {| pc_ToolSet := pc_ToolSet pc;
     pc_findings := pc_findings pc ++
       [{| RuleID := ID (pc_rule pc); FSeverity := RSeverity (pc_rule pc);
           FCategory := RCategory (pc_rule pc); Message := message;
           ToolName := Name tool; FSourceFile := SourceFile tool;
           FSourceLine := SourceLine tool |}];
     pc_rule := pc_rule pc |}.

Record ComparisonContext := mkComparisonContext {
  cc_Static : option ToolSet; cc_Live : option ToolSet;
  cc_findings : list Finding; cc_rule : Rule }.

Definition cc_Report (cc : ComparisonContext) (message : string) : ComparisonContext :=
  {| cc_Static := cc_Static cc; cc_Live := cc_Live cc;
     cc_findings := cc_findings cc ++
       [{| RuleID := ID (cc_rule cc); FSeverity := RSeverity (cc_rule cc);
           FCategory := RCategory (cc_rule cc); Message := message;
           ToolName := ""; FSourceFile := ""; FSourceLine := 0 |}];
     cc_rule := cc_rule cc |}.

Definition cc_ReportTool (cc : ComparisonContext) (tool : Tool) (message : string) : ComparisonContext :=
  {| cc_Static := cc_Static cc; cc_Live := cc_Live cc;
     cc_findings := cc_findings cc ++
       [{| RuleID := ID (cc_rule cc); FSeverity := RSeverity (cc_rule cc);
           FCategory := RCategory (cc_rule cc); Message := message;
           ToolName := Name tool; FSourceFile := SourceFile tool;
           FSourceLine := SourceLine tool |}];
     cc_rule := cc_rule cc |}.

Definition cc_call (cc : ComparisonContext) (c : cmp_call) : ComparisonContext :=
  match c with CReport msg => cc_Report cc msg | CReportTool t msg => cc_ReportTool cc t msg end.

(** ** The registry *)

Inductive register_panic :=
| NilRule
| EmptyID
| NoImplementation (id : string)
| DuplicateID (id : string).

Definition is_nil {A} (o : option A) : bool := match o with None => true | Some _ => false end.

Definition Register (registry : list Rule) (r : option Rule) : result register_panic (list Rule) :=
  match r with
  | None => Err NilRule
  | Some r =>
    if (ID r =? "")%string then Err EmptyID
    else if is_nil (Implementation r) && is_nil (ProjectImplementation r)
            && is_nil (ComparisonImplementation r) then Err (NoImplementation (ID r))
    else if existsb (fun existing => (ID existing =? ID r)%string) registry
         then Err (DuplicateID (ID r))
    else Ok (registry ++ [r])
  end.

(** The [init] functions of a package registering [rs] one after the other. *)
Fixpoint register_all (registry : list Rule) (rs : list Rule) : result register_panic (list Rule) :=
  match rs with
  | [] => Ok registry
  | r :: rs => registry' ← Register registry (Some r); register_all registry' rs
  end.

Definition All (registry : list Rule) : list Rule := registry.

(** ** Dispatch *)

Fixpoint Run (rules : list Rule) (tool : Tool) : list Finding :=
  match rules with
  | [] => []
  | r :: rules =>
    match Implementation r with
    | None => Run rules tool
    | Some impl =>
      let ctx := {| ctx_Tool := tool; ctx_findings := []; ctx_rule := r |} in
      Findings (foldl Report ctx (impl tool)) ++ Run rules tool
    end
  end.

Fixpoint RunProject (rules : list Rule) (set : ToolSet) : list Finding :=
  match rules with
  | [] => []
  | r :: rules =>
    match ProjectImplementation r with
    | None => RunProject rules set
    | Some impl =>
      let pc := {| pc_ToolSet := set; pc_findings := []; pc_rule := r |} in
      pc_findings (foldl (fun pc tm => ReportTool pc tm.1 tm.2) pc (impl set)) ++ RunProject rules set
    end
  end.

Fixpoint RunComparison (rules : list Rule) (static live : option ToolSet) : list Finding :=
  match rules with
  | [] => []
  | r :: rules =>
    match ComparisonImplementation r with
    | None => RunComparison rules static live
    | Some impl =>
      let cc := {| cc_Static := static; cc_Live := live; cc_findings := []; cc_rule := r |} in
      cc_findings (foldl cc_call cc (impl static live)) ++ RunComparison rules static live
    end
  end.

(** ** What a finding says *)

Definition finding_of (r : Rule) (t : Tool) (msg : string) : Finding :=
  {| RuleID := ID r; FSeverity := RSeverity r; FCategory := RCategory r; Message := msg;
     ToolName := Name t; FSourceFile := SourceFile t; FSourceLine := SourceLine t |}.

Definition finding_of_call (r : Rule) (c : cmp_call) : Finding :=
  match c with
  | CReportTool t msg => finding_of r t msg
  | CReport msg =>
    {| RuleID := ID r; FSeverity := RSeverity r; FCategory := RCategory r; Message := msg;
       ToolName := ""; FSourceFile := ""; FSourceLine := 0 |}
  end.

Lemma foldl_Report c msgs :
  ctx_findings (foldl Report c msgs)
  = ctx_findings c ++ map (finding_of (ctx_rule c) (ctx_Tool c)) msgs.
Proof.
  revert c. induction msgs as [|m msgs IH]; intros c; simpl; [by rewrite app_nil_r|].
  rewrite IH. simpl. by rewrite <- app_assoc.
Qed.

Lemma foldl_ReportTool pc calls :
  pc_findings (foldl (fun pc tm => ReportTool pc tm.1 tm.2) pc calls)
  = pc_findings pc ++ map (fun tm => finding_of (pc_rule pc) tm.1 tm.2) calls.
Proof.
  revert pc. induction calls as [|m calls IH]; intros pc; simpl; [by rewrite app_nil_r|].
  rewrite IH. simpl. by rewrite <- app_assoc.
Qed.

Lemma foldl_cc_call cc calls :
  cc_findings (foldl cc_call cc calls)
  = cc_findings cc ++ map (finding_of_call (cc_rule cc)) calls.
Proof.
  revert cc. induction calls as [|m calls IH]; intros cc; simpl; [by rewrite app_nil_r|].
  rewrite IH. destruct m; simpl; by rewrite <- app_assoc.
Qed.

Lemma Run_concat rules tool :
  Run rules tool =
  r ← rules; map (finding_of r tool) (default (fun _ => []) (Implementation r) tool).
Proof.
  induction rules as [|r rules IH]; [done|]. simpl.
  destruct (Implementation r) as [impl|]; simpl; [|by rewrite IH].
  unfold Findings. by rewrite foldl_Report, IH.
Qed.

Lemma RunProject_concat rules set :
  RunProject rules set =
  r ← rules; map (fun tm => finding_of r tm.1 tm.2)
                 (default (fun _ => []) (ProjectImplementation r) set).
Proof.
  induction rules as [|r rules IH]; [done|]. simpl.
  destruct (ProjectImplementation r) as [impl|]; simpl; [|by rewrite IH].
  by rewrite foldl_ReportTool, IH.
Qed.

Lemma RunComparison_concat rules static live :
  RunComparison rules static live =
  r ← rules; map (finding_of_call r)
                 (default (fun _ _ => []) (ComparisonImplementation r) static live).
Proof.
  induction rules as [|r rules IH]; [done|]. simpl.
  destruct (ComparisonImplementation r) as [impl|]; simpl; [|by rewrite IH].
  by rewrite foldl_cc_call, IH.
Qed.

(** ** Well-formed registries *)

Definition has_callback (r : Rule) : Prop :=
  is_Some (Implementation r) \/ is_Some (ProjectImplementation r)
  \/ is_Some (ComparisonImplementation r).

Record registry_wf (registry : list Rule) : Prop := {
  wf_ids_distinct : NoDup (map ID registry);
  wf_ids_nonempty : Forall (fun r => ID r <> "") registry;
  wf_callbacks : Forall has_callback registry
}.

Lemma registry_wf_nil : registry_wf [].
Proof. split; constructor. Qed.

Lemma existsb_ID registry id :
  existsb (fun e => (ID e =? id)%string) registry = false <-> id ∉ map ID registry.
Proof.
  induction registry as [|r registry IH]; simpl; [set_solver|].
  rewrite orb_false_iff, IH, String.eqb_neq. set_solver.
Qed.

(** [Register] accepts exactly the rules that keep the registry well formed,
    and appends them. *)
Lemma Register_Ok registry r registry' :
  Register registry (Some r) = Ok registry' <->
  registry' = registry ++ [r] /\ ID r <> "" /\ has_callback r /\ ID r ∉ map ID registry.
Proof.
  unfold Register, has_callback. rewrite <- existsb_ID.
  destruct (String.eqb_spec (ID r) ""); [naive_solver|].
  destruct (Implementation r), (ProjectImplementation r), (ComparisonImplementation r); simpl;
    destruct (existsb _ registry); split; intros; destruct_and?; simplify_eq;
    repeat split; eauto; try done.
  destruct_or!; by destruct H1.
Qed.

Lemma Register_wf registry r registry' :
  registry_wf registry -> Register registry r = Ok registry' -> registry_wf registry'.
Proof.
  intros [Hd Hn Hc]. destruct r as [r|]; [|done]. rewrite Register_Ok.
  intros (-> & Hid & Hcb & Hfresh). split.
  - rewrite map_app. apply NoDup_app. repeat split; [done| |apply NoDup_singleton].
    intros x Hx Hx'. simpl in *. set_solver.
  - apply Forall_app. eauto.
  - apply Forall_app. eauto.
Qed.

Lemma register_all_wf rs registry registry' :
  registry_wf registry -> register_all registry rs = Ok registry' ->
  registry_wf registry' /\ registry' = registry ++ rs.
Proof.
  revert registry. induction rs as [|r rs IH]; intros registry Hwf; cbn [register_all].
  - intros [= <-]. by rewrite app_nil_r.
  - destruct (Register registry (Some r)) as [registry1|] eqn:E; [|done]. simpl.
    intros H. destruct (IH registry1) as [? ->]; [by eapply Register_wf|done|].
    apply Register_Ok in E as [-> _]. split; [done|]. by rewrite <- app_assoc.
Qed.

(** What each outcome of [Register] means. *)
Lemma Register_outcome registry r :
  match Register registry r with
  | Ok registry' => exists r', r = Some r' /\ registry' = registry ++ [r'] /\ ID r' <> "" /\
                    has_callback r' /\ ID r' ∉ map ID registry
  | Err NilRule => r = None
  | Err EmptyID => exists r', r = Some r' /\ ID r' = ""
  | Err (NoImplementation id) => exists r', r = Some r' /\ ID r' = id /\ ~ has_callback r'
  | Err (DuplicateID id) => exists r', r = Some r' /\ ID r' = id /\ id ∈ map ID registry
  end.
Proof.
  destruct r as [r|]; [|done]. destruct (Register registry (Some r)) as [registry'|e] eqn:E.
  - apply Register_Ok in E. exists r. naive_solver.
  - revert E. unfold Register, has_callback, is_nil.
    destruct (String.eqb_spec (ID r) ""); [naive_solver|].
    destruct (_ && _) eqn:Ecb.
    + intros [= <-]. exists r. split; [done|]. split; [done|].
      destruct (Implementation r), (ProjectImplementation r), (ComparisonImplementation r);
        try done. by intros [[]|[[]|[]]].
    + destruct (existsb _ _) eqn:Ex; [|done]. intros [= <-].
      exists r. split; [done|]. split; [done|].
      apply existsb_exists in Ex as (r' & Hin & Hid%String.eqb_eq).
      apply elem_of_map. exists r'. by rewrite list_elem_of_In.
Qed.

(** Findings with the ID of a rule of the registry. *)
Lemma filter_bind_id {A} (rules : list Rule) (g : Rule -> list A) (idof : A -> string) r :
  NoDup (map ID rules) -> r ∈ rules ->
  (forall r', Forall (fun a => idof a = ID r') (g r')) ->
  filter (fun a => idof a = ID r) (r' ← rules; g r') = g r.
Proof.
  intros Hnd Hin Hg.
  assert (Hsame : forall r', ID r' = ID r -> filter (fun a => idof a = ID r) (g r') = g r').
  { intros r' Hr. apply list_filter_all. intros a Ha. rewrite <- Hr.
    pose proof (Hg r') as Hg'. rewrite Forall_forall in Hg'. auto. }
  assert (Hother : forall r', ID r' <> ID r -> filter (fun a => idof a = ID r) (g r') = []).
  { intros r' Hr. apply list_filter_none. intros a Ha.
    pose proof (Hg r') as Hg'. rewrite Forall_forall in Hg'. rewrite (Hg' a Ha). done. }
  induction rules as [|r' rules IH]; [by apply not_elem_of_nil in Hin|].
  simpl in Hnd. apply NoDup_cons in Hnd as [Hfresh Hnd].
  rewrite bind_cons, filter_app.
  apply elem_of_cons in Hin as [<-|Hin].
  - rewrite Hsame by done.
    enough (filter (fun a => idof a = ID r) (r' ← rules; g r') = []) as Hrest.
    { rewrite Hrest. apply app_nil_r. }
    clear IH Hnd. induction rules as [|r' rules IH]; [done|]. simpl in Hfresh.
    rewrite bind_cons, filter_app, Hother by set_solver. apply IH. set_solver.
  - rewrite Hother; [by apply IH|]. intros Hr. apply Hfresh. rewrite Hr.
    apply elem_of_map. eauto.
Qed.

(** *** Properties *)

(** C1. The registry: [Register] panics exactly on a nil rule, an empty ID, a
    rule without callbacks and a duplicate ID, and otherwise appends; a
    sequence of registrations goes through exactly when its rules have
    pairwise distinct non-empty IDs and a callback each, and [All] then lists
    them in registration order. *)
Theorem register_sequence_wf :
  (forall registry r,
    match Register registry r with
    | Ok registry' => exists r', r = Some r' /\ registry' = registry ++ [r'] /\ ID r' <> "" /\
                      has_callback r' /\ ID r' ∉ map ID registry
    | Err NilRule => r = None
    | Err EmptyID => exists r', r = Some r' /\ ID r' = ""
    | Err (NoImplementation id) => exists r', r = Some r' /\ ID r' = id /\ ~ has_callback r'
    | Err (DuplicateID id) => exists r', r = Some r' /\ ID r' = id /\ id ∈ map ID registry
    end) /\
  (forall rs registry,
    register_all [] rs = Ok registry <-> registry_wf rs /\ All registry = rs).
Proof.
  split; [exact Register_outcome|]. intros rs registry. split.
  - intros H. apply register_all_wf in H as [? ->]; [|apply registry_wf_nil]. done.
  - intros [Hwf <-]. unfold All.
    assert (forall rs pre, registry_wf (pre ++ rs) -> register_all pre rs = Ok (pre ++ rs)) as Hgen.
    { clear. induction rs as [|r rs IH]; intros pre Hwf; cbn [register_all]; [by rewrite app_nil_r|].
      assert (Register pre (Some r) = Ok (pre ++ [r])) as ->.
      { apply Register_Ok. destruct Hwf as [Hd Hn Hc].
        rewrite map_app in Hd. apply NoDup_app in Hd as (_ & Hd & _).
        apply Forall_app in Hn as [_ Hn%Forall_inv].
        apply Forall_app in Hc as [_ Hc%Forall_inv].
        repeat split; try done. intros Hin. apply (Hd _ Hin). simpl. set_solver. }
      simpl. rewrite (IH (pre ++ [r])); by rewrite <- app_assoc. }
    by apply (Hgen _ []).
Qed.

(** The findings of one rule, phase by phase. *)
Lemma filter_Run rules r tool : registry_wf rules -> r ∈ rules ->
  filter (fun f => RuleID f = ID r) (Run rules tool)
  = map (finding_of r tool) (default (fun _ => []) (Implementation r) tool).
Proof.
  intros [Hnd _ _] Hr. rewrite Run_concat.
  apply (filter_bind_id rules (fun r => map (finding_of r tool) _) RuleID); auto using Forall_map_const.
Qed.

Lemma filter_RunProject rules r set : registry_wf rules -> r ∈ rules ->
  filter (fun f => RuleID f = ID r) (RunProject rules set)
  = map (fun tm => finding_of r tm.1 tm.2) (default (fun _ => []) (ProjectImplementation r) set).
Proof.
  intros [Hnd _ _] Hr. rewrite RunProject_concat.
  apply (filter_bind_id rules (fun r => map (fun tm => finding_of r tm.1 tm.2) _) RuleID);
    auto using Forall_map_const.
Qed.

Lemma filter_RunComparison rules r static live : registry_wf rules -> r ∈ rules ->
  filter (fun f => RuleID f = ID r) (RunComparison rules static live)
  = map (finding_of_call r) (default (fun _ _ => []) (ComparisonImplementation r) static live).
Proof.
  intros [Hnd _ _] Hr. rewrite RunComparison_concat.
  apply (filter_bind_id rules (fun r => map (finding_of_call r) _) RuleID); auto.
  intros r'. apply Forall_map_const. by intros [].
Qed.

(** C2. Attribution: with a well-formed registry, the findings that carry the
    ID of a registered rule are exactly that rule's own reports, in the order
    it made them, stamped with its severity and category and with the
    coordinates of the reported tool; a rule without the callback of the
    phase contributes nothing. *)
Theorem dispatch_attribution (rules : list Rule) (r : Rule)
  (Hwf : registry_wf rules) (Hr : r ∈ rules) :
  (forall tool, filter (fun f => RuleID f = ID r) (Run rules tool)
    = map (finding_of r tool) (default (fun _ => []) (Implementation r) tool)) /\
  (forall set, filter (fun f => RuleID f = ID r) (RunProject rules set)
    = map (fun tm => finding_of r tm.1 tm.2)
        (default (fun _ => []) (ProjectImplementation r) set)) /\
  (forall static live, filter (fun f => RuleID f = ID r) (RunComparison rules static live)
    = map (finding_of_call r)
        (default (fun _ _ => []) (ComparisonImplementation r) static live)).
Proof.
  split_and!; intros; [by apply filter_Run|by apply filter_RunProject|by apply filter_RunComparison].
Qed.

Definition demo_rule (id : string) : Rule := {|
  ID := id; RCategory := CatSpec; RSeverity := SevInfo; RDescription := ""; Fix := FixNone;
  Implementation := Some (fun t => [Name t; id]); ProjectImplementation := None;
  ComparisonImplementation := None |}.

Lemma dispatch_attribution_witness :
  filter (fun f => RuleID f = "b")
    (Run [demo_rule "a"; demo_rule "b"] (mkTool "t" "" None "f.py" 3))
  = [mkFinding "b" "info" "spec-compliance" "t" "t" "f.py" 3;
     mkFinding "b" "info" "spec-compliance" "b" "t" "f.py" 3].
Proof.
  refine (proj1 (dispatch_attribution [demo_rule "a"; demo_rule "b"] (demo_rule "b") _ _) _).
  - split; [by apply (bool_decide_unpack (NoDup ["a"; "b"]))|repeat constructor; done|].
    repeat constructor; eexists; done.
  - right. left.
Defined.
