(* ===== verification/RulesNaming.v ===== *)
(** [internal/rules]: the rules about names and descriptions —
    [snakecase.go], [description.go], [collision.go], [static_vs_live.go]. *)
From S2P Require Import Prelude GoStrings GoUnicode Model Registry.

Section naming.
Context `{UnicodeTables} `{MapIter}.

(** ** snakecase.go *)

Definition quote (s : string) : string := dquote +:+ s +:+ dquote.

Fixpoint snake_loop (n : nat) (l : list (nat * Z)) : bool :=
  match l with
  | [] => true
  | (i, r) :: l =>
    if IsLower r then snake_loop n l
    else if IsDigit r then
      if (i =? 0)%nat then false else snake_loop n l
    else if (r =? 95)%Z then
      if (i =? 0)%nat || (Z.of_nat i =? Z.of_nat n - 1)%Z then false else snake_loop n l
    else false
  end.

Definition isSnakeCase (s : string) : bool :=
  if (s =? "")%string then false else snake_loop (len s) (range_string s).

Definition snakecase_impl (t : Tool) : list string :=
  let name := Name t in
  if (name =? "")%string then []
  else if negb (isSnakeCase name) then ["tool name " +:+ quote name +:+ " is not snake_case"]
  else [].

Definition snakecase_rule : Rule := {|
  ID := "tool-name-not-snake-case"; RCategory := CatSpec; RSeverity := SevWarning;
  RDescription := "MCP tool names should be snake_case so they read predictably in agent tool lists.";
  Fix := FixCosmetic;
  Implementation := Some snakecase_impl;
  ProjectImplementation := None; ComparisonImplementation := None |}.

(** ** description.go *)

Definition minDescriptionLen : nat := 4.

Definition endsTruncated (s : string) : bool :=
  if HasSuffix s "..." then true
  else if HasSuffix s "…" then true
  else false.

Definition description_impl (t : Tool) : list string :=
  let desc := Description t in
  let trimmed := TrimSpace desc in
  if (trimmed =? "")%string then ["tool description is empty"]
  else if (len trimmed <? minDescriptionLen)%nat then
    ["tool description is too short to be informative"]
  else if endsTruncated trimmed then ["tool description appears to be truncated"]
  else [].

Definition description_rule : Rule := {|
  ID := "tool-description-empty-or-truncated"; RCategory := CatSpec; RSeverity := SevWarning;
  RDescription := "Tool descriptions must be non-empty and not visibly truncated; agents rely on them to choose tools.";
  Fix := FixNone;
  Implementation := Some description_impl;
  ProjectImplementation := None; ComparisonImplementation := None |}.

(** ** collision.go *)

Fixpoint byName_from (i : nat) (tools : list Tool) (m : gmap string (list nat)) :
    gmap string (list nat) :=
  match tools with
  | [] => m
  | t :: tools => byName_from (S i) tools (<[Name t := default [] (m !! Name t) ++ [i]]> m)
  end.

Definition byName (tools : list Tool) : gmap string (list nat) := byName_from 0 tools ∅.

Definition locationOf (t : Tool) : string :=
  if negb (SourceFile t =? "")%string then
    if (0 <? SourceLine t)%Z then SourceFile t +:+ ":" +:+ Itoa (SourceLine t)
    else SourceFile t
  else "<source>".

Definition collision_msg (name : string) (others : list string) : string :=
  "duplicate tool name " +:+ Quote name +:+ " (also defined at: " +:+ Join others ", "
  +:+ "); names must be unique within a server".

Definition collisions_of (m : gmap string (list nat)) : list string :=
  sort_Strings
    (filter (fun e => e.1 <> "" /\ (1 < length e.2)%nat) (range m)).*1.

Definition collision_impl (set : ToolSet) : list (Tool * string) :=
  let tools := Tools set in
  let m := byName tools in
  name ← collisions_of m;
  let idxs := default [] (m !! name) in
  i ← idxs;
  match tools !! i with
  | None => []            (* unreachable: [i] is an index of the slice *)
  | Some tool =>
    let others := j ← idxs; if decide (j = i) then [] else
                  match tools !! j with None => [] | Some u => [locationOf u] end in
    [(tool, collision_msg name (sort_Strings others))]
  end.

Definition collision_rule : Rule := {|
  ID := "tool-name-collision"; RCategory := CatSpec; RSeverity := SevError;
  RDescription := "Tool names within a single server must be unique; agent tool-call dispatch routes by name.";
  Fix := FixNone;
  Implementation := None;
  ProjectImplementation := Some collision_impl; ComparisonImplementation := None |}.

(** ** static_vs_live.go *)

Fixpoint indexByName_from (i : nat) (tools : list Tool) (m : gmap string nat) : gmap string nat :=
  match tools with
  | [] => m
  | t :: tools =>
    indexByName_from (S i) tools
      (match m !! Name t with Some _ => m | None => <[Name t := i]> m end)
  end.

Definition indexByName (tools : list Tool) : gmap string nat := indexByName_from 0 tools ∅.

Definition static_only_msg (name : string) : string :=
  "tool " +:+ Quote name +:+ " appears in static intake but the live server does not advertise it; possible conditional registration or build-time gating".
Definition live_only_msg (name : string) : string :=
  "tool " +:+ Quote name +:+ " is registered at runtime but absent from the static intake; likely dynamic registration the static analysis missed".

(** The names of [m1] that are not in [m2], sorted, and the reports on them. *)
Definition names_only (m1 m2 : gmap string nat) : list string :=
  sort_Strings (filter (fun e => m2 !! e.1 = None) (range m1)).*1.

Definition report_only (tools : list Tool) (m : gmap string nat) (msg : string -> string)
    (names : list string) : list cmp_call :=
  name ← names;
  match tools !! default 0%nat (m !! name) with
  | None => []            (* unreachable: the index comes from the slice *)
  | Some tool => [CReportTool tool (msg name)]
  end.

Definition static_vs_live_impl (static live : option ToolSet) : list cmp_call :=
  match static, live with
  | Some s, Some l =>
    let staticByName := indexByName (Tools s) in
    let liveByName := indexByName (Tools l) in
    let staticOnly := names_only staticByName liveByName in
    let liveOnly := names_only liveByName staticByName in
    report_only (Tools s) staticByName static_only_msg staticOnly ++
    report_only (Tools l) liveByName live_only_msg liveOnly
  | _, _ => []
  end.

Definition static_vs_live_rule : Rule := {|
  ID := "tool-static-vs-live-mismatch"; RCategory := CatSpec; RSeverity := SevWarning;
  RDescription := "Tools advertised by the static intake should match the tools the live server registers at runtime; drift here indicates dynamic registration that the static analysis can't see.";
  Fix := FixNone;
  Implementation := None; ProjectImplementation := None;
  ComparisonImplementation := Some static_vs_live_impl |}.
End naming.

(** ** Names *)

Section snake_lemmas.
Context `{UnicodeTables}.
Open Scope Z_scope.

Definition snake_rune (r : Z) : bool := IsLower r || IsDigit r || (r =? 95).

Lemma snake_loop_pos l i :
  (0 < i)%nat ->
  Forall (fun rw => (1 <= rw.2)%nat /\ (rw.1 < 0x80 -> rw.2 = 1%nat)) l ->
  snake_loop (i + total_width l) (with_index i l) = true <->
  Forall (fun r => snake_rune r = true) l.*1 /\ last l.*1 <> Some 95.
Proof.
  intros Hi Hl. revert i Hi. induction Hl as [|[r w] l [Hw1 Hw2] Hl IH]; intros i Hi.
  { simpl. split; [intros _; split; [constructor|done]|done]. }
  csimpl in *. rewrite Nat.add_assoc, Forall_cons.
  assert (Hlast : last (r :: l.*1) = Some 95 <-> last l.*1 = Some 95 \/ (l = [] /\ r = 95)).
  { destruct l as [|rw l]; csimpl; [naive_solver|]. naive_solver. }
  assert (Htw : total_width l = 0%nat <-> l = []).
  { destruct Hl as [|[? ?] ? []]; simpl in *; split; intros; try done; lia. }
  specialize (IH (i + w)%nat ltac:(lia)). unfold snake_rune at 1.
  rewrite (proj2 (Nat.eqb_neq i 0)) by lia.
  destruct (IsLower r) eqn:El.
  { assert (r <> 95) by (intros ->; done). rewrite IH. simpl. tauto. }
  destruct (IsDigit r) eqn:Ed.
  { assert (r <> 95) by (intros ->; done). rewrite IH. simpl. tauto. }
  simpl. destruct (Z.eqb_spec r 95) as [->|]; [|naive_solver].
  rewrite Hw2 in * by done.
  destruct (Z.eqb_spec (Z.of_nat i) (Z.of_nat (i + 1 + total_width l) - 1)).
  - assert (l = []) by (apply Htw; lia). naive_solver.
  - assert (l <> []) by (intros ->; simpl in *; lia). rewrite IH. tauto.
Qed.

Lemma isSnakeCase_runes s :
  isSnakeCase s = true <->
  exists r0 rest, (runes s).*1 = r0 :: rest /\ IsLower r0 = true /\
    Forall (fun r => snake_rune r = true) rest /\ last (r0 :: rest) <> Some 95.
Proof.
  unfold isSnakeCase, range_string.
  assert (Hl : Forall (fun rw => (1 <= rw.2)%nat /\ (rw.1 < 0x80 -> rw.2 = 1%nat)) (runes s)).
  { apply Forall_forall. intros [r w] Hin. split.
    - exact (runes_from_width _ _ _ _ Hin).
    - exact (runes_from_underscore _ _ _ _ Hin). }
  rewrite <- (runes_total s).
  destruct (String.eqb_spec s "") as [->|Hne]; [naive_solver|].
  assert (runes s <> []) as Hrs.
  { destruct s; [done|]. unfold runes. cbn [runes_from]. done. }
  destruct (runes s) as [|[r w] l]; [done|]. clear Hrs.
  inversion Hl as [|? ? [Hw1 Hw2] Hl']; subst. csimpl in *.
  assert (snake_loop (w + total_width l) (with_index w l) = true <->
          Forall (fun r => snake_rune r = true) l.*1 /\ last l.*1 <> Some 95) as Hloop
    by (apply snake_loop_pos; done).
  destruct (IsLower r) eqn:El.
  - rewrite Hloop. assert (r <> 95) by (intros ->; done).
    assert (last (r :: l.*1) = Some 95 <-> last l.*1 = Some 95).
    { destruct l; csimpl; naive_solver. }
    split; [intros; exists r, l.*1; tauto|].
    intros (r0 & rest & [= <- <-] & ?). tauto.
  - split; [|intros (r0 & rest & [= <- _] & ? & _); congruence].
    simpl. by destruct (IsDigit r), (r =? 95).
Qed.
End snake_lemmas.

(** ** Indices by name *)

Fixpoint idxs_from (i : nat) (tools : list Tool) (n : string) : list nat :=
  match tools with
  | [] => []
  | t :: tools =>
    if decide (Name t = n) then i :: idxs_from (S i) tools n else idxs_from (S i) tools n
  end.

Lemma byName_from_idxs i tools m n :
  default [] (byName_from i tools m !! n) = default [] (m !! n) ++ idxs_from i tools n.
Proof.
  revert i m. induction tools as [|t tools IH]; intros i m; simpl; [by rewrite app_nil_r|].
  rewrite IH. case_decide as Hn.
  - subst. rewrite lookup_insert_eq. simpl. by rewrite <- app_assoc.
  - by rewrite lookup_insert_ne.
Qed.

Lemma byName_idxs tools n : default [] (byName tools !! n) = idxs_from 0 tools n.
Proof. unfold byName. by rewrite byName_from_idxs, lookup_empty. Qed.

Lemma idxs_from_spec k tools n i :
  i ∈ idxs_from k tools n <-> exists t, (k <= i)%nat /\ tools !! (i - k)%nat = Some t /\ Name t = n.
Proof.
  revert k. induction tools as [|t tools IH]; intros k; cbn [idxs_from].
  { split; [by intros ?%not_elem_of_nil|]. intros (? & _ & ? & _). done. }
  assert (Hstep : forall P : Prop, (P -> i = k /\ Name t = n) -> (i = k -> Name t = n -> P) ->
    (P \/ i ∈ idxs_from (S k) tools n) <->
    exists t0, (k <= i)%nat /\ (t :: tools) !! (i - k)%nat = Some t0 /\ Name t0 = n).
  { intros P HP1 HP2. rewrite IH. split.
    - intros [HP|(t0 & ? & ? & ?)].
      + destruct (HP1 HP) as [-> ?]. exists t. rewrite Nat.sub_diag. done.
      + exists t0. replace (i - k)%nat with (S (i - S k)) by lia. split; [lia|done].
    - intros (t0 & ? & Hl & Hn). destruct (decide (i = k)) as [->|].
      + rewrite Nat.sub_diag in Hl. simpl in Hl. left. apply HP2; congruence.
      + replace (i - k)%nat with (S (i - S k)) in Hl by lia. right. exists t0. split; [lia|done]. }
  case_decide as Hn.
  - rewrite elem_of_cons. apply Hstep; naive_solver.
  - rewrite <- (Hstep False); [|done|done]. tauto.
Qed.

Lemma NoDup_idxs_from k tools n : NoDup (idxs_from k tools n).
Proof.
  revert k. induction tools as [|t tools IH]; intros k; simpl; [constructor|].
  case_decide; [|done]. constructor; [|done].
  rewrite idxs_from_spec. intros (? & ? & _). lia.
Qed.

Lemma idxs_from_tools pre tools n :
  omap (fun i => (pre ++ tools) !! i) (idxs_from (length pre) tools n)
  = filter (fun t => Name t = n) tools.
Proof.
  revert pre. induction tools as [|t tools IH]; intros pre; [done|].
  cbn [idxs_from]. specialize (IH (pre ++ [t])).
  rewrite <- app_assoc, length_app, Nat.add_1_r in IH. simpl in IH.
  rewrite filter_cons. case_decide; [|by rewrite <- IH].
  csimpl. rewrite list_lookup_middle by done. by rewrite IH.
Qed.

Lemma length_idxs_from k tools n :
  length (idxs_from k tools n) = length (filter (fun t => Name t = n) tools).
Proof.
  revert k. induction tools as [|t tools IH]; intros k; simpl; [done|].
  rewrite filter_cons. case_decide; simpl; by rewrite IH.
Qed.

(** A tool collides when its non-empty name occurs at least twice. *)
Definition colliding (tools : list Tool) (t : Tool) : Prop :=
  Name t <> "" /\ (1 < length (filter (fun u => Name u = Name t) tools))%nat.

#[export] Instance colliding_dec tools t : Decision (colliding tools t).
Proof. unfold colliding. apply _. Defined.

Section collision_lemmas.
Context `{UnicodeTables}.

Lemma collisions_of_elem `{MapIter} tools n :
  n ∈ collisions_of (byName tools) <-> n <> "" /\ (1 < length (idxs_from 0 tools n))%nat.
Proof.
  unfold collisions_of. rewrite sort_Strings_perm, list_elem_of_fmap.
  setoid_rewrite list_elem_of_filter. rewrite <- byName_idxs. split.
  - intros ([n' l] & -> & [Hn Hl] & Hin%elem_of_range). simpl in *. by rewrite Hin.
  - intros [Hn Hl]. destruct (byName tools !! n) as [l|] eqn:E; simpl in Hl; [|lia].
    exists (n, l). rewrite elem_of_range. done.
Qed.

Lemma NoDup_collisions_of `{MapIter} m : NoDup (collisions_of m).
Proof.
  unfold collisions_of. rewrite sort_Strings_perm.
  eapply sublist_NoDup; [apply (NoDup_range_keys m)|].
  apply fmap_sublist. apply sublist_filter.
Qed.

Lemma collisions_of_iter (I1 I2 : MapIter) m :
  @collisions_of I1 m = @collisions_of I2 m.
Proof. unfold collisions_of. apply sort_Strings_Proper. apply range_keys_filter_perm. Qed.

(** The locations a report on index [i] names: those of the other tools
    with the same name. *)
Definition other_locations (tools : list Tool) (i : nat) : list string :=
  match tools !! i with
  | None => []
  | Some t =>
    j ← idxs_from 0 tools (Name t);
    if decide (j = i) then [] else
      match tools !! j with None => [] | Some u => [locationOf u] end
  end.

Definition collision_report (tools : list Tool) (i : nat) : list (Tool * string) :=
  match tools !! i with
  | None => []
  | Some t => [(t, collision_msg (Name t) (sort_Strings (other_locations tools i)))]
  end.

Lemma collision_impl_reports `{MapIter} set :
  collision_impl set =
  n ← collisions_of (byName (Tools set)); i ← idxs_from 0 (Tools set) n; collision_report (Tools set) i.
Proof.
  unfold collision_impl. apply list_bind_ext; [|done]. intros n.
  rewrite byName_idxs. apply Forall_bind_ext.
  apply Forall_forall. intros i Hi.
  apply idxs_from_spec in Hi as (t & _ & Ht & Hn). rewrite Nat.sub_0_r in Ht.
  unfold collision_report, other_locations. rewrite Ht. by rewrite Hn.
Qed.

Lemma collision_reports_tools tools (l : list nat) :
  (i ← l; collision_report tools i).*1 = omap (fun i => tools !! i) l.
Proof.
  induction l as [|i l IH]; [done|]. rewrite bind_cons, fmap_app, IH.
  unfold collision_report. csimpl. by destruct (tools !! i).
Qed.

Lemma collision_impl_tools `{MapIter} set :
  (collision_impl set).*1 =
  n ← collisions_of (byName (Tools set)); filter (fun t => Name t = n) (Tools set).
Proof.
  rewrite collision_impl_reports. generalize (collisions_of (byName (Tools set))) as ns.
  induction ns as [|n ns IH]; [done|]. rewrite !bind_cons, fmap_app, IH. f_equal.
  rewrite collision_reports_tools. apply (idxs_from_tools []).
Qed.
End collision_lemmas.

Lemma sorted_by_bind_names `{MapIter} (tools : list Tool) (ns : list string) :
  sorted_by String.leb ns ->
  sorted_by String.leb (Name <$> (n ← ns; filter (fun t => Name t = n) tools)).
Proof.
  unfold sorted_by. induction 1 as [|n ns Hns IH Hn]; [constructor|].
  rewrite bind_cons, fmap_app. apply StronglySorted_app_2; [|..|done].
  - intros x1 x2 (t1 & -> & [<- _]%list_elem_of_filter)%list_elem_of_fmap
      (t2 & -> & (n2 & [<- _]%list_elem_of_filter & Hn2)%list_elem_of_bind)%list_elem_of_fmap.
    rewrite Forall_forall in Hn. auto.
  - clear. induction tools as [|t tools IH]; [constructor|]. rewrite filter_cons.
    case_decide; [|done]. csimpl. constructor; [done|]. apply Forall_fmap, Forall_forall.
    intros u [Hu _]%list_elem_of_filter. simpl. rewrite Hu. subst.
    by destruct (string_leb_total (Name t) (Name t)).
Qed.

(** ** Static against live *)

Lemma indexByName_from_spec k tools (m : gmap string nat) n :
  indexByName_from k tools m !! n =
  match m !! n with Some i => Some i | None => head (idxs_from k tools n) end.
Proof.
  revert k m. induction tools as [|t tools IH]; intros k m; simpl; [by destruct (m !! n)|].
  rewrite IH. case_decide as Hn.
  - subst. destruct (m !! Name t) eqn:E; [by rewrite E|]. by rewrite lookup_insert_eq.
  - destruct (m !! Name t); [done|]. by rewrite lookup_insert_ne.
Qed.

Lemma indexByName_spec tools n : indexByName tools !! n = head (idxs_from 0 tools n).
Proof. unfold indexByName. by rewrite indexByName_from_spec, lookup_empty. Qed.

Lemma head_idxs_tool tools n i :
  head (idxs_from 0 tools n) = Some i ->
  exists t, tools !! i = Some t /\ head (filter (fun t => Name t = n) tools) = Some t.
Proof.
  intros Hh. pose proof (idxs_from_tools [] tools n) as Ht. simpl in Ht.
  destruct (idxs_from 0 tools n) as [|j l] eqn:E; [done|]. simpl in Hh. simplify_eq.
  assert (i ∈ idxs_from 0 tools n) as Hin by (rewrite E; left).
  apply idxs_from_spec in Hin as (t & _ & Hl & _). rewrite Nat.sub_0_r in Hl.
  exists t. split; [done|]. rewrite <- Ht. csimpl. by rewrite Hl.
Qed.

Lemma head_idxs_None tools n :
  head (idxs_from 0 tools n) = None <-> n ∉ Name <$> tools.
Proof.
  pose proof (idxs_from_spec 0 tools n) as Hs. rewrite list_elem_of_fmap.
  destruct (idxs_from 0 tools n) as [|j l]; simpl.
  - split; [|done]. intros _ (t & -> & [i Hi]%list_elem_of_lookup).
    apply (not_elem_of_nil i). apply Hs. exists t. rewrite Nat.sub_0_r. split; [lia|done].
  - split; [done|]. intros Hn. exfalso. apply Hn.
    destruct (proj1 (Hs j)) as (t & _ & Hl & Hname); [left|].
    exists t. split; [done|]. by eapply list_elem_of_lookup_2.
Qed.

Section static_live_lemmas.
Context `{UnicodeTables}.

Lemma names_only_elem `{MapIter} tools1 tools2 n :
  n ∈ names_only (indexByName tools1) (indexByName tools2) <->
  n ∈ Name <$> tools1 /\ n ∉ Name <$> tools2.
Proof.
  unfold names_only. rewrite sort_Strings_perm, list_elem_of_fmap.
  rewrite <- (head_idxs_None tools2), <- indexByName_spec.
  assert (n ∈ Name <$> tools1 <-> is_Some (indexByName tools1 !! n)) as ->.
  { rewrite indexByName_spec, <- not_eq_None_Some, head_idxs_None.
    destruct (decide (n ∈ Name <$> tools1)); tauto. }
  setoid_rewrite list_elem_of_filter. split.
  - intros ([n' i] & -> & Hn & Hin%elem_of_range). simpl in *. eauto.
  - intros [[i Hi] Hn]. exists (n, i). rewrite elem_of_range. done.
Qed.

Lemma NoDup_names_only `{MapIter} m1 m2 : NoDup (names_only m1 m2).
Proof.
  unfold names_only. rewrite sort_Strings_perm.
  eapply sublist_NoDup; [apply (NoDup_range_keys m1)|]. apply fmap_sublist, sublist_filter.
Qed.

Lemma names_only_iter (I1 I2 : MapIter) m1 m2 :
  @names_only I1 m1 m2 = @names_only I2 m1 m2.
Proof. unfold names_only. apply sort_Strings_Proper. apply range_keys_filter_perm. Qed.

(** The report on a name: the first tool of the set with that name. *)
Definition report_first (tools : list Tool) (msg : string -> string) (n : string) : list cmp_call :=
  match head (filter (fun t => Name t = n) tools) with
  | None => []
  | Some t => [CReportTool t (msg n)]
  end.

Lemma report_only_spec tools msg ns :
  Forall (fun n => n ∈ Name <$> tools) ns ->
  report_only tools (indexByName tools) msg ns = n ← ns; report_first tools msg n.
Proof.
  intros Hns. unfold report_only. apply Forall_bind_ext.
  eapply Forall_impl; [exact Hns|]. simpl. intros n Hn.
  rewrite indexByName_spec. unfold report_first.
  destruct (head (idxs_from 0 tools n)) as [i|] eqn:E.
  - apply head_idxs_tool in E as (t & Hl & ->). simpl. by rewrite Hl.
  - by apply head_idxs_None in E.
Qed.
End static_live_lemmas.

(** The calls of the comparison rule, name by name. *)
Lemma static_vs_live_calls `{UnicodeTables} `{MapIter} static live :
  static_vs_live_impl (Some static) (Some live) =
    (n ← names_only (indexByName (Tools static)) (indexByName (Tools live)); report_first (Tools static) static_only_msg n) ++
    (n ← names_only (indexByName (Tools live)) (indexByName (Tools static)); report_first (Tools live) live_only_msg n).
Proof.
  unfold static_vs_live_impl. f_equal; apply report_only_spec; apply Forall_forall;
    intros n Hn; apply names_only_elem in Hn; tauto.
Qed.

Lemma report_first_tool tools msg n c : c ∈ report_first tools msg n ->
  exists t, t ∈ tools /\ c = CReportTool t (msg n).
Proof.
  unfold report_first. destruct (head (filter (fun t => Name t = n) tools)) as [t|] eqn:E; [|by intros ?%not_elem_of_nil].
  intros ->%list_elem_of_singleton. exists t. split; [|done].
  apply (list_elem_of_filter (fun t => Name t = n)), head_Some_elem_of. done.
Qed.

Lemma report_first_nil tools msg n : n ∈ Name <$> tools -> report_first tools msg n <> [].
Proof.
  intros (t & -> & Ht)%list_elem_of_fmap. unfold report_first.
  assert (t ∈ filter (fun t' => Name t' = Name t) tools) as Hin by (by apply list_elem_of_filter).
  destruct (filter _ tools); [by apply not_elem_of_nil in Hin|done].
Qed.

(** The rule is silent exactly when both sets have the same names. *)
Lemma static_vs_live_silent `{UnicodeTables} `{MapIter} static live :
  static_vs_live_impl (Some static) (Some live) = [] <->
  (forall n, n ∈ Name <$> Tools static <-> n ∈ Name <$> Tools live).
Proof.
  assert (forall ts1 ts2 msg, (n ← names_only (indexByName ts1) (indexByName ts2); report_first ts1 msg n) = [] <->
    forall n, n ∈ Name <$> ts1 -> n ∈ Name <$> ts2) as Hhalf.
  { intros ts1 ts2 msg. split.
    - intros Hnil n Hn. destruct (decide (n ∈ Name <$> ts2)) as [|Hno]; [done|]. exfalso.
      destruct (report_first ts1 msg n) as [|c l] eqn:E; [by apply report_first_nil in E|].
      assert (c ∈ (n ← names_only (indexByName ts1) (indexByName ts2); report_first ts1 msg n)) as Hc.
      { apply list_elem_of_bind. exists n. rewrite names_only_elem, E. split; [left|done]. }
      rewrite Hnil in Hc. by apply not_elem_of_nil in Hc.
    - intros Hsub. replace (names_only (indexByName ts1) (indexByName ts2)) with (@nil string); [done|].
      destruct (names_only (indexByName ts1) (indexByName ts2)) as [|n l] eqn:E; [done|]. exfalso.
      assert (n ∈ names_only (indexByName ts1) (indexByName ts2)) as [Hin Hout]%names_only_elem by (rewrite E; left).
      by apply Hout, Hsub. }
  rewrite static_vs_live_calls, app_nil, !Hhalf. naive_solver.
Qed.

(** It speaks of tools of the two sets. *)
Lemma static_vs_live_tools `{UnicodeTables} `{MapIter} static live c : c ∈ static_vs_live_impl (Some static) (Some live) ->
  exists t msg, c = CReportTool t msg /\ (t ∈ Tools static \/ t ∈ Tools live).
Proof.
  rewrite static_vs_live_calls. intros [Hc|Hc]%elem_of_app;
    apply list_elem_of_bind in Hc as (n & (t & Ht & ->)%report_first_tool & _); eauto.
Qed.

(** *** Properties *)

(** [isSnakeCase] accepts exactly the names whose first rune is a
    lowercase letter, whose runes are lowercase letters, digits or [_], and
    that do not end in [_] — for every byte string, with invalid UTF-8 read
    as [for range] reads it. *)
Theorem isSnakeCase_spec `{UnicodeTables} (s : string) :
  isSnakeCase s = true <->
  exists r0 rest, (runes s).*1 = r0 :: rest /\ IsLower r0 = true /\
    Forall (fun r => IsLower r || IsDigit r || (r =? 95)%Z = true) rest /\
    last (r0 :: rest) <> Some 95%Z.
Proof. exact (isSnakeCase_runes s). Qed.

(** C15. [tool-name-collision] reports exactly the tools whose non-empty name
    occurs more than once, each once, in name order; every report lists the
    sorted locations of the other holders of the name; and the reports are
    the same whatever order Go visits the map [byName] in. *)
Theorem collision_findings `{UnicodeTables} (I1 I2 : MapIter) (set : ToolSet) :
  (@collision_impl _ I1 set).*1 ≡ₚ filter (colliding (Tools set)) (Tools set) /\
  sorted_by String.leb (map Name (@collision_impl _ I1 set).*1) /\
  (forall t msg, (t, msg) ∈ @collision_impl _ I1 set ->
    exists i, Tools set !! i = Some t /\
      msg = collision_msg (Name t) (sort_Strings (other_locations (Tools set) i))) /\
  @collision_impl _ I1 set = @collision_impl _ I2 set.
Proof.
  split_and!.
  - rewrite collision_impl_tools, bind_filter_perm by apply NoDup_collisions_of.
    rewrite (list_filter_iff _ (colliding (Tools set))); [done|]. intros t.
    rewrite collisions_of_elem, length_idxs_from. done.
  - rewrite collision_impl_tools.
    apply (sorted_by_bind_names (Tools set)). apply sort_Strings_sorted.
  - intros t msg. rewrite collision_impl_reports.
    intros (n & (i & Hin & _)%list_elem_of_bind & _)%list_elem_of_bind. exists i.
    unfold collision_report in Hin. destruct (Tools set !! i); [|set_solver].
    apply list_elem_of_singleton in Hin. by simplify_eq.
  - rewrite (@collision_impl_reports _ I1), (@collision_impl_reports _ I2).
    by rewrite (collisions_of_iter I1 I2).
Qed.

(** C16. [tool-static-vs-live-mismatch] reports exactly the symmetric
    difference of the two sets of names: one report per name that only the
    static set has (on the first static tool of that name), in name order,
    then one per name that only the live set has; nothing when a set is
    missing; whatever order Go visits its maps in. *)
Theorem static_vs_live_findings `{UnicodeTables} (I1 I2 : MapIter) (static live : ToolSet) :
  (exists so lo,
    @static_vs_live_impl _ I1 (Some static) (Some live)
      = (n ← so; report_first (Tools static) static_only_msg n) ++
        (n ← lo; report_first (Tools live) live_only_msg n) /\
    NoDup so /\ sorted_by String.leb so /\
    NoDup lo /\ sorted_by String.leb lo /\
    (forall n, n ∈ so <-> n ∈ Name <$> Tools static /\ n ∉ Name <$> Tools live) /\
    (forall n, n ∈ lo <-> n ∈ Name <$> Tools live /\ n ∉ Name <$> Tools static)) /\
  (forall o, @static_vs_live_impl _ I1 None o = [] /\ @static_vs_live_impl _ I1 o None = []) /\
  (forall o1 o2, @static_vs_live_impl _ I1 o1 o2 = @static_vs_live_impl _ I2 o1 o2).
Proof.
  split_and!.
  - exists (@names_only I1 (indexByName (Tools static)) (indexByName (Tools live))),
      (@names_only I1 (indexByName (Tools live)) (indexByName (Tools static))).
    split_and!; try apply NoDup_names_only; try apply sort_Strings_sorted;
      try (intros; apply names_only_elem).
    apply static_vs_live_calls.
  - intros [o|]; done.
  - intros [s|] [l|]; try done. unfold static_vs_live_impl.
    by rewrite !(names_only_iter I1 I2).
Qed.
