(* ===== verification/RulesSchema.v ===== *)
(** [internal/rules]: the rules about input schemas — [schemautil.go],
    [network.go], [filepath.go], [required_undefined.go], [destructive.go],
    [examples.go].

    A [range] over a schema's map visits the entries in list order; that the
    outcome does not depend on that order is proved with [any_equiv]. *)
From S2P Require Import Prelude GoStrings GoUnicode Model Registry RulesNaming.

(** [m] as the set of keys of a Go [map[string]struct{}] literal. *)
Definition mem_set (k : string) (m : list string) : bool := bool_decide (k ∈ m).

(** ** schemautil.go *)

Definition hasStringValueConstraint (propSchema : amap) : bool :=
  if has propSchema "enum" then true
  else if has propSchema "pattern" then true
  else if has propSchema "const" then true
  else false.

Section schema.
Context `{UnicodeTables}.

Definition underscore : ascii := Zbyte 95.
Definition hyphen : ascii := Zbyte 45.

(** ** network.go *)

Definition urlPropertyNames : list string :=
  ["url"; "uri"; "endpoint"; "webhook"; "webhookurl"; "callbackurl"; "targeturl";
   "redirecturl"; "requesturl"].

Definition isURLPropertyName (key : string) : bool :=
  let stripped := ToLower key in
  let stripped := RemoveAll stripped underscore in
  let stripped := RemoveAll stripped hyphen in
  mem_set stripped urlPropertyNames.

Definition network_msg (key : string) : string :=
  "input property " +:+ quote key +:+ " looks like a URL but has no allowlist "
  +:+ "(expected one of: enum, pattern, const) — agent could drive arbitrary outbound requests".

(** The [for key, val := range props] loop: it reports once and returns. *)
Fixpoint network_loop (props : amap) : list string :=
  match props with
  | [] => []
  | (key, val) :: props =>
    if negb (isURLPropertyName key) then network_loop props
    else match as_map val with
    | None => network_loop props
    | Some prop =>
      if hasStringValueConstraint prop then network_loop props
      else [network_msg key]
    end
  end.

Definition network_impl (t : Tool) : list string :=
  match InputSchema t with
  | None => []
  | Some schema =>
    match get schema "properties" with
    | None => []
    | Some propsAny =>
      match as_map propsAny with None => [] | Some props => network_loop props end
    end
  end.

Definition network_rule : Rule := {|
  ID := "network-tool-no-allowlist"; RCategory := CatSafety; RSeverity := SevWarning;
  RDescription := "Tools that accept a user-supplied URL must constrain the destination via an enum, pattern, or const so an agent cannot drive arbitrary outbound requests (SSRF).";
  Fix := FixNone;
  Implementation := Some network_impl;
  ProjectImplementation := None; ComparisonImplementation := None |}.

(** ** filepath.go *)

Definition pathPropertyNames : list string :=
  ["path"; "filepath"; "filename"; "directory"; "dir"; "folder"; "sourcepath"; "targetpath";
   "outputpath"; "inputpath"; "destpath"].

Definition isPathPropertyName (key : string) : bool :=
  let stripped := ToLower key in
  let stripped := RemoveAll stripped underscore in
  let stripped := RemoveAll stripped hyphen in
  mem_set stripped pathPropertyNames.

Definition filepath_msg (key : string) : string :=
  "input property " +:+ quote key +:+ " looks like a filesystem path but has no allowlist "
  +:+ "(expected one of: enum, pattern, const) — agent could read or write arbitrary files".

Fixpoint filepath_loop (props : amap) : list string :=
  match props with
  | [] => []
  | (key, val) :: props =>
    if negb (isPathPropertyName key) then filepath_loop props
    else match as_map val with
    | None => filepath_loop props
    | Some prop =>
      if hasStringValueConstraint prop then filepath_loop props
      else [filepath_msg key]
    end
  end.

Definition filepath_impl (t : Tool) : list string :=
  match InputSchema t with
  | None => []
  | Some schema =>
    match get schema "properties" with
    | None => []
    | Some propsAny =>
      match as_map propsAny with None => [] | Some props => filepath_loop props end
    end
  end.

Definition filepath_rule : Rule := {|
  ID := "file-tool-no-path-confinement"; RCategory := CatSafety; RSeverity := SevWarning;
  RDescription := "Tools that accept a filesystem path must constrain it via an enum, pattern, or const so an agent cannot read or write arbitrary files (path traversal).";
  Fix := FixNone;
  Implementation := Some filepath_impl;
  ProjectImplementation := None; ComparisonImplementation := None |}.

(** ** required_undefined.go *)

Definition extractRequired (schema : amap) : list string :=
  match get schema "required" with
  | None => []
  | Some raw =>
    match as_arr raw with None => [] | Some arr => omap as_str arr end
  end.

Definition propertyNames (schema : amap) : gset string :=
  match get schema "properties" ≫= as_map with
  | None => ∅
  | Some props => list_to_set props.*1
  end.

Definition required_msg (missing : list string) : string :=
  "inputSchema.required references property name(s) not in properties: " +:+ FmtStrings missing.

Definition required_impl (t : Tool) : list string :=
  match InputSchema t with
  | None => []
  | Some schema =>
    let required := extractRequired schema in
    if decide (required = []) then []
    else
      let properties := propertyNames schema in
      let missing := filter (fun name => name ∉ properties) required in
      if decide (missing = []) then []
      else [required_msg (sort_Strings missing)]
  end.

Definition required_rule : Rule := {|
  ID := "tool-schema-required-references-undefined-property"; RCategory := CatSpec;
  RSeverity := SevError;
  RDescription := "Every name in inputSchema.required must exist in inputSchema.properties; otherwise the schema is internally inconsistent.";
  Fix := FixNone;
  Implementation := Some required_impl;
  ProjectImplementation := None; ComparisonImplementation := None |}.

(** ** destructive.go *)

Definition destructivePrefixes : list string :=
  ["delete"; "remove"; "drop"; "purge"; "destroy"; "clear"; "reset"; "send"; "post"; "publish";
   "transfer"; "pay"; "charge"; "submit"; "merge"; "deploy"; "close"; "archive"; "revoke"].

Definition confirmationFieldNames : list string :=
  ["confirm"; "confirmed"; "confirmation"; "requires_confirmation"; "requiresconfirmation";
   "acknowledged"; "acknowledge"; "i_understand"; "iunderstand"; "force"; "dry_run"; "dryrun"].

Fixpoint prefix_loop (lower : string) (ps : list string) : string :=
  match ps with
  | [] => ""
  | p :: ps =>
    if (lower =? p)%string || HasPrefix lower (p +:+ "_") then p else prefix_loop lower ps
  end.

Definition destructivePrefix (name : string) : string :=
  if (name =? "")%string then "" else prefix_loop (ToLower name) destructivePrefixes.

Definition isConfirmationName (key : string) : bool :=
  let normalized := ToLower key in
  if mem_set normalized confirmationFieldNames then true
  else
    let stripped := RemoveAll normalized underscore in
    let stripped := RemoveAll stripped hyphen in
    mem_set stripped confirmationFieldNames.

Definition hasConfirmationField (schema : option amap) : bool :=
  match schema with
  | None => false
  | Some schema =>
    match get schema "properties" with
    | None => false
    | Some propsAny =>
      match as_map propsAny with
      | None => false
      | Some props => existsb (fun e => isConfirmationName e.1) props
      end
    end
  end.

Definition destructive_msg (prefix : string) : string :=
  "tool name starts with destructive prefix " +:+ quote prefix
  +:+ " but schema has no confirmation field "
  +:+ "(expected one of: confirm, confirmed, requires_confirmation, acknowledged, dry_run, force)".

Definition destructive_impl (t : Tool) : list string :=
  let prefix := destructivePrefix (Name t) in
  if (prefix =? "")%string then []
  else if hasConfirmationField (InputSchema t) then []
  else [destructive_msg prefix].

Definition destructive_rule : Rule := {|
  ID := "destructive-tool-not-gated"; RCategory := CatSafety; RSeverity := SevError;
  RDescription := "Tools whose name implies a destructive or externally-visible action must require explicit confirmation through the schema.";
  Fix := FixNone;
  Implementation := Some destructive_impl;
  ProjectImplementation := None; ComparisonImplementation := None |}.
End schema.

(** ** examples.go *)

Definition extractExamples (schema : option amap) : list any :=
  match schema with
  | None => []
  | Some schema =>
    match get schema "examples" with
    | None => []
    | Some raw => match as_arr raw with None => [] | Some arr => arr end
    end
  end.

(** [github.com/santhosh-tekuri/jsonschema/v6], a third-party module: a
    compiled schema, a validation error as the tree of its causes, and the
    three calls the rule makes. What the rule relies on is that validation
    does not see the iteration order of Go maps. *)
Inductive ValidationError := mkVE (ve_text : string) (Causes : list ValidationError).

Definition ve_Causes (ve : ValidationError) : list ValidationError := let 'mkVE _ cs := ve in cs.

Inductive validate_error :=
| IsValidationError (ve : ValidationError)
| OtherError (msg : string).

Class JSONSchema := {
  Schema : Type;
  Compile : any -> option Schema;
  Validate : Schema -> any -> option validate_error;
  ve_Error : ValidationError -> string;
  Validate_order : forall s v1 v2,
    any_wf v1 -> any_equiv v1 v2 -> is_Some (Validate s v1) <-> is_Some (Validate s v2)
}.

(** [json.Marshal] followed by [json.Unmarshal] of a decoded document: the
    same document with every object's keys in sorted order. *)
Definition entry_leb {V} (e1 e2 : string * V) : bool := String.leb e1.1 e2.1.

Fixpoint canonical (v : any) : any :=
  match v with
  | VArr l => VArr (map canonical l)
  | VMap m => VMap (isort entry_leb (map (fun e => (e.1, canonical e.2)) m))
  | _ => v
  end.

(** The same of a map. *)
Definition canonical_map (m : amap) : amap :=
  isort entry_leb (map (fun e => (e.1, canonical e.2)) m).

Section examples.
Context `{UnicodeTables} `{JSONSchema}.

Definition compileSchema (schema : option amap) : option Schema :=
  Compile (canonical (match schema with None => VNil | Some m => VMap m end)).

Fixpoint deepestCause (ve : ValidationError) : ValidationError :=
  match ve with
  | mkVE _ [] => ve
  | mkVE _ (c :: _) => deepestCause c
  end.

Fixpoint first_line (s : string) : string :=
  match s with
  | EmptyString => EmptyString
  | String c s => if Ascii.eqb c lf then EmptyString else String c (first_line s)
  end.

Definition summarizeValidationError (err : validate_error) : string :=
  match err with
  | IsValidationError ve => ve_Error (deepestCause ve)
  | OtherError msg => first_line msg
  end.

Definition example_msg (i : nat) (err : validate_error) : string :=
  "inputSchema.examples[" +:+ Itoa (Z.of_nat i) +:+ "] does not validate against the schema: "
  +:+ summarizeValidationError err.

Fixpoint examples_loop (compiled : Schema) (i : nat) (examples : list any) : list string :=
  match examples with
  | [] => []
  | ex :: examples =>
    match Validate compiled ex with
    | Some err => example_msg i err :: examples_loop compiled (S i) examples
    | None => examples_loop compiled (S i) examples
    end
  end.

Definition examples_impl (t : Tool) : list string :=
  let examples := extractExamples (InputSchema t) in
  if decide (length examples = 0%nat) then []
  else match compileSchema (InputSchema t) with
  | None => []
  | Some compiled => examples_loop compiled 0 examples
  end.

Definition examples_rule : Rule := {|
  ID := "tool-example-fails-schema"; RCategory := CatExamples; RSeverity := SevWarning;
  RDescription := "Examples declared on a tool's inputSchema must validate against that schema; stale examples mislead agents and reviewers.";
  Fix := FixNone;
  Implementation := Some examples_impl;
  ProjectImplementation := None; ComparisonImplementation := None |}.
End examples.

(** ** The declared properties of a tool *)

(** [inputSchema.properties] when it is an object; no entries otherwise. *)
Definition properties_of (schema : option amap) : amap :=
  default [] ((schema ≫= (fun m => get m "properties")) ≫= as_map).

(** A property that the URL and path rules look for: its name is of the
    class, its value is an object, and nothing bounds its strings. *)
Definition unconstrained (is_name : string -> bool) (props : amap) (k : string) : Prop :=
  is_name k = true /\
  exists prop, (k, VMap prop) ∈ props /\ hasStringValueConstraint prop = false.

Section schema_lemmas.
Context `{UnicodeTables}.

(** The two loops are one scan at different name classes and messages. *)
Fixpoint scan_loop (is_name : string -> bool) (msg : string -> string) (props : amap) :
    list string :=
  match props with
  | [] => []
  | (key, val) :: props =>
    if negb (is_name key) then scan_loop is_name msg props
    else match as_map val with
    | None => scan_loop is_name msg props
    | Some prop =>
      if hasStringValueConstraint prop then scan_loop is_name msg props else [msg key]
    end
  end.

Lemma scan_loop_spec is_name msg props :
  match scan_loop is_name msg props with
  | [] => forall k, ~ unconstrained is_name props k
  | [m] => exists k, m = msg k /\ unconstrained is_name props k
  | _ => False
  end.
Proof.
  unfold unconstrained. induction props as [|[k v] props IH]; simpl.
  { intros k (_ & ? & ?%not_elem_of_nil & _). done. }
  destruct (is_name k) eqn:En; simpl; [destruct (as_map v) as [p|] eqn:Ev|].
  - destruct v; simplify_eq/=. destruct (hasStringValueConstraint p) eqn:Ec.
    + destruct (scan_loop _ _ _) as [|m []]; [|naive_solver set_solver|done].
      intros k' (Hn & prop & [[= -> ->]|Hin]%elem_of_cons & Hc); [congruence|].
      eapply IH; eauto.
    + exists k. split; [done|]. split; [done|]. exists p. split; [left|done].
  - destruct (scan_loop _ _ _) as [|m []]; [|naive_solver set_solver|done].
    intros k' (Hn & prop & [[= -> <-]|Hin]%elem_of_cons & Hc); [done|].
    eapply IH; eauto.
  - destruct (scan_loop _ _ _) as [|m []]; [|naive_solver set_solver|done].
    intros k' (Hn & prop & [[= -> <-]|Hin]%elem_of_cons & Hc); [congruence|].
    eapply IH; eauto.
Qed.

Lemma network_impl_scan t :
  network_impl t = scan_loop isURLPropertyName network_msg (properties_of (InputSchema t)).
Proof.
  assert (forall props, network_loop props = scan_loop isURLPropertyName network_msg props) as Hl
    by (induction props as [|[k v] props IH]; simpl; by rewrite ?IH).
  unfold network_impl, properties_of. destruct (InputSchema t) as [m|]; simpl; [|done].
  destruct (get m "properties") as [v|]; simpl; [|done]. by destruct (as_map v); simpl.
Qed.

Lemma filepath_impl_scan t :
  filepath_impl t = scan_loop isPathPropertyName filepath_msg (properties_of (InputSchema t)).
Proof.
  assert (forall props, filepath_loop props = scan_loop isPathPropertyName filepath_msg props) as Hl
    by (induction props as [|[k v] props IH]; simpl; by rewrite ?IH).
  unfold filepath_impl, properties_of. destruct (InputSchema t) as [m|]; simpl; [|done].
  destruct (get m "properties") as [v|]; simpl; [|done]. by destruct (as_map v); simpl.
Qed.

(** First segments of names. *)
Lemma segment_match (lower p : string) :
  str_forall (fun d => negb (Ascii.eqb d underscore)) p = true ->
  (lower =? p)%string || HasPrefix lower (p +:+ "_") =
  bool_decide (head (SplitByte lower underscore) = Some p).
Proof.
  intros Hp. apply eq_true_iff_eq. rewrite orb_true_iff, String.eqb_eq, HasPrefix_spec, bool_decide_eq_true.
  split.
  - intros [->|[t ->]]; [by rewrite SplitByte_one|].
    rewrite str_app_assoc. change ("_" +:+ t) with (String underscore t).
    by rewrite SplitByte_app.
  - intros Hh. pose proof (SplitByte_Join lower underscore) as Hj.
    destruct (SplitByte lower underscore) as [|h tl]; [done|]. simpl in Hh. simplify_eq.
    destruct tl as [|h' tl]; [by left|right]. exists (Join (h' :: tl) "_").
    rewrite str_app_assoc. simpl. done.
Qed.

Lemma prefix_loop_spec lower ps :
  Forall (fun p => str_forall (fun d => negb (Ascii.eqb d underscore)) p = true) ps ->
  prefix_loop lower ps =
  match head (SplitByte lower underscore) with
  | Some seg => if mem_set seg ps then seg else ""
  | None => ""
  end.
Proof.
  destruct (SplitByte_cons_ne lower underscore) as (seg & tl & E).
  induction 1 as [|p ps Hp Hps IH]; cbn [prefix_loop]; rewrite E in *; simpl in *; [done|].
  rewrite segment_match, E by done. simpl. unfold mem_set in *.
  destruct (decide (seg = p)) as [->|Hne].
  - rewrite bool_decide_true by done. by rewrite bool_decide_true by left.
  - rewrite bool_decide_false by congruence. rewrite IH.
    rewrite (bool_decide_ext (seg ∈ p :: ps) (seg ∈ ps)) by set_solver. done.
Qed.

Lemma hasConfirmationField_spec schema :
  hasConfirmationField schema = true <->
  exists k, k ∈ (properties_of schema).*1 /\ isConfirmationName k = true.
Proof.
  unfold hasConfirmationField, properties_of. destruct schema as [m|]; simpl; [|set_solver].
  destruct (get m "properties") as [v|]; simpl; [|set_solver].
  destruct (as_map v) as [props|]; simpl; [|set_solver].
  rewrite existsb_exists. split.
  - intros ([k w] & Hin & Hk). exists k. split; [|done].
    apply list_elem_of_fmap. exists (k, w). by rewrite list_elem_of_In.
  - intros (k & ([k' w] & -> & Hin)%list_elem_of_fmap & Hk). exists (k', w).
    by rewrite <- list_elem_of_In.
Qed.

Lemma propertyNames_spec schema n :
  n ∈ propertyNames schema <-> n ∈ (properties_of (Some schema)).*1.
Proof.
  unfold propertyNames, properties_of. simpl.
  destruct (get schema "properties" ≫= as_map); simpl; set_solver.
Qed.
End schema_lemmas.

(** ** Independence of map order *)

Section order.
Context `{UnicodeTables}.

(** Equivalent schemas have corresponding properties. *)
Definition props_equiv (p1 p2 : amap) : Prop :=
  p1.*1 ≡ₚ p2.*1 /\
  forall k v, (k, v) ∈ p1 -> exists v', (k, v') ∈ p2 /\ any_wf v /\ any_equiv v v'.

Lemma properties_of_equiv t1 t2 :
  tool_wf t1 -> tool_equiv t1 t2 ->
  props_equiv (properties_of (InputSchema t1)) (properties_of (InputSchema t2)).
Proof.
  unfold tool_wf. intros Hwf (_ & _ & _ & _ & Hs). unfold properties_of, props_equiv.
  destruct (InputSchema t1) as [m1|], (InputSchema t2) as [m2|]; try done; simpl;
    [|split; [done|set_solver]].
  pose proof (any_wf_map_inv _ Hwf) as [Hnd _].
  pose proof (amap_equiv_get m1 m2 "properties" Hnd Hs) as Hg.
  destruct (get m1 "properties") as [v1|] eqn:E1, (get m2 "properties") as [v2|]; try done; simpl;
    [|split; [done|set_solver]].
  pose proof (any_wf_get _ _ _ Hwf E1) as Hwfv.
  inversion Hg; subst; simpl; try (split; [done|set_solver]).
  split; [by apply amap_equiv_keys|]. intros k v Hin.
  destruct (amap_equiv_elem _ _ _ _ Hg Hin) as (v' & ? & ?). exists v'.
  split_and!; [done| |done]. apply any_wf_map_inv in Hwfv as [_ Hf].
  rewrite Forall_forall in Hf. by apply (Hf (k, v)).
Qed.

Lemma hasStringValueConstraint_equiv m1 m2 :
  any_wf (VMap m1) -> amap_equiv m1 m2 ->
  hasStringValueConstraint m1 = hasStringValueConstraint m2.
Proof.
  intros [Hnd _]%any_wf_map_inv Heq. unfold hasStringValueConstraint.
  by rewrite !(amap_equiv_has m1 m2) by done.
Qed.

Lemma unconstrained_equiv is_name p1 p2 k :
  props_equiv p1 p2 -> unconstrained is_name p1 k -> unconstrained is_name p2 k.
Proof.
  intros [_ He] (Hn & prop & Hin & Hc). split; [done|].
  destruct (He _ _ Hin) as (v' & Hin' & Hwf & Heq).
  inversion Heq as [| | | | |? m ? Hf Hp]; subst. exists m2. split; [done|].
  rewrite <- Hc. symmetry. by apply hasStringValueConstraint_equiv.
Qed.

Lemma scan_loop_nil_equiv is_name msg p1 p2 :
  props_equiv p1 p2 -> scan_loop is_name msg p2 = [] -> scan_loop is_name msg p1 = [].
Proof.
  intros He H2. pose proof (scan_loop_spec is_name msg p1) as H1.
  pose proof (scan_loop_spec is_name msg p2) as H2'. rewrite H2 in H2'.
  destruct (scan_loop is_name msg p1) as [|m []]; [done| |done].
  destruct H1 as (k & _ & Hk). exfalso. by eapply H2', unconstrained_equiv.
Qed.

Lemma hasConfirmationField_equiv t1 t2 :
  tool_wf t1 -> tool_equiv t1 t2 ->
  hasConfirmationField (InputSchema t1) = hasConfirmationField (InputSchema t2).
Proof.
  intros Hwf Heq. apply eq_true_iff_eq. rewrite !hasConfirmationField_spec.
  destruct (properties_of_equiv _ _ Hwf Heq) as [Hk _].
  by setoid_rewrite Hk.
Qed.

Lemma extractRequired_equiv m1 m2 :
  any_wf (VMap m1) -> amap_equiv m1 m2 -> extractRequired m1 = extractRequired m2.
Proof.
  intros [Hnd _]%any_wf_map_inv Heq. unfold extractRequired.
  pose proof (amap_equiv_get m1 m2 "required" Hnd Heq) as Hg.
  destruct (get m1 "required"), (get m2 "required"); try done.
  inversion Hg as [| | | |l1 l2 Hf|]; subst; simpl; try done.
  clear Hg. induction Hf as [|x y l1 l2 Hxy _ IH]; csimpl; [done|].
  by rewrite Hxy, IH.
Qed.

Lemma required_impl_equiv t1 t2 :
  tool_wf t1 -> tool_equiv t1 t2 -> required_impl t1 = required_impl t2.
Proof.
  intros Hwf Heq. pose proof (properties_of_equiv _ _ Hwf Heq) as [Hk _].
  destruct Heq as (_ & _ & _ & _ & Hs). unfold required_impl, tool_wf in *.
  destruct (InputSchema t1) as [m1|], (InputSchema t2) as [m2|]; try done.
  assert (propertyNames m1 = propertyNames m2) as Hp.
  { apply set_eq. intros n. by rewrite !propertyNames_spec, Hk. }
  by rewrite (extractRequired_equiv m1 m2), Hp by done.
Qed.
End order.

(** ** examples.go *)

Lemma NoDup_keys_eq {V} (m : list (string * V)) e1 e2 :
  NoDup m.*1 -> e1 ∈ m -> e2 ∈ m -> e1.1 = e2.1 -> e1 = e2.
Proof.
  intros Hnd [i Hi]%list_elem_of_lookup [j Hj]%list_elem_of_lookup Hk.
  assert (i = j) as ->; [|congruence].
  eapply NoDup_lookup; [done|..]; rewrite list_lookup_fmap; [by rewrite Hi|by rewrite Hj, Hk].
Qed.

Lemma entry_leb_total {V} (e1 e2 : string * V) : entry_leb e1 e2 = true \/ entry_leb e2 e1 = true.
Proof. apply string_leb_total. Qed.

Lemma entry_leb_trans {V} (e1 e2 e3 : string * V) :
  entry_leb e1 e2 = true -> entry_leb e2 e3 = true -> entry_leb e1 e3 = true.
Proof. apply string_leb_trans. Qed.

Lemma sort_entries_perm {V} (m1 m2 : list (string * V)) :
  NoDup m1.*1 -> m1 ≡ₚ m2 -> isort entry_leb m1 = isort entry_leb m2.
Proof.
  intros Hnd. apply isort_proper; [apply entry_leb_total|apply entry_leb_trans|].
  intros x y Hx Hy Hxy Hyx. eapply NoDup_keys_eq; eauto. by apply string_leb_antisym.
Qed.

(** The document handed to the schema compiler does not depend on map order. *)
Lemma canonical_equiv v1 v2 : any_wf v1 -> any_equiv v1 v2 -> canonical v1 = canonical v2.
Proof.
  revert v2. induction v1 as [| | | |l IH|m1 IH] using any_ind_nested; intros v2 Hwf Heq;
    inversion Heq as [| | | |? l2 Hf|? m m2 Hf Hp]; subst; try done; cbn [canonical]; f_equal.
  - inversion Hwf as [| | | |? Hl|]; subst. clear Heq Hwf. revert l2 Hf.
    induction IH as [|x l Hx _ IHl]; intros l2; inversion 1; subst; [done|].
    inversion Hl; subst. simpl. f_equal; eauto.
  - apply any_wf_map_inv in Hwf as [Hnd Hl].
    set (can := fun e : string * any => (e.1, canonical e.2)).
    assert (map can m1 = map can m) as Hm.
    { clear Heq Hp Hnd. revert m Hf.
      induction IH as [|x l Hx _ IHl]; intros l2; inversion 1; subst; [done|].
      inversion Hl; subst. destruct_and!. simpl. unfold can at 1 3. f_equal; [f_equal; eauto|eauto]. }
    rewrite Hm. apply sort_entries_perm; [|by apply fmap_Permutation].
    rewrite <- Hm. replace ((map can m1).*1) with (m1.*1); [done|].
    clear. induction m1; csimpl; congruence.
Qed.

Section examples_lemmas.
Context `{UnicodeTables} `{JSONSchema}.

Lemma extractExamples_equiv t1 t2 :
  tool_wf t1 -> tool_equiv t1 t2 ->
  Forall2 (fun v1 v2 => any_wf v1 /\ any_equiv v1 v2)
    (extractExamples (InputSchema t1)) (extractExamples (InputSchema t2)).
Proof.
  unfold tool_wf, extractExamples. intros Hwf (_ & _ & _ & _ & Hs).
  destruct (InputSchema t1) as [m1|], (InputSchema t2) as [m2|]; try done.
  pose proof (any_wf_map_inv _ Hwf) as [Hnd _].
  pose proof (amap_equiv_get m1 m2 "examples" Hnd Hs) as Hg.
  destruct (get m1 "examples") as [v1|] eqn:E1, (get m2 "examples"); try done.
  pose proof (any_wf_get _ _ _ Hwf E1) as Hwfv.
  inversion Hg as [| | | |l1 l2 Hf|]; subst; simpl; try done.
  inversion Hwfv as [| | | |? Hl|]; subst. clear -Hf Hl.
  induction Hf; inversion Hl; subst; constructor; auto.
Qed.

Lemma compileSchema_equiv t1 t2 :
  tool_wf t1 -> tool_equiv t1 t2 ->
  compileSchema (InputSchema t1) = compileSchema (InputSchema t2).
Proof.
  unfold tool_wf, compileSchema. intros Hwf (_ & _ & _ & _ & Hs). f_equal.
  destruct (InputSchema t1), (InputSchema t2); try done. by apply canonical_equiv.
Qed.

(** Which examples are reported, by index. *)
Lemma examples_loop_nil compiled i exs :
  examples_loop compiled i exs = [] <-> Forall (fun ex => Validate compiled ex = None) exs.
Proof.
  revert i. induction exs as [|ex exs IH]; intros i; simpl; [done|].
  destruct (Validate compiled ex) eqn:E; rewrite Forall_cons; [naive_solver|]. rewrite IH. naive_solver.
Qed.

Lemma examples_impl_nil t :
  examples_impl t = [] <->
  extractExamples (InputSchema t) = [] \/ compileSchema (InputSchema t) = None \/
  exists c, compileSchema (InputSchema t) = Some c /\
    Forall (fun ex => Validate c ex = None) (extractExamples (InputSchema t)).
Proof.
  unfold examples_impl. case_decide as Hl.
  - apply nil_length_inv in Hl. tauto.
  - assert (extractExamples (InputSchema t) <> []) by (intros E; by rewrite E in Hl).
    destruct (compileSchema (InputSchema t)) as [c|]; [|tauto]. rewrite examples_loop_nil.
    naive_solver.
Qed.

Lemma examples_impl_nil_equiv t1 t2 :
  tool_wf t1 -> tool_equiv t1 t2 -> examples_impl t1 = [] <-> examples_impl t2 = [].
Proof.
  intros Hwf Heq. rewrite !examples_impl_nil.
  pose proof (extractExamples_equiv _ _ Hwf Heq) as Hex.
  rewrite (compileSchema_equiv _ _ Hwf Heq).
  assert (extractExamples (InputSchema t1) = [] <-> extractExamples (InputSchema t2) = []) as ->.
  { destruct Hex; split; done. }
  assert (forall c, Forall (fun ex => Validate c ex = None) (extractExamples (InputSchema t1)) <->
            Forall (fun ex => Validate c ex = None) (extractExamples (InputSchema t2))) as Hv.
  { intros c. induction Hex as [|v1 v2 l1 l2 [Hw He] _ IH]; [done|]. rewrite !Forall_cons, IH.
    pose proof (Validate_order c v1 v2 Hw He). rewrite !eq_None_not_Some. tauto. }
  by setoid_rewrite Hv.
Qed.

Inductive cause_path : ValidationError -> ValidationError -> Prop :=
| cause_here ve : cause_path ve ve
| cause_first s c cs leaf : cause_path c leaf -> cause_path (mkVE s (c :: cs)) leaf.

Lemma deepestCause_leaf ve : ve_Causes (deepestCause ve) = [] /\ cause_path ve (deepestCause ve).
Proof.
  revert ve. fix IH 1. intros [s [|c cs]]; simpl; [split; [done|constructor]|].
  destruct (IH c). split; [done|by constructor].
Qed.
End examples_lemmas.

(** *** Properties *)

(** C17. [network-tool-no-allowlist] and [file-tool-no-path-confinement]: each
    fires exactly when some declared property of its name class is an object
    without [enum], [pattern] and [const]; it then reports once, about one
    such property. *)
Theorem unconstrained_property_findings `{UnicodeTables} (t : Tool) :
  let props := properties_of (InputSchema t) in
  match network_impl t with
  | [] => forall k, ~ unconstrained isURLPropertyName props k
  | [m] => exists k, m = network_msg k /\ unconstrained isURLPropertyName props k
  | _ => False
  end /\
  match filepath_impl t with
  | [] => forall k, ~ unconstrained isPathPropertyName props k
  | [m] => exists k, m = filepath_msg k /\ unconstrained isPathPropertyName props k
  | _ => False
  end.
Proof.
  simpl. rewrite network_impl_scan, filepath_impl_scan. split; apply scan_loop_spec.
Qed.

(** [tool-schema-required-references-undefined-property] reports once,
    and the report lists in sorted order, with multiplicity, exactly the
    string entries of [required] that [properties] does not declare; it is
    silent when there are none. *)
Theorem required_undefined_findings `{UnicodeTables} (t : Tool) (schema : amap)
  (Hs : InputSchema t = Some schema) :
  exists missing,
    sorted_by String.leb missing /\
    missing ≡ₚ filter (fun n => n ∉ (properties_of (Some schema)).*1) (extractRequired schema) /\
    required_impl t = (if decide (missing = []) then [] else [required_msg missing]).
Proof.
  exists (sort_Strings (filter (fun n => n ∉ propertyNames schema) (extractRequired schema))).
  split; [apply sort_Strings_sorted|]. split.
  - etrans; [apply sort_Strings_perm|]. rewrite (list_filter_iff (fun n => n ∉ propertyNames schema)
      (fun n => n ∉ (properties_of (Some schema)).*1)); [done|].
    intros n. by rewrite propertyNames_spec.
  - unfold required_impl. rewrite Hs.
    set (missing := filter (fun n => n ∉ propertyNames schema) (extractRequired schema)).
    assert (sort_Strings missing = [] <-> missing = []) as Hnil.
    { split; intros E; [|by rewrite E]. pose proof (sort_Strings_perm missing) as Hp.
      rewrite E in Hp. by apply Permutation_nil in Hp. }
    destruct (decide (extractRequired schema = [])) as [E|].
    + rewrite decide_True; [done|]. apply Hnil. unfold missing. by rewrite E.
    + destruct (decide (missing = [])), (decide (sort_Strings missing = [])); tauto.
Qed.

Lemma required_undefined_findings_witness :
  exists missing,
    sorted_by String.leb missing /\
    missing ≡ₚ ["user_id"; "zone"] /\
    @required_impl (mkTool "t" "d"
      (Some [("required", VArr [VStr "zone"; VStr "id"; VNil; VStr "user_id"]);
             ("properties", VMap [("id", VMap [])])]) "" 0)
    = (if decide (missing = []) then [] else [required_msg missing]).
Proof.
  destruct (@required_undefined_findings latin1_tables (mkTool "t" "d"
      (Some [("required", VArr [VStr "zone"; VStr "id"; VNil; VStr "user_id"]);
             ("properties", VMap [("id", VMap [])])]) "" 0) _ eq_refl) as (missing & Hs & Hp & Hr).
  exists missing. split; [exact Hs|]. split; [|exact Hr]. etrans; [exact Hp|]. vm_compute.
  apply Permutation_swap.
Defined.

(** [destructive-tool-not-gated]: a name is destructive exactly when its
    lowercased first segment (up to the first [_]) is one of the listed
    prefixes; the rule then reports, with that prefix, exactly when no
    declared property has a confirmation-shaped name. *)
Theorem destructive_findings `{UnicodeTables} (t : Tool) :
  destructive_impl t =
  match head (SplitByte (ToLower (Name t)) underscore) with
  | Some seg =>
    if bool_decide (seg ∈ destructivePrefixes) &&
       negb (bool_decide (Exists (fun k => isConfirmationName k = true)
                                 (properties_of (InputSchema t)).*1))
    then [destructive_msg seg] else []
  | None => []
  end.
Proof.
  unfold destructive_impl.
  assert (Hprefix : destructivePrefix (Name t) =
    match head (SplitByte (ToLower (Name t)) underscore) with
    | Some seg => if mem_set seg destructivePrefixes then seg else "" | None => "" end).
  { unfold destructivePrefix. destruct (String.eqb_spec (Name t) "") as [->|]; [by vm_compute|].
    apply prefix_loop_spec. repeat constructor. }
  rewrite Hprefix. destruct (head _) as [seg|]; [|done]. unfold mem_set.
  case_bool_decide as Hin; simpl; [|done].
  assert ((seg =? "")%string = false) as ->.
  { apply String.eqb_neq. intros ->. by apply (bool_decide_unpack ("" ∉ destructivePrefixes)). }
  destruct (hasConfirmationField (InputSchema t)) eqn:Hc.
  - apply hasConfirmationField_spec in Hc as (k & ? & ?).
    rewrite bool_decide_true; [done|]. apply Exists_exists. eauto.
  - rewrite bool_decide_false; [done|]. rewrite Exists_exists.
    rewrite <- hasConfirmationField_spec. by rewrite Hc.
Qed.
