(* ===== verification/RulesText.v ===== *)
(** [internal/rules]: the rules that scan free text — [secrets.go] and
    [pii.go]. *)
From S2P Require Import Prelude GoStrings GoUnicode GoRegexp Model Registry RulesNaming RulesSchema.

(** ** secrets.go *)

Definition chr_ci (c : ascii) : regex := RClass (fun r => (byteZ c =? fold_rune r)%Z).
Definition lit_ci (s : string) : regex := RCats (map chr_ci (String.list_ascii_of_string s)).
Definition sep_opt : regex := ROpt (RClass (one_of "_-")).

Definition secret_terms : regex := RAlts [
  lit_ci "password";
  lit_ci "passphrase";
  RCats [lit_ci "api"; sep_opt; lit_ci "key"];
  RCats [lit_ci "access"; sep_opt; lit_ci "token"];
  RCats [lit_ci "refresh"; sep_opt; lit_ci "token"];
  RCats [lit_ci "private"; sep_opt; lit_ci "key"];
  RCats [lit_ci "client"; sep_opt; lit_ci "secret"];
  lit_ci "bearer";
  lit_ci "secret";
  lit_ci "token" ].

Definition secretMentionRe : regex := RCats [RWordB; secret_terms; RWordB].

Section text.
Context `{UnicodeTables}.

Definition findSecretMention (s : string) : string :=
  match FindStringIndex secretMentionRe s with
  | None => ""
  | Some (i, j) => ToLower (slice s i j)
  end.

Definition secret_msg (m : string) : string :=
  "description mentions secret-shaped term " +:+ quote m
  +:+ "; verify that the tool does not accept or return credentials in plaintext".

Definition secrets_impl (t : Tool) : list string :=
  let m := findSecretMention (Description t) in
  if (m =? "")%string then [] else [secret_msg m].

Definition secrets_rule : Rule := {|
  ID := "tool-description-mentions-secret"; RCategory := CatSafety; RSeverity := SevWarning;
  RDescription := "Tool descriptions that mention credential-shaped terms may be exposing secrets through arguments or results; flag for review.";
  Fix := FixNone;
  Implementation := Some secrets_impl;
  ProjectImplementation := None; ComparisonImplementation := None |}.

(** ** pii.go *)

Definition piiEmailRe : regex := RCats [
  RWordB;
  RPlus (RClass (fun r => is_alpha r || is_digit r || one_of "._%+-" r));
  chr "@";
  RPlus (RClass (fun r => is_alpha r || is_digit r || one_of ".-" r));
  chr ".";
  RAtLeast 2 (RClass is_alpha);
  RWordB ].

Definition digits (n : nat) : regex := RRep n (RClass is_digit).

Definition piiSSNRe : regex :=
  RCats [RWordB; digits 3; chr "-"; digits 2; chr "-"; digits 4; RWordB].

Definition piiPhoneRe : regex := RAlts [
  RCats [chr "("; digits 3; chr ")"; ROpt (RClass is_space); digits 3; chr "-"; digits 4];
  RCats [RWordB; digits 3; chr "-"; digits 3; chr "-"; digits 4; RWordB] ].

Definition placeholderEmailDomains : list string :=
  ["@example.com"; "@example.org"; "@example.net"; "@test.com"; "@invalid"; "@localhost"].

Definition emailIsPlaceholder (matched : string) : bool :=
  existsb (fun d => HasSuffix matched d) placeholderEmailDomains.

Definition placeholderSSNs : list string :=
  ["000-00-0000"; "111-11-1111"; "123-45-6789"; "987-65-4321"].

Definition ssnIsPlaceholder (matched : string) : bool := mem_set matched placeholderSSNs.

Definition digitsOnly (s : string) : string :=
  str_concat (map (fun rw => if in_rng 48 57 rw.1 then EncodeRune rw.1 else "") (runes s)).

Definition phoneIsPlaceholder (matched : string) : bool :=
  let ds := digitsOnly matched in
  if (len ds =? 7)%nat then HasPrefix ds "555"
  else if (len ds =? 10)%nat then
    (slice ds 0 3 =? "555")%string || (slice ds 3 6 =? "555")%string
  else false.

Record piiPattern := mkPiiPattern {
  kind : string;
  re : regex;
  allowlist : option (string -> bool)
}.

Definition piiPatterns : list piiPattern := [
  mkPiiPattern "email" piiEmailRe (Some emailIsPlaceholder);
  mkPiiPattern "ssn" piiSSNRe (Some ssnIsPlaceholder);
  mkPiiPattern "phone" piiPhoneRe (Some phoneIsPlaceholder) ].

Definition allowlisted (p : piiPattern) (m : string) : bool :=
  match allowlist p with Some f => f (ToLower m) | None => false end.

Fixpoint scan_patterns (ps : list piiPattern) (s : string) : string :=
  match ps with
  | [] => ""
  | p :: ps =>
    if existsb (fun m => negb (allowlisted p m)) (FindAllString (re p) s)
    then "real-looking " +:+ kind p
    else scan_patterns ps s
  end.

Definition scanStringForPII (s : string) : string := scan_patterns piiPatterns s.

Fixpoint scanForPII (v : any) : string :=
  match v with
  | VStr x => scanStringForPII x
  | VMap m =>
    (fix go m := match m with
      | [] => ""
      | (_, child) :: m =>
        let hit := scanForPII child in if (hit =? "")%string then go m else hit
      end) m
  | VArr l =>
    (fix go l := match l with
      | [] => ""
      | child :: l =>
        let hit := scanForPII child in if (hit =? "")%string then go l else hit
      end) l
  | _ => ""
  end.

Definition pii_msg (i : nat) (hit : string) : string :=
  "inputSchema.examples[" +:+ Itoa (Z.of_nat i) +:+ "] contains a " +:+ hit
  +:+ "; use a placeholder (e.g. user@example.com, 555-555-0100, 123-45-6789)".

Fixpoint pii_loop (i : nat) (examples : list any) : list string :=
  match examples with
  | [] => []
  | ex :: examples =>
    let hit := scanForPII ex in
    if (hit =? "")%string then pii_loop (S i) examples
    else pii_msg i hit :: pii_loop (S i) examples
  end.

Definition pii_impl (t : Tool) : list string := pii_loop 0 (extractExamples (InputSchema t)).

Definition pii_rule : Rule := {|
  ID := "tool-example-uses-real-pii"; RCategory := CatExamples; RSeverity := SevWarning;
  RDescription := "Schema examples should use placeholder values for emails, SSNs, and phone numbers; real-looking PII suggests it was pasted from production.";
  Fix := FixNone;
  Implementation := Some pii_impl;
  ProjectImplementation := None; ComparisonImplementation := None |}.
End text.

Section text_tests.
Existing Instance latin1_tables.
Example secret_t1 : findSecretMention "Rotates the API-Key of a user" = "api-key".
Proof. vm_compute. reflexivity. Qed.
Example secret_t2 : findSecretMention "a tokenizer, secretly; api_keys" = "".
Proof. vm_compute. reflexivity. Qed.
Example pii_t1 : scanForPII (VMap [("contact", VArr [VStr "mail bob@corp.io"])]) = "real-looking email".
Proof. vm_compute. reflexivity. Qed.
Example pii_t2 : scanForPII (VMap [("e", VStr "u@Example.com"); ("p", VStr "415-555-0100")]) = "".
Proof. vm_compute. reflexivity. Qed.
Example pii_t3 : scanStringForPII "call (415) 867-5309, ssn 123-45-6789" = "real-looking phone".
Proof. vm_compute. reflexivity. Qed.
Example pii_t4 : scanStringForPII "ssn 123-45-6788" = "real-looking ssn".
Proof. vm_compute. reflexivity. Qed.
End text_tests.

(** ** Secret terms as a finite set of words *)

(** [acc r ws]: [r] consumes exactly the inputs whose folded runes spell a
    word of [ws], and captures nothing. *)
Definition acc (r : regex) (ws : list (list Z)) : Prop :=
  forall s s', derives r s s' <->
    exists w l, rest s = w ++ l /\ map (fun rw => fold_rune rw.1) w ∈ ws /\ s' = advance w l s.

Lemma acc_class f cs :
  (forall r, f r = true <-> fold_rune r ∈ cs) -> acc (RClass f) (map (fun c => [c]) cs).
Proof.
  intros Hf s s'. rewrite derives_class. split.
  - intros (rw & l & E & Hr & ->). exists [rw], l. split_and!; [done| |done].
    apply elem_of_map. exists (fold_rune rw.1). split; [done|]. by apply Hf.
  - intros (w & l & E & Hin & ->). apply elem_of_map in Hin as (c & Hw & Hc).
    destruct w as [|rw [|]]; simplify_eq/=. exists rw, l. split_and!; [done| |done]. by apply Hf.
Qed.

Lemma acc_empty : acc REmpty [[]].
Proof.
  intros s s'. rewrite derives_empty. split.
  - intros ->. exists [], (rest s). rewrite advance_nil. split_and!; [done|left|done].
  - intros (w & l & E & ->%list_elem_of_singleton%fmap_nil_inv & ->). simpl in E. subst.
    by rewrite advance_nil.
Qed.

Lemma acc_cat r1 r2 ws1 ws2 :
  acc r1 ws1 -> acc r2 ws2 -> acc (RCat r1 r2) (w1 ← ws1; w2 ← ws2; [w1 ++ w2]).
Proof.
  intros H1 H2 s s'. rewrite derives_cat. split.
  - intros (s1 & (w1 & l1 & E1 & Hw1 & ->)%H1 & (w2 & l2 & E2 & Hw2 & ->)%H2).
    simpl in E2. subst. exists (w1 ++ w2), l2. rewrite <- app_assoc, advance_advance.
    split_and!; [done| |done]. rewrite map_app.
    apply list_elem_of_bind. eexists. split; [|exact Hw1].
    apply list_elem_of_bind. eexists. split; [|exact Hw2]. left.
  - intros (w & l & E & Hin & ->).
    apply list_elem_of_bind in Hin as (w1 & Hin & Hw1).
    apply list_elem_of_bind in Hin as (w2 & Hw%list_elem_of_singleton & Hw2).
    apply map_eq_app in Hw as (v1 & v2 & -> & <- & <-). rewrite <- app_assoc in E.
    exists (advance v1 (v2 ++ l) s). split; [apply H1; by eauto 10|].
    apply H2. exists v2, l. by rewrite advance_advance.
Qed.

Lemma acc_alt r1 r2 ws1 ws2 : acc r1 ws1 -> acc r2 ws2 -> acc (RAlt r1 r2) (ws1 ++ ws2).
Proof.
  intros H1 H2 s s'. rewrite derives_alt, (H1 s s'), (H2 s s').
  setoid_rewrite elem_of_app. naive_solver.
Qed.

Lemma acc_chr_ci c : acc (chr_ci c) [[byteZ c]].
Proof.
  apply (acc_class _ [byteZ c]). intros r. rewrite Z.eqb_eq, list_elem_of_singleton. naive_solver.
Qed.

Lemma acc_lit_ci s : acc (lit_ci s) [codes s].
Proof.
  unfold lit_ci, codes. induction (String.list_ascii_of_string s) as [|c l IH].
  - apply acc_empty.
  - destruct l as [|d l]; [apply acc_chr_ci|]. apply (acc_cat _ _ _ _ (acc_chr_ci c) IH).
Qed.

Lemma acc_sep_opt : acc sep_opt [codes "_"; codes "-"; []].
Proof.
  apply (acc_alt _ _ [[95%Z]; [45%Z]] [[]]); [|apply acc_empty].
  apply (acc_class _ [95; 45]%Z). intros r.
  assert (one_of "_-" r = true <-> r = 95%Z \/ r = 45%Z) as ->.
  { unfold one_of. cbn [String.list_ascii_of_string existsb].
    change (byteZ "_"%char) with 95%Z. change (byteZ "-"%char) with 45%Z.
    rewrite !orb_true_iff, !Z.eqb_eq. naive_solver. }
  rewrite !elem_of_cons, elem_of_nil. unfold fold_rune, in_rng.
  repeat case_match; bool_to_prop; lia.
Qed.

(** The words the rule looks for. *)
Definition secret_words : list string :=
  ["password"; "passphrase"; "api_key"; "api-key"; "apikey"; "access_token"; "access-token";
   "accesstoken"; "refresh_token"; "refresh-token"; "refreshtoken"; "private_key";
   "private-key"; "privatekey"; "client_secret"; "client-secret"; "clientsecret"; "bearer";
   "secret"; "token"].

Create HintDb acc discriminated.
#[local] Hint Resolve acc_lit_ci acc_sep_opt acc_cat acc_alt : acc.

Lemma acc_secret_terms : acc secret_terms (map codes secret_words).
Proof.
  assert (forall a b, acc (RCats [lit_ci a; sep_opt; lit_ci b])
    (w1 ← [codes a]; w2 ← (w1 ← [codes "_"; codes "-"; []]; w2 ← [codes b]; [w1 ++ w2]); [w1 ++ w2]))
    as H3 by (intros; cbn [RCats]; eauto with acc).
  unfold secret_terms. cbn [RAlts].
  apply (acc_alt _ _ [codes "password"]); [auto with acc|].
  apply (acc_alt _ _ [codes "passphrase"]); [auto with acc|].
  apply (acc_alt _ _ (map codes ["api_key"; "api-key"; "apikey"])); [apply H3|].
  apply (acc_alt _ _ (map codes ["access_token"; "access-token"; "accesstoken"])); [apply H3|].
  apply (acc_alt _ _ (map codes ["refresh_token"; "refresh-token"; "refreshtoken"])); [apply H3|].
  apply (acc_alt _ _ (map codes ["private_key"; "private-key"; "privatekey"])); [apply H3|].
  apply (acc_alt _ _ (map codes ["client_secret"; "client-secret"; "clientsecret"])); [apply H3|].
  apply (acc_alt _ _ [codes "bearer"]); [auto with acc|].
  apply (acc_alt _ _ [codes "secret"] [codes "token"]); auto with acc.
Qed.

(** [w] is a secret word of the input standing between [pre] and [suf]. *)
Definition secret_at (pre w suf : list (Z * nat)) : Prop :=
  map (fun rw => fold_rune rw.1) w ∈ map codes secret_words /\
  xorb (is_word_opt (fst <$> last pre)) (is_word_opt (fst <$> head (w ++ suf))) = true /\
  xorb (is_word_opt (fst <$> last (pre ++ w))) (is_word_opt (fst <$> head suf)) = true.

Lemma secretMentionRe_derives pre l s s' :
  prev s = (fst <$> last pre) -> rest s = l ->
  derives secretMentionRe s s' <->
  exists w suf, l = w ++ suf /\ secret_at pre w suf /\ s' = advance w suf s.
Proof.
  intros Hp Hr. unfold secretMentionRe, secret_at. cbn [RCats]. rewrite derives_cat.
  setoid_rewrite derives_wordb. setoid_rewrite derives_cat. setoid_rewrite derives_wordb.
  unfold at_word_boundary. split.
  - intros (s1 & [Hb1 ->] & s2 & (w & suf & E & Hw & ->)%acc_secret_terms & Hb2 & ->).
    exists w, suf. rewrite Hr in E. rewrite Hp, Hr, E in Hb1. simpl in Hb2.
    split_and!; [done|done|done| |done]. rewrite last_app. rewrite <- Hb2, Hp. by destruct (last w).
  - intros (w & suf & E & (Hw & Hb1 & Hb2) & ->). exists s. rewrite Hp, Hr, E.
    split; [done|]. exists (advance w suf s). split.
    + apply acc_secret_terms. exists w, suf. split_and!; [congruence|done..].
    + split; [|done]. simpl. rewrite last_app in Hb2. rewrite <- Hb2, Hp. by destruct (last w).
Qed.

Lemma EncodeRune_ne r : EncodeRune r <> "".
Proof. unfold EncodeRune. repeat case_match; done. Qed.

Lemma str_app_eq_nil s t : s +:+ t = "" -> s = "" /\ t = "".
Proof. by destruct s. Qed.

Lemma ToLower_eq_nil `{UnicodeTables} s : ToLower s = "" <-> s = "".
Proof.
  split; [|by intros ->]. destruct s as [|c s]; [done|]. unfold ToLower, runes.
  cbn [runes_from map str_concat]. intros [Hn _]%str_app_eq_nil. by apply EncodeRune_ne in Hn.
Qed.

Lemma slice_ne s i j : (i < j <= len s)%nat -> slice s i j <> "".
Proof.
  intros Hij E. assert (len (slice s i j) = 0%nat) as Hl by by rewrite E.
  unfold slice in Hl. rewrite str_len_take, str_len_drop in Hl. lia.
Qed.

(** A search that succeeds on a regular expression that never matches empty
    selects a non-empty slice. *)
Lemma find_slice_ne re s i s' :
  (forall s1 s2, derives re s1 s2 -> (length (rest s2) < length (rest s1))%nat) ->
  find_from re 0 None (runes s) = Some (i, s') -> (i < off s' <= len s)%nat.
Proof.
  intros Hne (pre & suf & El & -> & Hd)%find_from_derives.
  pose proof (Hne _ _ Hd) as Hlt. apply derives_consumes in Hd as (w & Ew & Ho & _).
  simpl in *. rewrite Ho. pose proof (runes_total s) as Ht. rewrite El, Ew, !total_width_app in Ht.
  assert (w <> []) by (intros ->; rewrite Ew in Hlt; simpl in Hlt; lia).
  assert (0 < total_width w)%nat; [|lia].
  destruct w as [|[r k] w]; [done|]. simpl.
  assert ((r, k) ∈ runes s) as Hk%runes_from_width; [|lia].
  rewrite El, Ew. set_solver.
Qed.

(** ** PII *)

(** The strings inside a value. *)
Inductive leaf : any -> string -> Prop :=
| leaf_str s : leaf (VStr s) s
| leaf_arr l v s : v ∈ l -> leaf v s -> leaf (VArr l) s
| leaf_map m k v s : (k, v) ∈ m -> leaf v s -> leaf (VMap m) s.

Lemma scan_patterns_spec `{UnicodeTables} ps s :
  match scan_patterns ps s with
  | "" => forall p m, p ∈ ps -> m ∈ FindAllString (re p) s -> allowlisted p m = true
  | hit => exists p m, p ∈ ps /\ hit = "real-looking " +:+ kind p /\
             m ∈ FindAllString (re p) s /\ allowlisted p m = false
  end.
Proof.
  induction ps as [|p ps IH]; cbn [scan_patterns]; [by intros ?? ?%not_elem_of_nil|].
  destruct (existsb _ _) eqn:E.
  - apply existsb_exists in E as (m & Hin & Hm%negb_true_iff). exists p, m.
    split_and!; [left|done|by apply list_elem_of_In|done].
  - destruct (scan_patterns ps s) as [|c h] eqn:Es.
    + intros p' m [->|Hp]%elem_of_cons Hm; [|eauto].
      destruct (allowlisted p m) eqn:Ea; [done|]. exfalso.
      apply not_true_iff_false in E. apply E. apply existsb_exists. exists m.
      rewrite <- list_elem_of_In, Ea. done.
    + destruct IH as (p' & m & ? & ?). exists p', m. split; [by right|done].
Qed.

Lemma scanForPII_arr_cons `{UnicodeTables} v l :
  scanForPII (VArr (v :: l)) =
  if (scanForPII v =? "")%string then scanForPII (VArr l) else scanForPII v.
Proof. reflexivity. Qed.

Lemma scanForPII_map_cons `{UnicodeTables} k v m :
  scanForPII (VMap ((k, v) :: m)) =
  if (scanForPII v =? "")%string then scanForPII (VMap m) else scanForPII v.
Proof. reflexivity. Qed.

Lemma scanForPII_spec `{UnicodeTables} v :
  match scanForPII v with
  | "" => forall s, leaf v s -> scanStringForPII s = ""
  | hit => exists s, leaf v s /\ scanStringForPII s = hit
  end.
Proof.
  induction v as [| | |x|l IH|m IH] using any_ind_nested;
    try (simpl; intros s Hs; by inversion Hs).
  - change (scanForPII (VStr x)) with (scanStringForPII x).
    destruct (scanStringForPII x) eqn:E; [intros s Hs; inversion Hs; by subst|].
    exists x. split; [constructor|done].
  - induction IH as [|v l Hv _ IHl].
    { intros s Hs. inversion Hs as [|? ? ? Hin|]; subst. by apply not_elem_of_nil in Hin. }
    rewrite scanForPII_arr_cons. destruct (scanForPII v) as [|c h] eqn:E; cbn [String.eqb].
    + destruct (scanForPII (VArr l)) as [|c h] eqn:El.
      * intros s Hs. inversion Hs as [|? ? ? Hin|]; subst.
        apply elem_of_cons in Hin as [->|Hin]; [auto|]. apply IHl. by econstructor.
      * destruct IHl as (s & Hs & ?). exists s. split; [|done].
        inversion Hs; subst. econstructor; [right|]; done.
    + destruct Hv as (s & ? & ?). exists s. split; [|done]. by econstructor; [left|].
  - induction IH as [|[k v] m Hv _ IHm].
    { intros s Hs. inversion Hs as [| |? ? ? ? Hin]; subst. by apply not_elem_of_nil in Hin. }
    simpl in Hv. rewrite scanForPII_map_cons.
    destruct (scanForPII v) as [|c h] eqn:E; cbn [String.eqb].
    + destruct (scanForPII (VMap m)) as [|c h] eqn:El.
      * intros s Hs. inversion Hs as [| |? ? ? ? Hin]; subst.
        apply elem_of_cons in Hin as [[= -> ->]|Hin]; [auto|]. apply IHm. by econstructor.
      * destruct IHm as (s & Hs & ?). exists s. split; [|done].
        inversion Hs; subst. econstructor; [right|]; done.
    + destruct Hv as (s & ? & ?). exists s. split; [|done]. by econstructor; [left|].
Qed.

Lemma leaf_equiv v1 v2 s : any_equiv v1 v2 -> leaf v1 s -> leaf v2 s.
Proof.
  intros Heq Hl. revert v2 Heq. induction Hl as [x|l v x Hin _ IH|m k v x Hin _ IH]; intros v2 Heq.
  - inversion Heq; subst. constructor.
  - inversion Heq as [| | | |? l2 Hf|]; subst.
    apply list_elem_of_lookup in Hin as [i Hi].
    eapply Forall2_lookup_l in Hf as (v' & Hi' & Hv); [|done].
    econstructor; [by eapply list_elem_of_lookup_2|auto].
  - destruct v2; try by inversion Heq.
    destruct (amap_equiv_elem m m0 k v Heq Hin) as (v' & ? & ?). econstructor; eauto.
Qed.

Lemma scanForPII_nil_equiv `{UnicodeTables} v1 v2 :
  any_equiv v1 v2 -> scanForPII v1 = "" <-> scanForPII v2 = "".
Proof.
  assert (forall v1 v2, any_equiv v1 v2 -> scanForPII v1 = "" -> scanForPII v2 = "") as Himp.
  { clear. intros v1 v2 Heq H1. pose proof (scanForPII_spec v1) as S1.
    pose proof (scanForPII_spec v2) as S2. rewrite H1 in S1.
    destruct (scanForPII v2) as [|c h]; [done|]. destruct S2 as (s & Hs & E).
    rewrite S1 in E; [done|]. by eapply leaf_equiv; [apply any_equiv_sym|]. }
  split; apply Himp; [done|by apply any_equiv_sym].
Qed.

Lemma pii_loop_nil `{UnicodeTables} i exs :
  pii_loop i exs = [] <-> Forall (fun ex => scanForPII ex = "") exs.
Proof.
  revert i. induction exs as [|ex exs IH]; intros i; cbn [pii_loop]; [done|].
  rewrite Forall_cons. destruct (String.eqb_spec (scanForPII ex) ""); [rewrite IH|]; naive_solver.
Qed.

Lemma pii_impl_nil_equiv `{UnicodeTables} t1 t2 :
  tool_wf t1 -> tool_equiv t1 t2 -> pii_impl t1 = [] <-> pii_impl t2 = [].
Proof.
  intros Hwf Heq. unfold pii_impl. rewrite !pii_loop_nil.
  induction (extractExamples_equiv _ _ Hwf Heq) as [|v1 v2 l1 l2 [_ Hv] _ IH]; [done|].
  rewrite !Forall_cons, IH, (scanForPII_nil_equiv v1 v2); done.
Qed.

(** ** Social security numbers *)

Definition boundary (pre suf : list (Z * nat)) : Prop :=
  xorb (is_word_opt (fst <$> last pre)) (is_word_opt (fst <$> head suf)) = true.

Definition dash (r : Z) : bool := (byteZ "-"%char =? r)%Z.

(** [ddd-dd-dddd] *)
Definition ssn_classes : list (Z -> bool) :=
  [is_digit; is_digit; is_digit; dash; is_digit; is_digit; dash;
   is_digit; is_digit; is_digit; is_digit].

Abbreviation in_classes fs w := (Forall2 (fun f (rw : Z * nat) => f rw.1 = true) fs w) (only parsing).

Definition ssn_at (pre w suf : list (Z * nat)) : Prop :=
  in_classes ssn_classes w /\ boundary pre (w ++ suf) /\ boundary (pre ++ w) suf.

(** [K] is: the classes [fs] one after the other, then [k]. *)
Definition then_classes (fs : list (Z -> bool)) (k K : regex) : Prop :=
  forall s s', derives K s s' <->
    exists w l, rest s = w ++ l /\ in_classes fs w /\ derives k (advance w l s) s'.

Lemma then_nil k : then_classes [] k k.
Proof.
  intros s s'. split.
  - intros H. exists [], (rest s). rewrite advance_nil. split_and!; [done|constructor|done].
  - intros (w & l & E & Hf & H). inversion Hf; subst. simpl in E. subst. by rewrite advance_nil in H.
Qed.

Lemma then_class f fs k K : then_classes fs k K -> then_classes (f :: fs) k (RCat (RClass f) K).
Proof.
  intros HK s s'. rewrite derives_cat. split.
  - intros (s1 & (rw & l & E & Hf & ->)%derives_class & (w & l' & E' & Hw & Hd)%HK).
    simpl in E'. subst. exists (rw :: w), l'. rewrite advance_advance in Hd.
    split_and!; [done|by constructor|done].
  - intros (w & l & E & Hw & Hd). inversion Hw as [|? rw ? w' Hf Hw']; subst.
    exists (advance [rw] (w' ++ l) s). split; [apply derives_class; eauto|].
    apply HK. exists w', l. by rewrite advance_advance.
Qed.

Lemma derives_cat_assoc r1 r2 r3 s s' :
  derives (RCat (RCat r1 r2) r3) s s' <-> derives (RCat r1 (RCat r2 r3)) s s'.
Proof. rewrite !derives_cat. setoid_rewrite derives_cat. naive_solver. Qed.

Lemma then_cat r1 r2 fs k K :
  then_classes fs k (RCat r1 (RCat r2 K)) -> then_classes fs k (RCat (RCat r1 r2) K).
Proof. intros HK s s'. rewrite derives_cat_assoc. apply HK. Qed.

Lemma ssn_body :
  then_classes ssn_classes RWordB (RCats [digits 3; chr "-"; digits 2; chr "-"; digits 4; RWordB]).
Proof.
  unfold digits, RRep, chr, ssn_classes. cbn [RCats repeat].
  repeat first [apply then_nil | apply then_cat | apply then_class].
Qed.

Lemma digit_word r : is_digit r = true -> is_word r = true.
Proof. unfold is_word, is_digit. by intros ->. Qed.

Lemma dash_not_word r : dash r = true -> is_word r = false.
Proof. intros <-%Z.eqb_eq. reflexivity. Qed.

Lemma dash_not_digit r : dash r = true -> is_digit r = true -> False.
Proof. intros <-%Z.eqb_eq. done. Qed.

Lemma ssn_disjoint pre1 w1 suf1 pre2 w2 suf2 :
  pre1 ++ w1 ++ suf1 = pre2 ++ w2 ++ suf2 -> ssn_at pre1 w1 suf1 -> ssn_at pre2 w2 suf2 ->
  (length pre1 < length pre2)%nat -> (length pre1 + length w1 <= length pre2)%nat.
Proof.
  intros Heq (Hw1 & _ & _) (Hw2 & Hb & _) Hlt.
  destruct (app_split_at _ _ _ _ Heq ltac:(lia)) as (gap & -> & Hg). clear Heq.
  rewrite length_app in *. pose proof (Forall2_length _ _ _ Hw1) as Hl1. simpl in Hl1.
  destruct (decide (length gap < 11)%nat) as [Hk|]; [exfalso|lia].
  assert (Hlast : gap <> []) by (intros ->; simpl in *; lia).
  unfold boundary in Hb. rewrite last_app in Hb. unfold ssn_classes in *.
  repeat match goal with
  | H : Forall2 _ (_ :: _) _ |- _ => inversion H; subst; clear H
  | H : Forall2 _ [] _ |- _ => inversion H; subst; clear H
  end.
  do 11 (try (destruct gap as [|? gap]; [|simpl in Hg; injection Hg as ? Hg; subst])).
  all: try done; simpl in *; try lia.
  all: try (injection Hg; intros; subst).
  all: try match goal with
  | Hd : dash ?r = true, Hi : is_digit ?r = true |- _ => exact (dash_not_digit _ Hd Hi)
  end.
  all: repeat match goal with
  | Hd : dash ?r = true, Hb : context [is_word ?r] |- _ => rewrite (dash_not_word r Hd) in Hb
  | Hd : is_digit ?r = true, Hb : context [is_word ?r] |- _ => rewrite (digit_word r Hd) in Hb
  end; done.
Qed.

Lemma ssn_rigid : rigid piiSSNRe ssn_at.
Proof.
  split.
  - intros pre l s'. change piiSSNRe with (RCat RWordB
      (RCats [digits 3; chr "-"; digits 2; chr "-"; digits 4; RWordB])).
    rewrite derives_cat. setoid_rewrite derives_wordb. unfold ssn_at, boundary. split.
    + intros (s1 & [Hb1 ->] & (w & suf & E & Hw & [Hb2 ->]%derives_wordb)%ssn_body).
      simpl in E. subst. exists w, suf. rewrite advance_at_split in *.
      unfold at_word_boundary in *. simpl in *. done.
    + intros (w & suf & -> & (Hw & Hb1 & Hb2) & ->). exists (at_split pre (w ++ suf)).
      split; [done|]. apply ssn_body. exists w, suf. rewrite advance_at_split.
      split_and!; [done..|]. by apply derives_wordb.
  - intros pre w suf (Hw & _) ->. inversion Hw.
  - intros pre1 w1 suf1 pre2 w2 suf2 Heq H1 H2. split; [|by eapply ssn_disjoint].
    intros Hl. apply app_inj_1 in Heq as [-> Heq]; [|done].
    destruct H1 as [Hw1%Forall2_length _], H2 as [Hw2%Forall2_length _].
    apply app_inj_1 in Heq as [-> _]; congruence.
Qed.

Lemma ssn_classes_ascii w :
  in_classes ssn_classes w -> Forall (fun rw => rw.1 < 0x80)%Z w.
Proof.
  assert (forall f, f ∈ ssn_classes -> forall r, f r = true -> (r < 0x80)%Z) as Hc.
  { assert (forall r, is_digit r = true -> (r < 0x80)%Z) as Hd.
    { unfold is_digit, in_rng. intros r ?. bool_to_prop. lia. }
    assert (forall r, dash r = true -> (r < 0x80)%Z) as Hh by (by intros r <-%Z.eqb_eq).
    unfold ssn_classes. intros f Hf. repeat (apply elem_of_cons in Hf as [->|Hf]; [done|]).
    by apply not_elem_of_nil in Hf. }
  generalize dependent ssn_classes. intros fs Hc. induction 1 as [|f rw fs w Hf Hw IH]; [constructor|].
  constructor; [apply (Hc f); [left|done]|]. apply IH. intros f' ?. apply Hc. by right.
Qed.

Lemma ToLower_digits `{UnicodeTables} (l : list Z) :
  Forall (fun r => is_digit r || dash r = true) l -> ToLower (bytes_str l) = bytes_str l.
Proof.
  intros Hl. assert (forall r, is_digit r || dash r = true -> (45 <= r <= 57)%Z) as Hr.
  { unfold is_digit, dash, in_rng. change (byteZ "-"%char) with 45%Z. intros r Hr.
    apply orb_true_iff in Hr as [Hr|Hr]; bool_to_prop; lia. }
  rewrite ToLower_ascii.
  - induction Hl as [|r l H1 _ IH]; simpl; [done|]. rewrite IH. f_equal.
    apply Hr in H1. unfold lower_byte, in_rng. rewrite byteZ_Zbyte by lia.
    case_match; [bool_to_prop; lia|done].
  - unfold isASCII. induction Hl as [|r l H1 _ IH]; simpl; [done|].
    apply Hr in H1. rewrite byteZ_Zbyte, IH by lia. rewrite andb_true_r. by apply Z.ltb_lt; lia.
Qed.

(** A bounded [ddd-dd-dddd] in the input that is no known placeholder. *)
Definition real_ssn (s : string) : Prop :=
  exists pre w suf, runes s = pre ++ w ++ suf /\ ssn_at pre w suf /\
    bytes_str w.*1 ∉ placeholderSSNs.

Lemma ssn_hits `{UnicodeTables} s :
  (exists m, m ∈ FindAllString piiSSNRe s /\ ssnIsPlaceholder (ToLower m) = false) <-> real_ssn s.
Proof.
  unfold real_ssn, FindAllString. setoid_rewrite list_elem_of_fmap.
  assert (Hlow : forall pre w suf, runes s = pre ++ w ++ suf -> ssn_at pre w suf ->
    ToLower (slice s (total_width pre) (total_width (pre ++ w))) = bytes_str w.*1).
  { intros pre w suf Hs (Hw & _).
    rewrite (slice_ascii pre w suf) by eauto using ssn_classes_ascii. apply ToLower_digits.
    apply Forall_fmap. unfold ssn_classes in Hw.
    repeat match goal with H : Forall2 _ _ _ |- _ => inversion H; subst; clear H end.
    repeat constructor; simpl; rewrite orb_true_iff; auto. }
  split.
  - intros (m & ([i s'] & -> & Hin) & Hp).
    apply (rigid_FindAll _ _ ssn_rigid) in Hin as (pre & w & suf & Hs & Hw & -> & ->).
    exists pre, w, suf. split_and!; [done..|]. simpl in Hp. rewrite (Hlow _ _ _ Hs Hw) in Hp.
    by apply bool_decide_eq_false in Hp.
  - intros (pre & w & suf & Hs & Hw & Hp). eexists. split.
    + eexists (total_width pre, at_split (pre ++ w) suf). split; [done|].
      apply (rigid_FindAll _ _ ssn_rigid). eauto 10.
    + simpl. rewrite (Hlow _ _ _ Hs Hw). by apply bool_decide_eq_false.
Qed.

(** *** Properties *)

(** C14. [tool-description-mentions-secret] fires exactly on the descriptions
    that contain, up to the case folding of Go's [(?i)] and between word
    boundaries, one of the twenty spellings of the listed terms; it fires
    once. *)
Theorem secret_findings `{UnicodeTables} (t : Tool) :
  (length (secrets_impl t) <= 1)%nat /\
  (secrets_impl t <> [] <->
   exists pre w suf, runes (Description t) = pre ++ w ++ suf /\
     map (fun rw => fold_rune rw.1) w ∈ map codes secret_words /\
     xorb (is_word_opt (fst <$> last pre)) (is_word_opt (fst <$> head (w ++ suf))) = true /\
     xorb (is_word_opt (fst <$> last (pre ++ w))) (is_word_opt (fst <$> head suf)) = true).
Proof.
  unfold secrets_impl, findSecretMention, FindStringIndex. set (s := Description t).
  assert (Hne : forall s1 s2, derives secretMentionRe s1 s2 -> (length (rest s2) < length (rest s1))%nat).
  { intros s1 s2. unfold secretMentionRe. cbn [RCats]. rewrite derives_cat.
    intros (s3 & [_ ->]%derives_wordb & (s4 & (w & l & E & Hw & ->)%acc_secret_terms & [_ ->]%derives_wordb)%derives_cat).
    simpl. rewrite E, length_app. destruct w; [exfalso|simpl; lia].
    by apply (bool_decide_unpack ([] ∉ map codes secret_words)). }
  assert (Hfind : is_Some (find_from secretMentionRe 0 None (runes s)) <->
    exists pre w suf, runes s = pre ++ w ++ suf /\ secret_at pre w suf).
  { rewrite find_from_is_Some. split.
    - intros (pre & l & s' & Hl & Hd).
      apply (secretMentionRe_derives pre l) in Hd as (w & suf & -> & Hw & _); [eauto|simpl|done].
      by destruct (last pre).
    - intros (pre & w & suf & Hl & Hw). exists pre, (w ++ suf), (advance w suf (advance pre (w ++ suf) (MState 0 None (runes s) []))).
      split; [done|]. apply (secretMentionRe_derives pre (w ++ suf)); [|done|eauto].
      simpl. by destruct (last pre). }
  split; [by repeat case_match; simpl; lia|].
  change (secrets_impl t <> [] <-> exists pre w suf, runes s = pre ++ w ++ suf /\ secret_at pre w suf).
  rewrite <- Hfind. unfold secrets_impl, findSecretMention, FindStringIndex. fold s.
  destruct (find_from secretMentionRe 0 None (runes s)) as [[i s']|] eqn:E; simpl;
    [|split; [done|by intros []]].
  split; [eauto|]. intros _.
  destruct (String.eqb_spec (ToLower (slice s i (off s'))) "") as [Heq|]; [|done].
  apply (proj1 (ToLower_eq_nil _)) in Heq. exfalso. revert Heq. apply slice_ne. by eapply find_slice_ne.
Qed.

(** C13. [scanForPII] walks the whole value: it answers [""] exactly when no
    string anywhere inside it is flagged, otherwise with the verdict on one of
    the strings inside; and a string holding a bounded [ddd-dd-dddd] that is
    not one of the four documented placeholders is always flagged, while a
    "real-looking ssn" verdict is given only for such a string. *)
Theorem pii_scan `{UnicodeTables} (v : any) :
  (scanForPII v = "" <-> forall s, leaf v s -> scanStringForPII s = "") /\
  (scanForPII v <> "" -> exists s, leaf v s /\ scanStringForPII s = scanForPII v) /\
  (forall s, leaf v s -> real_ssn s -> scanForPII v <> "") /\
  (forall s, scanStringForPII s = "real-looking ssn" -> real_ssn s).
Proof.
  assert (Hnil : scanForPII v = "" <-> forall s, leaf v s -> scanStringForPII s = "").
  { pose proof (scanForPII_spec v) as Hs. destruct (scanForPII v) as [|c h]; [done|].
    destruct Hs as (s & Hl & E). split; [done|]. intros Hall. by rewrite Hall in E. }
  split; [done|]. split.
  { intros Hne. pose proof (scanForPII_spec v) as Hs. by destruct (scanForPII v). }
  split.
  - intros s Hl Hssn Hv. pose proof (proj1 Hnil Hv s Hl) as Hs.
    apply ssn_hits in Hssn as (m & Hm & Hp).
    pose proof (scan_patterns_spec piiPatterns s) as Hspec. unfold scanStringForPII in Hs.
    rewrite Hs in Hspec.
    specialize (Hspec (mkPiiPattern "ssn" piiSSNRe (Some ssnIsPlaceholder)) m).
    unfold allowlisted in Hspec. simpl in Hspec. rewrite Hspec in Hp; [done| |done].
    right. left.
  - intros s Hs. apply ssn_hits. pose proof (scan_patterns_spec piiPatterns s) as Hspec.
    unfold scanStringForPII in Hs. rewrite Hs in Hspec.
    destruct Hspec as (p & m & Hp & Hk & Hm & Ha). unfold piiPatterns in Hp.
    repeat (apply elem_of_cons in Hp as [->|Hp]); [done|exists m; done|done|].
    by apply not_elem_of_nil in Hp.
Qed.

(** The witness: a nested value with a real-looking number. *)
Lemma pii_scan_witness :
  @scanForPII latin1_tables (VArr [VMap [("note", VStr "ssn 123-45-6788.")]]) <> "" /\
  exists s, leaf (VArr [VMap [("note", VStr "ssn 123-45-6788.")]]) s /\
    @scanStringForPII latin1_tables s = @scanForPII latin1_tables (VArr [VMap [("note", VStr "ssn 123-45-6788.")]]).
Proof.
  assert (@scanForPII latin1_tables (VArr [VMap [("note", VStr "ssn 123-45-6788.")]]) <> "") as Hne
    by (intros H; vm_compute in H; discriminate H).
  split; [exact Hne|].
  exact (proj1 (proj2 (@pii_scan latin1_tables (VArr [VMap [("note", VStr "ssn 123-45-6788.")]]))) Hne).
Defined.
