(* ===== verification/RuleSet.v ===== *)
(** [internal/rules] as a whole: the registry the package's [init] functions
    build, in the order Go runs them (the files of a package in name order),
    and what holds of the whole rule set. *)
From S2P Require Import Prelude GoNum GoStrings GoUnicode GoRegexp Model Registry.
From S2P Require Import RulesNaming RulesSchema RulesText.

Section rule_set.
Context `{UnicodeTables} `{MapIter} `{JSONSchema}.

(** collision.go, description.go, destructive.go, examples.go, filepath.go,
    network.go, pii.go, required_undefined.go, secrets.go, snakecase.go,
    static_vs_live.go. *)
Definition init_rules : list Rule := [
  collision_rule; description_rule; destructive_rule; examples_rule; filepath_rule;
  network_rule; pii_rule; required_rule; secrets_rule; snakecase_rule; static_vs_live_rule].

(** [v2.All()] once the imports of main.go are initialised. *)
Definition registered : list Rule :=
  match register_all [] init_rules with Ok rs => All rs | Err _ => [] end.

(** The phases a rule takes part in. *)
Definition phases (r : Rule) : nat * nat * nat :=
  let one {A} (o : option A) : nat := if is_nil o then 0%nat else 1%nat in
  (one (Implementation r), one (ProjectImplementation r), one (ComparisonImplementation r)).

Lemma init_rules_ok : register_all [] init_rules = Ok init_rules.
Proof. reflexivity. Qed.

Lemma registered_eq : registered = init_rules.
Proof. reflexivity. Qed.

Lemma registered_wf : registry_wf registered.
Proof.
  rewrite registered_eq.
  destruct (register_all_wf init_rules [] init_rules registry_wf_nil init_rules_ok) as [Hwf _].
  exact Hwf.
Qed.

(** A rule's IDs appear in the findings exactly when its callback reports. *)
Lemma fires_iff rules t id :
  id ∈ map RuleID (Run rules t) <->
  exists r, r ∈ rules /\ ID r = id /\ default (fun _ => []) (Implementation r) t <> [].
Proof.
  rewrite Run_concat, elem_of_map. setoid_rewrite list_elem_of_bind.
  split.
  - intros (f & -> & r & (m & -> & Hm)%elem_of_map & Hr). exists r. split_and!; [done..|].
    intros E. by rewrite E in Hm; apply not_elem_of_nil in Hm.
  - intros (r & Hr & <- & Hne). destruct (default _ (Implementation r) t) as [|m l] eqn:E; [done|].
    exists (finding_of r t m). split; [done|]. exists r. split; [|done]. rewrite E. left.
Qed.

(** Each per-tool rule is silent on both of two equivalent tools or on none. *)
Lemma rule_nil_equiv t1 t2 r :
  tool_wf t1 -> tool_wf t2 -> tool_equiv t1 t2 -> r ∈ init_rules ->
  default (fun _ => []) (Implementation r) t1 = [] ->
  default (fun _ => []) (Implementation r) t2 = [].
Proof.
  intros Hwf1 Hwf2 Heq Hr. pose proof Heq as (Hn & Hd & _ & _ & _).
  assert (Heq' : tool_equiv t2 t1) by (by symmetry).
  unfold init_rules in Hr.
  repeat (apply elem_of_cons in Hr as [->|Hr]); simpl.
  - done.
  - unfold description_impl. by rewrite Hd.
  - unfold destructive_impl. by rewrite Hn, (hasConfirmationField_equiv t1 t2).
  - by rewrite (examples_impl_nil_equiv t1 t2).
  - rewrite !filepath_impl_scan. apply scan_loop_nil_equiv. by apply properties_of_equiv.
  - rewrite !network_impl_scan. apply scan_loop_nil_equiv. by apply properties_of_equiv.
  - by rewrite (pii_impl_nil_equiv t1 t2).
  - by rewrite (required_impl_equiv t1 t2).
  - unfold secrets_impl. by rewrite Hd.
  - unfold snakecase_impl. by rewrite Hn.
  - done.
  - by apply not_elem_of_nil in Hr.
Qed.
End rule_set.

(** *** Properties *)

(** The [init] functions of the rule package go through without a panic,
    in file order: the registry holds the eleven rules, with distinct IDs,
    each with a callback for exactly one phase, and with a severity and a fix
    level among the declared constants. *)
Theorem rule_set_registers `{UnicodeTables} `{MapIter} `{JSONSchema} :
  register_all [] init_rules = Ok init_rules /\ registry_wf registered /\
  map ID registered =
    ["tool-name-collision"; "tool-description-empty-or-truncated";
     "destructive-tool-not-gated"; "tool-example-fails-schema"; "file-tool-no-path-confinement";
     "network-tool-no-allowlist"; "tool-example-uses-real-pii";
     "tool-schema-required-references-undefined-property"; "tool-description-mentions-secret";
     "tool-name-not-snake-case"; "tool-static-vs-live-mismatch"] /\
  Forall (fun r => RSeverity r ∈ [SevError; SevWarning; SevInfo] /\
                   Fix r ∈ [FixNone; FixCosmetic; FixIdiomatic; FixSemantic] /\
                   phases r ∈ [(1, 0, 0); (0, 1, 0); (0, 0, 1)]%nat) registered.
Proof.
  split; [apply init_rules_ok|]. split; [apply registered_wf|]. split; [done|].
  rewrite registered_eq. unfold init_rules. repeat constructor; by apply bool_decide_unpack.
Qed.

(** C6. The verdict of the per-tool phase does not depend on Go's map iteration
    order: two decodings of one tool, equal up to that order, make the same
    rules fire. *)
Theorem run_order_independent `{UnicodeTables} `{MapIter} `{JSONSchema} (t1 t2 : Tool)
  (Hwf1 : tool_wf t1) (Hwf2 : tool_wf t2) (Heq : tool_equiv t1 t2) (id : string) :
  id ∈ map RuleID (Run registered t1) <-> id ∈ map RuleID (Run registered t2).
Proof.
  rewrite !fires_iff, registered_eq. split; intros (r & Hr & Hid & Hne); exists r;
    (split_and!; [done..|]); contradict Hne;
    by eapply rule_nil_equiv; [..|exact Hne].
Qed.

(** The witness: a validator that knows the keyword [type: string] only, and a
    tool whose schema lists its two properties in either order. *)
Definition string_type_only : JSONSchema.
Proof.
  refine {| Schema := any; Compile := Some;
    Validate := fun s v =>
      match (as_map s ≫= (fun m => get m "type")) ≫= as_str, as_str v with
      | Some "string", None => Some (OtherError "want string")
      | _, _ => None
      end;
    ve_Error := fun ve => let 'mkVE text _ := ve in text |}.
  intros s v1 v2 _ Heq. by rewrite (as_str_Proper _ _ Heq).
Defined.

Definition demo_tool (props : amap) : Tool :=
  mkTool "delete_page" "Delete a page of the public site." (Some [("properties", VMap props)]) "" 0.

Definition demo_props : amap :=
  [("url", VMap [("type", VStr "string")]); ("uri", VMap [("type", VStr "string")])].

Lemma demo_wf : tool_wf (demo_tool demo_props) /\ tool_wf (demo_tool (reverse demo_props)).
Proof.
  assert (Hw : forall s, any_wf (VStr s)) by constructor.
  split; repeat constructor; simpl; set_solver.
Qed.

Lemma demo_equiv : tool_equiv (demo_tool demo_props) (demo_tool (reverse demo_props)).
Proof.
  do 4 (split; [done|]). apply (eqv_map _ [("properties", VMap (reverse demo_props))]); [|done].
  constructor; [|constructor]. split; [done|].
  apply (eqv_map _ demo_props); [|apply Permutation_swap].
  repeat constructor; reflexivity.
Qed.

Lemma run_order_independent_witness :
  "network-tool-no-allowlist" ∈
    map RuleID (Run (@registered latin1_tables canonical_iter string_type_only)
                  (demo_tool (reverse demo_props))).
Proof.
  apply (proj1 (@run_order_independent latin1_tables canonical_iter string_type_only
    (demo_tool demo_props) (demo_tool (reverse demo_props))
    (proj1 demo_wf) (proj2 demo_wf) demo_equiv "network-tool-no-allowlist")).
  apply (bool_decide_unpack _). vm_compute. exact I.
Defined.

(** The text of the finding does depend on the order: the URL rule names
    whichever property the loop meets first. *)
Lemma network_message_order_dependent :
  @network_impl latin1_tables (demo_tool demo_props) = [network_msg "url"] /\
  @network_impl latin1_tables (demo_tool (reverse demo_props)) = [network_msg "uri"].
Proof. by vm_compute. Qed.
