(* ===== verification/Output.v ===== *)
(** [internal/output]: the text, JSON and SARIF writers.

    A writer function produces the sequence of [Write] calls it makes; an
    [io.Writer] is a state and a function that takes one of them and may
    report an error, after which nothing more is written. *)
From S2P Require Import Prelude GoNum GoStrings GoUnicode Model GoJson Registry.
Open Scope Z_scope.

(** ** The writer *)

Section writer.
Context {W E : Type} (write : W -> string -> W * option E).

(** [if _, err := fmt.Fprintf(w, ...); err != nil { return err }], in a
    loop. *)
Fixpoint write_all (w : W) (chunks : list string) : W * option E :=
  match chunks with
  | [] => (w, None)
  | c :: chunks =>
    match write w c with
    | (w, None) => write_all w chunks
    | (w, Some err) => (w, Some err)
    end
  end.

Lemma write_all_app w l1 l2 :
  write_all w (l1 ++ l2) =
    match write_all w l1 with
    | (w, None) => write_all w l2
    | (w, Some err) => (w, Some err)
    end.
Proof.
  revert w. induction l1 as [|c l1 IH]; intros w; simpl; [by destruct (write_all w l2)|].
  destruct (write w c) as [w' [err|]]; [done|apply IH].
Qed.
End writer.

(** ** text.go *)

Definition string_ltb (s t : string) : bool := negb (String.leb t s).

(** The [less] of [sort.SliceStable]. *)
Definition finding_less (f g : Finding) : bool :=
  if negb (ToolName f =? ToolName g)%string then string_ltb (ToolName f) (ToolName g)
  else string_ltb (RuleID f) (RuleID g).

Definition finding_leb (f g : Finding) : bool := negb (finding_less g f).

Section text.
Context `{UnicodeTables}.

Definition finding_loc (f : Finding) : string :=
  let loc := FSourceFile f in
  let loc := if (loc =? "")%string then "<source>" else loc in
  if FSourceLine f >? 0 then loc +:+ ":" +:+ Itoa (FSourceLine f) else loc.

Definition finding_line (f : Finding) : string :=
  finding_loc f +:+ ": " +:+ FSeverity f +:+ " [" +:+ RuleID f +:+ "] tool="
  +:+ Quote (ToolName f) +:+ " " +:+ Message f +:+ newline.

Definition WriteText (findings : list Finding) : list string :=
  let sorted := isort finding_leb findings in
  map finding_line sorted.
End text.

Definition finding_json (f : Finding) : json :=
  JObj [("RuleID", JStr (RuleID f)); ("Severity", JStr (FSeverity f));
        ("Category", JStr (FCategory f)); ("Message", JStr (Message f));
        ("ToolName", JStr (ToolName f)); ("SourceFile", JStr (FSourceFile f));
        ("SourceLine", JNum (Itoa (FSourceLine f)))].

Definition WriteJSON (findings : list Finding) : list string :=
  [Encode (JArr (map finding_json findings))].

(** ** rules.go *)

Definition rule_leb (r1 r2 : Rule) : bool := String.leb (ID r1) (ID r2).

(** [%-ns]: padding counts runes. *)
Definition pad (n : nat) (s : string) : string :=
  s +:+ String.concat "" (repeat " " (n - length (runes s))).

Definition rule_line (r : Rule) : string :=
  let fix_ := if (Fix r =? "")%string then "-" else Fix r in
  pad 40 (ID r) +:+ "  " +:+ pad 8 (RSeverity r) +:+ "  " +:+ pad 25 (RCategory r)
  +:+ "  fix=" +:+ pad 9 fix_ +:+ "  " +:+ RDescription r +:+ newline.

Definition WriteRulesText (rules : list Rule) : list string :=
  let sorted := isort rule_leb rules in
  map rule_line sorted.

(** A field with [omitempty]. *)
Definition omitempty (k : string) (empty : bool) (v : json) : list (string * json) :=
  if empty then [] else [(k, v)].

Definition rule_json (r : Rule) : json :=
  JObj ([("id", JStr (ID r)); ("category", JStr (RCategory r)); ("severity", JStr (RSeverity r));
         ("description", JStr (RDescription r))]
        ++ omitempty "fix" (Fix r =? "")%string (JStr (Fix r))
        ++ omitempty "projectScope" (is_nil (ProjectImplementation r)) (JBool true)).

Definition WriteRulesJSON (rules : list Rule) : list string :=
  let sorted := isort rule_leb rules in
  [Encode (JArr (map rule_json sorted))].

(** ** sarif.go *)

Definition sarifVersion : string := "2.1.0".
Definition sarifInformationURI : string := "https://github.com/kaeawc/mcpcheck".

Definition severityToSARIFLevel (s : string) : string :=
  if (s =? SevError)%string then "error"
  else if (s =? SevWarning)%string then "warning"
  else if (s =? SevInfo)%string then "note"
  else "none".

Record sarifRuleDescr := mkRuleDescr {
  sr_ID : string; sr_ShortDescription : string; sr_Level : string;
  sr_Category : string; sr_Fix : option string   (* the [Properties] map *)
}.

Definition sarif_rule_descr (r : Rule) : sarifRuleDescr := {|
  sr_ID := ID r; sr_ShortDescription := RDescription r;
  sr_Level := severityToSARIFLevel (RSeverity r);
  sr_Category := RCategory r;
  sr_Fix := if (Fix r =? FixNone)%string then None else Some (Fix r) |}.

Definition descr_leb (d1 d2 : sarifRuleDescr) : bool := String.leb (sr_ID d1) (sr_ID d2).

Definition buildSARIFRules (all : list Rule) : list sarifRuleDescr :=
  isort descr_leb (map sarif_rule_descr all).

(** A location: the artifact's URI, and the start line when there is a
    region. *)
Record sarifResult := mkResult {
  res_RuleID : string; res_Level : string; res_Message : string;
  res_Locations : list (string * option Z)
}.

Definition sarif_result (f : Finding) : sarifResult := {|
  res_RuleID := RuleID f; res_Level := severityToSARIFLevel (FSeverity f);
  res_Message := Message f;
  res_Locations :=
    if (FSourceFile f =? "")%string then []
    else [(FSourceFile f, if FSourceLine f >? 0 then Some (FSourceLine f) else None)] |}.

Definition buildSARIFResults (findings : list Finding) : list sarifResult :=
  map sarif_result findings.

Definition empty_str (s : string) : bool := (s =? "")%string.

Definition text_json (s : string) : json := JObj [("text", JStr s)].

Definition descr_json (d : sarifRuleDescr) : json :=
  JObj [("id", JStr (sr_ID d)); ("shortDescription", text_json (sr_ShortDescription d));
        ("defaultConfiguration", JObj (omitempty "level" (empty_str (sr_Level d)) (JStr (sr_Level d))));
        ("properties", JObj (("category", JStr (sr_Category d)) ::
           match sr_Fix d with None => [] | Some f => [("fix", JStr f)] end))].

Definition location_json (l : string * option Z) : json :=
  JObj [("physicalLocation", JObj (("artifactLocation", JObj [("uri", JStr l.1)]) ::
    match l.2 with
    | None => []
    | Some n => [("region", JObj (omitempty "startLine" (n =? 0) (JNum (Itoa n))))]
    end))].

Definition result_json (r : sarifResult) : json :=
  JObj ([("ruleId", JStr (res_RuleID r))]
        ++ omitempty "level" (empty_str (res_Level r)) (JStr (res_Level r))
        ++ [("message", text_json (res_Message r))]
        ++ omitempty "locations" (match res_Locations r with [] => true | _ => false end)
             (JArr (map location_json (res_Locations r)))).

Definition sarif_log (all : list Rule) (findings : list Finding) : json :=
  let rules := buildSARIFRules all in
  JObj [("$schema", JStr "https://json.schemastore.org/sarif-2.1.0.json");
        ("version", JStr sarifVersion);
        ("runs", JArr [
           JObj [("tool", JObj [("driver", JObj (
                    [("name", JStr "mcpcheck");
                     ("informationUri", JStr sarifInformationURI)]
                    ++ omitempty "rules" (match rules with [] => true | _ => false end)
                         (JArr (map descr_json rules))))]);
                 ("results", JArr (map result_json (buildSARIFResults findings)))]])].

Definition WriteSARIF (all : list Rule) (findings : list Finding) : list string :=
  [Encode (sarif_log all findings)].

(** ** The order of the text output *)

Lemma finding_leb_eq f g :
  finding_leb f g =
    if (ToolName f =? ToolName g)%string then String.leb (RuleID f) (RuleID g)
    else String.leb (ToolName f) (ToolName g).
Proof.
  unfold finding_leb, finding_less, string_ltb. rewrite (String.eqb_sym (ToolName g)).
  by destruct (_ =? _)%string; simpl; rewrite negb_involutive.
Qed.

Lemma finding_leb_total f g : finding_leb f g = true \/ finding_leb g f = true.
Proof.
  rewrite !finding_leb_eq, (String.eqb_sym (ToolName g)).
  destruct (_ =? _)%string; apply string_leb_total.
Qed.

Lemma finding_leb_trans f g h :
  finding_leb f g = true -> finding_leb g h = true -> finding_leb f h = true.
Proof.
  rewrite !finding_leb_eq.
  destruct (String.eqb_spec (ToolName f) (ToolName g)) as [E1|N1],
    (String.eqb_spec (ToolName g) (ToolName h)) as [E2|N2]; intros H1 H2.
  - rewrite E1, E2, String.eqb_refl. by eapply string_leb_trans.
  - rewrite E1. rewrite (proj2 (String.eqb_neq _ _)) by done. done.
  - rewrite <- E2. rewrite (proj2 (String.eqb_neq _ _)) by done. done.
  - destruct (String.eqb_spec (ToolName f) (ToolName h)) as [E|N].
    + exfalso. apply N1. apply string_leb_antisym; [done|]. by rewrite E.
    + by eapply string_leb_trans.
Qed.

#[export] Hint Resolve finding_leb_total finding_leb_trans : go.

Lemma rule_leb_total r1 r2 : rule_leb r1 r2 = true \/ rule_leb r2 r1 = true.
Proof. apply string_leb_total. Qed.

Lemma rule_leb_trans r1 r2 r3 : rule_leb r1 r2 = true -> rule_leb r2 r3 = true -> rule_leb r1 r3 = true.
Proof. apply string_leb_trans. Qed.

#[export] Hint Resolve rule_leb_total rule_leb_trans : go.

Lemma NoDup_map_eq {A B} (f : A -> B) (l : list A) x y :
  NoDup (map f l) -> x ∈ l -> y ∈ l -> f x = f y -> x = y.
Proof.
  intros Hnd. induction l as [|z l IH]; [set_solver|]. simpl in Hnd.
  apply NoDup_cons in Hnd as [Hz Hnd]. rewrite !elem_of_cons. intros [->|Hx] [->|Hy] E; auto.
  - exfalso. apply Hz. rewrite E. apply elem_of_map. eauto.
  - exfalso. apply Hz. rewrite <- E. apply elem_of_map. eauto.
Qed.

(** Rules with distinct IDs are written in one order, whatever the order of
    registration. *)
Lemma sort_rules_perm rules1 rules2 :
  NoDup (map ID rules1) -> rules1 ≡ₚ rules2 -> isort rule_leb rules1 = isort rule_leb rules2.
Proof.
  intros Hnd. apply isort_proper; eauto with go.
  intros x y Hx Hy H1 H2. eapply NoDup_map_eq; [done..|]. by apply string_leb_antisym.
Qed.

(** ** Reading the JSON output back *)

Definition read_finding (v : json) : option Finding :=
  rid ← jfield "RuleID" v ≫= jstr; sev ← jfield "Severity" v ≫= jstr;
  cat ← jfield "Category" v ≫= jstr; msg ← jfield "Message" v ≫= jstr;
  tool ← jfield "ToolName" v ≫= jstr; file ← jfield "SourceFile" v ≫= jstr;
  line ← jfield "SourceLine" v ≫= jint;
  Some (mkFinding rid sev cat msg tool file line).

Definition read_findings (v : json) : option (list Finding) := jarr v ≫= mapM read_finding.

Definition clean_finding (f : Finding) : Finding :=
  mkFinding (clean (RuleID f)) (clean (FSeverity f)) (clean (FCategory f)) (clean (Message f))
    (clean (ToolName f)) (clean (FSourceFile f)) (FSourceLine f).

(** Every text field of the finding is valid UTF-8. *)
Definition finding_utf8 (f : Finding) : Prop := clean_finding f = f.

Lemma clean_finding_json f : json_clean (finding_json f) = finding_json (clean_finding f).
Proof. reflexivity. Qed.

Lemma read_finding_json f : int64_ok (FSourceLine f) -> read_finding (finding_json f) = Some f.
Proof.
  intros Hl. unfold read_finding, finding_json. cbn -[ParseInt Itoa].
  rewrite ParseInt_Itoa by (unfold int64_ok, minInt64, maxInt64 in Hl; lia). simpl. by destruct f.
Qed.

Lemma nums_ok_finding f : nums_ok (finding_json f).
Proof. repeat constructor. apply num_ok_Itoa. Qed.

(** ** Reading the rule listing back *)

Record rule_row := mkRow {
  row_id : string; row_category : string; row_severity : string; row_description : string;
  row_fix : string; row_project : bool }.

Definition rule_row_of (r : Rule) : rule_row :=
  mkRow (clean (ID r)) (clean (RCategory r)) (clean (RSeverity r)) (clean (RDescription r)) (clean (Fix r))
    (negb (is_nil (ProjectImplementation r))).

(** A member that is left out stands for the zero value. *)
Definition read_rule (v : json) : option rule_row :=
  id ← jfield "id" v ≫= jstr; cat ← jfield "category" v ≫= jstr;
  sev ← jfield "severity" v ≫= jstr; desc ← jfield "description" v ≫= jstr;
  fix_ ← match jfield "fix" v with None => Some "" | Some f => jstr f end;
  Some (mkRow id cat sev desc fix_ (match jfield "projectScope" v with Some (JBool b) => b | _ => false end)).

Lemma read_rule_json r : read_rule (json_clean (rule_json r)) = Some (rule_row_of r).
Proof.
  unfold rule_json, rule_row_of, omitempty. destruct (String.eqb_spec (Fix r) "") as [->|Hf];
    destruct (is_nil (ProjectImplementation r)); reflexivity.
Qed.

Lemma nums_ok_rule r : nums_ok (rule_json r).
Proof. unfold rule_json, omitempty. destruct (Fix r =? "")%string, (is_nil _); repeat constructor. Qed.

(** The listing parses, and has every rule once, by its ID. *)
Lemma rules_json_read rules : exists doc, parse_json (str_concat (WriteRulesJSON rules)) = Some doc /\
  (jarr doc ≫= mapM read_rule) = Some (map rule_row_of (isort rule_leb rules)).
Proof.
  exists (json_clean (JArr (map rule_json (isort rule_leb rules)))). unfold WriteRulesJSON. split.
  - simpl. rewrite str_app_nil_r. apply Encode_parses.
    + constructor. apply Forall_map_const, nums_ok_rule.
    + cbn [depth]. assert (max_list (map depth (map rule_json (isort rule_leb rules))) <= 1); [|unfold maxNestingDepth; lia].
      apply max_list_const; [|lia]. intros r. unfold rule_json, omitempty. destruct (Fix r =? "")%string, (is_nil _); cbn; lia.
  - cbn [json_clean jarr mbind option_bind]. induction (isort rule_leb rules) as [|r rs IH]; [done|].
    cbn [map mapM]. by rewrite read_rule_json, IH.
Qed.

(** *** Properties *)

(** [WriteText] prints one line per finding, in the stable order by tool name
    and then rule: a permutation of the findings, sorted, in which the
    findings of one tool and one rule keep their relative order. A writer that
    fails stops the output after the line it refused. *)
Theorem text_output `{UnicodeTables} (findings : list Finding) :
  exists sorted,
    WriteText findings = map finding_line sorted /\
    sorted ≡ₚ findings /\
    StronglySorted (fun f g => ToolName f = ToolName g /\ String.leb (RuleID f) (RuleID g) = true
                               \/ ToolName f <> ToolName g /\
                                  String.leb (ToolName f) (ToolName g) = true) sorted /\
    (forall tool rule,
      filter (fun f => ToolName f = tool /\ RuleID f = rule) sorted =
      filter (fun f => ToolName f = tool /\ RuleID f = rule) findings).
Proof.
  exists (isort finding_leb findings). split; [done|]. split; [apply isort_perm|]. split.
  - assert (sorted_by finding_leb (isort finding_leb findings)) as Hs
      by (apply isort_sorted; eauto with go).
    induction Hs as [|f l Hs IH Hf]; constructor; [done|].
    eapply Forall_impl; [done|]. simpl. intros g. rewrite finding_leb_eq.
    destruct (String.eqb_spec (ToolName f) (ToolName g)); auto.
  - intros tool rule. apply isort_stable. intros f g [Ht Hr] [Ht' Hr'].
    rewrite finding_leb_eq, Ht, Ht', Hr, Hr', String.eqb_refl. by destruct (string_leb_total rule rule).
Qed.

Lemma json_findings_parse (findings : list Finding) :
  parse_json (str_concat (WriteJSON findings)) = Some (json_clean (JArr (map finding_json findings))).
Proof.
  unfold WriteJSON. simpl. rewrite str_app_nil_r. apply Encode_parses.
  - constructor. apply Forall_map_const, nums_ok_finding.
  - cbn [depth]. assert (max_list (map depth (map finding_json findings)) <= 1); [|unfold maxNestingDepth; lia].
    apply max_list_const; [by intros|lia].
Qed.

Lemma json_findings_decode (findings : list Finding) :
  Forall (fun f => int64_ok (FSourceLine f)) findings ->
  read_findings (json_clean (JArr (map finding_json findings))) = Some (map clean_finding findings).
Proof.
  unfold read_findings. cbn [json_clean jarr mbind option_bind].
  induction 1 as [|f l Hf Hl IH]; [done|].
  cbn [map mapM]. rewrite clean_finding_json, read_finding_json by done.
  cbn [mbind option_bind]. by rewrite IH.
Qed.

(** C11. The JSON output is a document from which the findings can be read back,
    in order and field by field; a byte that is not UTF-8 comes back as
    U+FFFD. *)
Theorem json_output_roundtrip (findings : list Finding)
  (Hlines : Forall (fun f => int64_ok (FSourceLine f)) findings) :
  exists doc, parse_json (str_concat (WriteJSON findings)) = Some doc /\
    read_findings doc = Some (map clean_finding findings).
Proof.
  exists (json_clean (JArr (map finding_json findings))).
  split; [apply json_findings_parse|by apply json_findings_decode].
Qed.

Definition demo_finding : Finding :=
  mkFinding "tool-name-not-snake-case" "warning" "spec-compliance" "tool <b> is bad" "fetchUser"
    "server.py" 42.

Lemma json_output_roundtrip_witness :
  exists doc, parse_json (str_concat (WriteJSON [demo_finding])) = Some doc /\
    read_findings doc = Some [demo_finding].
Proof.
  apply (json_output_roundtrip [demo_finding]).
  constructor; [by apply (bool_decide_unpack _)|constructor].
Defined.

(** *** The SARIF log *)

Definition read_location (v : json) : option (string * option Z) :=
  p ← jfield "physicalLocation" v;
  uri ← (jfield "artifactLocation" p ≫= jfield "uri") ≫= jstr;
  match jfield "region" p with
  | None => Some (uri, None)
  | Some r => n ← jfield "startLine" r ≫= jint; Some (uri, Some n)
  end.

Definition read_result (v : json) : option sarifResult :=
  rid ← jfield "ruleId" v ≫= jstr; level ← jfield "level" v ≫= jstr;
  text ← (jfield "message" v ≫= jfield "text") ≫= jstr;
  locs ← match jfield "locations" v with None => Some [] | Some l => jarr l ≫= mapM read_location end;
  Some (mkResult rid level text locs).

Definition run_of (v : json) : option json := (jfield "runs" v ≫= jarr) ≫= head.
Definition read_results (v : json) : option (list sarifResult) :=
  ((run_of v ≫= jfield "results") ≫= jarr) ≫= mapM read_result.
Definition read_driver_rules (v : json) : option (list string) :=
  (((run_of v ≫= jfield "tool") ≫= jfield "driver") ≫= jfield "rules") ≫=
    (fun l => jarr l ≫= mapM (fun d => jfield "id" d ≫= jstr)).

Definition clean_result (r : sarifResult) : sarifResult :=
  mkResult (clean (res_RuleID r)) (clean (res_Level r)) (clean (res_Message r))
    (map (fun l => (clean l.1, l.2)) (res_Locations r)).

Lemma mapM_map_Some {A B} (f : A -> option B) (g : A -> json) (h : json -> option B) l :
  Forall (fun a => h (g a) = f a) l -> mapM h (map g l) = mapM f l.
Proof.
  induction 1 as [|a l Ha Hl IH]; [done|]. cbn [map mapM]. rewrite Ha.
  destruct (f a); [|done]. cbn [mbind option_bind]. by rewrite IH.
Qed.

Lemma mapM_Some_map {A B} (f : A -> B) l : mapM (fun a => Some (f a)) l = Some (map f l).
Proof. induction l as [|a l IH]; [done|]. cbn [map mapM mbind option_bind]. by rewrite IH. Qed.

Lemma level_ne s : empty_str (severityToSARIFLevel s) = false.
Proof. unfold severityToSARIFLevel. by repeat case_match. Qed.

Lemma clean_level s : clean (severityToSARIFLevel s) = severityToSARIFLevel s.
Proof. unfold severityToSARIFLevel. by repeat case_match. Qed.

Lemma read_result_json f :
  int64_ok (FSourceLine f) ->
  read_result (json_clean (result_json (sarif_result f))) = Some (clean_result (sarif_result f)).
Proof.
  intros Hl. unfold result_json, sarif_result, clean_result, read_result, omitempty.
  cbn [res_RuleID res_Level res_Message res_Locations]. rewrite level_ne.
  destruct (FSourceFile f =? "")%string.
  { clean_keys. cbn -[clean severityToSARIFLevel]. by rewrite clean_level. }
  destruct (Z.gtb_spec (FSourceLine f) 0) as [Hp|Hp]; clean_keys; unfold location_json, omitempty.
  - cbn [fst snd]. rewrite (proj2 (Z.eqb_neq (FSourceLine f) 0)) by lia. clean_keys.
    cbn -[clean severityToSARIFLevel ParseInt Itoa].
    rewrite ParseInt_Itoa by (unfold int64_ok, minInt64, maxInt64 in Hl; lia). done.
  - clean_keys. by cbn -[clean severityToSARIFLevel ParseInt Itoa].
Qed.

Lemma mapM_read_ids (l : list sarifRuleDescr) :
  mapM (fun d => jfield "id" d ≫= jstr) (map json_clean (map descr_json l))
  = Some (map (fun d => clean (sr_ID d)) l).
Proof. rewrite map_map. rewrite (mapM_map_Some (fun d => Some (clean (sr_ID d)))); [apply mapM_Some_map|].
  by apply Forall_true.
Qed.

Lemma depth_sarif_log all findings : depth (sarif_log all findings) <= 20.
Proof.
  assert (Hr : max_list (map depth (map result_json (buildSARIFResults findings))) <= 10).
  { apply max_list_const; [|lia]. intros r. unfold result_json, omitempty.
    assert (Hl : max_list (map depth (map location_json (res_Locations r))) <= 4).
    { apply max_list_const; [|lia]. intros [u [n|]]; unfold location_json, omitempty; cbn;
        [destruct (n =? 0)|]; simpl; lia. }
    destruct (res_Locations r), (empty_str (res_Level r)); cbn -[location_json] in *; lia. }
  assert (Hd : max_list (map depth (map descr_json (buildSARIFRules all))) <= 10).
  { apply max_list_const; [|lia]. intros d. unfold descr_json, omitempty.
    destruct (empty_str (sr_Level d)), (sr_Fix d); simpl; lia. }
  unfold sarif_log, omitempty. destruct (buildSARIFRules all); cbn -[result_json descr_json] in *; lia.
Qed.

Lemma nums_ok_app m1 m2 :
  Forall (fun e : string * json => nums_ok e.2) m1 -> Forall (fun e => nums_ok e.2) m2 ->
  Forall (fun e => nums_ok e.2) (m1 ++ m2).
Proof. intros. by apply Forall_app. Qed.

Lemma nums_ok_omitempty k b v : nums_ok v -> Forall (fun e : string * json => nums_ok e.2) (omitempty k b v).
Proof. intros. unfold omitempty. destruct b; repeat constructor. done. Qed.

Lemma nums_ok_sarif_log all findings : nums_ok (sarif_log all findings).
Proof.
  assert (Hr : forall r, nums_ok (result_json r)).
  { intros r. unfold result_json. constructor. constructor; [constructor|].
    apply nums_ok_app; [apply nums_ok_omitempty; constructor|]. apply nums_ok_app; [repeat constructor|].
    apply nums_ok_omitempty. constructor. apply Forall_map_const. intros [u n]. unfold location_json.
    destruct n; repeat constructor. cbn. apply nums_ok_omitempty. constructor. apply num_ok_Itoa. }
  assert (Hd : forall d, nums_ok (descr_json d)).
  { intros d. unfold descr_json. destruct (sr_Fix d); repeat constructor; cbn;
      apply nums_ok_omitempty; constructor. }
  unfold sarif_log. repeat constructor; cbn.
  - apply nums_ok_omitempty. constructor. apply Forall_map_const, Hd.
  - apply Forall_map_const, Hr.
Qed.



(** The rule listings do not depend on the order of registration: two
    registries with the same rules, under distinct IDs, are listed the same. *)
Theorem rules_output_order_independent (rules1 rules2 : list Rule)
  (Hnd : NoDup (map ID rules1)) (Hp : rules1 ≡ₚ rules2) :
  WriteRulesText rules1 = WriteRulesText rules2 /\
  WriteRulesJSON rules1 = WriteRulesJSON rules2 /\
  length (WriteRulesText rules1) = length rules1.
Proof.
  unfold WriteRulesText, WriteRulesJSON. rewrite (sort_rules_perm rules1 rules2) by done.
  split_and!; [done..|]. rewrite length_map, length_isort. by rewrite Hp.
Qed.

Lemma rules_output_order_independent_witness :
  WriteRulesText [demo_rule "a"; demo_rule "b"] = WriteRulesText [demo_rule "b"; demo_rule "a"].
Proof.
  apply (rules_output_order_independent [demo_rule "a"; demo_rule "b"] [demo_rule "b"; demo_rule "a"]).
  - by apply (bool_decide_unpack (NoDup ["a"; "b"])).
  - apply Permutation_swap.
Defined.
