(* ===== verification/IntakeJson.v ===== *)
(** [internal/scanner/jsonintake.go]: the tools/list intake, on top of
    [Unmarshal] into the structs it declares.

    A decoded slice keeps the elements its backing array still holds beyond
    its length, because [Unmarshal] decodes over them when a document names
    the field twice. *)
From S2P Require Import Prelude GoStrings GoUnicode Model GoJson RulesSchema.
Open Scope Z_scope.

(** ** [Unmarshal] into structs *)

(** A member name selects the field with the same name up to case folding. *)
Definition fold_key (s : string) : list Z := map (fun rw => fold_rune rw.1) (runes s).
Definition names_field (key field : string) : bool := bool_decide (fold_key key = fold_key field).

(** Into a [string]; [null] leaves it as it is. *)
Definition string_into (old : string) (v : json) : option string :=
  match v with JNull => Some old | JStr s => Some s | _ => None end.

(** Into a [map[string]any]; members are added to the map that is there. *)
Definition map_into (old : option amap) (v : json) : option (option amap) :=
  match v with
  | JNull => Some None
  | JObj m => Some <$> members_into m (default [] old)
  | _ => None
  end.

(** [toolJSON] *)
Record toolJSON := mkToolJSON { tj_Name : string; tj_Description : string; tj_InputSchema : option amap }.

Definition zero_toolJSON : toolJSON := mkToolJSON "" "" None.

Definition tool_field (t : toolJSON) (e : string * json) : option toolJSON :=
  if names_field e.1 "name" then
    s ← string_into (tj_Name t) e.2; Some (mkToolJSON s (tj_Description t) (tj_InputSchema t))
  else if names_field e.1 "description" then
    s ← string_into (tj_Description t) e.2; Some (mkToolJSON (tj_Name t) s (tj_InputSchema t))
  else if names_field e.1 "inputSchema" then
    m ← map_into (tj_InputSchema t) e.2; Some (mkToolJSON (tj_Name t) (tj_Description t) m)
  else Some t.

Definition tool_into (old : toolJSON) (v : json) : option toolJSON :=
  match v with
  | JNull => Some old
  | JObj m => foldl (fun t e => t ← t; tool_field t e) (Some old) m
  | _ => None
  end.

(** [[]toolJSON]: [None] is nil. *)
Record slice := mkSlice { backing : list toolJSON; visible : nat }.

Fixpoint elems_into (b : list toolJSON) (l : list json) : option (list toolJSON) :=
  match l with
  | [] => Some b
  | v :: l =>
    t ← tool_into (default zero_toolJSON (head b)) v;
    rest ← elems_into (tail b) l; Some (t :: rest)
  end.

Definition slice_into (old : option slice) (v : json) : option (option slice) :=
  match v with
  | JNull => Some None
  | JArr [] => Some (Some (mkSlice [] 0))
  | JArr l => b ← elems_into (from_option backing [] old) l; Some (Some (mkSlice b (length l)))
  | _ => None
  end.

Definition slice_elems (s : option slice) : list toolJSON :=
  match s with None => [] | Some s => take (visible s) (backing s) end.

(** [var envelope struct { Tools []toolJSON }] *)
Definition envelope_into (v : json) : option (option slice) :=
  match v with
  | JNull => Some None
  | JObj m =>
    foldl (fun s e => s ← s; if names_field e.1 "tools" then slice_into s e.2 else Some s)
      (Some None) m
  | _ => None
  end.

(** ** The intake *)

(** [json.Marshal] of the decoded tool and [json.Unmarshal] of the result:
    valid UTF-8 comes back as it is, a nil map as nil, and a map with its keys
    in sorted order. *)
Definition convertTool (t : toolJSON) : Tool :=
  mkTool (clean (tj_Name t)) (clean (tj_Description t))
    ((fun m => canonical_map m) <$> tj_InputSchema t) "" 0.

Definition convertTools (ts : list toolJSON) : list Tool := map convertTool ts.

Definition parse_error : string :=
  "expected {" +:+ dquote +:+ "tools" +:+ dquote +:+ ": [...]} or a [...] array of tool objects".

Definition parseToolsJSON (raw : string) : result string (list Tool) :=
  match parse_json raw ≫= envelope_into with
  | Some (Some tools) => Ok (convertTools (slice_elems (Some tools)))
  | _ =>
    match parse_json raw ≫= slice_into None with
    | Some bare => Ok (convertTools (slice_elems bare))
    | None => Err parse_error
    end
  end.

(** [os.ReadFile] gives the content or an error text. *)
Definition LoadToolsJSON (path : string) (file : result string string) : result string ToolSet :=
  match file with
  | Err e => Err ("read " +:+ path +:+ ": " +:+ e)
  | Ok raw =>
    match parseToolsJSON raw with
    | Err e => Err ("parse " +:+ path +:+ ": " +:+ e)
    | Ok tools => Ok (mkToolSet tools path)
    end
  end.

(** ** Well-formedness of what is loaded *)

Lemma canonical_wf v : any_wf v -> any_wf (canonical v).
Proof.
  induction v as [| | | |l IH|m IH] using any_ind_nested; intros Hwf; simpl; try done.
  - inversion Hwf as [| | | |? Hl|]; subst. constructor. apply Forall_fmap.
    rewrite Forall_forall in *. intros v Hv. by apply IH, Hl.
  - apply any_wf_map_inv in Hwf as [Hnd Hf]. constructor.
    + rewrite isort_perm.
      assert ((map (fun e => (e.1, canonical e.2)) m).*1 = m.*1) as -> by
        (clear; induction m; csimpl; congruence).
      done.
    + rewrite isort_perm. apply Forall_fmap. rewrite Forall_forall in *. intros e He.
      by apply IH, Hf.
Qed.

Lemma canonical_map_wf m : any_wf (VMap m) -> any_wf (VMap (canonical_map m)).
Proof. apply (canonical_wf (VMap m)). Qed.

Definition tj_wf (t : toolJSON) : Prop :=
  match tj_InputSchema t with None => True | Some m => any_wf (VMap m) end.

Lemma tool_field_wf t e t' : tj_wf t -> tool_field t e = Some t' -> tj_wf t'.
Proof.
  unfold tool_field, tj_wf. intros Hwf.
  destruct (names_field e.1 "name"); [|destruct (names_field e.1 "description");
    [|destruct (names_field e.1 "inputSchema")]].
  - destruct (string_into _ _); [|done]. by intros [= <-].
  - destruct (string_into _ _); [|done]. by intros [= <-].
  - destruct (map_into (tj_InputSchema t) e.2) as [o|] eqn:E; [|done]. intros [= <-]. simpl.
    unfold map_into in E. destruct (e.2) as [| | | | |m]; simplify_eq; [done|].
    destruct (members_into m _) as [m'|] eqn:Em; [|done]. simpl in E. simplify_eq.
    eapply members_into_wf; [|..|exact Em].
    + rewrite Forall_forall. intros e' _ v. apply to_any_wf.
    + destruct (tj_InputSchema t); [done|]. constructor; constructor.
  - by intros [= <-].
Qed.

Lemma tool_into_wf t v t' : tj_wf t -> tool_into t v = Some t' -> tj_wf t'.
Proof.
  destruct v as [| | | | |m]; try done; simpl; intros Hwf; [by intros [= <-]|].
  revert t Hwf. induction m as [|e m IH]; intros t Hwf; simpl; [by intros [= <-]|].
  destruct (tool_field t e) as [t1|] eqn:E.
  - apply IH. by eapply tool_field_wf.
  - clear. induction m; simpl; done.
Qed.

Lemma elems_into_wf b l b' : Forall tj_wf b -> elems_into b l = Some b' -> Forall tj_wf b'.
Proof.
  revert b b'. induction l as [|v l IH]; intros b b' Hb; simpl; [by intros [= <-]|].
  destruct (tool_into _ v) as [t|] eqn:Et; [|done]. simpl.
  destruct (elems_into (tail b) l) as [r|] eqn:Er; [|done]. intros [= <-].
  constructor.
  - eapply tool_into_wf; [|exact Et]. destruct Hb; done.
  - eapply IH; [|exact Er]. by destruct Hb.
Qed.

Lemma slice_into_wf o v s :
  Forall tj_wf (from_option backing [] o) -> slice_into o v = Some s ->
  Forall tj_wf (from_option backing [] s).
Proof.
  intros Ho. destruct v as [| | | |[|v l]|]; try done; cbn [slice_into];
    [intros [= <-]; constructor..|].
  destruct (elems_into _ (v :: l)) as [b|] eqn:E; [|done]. intros [= <-].
  by eapply elems_into_wf.
Qed.

Lemma envelope_into_wf v s : envelope_into v = Some s -> Forall tj_wf (from_option backing [] s).
Proof.
  destruct v as [| | | | |m]; try done; simpl; [intros [= <-]; constructor|].
  assert (Hacc : Forall tj_wf (from_option backing [] (@None slice))) by constructor.
  revert Hacc. generalize (@None slice). induction m as [|e m IH]; intros o Ho; simpl; [by intros [= <-]|].
  destruct (names_field e.1 "tools"); [|by apply IH].
  destruct (slice_into o e.2) as [o'|] eqn:E; [|clear; by induction m].
  apply IH. by eapply slice_into_wf.
Qed.

Definition loaded_wf (t : Tool) : Prop := tool_wf t /\ SourceFile t = "" /\ SourceLine t = 0.

Lemma convertTools_wf s :
  Forall tj_wf (from_option backing [] s) -> Forall loaded_wf (convertTools (slice_elems s)).
Proof.
  intros Hs. unfold convertTools. apply Forall_fmap.
  assert (Hs' : Forall tj_wf (slice_elems s)) by (destruct s; simpl in *; [by apply Forall_take|done]).
  eapply Forall_impl; [exact Hs'|]. intros t Ht. split; [|done].
  unfold tool_wf, convertTool. simpl. unfold tj_wf in Ht.
  destruct (tj_InputSchema t); [|done]. simpl. by apply canonical_map_wf.
Qed.

(** ** The canonical documents *)

Record tool_doc := mkToolDoc { td_name : string; td_description : string; td_schema : option (list (string * json)) }.

Definition tool_doc_json (t : tool_doc) : json :=
  JObj ([("name", JStr (td_name t)); ("description", JStr (td_description t))]
        ++ match td_schema t with None => [] | Some m => [("inputSchema", JObj m)] end).

(** The tool a document describes, [m] the decoded schema. *)
Definition tool_of_doc (t : tool_doc) (m : option amap) : Tool :=
  mkTool (clean (td_name t)) (clean (td_description t)) (canonical_map <$> m) "" 0.

(** [m] is what the schema of [t] decodes to. *)
Definition schema_decodes (t : tool_doc) (m : option amap) : Prop :=
  match td_schema t, m with
  | None, None => True
  | Some s, Some m =>
    nums_ok (JObj s) /\ depth (JObj s) <= 9000 /\
    members_into (map (fun e => (clean e.1, json_clean e.2)) s) [] = Some m
  | _, _ => False
  end.

Lemma names_field_refl k : names_field k k = true.
Proof. by apply bool_decide_eq_true. Qed.

Lemma tool_into_doc t m :
  schema_decodes t m ->
  tool_into zero_toolJSON (json_clean (tool_doc_json t))
  = Some (mkToolJSON (clean (td_name t)) (clean (td_description t)) m).
Proof.
  assert (Hname : forall old s, tool_field old ("name", JStr s)
    = Some (mkToolJSON s (tj_Description old) (tj_InputSchema old))) by done.
  assert (Hdesc : forall old s, tool_field old ("description", JStr s)
    = Some (mkToolJSON (tj_Name old) s (tj_InputSchema old))).
  { intros. unfold tool_field. cbn [fst snd].
    change (names_field "description" "name") with false. by rewrite names_field_refl. }
  assert (Hschema : forall old s, tool_field old ("inputSchema", JObj s)
    = (m ← members_into s (default [] (tj_InputSchema old));
       Some (mkToolJSON (tj_Name old) (tj_Description old) (Some m)))).
  { intros. unfold tool_field. cbn [fst snd].
    change (names_field "inputSchema" "name") with false.
    change (names_field "inputSchema" "description") with false. rewrite names_field_refl.
    cbn [map_into]. by destruct (members_into _ _). }
  unfold schema_decodes, tool_doc_json. destruct t as [n d s].
  cbn [td_schema td_name td_description]. intros Hm.
  destruct s as [s|], m as [m|]; try done; clean_keys; cbn [tool_into foldl];
    cbn [mbind option_bind]; rewrite Hname; cbn [mbind option_bind]; rewrite Hdesc.
  destruct Hm as (_ & _ & Hm). cbn [mbind option_bind]. rewrite Hschema.
  cbn [tj_InputSchema default tj_Name tj_Description zero_toolJSON]. by rewrite Hm.
Qed.

Lemma elems_into_docs docs ms :
  Forall2 schema_decodes docs ms ->
  elems_into [] (map json_clean (map tool_doc_json docs))
  = Some (zip_with (fun t m => mkToolJSON (clean (td_name t)) (clean (td_description t)) m) docs ms).
Proof.
  induction 1 as [|t m docs ms Ht _ IH]; [done|]. cbn [map elems_into head tail].
  cbn [from_option]. rewrite (tool_into_doc _ _ Ht). cbn [mbind option_bind]. by rewrite IH.
Qed.

Lemma slice_into_docs docs ms :
  Forall2 schema_decodes docs ms ->
  exists s, slice_into None (JArr (map json_clean (map tool_doc_json docs))) = Some (Some s) /\
    slice_elems (Some s) = zip_with (fun t m => mkToolJSON (clean (td_name t)) (clean (td_description t)) m) docs ms.
Proof.
  intros Hd. pose proof (elems_into_docs _ _ Hd) as He. pose proof (Forall2_length _ _ _ Hd) as Hlen.
  destruct docs as [|t docs].
  - exists (mkSlice [] 0). by destruct ms.
  - cbn [map] in *. unfold slice_into. cbn [from_option]. rewrite He. cbn [mbind option_bind].
    eexists. split; [done|]. cbn [slice_elems visible backing].
    apply take_ge. rewrite length_zip_with. cbn [length] in *. rewrite !length_map. lia.
Qed.

Lemma convert_docs docs ms :
  convertTools (zip_with (fun t m => mkToolJSON (clean (td_name t)) (clean (td_description t)) m) docs ms)
  = zip_with tool_of_doc docs ms.
Proof.
  unfold convertTools. revert ms. induction docs as [|t docs IH]; intros [|m ms]; [done..|].
  simpl. unfold convertTool, tool_of_doc at 1. simpl. by rewrite !clean_idemp, IH.
Qed.

Lemma docs_ok docs ms :
  Forall2 schema_decodes docs ms ->
  nums_ok (JArr (map tool_doc_json docs)) /\ depth (JArr (map tool_doc_json docs)) <= 9002.
Proof.
  intros Hd.
  assert (Forall (fun t => nums_ok (tool_doc_json t) /\ depth (tool_doc_json t) <= 9001) docs) as Hall.
  { induction Hd as [|t m docs ms Ht _ IH]; constructor; [|done]. unfold schema_decodes in Ht.
    unfold tool_doc_json. destruct (td_schema t) as [s|]; [|split; [repeat constructor|simpl; lia]].
    destruct m; [|done]. destruct Ht as (Hn & Hs & _). split.
    { constructor. do 2 (constructor; [constructor|]). constructor; [exact Hn|constructor]. }
    cbn [depth app map snd max_list] in *. lia. }
  split.
  - constructor. apply Forall_fmap. eapply Forall_impl; [exact Hall|]. by intros t [? _].
  - cbn [depth]. assert (max_list (map depth (map tool_doc_json docs)) <= 9001); [|lia].
    clear Hd ms. induction Hall as [|t docs [_ Ht] _ IH]; simpl in *; lia.
Qed.

(** The two document shapes, decoded. *)
Lemma intake_of_doc raw docs ms :
  Forall2 schema_decodes docs ms ->
  (parse_json raw = Some (json_clean (JObj [("tools", JArr (map tool_doc_json docs))])) \/
   parse_json raw = Some (json_clean (JArr (map tool_doc_json docs)))) ->
  parseToolsJSON raw = Ok (zip_with tool_of_doc docs ms).
Proof.
  intros Hd Hraw. destruct (slice_into_docs _ _ Hd) as (s & Hs & He).
  unfold parseToolsJSON. destruct Hraw as [-> | ->].
  - clean_keys. cbn [mbind option_bind envelope_into foldl fst snd].
    rewrite names_field_refl, Hs. rewrite He. by rewrite convert_docs.
  - cbn [json_clean mbind option_bind envelope_into]. rewrite Hs, He. by rewrite convert_docs.
Qed.

(** The two shapes, indented or not. *)
Definition printings (docs : list tool_doc) : list string :=
  let list := JArr (map tool_doc_json docs) in
  [Encode (JObj [("tools", list)]); Marshal (JObj [("tools", list)]); Encode list; Marshal list].

Lemma intake_of_printed docs ms raw :
  Forall2 schema_decodes docs ms -> raw ∈ printings docs ->
  parseToolsJSON raw = Ok (zip_with tool_of_doc docs ms).
Proof.
  intros Hd Hraw. destruct (docs_ok _ _ Hd) as [Hn Hdep].
  assert (nums_ok (JObj [("tools", JArr (map tool_doc_json docs))])) as Hn' by
    (constructor; constructor; [exact Hn|constructor]).
  assert (depth (JObj [("tools", JArr (map tool_doc_json docs))]) <= maxNestingDepth) as Hdep'.
  { unfold maxNestingDepth. cbn [depth map snd max_list] in *. lia. }
  assert (depth (JArr (map tool_doc_json docs)) <= maxNestingDepth) as Hdep2 by (unfold maxNestingDepth; lia).
  apply (intake_of_doc _ _ _ Hd). unfold printings in Hraw. rewrite !elem_of_cons in Hraw.
  destruct Hraw as [->|[->|[->|[->|[]%not_elem_of_nil]]]];
    [left; by apply Encode_parses|left; by apply Marshal_parses|right; by apply Encode_parses|right; by apply Marshal_parses].
Qed.

(** *** Properties *)

(** C10. The JSON intake. Whatever the file holds, the tools it yields are well
    formed and carry no source coordinates. And it reads both documented
    shapes back: from [{"tools": [...]}] and from a bare [[...]], indented or
    not, it returns exactly the tools listed, in order, each with its name,
    description and decoded schema. *)
Theorem json_intake :
  (forall raw tools, parseToolsJSON raw = Ok tools -> Forall loaded_wf tools) /\
  (forall docs ms, Forall2 schema_decodes docs ms ->
    Forall (fun raw => parseToolsJSON raw = Ok (zip_with tool_of_doc docs ms)) (printings docs)).
Proof.
  split.
  - intros raw tools. unfold parseToolsJSON. destruct (parse_json raw) as [v|]; [|done].
    cbn [mbind option_bind].
    assert (Hbare : match slice_into None v with
      | Some bare => Ok (convertTools (slice_elems bare)) | None => Err parse_error end = Ok tools ->
      Forall loaded_wf tools).
    { destruct (slice_into None v) as [s|] eqn:E; [|done]. intros [= <-].
      apply (convertTools_wf s). eapply slice_into_wf; [|exact E]. constructor. }
    destruct (envelope_into v) as [[s|]|] eqn:E; [|done..]. intros [= <-].
    apply (convertTools_wf (Some s)). by apply (envelope_into_wf v).
  - intros docs ms Hd. apply Forall_forall. intros raw. by apply intake_of_printed.
Qed.

Definition demo_doc : tool_doc :=
  mkToolDoc "search" "Search the docs." (Some [("type", JStr "object")]).

Lemma json_intake_witness :
  parseToolsJSON (Marshal (JArr [tool_doc_json demo_doc])) =
    Ok [mkTool "search" "Search the docs." (Some [("type", VStr "object")]) "" 0] /\
  Forall loaded_wf [mkTool "search" "Search the docs." (Some [("type", VStr "object")]) "" 0].
Proof.
  assert (parseToolsJSON (Marshal (JArr [tool_doc_json demo_doc])) =
    Ok [mkTool "search" "Search the docs." (Some [("type", VStr "object")]) "" 0]) as E.
  { assert (Forall2 schema_decodes [demo_doc] [Some [("type", VStr "object")]]) as Hd.
    { constructor; [|constructor]. split; [repeat constructor|]. split; [by apply Z.leb_le|done]. }
    pose proof (proj2 json_intake _ _ Hd) as Hall. rewrite Forall_forall in Hall.
    apply Hall. by do 3 right; left. }
  split; [exact E|]. by apply (proj1 json_intake (Marshal (JArr [tool_doc_json demo_doc]))).
Defined.

(** The degenerate documents: [null] is an empty bare list, and an envelope
    whose [tools] is [null] is no list at all. *)
Example intake_null : parseToolsJSON "null" = Ok []. Proof. reflexivity. Qed.
Example intake_null_tools :
  parseToolsJSON (Marshal (JObj [("tools", JNull)])) = Err parse_error.
Proof. reflexivity. Qed.
