(* ===== verification/GoPath.v ===== *)
(** [path] and [filepath] on Unix: the functions the Go code uses. *)
From S2P Require Import Prelude GoStrings.

Definition slash : ascii := Zbyte 47.
Definition dot : ascii := Zbyte 46.

(** One component of [Clean]: [out] holds the components kept so far, the
    last first. *)
Definition clean_step (rooted : bool) (out : list string) (c : string) : list string :=
  if (c =? "")%string || (c =? ".")%string then out
  else if (c =? "..")%string then
    match out with
    | last :: out' => if (last =? "..")%string then c :: out else out'
    | [] => if rooted then [] else [c]
    end
  else c :: out.

Definition clean_components (rooted : bool) (cs : list string) : list string :=
  reverse (foldl (clean_step rooted) [] cs).

(** [path.Clean], [filepath.Clean] *)
Definition Clean (p : string) : string :=
  let rooted := HasPrefix p "/" in
  let joined := Join (clean_components rooted (SplitByte p slash)) "/" in
  if rooted then "/" +:+ joined
  else if (joined =? "")%string then "." else joined.

(** [path.Join], [filepath.Join] of two elements. *)
Definition JoinPath (a b : string) : string :=
  if (a =? "")%string then if (b =? "")%string then "" else Clean b
  else Clean (a +:+ "/" +:+ b).

(** The part from the last occurrence of [c] on, and the part after it. *)
Fixpoint from_last (c : ascii) (s : string) : option string :=
  match s with
  | EmptyString => None
  | String d s' =>
    match from_last c s' with
    | Some t => Some t
    | None => if Ascii.eqb d c then Some s else None
    end
  end.

Definition after_last (c : ascii) (s : string) : string :=
  match from_last c s with Some t => str_drop 1 t | None => s end.

(** [filepath.Ext]: from the last dot of the last element. *)
Definition Ext (p : string) : string :=
  default "" (from_last dot (after_last slash p)).

(** The name of the file a path denotes ([fs.DirEntry.Name] of a walk's
    root). *)
Fixpoint trim_slashes (s : string) : string :=
  match s with
  | EmptyString => EmptyString
  | String c s' =>
    match trim_slashes s' with
    | EmptyString => if Ascii.eqb c slash then EmptyString else String c EmptyString
    | t => String c t
    end
  end.

Definition basename (p : string) : string :=
  match trim_slashes p with
  | EmptyString => p
  | t => after_last slash t
  end.

(** The part up to the last occurrence of [c], with it. *)
Fixpoint up_to_last (c : ascii) (s : string) : string :=
  match s with
  | EmptyString => EmptyString
  | String d s' =>
    match up_to_last c s' with
    | EmptyString => if Ascii.eqb d c then String d EmptyString else EmptyString
    | t => String d t
    end
  end.

(** [filepath.Dir] *)
Definition Dir (p : string) : string := Clean (up_to_last slash p).

Section path_tests.
Example Dir_t1 : Dir "a/b/c" = "a/b". Proof. reflexivity. Qed.
Example Dir_t2 : Dir "a" = ".". Proof. reflexivity. Qed.
Example Dir_t3 : Dir "/a" = "/". Proof. reflexivity. Qed.
Example Clean_t1 : Clean "./a//b/../c/" = "a/c". Proof. reflexivity. Qed.
Example Clean_t2 : Clean "/../a" = "/a". Proof. reflexivity. Qed.
Example Clean_t3 : Clean "../../x/.." = "../..". Proof. reflexivity. Qed.
Example Clean_t4 : Clean "" = ".". Proof. reflexivity. Qed.
Example Ext_t1 : Ext "a.b/c.test.ts" = ".ts". Proof. reflexivity. Qed.
Example Ext_t2 : Ext "a.b/c" = "". Proof. reflexivity. Qed.
Example basename_t : basename "src/dist/" = "dist". Proof. reflexivity. Qed.
End path_tests.
