(* ===== verification/PathLaws.v ===== *)
(** Clean paths are the texts of lists of components: [Clean] reads any path
    as such a list and prints it, and on clean paths [Dir] and [basename] take
    the list apart. *)
From S2P Require Import Prelude GoStrings GoPath.

Definition no_slash (c : string) : bool := str_forall (fun d => negb (Ascii.eqb d slash)) c.

Definition comp_ok (c : string) : Prop := c <> "" /\ c <> "." /\ no_slash c = true.

(** The components kept by [Clean], the last first: ".." only leads, and only
    in a relative path. *)
Fixpoint out_ok (rooted : bool) (out : list string) : Prop :=
  match out with
  | [] => True
  | c :: out => comp_ok c /\ (c = ".." -> rooted = false /\ Forall (fun d => d = "..") out) /\ out_ok rooted out
  end.

Definition path : Type := bool * list string.
Definition path_ok (p : path) : Prop := out_ok p.1 (reverse p.2).

Definition parse (s : string) : path :=
  (HasPrefix s "/", clean_components (HasPrefix s "/") (SplitByte s slash)).

Definition render (p : path) : string :=
  if p.1 : bool then "/" +:+ Join p.2 "/"
  else match p.2 with [] => "." | _ => Join p.2 "/" end.

Lemma clean_step_ok r out c : no_slash c = true -> out_ok r out -> out_ok r (clean_step r out c).
Proof.
  intros Hc Hout. unfold clean_step.
  destruct (String.eqb_spec c "") as [->|He]; [done|]. destruct (String.eqb_spec c ".") as [->|Hd]; [done|]. simpl.
  destruct (String.eqb_spec c "..") as [->|Hdd]; [|split; [by split_and!|split; [done|done]]].
  destruct out as [|l out].
  - destruct r; [done|]. repeat split; done.
  - destruct (String.eqb_spec l "..") as [->|]; [|apply Hout]. pose proof Hout as (? & [-> Hall] & ?); [done|].
    split; [by split_and!|]. split; [|done]. intros _. split; [done|]. by constructor.
Qed.

Lemma foldl_clean_ok r cs out : Forall (fun c => no_slash c = true) cs -> out_ok r out ->
  out_ok r (foldl (clean_step r) out cs).
Proof.
  intros Hcs. revert out. induction Hcs as [|c cs Hc Hcs IH]; intros out Hout; simpl; [done|].
  by apply IH, clean_step_ok.
Qed.

Lemma clean_step_cons r out c : out_ok r (c :: out) -> clean_step r out c = c :: out.
Proof.
  intros ((He & Hd & _) & Hdd & Hout). unfold clean_step.
  destruct (String.eqb_spec c "") as [->|_]; [done|]. destruct (String.eqb_spec c ".") as [->|_]; [done|]. simpl.
  destruct (String.eqb_spec c "..") as [->|]; [|done]. destruct (Hdd eq_refl) as [-> Hall].
  destruct out as [|l out]; [done|]. inversion Hall; subst. by rewrite String.eqb_refl.
Qed.

Lemma foldl_clean_id r out : out_ok r out -> foldl (clean_step r) [] (reverse out) = out.
Proof.
  induction out as [|c out IH]; intros Hout; [done|]. rewrite reverse_cons, foldl_app, IH by apply Hout.
  simpl. by apply clean_step_cons.
Qed.

Lemma clean_components_id r cs : out_ok r (reverse cs) -> clean_components r cs = cs.
Proof.
  intros Hcs. unfold clean_components. rewrite <- (reverse_involutive cs) at 1. rewrite foldl_clean_id by done.
  apply reverse_involutive.
Qed.

(** An empty component at either end is dropped. *)
Lemma clean_components_nil r cs : clean_components r ("" :: cs) = clean_components r cs.
Proof. done. Qed.

Lemma clean_components_snoc r cs : clean_components r (cs ++ [""]) = clean_components r cs.
Proof. unfold clean_components. by rewrite foldl_app. Qed.

Lemma SplitByte_no_slash s : Forall (fun c => no_slash c = true) (SplitByte s slash).
Proof.
  induction s as [|d s IH]; simpl; [by repeat constructor|].
  destruct (Ascii.eqb d slash) eqn:E; [by constructor|].
  destruct (SplitByte s slash) as [|h t]; [by repeat constructor; unfold no_slash; simpl; rewrite E|].
  inversion IH; subst. constructor; [|done]. unfold no_slash in *. simpl. by rewrite E.
Qed.

Lemma parse_ok s : path_ok (parse s).
Proof.
  unfold path_ok, parse, clean_components. simpl. rewrite reverse_involutive.
  apply foldl_clean_ok; [apply SplitByte_no_slash|done].
Qed.

Lemma out_ok_comps r out : out_ok r out -> Forall comp_ok out.
Proof. induction out as [|c out IH]; intros Hout; constructor; [apply Hout|apply IH, Hout]. Qed.

Lemma path_ok_comps r cs : path_ok (r, cs) -> Forall comp_ok cs.
Proof. intros H%out_ok_comps. by rewrite <- Forall_reverse. Qed.

Lemma Join_nonempty cs : Forall comp_ok cs -> cs <> [] -> exists d t, Join cs "/" = String d t /\ Ascii.eqb d slash = false.
Proof.
  intros [|c cs' (Hc & _ & Hs) _] Hne; [done|]. destruct c as [|d c]; [done|]. unfold no_slash in Hs. simpl in Hs.
  apply andb_true_iff in Hs as [Hs%negb_true_iff _]. destruct cs'; simpl; eauto.
Qed.

Lemma SplitByte_comps cs : Forall comp_ok cs -> cs <> [] -> SplitByte (Join cs "/") slash = cs.
Proof.
  induction 1 as [|c cs (_ & _ & Hc) Hcs IH]; intros Hne; [done|]. destruct cs as [|c' cs].
  - by apply SplitByte_one.
  - change (Join (c :: c' :: cs) "/") with (c +:+ String slash (Join (c' :: cs) "/")).
    rewrite SplitByte_app by done. f_equal. by apply IH.
Qed.

Lemma Clean_render s : Clean s = render (parse s).
Proof.
  unfold Clean, render, parse. simpl. destruct (HasPrefix s "/") eqn:Hr; [done|].
  pose proof (path_ok_comps _ _ (parse_ok s)) as Hcs. rewrite Hr in Hcs.
  destruct (clean_components false (SplitByte s slash)) as [|c cs] eqn:E; [done|].
  destruct (Join_nonempty _ Hcs ltac:(done)) as (d & t & -> & _). done.
Qed.

Lemma parse_rooted s : parse (String slash s) = (true, clean_components true (SplitByte s slash)).
Proof.
  unfold parse. assert (HasPrefix (String slash s) "/" = true) as ->; [|done].
  apply HasPrefix_spec. by exists s.
Qed.

Lemma parse_relative d s : Ascii.eqb d slash = false ->
  parse (String d s) = (false, clean_components false (SplitByte (String d s) slash)).
Proof.
  intros Hd. unfold parse. assert (HasPrefix (String d s) "/" = false) as ->; [|done].
  apply not_true_iff_false. rewrite HasPrefix_spec. intros [t [= -> _]]. by rewrite Ascii.eqb_refl in Hd.
Qed.

Lemma parse_render p : path_ok p -> parse (render p) = p.
Proof.
  destruct p as [r cs]. intros Hp. pose proof (path_ok_comps _ _ Hp) as Hcs. unfold path_ok in Hp. simpl in Hp.
  unfold render. destruct r; cbn [fst snd].
  - change ("/" +:+ Join cs "/") with (String slash (Join cs "/")). rewrite parse_rooted. f_equal.
    destruct cs as [|c cs]; [done|]. rewrite SplitByte_comps by done. by apply clean_components_id.
  - destruct cs as [|c cs]; [done|]. destruct (Join_nonempty _ Hcs ltac:(done)) as (d & t & E & Hd).
    rewrite E, parse_relative, <- E, SplitByte_comps by done. f_equal. by apply clean_components_id.
Qed.

Lemma Clean_idemp s : Clean (Clean s) = Clean s.
Proof. rewrite !Clean_render, parse_render; [done|apply parse_ok]. Qed.

Lemma render_inj p q : path_ok p -> path_ok q -> render p = render q -> p = q.
Proof. intros Hp Hq He. by rewrite <- (parse_render p Hp), He, parse_render. Qed.

Lemma path_ok_parent r cs c : path_ok (r, cs ++ [c]) -> path_ok (r, cs) /\ comp_ok c.
Proof. unfold path_ok. simpl. rewrite reverse_app. simpl. tauto. Qed.

(** ** [Dir] and [basename] of a clean path *)

Lemma up_to_last_none c s : str_forall (fun d => negb (Ascii.eqb d c)) s = true -> up_to_last c s = "".
Proof. induction s as [|d s IH]; simpl; [done|]. by intros [->%negb_true_iff ->%IH]%andb_true_iff. Qed.

Lemma up_to_last_app c s t : str_forall (fun d => negb (Ascii.eqb d c)) t = true ->
  up_to_last c (s +:+ String c t) = s +:+ String c "".
Proof.
  intros Ht. induction s as [|d s IH]; simpl; [by rewrite (up_to_last_none _ _ Ht), Ascii.eqb_refl|].
  rewrite IH. by destruct s.
Qed.

Lemma Join_snoc cs c : cs <> [] -> Join (cs ++ [c]) "/" = Join cs "/" +:+ "/" +:+ c.
Proof.
  induction cs as [|d cs IH]; intros Hne; [done|]. destruct cs as [|e cs]; [done|].
  change ((d :: e :: cs) ++ [c]) with (d :: (e :: cs) ++ [c]).
  change (Join (d :: (e :: cs) ++ [c]) "/") with (d +:+ "/" +:+ Join ((e :: cs) ++ [c]) "/").
  rewrite IH by done. change (Join (d :: e :: cs) "/") with (d +:+ "/" +:+ Join (e :: cs) "/").
  by rewrite !str_app_assoc.
Qed.

Lemma SplitByte_comps_slash cs : Forall comp_ok cs -> cs <> [] ->
  SplitByte (Join cs "/" +:+ "/") slash = cs ++ [""].
Proof.
  induction 1 as [|c cs (_ & _ & Hc) Hcs IH]; intros Hne; [done|]. destruct cs as [|c' cs].
  - by apply (SplitByte_app c "" slash).
  - change (Join (c :: c' :: cs) "/") with (c +:+ String slash (Join (c' :: cs) "/")).
    rewrite str_app_assoc. change (String slash ?s +:+ ?t) with (String slash (s +:+ t)).
    rewrite SplitByte_app by done. simpl app. f_equal. by apply IH.
Qed.

Lemma Dir_render r cs c : path_ok (r, cs ++ [c]) -> Dir (render (r, cs ++ [c])) = render (r, cs).
Proof.
  intros Hp. destruct (path_ok_parent _ _ _ Hp) as [Hcs (_ & _ & Hc)]. pose proof (path_ok_comps _ _ Hcs) as Hall.
  unfold Dir, render. cbn [fst snd]. destruct cs as [|d cs].
  - destruct r; cbn [app Join].
    + change ("/" +:+ c) with ("" +:+ String slash c). by rewrite up_to_last_app.
    + by rewrite up_to_last_none.
  - set (ds := d :: cs) in *. assert (ds <> []) as Hne by done.
    assert (match ds ++ [c] with [] => "." | _ :: _ => Join (ds ++ [c]) "/" end = Join (ds ++ [c]) "/") as -> by done.
    rewrite Join_snoc by done. change ("/" +:+ c) with (String slash c). destruct r.
    + rewrite <- str_app_assoc, up_to_last_app, str_app_assoc by done.
      change ("/" +:+ ?s) with (String slash s). rewrite Clean_render, parse_rooted, SplitByte_comps_slash by done.
      rewrite clean_components_snoc. by rewrite clean_components_id by apply Hcs.
    + rewrite up_to_last_app by done. rewrite Clean_render.
      destruct (Join_nonempty ds Hall Hne) as (e & t & E & He). change (String slash "") with "/".
      rewrite E. change (String e t +:+ "/") with (String e (t +:+ "/")). rewrite parse_relative by done.
      change (String e (t +:+ "/")) with (String e t +:+ "/"). rewrite <- E, SplitByte_comps_slash by done.
      rewrite clean_components_snoc. by rewrite clean_components_id by apply Hcs.
Qed.

(** The text of a path is its parent's text and the name of its last
    component. *)
Lemma Dir_root r : Dir (render (r, [])) = render (r, []).
Proof. by destruct r. Qed.
