(* ===== verification/IntakeTS.v ===== *)
(** [internal/scanner/tsintake.go]: the TypeScript extractor, on an in-memory
    source. Walking a directory is in [Dispatch]. *)
From S2P Require Import Prelude GoStrings GoUnicode GoRegexp GoPath Model.

Definition is_ident_start (r : Z) : bool := is_alpha r || (r =? 95)%Z || (r =? 36)%Z.
Definition is_ident (r : Z) : bool := is_ident_start r || is_digit r.
Definition is_quote (r : Z) : bool := (r =? 34)%Z || (r =? 39)%Z.
Definition not_quote (r : Z) : bool := negb (is_quote r).

(** A word boundary, an identifier, [.tool], an opening parenthesis, a quoted
    string, a comma, a quoted string; white space between the tokens. *)
Definition tsToolCallRe : regex := RCats [
  RWordB; RGroup 1 (RCat (RClass is_ident_start) (RStar (RClass is_ident)));
  lit ".tool"; spaces; chr "("; spaces;
  RClass is_quote; RGroup 2 (RStar (RClass not_quote)); RClass is_quote;
  spaces; chr ","; spaces;
  RClass is_quote; RGroup 3 (RStar (RClass not_quote)); RClass is_quote].

(** [byteOffsetToLine]; an [int] offset. *)
Definition byteOffsetToLine (src : string) (offset : Z) : Z :=
  if (offset <? 0)%Z then 0
  else
    let offset := if (Z.of_nat (len src) <? offset)%Z then Z.of_nat (len src) else offset in
    (Z.of_nat (CountByte (str_take (Z.to_nat offset) src) lf) + 1)%Z.

Definition ts_tool (sourcePath src : string) (m : nat * mstate) : Tool :=
  mkTool (submatch src m 2) (submatch src m 3) None sourcePath
    (byteOffsetToLine src (Z.of_nat m.1)).

Definition scanTypeScript (sourcePath src : string) : list Tool :=
  map (ts_tool sourcePath src) (FindAll tsToolCallRe src).

Definition shouldSkipTSDir (name : string) : bool :=
  bool_decide (name ∈ ["node_modules"; "dist"; "build"; ".git"; ".turbo"; "coverage"; ".next"]).

Definition isTypeScriptSourceFile (path : string) : bool :=
  bool_decide (Ext path ∈ [".ts"; ".tsx"; ".js"; ".mjs"; ".cjs"]).

(** [os.ReadFile] gives the content or an error text. *)
Definition LoadTypeScriptFile (path : string) (file : result string string) : result string ToolSet :=
  match file with
  | Err e => Err ("read " +:+ path +:+ ": " +:+ e)
  | Ok raw => Ok (mkToolSet (scanTypeScript path raw) path)
  end.

Section ts_tests.
Example scan_t : scanTypeScript "s.ts" (
    "const server = make();" +:+ newline +:+
    "  server.tool('get_user'," +:+ newline +:+ "   'Fetch a user by id.', {}, h);")
  = [mkTool "get_user" "Fetch a user by id." None "s.ts" 2].
Proof. vm_compute. reflexivity. Qed.
End ts_tests.

(** ** What a reported call looks like *)

(** [w] is the text of a call [recv.tool("name", "description"], up to the
    closing quote of its second argument; [n] and [d] are the two arguments
    and [a], [b] the text before each. *)
Definition ts_call (w a n b d : list (Z * nat)) : Prop :=
  exists recv tl lp cm w1 w2 w3 w4 q1 q2 q3 q4,
    map fst tl = codes ".tool" /\ map fst lp = codes "(" /\ map fst cm = codes "," /\
    a = recv ++ tl ++ w1 ++ lp ++ w2 ++ [q1] /\
    b = a ++ n ++ [q2] ++ w3 ++ cm ++ w4 ++ [q3] /\
    w = b ++ d ++ [q4] /\
    (exists c cs, recv = c :: cs /\ is_ident_start c.1 = true /\ Forall (fun r => is_ident r.1 = true) cs) /\
    Forall (fun r => is_space r.1 = true) (w1 ++ w2 ++ w3 ++ w4) /\
    Forall (fun q => is_quote q.1 = true) [q1; q2; q3; q4] /\
    Forall (fun r => not_quote r.1 = true) (n ++ d).

(** The end of a match that starts in [s]. *)
Definition ts_end (s : mstate) (w a n b d l : list (Z * nat)) (recv : nat) : mstate :=
  past s w l ((3, (off s + total_width b, off s + total_width (b ++ d))) ::
              (2, (off s + total_width a, off s + total_width (a ++ n))) ::
              (1, (off s, off s + recv)) :: caps s)%nat.

Lemma tsToolCallRe_sound s s' :
  derives tsToolCallRe s s' ->
  at_word_boundary s = true /\
  exists w a n b d l recv, rest s = w ++ l /\ ts_call w a n b d /\ s' = ts_end s w a n b d l recv.
Proof.
  unfold tsToolCallRe. cbn [RCats]. intros H. rewrite <- (past_start s) in H.
  apply derives_cat in H as (? & [Hb ->]%past_wordb & H). rewrite past_start in Hb.
  apply derives_cat in H as (? & (? & Hr & ->)%past_group & H).
  apply derives_cat in Hr as (? & (c & l1 & El & Hc & ->)%past_class & Hr).
  apply past_star in Hr as (cs & l2 & -> & Hcs & ->). rewrite past_set_cap in H.
  apply derives_cat in H as (? & (tl & l3 & -> & Htl & ->)%past_lit & H).
  apply derives_cat in H as (? & (w1 & l4 & -> & Hw1 & ->)%past_star & H).
  apply derives_cat in H as (? & (lp & l5 & -> & Hlp & ->)%past_class & H).
  apply derives_cat in H as (? & (w2 & l6 & -> & Hw2 & ->)%past_star & H).
  apply derives_cat in H as (? & (q1 & l7 & -> & Hq1 & ->)%past_class & H).
  apply derives_cat in H as (? & (? & (n & l8 & -> & Hn & ->)%past_star & ->)%past_group & H).
  rewrite past_set_cap in H.
  apply derives_cat in H as (? & (q2 & l9 & -> & Hq2 & ->)%past_class & H).
  apply derives_cat in H as (? & (w3 & l10 & -> & Hw3 & ->)%past_star & H).
  apply derives_cat in H as (? & (cm & l11 & -> & Hcm & ->)%past_class & H).
  apply derives_cat in H as (? & (w4 & l12 & -> & Hw4 & ->)%past_star & H).
  apply derives_cat in H as (? & (q3 & l13 & -> & Hq3 & ->)%past_class & H).
  apply derives_cat in H as (? & (? & (d & l14 & -> & Hd & ->)%past_star & ->)%past_group & H).
  rewrite past_set_cap in H.
  apply past_class in H as (q4 & l & -> & Hq4 & ->).
  split; [done|].
  set (a := (c :: cs) ++ tl ++ w1 ++ [lp] ++ w2 ++ [q1]).
  set (b := a ++ n ++ [q2] ++ w3 ++ [cm] ++ w4 ++ [q3]).
  exists (b ++ d ++ [q4]), a, n, b, d, l, (total_width (c :: cs)). split; [|split].
  - rewrite El. unfold b, a. by rewrite <- !app_assoc.
  - exists (c :: cs), tl, [lp], [cm], w1, w2, w3, w4, q1, q2, q3, q4.
    apply Z.eqb_eq in Hlp, Hcm. split_and!; try done.
    + unfold codes. simpl. by rewrite <- Hlp.
    + unfold codes. simpl. by rewrite <- Hcm.
    + eauto.
    + by repeat (apply Forall_app; split).
    + by repeat constructor.
    + by apply Forall_app.
  - unfold ts_end. cbn [app]. unfold b, a. rewrite <- !app_assoc. cbn [app total_width].
    rewrite Nat.add_0_r. done.
Qed.

Lemma one_code c p : map fst p = codes (String c "") -> exists rw : Z * nat, p = [rw] /\ (byteZ c =? rw.1)%Z = true.
Proof.
  destruct p as [|rw [|? p]]; unfold codes; simpl; try done. intros [= E]. exists rw.
  split; [done|]. by apply Z.eqb_eq.
Qed.

Lemma tsToolCallRe_complete s w a n b d l :
  at_word_boundary s = true -> rest s = w ++ l -> ts_call w a n b d ->
  exists recv, derives tsToolCallRe s (ts_end s w a n b d l recv).
Proof.
  intros Hb El (recv & tl & lp & cm & w1 & w2 & w3 & w4 & q1 & q2 & q3 & q4 &
    Htl & (lp' & -> & Hlp)%one_code & (cm' & -> & Hcm)%one_code & Ha & Hb' & Hw &
    (c & cs & -> & Hc & Hcs) & Hws & Hq & Hnd).
  apply Forall_app in Hws as [Hw1 Hws]. apply Forall_app in Hws as [Hw2 Hws].
  apply Forall_app in Hws as [Hw3 Hw4]. apply Forall_app in Hnd as [Hn Hd].
  apply Forall_cons in Hq as [Hq1 Hq]. apply Forall_cons in Hq as [Hq2 Hq].
  apply Forall_cons in Hq as [Hq3 Hq]. apply Forall_cons in Hq as [Hq4 _].
  exists (total_width (c :: cs)). unfold tsToolCallRe. cbn [RCats].
  rewrite <- (past_start s) at 1. rewrite El.
  apply derives_cat. eexists. split; [apply past_wordb; split; [|done]|].
  { rewrite <- El. by rewrite past_start. }
  apply derives_cat. eexists. split.
  { apply past_group. eexists. split; [|done]. apply derives_cat. eexists. split.
    - apply past_class. exists c. eexists. split; [|done]. rewrite Hw, Hb', Ha. rewrite <- !app_assoc. done.
    - apply past_star. exists cs. eexists. split; [|done]. done. }
  rewrite past_set_cap.
  apply derives_cat. eexists. split; [apply past_lit; exists tl; eexists; done|].
  apply derives_cat. eexists. split; [apply past_star; exists w1; eexists; done|].
  apply derives_cat. eexists. split; [apply past_class; exists lp'; eexists; done|].
  apply derives_cat. eexists. split; [apply past_star; exists w2; eexists; done|].
  apply derives_cat. eexists. split; [apply past_class; exists q1; eexists; done|].
  apply derives_cat. eexists. split.
  { apply past_group. eexists. split; [apply past_star; exists n; eexists; done|done]. }
  rewrite past_set_cap.
  apply derives_cat. eexists. split; [apply past_class; exists q2; eexists; done|].
  apply derives_cat. eexists. split; [apply past_star; exists w3; eexists; done|].
  apply derives_cat. eexists. split; [apply past_class; exists cm'; eexists; done|].
  apply derives_cat. eexists. split; [apply past_star; exists w4; eexists; done|].
  apply derives_cat. eexists. split; [apply past_class; exists q3; eexists; done|].
  apply derives_cat. eexists. split.
  { apply past_group. eexists. split; [apply past_star; exists d; eexists; done|done]. }
  rewrite past_set_cap. apply past_class. exists q4, l. split; [done|]. split; [done|].
  unfold ts_end. rewrite Hw, Hb', Ha. rewrite <- !app_assoc. cbn [app total_width].
  rewrite Nat.add_0_r. done.
Qed.

(** A call between [gap] and [l]. *)
Definition ts_site (src : string) (gap w a n b d l : list (Z * nat)) : Prop :=
  runes src = gap ++ w ++ l /\ at_word_boundary (at_split gap (w ++ l)) = true /\ ts_call w a n b d.

(** The text of the runes [n] that follow [pre]. *)
Definition text (src : string) (pre n : list (Z * nat)) : string :=
  slice src (total_width pre) (total_width (pre ++ n)).

Definition site_tool (path src : string) (gap a n b d : list (Z * nat)) : Tool :=
  mkTool (text src (gap ++ a) n) (text src (gap ++ b) d) None path
    (1 + Z.of_nat (CountByte (str_take (total_width gap) src) lf)).

Lemma byteOffsetToLine_nat src n :
  (n <= len src)%nat -> byteOffsetToLine src (Z.of_nat n) = (1 + Z.of_nat (CountByte (str_take n src) lf))%Z.
Proof.
  intros Hn. unfold byteOffsetToLine. rewrite (proj2 (Z.ltb_ge _ 0)) by lia.
  rewrite (proj2 (Z.ltb_ge _ (Z.of_nat n))) by lia. rewrite Nat2Z.id. lia.
Qed.

Lemma byteOffsetToLine_mono src n m :
  (n <= m)%nat -> (byteOffsetToLine src (Z.of_nat n) <= byteOffsetToLine src (Z.of_nat m))%Z.
Proof.
  intros Hnm. unfold byteOffsetToLine. rewrite !(proj2 (Z.ltb_ge _ 0)) by lia.
  apply Z.add_le_mono_r, Nat2Z.inj_le, CountByte_take_le. repeat case_match; bool_to_prop; lia.
Qed.

Lemma ts_tool_site path src m :
  match_in tsToolCallRe [] (runes src) m ->
  exists gap w a n b d l, ts_site src gap w a n b d l /\
    ts_tool path src m = site_tool path src gap a n b d.
Proof.
  intros (gap & suf & El & Hi & Hd). simpl in Hi, Hd.
  apply tsToolCallRe_sound in Hd as (Hb & w & a & n & b & d & l & recv & Ew & Hc & Hm).
  simpl in Ew. subst suf. exists gap, w, a, n, b, d, l. split; [done|].
  assert (total_width gap <= len src)%nat as Hlen.
  { rewrite <- runes_total, El, !total_width_app. lia. }
  unfold ts_tool, site_tool, submatch. rewrite Hm, Hi, byteOffsetToLine_nat by done.
  cbn [ts_end past caps cap_of]. cbn -[slice byteOffsetToLine total_width].
  unfold text. rewrite <- !app_assoc. by rewrite !(total_width_app gap).
Qed.

Lemma tsToolCallRe_consumes s s' :
  derives tsToolCallRe s s' -> (length (rest s') < length (rest s))%nat.
Proof.
  intros (_ & w & a & n & b & d & l & recv & -> & Hc & ->)%tsToolCallRe_sound. simpl.
  destruct Hc as (? & ? & ? & ? & ? & ? & ? & ? & ? & ? & ? & ? & ? & ? & ? & ? & ? & -> & _).
  rewrite !length_app. simpl. lia.
Qed.

(** *** Properties *)

