(* ===== verification/IntakePy.v ===== *)
(** [internal/scanner/pyintake.go]: the FastMCP extractor, line by line.
    Walking a directory is in [Dispatch]. *)
From S2P Require Import Prelude GoStrings GoUnicode GoRegexp Model.

(** ** The expressions *)

Definition is_name_start (r : Z) : bool := is_alpha r || (r =? 95)%Z.
Definition pyName : regex := RCat (RClass is_name_start) (RStar (RClass is_word)).

Definition not_rparen (r : Z) : bool := negb (r =? 41)%Z.
Definition not_dquote (r : Z) : bool := negb (r =? 34)%Z.
Definition not_squote (r : Z) : bool := negb (r =? 39)%Z.

(** The start, [@], a receiver (group 1), [.tool] and a word boundary, perhaps
    an argument list (group 2; its inside is group 3), the end; white space
    between the tokens. *)
Definition pyToolDecoratorRe : regex := RCats [
  RBegin; spaces; chr "@"; spaces; RGroup 1 pyName; lit ".tool"; RWordB;
  ROpt (RGroup 2 (RCats [spaces; chr "("; RGroup 3 (RStar (RClass not_rparen)); chr ")"]));
  spaces; REnd].

(** The start, perhaps [async], [def], a name (group 1), an opening
    parenthesis. *)
Definition pyDefRe : regex := RCats [
  RBegin; spaces; ROpt (RCat (lit "async") (RPlus (RClass is_space))); lit "def";
  RPlus (RClass is_space); RGroup 1 pyName; spaces; chr "("].

(** A word (group 1), [=], a string in double (group 3) or single (group 4)
    quotes. *)
Definition pyKwargStringRe : regex := RCats [
  RGroup 1 (RPlus (RClass is_word)); spaces; chr "="; spaces;
  RGroup 2 (RAlt
    (RCats [lit dquote; RGroup 3 (RStar (RClass not_dquote)); lit dquote])
    (RCats [chr "'"; RGroup 4 (RStar (RClass not_squote)); chr "'"]))].

Definition triple (q : string) : string := q +:+ q +:+ q.

(** The start, perhaps a string prefix, three quotes (group 1), the rest of
    the line (group 2). *)
Definition pyDocstringStartRe : regex := RCats [
  RBegin; spaces;
  ROpt (RAlt (RCat (ROpt (RClass (one_of "ru"))) (ROpt (chr "b")))
             (RCat (ROpt (chr "b")) (ROpt (RAlt (chr "r") (chr "u")))));
  RGroup 1 (RAlt (lit (triple dquote)) (lit (triple "'")));
  RGroup 2 (RStar (RClass not_newline)); REnd].

(** ** [bufio.Scanner] with a one-megabyte buffer *)

Definition max_token : Z := 1024 * 1024.

(** [dropCR] *)
Definition drop_cr (s : string) : string :=
  if HasSuffix s (String (Zbyte 13) "") then str_take (len s - 1) s else s.

(** The pieces between newlines; a last piece without one counts when it is
    not empty. *)
Definition raw_lines (src : string) : list string :=
  let ps := SplitByte src lf in
  match last ps with
  | Some EmptyString => take (length ps - 1) ps
  | _ => ps
  end.

(** The lines, or [bufio.ErrTooLong] when one does not fit the buffer. *)
Definition scan_lines (src : string) : result string (list string) :=
  if existsb (fun l => (max_token <=? Z.of_nat (len l))%Z) (raw_lines src)
  then Err "bufio.Scanner: token too long"
  else Ok (map drop_cr (raw_lines src)).

Section python.

(** [nextDefLine]: [None] is the index -1. *)
Fixpoint nextDefLine_from (i : nat) (lines : list string) : option (string * nat) :=
  match lines with
  | [] => None
  | line :: lines =>
    let trimmed := TrimSpace line in
    if (trimmed =? "")%string || HasPrefix trimmed "#" then nextDefLine_from (S i) lines
    else if HasPrefix trimmed "@" then nextDefLine_from (S i) lines
    else Some (line, i)
  end.

Definition nextDefLine (lines : list string) (start : nat) : option (string * nat) :=
  nextDefLine_from start (drop start lines).

(** The lines after an opening quote that ends its line. *)
Fixpoint docstring_body (quote : string) (lines : list string) : string :=
  match lines with
  | [] => ""
  | line :: lines =>
    let trimmed := TrimSpace line in
    if (trimmed =? "")%string then docstring_body quote lines
    else if HasSuffix trimmed quote then TrimSpace (TrimSuffix trimmed quote)
    else trimmed
  end.

Definition extractDocstringFirstLine (lines : list string) (start : nat) : string :=
  match drop start lines with
  | [] => ""
  | first :: body =>
    match FindStringSubmatch pyDocstringStartRe first with
    | None => ""
    | Some m =>
      let quote := submatch first m 1 in
      let rest := submatch first m 2 in
      match Index rest quote with
      | Some idx => TrimSpace (str_take idx rest)
      | None =>
        if negb (TrimSpace rest =? "")%string then TrimSpace rest
        else docstring_body quote body
      end
    end
  end.

(** The loop over the keyword arguments: the name and the description. *)
Definition kwarg_step (args : string) (nd : string * string) (kv : nat * mstate) : string * string :=
  let value := submatch args kv 3 in
  let value := if (value =? "")%string then submatch args kv 4 else value in
  let key := submatch args kv 1 in
  if (key =? "name")%string then (value, nd.2)
  else if (key =? "description")%string then (nd.1, value)
  else nd.

(** The body of the loop at line [i]: a tool, or [continue]. *)
Definition scan_line (sourcePath : string) (lines : list string) (i : nat) (line : string) : option Tool :=
  match FindStringSubmatch pyToolDecoratorRe line with
  | None => None
  | Some decoratorMatch =>
    let decoratorArgs := submatch line decoratorMatch 3 in
    match nextDefLine lines (S i) with
    | None => None
    | Some (defLine, defLineIdx) =>
      match FindStringSubmatch pyDefRe defLine with
      | None => None
      | Some defMatch =>
        let funcName := submatch defLine defMatch 1 in
        let '(name, description) :=
          foldl (kwarg_step decoratorArgs) (funcName, "") (FindAll pyKwargStringRe decoratorArgs) in
        let description :=
          if (description =? "")%string
          then extractDocstringFirstLine lines (S defLineIdx) else description in
        Some (mkTool name description None sourcePath (Z.of_nat i + 1))
      end
    end
  end.

Fixpoint scan_from (sourcePath : string) (lines : list string) (i : nat) (todo : list string) : list Tool :=
  match todo with
  | [] => []
  | line :: todo =>
    match scan_line sourcePath lines i line with
    | None => scan_from sourcePath lines (S i) todo
    | Some t => t :: scan_from sourcePath lines (S i) todo
    end
  end.

Definition scanPythonReader (sourcePath src : string) : result string (list Tool) :=
  match scan_lines src with
  | Err e => Err e
  | Ok lines => Ok (scan_from sourcePath lines 0 lines)
  end.

(** [os.Open] and reading give the content or an error text. *)
Definition LoadPythonFile (path : string) (file : result string string) : result string ToolSet :=
  match file with
  | Err e => Err ("open " +:+ path +:+ ": " +:+ e)
  | Ok src =>
    match scanPythonReader path src with
    | Err e => Err ("scan " +:+ path +:+ ": " +:+ e)
    | Ok tools => Ok (mkToolSet tools path)
    end
  end.
End python.

Definition shouldSkipDir (name : string) : bool :=
  bool_decide (name ∈ ["__pycache__"; ".venv"; "venv"; "env"; "node_modules"; ".git"; ".tox";
                       "build"; "dist"]).

(** A file made of lines. *)
Definition unlines (l : list string) : string := str_concat (map (fun s => s +:+ newline) l).

Section py_tests.
Example scan_t1 : scanPythonReader "s.py" (unlines
    ["import mcp"; "@mcp.tool()"; "@cached"; "async def fetch_user(id: str) -> dict:";
     "    " +:+ triple dquote; "    Fetch a user by id."; "    " +:+ triple dquote;
     "@app.tool(name=" +:+ dquote +:+ "custom" +:+ dquote +:+ ", description='Does it')";
     "def _internal(x):"; "    pass"])
  = Ok [mkTool "fetch_user" "Fetch a user by id." None "s.py" 2;
        mkTool "custom" "Does it" None "s.py" 8].
Proof. vm_compute. reflexivity. Qed.
End py_tests.

(** ** Names *)

(** An ASCII Python identifier. *)
Definition pyident (s : string) : Prop :=
  exists c cs, s = String c cs /\ is_name_start (byteZ c) = true /\ class_str is_word cs = true.

Lemma name_start_word r : is_name_start r = true -> is_word r = true.
Proof.
  unfold is_name_start, is_alpha, is_word, in_rng. rewrite !orb_true_iff, !andb_true_iff. tauto.
Qed.

Lemma pyident_ascii s : pyident s -> isASCII s = true.
Proof.
  intros (c & cs & -> & Hc & Hcs). apply (class_str_ascii is_word); [apply is_word_lt|].
  unfold class_str. simpl. rewrite andb_true_iff. split; [by apply name_start_word|done].
Qed.

Lemma word_not_space r : is_word r = true -> is_space r = false.
Proof.
  unfold is_word, is_space, in_rng.
  rewrite !orb_true_iff, !orb_false_iff, !andb_true_iff, !andb_false_iff, !Z.leb_le, !Z.leb_gt, !Z.eqb_eq, !Z.eqb_neq.
  lia.
Qed.

Lemma name_derives s w l c s' :
  derives pyName (past s w l c) s' <->
  exists rw cs l', l = rw :: cs ++ l' /\ is_name_start rw.1 = true /\
    Forall (fun x => is_word x.1 = true) cs /\ s' = past s (w ++ rw :: cs) l' c.
Proof.
  unfold pyName. rewrite derives_cat. split.
  - intros (? & (rw & l1 & -> & Hrw & ->)%past_class & (cs & l' & -> & Hcs & ->)%past_star).
    exists rw, cs, l'. by rewrite <- app_assoc.
  - intros (rw & cs & l' & -> & Hrw & Hcs & ->). eexists. split.
    + apply past_class. eauto.
    + apply past_star. exists cs, l'. by rewrite <- app_assoc.
Qed.

(** ** The decorator line *)

Definition at_sign : Z * nat := (64, 1%nat).
Definition rparen : Z * nat := (41, 1%nat).

Lemma start_past line : start_state line = past (start_state line) [] (runes line) [].
Proof. symmetry. apply (past_start (start_state line)). Qed.

Lemma begin_past s w l c s' :
  derives RBegin (past s w l c) s' -> s' = past s w l c.
Proof. by intros [_ ->]%derives_begin. Qed.

(** A decorator starts with [@], after white space. *)
Lemma decorator_first line m :
  FindStringSubmatch pyToolDecoratorRe line = Some m ->
  exists v l, runes line = v ++ l /\ Forall (fun rw => is_space rw.1 = true) v /\
    (fst <$> head l) = Some 64%Z.
Proof.
  unfold FindStringSubmatch. destruct m as [i s']. intros (pre & suf & El & _ & Hd)%find_from_derives.
  unfold pyToolDecoratorRe in Hd. cbn [RCats] in Hd.
  apply derives_cat in Hd as (s1 & [Ho ->]%derives_begin & Hd). simpl in Ho.
  assert (pre = []) as ->.
  { destruct pre as [|[r k] pre]; [done|]. exfalso.
    assert ((r, k) ∈ runes line) as Hk by (rewrite El; left). apply runes_from_width in Hk. simpl in Ho. lia. }
  simpl in El. subst suf. rewrite advance_start in Hd. fold (start_state line) in Hd.
  rewrite start_past in Hd.
  apply derives_cat in Hd as (? & (v & l & Ev & Hv & ->)%past_star & Hd).
  apply derives_cat in Hd as (? & (rw & l' & -> & Hrw%Z.eqb_eq & ->)%past_class & _).
  exists v, (rw :: l'). split_and!; [done..|]. simpl. by rewrite <- Hrw.
Qed.

(** A line whose first visible rune is something else is no decorator. *)
Lemma not_decorator line v x X :
  runes line = v ++ x :: X -> Forall (fun rw => is_space rw.1 = true) v ->
  is_space x.1 = false -> x.1 <> 64%Z -> FindStringSubmatch pyToolDecoratorRe line = None.
Proof.
  intros El Hv Hx Hne. destruct (FindStringSubmatch pyToolDecoratorRe line) as [m|] eqn:E; [|done].
  exfalso. apply decorator_first in E as (v' & l & El' & Hv' & Hl). rewrite El in El'.
  destruct l as [|y l]; [done|]. simpl in Hl. injection Hl as Hl.
  destruct (span_unique is_space v v' (x :: X) (y :: l)) as [_ [= <- <-]]; try done.
  by simpl; rewrite Hl.
Qed.

Lemma runes_no_byte z s :
  (z < 0x80)%Z -> str_forall (fun c => negb (byteZ c =? z)%Z) s = true ->
  Forall (fun rw => rw.1 <> z) (runes s).
Proof.
  intros Hz Hs. unfold runes. assert (Hgen : forall k, Forall (fun rw => rw.1 <> z) (runes_from k s)).
  { induction s as [|c s IH]; intros k; [constructor|]. cbn [runes_from str_forall] in *.
    apply andb_true_iff in Hs as [Hc%negb_true_iff%Z.eqb_neq Hs].
    destruct k; [|by apply IH]. constructor; [|by apply IH].
    destruct (Z_lt_le_dec (byteZ c) 0x80) as [Hlt|Hge].
    - by rewrite DecodeRune_ascii.
    - pose proof (DecodeRune_ge c s Hge). lia. }
  apply Hgen.
Qed.

Definition free_of (c0 : ascii) (s : string) : bool := str_forall (fun c => negb (byteZ c =? byteZ c0)%Z) s.

Definition decorator_line (recv args : string) : string := "@" +:+ recv +:+ ".tool(" +:+ args +:+ ")".

Section decorator.
Context (recv args : string) (Hrecv : pyident recv) (Hargs : free_of ")"%char args = true).
Let line := decorator_line recv args.
Let lparen : Z * nat := (40, 1%nat).
Let tail_runes := lparen :: runes args ++ [rparen].

Lemma decorator_runes : runes line = at_sign :: ascii_runes recv ++ ascii_runes ".tool" ++ tail_runes.
Proof.
  unfold line, decorator_line.
  rewrite (runes_ascii_l "@"), runes_ascii_l, (runes_ascii_l ".tool(") by (done || by apply pyident_ascii).
  by rewrite (runes_app_ascii args ")"%char "").
Qed.

Lemma args_no_rparen : Forall (fun rw => not_rparen rw.1 = true) (runes args).
Proof.
  eapply Forall_impl; [apply (runes_no_byte 41 args); [done|exact Hargs]|].
  intros rw Hrw. unfold not_rparen. by apply negb_true_iff, Z.eqb_neq.
Qed.

Lemma decorator_sound s' :
  derives pyToolDecoratorRe (start_state line) s' ->
  cap_of (caps s') 3 = Some (len ("@" +:+ recv +:+ ".tool("), len ("@" +:+ recv +:+ ".tool(") + len args)%nat.
Proof.
  destruct Hrecv as (c0 & cs0 & Er & Hc0 & Hcs0).
  intros H. rewrite start_past, decorator_runes, Er in H. unfold pyToolDecoratorRe in H. cbn [RCats] in H.
  apply derives_cat in H as (? & ->%begin_past & H).
  apply derives_cat in H as (? & (v0 & l0 & E & Hv0 & ->)%past_star & H).
  apply (span_nil is_space) in E as [-> ->]; [|done..].
  apply derives_cat in H as (? & (rw & l1 & [= <- <-] & _ & ->)%past_class & H).
  apply derives_cat in H as (? & (v1 & l2 & E & Hv1 & ->)%past_star & H).
  apply (span_nil is_space) in E as [-> ->]; [|by apply word_not_space, name_start_word|done].
  apply derives_cat in H as (? & (? & (rw & cs & l3 & E & _ & Hcs & ->)%name_derives & ->)%past_group & H).
  rewrite past_set_cap in H. simpl in E. injection E as <- E.
  apply derives_cat in H as (? & (tl & l4 & -> & Htl & ->)%past_lit & H).
  destruct (span_unique is_word (ascii_runes cs0) cs (ascii_runes ".tool" ++ tail_runes) (tl ++ l4)) as [<- E'];
    [done|by apply class_str_Forall|done|done|by eapply stops_lit|].
  apply app_eq_ascii in E' as [-> ->]; [|done].
  apply derives_cat in H as (? & [_ ->]%past_wordb & H).
  apply derives_cat in H as (s1 & Hopt & H).
  apply derives_alt in Hopt as [Hopt| ->%derives_empty].
  - apply past_group in Hopt as (? & Hopt & ->). cbn [RCats] in Hopt.
    apply derives_cat in Hopt as (? & (v2 & l5 & E2 & Hv2 & ->)%past_star & Hopt).
    apply (span_nil is_space) in E2 as [-> ->]; [|done..].
    apply derives_cat in Hopt as (? & (rw' & l6 & [= <- <-] & _ & ->)%past_class & Hopt).
    apply derives_cat in Hopt as (? & (? & (v3 & l7 & E3 & Hv3 & ->)%past_star & ->)%past_group & Hopt).
    rewrite past_set_cap in Hopt.
    apply past_class in Hopt as (rp & l8 & -> & Hrp%Z.eqb_eq & ->).
    destruct (span_unique not_rparen (runes args) v3 [rparen] (rp :: l8)) as [<- _];
      [done|apply args_no_rparen|done|done|simpl; by rewrite <- Hrp|].
    rewrite past_set_cap in H.
    apply derives_cat in H as (? & (v4 & l9 & _ & _ & ->)%past_star & [_ ->]%derives_end).
    cbn [caps past cap_of]. cbn. do 2 f_equal;
      rewrite !total_width_app; cbn; rewrite ?total_width_ascii, ?str_len_app, ?runes_total, Er; simpl; lia.
  - exfalso.
    apply derives_cat in H as (? & (v4 & l9 & E4 & Hv4 & ->)%past_star & [Hnil _]%derives_end).
    simpl in Hnil. subst l9. by apply (span_nil is_space) in E4 as [_ ?].
Qed.

Lemma decorator_complete : exists s', derives pyToolDecoratorRe (start_state line) s'.
Proof.
  destruct Hrecv as (c0 & cs0 & Er & Hc0 & Hcs0).
  eexists. rewrite start_past, decorator_runes, Er. unfold pyToolDecoratorRe. cbn [RCats].
  apply derives_cat. eexists. split; [by apply derives_begin|].
  apply derives_cat. eexists. split; [apply past_star; by eexists [], _|].
  apply derives_cat. eexists. split; [apply past_class; by eexists _, _|].
  apply derives_cat. eexists. split; [apply past_star; by eexists [], _|].
  apply derives_cat. eexists. split.
  { apply past_group. eexists. split; [|done]. apply name_derives.
    eexists _, (ascii_runes cs0), _. split; [done|]. split; [done|]. split; [by apply class_str_Forall|done]. }
  rewrite past_set_cap.
  apply derives_cat. eexists. split; [apply past_lit; by eexists (ascii_runes ".tool"), _|].
  apply derives_cat. eexists. split.
  { apply past_wordb. split; [|done]. unfold at_word_boundary. cbn [prev past]. by rewrite last_app. }
  apply derives_cat. eexists. split.
  { apply derives_alt. left. apply past_group. eexists. split; [|done]. cbn [RCats].
    apply derives_cat. eexists. split; [apply past_star; by eexists [], _|].
    apply derives_cat. eexists. split; [apply past_class; by eexists _, _|].
    apply derives_cat. eexists. split.
    - apply past_group. eexists. split; [|done]. apply past_star.
      exists (runes args). eexists. split; [done|]. split; [apply args_no_rparen|done].
    - rewrite past_set_cap. apply past_class. by eexists _, _. }
  rewrite past_set_cap. apply derives_cat. eexists. split; [apply past_star; by eexists [], _|].
  by apply derives_end.
Qed.

Lemma decorator_match : exists m,
  FindStringSubmatch pyToolDecoratorRe line = Some m /\ submatch line m 3 = args.
Proof.
  destruct decorator_complete as [s' Hd].
  destruct (find_from_here _ _ _ _ _ Hd) as (s1 & Hf & Hd1).
  exists (0%nat, s1). split; [done|]. unfold submatch. cbn [snd].
  rewrite (decorator_sound _ Hd1). unfold line, decorator_line.
  pose proof (slice_app ("@" +:+ recv +:+ ".tool(") args ")") as Hs.
  by rewrite !str_app_assoc in Hs.
Qed.
End decorator.

(** ** The [def] line *)

Definition def_line (fname params : string) : string := "def " +:+ fname +:+ "(" +:+ params.

Section def_line.
Context (fname params : string) (Hname : pyident fname).
Let line := def_line fname params.
Let X := (40%Z, 1%nat) :: runes params.

Lemma def_runes : runes line = ascii_runes "def " ++ ascii_runes fname ++ X.
Proof.
  unfold line, def_line.
  by rewrite (runes_ascii_l "def "), runes_ascii_l, (runes_ascii_l "(") by (done || by apply pyident_ascii).
Qed.

Lemma def_sound s' :
  derives pyDefRe (start_state line) s' ->
  cap_of (caps s') 1 = Some (4, 4 + len fname)%nat.
Proof.
  destruct Hname as (c0 & cs0 & En & Hc0 & Hcs0).
  intros H. rewrite start_past, def_runes, En in H. unfold pyDefRe in H. cbn [RCats] in H.
  apply derives_cat in H as (? & ->%begin_past & H).
  apply derives_cat in H as (? & (v0 & l0 & E & Hv0 & ->)%past_star & H).
  apply (span_nil is_space) in E as [-> ->]; [|done..].
  apply derives_cat in H as (s1 & Hopt & H).
  apply derives_alt in Hopt as [Hopt| ->%derives_empty].
  { exfalso. apply derives_cat in Hopt as (? & (v & l & E & Hv & _)%past_lit & _).
    destruct v as [|rw v]; [done|]. simpl in E. injection E as <- _. done. }
  apply derives_cat in H as (? & (v1 & l1 & E & Hv1 & ->)%past_lit & H).
  apply (app_eq_ascii "def") in E as [-> ->]; [|done].
  apply derives_cat in H as (? & Hsp & H). unfold RPlus in Hsp.
  apply derives_cat in Hsp as (? & (rw & l2 & [= <- <-] & _ & ->)%past_class & Hsp).
  apply past_star in Hsp as (v2 & l3 & E & Hv2 & ->).
  apply (span_nil is_space) in E as [-> ->]; [|by apply word_not_space, name_start_word|done].
  apply derives_cat in H as (? & (? & (rw & cs & l4 & E & _ & Hcs & ->)%name_derives & ->)%past_group & H).
  rewrite past_set_cap in H. simpl in E. injection E as <- E.
  apply derives_cat in H as (? & (v5 & l5 & -> & Hv5 & ->)%past_star & H).
  apply past_class in H as (lp & l6 & -> & Hlp%Z.eqb_eq & ->).
  destruct (span_unique is_word (ascii_runes cs0) cs X (v5 ++ lp :: l6)) as [<- _]; try done.
  { by apply class_str_Forall. }
  { destruct v5 as [|x v5]; simpl; [by rewrite <- Hlp|]. apply Forall_cons in Hv5 as [Hx _].
    destruct (is_word x.1) eqn:Ex; [|done]. by rewrite (word_not_space _ Ex) in Hx. }
  cbn. do 2 f_equal. rewrite total_width_ascii, En. simpl. lia.
Qed.

Lemma def_complete : exists s', derives pyDefRe (start_state line) s'.
Proof.
  destruct Hname as (c0 & cs0 & En & Hc0 & Hcs0).
  eexists. rewrite start_past, def_runes, En. unfold pyDefRe. cbn [RCats].
  apply derives_cat. eexists. split; [by apply derives_begin|].
  apply derives_cat. eexists. split; [apply past_star; by eexists [], _|].
  apply derives_cat. eexists. split; [apply derives_alt; right; by apply derives_empty|].
  apply derives_cat. eexists. split; [apply past_lit; by eexists (ascii_runes "def"), _|].
  apply derives_cat. eexists. split.
  { unfold RPlus. apply derives_cat. eexists. split; [apply past_class; by eexists _, _|].
    apply past_star. by eexists [], _. }
  apply derives_cat. eexists. split.
  { apply past_group. eexists. split; [|done]. apply name_derives.
    eexists _, (ascii_runes cs0), _. split; [done|]. split; [done|]. split; [by apply class_str_Forall|done]. }
  rewrite past_set_cap.
  apply derives_cat. eexists. split; [apply past_star; by eexists [], _|].
  apply past_class. by eexists _, _.
Qed.

Lemma def_match : exists m,
  FindStringSubmatch pyDefRe line = Some m /\ submatch line m 1 = fname.
Proof.
  destruct def_complete as [s' Hd].
  destruct (find_from_here _ _ _ _ _ Hd) as (s1 & Hf & Hd1).
  exists (0%nat, s1). split; [done|]. unfold submatch. cbn [snd].
  rewrite (def_sound _ Hd1). unfold line, def_line. apply (slice_app "def " fname).
Qed.

Lemma def_no_decorator : FindStringSubmatch pyToolDecoratorRe line = None.
Proof. eapply (not_decorator line [] (100%Z, 1%nat)); [apply def_runes|constructor|done..]. Qed.
End def_line.

(** ** The docstring line *)

Definition doc_line (doc : string) : string := "    " +:+ triple dquote +:+ doc +:+ triple dquote.

Definition docPrefix : regex :=
  ROpt (RAlt (RCat (ROpt (RClass (one_of "ru"))) (ROpt (chr "b")))
             (RCat (ROpt (chr "b")) (ROpt (RAlt (chr "r") (chr "u"))))).

Lemma docPrefix_eats : eats (one_of "rub") docPrefix.
Proof.
  assert (Hru : forall r, one_of "ru" r = true -> one_of "rub" r = true).
  { intros r. unfold one_of. simpl. rewrite !orb_false_r. intros [->| ->]%orb_true_iff; simpl;
      rewrite ?orb_true_r; done. }
  assert (Hb : forall c r, one_of "rub" (byteZ c) = true -> (byteZ c =? r)%Z = true -> one_of "rub" r = true)
    by (by intros c r H <-%Z.eqb_eq).
  unfold docPrefix, chr.
  repeat first [apply eats_opt|apply eats_alt|apply eats_cat|apply eats_class];
    first [exact Hru|intros r; by apply Hb].
Qed.

Lemma one_of_rub r : one_of "rub" r = true -> r = 114%Z \/ r = 117%Z \/ r = 98%Z.
Proof.
  cbv [one_of existsb String.list_ascii_of_string]. rewrite !orb_true_iff, !Z.eqb_eq.
  intros [<-|[<-|[<-|?]]]; [by left|by right; left|by right; right|done].
Qed.

Section doc_line.
Context (doc : string) (Hdoc : free_of lf doc = true).
Let line := doc_line doc.
Let X := runes (doc +:+ triple dquote).

Lemma doc_runes : runes line = ascii_runes "    " ++ ascii_runes (triple dquote) ++ X.
Proof. unfold line, doc_line. by rewrite (runes_ascii_l "    "), (runes_ascii_l (triple dquote)). Qed.

Lemma doc_no_newline : Forall (fun rw => not_newline rw.1 = true) X.
Proof.
  eapply Forall_impl; [apply (runes_no_byte 10); [done|]|].
  - rewrite str_forall_app. apply andb_true_iff. by split; [exact Hdoc|].
  - intros rw Hrw. unfold not_newline. by apply negb_true_iff, Z.eqb_neq.
Qed.

Lemma doc_sound s' :
  derives pyDocstringStartRe (start_state line) s' ->
  cap_of (caps s') 1 = Some (4, 7)%nat /\
  cap_of (caps s') 2 = Some (7, 7 + len (doc +:+ triple dquote))%nat.
Proof.
  intros H. rewrite start_past, doc_runes in H. unfold pyDocstringStartRe in H. cbn [RCats] in H.
  apply derives_cat in H as (? & ->%begin_past & H).
  apply derives_cat in H as (? & (v0 & l0 & E & Hv0 & ->)%past_star & H).
  apply derives_cat in H as (s1 & (p & l1 & -> & Hp & ->)%docPrefix_eats & H).
  apply derives_cat in H as (? & (? & Hq & ->)%past_group & H).
  assert (exists t v l2, (t = triple dquote \/ t = triple "'") /\ l1 = v ++ l2 /\ map fst v = codes t /\
    x0 = past (start_state line) ((([] ++ v0) ++ p) ++ v) l2 []) as (t & v & l2 & Ht & -> & Hv & ->).
  { apply derives_alt in Hq as [(v & l2 & -> & Hv & ->)%past_lit|(v & l2 & -> & Hv & ->)%past_lit];
      [exists (triple dquote), v, l2|exists (triple "'"), v, l2]; split_and!; auto. }
  rewrite past_set_cap in H. clear Hq.
  destruct (span_unique is_space (ascii_runes "    ") v0 (ascii_runes (triple dquote) ++ X) (p ++ v ++ l2))
    as [<- E2]; [done|by apply class_str_Forall|done|done| |].
  { destruct p as [|x p]; [destruct Ht as [-> | ->];
      [exact (stops_lit is_space (Zbyte 34) (dquote +:+ dquote) v l2 Hv eq_refl)|
       exact (stops_lit is_space "'"%char ("'" +:+ "'") v l2 Hv eq_refl)]|].
    apply Forall_cons in Hp as [Hx _]. apply one_of_rub in Hx. simpl. by destruct Hx as [-> |[-> | ->]]. }
  assert (p = []) as ->.
  { destruct p as [|x p]; [done|]. simpl in E2. injection E2 as <- _.
    apply Forall_cons in Hp as [Hx _]. by apply one_of_rub in Hx as [?|[?|?]]. }
  assert (v = ascii_runes (triple dquote) /\ l2 = X) as [-> ->].
  { destruct Ht as [-> | ->]; [by apply app_eq_ascii|]. exfalso.
    destruct v as [|x v]; [done|]. simpl in E2. injection E2 as <- _. done. }
  apply derives_cat in H as (? & (? & (v3 & l3 & E3 & Hv3 & ->)%past_star & ->)%past_group & H).
  rewrite past_set_cap in H. apply derives_end in H as [Hnil ->]. simpl in Hnil. subst l3.
  rewrite app_nil_r in E3. subst v3. cbn [caps past cap_of]. cbn -[X]. split; [done|].
  do 9 f_equal. unfold X. by rewrite runes_total.
Qed.

Lemma doc_complete : exists s', derives pyDocstringStartRe (start_state line) s'.
Proof.
  eexists. rewrite start_past, doc_runes. unfold pyDocstringStartRe. cbn [RCats].
  apply derives_cat. eexists. split; [by apply derives_begin|].
  apply derives_cat. eexists. split.
  { apply past_star. eexists (ascii_runes "    "), _. split; [done|]. split; [by apply class_str_Forall|done]. }
  apply derives_cat. eexists. split; [apply derives_alt; right; by apply derives_empty|].
  apply derives_cat. eexists. split.
  { apply past_group. eexists. split; [|done]. apply derives_alt. left. apply past_lit.
    by eexists (ascii_runes (triple dquote)), _. }
  rewrite past_set_cap. apply derives_cat. eexists. split.
  { apply past_group. eexists. split; [|done]. apply past_star. exists X, [].
    rewrite app_nil_r. split; [done|]. split; [apply doc_no_newline|done]. }
  rewrite past_set_cap. by apply derives_end.
Qed.

Lemma doc_match : exists m,
  FindStringSubmatch pyDocstringStartRe line = Some m /\
  submatch line m 1 = triple dquote /\ submatch line m 2 = doc +:+ triple dquote.
Proof.
  destruct doc_complete as [s' Hd].
  destruct (find_from_here _ _ _ _ _ Hd) as (s1 & Hf & Hd1).
  exists (0%nat, s1). split; [done|]. unfold submatch. cbn [snd].
  destruct (doc_sound _ Hd1) as [-> ->]. unfold line, doc_line. split.
  - apply (slice_app "    " (triple dquote)).
  - pose proof (slice_app ("    " +:+ triple dquote) (doc +:+ triple dquote) "") as Hs.
    rewrite str_app_nil_r in Hs. exact Hs.
Qed.

Lemma doc_no_decorator : FindStringSubmatch pyToolDecoratorRe line = None.
Proof.
  eapply (not_decorator line (ascii_runes "    ") (34%Z, 1%nat)); [apply doc_runes|by apply class_str_Forall|done..].
Qed.
End doc_line.

Lemma Index_free doc : free_of (Zbyte 34) doc = true -> Index (doc +:+ triple dquote) (triple dquote) = Some (len doc).
Proof.
  unfold free_of. induction doc as [|c doc IH]; [done|]. cbn [str_forall].
  rewrite andb_true_iff. intros [Hc%negb_true_iff%Z.eqb_neq Hd].
  change (String c doc +:+ triple dquote) with (String c (doc +:+ triple dquote)). cbn [Index String.length].
  rewrite IH by done.
  destruct (HasPrefix (String c (doc +:+ triple dquote)) (triple dquote)) eqn:E; [|done].
  apply HasPrefix_spec in E as [t Ht]. by injection Ht as -> _.
Qed.

(** ** Keyword arguments *)

Definition kwarg (kv : string * string) : string := kv.1 +:+ "=" +:+ dquote +:+ kv.2 +:+ dquote.
Definition render_kwargs (kws : list (string * string)) : string := Join (map kwarg kws) ", ".

Definition kw_ok (kv : string * string) : Prop :=
  kv.1 <> "" /\ class_str is_word kv.1 = true /\ free_of (Zbyte 34) kv.2 = true.

(** What a keyword argument does to the name and the description. *)
Definition kw_apply (nd : string * string) (kv : string * string) : string * string :=
  if (kv.1 =? "name")%string then (kv.2, nd.2)
  else if (kv.1 =? "description")%string then (nd.1, kv.2)
  else nd.

Section kwarg.
Context (k v : string) (X : list (Z * nat)) (Hkv : kw_ok (k, v)) (o : nat) (p : option Z).
Let q : Z * nat := (34, 1%nat).
Let l := ascii_runes k ++ (61%Z, 1%nat) :: q :: runes v ++ q :: X.
Let s0 := MState o p l [].

Lemma value_no_dquote : Forall (fun rw => not_dquote rw.1 = true) (runes v).
Proof.
  destruct Hkv as (_ & _ & Hv). eapply Forall_impl; [apply (runes_no_byte 34 v); [done|exact Hv]|].
  intros rw Hrw. unfold not_dquote. by apply negb_true_iff, Z.eqb_neq.
Qed.

Lemma kwarg_sound s' :
  derives pyKwargStringRe s0 s' ->
  off s' = (o + (len k + len v + 3))%nat /\ rest s' = X /\
  cap_of (caps s') 1 = Some (o, o + len k)%nat /\
  cap_of (caps s') 3 = Some (o + (len k + 2), o + (len k + 2) + len v)%nat /\
  cap_of (caps s') 4 = None.
Proof.
  destruct Hkv as (Hk & Hw & Hv). cbn [fst snd] in *.
  intros H. rewrite <- (past_start s0) in H. unfold pyKwargStringRe, RPlus in H. cbn [RCats rest caps s0] in H.
  apply derives_cat in H as (? & (? & Hr & ->)%past_group & H).
  apply derives_cat in Hr as (? & (rw & l1 & E1 & Hrw & ->)%past_class & Hr).
  apply past_star in Hr as (cs & l2 & -> & Hcs & ->). rewrite past_set_cap in H.
  apply derives_cat in H as (? & (v1 & l3 & -> & Hv1 & ->)%past_star & H).
  apply derives_cat in H as (? & (eq & l4 & -> & Heq%Z.eqb_eq & ->)%past_class & H).
  destruct (span_unique is_word (ascii_runes k) (rw :: cs) ((61%Z, 1%nat) :: q :: runes v ++ q :: X) (v1 ++ eq :: l4))
    as [Ek E2]; [exact E1|by apply class_str_Forall|by constructor|done| |].
  { destruct v1 as [|x v1]; simpl; [by rewrite <- Heq|]. apply Forall_cons in Hv1 as [Hx _].
    destruct (is_word x.1) eqn:Ex; [|done]. by rewrite (word_not_space _ Ex) in Hx. }
  apply (span_nil is_space) in E2 as [-> E2]; [|done..]. injection E2 as -> ->.
  apply derives_cat in H as (? & (v2 & l5 & E3 & Hv2 & ->)%past_star & H).
  apply (span_nil is_space) in E3 as [-> ->]; [|done..].
  apply past_group in H as (? & H & ->). apply derives_alt in H as [H|H]; cbn [RCats] in H.
  - apply derives_cat in H as (? & (q1 & l6 & E4 & Hq1 & ->)%past_lit & H).
    apply (app_eq_ascii dquote _ (runes v ++ q :: X)) in E4 as [-> ->]; [|done].
    apply derives_cat in H as (? & (? & (v3 & l7 & E5 & Hv3 & ->)%past_star & ->)%past_group & H).
    rewrite past_set_cap in H. apply past_lit in H as (q2 & l8 & -> & Hq2 & ->).
    destruct (span_unique not_dquote (runes v) v3 (q :: X) (q2 ++ l8)) as [<- E6];
      [done|apply value_no_dquote|done|done|exact (stops_lit not_dquote (Zbyte 34) "" q2 l8 Hq2 eq_refl)|].
    apply (app_eq_ascii dquote _ X) in E6 as [-> ->]; [|done].
    assert (Hlen : total_width ([rw] ++ cs) = len k) by (simpl app; by rewrite <- Ek, total_width_ascii).
    assert (Hq : total_width (ascii_runes dquote) = 1%nat) by done.
    unfold set_cap, past. cbn [off rest caps cap_of decide]. 
    rewrite !total_width_app, ?runes_total, Hq in *. cbn [total_width] in *.
    destruct rw as [r0 w0]. change (off s0) with o. split_and!; [lia|done|..]; cbn; try (do 2 f_equal; lia); done.
  - apply derives_cat in H as (? & (q1 & l6 & E4 & Hq1%Z.eqb_eq & ->)%past_class & H).
    injection E4 as <- _. done.
Qed.

Lemma kwarg_complete : exists s', derives pyKwargStringRe s0 s'.
Proof.
  pose proof value_no_dquote as Hvq. pose proof Hkv as (Hk & Hw & _). cbn [fst snd] in *.
  assert (exists rw cs, ascii_runes k = rw :: cs /\ is_word rw.1 = true /\
    Forall (fun rw => is_word rw.1 = true) cs) as (rw & cs & Ek & Hc & Hcs).
  { pose proof (class_str_Forall _ _ Hw) as Hf. destruct (ascii_runes k) as [|rw cs] eqn:E.
    - exfalso. apply Hk. by destruct k.
    - apply Forall_cons in Hf as [? ?]. eauto. }
  eexists. rewrite <- (past_start s0). unfold s0 at 2, l. rewrite Ek.
  unfold pyKwargStringRe, RPlus. cbn [RCats rest caps s0].
  apply derives_cat. eexists. split.
  { apply past_group. eexists. split; [|done]. apply derives_cat. eexists. split.
    - apply past_class. by eexists rw, _.
    - apply past_star. by eexists cs, _. }
  rewrite past_set_cap. apply derives_cat. eexists. split; [apply past_star; by eexists [], _|].
  apply derives_cat. eexists. split; [apply past_class; by eexists _, _|].
  apply derives_cat. eexists. split; [apply past_star; by eexists [], _|].
  apply past_group. eexists. split; [|done]. apply derives_alt. left. cbn [RCats].
  apply derives_cat. eexists. split; [apply past_lit; by eexists (ascii_runes dquote), _|].
  apply derives_cat. eexists. split.
  { apply past_group. eexists. split; [|done]. apply past_star. exists (runes v). eexists.
    split; [done|]. split; [|done]. exact Hvq. }
  rewrite past_set_cap. apply past_lit. by eexists (ascii_runes dquote), _.
Qed.

Lemma kwarg_find : exists s',
  find_from pyKwargStringRe o p l = Some (o, s') /\ derives pyKwargStringRe s0 s'.
Proof.
  destruct kwarg_complete as [s' Hd]. destruct (find_from_here _ _ _ _ _ Hd) as (s1 & Hf & Hd1). eauto.
Qed.
End kwarg.

(** No keyword starts at a rune that is no word rune. *)
Lemma kwarg_not_word o p r w l s' : is_word r = false -> ~ derives pyKwargStringRe (MState o p ((r, w) :: l) []) s'.
Proof.
  intros Hr H. rewrite <- (past_start (MState o p ((r, w) :: l) [])) in H.
  unfold pyKwargStringRe, RPlus in H. cbn [RCats rest caps] in H.
  apply derives_cat in H as (? & (? & H & _)%past_group & _).
  apply derives_cat in H as (? & (rw & l1 & [= <- <-] & Hrw & _)%past_class & _). simpl in Hrw. congruence.
Qed.

Lemma kwarg_runes k v t : class_str is_word k = true ->
  runes (kwarg (k, v) +:+ t) = ascii_runes k ++ (61%Z, 1%nat) :: (34%Z, 1%nat) :: runes v ++ runes (dquote +:+ t).
Proof.
  intros Hk. unfold kwarg. cbn [fst snd]. rewrite !str_app_assoc.
  rewrite runes_ascii_l by (by apply (class_str_ascii is_word); [apply is_word_lt|]).
  rewrite (runes_ascii_l "="), (runes_ascii_l dquote) by done.
  change (dquote +:+ t) with (String (Zbyte 34) t). by rewrite (runes_app_ascii v (Zbyte 34) t).
Qed.

Lemma kwarg_nil o p : find_from pyKwargStringRe o p [] = None.
Proof.
  apply find_from_None. intros pre suf E s' Hd. symmetry in E. apply app_eq_nil in E as [-> ->].
  rewrite advance_start, <- (past_start (MState o p [] [])) in Hd.
  unfold pyKwargStringRe, RPlus in Hd. cbn [RCats rest caps] in Hd.
  apply derives_cat in Hd as (? & (? & H & _)%past_group & _).
  by apply derives_cat in H as (? & (rw & l1 & ? & _)%past_class & _).
Qed.

(** The text of the keyword arguments that follow one. *)
Definition more_kwargs (kws : list (string * string)) : string :=
  match kws with [] => "" | _ => ", " +:+ render_kwargs kws end.

Lemma render_kwargs_cons kv kws : render_kwargs (kv :: kws) = kwarg kv +:+ more_kwargs kws.
Proof. unfold render_kwargs. destruct kws; simpl; [by rewrite str_app_nil_r|done]. Qed.

Lemma kwarg_step_spec args pre k v post s' nd :
  kw_ok (k, v) -> args = pre +:+ kwarg (k, v) +:+ post ->
  cap_of (caps s') 1 = Some (len pre, len pre + len k)%nat ->
  cap_of (caps s') 3 = Some (len pre + (len k + 2), len pre + (len k + 2) + len v)%nat ->
  cap_of (caps s') 4 = None ->
  kwarg_step args nd (len pre, s') = kw_apply nd (k, v).
Proof.
  intros _ -> H1 H3 H4. unfold kwarg_step, submatch, kw_apply. cbn [fst snd]. rewrite H1, H3, H4.
  unfold kwarg. cbn [fst snd].
  pose proof (slice_app pre k ("=" +:+ dquote +:+ v +:+ dquote +:+ post)) as S1.
  pose proof (slice_app (pre +:+ k +:+ "=" +:+ dquote) v (dquote +:+ post)) as S3.
  rewrite !str_len_app in S3. cbn [String.length dquote] in S3.
  rewrite !str_app_assoc in *. rewrite S1.
  replace (len pre + (len k + 2))%nat with (len pre + (len k + (1 + 1)))%nat by lia. rewrite S3.
  by destruct (String.eqb_spec v "") as [->|].
Qed.

(** Searching on from a position at which the first two runes are the
    separator, or from the arguments themselves. *)
Lemma kwargs_find_all kws : forall pre sep fuel p pe nd args,
  Forall kw_ok kws -> (sep = "" \/ sep = ", ") -> (kws = [] -> sep = "") ->
  args = pre +:+ sep +:+ render_kwargs kws ->
  (length (runes (sep +:+ render_kwargs kws)) < fuel)%nat ->
  foldl (kwarg_step args) nd
    (find_all fuel pyKwargStringRe (len pre) p (runes (sep +:+ render_kwargs kws)) pe)
  = foldl kw_apply nd kws.
Proof.
  induction kws as [|[k v] kws IH]; intros pre sep fuel p pe nd args Hok Hsep Hnil Hargs Hf.
  - rewrite (Hnil eq_refl). destruct fuel; [done|]. cbn [find_all render_kwargs map Join String.append].
    change (runes "") with (@nil (Z * nat)). by rewrite kwarg_nil.
  - apply Forall_cons in Hok as [Hkv Hok]. rewrite render_kwargs_cons in *.
    pose proof Hkv as (Hk & Hw & _). cbn [fst] in Hk, Hw.
    set (X := runes (more_kwargs kws)).
    assert (Hl : runes (kwarg (k, v) +:+ more_kwargs kws) =
      ascii_runes k ++ (61%Z, 1%nat) :: (34%Z, 1%nat) :: runes v ++ (34%Z, 1%nat) :: X).
    { rewrite kwarg_runes by done. by rewrite (runes_ascii_l dquote). }
    assert (Hfind : exists p' s', find_from pyKwargStringRe (len pre) p (runes (sep +:+ kwarg (k, v) +:+ more_kwargs kws))
        = Some (len (pre +:+ sep), s') /\
      derives pyKwargStringRe (MState (len (pre +:+ sep)) p' (runes (kwarg (k, v) +:+ more_kwargs kws)) []) s').
    { rewrite Hl. destruct Hsep as [-> | ->].
      - rewrite str_app_nil_r. cbn [String.append]. rewrite Hl. exists p.
        by apply (kwarg_find k v X Hkv).
      - rewrite (runes_ascii_l ", ") by done. rewrite Hl. cbn [ascii_runes map String.list_ascii_of_string app].
        rewrite find_from_skip by (intros; by apply kwarg_not_word).
        rewrite find_from_skip by (intros; by apply kwarg_not_word).
        rewrite str_len_app. exists (Some 32%Z).
        replace (len pre + len ", ")%nat with (len pre + 1 + 1)%nat by (simpl; lia).
        by apply (kwarg_find k v X Hkv). }
    destruct Hfind as (p' & s' & Hfind & Hd). rewrite Hl in Hd.
    destruct (kwarg_sound k v X Hkv _ _ _ Hd) as (Ho & Hr & H1 & H3 & H4).
    destruct fuel as [|fuel]; [lia|]. cbn [find_all]. rewrite Hfind.
    rewrite decide_False by (rewrite Ho, str_len_app; lia). cbn [foldl].
    assert (Hend : len (pre +:+ sep +:+ kwarg (k, v)) = off s').
    { rewrite Ho, !str_len_app. unfold kwarg. cbn [fst snd]. rewrite !str_len_app. simpl. lia. }
    rewrite (kwarg_step_spec args (pre +:+ sep) k v (more_kwargs kws) s' nd Hkv);
      [|by rewrite Hargs, !str_app_assoc|done..].
    rewrite Hr, <- Hend.
    assert (Hlen : (length X < fuel)%nat).
    { revert Hf. destruct Hsep as [-> | ->]; rewrite ?(runes_ascii_l ", ") by done; cbn [String.append];
        rewrite Hl; rewrite ?length_app; cbn [length]; rewrite ?length_app; cbn [length]; lia. }
    unfold X, more_kwargs in *.
    destruct kws as [|kv' kws];
      [apply (IH (pre +:+ sep +:+ kwarg (k, v)) "")|apply (IH (pre +:+ sep +:+ kwarg (k, v)) ", ")];
      auto; try done; rewrite Hargs, !str_app_assoc; done.
Qed.

Lemma kwargs_FindAll kws nd :
  Forall kw_ok kws ->
  foldl (kwarg_step (render_kwargs kws)) nd (FindAll pyKwargStringRe (render_kwargs kws)) = foldl kw_apply nd kws.
Proof.
  intros Hok. unfold FindAll. apply (kwargs_find_all kws "" ""); auto.
Qed.

(** ** Whole files *)

(** A line the scanner returns unchanged. *)
Definition line_ok (l : string) : Prop :=
  free_of lf l = true /\ free_of (Zbyte 13) l = true /\ (Z.of_nat (len l) < max_token)%Z.

Lemma free_of_eqb c s : free_of c s = true -> str_forall (fun d => negb (Ascii.eqb d c)) s = true.
Proof.
  apply str_forall_impl. intros d Hd. apply negb_true_iff in Hd. apply negb_true_iff.
  apply Z.eqb_neq in Hd. destruct (Ascii.eqb_spec d c); congruence.
Qed.

Lemma SplitByte_unlines lines :
  Forall (fun l => free_of lf l = true) lines -> SplitByte (unlines lines) lf = lines ++ [""].
Proof.
  induction 1 as [|l lines Hl _ IH]; [done|].
  change (unlines (l :: lines)) with ((l +:+ newline) +:+ unlines lines). rewrite str_app_assoc.
  change (newline +:+ unlines lines) with (String lf (unlines lines)).
  rewrite SplitByte_app by (by apply free_of_eqb). by rewrite IH.
Qed.

Lemma drop_cr_ok l : free_of (Zbyte 13) l = true -> drop_cr l = l.
Proof.
  intros Hl. unfold drop_cr. destruct (HasSuffix l (String (Zbyte 13) "")) eqn:E; [|done].
  apply HasSuffix_spec in E as [t ->]. unfold free_of in Hl. rewrite str_forall_app in Hl.
  by apply andb_true_iff in Hl as [_ Hl].
Qed.

Lemma scan_lines_unlines lines : Forall line_ok lines -> scan_lines (unlines lines) = Ok lines.
Proof.
  intros Hok. unfold scan_lines, raw_lines.
  rewrite SplitByte_unlines by (eapply Forall_impl; [exact Hok|]; by intros ? []).
  rewrite last_snoc, length_app, Nat.add_sub, take_app_length.
  assert (existsb (fun l => (max_token <=? Z.of_nat (len l))%Z) lines = false) as ->.
  { apply not_true_iff_false. intros (l & Hin & Hl)%existsb_exists. apply Z.leb_le in Hl.
    rewrite Forall_forall in Hok. destruct (Hok l) as (_ & _ & ?); [by apply list_elem_of_In|lia]. }
  f_equal. induction Hok as [|l lines (_ & Hcr & _) _ IH]; [done|]. simpl. by rewrite drop_cr_ok, IH.
Qed.

(** ** A FastMCP server file *)

Record py_def := mkPyDef {
  d_recv : string; d_kwargs : list (string * string);
  d_name : string; d_params : string; d_doc : string; d_body : list string
}.

Definition render (d : py_def) : list string :=
  decorator_line (d_recv d) (render_kwargs (d_kwargs d)) ::
  def_line (d_name d) (d_params d) :: doc_line (d_doc d) :: d_body d.

Record py_def_ok (d : py_def) : Prop := {
  pd_recv : pyident (d_recv d);
  pd_name : pyident (d_name d);
  pd_kwargs : Forall kw_ok (d_kwargs d);
  pd_args : free_of ")"%char (render_kwargs (d_kwargs d)) = true;
  pd_doc : free_of (Zbyte 34) (d_doc d) = true;
  pd_body : Forall (fun l => FindStringSubmatch pyToolDecoratorRe l = None) (d_body d);
  pd_lines : Forall line_ok (render d)
}.

Section files.

(** The tool a definition declares: the keyword arguments win over the name
    and the docstring. *)
Definition declared (path : string) (line : Z) (d : py_def) : Tool :=
  let nd := foldl kw_apply (d_name d, "") (d_kwargs d) in
  mkTool nd.1 (if (nd.2 =? "")%string then TrimSpace (d_doc d) else nd.2) None path line.

Fixpoint declared_from (path : string) (line : Z) (ds : list py_def) : list Tool :=
  match ds with
  | [] => []
  | d :: ds => declared path line d :: declared_from path (line + Z.of_nat (length (render d))) ds
  end.

Lemma free_of_app c s t : free_of c (s +:+ t) = free_of c s && free_of c t.
Proof. apply str_forall_app. Qed.

Lemma nextDefLine_def pre deco name params rest :
  nextDefLine (pre ++ deco :: def_line name params :: rest) (S (length pre))
  = Some (def_line name params, S (length pre)).
Proof.
  unfold nextDefLine. rewrite drop_app. replace (S (length pre) - length pre)%nat with 1%nat by lia.
  rewrite drop_ge by lia. cbn [drop app nextDefLine_from].
  destruct (TrimSpace_first "d"%char ("ef " +:+ name +:+ "(" +:+ params)) as [t Ht]; [done..|].
  change (def_line name params) with (String "d"%char ("ef " +:+ name +:+ "(" +:+ params)).
  by rewrite Ht.
Qed.

Lemma scan_line_def path pre d rest (Hd : py_def_ok d) :
  scan_line path (pre ++ render d ++ rest) (length pre)
    (decorator_line (d_recv d) (render_kwargs (d_kwargs d)))
  = Some (declared path (Z.of_nat (length pre) + 1) d).
Proof.
  unfold scan_line.
  destruct (decorator_match (d_recv d) (render_kwargs (d_kwargs d)) (pd_recv _ Hd) (pd_args _ Hd))
    as (m & -> & ->).
  unfold render. cbn [app]. rewrite nextDefLine_def.
  destruct (def_match (d_name d) (d_params d) (pd_name _ Hd)) as (m' & -> & ->).
  rewrite kwargs_FindAll by apply (pd_kwargs _ Hd). unfold declared.
  destruct (foldl kw_apply (d_name d, "") (d_kwargs d)) as [n desc]. cbn [fst snd].
  destruct (desc =? "")%string; [|done]. do 2 f_equal.
  unfold extractDocstringFirstLine. rewrite drop_app.
  replace (S (S (length pre)) - length pre)%nat with 2%nat by lia.
  rewrite drop_ge by lia. cbn [drop app].
  assert (free_of lf (d_doc d) = true) as Hlf.
  { pose proof (pd_lines _ Hd) as Hl. unfold render in Hl.
    do 2 apply Forall_inv_tail in Hl. apply Forall_inv in Hl as (Hl & _).
    unfold doc_line in Hl. rewrite !free_of_app in Hl. bool_to_prop. done. }
  destruct (doc_match (d_doc d) Hlf) as (m'' & -> & -> & ->).
  rewrite Index_free by apply (pd_doc _ Hd). by rewrite str_take_app.
Qed.

Lemma scan_from_cons path lines i l todo :
  scan_from path lines i (l :: todo) =
    match scan_line path lines i l with
    | None => scan_from path lines (S i) todo
    | Some t => t :: scan_from path lines (S i) todo
    end.
Proof. done. Qed.

Lemma scan_from_skip path lines i todo rest :
  Forall (fun l => FindStringSubmatch pyToolDecoratorRe l = None) todo ->
  scan_from path lines i (todo ++ rest) = scan_from path lines (i + length todo) rest.
Proof.
  intros Hn. revert i. induction Hn as [|l todo Hl _ IH]; intros i; simpl; [by rewrite Nat.add_0_r|].
  unfold scan_line. rewrite Hl, IH. f_equal. lia.
Qed.

Lemma scan_from_defs path ds : forall pre,
  Forall py_def_ok ds ->
  scan_from path (pre ++ (ds ≫= render)) (length pre) (ds ≫= render)
  = declared_from path (Z.of_nat (length pre) + 1) ds.
Proof.
  induction ds as [|d ds IH]; intros pre Hok; [done|].
  apply Forall_cons in Hok as [Hd Hok]. rewrite bind_cons. cbn [declared_from].
  assert (Hlines : pre ++ render d ++ (ds ≫= render) = (pre ++ render d) ++ (ds ≫= render))
    by apply app_assoc.
  pose proof (scan_line_def path pre d (ds ≫= render) Hd) as Hline.
  change (render d ++ (ds ≫= render)) with
    (decorator_line (d_recv d) (render_kwargs (d_kwargs d)) ::
     (def_line (d_name d) (d_params d) :: doc_line (d_doc d) :: d_body d) ++ (ds ≫= render)) at 2.
  rewrite scan_from_cons, Hline. f_equal.
  rewrite scan_from_skip.
  - rewrite Hlines. specialize (IH (pre ++ render d) Hok).
    assert (Hlen : length (pre ++ render d) = (S (length pre) + (2 + length (d_body d)))%nat)
      by (unfold render; rewrite length_app; simpl; lia).
    rewrite Hlen in IH. cbn [length]. etransitivity; [exact IH|]. f_equal. unfold render. simpl. lia.
  - constructor; [by apply def_no_decorator, pd_name|]. constructor; [apply doc_no_decorator|apply (pd_body _ Hd)].
Qed.
End files.

(** *** Properties *)

(** C8. The Python extractor on FastMCP files. A file that is a sequence of
    definitions — a [@recv.tool(...)] decorator with string keyword
    arguments, a [def] line, a one-line docstring and any lines that are not
    tool decorators — yields exactly one tool per definition, in order, at
    the line of its decorator, named by the [name] argument or else by the
    function, and described by the [description] argument or else by the
    trimmed docstring. *)
Theorem py_scan (path : string) (ds : list py_def)
  (Hok : Forall py_def_ok ds) :
  scanPythonReader path (unlines (ds ≫= render)) = Ok (declared_from path 1 ds).
Proof.
  unfold scanPythonReader. rewrite scan_lines_unlines.
  - f_equal. exact (scan_from_defs path ds [] Hok).
  - induction Hok as [|d ds Hd _ IH]; [constructor|]. rewrite bind_cons.
    apply Forall_app. split; [apply (pd_lines _ Hd)|done].
Qed.

Definition demo_defs : list py_def := [
  mkPyDef "mcp" [] "fetch_user" "user_id: str) -> dict:" " Fetch a user by id. "
    ["    return db[user_id]"; ""];
  mkPyDef "server" [("name", "drop_table"); ("description", "Drop a table.")] "_impl" "t):" "Internal."
    ["    pass"]].

Lemma demo_defs_ok : Forall py_def_ok demo_defs.
Proof.
  repeat constructor; try reflexivity; try done; try (by eexists _, _); vm_compute; reflexivity.
Qed.

Lemma py_scan_witness :
  scanPythonReader "s.py" (unlines (demo_defs ≫= render)) =
    Ok [mkTool "fetch_user" "Fetch a user by id." None "s.py" 1;
        mkTool "drop_table" "Drop a table." None "s.py" 6].
Proof. exact (py_scan "s.py" demo_defs demo_defs_ok). Defined.
