(* ===== verification/IntakeLive.v ===== *)
(** [internal/scanner/liveintake.go]: the MCP handshake over a pair of pipes,
    and the life of the subprocess around it.

    The other end is any state [S] with a [Write] that takes one line and may
    fail, and a [ReadBytes('\n')] that gives the bytes up to a newline, with
    an error when the stream ends before one. *)
From S2P Require Import Prelude GoNum GoStrings GoUnicode Model GoJson RulesSchema IntakeJson.
Open Scope Z_scope.

Definition protocolVersion : string := "2024-11-05".
Definition clientInfo : json := JObj [("name", JStr "mcpcheck"); ("version", JStr "0.1.0")].

(** ** Messages *)

Record jsonrpcError := mkRpcError { Code : Z; ErrMessage : string }.

(** A [json.RawMessage] is the value it holds; [None] is the empty one. *)
Record jsonrpcMessage := mkMessage {
  JSONRPC : string; MsgID : option json; Method : string;
  Params : option json; Result : option json; MsgError : option jsonrpcError
}.

Definition raw_field (k : string) (o : option json) : list (string * json) :=
  match o with None => [] | Some v => [(k, v)] end.

Definition str_field (k : string) (s : string) : list (string * json) :=
  if (s =? "")%string then [] else [(k, JStr s)].

(** The encoding of a message, empty fields omitted. *)
Definition message_json (m : jsonrpcMessage) : json :=
  JObj ([("jsonrpc", JStr (JSONRPC m))] ++ raw_field "id" (MsgID m)
        ++ str_field "method" (Method m) ++ raw_field "params" (Params m)
        ++ raw_field "result" (Result m)
        ++ match MsgError m with
           | None => []
           | Some e => [("error", JObj [("code", JNum (Itoa (Code e))); ("message", JStr (ErrMessage e))])]
           end).

(** Into the [*jsonrpcError]. *)
Definition error_field (e : jsonrpcError) (x : string * json) : option jsonrpcError :=
  if names_field x.1 "code" then
    match x.2 with
    | JNull => Some e
    | JNum l => n ← ParseInt l; Some (mkRpcError n (ErrMessage e))
    | _ => None
    end
  else if names_field x.1 "message" then
    s ← string_into (ErrMessage e) x.2; Some (mkRpcError (Code e) s)
  else Some e.

Definition error_into (old : option jsonrpcError) (v : json) : option (option jsonrpcError) :=
  match v with
  | JNull => Some None
  | JObj m => Some <$> foldl (fun e x => e ← e; error_field e x) (Some (default (mkRpcError 0 "") old)) m
  | _ => None
  end.

Definition message_field (m : jsonrpcMessage) (x : string * json) : option jsonrpcMessage :=
  let '(mkMessage v id meth ps res err) := m in
  if names_field x.1 "jsonrpc" then s ← string_into v x.2; Some (mkMessage s id meth ps res err)
  else if names_field x.1 "id" then Some (mkMessage v (Some x.2) meth ps res err)
  else if names_field x.1 "method" then s ← string_into meth x.2; Some (mkMessage v id s ps res err)
  else if names_field x.1 "params" then Some (mkMessage v id meth (Some x.2) res err)
  else if names_field x.1 "result" then Some (mkMessage v id meth ps (Some x.2) err)
  else if names_field x.1 "error" then e ← error_into err x.2; Some (mkMessage v id meth ps res e)
  else Some m.

Definition zero_message : jsonrpcMessage := mkMessage "" None "" None None None.

Definition message_into (v : json) : option jsonrpcMessage :=
  match v with
  | JNull => Some zero_message
  | JObj m => foldl (fun t x => t ← t; message_field t x) (Some zero_message) m
  | _ => None
  end.

(** ** The handshake *)

Section live.
Context `{UnicodeTables}.
Context {S : Type} (Write : S -> string -> S * option string)
        (ReadBytes : S -> S * (string * option string)).

Definition writeMessage (s : S) (m : jsonrpcMessage) : S * option string :=
  Write s (Marshal (message_json m) +:+ newline).

Definition writeRequest (s : S) (id : Z) (method : string) (params : option json) : S * option string :=
  writeMessage s (mkMessage "2.0" (Some (JNum (Itoa id))) method params None None).

Definition writeNotification (s : S) (method : string) (params : option json) : S * option string :=
  writeMessage s (mkMessage "2.0" None method params None None).

Definition readResponse (s : S) : S * result string jsonrpcMessage :=
  let '(s, (line, err)) := ReadBytes s in
  match err, line with
  | Some e, EmptyString => (s, Err e)
  | _, _ =>
    match parse_json line ≫= message_into with
    | None => (s, Err ("decode response (line: " +:+ Quote line +:+ ")"))
    | Some msg =>
      match MsgError msg with
      | Some e => (s, Err ("server returned error " +:+ Itoa (Code e) +:+ ": " +:+ ErrMessage e))
      | None => (s, Ok msg)
      end
    end
  end.

Definition initialize_params : json :=
  JObj [("capabilities", JObj []); ("clientInfo", clientInfo); ("protocolVersion", JStr protocolVersion)].

(** The tools of a [tools/list] result. *)
Definition tools_of_result (res : option json) : option (list Tool) :=
  v ← res; o ← envelope_into v;
  Some (map (fun t => mkTool (tj_Name t) (tj_Description t) (tj_InputSchema t) "" 0) (slice_elems o)).

Definition FetchToolsLive (s : S) : S * result string (list Tool) :=
  match writeRequest s 1 "initialize" (Some initialize_params) with
  | (s, Some e) => (s, Err ("send initialize: " +:+ e))
  | (s, None) =>
    match readResponse s with
    | (s, Err e) => (s, Err ("initialize: " +:+ e))
    | (s, Ok _) =>
      match writeNotification s "notifications/initialized" None with
      | (s, Some e) => (s, Err ("send initialized notification: " +:+ e))
      | (s, None) =>
        match writeRequest s 2 "tools/list" None with
        | (s, Some e) => (s, Err ("send tools/list: " +:+ e))
        | (s, None) =>
          match readResponse s with
          | (s, Err e) => (s, Err ("tools/list: " +:+ e))
          | (s, Ok resp) =>
            match tools_of_result (Result resp) with
            | None => (s, Err "parse tools/list result")
            | Some tools => (s, Ok tools)
            end
          end
        end
      end
    end
  end.

(** ** The subprocess *)

(** [exec.CommandContext]: what the pipes and [Start] return, and the two
    calls made when the handshake is over. *)
Record process := mkProcess {
  StdinPipe : option string; StdoutPipe : option string;
  Start : result string S; CloseStdin : S -> S; Wait : S -> S
}.

(** The state of the process when [LoadLive] returns, if one was started. *)
Definition LoadLive (proc : process) (cmd : list string) : option S * result string ToolSet :=
  match cmd with
  | [] => (None, Err "LoadLive: empty command")
  | cmd0 :: _ =>
    match StdinPipe proc, StdoutPipe proc with
    | Some e, _ => (None, Err ("stdin pipe: " +:+ e))
    | None, Some e => (None, Err ("stdout pipe: " +:+ e))
    | None, None =>
      match Start proc with
      | Err e => (None, Err ("start " +:+ cmd0 +:+ ": " +:+ e))
      | Ok s =>
        let '(s, fetched) := FetchToolsLive s in
        let s := CloseStdin proc s in
        let s := Wait proc s in
        (Some s, tools ← fetched; Ok (mkToolSet tools (Join cmd " ")))
      end
    end
  end.
End live.

(** ** A scripted server *)

(** What was sent, and the lines still to be read. *)
Abbreviation script := (list string * list string)%type.

Definition script_write (s : script) (line : string) : script * option string :=
  ((s.1 ++ [line], s.2), None).

Definition script_read (s : script) : script * (string * option string) :=
  match s.2 with
  | [] => (s, ("", Some "EOF"))
  | l :: ls => ((s.1, ls), (l, None))
  end.

Definition line_of (m : jsonrpcMessage) : string := Marshal (message_json m) +:+ newline.

Definition initialize_request : jsonrpcMessage :=
  mkMessage "2.0" (Some (JNum "1")) "initialize" (Some initialize_params) None None.
Definition initialized_notification : jsonrpcMessage :=
  mkMessage "2.0" None "notifications/initialized" None None None.
Definition list_request : jsonrpcMessage :=
  mkMessage "2.0" (Some (JNum "2")) "tools/list" None None None.

(** A response to request [id]. *)
Definition response (id : Z) (res : json) : jsonrpcMessage :=
  mkMessage "2.0" (Some (JNum (Itoa id))) "" None (Some res) None.

Definition decode_line (line : string) : option jsonrpcMessage := parse_json line ≫= message_into.

Lemma message_field_result m v :
  message_field m ("result", v) = Some (mkMessage (JSONRPC m) (MsgID m) (Method m) (Params m) (Some v) (MsgError m)).
Proof. by destruct m. Qed.

Lemma decode_response id res :
  nums_ok res -> depth res <= 9999 ->
  decode_line (line_of (response id res)) = Some (response id (json_clean res)).
Proof.
  intros Hn Hd. unfold decode_line, line_of.
  assert (Hjson : message_json (response id res) =
    JObj [("jsonrpc", JStr "2.0"); ("id", JNum (Itoa id)); ("result", res)]) by done.
  rewrite Hjson, (@parse_print compact compact_ws); [|..|done].
  - clean_keys. cbn [mbind option_bind message_into foldl]. cbn [mbind option_bind].
    change (message_field zero_message ("jsonrpc", JStr "2.0")) with (Some (mkMessage "2.0" None "" None None None)).
    cbn [mbind option_bind].
    change (message_field ?m ("id", ?v)) with (Some (mkMessage "2.0" (Some v) "" None None None)).
    cbn [mbind option_bind]. by rewrite message_field_result.
  - constructor. constructor; [constructor|]. constructor; [apply ok_num, num_ok_Itoa|].
    constructor; [exact Hn|constructor].
  - unfold maxNestingDepth. cbn [depth map snd max_list]. lia.
Qed.

Section handshake.
Context `{UnicodeTables}.

Lemma read_line_response s line msg ls :
  s.2 = line :: ls -> decode_line line = Some msg ->
  readResponse script_read s =
    ((s.1, ls), match MsgError msg with
                | Some e => Err ("server returned error " +:+ Itoa (Code e) +:+ ": " +:+ ErrMessage e)
                | None => Ok msg
                end).
Proof.
  intros Hs Hd. unfold readResponse, script_read. rewrite Hs.
  unfold decode_line in Hd. rewrite Hd. by destruct (MsgError msg).
Qed.

(** The exchange, up to the reply to [initialize]. *)
Lemma fetch_initialize line msg ls :
  decode_line line = Some msg ->
  FetchToolsLive script_write script_read ([], line :: ls) =
    match MsgError msg with
    | Some e => (([line_of initialize_request], ls),
        Err ("initialize: server returned error " +:+ Itoa (Code e) +:+ ": " +:+ ErrMessage e))
    | None =>
      match readResponse script_read
              ([line_of initialize_request; line_of initialized_notification; line_of list_request], ls) with
      | (s, Err e) => (s, Err ("tools/list: " +:+ e))
      | (s, Ok resp) =>
        match tools_of_result (Result resp) with
        | None => (s, Err "parse tools/list result")
        | Some tools => (s, Ok tools)
        end
      end
    end.
Proof.
  intros Hd. unfold FetchToolsLive.
  change (writeRequest script_write ([], line :: ls) 1 "initialize" (Some initialize_params)) with
    (([line_of initialize_request], line :: ls), @None string). cbv iota.
  rewrite (read_line_response ([line_of initialize_request], line :: ls) line msg ls eq_refl Hd). by destruct (MsgError msg).
Qed.
End handshake.

(** The tool a listed document describes, as the live intake builds it. *)
Definition live_tool (t : tool_doc) (m : option amap) : Tool :=
  mkTool (clean (td_name t)) (clean (td_description t)) m "" 0.

(** A listing as the second reply. *)
Lemma fetch_listed `{UnicodeTables} line msg docs ms ls :
  decode_line line = Some msg -> MsgError msg = None -> Forall2 schema_decodes docs ms ->
  FetchToolsLive script_write script_read
    ([], line :: line_of (response 2 (JObj [("tools", JArr (map tool_doc_json docs))])) :: ls) =
    ((map line_of [initialize_request; initialized_notification; list_request], ls),
     Ok (zip_with live_tool docs ms)).
Proof.
  intros Hmsg He Hd. rewrite (fetch_initialize _ _ _ Hmsg), He.
  destruct (docs_ok _ _ Hd) as [Hn Hdep]. destruct (slice_into_docs _ _ Hd) as (s & Hs & Helems).
  set (sent := [line_of initialize_request; line_of initialized_notification; line_of list_request]).
  rewrite (read_line_response (sent, _ :: ls) _ _ ls eq_refl (decode_response 2 (JObj [("tools", JArr (map tool_doc_json docs))])
    ltac:(constructor; constructor; [exact Hn|constructor]) ltac:(cbn [depth map snd max_list] in *; lia))).
  cbn [MsgError response Result fst]. clean_keys. unfold tools_of_result.
  cbn [mbind option_bind envelope_into foldl fst snd]. rewrite names_field_refl, Hs. cbn [mbind option_bind].
  rewrite Helems. do 2 f_equal. clear.
  revert ms. induction docs as [|t docs IH]; intros [|m ms]; [done..|]. simpl. by rewrite IH.
Qed.

(** *** Properties *)

(** C7. The live handshake against a scripted server. The client sends
    [initialize], waits for the reply, and only if that is no error sends
    [notifications/initialized] and [tools/list]; the lines it sends are the
    three JSON-RPC messages. With a listing as the second reply it returns
    exactly the tools listed, in order, each with its decoded schema. If the
    server is gone, nothing but [initialize] is sent and the outcome is an
    error. *)
Theorem live_handshake `{UnicodeTables} (line : string) (msg : jsonrpcMessage) (Hmsg : decode_line line = Some msg) :
  map decode_line (map line_of [initialize_request; initialized_notification; list_request])
    = map Some [initialize_request; initialized_notification; list_request] /\
  (forall e ls, MsgError msg = Some e ->
    FetchToolsLive script_write script_read ([], line :: ls) =
      (([line_of initialize_request], ls),
       Err ("initialize: server returned error " +:+ Itoa (Code e) +:+ ": " +:+ ErrMessage e))) /\
  (forall docs ms ls, MsgError msg = None -> Forall2 schema_decodes docs ms ->
    FetchToolsLive script_write script_read
      ([], line :: line_of (response 2 (JObj [("tools", JArr (map tool_doc_json docs))])) :: ls) =
      ((map line_of [initialize_request; initialized_notification; list_request], ls),
       Ok (zip_with live_tool docs ms))) /\
  FetchToolsLive script_write script_read ([], []) =
    (([line_of initialize_request], []), Err "initialize: EOF").
Proof.
  split; [by vm_compute|]. split; [|split; [|done]].
  - intros e ls He. by rewrite (fetch_initialize _ _ _ Hmsg), He.
  - intros docs ms ls He Hd. by apply (fetch_listed _ _ _ _ _ Hmsg).
Qed.

Lemma live_handshake_witness :
  (@FetchToolsLive latin1_tables script script_write script_read
    ([], [line_of (response 1 (JObj []));
          line_of (response 2 (JObj [("tools", JArr (map tool_doc_json [demo_doc]))]))])).2
  = Ok [mkTool "search" "Search the docs." (Some [("type", VStr "object")]) "" 0].
Proof.
  assert (decode_line (line_of (response 1 (JObj []))) = Some (response 1 (JObj []))) as Hm by (by vm_compute).
  assert (Forall2 schema_decodes [demo_doc] [Some [("type", VStr "object")]]) as Hd.
  { constructor; [|constructor]. split; [repeat constructor|]. split; [by apply Z.leb_le|done]. }
  pose proof (proj1 (proj2 (proj2 (@live_handshake latin1_tables _ _ Hm))) _ _ [] eq_refl Hd) as H.
  exact (f_equal snd H).
Defined.

(** The reply to a request is whichever line comes next: a notification the
    server sends first is taken for the listing, which then has no result. *)
Example live_notification :
  (@FetchToolsLive latin1_tables script script_write script_read
    ([], [line_of (response 1 (JObj [])); line_of initialized_notification;
          line_of (response 2 (JObj [("tools", JArr [])]))])).2
  = Err "parse tools/list result".
Proof. by vm_compute. Qed.
