(* ===== verification/Dispatch.v ===== *)
(** [internal/scanner/dispatch.go] and the directory walks of [pyintake.go]
    and [tsintake.go].

    The file system below a path is a tree: a file is the outcome of reading
    it, a directory is the outcome of listing it, in the order [os.ReadDir]
    returns the entries. *)
From S2P Require Import Prelude GoStrings GoUnicode GoPath GoRegexp Model.
From S2P Require Import GoJson RulesSchema IntakeJson IntakeTS IntakePy.

Inductive node :=
| File (content : result string string)
| Dir (read_err : option string) (entries : list (string * node)).

Section node_ind.
Context (P : node -> Prop) (Hfile : forall c, P (File c))
  (Hdir : forall e es, Forall (fun x => P (snd x)) es -> P (Dir e es)).
Fixpoint node_ind_nested (n : node) : P n :=
  match n with
  | File c => Hfile c
  | Dir e es => Hdir e es
    ((fix go es := match es return Forall (fun x => P (snd x)) es with
      | [] => List.Forall_nil _
      | x :: es => List.Forall_cons _ _ _ (node_ind_nested (snd x)) (go es) end) es)
  end.
End node_ind.

Definition is_dir (n : node) : bool := match n with Dir _ _ => true | File _ => false end.

Section walk.
Context (skip : string -> bool) (is_source : string -> bool)
        (load : string -> result string string -> result string ToolSet).

(** [filepath.WalkDir] with the callback of [LoadPythonDir] and
    [LoadTypeScriptDir]: [name] is the entry's own name, and the tools
    found are appended to [all]. *)
Fixpoint walk (path name : string) (n : node) (all : list Tool) : result string (list Tool) :=
  match n with
  | File content =>
    if negb (is_source path) then Ok all
    else set ← load path content; Ok (all ++ Tools set)
  | Dir read_err entries =>
    if skip name then Ok all
    else match read_err with
    | Some e => Err e
    | None =>
      (fix go (es : list (string * node)) (all : list Tool) : result string (list Tool) :=
        match es with
        | [] => Ok all
        | (nm, c) :: es => all ← walk (JoinPath path nm) nm c all; go es all
        end) entries all
    end
  end.

Definition load_dir (dir : string) (n : node) : result string ToolSet :=
  all ← walk dir (basename dir) n []; Ok (mkToolSet all dir).
End walk.

Definition LoadPythonDir (dir : string) (n : node) : result string ToolSet :=
  load_dir shouldSkipDir (fun path => HasSuffix path ".py") LoadPythonFile dir n.

Definition LoadTypeScriptDir (dir : string) (n : node) : result string ToolSet :=
  load_dir shouldSkipTSDir isTypeScriptSourceFile LoadTypeScriptFile dir n.

(** [dirHasExtension]; a directory that cannot be listed has no file. *)
Definition dirHasExtension (n : node) (ext : string) : bool :=
  match n with
  | Dir None entries => existsb (fun e => negb (is_dir e.2) && HasSuffix e.1 ext) entries
  | _ => false
  end.

(** [Load]; [stat] is what [os.Stat] finds at the path. *)
Definition Load (path : string) (stat : result string node) : result string ToolSet :=
  match stat with
  | Err e => Err ("stat " +:+ path +:+ ": " +:+ e)
  | Ok (Dir _ _ as n) =>
    if dirHasExtension n ".py" then LoadPythonDir path n else LoadTypeScriptDir path n
  | Ok (File content) =>
    if HasSuffix path ".json" then LoadToolsJSON path content
    else if HasSuffix path ".py" then LoadPythonFile path content
    else if isTypeScriptSourceFile path then LoadTypeScriptFile path content
    else Err ("unsupported intake for " +:+ path +:+
              " (want .json, .py, .ts/.tsx/.js/.mjs/.cjs, or a directory)")
  end.

(** ** What a walk visits *)

Section walk_spec.
Context (skip : string -> bool) (is_source : string -> bool)
        (load : string -> result string string -> result string ToolSet).

(** A source file is reached through directories that are not skipped. *)
Inductive reaches : string -> string -> node -> string -> result string string -> Prop :=
| reach_file path name c : is_source path = true -> reaches path name (File c) path c
| reach_entry path name es nm n p c :
    skip name = false -> (nm, n) ∈ es -> reaches (JoinPath path nm) nm n p c ->
    reaches path name (Dir None es) p c.

(** The source files in the order of the walk. *)
Fixpoint sources (path name : string) (n : node) : list (string * result string string) :=
  match n with
  | File c => if is_source path then [(path, c)] else []
  | Dir _ es =>
    if skip name then [] else
    (fix go es := match es with
     | [] => []
     | (nm, n) :: es => sources (JoinPath path nm) nm n ++ go es end) es
  end.

(** Every directory the walk enters can be listed. *)
Fixpoint listable (name : string) (n : node) : bool :=
  match n with
  | File _ => true
  | Dir e es =>
    skip name || (match e with None => true | Some _ => false end &&
      (fix go es := match es with
       | [] => true
       | (nm, n) :: es => listable nm n && go es end) es)
  end.

(** Loading the files one after the other, stopping at the first error. *)
Fixpoint load_all (files : list (string * result string string)) (all : list Tool) :
    result string (list Tool) :=
  match files with
  | [] => Ok all
  | (p, c) :: files => set ← load p c; load_all files (all ++ Tools set)
  end.

Lemma load_all_app f1 f2 all : load_all (f1 ++ f2) all = (all' ← load_all f1 all; load_all f2 all').
Proof.
  revert all. induction f1 as [|[p c] f1 IH]; intros all; [done|]. simpl.
  destruct (load p c); [apply IH|done].
Qed.

Lemma walk_sources n : forall path name all,
  listable name n = true -> walk skip is_source load path name n all = load_all (sources path name n) all.
Proof.
  induction n as [c|e es IH] using node_ind_nested; intros path name all Hl; simpl in *.
  - destruct (is_source path); [|done]. simpl. by destruct (load path c).
  - destruct (skip name); [done|]. destruct e; [done|]. simpl in Hl.
    revert all. induction IH as [|[nm n] es Hn _ IHes]; intros all; [done|].
    apply andb_true_iff in Hl as [Hln Hl]. simpl in Hn. rewrite Hn by done. rewrite load_all_app.
    destruct (load_all (sources (JoinPath path nm) nm n) all) as [all'|]; [|done]. simpl. by apply IHes.
Qed.

Lemma elem_of_sources n : forall path name p c,
  listable name n = true -> (p, c) ∈ sources path name n <-> reaches path name n p c.
Proof.
  induction n as [c0|e es IH] using node_ind_nested; intros path name p c Hl; simpl in *.
  - split.
    + destruct (is_source path) eqn:E; [|set_solver]. intros [= -> ->]%list_elem_of_singleton. by constructor.
    + inversion 1 as [? ? ? Hsrc|]; subst. rewrite Hsrc. by left.
  - destruct (skip name) eqn:Es; simpl in Hl.
    + split; [set_solver|]. inversion 1; congruence.
    + destruct e; [done|]. simpl in Hl. split.
      * intros Hin. assert (exists nm n, (nm, n) ∈ es /\ reaches (JoinPath path nm) nm n p c) as (nm & n & Hn & Hr).
        { induction IH as [|[nm n] es Hn _ IHes]; [set_solver|]. apply andb_true_iff in Hl as [Hln Hl].
          apply elem_of_app in Hin as [Hin|Hin].
          - exists nm, n. split; [left|]. by apply Hn.
          - destruct (IHes Hl Hin) as (nm' & n' & ? & ?). exists nm', n'. split; [by right|done]. }
        by eapply reach_entry.
      * inversion 1 as [|? ? ? nm n ? ? _ Hn Hr]; subst. clear H.
        induction IH as [|[nm' n'] es Hn' _ IHes]; [set_solver|]. apply andb_true_iff in Hl as [Hln Hl].
        apply elem_of_app. apply elem_of_cons in Hn as [[= <- <-]|Hn].
        -- left. by apply Hn'.
        -- right. by apply IHes.
Qed.
End walk_spec.

(** *** Properties *)

(** The walk a directory path gets, by its contents. *)
Definition dir_skip (n : node) : string -> bool := if dirHasExtension n ".py" then shouldSkipDir else shouldSkipTSDir.
Definition dir_source (n : node) : string -> bool :=
  if dirHasExtension n ".py" then (fun path => HasSuffix path ".py") else isTypeScriptSourceFile.
Definition dir_loader (n : node) : string -> result string string -> result string ToolSet :=
  if dirHasExtension n ".py" then LoadPythonFile else LoadTypeScriptFile.


Definition demo_entries : list (string * node) := [
  ("dist", Dir (Some "permission denied") []);
  ("server.ts", File (Ok "server.tool('ping', 'Answer.')"));
  ("README.md", File (Ok "nothing"))].

Definition demo_tree : node := Dir None demo_entries.


Example load_demo : Load "proj" (Ok demo_tree) = Ok (mkToolSet [mkTool "ping" "Answer." None "proj/server.ts" 1] "proj").
Proof. vm_compute. reflexivity. Qed.

(** A project that lives in a directory named [build] is not analysed. *)
Example load_skipped : Load "./build" (Ok demo_tree) = Ok (mkToolSet [] "./build").
Proof. reflexivity. Qed.
