(* ===== verification/Main.v ===== *)
(** [cmd/mcpcheck/main.go]: what the command does once its flags are parsed.

    Standard output is any state with a [Write] that may fail; standard error
    is the list of lines written to it; the outcome is the exit status. The
    file system is the tree [os.Stat] finds at the argument, and the live
    server is the process of [IntakeLive]. *)
From S2P Require Import Prelude GoNum GoStrings GoUnicode GoPath GoRegexp Model GoJson Registry.
From S2P Require Import RulesNaming RulesSchema RulesText RuleSet Output IntakeJson IntakeLive Dispatch.
Open Scope Z_scope.

Record flags := mkFlags {
  format : string; listRules : bool; live : string; args : list string
}.

Section main.
Context `{UnicodeTables} `{MapIter} `{JSONSchema}.
Context {W : Type} (Write : W -> string -> W * option string).
(** The other end of the live session. *)
Context {S : Type} (send : S -> string -> S * option string)
        (receive : S -> S * (string * option string)).

(** ** Findings *)

Definition set_findings (set : option ToolSet) : list Finding :=
  match set with
  | None => []
  | Some set => (t ← Tools set; Run registered t) ++ RunProject registered set
  end.

Definition all_findings (static live : option ToolSet) : list Finding :=
  let findings := set_findings static ++ set_findings live in
  match static, live with
  | Some _, Some _ => findings ++ RunComparison registered static live
  | _, _ => findings
  end.

(** ** Writing *)

(** The writer of a format: the chunks it writes. *)
Definition write_findings (fmt : string) (findings : list Finding) : result string (list string) :=
  if (fmt =? "text")%string then Ok (WriteText findings)
  else if (fmt =? "json")%string then Ok (WriteJSON findings)
  else if (fmt =? "sarif")%string then Ok (WriteSARIF registered findings)
  else Err ("unknown --format " +:+ Quote fmt +:+ " (want text|json|sarif)").

(** The outcome of a step: an error for [main] to report, or the status the
    process ends with. *)
Definition analyzeAll (w : W) (static live : option ToolSet) (fmt : string) : W * result string Z :=
  let findings := all_findings static live in
  match write_findings fmt findings with
  | Err e => (w, Err e)
  | Ok chunks =>
    match write_all Write w chunks with
    | (w, Some e) => (w, Err e)
    | (w, None) =>
      (w, Ok (if existsb (fun f => (FSeverity f =? SevError)%string) findings then 1 else 0))
    end
  end.

Definition writeRules (w : W) (fmt : string) : W * result string Z :=
  let emit chunks :=
    match write_all Write w chunks with (w, Some e) => (w, Err e) | (w, None) => (w, Ok 0) end in
  if (fmt =? "text")%string then emit (WriteRulesText registered)
  else if (fmt =? "json")%string then emit (WriteRulesJSON registered)
  else if (fmt =? "sarif")%string
  then (w, Err "--format sarif is not supported with --list-rules (use json or text)")
  else (w, Err ("unknown --format " +:+ Quote fmt +:+ " (want text|json)")).

Definition loadLiveCmd (proc : process (S := S)) (cmd : string) : result string ToolSet :=
  match Fields cmd with
  | [] => Err "--live: empty command"
  | parts => (LoadLive send receive proc parts).2
  end.

Definition usage : list string := [
  "usage: mcpcheck [--format text|json|sarif] <path>";
  "       mcpcheck --list-rules [--format text|json]";
  "  path: .json (tools/list response), .py / .ts / .tsx / .js / .mjs / .cjs file, or a directory"].

(** Both intakes, the static one first. *)
Definition load_inputs (f : flags) (stat : string -> result string node) (proc : process (S := S)) :
    result string (option ToolSet * option ToolSet) :=
  static ← match args f with
           | [path] => Some <$> Load path (stat path)
           | _ => Ok None
           end;
  live ← (if negb (live f =? "")%string then Some <$> loadLiveCmd proc (live f) else Ok None);
  Ok (static, live).

(** Standard output, standard error, exit status. *)
Definition main (f : flags) (stat : string -> result string node) (proc : process (S := S)) (w : W) :
    W * list string * Z :=
  let finish (r : W * result string Z) :=
    match r with
    | (w, Ok code) => (w, [], code)
    | (w, Err e) => (w, ["mcpcheck: " +:+ e], 1)
    end in
  if listRules f then finish (writeRules w (format f))
  else
    let hasLive := negb (live f =? "")%string in
    let hasPath := (length (args f) =? 1)%nat in
    if negb hasLive && negb hasPath then (w, usage, 2)
    else if (1 <? length (args f))%nat then (w, usage, 2)
    else
      match load_inputs f stat proc with
      | Err e => (w, ["mcpcheck: " +:+ e], 1)
      | Ok (static, live) => finish (analyzeAll w static live (format f))
      end.

(** ** What the exit status means *)

(** A rule reports something about the inputs. *)
Inductive reports (static live : option ToolSet) (r : Rule) : Prop :=
| reports_tool set t impl :
    Some set ∈ [static; live] -> t ∈ Tools set -> Implementation r = Some impl -> impl t <> [] ->
    reports static live r
| reports_project set impl :
    Some set ∈ [static; live] -> ProjectImplementation r = Some impl -> impl set <> [] ->
    reports static live r
| reports_comparison s l impl :
    static = Some s -> live = Some l ->
    ComparisonImplementation r = Some impl -> impl static live <> [] ->
    reports static live r.

Lemma elem_of_map_ne {A B} (f : A -> B) l x : x ∈ map f l -> l <> [].
Proof. destruct l; [by intros ?%not_elem_of_nil|done]. Qed.

Lemma finding_of_rule static live f :
  f ∈ all_findings static live ->
  exists r, r ∈ registered /\ FSeverity f = RSeverity r /\ reports static live r.
Proof.
  assert (Hset : forall set, Some set ∈ [static; live] -> f ∈ set_findings (Some set) ->
    exists r, r ∈ registered /\ FSeverity f = RSeverity r /\ reports static live r).
  { intros set Hs [Hin|Hin]%elem_of_app.
    - apply list_elem_of_bind in Hin as (t & Hf & Ht). rewrite Run_concat in Hf.
      apply list_elem_of_bind in Hf as (r & Hf & Hr). exists r.
      destruct (Implementation r) as [impl|] eqn:E; [|by apply not_elem_of_nil in Hf].
      split; [done|]. split; [by apply elem_of_map in Hf as (m & -> & _)|].
      eapply reports_tool; [done..|]. by eapply elem_of_map_ne.
    - rewrite RunProject_concat in Hin. apply list_elem_of_bind in Hin as (r & Hf & Hr). exists r.
      destruct (ProjectImplementation r) as [impl|] eqn:E; [|by apply not_elem_of_nil in Hf].
      split; [done|]. split; [by apply elem_of_map in Hf as (m & -> & _)|].
      eapply reports_project; [done..|]. by eapply elem_of_map_ne. }
  unfold all_findings. intros Hin.
  assert (Hboth : f ∈ set_findings static ++ set_findings live \/
    exists s l, static = Some s /\ live = Some l /\ f ∈ RunComparison registered static live).
  { destruct static, live; try (by left). apply elem_of_app in Hin as [?|?]; [by left|right; eauto]. }
  destruct Hboth as [[Hs|Hs]%elem_of_app|(s & l & -> & -> & Hc)].
  - destruct static as [s|]; [|by apply not_elem_of_nil in Hs]. apply (Hset s); [left|done].
  - destruct live as [l|]; [|by apply not_elem_of_nil in Hs]. apply (Hset l); [right; left|done].
  - rewrite RunComparison_concat in Hc. apply list_elem_of_bind in Hc as (r & Hf & Hr). exists r.
    destruct (ComparisonImplementation r) as [impl|] eqn:E; [|by apply not_elem_of_nil in Hf].
    split; [done|]. split.
    + apply elem_of_map in Hf as (c & -> & _). by destruct c.
    + eapply reports_comparison; [done..|]. by eapply elem_of_map_ne.
Qed.

Lemma map_ne_elem {A B} (f : A -> B) l : l <> [] -> exists a, f a ∈ map f l.
Proof. destruct l as [|a l]; [done|]. intros _. exists a. left. Qed.

Lemma rule_finding static live r :
  r ∈ registered -> reports static live r ->
  exists f, f ∈ all_findings static live /\ FSeverity f = RSeverity r.
Proof.
  intros Hr Hrep.
  assert (Hset : forall set f, Some set ∈ [static; live] -> f ∈ set_findings (Some set) -> f ∈ all_findings static live).
  { intros set f Hs Hf. unfold all_findings.
    assert (f ∈ set_findings static ++ set_findings live).
    { apply elem_of_app. apply elem_of_cons in Hs as [<-|Hs]; [by left|].
      apply list_elem_of_singleton in Hs as <-. by right. }
    destruct static, live; try done. apply elem_of_app. by left. }
  destruct Hrep as [set t impl Hs Ht Hi Hne|set impl Hs Hi Hne|s l impl -> -> Hi Hne].
  - destruct (map_ne_elem (finding_of r t) _ Hne) as [m Hm]. exists (finding_of r t m).
    split; [|done]. apply (Hset set); [done|]. apply elem_of_app. left.
    apply list_elem_of_bind. exists t. split; [|done]. rewrite Run_concat. apply list_elem_of_bind.
    exists r. by rewrite Hi.
  - destruct (map_ne_elem (fun tm => finding_of r tm.1 tm.2) _ Hne) as [m Hm]. exists (finding_of r m.1 m.2).
    split; [|done]. apply (Hset set); [done|]. apply elem_of_app. right.
    rewrite RunProject_concat. apply list_elem_of_bind. exists r. by rewrite Hi.
  - destruct (map_ne_elem (finding_of_call r) _ Hne) as [m Hm]. exists (finding_of_call r m).
    split; [|by destruct m]. unfold all_findings. apply elem_of_app. right.
    rewrite RunComparison_concat. apply list_elem_of_bind. exists r. by rewrite Hi.
Qed.

Lemma error_finding_iff static live :
  existsb (fun f => (FSeverity f =? SevError)%string) (all_findings static live) = true <->
  exists r, r ∈ registered /\ RSeverity r = SevError /\ reports static live r.
Proof.
  rewrite existsb_exists. split.
  - intros (f & Hf%list_elem_of_In & Hs%String.eqb_eq). apply finding_of_rule in Hf as (r & Hr & E & Hrep).
    exists r. split; [done|]. split; [congruence|done].
  - intros (r & Hr & Hs & Hrep). destruct (rule_finding static live r Hr Hrep) as (f & Hf & E).
    exists f. split; [by apply list_elem_of_In|]. apply String.eqb_eq. congruence.
Qed.
End main.

(** A standard output that takes everything. *)
Definition append_write (w : list string) (chunk : string) : list string * option string := (w ++ [chunk], None).

Lemma write_all_append w chunks : write_all append_write w chunks = (w ++ chunks, None).
Proof.
  revert w. induction chunks as [|c chunks IH]; intros w; simpl; [by rewrite app_nil_r|].
  by rewrite IH, <- app_assoc.
Qed.

(** *** Properties *)


Definition no_process : process (S := script) :=
  mkProcess None None (Err "no live command") id id.

