(* ===== verification/EndToEnd.v ===== *)
(** The command from end to end: [cmd/mcpcheck] with [--format json] on a dump of
    [tools/list], over the intake, the rules, the dispatchers and the writer
    it composes. *)
From S2P Require Import Prelude GoNum GoStrings GoUnicode GoPath GoRegexp Model GoJson Registry.
From S2P Require Import RulesNaming RulesSchema RulesText RuleSet Output IntakeJson IntakeLive Dispatch Main.
Open Scope Z_scope.

Section end_to_end.
Context `{UnicodeTables} `{MapIter} `{JSONSchema}.

(** What a rule has to say about one set of tools: tool by tool, then about the
    set. *)
Definition own_findings (r : Rule) (set : option ToolSet) : list Finding :=
  match set with
  | None => []
  | Some set =>
    (t ← Tools set; map (finding_of r t) (default (fun _ => []) (Implementation r) t)) ++
    map (fun tm => finding_of r tm.1 tm.2) (default (fun _ => []) (ProjectImplementation r) set)
  end.

(** And about two sets. *)
Definition own_comparison (r : Rule) (static live : option ToolSet) : list Finding :=
  match static, live with
  | Some _, Some _ => map (finding_of_call r) (default (fun _ _ => []) (ComparisonImplementation r) static live)
  | _, _ => []
  end.

Definition own_report (r : Rule) (static live : option ToolSet) : list Finding :=
  own_findings r static ++ own_findings r live ++ own_comparison r static live.

Lemma all_findings_parts static live : all_findings static live =
  set_findings static ++ set_findings live ++
  match static, live with Some _, Some _ => RunComparison registered static live | _, _ => [] end.
Proof. unfold all_findings. destruct static, live; by rewrite ?app_nil_r, <- ?app_assoc. Qed.

Lemma filter_set_findings r set : r ∈ registered ->
  filter (fun f => RuleID f = ID r) (set_findings set) = own_findings r set.
Proof.
  intros Hr. destruct set as [set|]; [|done]. unfold set_findings, own_findings.
  rewrite filter_app, filter_RunProject by (done || apply registered_wf). f_equal.
  induction (Tools set) as [|t ts IH]; [done|]. rewrite !bind_cons, filter_app, IH.
  by rewrite filter_Run by (done || apply registered_wf).
Qed.

Lemma filter_all_findings r static live : r ∈ registered ->
  filter (fun f => RuleID f = ID r) (all_findings static live) = own_report r static live.
Proof.
  intros Hr. rewrite all_findings_parts, !filter_app, !filter_set_findings by done. unfold own_report. do 2 f_equal.
  destruct static, live; try done. by apply filter_RunComparison; [apply registered_wf|].
Qed.

(** The texts that identify a rule survive the JSON encoder. *)
Lemma registered_clean r : r ∈ registered ->
  clean (ID r) = ID r /\ clean (RSeverity r) = RSeverity r /\ clean (RCategory r) = RCategory r.
Proof.
  rewrite registered_eq. unfold init_rules. intros Hr.
  repeat (apply elem_of_cons in Hr as [->|Hr]; [by vm_compute|]). by apply not_elem_of_nil in Hr.
Qed.

(** A finding was made by a registered rule, about a tool of one of the sets. *)
Definition from_tools (static live : option ToolSet) (f : Finding) : Prop :=
  exists r t, r ∈ registered /\ t ∈ from_option Tools [] static ++ from_option Tools [] live /\
    RuleID f = ID r /\ FSeverity f = RSeverity r /\ FSourceLine f = SourceLine t.

(** Encoding keeps the findings of a rule together. *)
Lemma filter_clean id fs : Forall (fun f => clean (RuleID f) = RuleID f) fs ->
  filter (fun f => RuleID f = id) (map clean_finding fs) = map clean_finding (filter (fun f => RuleID f = id) fs).
Proof.
  induction 1 as [|f fs Hf _ IH]; [done|]. cbn [map]. rewrite !filter_cons, IH.
  unfold clean_finding at 1. simpl. rewrite Hf. by destruct (decide (RuleID f = id)).
Qed.

(** The verdict may be read off the findings as printed. *)
Lemma verdict_clean fs : Forall (fun f => clean (FSeverity f) = FSeverity f) fs ->
  (if existsb (fun f => (FSeverity f =? SevError)%string) fs then 1 else 0) =
  (if decide (Exists (fun f => FSeverity f = SevError) (map clean_finding fs)) then 1 else 0).
Proof.
  intros Hclean. destruct (existsb _ fs) eqn:E; case_decide as Hd; try done; exfalso.
  - apply Hd, Exists_exists. apply existsb_exists in E as (f & Hf%list_elem_of_In & Hs%String.eqb_eq).
    exists (clean_finding f). split; [by apply list_elem_of_fmap_2|]. simpl.
    rewrite Forall_forall in Hclean. by rewrite Hclean.
  - apply not_true_iff_false in E. apply E, existsb_exists.
    apply Exists_exists in Hd as (g & (f & -> & Hf)%list_elem_of_fmap & Hs).
    exists f. split; [by apply list_elem_of_In|]. apply String.eqb_eq.
    rewrite Forall_forall in Hclean. simpl in Hs. by rewrite Hclean in Hs.
Qed.

(** The one rule that looks at a whole set reports tools of the set. *)
Lemma project_reports_set set r tm : r ∈ registered ->
  tm ∈ default (fun _ => []) (ProjectImplementation r) set -> tm.1 ∈ Tools set.
Proof.
  rewrite registered_eq. unfold init_rules. intros Hr Htm.
  apply elem_of_cons in Hr as [->|Hr].
  - simpl in Htm. assert (tm.1 ∈ (collision_impl set).*1) as Hin by (by apply list_elem_of_fmap_2).
    rewrite collision_impl_tools in Hin. by apply list_elem_of_bind in Hin as (n & [_ ?]%list_elem_of_filter & _).
  - repeat (apply elem_of_cons in Hr as [->|Hr]; [by apply not_elem_of_nil in Htm|]). by apply not_elem_of_nil in Hr.
Qed.

Lemma set_findings_from set f : f ∈ set_findings set -> exists r t, r ∈ registered /\
  t ∈ from_option Tools [] set /\ RuleID f = ID r /\ FSeverity f = RSeverity r /\ FSourceLine f = SourceLine t.
Proof.
  destruct set as [set|]; [|by intros ?%not_elem_of_nil]. unfold set_findings. intros [Hf|Hf]%elem_of_app.
  - apply list_elem_of_bind in Hf as (t & Hf & Ht). rewrite Run_concat in Hf.
    apply list_elem_of_bind in Hf as (r & (m & -> & _)%elem_of_map & Hr). by exists r, t.
  - rewrite RunProject_concat in Hf. apply list_elem_of_bind in Hf as (r & (tm & -> & Htm)%elem_of_map & Hr).
    exists r, tm.1. split_and!; try done. by apply (project_reports_set set r).
Qed.

(** The one comparison rule reports tools of the two sets. *)
Lemma comparison_from s l f : f ∈ RunComparison registered (Some s) (Some l) -> from_tools (Some s) (Some l) f.
Proof.
  rewrite RunComparison_concat. intros (r & (c & -> & Hc)%elem_of_map & Hr)%list_elem_of_bind.
  pose proof Hr as Hr'. rewrite registered_eq in Hr'. unfold init_rules in Hr'.
  do 10 (apply elem_of_cons in Hr' as [->|Hr']; [by apply not_elem_of_nil in Hc|]).
  apply list_elem_of_singleton in Hr' as ->. simpl in Hc.
  apply static_vs_live_tools in Hc as (t & msg & -> & Ht). exists static_vs_live_rule, t.
  split_and!; try done. by apply elem_of_app.
Qed.

Lemma all_findings_from static live : Forall (from_tools static live) (all_findings static live).
Proof.
  apply Forall_forall. intros f. rewrite all_findings_parts. intros [Hf|[Hf|Hf]%elem_of_app]%elem_of_app.
  - apply set_findings_from in Hf as (r & t & ? & ? & ?). exists r, t. split_and!; try tauto. apply elem_of_app. by left.
  - apply set_findings_from in Hf as (r & t & ? & ? & ?). exists r, t. split_and!; try tauto. apply elem_of_app. by right.
  - destruct static, live; try (by apply not_elem_of_nil in Hf). by apply comparison_from.
Qed.

(** ** What a run must print

    One JSON document and nothing else. Read back, the findings that carry the
    ID of a registered rule are what that rule says about the tools, in order;
    every finding carries the ID and the severity of a registered rule; and the
    status is 1 if one of them is an error and 0 if none is. *)
Definition prints_report (static live : option ToolSet) (r : list string * list string * Z) : Prop :=
  let '(out, err, code) := r in
  err = [] /\
  exists doc findings, parse_json (str_concat out) = Some doc /\ read_findings doc = Some findings /\
    (forall r, r ∈ registered ->
       filter (fun f => RuleID f = ID r) findings = map clean_finding (own_report r static live)) /\
    Forall (fun f => exists r, r ∈ registered /\ RuleID f = ID r /\ FSeverity f = RSeverity r) findings /\
    code = (if decide (Exists (fun f => FSeverity f = SevError) findings) then 1 else 0).

Lemma findings_printed static live :
  Forall (fun t => int64_ok (SourceLine t)) (from_option Tools [] static ++ from_option Tools [] live) ->
  let findings := all_findings static live in
  prints_report static live
    (WriteJSON findings, [], if existsb (fun f => (FSeverity f =? SevError)%string) findings then 1 else 0).
Proof.
  intros Hlines findings. subst findings. rewrite Forall_forall in Hlines. split; [done|].
  exists (json_clean (JArr (map finding_json (all_findings static live)))), (map clean_finding (all_findings static live)).
  pose proof (all_findings_from static live) as Hfrom. rewrite Forall_forall in Hfrom.
  assert (forall f, f ∈ all_findings static live -> clean (RuleID f) = RuleID f /\ clean (FSeverity f) = FSeverity f) as Hclean.
  { intros f (r & t & Hr & _ & -> & -> & _)%Hfrom. by destruct (registered_clean r Hr) as (? & ? & _). }
  split_and!.
  - apply json_findings_parse.
  - apply json_findings_decode, Forall_forall. intros f (r & t & _ & Ht & _ & _ & ->)%Hfrom. by apply Hlines.
  - intros r Hr. rewrite filter_clean by (apply Forall_forall; intros; by apply Hclean).
    by rewrite filter_all_findings.
  - apply Forall_fmap, Forall_forall. intros f Hf. destruct (Hclean f Hf) as [Hid Hsev]. simpl. rewrite Hid, Hsev.
    destruct (Hfrom f Hf) as (r & t & ? & _ & ? & ? & _). by exists r.
  - apply verdict_clean, Forall_forall. intros f Hf. by apply Hclean.
Qed.

(** A run with one argument, past its inputs. *)
Lemma main_json {S} (send : S -> string -> S * option string) receive cmd path stat (proc : process (S := S)) static live :
  load_inputs send receive (mkFlags "json" false cmd [path]) stat proc = Ok (static, live) ->
  main append_write send receive (mkFlags "json" false cmd [path]) stat proc [] =
  (WriteJSON (all_findings static live), [],
   if existsb (fun f => (FSeverity f =? SevError)%string) (all_findings static live) then 1 else 0).
Proof.
  intros Hload. unfold main. rewrite Hload. cbn [listRules Main.live args length Nat.eqb Nat.ltb Nat.leb format].
  rewrite andb_false_r. unfold analyzeAll.
  change (write_findings "json" ?fs) with (@Ok string _ (WriteJSON fs)). cbv beta iota.
  by rewrite write_all_append.
Qed.

Lemma load_dump path raw docs ms : Forall2 schema_decodes docs ms -> raw ∈ printings docs ->
  HasSuffix path ".json" = true ->
  Load path (Ok (File (Ok raw))) = Ok (mkToolSet (zip_with tool_of_doc docs ms) path).
Proof. intros Hd Hraw Hpath. unfold Load, LoadToolsJSON. by rewrite Hpath, (intake_of_printed docs ms). Qed.

Lemma no_lines {A B} (f : A -> B -> Tool) l k : (forall a b, SourceLine (f a b) = 0) ->
  Forall (fun t => int64_ok (SourceLine t)) (zip_with f l k).
Proof.
  intros Hf. apply Forall_forall. intros t (i & a & b & -> & _)%elem_of_lookup_zip_with.
  rewrite Hf. by apply (bool_decide_unpack (int64_ok 0)).
Qed.

Lemma zip_names f docs ms : (forall d m, Name (f d m) = clean (td_name d)) -> Forall2 schema_decodes docs ms ->
  Name <$> zip_with f docs ms = map (fun d => clean (td_name d)) docs.
Proof. intros Hf. induction 1 as [|d m docs ms _ _ IH]; [done|]. cbn [zip_with map]. rewrite fmap_cons. by rewrite Hf, IH. Qed.

Lemma zip_names_iff {A} (g : A -> string) l n : n ∈ map g l <-> exists a, a ∈ l /\ n = g a.
Proof. rewrite elem_of_map. naive_solver. Qed.

(** What the comparison rule says of a dump and a listing. *)
Lemma mismatch_silent docs docs' ms ms' path cmd :
  Forall2 schema_decodes docs ms -> Forall2 schema_decodes docs' ms' ->
  own_report static_vs_live_rule (Some (mkToolSet (zip_with tool_of_doc docs ms) path))
    (Some (mkToolSet (zip_with live_tool docs' ms') cmd)) = [] <->
  forall n, (exists d, d ∈ docs /\ n = clean (td_name d)) <-> (exists d, d ∈ docs' /\ n = clean (td_name d)).
Proof.
  intros Hd Hd'. unfold own_report, own_findings. cbn [Tools default static_vs_live_rule Implementation ProjectImplementation map].
  assert (forall ts, (_ ← (ts : list Tool); ([] : list Finding)) = []) as Hnil by (induction ts; done).
  rewrite !Hnil.
  change (map (finding_of_call static_vs_live_rule) (static_vs_live_impl (Some (mkToolSet (zip_with tool_of_doc docs ms) path))
    (Some (mkToolSet (zip_with live_tool docs' ms') cmd))) = [] <->
    forall n, (exists d, d ∈ docs /\ n = clean (td_name d)) <-> (exists d, d ∈ docs' /\ n = clean (td_name d))).
  trans (static_vs_live_impl (Some (mkToolSet (zip_with tool_of_doc docs ms) path))
    (Some (mkToolSet (zip_with live_tool docs' ms') cmd)) = []); [split; [apply map_eq_nil|by intros ->]|].
  rewrite static_vs_live_silent. cbn [Tools].
  rewrite !zip_names by done. by setoid_rewrite zip_names_iff.
Qed.
End end_to_end.

(** Both intakes, against a scripted server. *)
Lemma load_both `{UnicodeTables} stat path raw cmd line msg rest docs docs' ms ms' close wait :
  Forall2 schema_decodes docs ms -> raw ∈ printings docs -> HasSuffix path ".json" = true ->
  stat path = Ok (File (Ok raw)) -> Fields cmd <> [] -> decode_line line = Some msg -> MsgError msg = None ->
  Forall2 schema_decodes docs' ms' ->
  load_inputs script_write script_read (mkFlags "json" false cmd [path]) stat
    (mkProcess None None
       (Ok ([], line :: line_of (response 2 (JObj [("tools", JArr (map tool_doc_json docs'))])) :: rest)) close wait) =
  Ok (Some (mkToolSet (zip_with tool_of_doc docs ms) path), Some (mkToolSet (zip_with live_tool docs' ms') (Join (Fields cmd) " "))).
Proof.
  intros Hd Hraw Hpath Hstat Hcmd Hinit Hok Hd'. unfold load_inputs. cbn [args live].
  rewrite Hstat, (load_dump _ _ _ _ Hd Hraw Hpath). cbn [fmap result_fmap mbind result_bind].
  destruct (String.eqb_spec cmd "") as [->|_]; [by vm_compute in Hcmd|]. cbn [negb].
  unfold loadLiveCmd. destruct (Fields cmd) as [|cmd0 parts]; [done|]. cbn [LoadLive StdinPipe StdoutPipe Start].
  by rewrite (fetch_listed _ _ _ _ _ Hinit Hok Hd').
Qed.

(** [mcpcheck --list-rules --format json] loads nothing and prints every
    registered rule once, in the order of the IDs. *)
Lemma list_rules_report `{UnicodeTables} `{MapIter} `{JSONSchema} {S}
  (send : S -> string -> S * option string) (receive : S -> S * (string * option string))
  cmd argv (stat : string -> result string node) (proc : process (S := S)) :
  let '(out, err, code) := main append_write send receive (mkFlags "json" true cmd argv) stat proc [] in
  err = [] /\ code = 0 /\
  exists doc rows, parse_json (str_concat out) = Some doc /\ (jarr doc ≫= mapM read_rule) = Some rows /\
    rows ≡ₚ map rule_row_of registered /\ map row_id rows = sort_Strings (map ID registered).
Proof.
  destruct (rules_json_read registered) as (doc & Hp & Hr).
  change (main append_write send receive (mkFlags "json" true cmd argv) stat proc []) with
    (WriteRulesJSON registered, @nil string, 0).
  split; [done|]. split; [done|]. exists doc, (map rule_row_of (isort rule_leb registered)).
  split; [done|]. split; [done|]. split; [by rewrite isort_perm|by vm_compute].
Qed.



(** A dump that lists one tool twice. *)
Definition twice : list tool_doc := [demo_doc; demo_doc].
Definition twice_schemas : list (option amap) := [Some [("type", VStr "object")]; Some [("type", VStr "object")]].
Definition twice_file : string := Marshal (JObj [("tools", JArr (map tool_doc_json twice))]).
Definition twice_set : ToolSet := mkToolSet (zip_with tool_of_doc twice twice_schemas) "dump.json".

Lemma demo_decodes : schema_decodes demo_doc (Some [("type", VStr "object")]).
Proof. split; [repeat constructor|]. split; [by apply Z.leb_le|done]. Qed.


(** Both copies are reported. *)
Example twice_reported : length (own_findings (@collision_rule latin1_tables canonical_iter) (Some twice_set)) = 2%nat.
Proof. vm_compute. reflexivity. Qed.

(** A server that lists nothing, asked about a dump of two tools. *)
Definition empty_server : list string :=
  [line_of (response 1 (JObj [])); line_of (response 2 (JObj [("tools", JArr [])]))].

