(* ===== verification/Breaker.v ===== *)
(** [internal/circuitbreaker]: the circuit breaker.

    [Breaker] is the mutable part of the Go struct, [Config] the part [New]
    fixes. A method body is one critical section of [mu], except that
    [transition] drops the lock around the [OnStateChange] callback: the
    sections before and after the callback are separate definitions.

    [Do] composes them for one caller; [act] interleaves the sections of any
    number of callers, one action at a time, each with the clock reading it
    makes. *)
From S2P Require Import Prelude GoNum.
Open Scope Z_scope.

Inductive State := StateClosed | StateOpen | StateHalfOpen.

#[export] Instance State_eq_dec : EqDecision State.
Proof. solve_decision. Defined.

Definition State_String (s : State) : string :=
  match s with StateClosed => "closed" | StateOpen => "open" | StateHalfOpen => "half-open" end.

Abbreviation change := (State * State)%type.

Record Breaker := mkBreaker {
  state : State; failures : Z; openedAt : Time;
  totalCalls : Z; totalFailures : Z; totalShortCirc : Z; transitions : Z }.

Definition set_state (s : State) (b : Breaker) : Breaker :=
  mkBreaker s (failures b) (openedAt b) (totalCalls b) (totalFailures b) (totalShortCirc b) (transitions b).
Definition set_failures (n : Z) (b : Breaker) : Breaker :=
  mkBreaker (state b) n (openedAt b) (totalCalls b) (totalFailures b) (totalShortCirc b) (transitions b).
Definition set_openedAt (t : Time) (b : Breaker) : Breaker :=
  mkBreaker (state b) (failures b) t (totalCalls b) (totalFailures b) (totalShortCirc b) (transitions b).
Definition incr_calls (b : Breaker) : Breaker :=
  mkBreaker (state b) (failures b) (openedAt b) (wrap64 (totalCalls b + 1)) (totalFailures b)
    (totalShortCirc b) (transitions b).
Definition incr_failures (b : Breaker) : Breaker :=
  mkBreaker (state b) (failures b) (openedAt b) (totalCalls b) (wrap64 (totalFailures b + 1))
    (totalShortCirc b) (transitions b).
Definition incr_short (b : Breaker) : Breaker :=
  mkBreaker (state b) (failures b) (openedAt b) (totalCalls b) (totalFailures b)
    (wrap64 (totalShortCirc b + 1)) (transitions b).
Definition incr_transitions (b : Breaker) : Breaker :=
  mkBreaker (state b) (failures b) (openedAt b) (totalCalls b) (totalFailures b)
    (totalShortCirc b) (wrap64 (transitions b + 1)).

(** [transition], up to the callback: the new state and the change made. *)
Definition transition (to : State) (b : Breaker) : Breaker * option change :=
  if decide (state b = to) then (b, None)
  else (incr_transitions (set_state to b), Some (state b, to)).

(** The snapshot of [Stats()]. *)
Record Stats := mkStats {
  st_State : State; st_Failures : Z; st_TotalCalls : Z; st_TotalFailures : Z;
  st_TotalShortCircuits : Z; st_Transitions : Z }.

Definition stats (b : Breaker) : Stats :=
  mkStats (state b) (failures b) (totalCalls b) (totalFailures b) (totalShortCirc b) (transitions b).

Section breaker.
Context {error : Type}.

(** [OnStateChange] runs with the lock dropped and may call back into the
    breaker: for one caller it is a function of the breaker. A nil [Clock]
    is the system clock; here each section is given the reading it makes. *)
Record Config := mkConfig {
  Threshold : Z; Cooldown : Duration;
  IsFailure : option (option error -> bool);
  OnStateChange : option (State -> State -> Breaker -> Breaker) }.

Definition New (cfg : Config) : Config * Breaker :=
  (mkConfig (if Threshold cfg <=? 0 then 5 else Threshold cfg)
     (if Cooldown cfg <=? 0 then 30 * Second else Cooldown cfg)
     (Some (match IsFailure cfg with Some f => f | None => fun err => match err with Some _ => true | None => false end end))
     (OnStateChange cfg),
   mkBreaker StateClosed 0 zeroTime 0 0 0 0).

Context (cfg : Config).

Definition is_failure (err : option error) : bool :=
  match IsFailure cfg with Some f => f err | None => false end.

(** [allow]: the section up to the callback, the verdict, the change made. *)
Definition allow (now : Time) (b : Breaker) : Breaker * (bool * option change) :=
  let b := incr_calls b in
  match state b with
  | StateClosed => (b, (true, None))
  | StateOpen =>
    if Sub now (openedAt b) <? Cooldown cfg then (b, (false, None))
    else let '(b, ch) := transition StateHalfOpen b in (b, (true, ch))
  | StateHalfOpen => (b, (false, None))
  end.

(** [recordResult], up to the callback: the change made, and whether
    [failures = Threshold] is left to do after it. *)
Definition record (now : Time) (failed : bool) (b : Breaker) : Breaker * (option change * bool) :=
  let b := if failed then incr_failures b else b in
  match state b with
  | StateClosed =>
    if negb failed then (set_failures 0 b, (None, false))
    else
      let b := set_failures (wrap64 (failures b + 1)) b in
      if Threshold cfg <=? failures b then
        let '(b, ch) := transition StateOpen (set_openedAt now b) in (b, (ch, false))
      else (b, (None, false))
  | StateHalfOpen =>
    if failed then
      let '(b, ch) := transition StateOpen (set_openedAt now b) in (b, (ch, true))
    else
      let '(b, ch) := transition StateClosed (set_failures 0 b) in (b, (ch, false))
  | StateOpen => (b, (None, false))
  end.

Definition resume (b : Breaker) : Breaker := set_failures (Threshold cfg) b.

(** [Reset], up to the callback. *)
Definition reset (b : Breaker) : Breaker * option change :=
  transition StateClosed (set_openedAt zeroTime (set_failures 0 b)).

(** ** One caller *)

Definition notify (ch : option change) (b : Breaker) : Breaker :=
  match ch, OnStateChange cfg with
  | Some (from, to), Some fn => fn from to b
  | _, _ => b
  end.

Definition recordResult (now : Time) (err : option error) (b : Breaker) : Breaker :=
  let '(b, (ch, more)) := record now (is_failure err) b in
  let b := notify ch b in
  if more then resume b else b.

Inductive outcome := RCtx (e : ctx_err) | ROpen | ROp (err : option error) | RPanic.

(** [Do], when [allow] reads the clock at [now1], [op] returns [err] and
    [recordResult] reads the clock at [now2]. *)
Definition Do (ctx : option ctx_err) (now1 : Time) (err : option error) (now2 : Time) (b : Breaker) :
  Breaker * outcome :=
  match ctx with
  | Some e => (b, RCtx e)
  | None =>
    let '(b, (ok, ch)) := allow now1 b in
    let b := notify ch b in
    if negb ok then (incr_short b, ROpen)
    else (recordResult now2 err b, ROp err)
  end.

Definition Reset (b : Breaker) : Breaker := let '(b, ch) := reset b in notify ch b.

(** ** Any number of callers

    Where a call of [Do] is; the callback of [allow] and that of
    [recordResult] are points at which the lock is free. *)
Inductive pc :=
| PStart                          (* before [allow] *)
| PAllowCallback                  (* in the callback of [allow] *)
| PShort                          (* before [totalShortCirc++] *)
| POp                             (* in [op] *)
| PReturned (err : option error)  (* before [recordResult] *)
| PResume (err : option error)    (* in a callback, [failures = Threshold] to come *)
| PDone (o : outcome).

(** A call, with a mark: it was admitted by the change to half-open. *)
Record call := mkCall { probe : bool; at_pc : pc }.

Record sys := mkSys { brk : Breaker; calls : list call; log : list change }.

Inductive action :=
| ACall (ctx : option ctx_err)
| AAllow (i : nat) (now : Time)
| ACallback (i : nat)
| AShort (i : nat)
| AOp (i : nat) (err : option error)
| APanic (i : nat)
| ARecord (i : nat) (now : Time)
| AResume (i : nat)
| AReset.

(** Whether the lock is dropped for a callback. *)
Definition drops (ch : option change) : bool :=
  match ch, OnStateChange cfg with Some _, Some _ => true | _, _ => false end.

Definition to_list (ch : option change) : list change := option_list ch.

Definition move (i : nat) (b : Breaker) (c : call) (ch : option change) (s : sys) : sys :=
  mkSys b (<[i := c]> (calls s)) (log s ++ to_list ch).

Definition act (a : action) (s : sys) : option sys :=
  match a with
  | ACall ctx =>
    let p := match ctx with Some e => PDone (RCtx e) | None => PStart end in
    Some (mkSys (brk s) (calls s ++ [mkCall false p]) (log s))
  | AAllow i now =>
    match calls s !! i with
    | Some (mkCall m PStart) =>
      let '(b, (ok, ch)) := allow now (brk s) in
      let p := if negb ok then PShort else if drops ch then PAllowCallback else POp in
      Some (move i b (mkCall (bool_decide (ch <> None)) p) ch s)
    | _ => None
    end
  | ACallback i =>
    match calls s !! i with
    | Some (mkCall m PAllowCallback) => Some (move i (brk s) (mkCall m POp) None s)
    | _ => None
    end
  | AShort i =>
    match calls s !! i with
    | Some (mkCall m PShort) => Some (move i (incr_short (brk s)) (mkCall m (PDone ROpen)) None s)
    | _ => None
    end
  | AOp i err =>
    match calls s !! i with
    | Some (mkCall m POp) => Some (move i (brk s) (mkCall m (PReturned err)) None s)
    | _ => None
    end
  | APanic i =>
    match calls s !! i with
    | Some (mkCall m POp) => Some (move i (brk s) (mkCall m (PDone RPanic)) None s)
    | _ => None
    end
  | ARecord i now =>
    match calls s !! i with
    | Some (mkCall m (PReturned err)) =>
      let '(b, (ch, more)) := record now (is_failure err) (brk s) in
      if more && drops ch then Some (move i b (mkCall m (PResume err)) ch s)
      else Some (move i (if more then resume b else b) (mkCall m (PDone (ROp err))) ch s)
    | _ => None
    end
  | AResume i =>
    match calls s !! i with
    | Some (mkCall m (PResume err)) =>
      Some (move i (resume (brk s)) (mkCall m (PDone (ROp err))) None s)
    | _ => None
    end
  | AReset =>
    let '(b, ch) := reset (brk s) in Some (mkSys b (calls s) (log s ++ to_list ch))
  end.

Fixpoint acts (l : list action) (s : sys) : option sys :=
  match l with
  | [] => Some s
  | a :: l => s ← act a s; acts l s
  end.

Definition start (b : Breaker) : sys := mkSys b [] [].
Definition reachable (s0 s : sys) : Prop := exists l, acts l s0 = Some s.
End breaker.

(** ** What holds of every interleaving *)

(** The changes form a path from closed to the current state; half-open is
    entered from open only, and no change is idle. *)
Definition legal (c : change) : Prop := c.1 <> c.2 /\ (c.2 = StateHalfOpen -> c.1 = StateOpen).

Fixpoint path (s : State) (l : list change) (t : State) : Prop :=
  match l with
  | [] => s = t
  | c :: l => c.1 = s /\ legal c /\ path c.2 l t
  end.

Lemma path_snoc s l a b : path s l a -> legal (a, b) -> path s (l ++ [(a, b)]) b.
Proof.
  revert s. induction l as [|c l IH]; intros s; simpl; [by intros ->|].
  intros (? & ? & ?) ?. eauto.
Qed.

Definition to_half_open (c : change) : bool := bool_decide (c.2 = StateHalfOpen).

Section invariant.
Context {error : Type} (cfg : @Config error).

Definition entered (c : @call error) : bool :=
  match at_pc c with PStart | PDone (RCtx _) => false | _ => true end.
Definition short_circuited (c : @call error) : bool :=
  match at_pc c with PDone ROpen => true | _ => false end.
Definition failed (c : @call error) : bool :=
  match at_pc c with PResume e | PDone (ROp e) => is_failure cfg e | _ => false end.
(** A call admitted by the change to half-open is past [allow]. *)
Definition marked_ok (c : @call error) : Prop :=
  probe c = true -> match at_pc c with PStart | PShort | PDone ROpen | PDone (RCtx _) => False | _ => True end.

Record sys_inv (s : @sys error) : Prop := {
  inv_calls : totalCalls (brk s) = wrap64 (tally entered (calls s));
  inv_short : totalShortCirc (brk s) = wrap64 (tally short_circuited (calls s));
  inv_failures : totalFailures (brk s) = wrap64 (tally failed (calls s));
  inv_transitions : transitions (brk s) = wrap64 (Z.of_nat (length (log s)));
  inv_path : path StateClosed (log s) (state (brk s));
  inv_probes : tally probe (calls s) = tally to_half_open (log s);
  inv_marks : Forall marked_ok (calls s) }.

(** Without a callback the sections are whole methods, and the failure count
    is below the threshold exactly while the breaker is closed. *)
Definition count_inv (s : @sys error) : Prop :=
  OnStateChange cfg = None ->
  (forall i c, calls s !! i = Some c -> forall e, at_pc c <> PResume e) /\
  match state (brk s) with
  | StateClosed => 0 <= failures (brk s) < Threshold cfg
  | _ => failures (brk s) = Threshold cfg
  end.

Ltac act_cases :=
  repeat match goal with
  | H : context [match ?x with _ => _ end] |- _ =>
    lazymatch x with context [match _ with _ => _ end] => fail | _ => destruct x eqn:? end;
    simplify_eq/=
  end.

Ltac tallies :=
  rewrite ?app_nil_r, ?tally_snoc, ?length_app, ?Nat2Z.inj_add;
  repeat (erewrite tally_insert by eassumption); simpl.

Lemma act_inv a s s' : act cfg a s = Some s' -> sys_inv s -> sys_inv s'.
Proof.
  intros Ha []. destruct s as [b cs l].
  destruct a; unfold act, allow, record, reset, transition in Ha; simpl in *; act_cases.
  all: try match goal with
    H : _ !! _ = Some ?c |- _ => assert (marked_ok c) as Hm by (by eapply Forall_lookup_1); unfold marked_ok in Hm; simpl in Hm end.
  all: try (match type of Hm with ?p = true -> False => destruct p; [by destruct Hm|clear Hm] end).
  all: split; simpl; tallies; rewrite ?inv_calls0, ?inv_short0, ?inv_failures0, ?inv_transitions0, ?inv_probes0, ?wrap64_succ.
  all: try (f_equal; unfold entered, short_circuited, failed, Z.b2z; simpl; repeat case_match; simplify_eq; lia).
  all: try done.
  all: try lia.
  all: try (first [apply Forall_app_2; [done|constructor; [|constructor]] | apply Forall_insert; [done|]]; unfold marked_ok; done).
  all: try (apply path_snoc; [by simplify_eq|]; by unfold legal).
  all: try (unfold to_half_open, Z.b2z; simpl; repeat case_bool_decide; simplify_eq; lia).
  all: try (match goal with H : state _ = _ |- path _ _ _ => by rewrite H end).
  apply Forall_insert; [done|]. unfold marked_ok. simpl. by destruct (OnStateChange cfg).
Qed.

Lemma allow_verdict i now s s' :
  act cfg (AAllow i now) s = Some s' ->
  at_pc <$> calls s' !! i = Some PShort <->
  state (brk s) = StateHalfOpen \/ state (brk s) = StateOpen /\ Sub now (openedAt (brk s)) < Cooldown cfg.
Proof.
  unfold act. destruct (calls s !! i) as [[m []]|] eqn:Hi; try done.
  pose proof (lookup_lt_Some _ _ _ Hi) as Hlt.
  assert (forall b c ch, at_pc <$> calls (move i b c ch s) !! i = Some (at_pc c)) as Hm.
  { intros. simpl. by rewrite list_lookup_insert_eq. }
  unfold allow, transition. simpl. destruct (state (brk s)) eqn:Hs; simpl.
  - intros [= <-]. rewrite Hm. naive_solver.
  - destruct (Z.ltb_spec (Sub now (openedAt (brk s))) (Cooldown cfg)); simpl;
      [|]; intros [= <-]; rewrite Hm; simpl; [naive_solver|].
    unfold drops. destruct (OnStateChange cfg); naive_solver lia.
  - intros [= <-]. rewrite Hm. naive_solver.
Qed.

Context (Hpos : 0 < Threshold cfg) (Hmax : Threshold cfg <= maxInt64).

Lemma act_count a s s' : act cfg a s = Some s' -> count_inv s -> count_inv s'.
Proof.
  intros Ha Hc Hnone. specialize (Hc Hnone) as [Hnr Hc]. destruct s as [b cs l].
  assert (forall ch, drops cfg ch = false) as Hdr by (intros []; unfold drops; rewrite ?Hnone; done).
  destruct a; unfold act, allow, record, reset, transition in Ha; simpl in *; act_cases.
  all: try rewrite Hdr in *; try rewrite andb_false_r in *; act_cases.
  all: try (edestruct Hnr; [eassumption|reflexivity]; fail).
  all: bool_to_prop; rewrite ?wrap64_id in * by (unfold int64_ok, minInt64, maxInt64 in *; lia).
  all: split; [intros j c' Hj; rewrite ?list_lookup_insert_Some, ?lookup_snoc_Some in Hj;
               destruct_or?; destruct_and?; subst c' || simplify_eq/=; try (by repeat case_match); by eapply Hnr
              |rewrite ?Hnone in *; try match goal with H : state _ = _ |- _ => rewrite H end; try done; try lia].
Qed.

Lemma acts_inv l s s' : acts cfg l s = Some s' -> sys_inv s -> count_inv s -> sys_inv s' /\ count_inv s'.
Proof.
  revert s. induction l as [|a l IH]; simpl; intros s Hl Hi Hc; simplify_eq; [done|].
  destruct (act cfg a s) as [s1|] eqn:Ha; simplify_eq/=. eauto using act_inv, act_count.
Qed.
End invariant.

Section bounds.
Context {error : Type} (cfg : @Config error).

Lemma New_Threshold : int64_ok (Threshold cfg) ->
  0 < Threshold (New cfg).1 <= maxInt64.
Proof. unfold int64_ok, maxInt64. simpl. destruct (Z.leb_spec (Threshold cfg) 0); lia. Qed.

Lemma New_Cooldown : int64_ok (Cooldown cfg) ->
  0 < Cooldown (New cfg).1 <= maxInt64.
Proof. unfold int64_ok, maxInt64. simpl. destruct (Z.leb_spec (Cooldown cfg) 0); unfold Second; lia. Qed.

Lemma start_inv : sys_inv (New cfg).1 (start (New cfg).2).
Proof. by split. Qed.

Lemma start_count : int64_ok (Threshold cfg) -> count_inv (New cfg).1 (start (New cfg).2).
Proof. intros ?%New_Threshold _. simpl in *. split; [done|lia]. Qed.
End bounds.

(** ** The abstract breaker

    For callers that do not overlap the breaker has two states: closed, with
    the number of consecutive failures, and open since a time. *)
Inductive abs := AClosed (n : Z) | AOpen (since : Time).

Section spec.
Context {error : Type} (cfg : @Config error).

Definition abs_do (ctx : option ctx_err) (now1 : Time) (err : option error) (now2 : Time) (a : abs) :
  abs * @outcome error :=
  match ctx, a with
  | Some e, _ => (a, RCtx e)
  | None, AClosed n =>
    (if negb (is_failure cfg err) then AClosed 0
     else if n + 1 <? Threshold cfg then AClosed (n + 1) else AOpen now2, ROp err)
  | None, AOpen since =>
    if now1 - since <? Cooldown cfg then (a, ROpen)
    else (if is_failure cfg err then AOpen now2 else AClosed 0, ROp err)
  end.

(** One use of the breaker: a call, or [Reset]. *)
Inductive use := UDo (ctx : option ctx_err) (now1 : Time) (err : option error) (now2 : Time) | UReset.

Fixpoint uses (l : list use) (b : Breaker) : Breaker * list (@outcome error) :=
  match l with
  | [] => (b, [])
  | UDo ctx now1 err now2 :: l =>
    let '(b, o) := Do cfg ctx now1 err now2 b in let '(b, os) := uses l b in (b, o :: os)
  | UReset :: l => uses l (Reset cfg b)
  end.

Fixpoint abs_uses (l : list use) (a : abs) : abs * list (@outcome error) :=
  match l with
  | [] => (a, [])
  | UDo ctx now1 err now2 :: l =>
    let '(a, o) := abs_do ctx now1 err now2 a in let '(a, os) := abs_uses l a in (a, o :: os)
  | UReset :: l => abs_uses l (AClosed 0)
  end.

Definition implements (b : Breaker) (a : abs) : Prop :=
  match a with
  | AClosed n => state b = StateClosed /\ failures b = n /\ 0 <= n < Threshold cfg
  | AOpen since => state b = StateOpen /\ openedAt b = since /\ failures b = Threshold cfg
  end.

Context (Hthr : 0 < Threshold cfg <= maxInt64) (Hcool : 0 < Cooldown cfg <= maxInt64).
(** A callback that only observes. *)
Context (Hcb : forall fn, OnStateChange cfg = Some fn -> forall from to b, fn from to b = b).

Lemma notify_id ch b : notify cfg ch b = b.
Proof. unfold notify. destruct ch as [[]|]; [|done]. case_match; [|done]. by apply Hcb. Qed.

Lemma cooled now t : (Sub now t <? Cooldown cfg) = (now - t <? Cooldown cfg).
Proof.
  apply Bool.eq_iff_eq_true. rewrite !Z.ltb_lt. apply Sub_lt_exact; unfold minInt64; lia.
Qed.

#[local] Arguments notify : simpl never.
#[local] Arguments wrap64 : simpl never.

Lemma Do_implements ctx now1 err now2 b a :
  implements b a ->
  implements (Do cfg ctx now1 err now2 b).1 (abs_do ctx now1 err now2 a).1 /\
  (Do cfg ctx now1 err now2 b).2 = (abs_do ctx now1 err now2 a).2.
Proof.
  intros Hi. destruct ctx as [e|]; [by destruct a|].
  destruct b as [st fs opened tc tf ts tr].
  destruct a as [n|since]; simpl in Hi; destruct Hi as (-> & Hf & Ho);
    unfold Do, recordResult, allow, record, transition; simpl.
  - rewrite notify_id. simpl. destruct (is_failure cfg err); simpl; rewrite ?notify_id; simpl;
      [|split_and!; auto; lia].
    rewrite Hf, (wrap64_id (n + 1)) by (unfold int64_ok, minInt64, maxInt64 in *; lia).
    destruct (Z.leb_spec (Threshold cfg) (n + 1)), (Z.ltb_spec (n + 1) (Threshold cfg)); try lia;
      simpl; rewrite ?notify_id; simpl; split_and!; auto; lia.
  - rewrite Hf, cooled. destruct (now1 - since <? Cooldown cfg); simpl; [by rewrite ?notify_id|].
    rewrite notify_id. simpl.
    destruct (is_failure cfg err); simpl; rewrite notify_id; simpl; split_and!; auto; lia.
Qed.

Lemma uses_implement l b a :
  implements b a ->
  implements (uses l b).1 (abs_uses l a).1 /\ (uses l b).2 = (abs_uses l a).2.
Proof.
  revert b a. induction l as [|[ctx now1 err now2|] l IH]; intros b a Hi; simpl; [done|..].
  - pose proof (Do_implements ctx now1 err now2 b a Hi) as [Hb Ho].
    destruct (Do cfg ctx now1 err now2 b) as [b' o], (abs_do ctx now1 err now2 a) as [a' o'].
    simpl in *. subst o'. specialize (IH _ _ Hb).
    destruct (uses l b'), (abs_uses l a'); naive_solver.
  - apply IH. unfold Reset, reset, transition.
    case_decide; simpl; rewrite ?notify_id; simpl; split_and!; auto; lia.
Qed.
End spec.

(** C19. Callers that do not overlap see the abstract breaker: closed, it
    passes every call on and opens at the failure that makes [Threshold] in a
    row; open, it refuses calls without running them until [Cooldown] has
    elapsed, and then the next call decides between closed and open again; a
    cancelled context and [Reset] are as in the specification. This holds for
    every sequence of calls on a new breaker, under any configuration, with
    the defaults 5 and 30 s put in place of values that are not positive. *)
Theorem breaker_refines {error} (cfg : @Config error)
  (Hthr : int64_ok (Threshold cfg)) (Hcool : int64_ok (Cooldown cfg))
  (Hcb : forall fn, OnStateChange cfg = Some fn -> forall from to b, fn from to b = b)
  (l : list use) :
  let '(cfg', b) := New cfg in
  (uses cfg' l b).2 = (abs_uses cfg' l (AClosed 0)).2 /\
  implements cfg' (uses cfg' l b).1 (abs_uses cfg' l (AClosed 0)).1.
Proof.
  apply New_Threshold in Hthr as Ht. apply New_Cooldown in Hcool as Hc.
  destruct (uses_implement (New cfg).1 Ht Hc Hcb l (New cfg).2 (AClosed 0)) as [??]; [|done].
  simpl in *. split_and!; [done..|lia].
Qed.

Definition demo_config : @Config unit := mkConfig 2 10 None None.

Lemma breaker_refines_witness :
  (uses (New demo_config).1
     [UDo None 1 (Some tt) 2; UDo None 3 (Some tt) 4; UDo None 13 None 13; UDo None 14 None 15]
     (New demo_config).2).2 = [ROp (Some tt); ROp (Some tt); ROpen; ROp None].
Proof.
  etransitivity; [|vm_compute; reflexivity].
  exact (proj1 (breaker_refines demo_config ltac:(by vm_compute) ltac:(by vm_compute) ltac:(done)
    [UDo None 1 (Some tt) 2; UDo None 3 (Some tt) 4; UDo None 13 None 13; UDo None 14 None 15])).
Defined.

(** C20. Under every interleaving of calls, resets and callbacks, the counters
    of [Stats] count what they say (modulo 2^64); the changes of state form a
    path from closed to the current state in which half-open follows open
    only; each change to half-open admits exactly one call; [allow] refuses
    exactly in half-open and, when open, before the cooldown has elapsed; and
    without a callback the failure count stays below [Threshold] exactly
    while the breaker is closed. *)
Theorem breaker_interleavings {error} (cfg0 : @Config error) (s : sys)
  (Hthr : int64_ok (Threshold cfg0))
  (Hreach : reachable (New cfg0).1 (start (New cfg0).2) s) :
  let cfg := (New cfg0).1 in
  stats (brk s) =
    mkStats (state (brk s)) (failures (brk s)) (wrap64 (tally entered (calls s)))
      (wrap64 (tally (failed cfg) (calls s))) (wrap64 (tally short_circuited (calls s)))
      (wrap64 (Z.of_nat (length (log s)))) /\
  path StateClosed (log s) (state (brk s)) /\
  tally probe (calls s) = tally to_half_open (log s) /\
  (forall i now s', act cfg (AAllow i now) s = Some s' ->
    (at_pc <$> calls s' !! i) = Some PShort <->
    state (brk s) = StateHalfOpen \/
    state (brk s) = StateOpen /\ Sub now (openedAt (brk s)) < Cooldown cfg) /\
  (OnStateChange cfg0 = None ->
    match state (brk s) with
    | StateClosed => 0 <= failures (brk s) < Threshold cfg
    | _ => failures (brk s) = Threshold cfg
    end).
Proof.
  destruct Hreach as [l Hl]. pose proof (New_Threshold cfg0 Hthr) as [Hpos Hmax].
  destruct (acts_inv _ Hpos Hmax _ _ _ Hl (start_inv cfg0) (start_count cfg0 Hthr)) as [[] Hc].
  intros cfg. split_and!; try done; [unfold stats; by f_equal|intros i now s'; exact (allow_verdict (New cfg0).1 i now s s')|intros Hn; by destruct Hc].
Qed.

(** A single failure trips this breaker; the cooldown is 10. *)
Definition trip_config : @Config unit := mkConfig 1 10 None None.

Definition trip : list (@action unit) :=
  [ACall None; ACall None; AAllow 0 1; AAllow 1 1; AOp 0 (Some tt); ARecord 0 2;
   ACall None; AAllow 2 3; AShort 2; ACall None; AAllow 3 12].

Lemma breaker_interleavings_witness :
  exists s, acts (New trip_config).1 trip (start (New trip_config).2) = Some s /\
    path StateClosed (log s) (state (brk s)) /\ log s = [(StateClosed, StateOpen); (StateOpen, StateHalfOpen)].
Proof.
  eexists. split; [vm_compute; reflexivity|]. split; [|reflexivity].
  refine (proj1 (proj2 (breaker_interleavings trip_config _ _ _))).
  - by vm_compute.
  - exists trip. vm_compute. reflexivity.
Defined.

(** The probe of half-open is not alone. The second call of [trip] was
    admitted while the breaker was closed; when it ends now, its result
    decides the state although the probe is still running, and a further call
    is admitted next to the probe. *)
Lemma breaker_probe_not_exclusive :
  exists s, acts (New trip_config).1 (trip ++ [AOp 1 None; ARecord 1 13; ACall None; AAllow 4 14])
              (start (New trip_config).2) = Some s /\
    at_pc <$> calls s !! 3%nat = Some POp /\ at_pc <$> calls s !! 4%nat = Some POp.
Proof. eexists. split; [vm_compute; reflexivity|]. by split. Qed.

(** When the probe panics, [recordResult] does not run, and the breaker is
    left in half-open: every later call is refused, at any time. *)
Lemma breaker_stuck_after_panic (now : Time) :
  exists s, acts (New trip_config).1 (trip ++ [APanic 3; AOp 1 (Some tt)]) (start (New trip_config).2) = Some s /\
    state (brk s) = StateHalfOpen /\
    (Do (New trip_config).1 None now None now (brk s)).2 = ROpen /\
    state (Do (New trip_config).1 None now None now (brk s)).1 = StateHalfOpen.
Proof. eexists. split; [vm_compute; reflexivity|]. by split. Qed.
