(* ===== verification/Limiter.v ===== *)
(** [internal/limiter]: the counting semaphore.

    [Semaphore] is the struct's data. The methods are modelled by their
    critical sections; [act] interleaves any number of callers, with the
    condition variable, the cancellation of their contexts and the goroutine
    that broadcasts on cancellation. [Limiter] is the interface the rest of
    the code sees, with the laws [Semaphore] satisfies. *)
From S2P Require Import Prelude GoNum.
Open Scope Z_scope.

(** ** The interface

    What a user relies on: permits are taken and given back one at a time,
    never more than [Capacity] are out, and [TryAcquire] fails only when they
    all are. [Acquire] blocks until [TryAcquire] would succeed. *)
Class Limiter (L : Type) := {
  TryAcquire : L -> L * bool;
  Release : L -> option L;      (* [None]: panic *)
  InFlight : L -> Z;
  Capacity : L -> Z;
  limiter_ok : L -> Prop;
  InFlight_bounds l : limiter_ok l -> 0 <= InFlight l <= Capacity l;
  TryAcquire_spec l : limiter_ok l ->
    let '(l', ok) := TryAcquire l in
    limiter_ok l' /\ Capacity l' = Capacity l /\
    if ok then InFlight l' = InFlight l + 1 else l' = l /\ InFlight l = Capacity l;
  Release_spec l : limiter_ok l ->
    match Release l with
    | Some l' => limiter_ok l' /\ Capacity l' = Capacity l /\ InFlight l' = InFlight l - 1
    | None => InFlight l = 0
    end }.

(** ** What a client of the interface tracks

    The client's limiter, if it has one, has [x] permits out to others and [n]
    to the client itself. *)
Section permits.
Context {L : Type} `{Limiter L}.

Definition permits_ok (l : option L) (x n : Z) : Prop :=
  match l with Some l => limiter_ok l /\ InFlight l = x + n | None => True end.

(** A permit taken, a permit given back. *)
Lemma permits_take l l' x n : permits_ok (Some l) x n -> TryAcquire l = (l', true) ->
  limiter_ok l' /\ InFlight l' = x + n + 1.
Proof. intros [Hok Hin] Ht. pose proof (TryAcquire_spec l Hok) as Hs. rewrite Ht in Hs. naive_solver lia. Qed.

Lemma permits_give l x n : permits_ok (Some l) x n -> 0 < x + n ->
  exists l', Release l = Some l' /\ limiter_ok l' /\ InFlight l' = x + n - 1.
Proof.
  intros [Hok Hin] Hpos. pose proof (Release_spec l Hok) as Hs. destruct (Release l); [|lia].
  naive_solver lia.
Qed.

Lemma permits_taken l l' x n : permits_ok (Some l) x n -> TryAcquire l = (l', true) ->
  permits_ok (Some l') x (n + 1) /\ permits_ok (Some l') (x + 1) n.
Proof. intros Hp Ht. destruct (permits_take _ _ _ _ Hp Ht). split; split; [done|lia|done|lia]. Qed.

Lemma permits_given l x n : permits_ok (Some l) x n -> 0 < x + n ->
  exists l', Release l = Some l' /\ permits_ok (Some l') x (n - 1) /\ permits_ok (Some l') (x - 1) n.
Proof.
  intros Hp Hpos. destruct (permits_give _ _ _ Hp Hpos) as (l' & Hl & ? & ?).
  exists l'. split_and!; [done|split; [done|lia]..].
Qed.

Lemma permits_bound l x n : permits_ok (Some l) x n -> x + n <= Capacity l.
Proof. intros [Hok <-]. apply InFlight_bounds, Hok. Qed.
End permits.

(** ** The semaphore *)

Record Semaphore := mkSemaphore {
  capacity : Z; inFlight : Z; totalAcquired : Z; totalWaited : Z }.

Definition NewSemaphore (capacity : Z) : may_panic Semaphore :=
  if capacity <? 1 then None else Some (mkSemaphore capacity 0 0 0).

(** [s.inFlight+n > s.capacity], with the wrap-around of [int]. *)
Definition exceeds (n : Z) (s : Semaphore) : bool := capacity s <? wrap64 (inFlight s + n).

Definition take (n : Z) (waited : bool) (s : Semaphore) : Semaphore :=
  mkSemaphore (capacity s) (wrap64 (inFlight s + n)) (wrap64 (totalAcquired s + n))
    (if waited then wrap64 (totalWaited s + 1) else totalWaited s).

Definition give (n : Z) (s : Semaphore) : Semaphore :=
  mkSemaphore (capacity s) (wrap64 (inFlight s - n)) (totalAcquired s) (totalWaited s).

Definition TryAcquireN (n : Z) (s : Semaphore) : Semaphore * bool :=
  if n <=? 0 then (s, true)
  else if exceeds n s then (s, false)
  else (take n false s, true).

Definition ReleaseN (n : Z) (s : Semaphore) : may_panic Semaphore :=
  if n <=? 0 then Some s
  else if inFlight s <? n then None
  else Some (give n s).

Record Stats := mkStats { TotalAcquired : Z; TotalWaited : Z }.
Definition stats (s : Semaphore) : Stats := mkStats (totalAcquired s) (totalWaited s).

(** [AcquireN] up to the lock: an early result, or [None] to go on. *)
Inductive res := RNil | RCapacityExceeded | RCtx (e : ctx_err) | RBool (b : bool) | RUnit | RPanic.

Definition acquire_entry (ctx : option ctx_err) (n : Z) (s : Semaphore) : option res :=
  if n <=? 0 then Some RNil
  else if capacity s <? n then Some RCapacityExceeded
  else match ctx with Some e => Some (RCtx e) | None => None end.

(** [AcquireN] of a caller that meets no other: [None] when it would block. *)
Definition AcquireN (ctx : option ctx_err) (n : Z) (s : Semaphore) : option (Semaphore * res) :=
  match acquire_entry ctx n s with
  | Some r => Some (s, r)
  | None => if exceeds n s then None else Some (take n false s, RNil)
  end.

(** [Run]: [fn] works on the semaphore too, as it may be used inside. *)
Definition Run {A} (ctx : option ctx_err) (fn : Semaphore -> Semaphore * A) (s : Semaphore) :
  option (may_panic (Semaphore * (res + A))) :=
  '(s, r) ← AcquireN ctx 1 s;
  match r with
  | RNil => let '(s, v) := fn s in Some (s ← ReleaseN 1 s; Some (s, inr v))
  | _ => Some (Some (s, inl r))
  end.

(** ** Any number of callers *)

Inductive op := OAcquire (n : Z) | OTry (n : Z) | ORelease (n : Z).

Inductive pc :=
| PStart
| PLock        (* wants [mu], or woken and wants it back *)
| PPark        (* holds [mu], between [ctx.Err()] and [cond.Wait()] *)
| PWait        (* asleep on [cond] *)
| PBroadcast   (* released, the broadcast to come *)
| PDone (r : res).

Record thread := mkThread {
  t_op : op; ctx : option ctx_err;
  watch : bool;    (* the goroutine that waits for the context *)
  waited : bool; at_pc : pc }.

Record sys := mkSys { sem : Semaphore; lock : option nat; threads : list thread }.

Inductive action :=
| ACall (o : op) (c : option ctx_err)
| ACancel (i : nat) (e : ctx_err)
| AStart (i : nat)
| ALock (i : nat)
| APark (i : nat)
| ABroadcast (i : nat)
| AWatch (i : nat).

Definition set_pc (p : pc) (t : thread) : thread := mkThread (t_op t) (ctx t) (watch t) (waited t) p.
Definition wake (t : thread) : thread := match at_pc t with PWait => set_pc PLock t | _ => t end.

Definition put (i : nat) (t : thread) (s : Semaphore) (y : sys) : sys :=
  mkSys s (lock y) (<[i := t]> (threads y)).

(** One turn of a caller that gets [mu]. *)
Definition locked (i : nat) (t : thread) (y : sys) : sys :=
  let s := sem y in
  match t_op t with
  | OAcquire n =>
    if exceeds n s then
      match ctx t with
      | Some e => put i (set_pc (PDone (RCtx e)) t) s y
      | None => mkSys s (Some i) (<[i := mkThread (t_op t) (ctx t) (watch t) true PPark]> (threads y))
      end
    else put i (set_pc (PDone RNil) t) (take n (waited t) s) y
  | OTry n =>
    let '(s, ok) := TryAcquireN n s in put i (set_pc (PDone (RBool ok)) t) s y
  | ORelease n =>
    match ReleaseN n s with
    | Some s => put i (set_pc PBroadcast t) s y
    | None => put i (set_pc (PDone RPanic) t) s y
    end
  end.

Definition act (a : action) (y : sys) : option sys :=
  match a with
  | ACall o c => Some (mkSys (sem y) (lock y) (threads y ++ [mkThread o c false false PStart]))
  | ACancel i e =>
    match threads y !! i with
    | Some (mkThread o None w v p) => Some (put i (mkThread o (Some e) w v p) (sem y) y)
    | _ => None
    end
  | AStart i =>
    match threads y !! i with
    | Some (mkThread o c w v PStart) =>
      let early :=
        match o with
        | OAcquire n => acquire_entry c n (sem y)
        | OTry n => if n <=? 0 then Some (RBool true) else None
        | ORelease n => if n <=? 0 then Some RUnit else None
        end in
      let watched := match o with OAcquire _ => bool_decide (early = None) | _ => false end in
      Some (put i (mkThread o c watched false (match early with Some r => PDone r | None => PLock end)) (sem y) y)
    | _ => None
    end
  | ALock i =>
    match lock y, threads y !! i with
    | None, Some t => match at_pc t with PLock => Some (locked i t y) | _ => None end
    | _, _ => None
    end
  | APark i =>
    match threads y !! i with
    | Some (mkThread o c w v PPark) =>
      Some (mkSys (sem y) None (<[i := mkThread o c w v PWait]> (threads y)))
    | _ => None
    end
  | ABroadcast i =>
    match threads y !! i with
    | Some (mkThread o c w v PBroadcast) =>
      Some (mkSys (sem y) (lock y) (map wake (<[i := mkThread o c w v (PDone RUnit)]> (threads y))))
    | _ => None
    end
  | AWatch i =>
    match threads y !! i with
    | Some (mkThread o (Some e) true v p) =>
      Some (mkSys (sem y) (lock y) (map wake (<[i := mkThread o (Some e) false v p]> (threads y))))
    | _ => None
    end
  end.

Fixpoint acts (l : list action) (y : sys) : option sys :=
  match l with
  | [] => Some y
  | a :: l => y ← act a y; acts l y
  end.

Definition start (s : Semaphore) : sys := mkSys s None [].

(** ** What holds of every interleaving *)

Definition weight (t : thread) : Z :=
  match t_op t, at_pc t with
  | OAcquire n, PDone RNil | OTry n, PDone (RBool true) => Z.max n 0
  | ORelease n, PBroadcast | ORelease n, PDone RUnit => - Z.max n 0
  | _, _ => 0
  end.
Definition granted (t : thread) : Z := Z.max (weight t) 0.
Definition granted_late (t : thread) : bool :=
  waited t && match at_pc t with PDone RNil => true | _ => false end.

(** The bounds under which no sum of permits leaves [int]. *)
Definition max_permits : Z := 2 ^ 62 - 1.

Definition op_ok (s : Semaphore) (o : op) (p : pc) : Prop :=
  match p, o with
  | PLock, OAcquire n => 0 < n <= capacity s
  | (PPark | PWait), OAcquire n => 0 < n <= capacity s
  | PLock, OTry n => 0 < n <= 2 ^ 62
  | PStart, OTry n => n <= 2 ^ 62
  | PLock, ORelease n => 0 < n
  | PBroadcast, ORelease n => 0 < n
  | (PPark | PWait | PBroadcast), _ => False
  | _, _ => True
  end.

Definition sleeping (t : thread) : bool := match at_pc t with PWait | PPark => true | _ => false end.
Definition needs (t : thread) : Z := match t_op t with OAcquire n => n | _ => 0 end.
Definition broadcasting (t : thread) : bool := match at_pc t with PBroadcast => true | _ => false end.

Definition short (y : sys) (t : thread) : Prop := capacity (sem y) < inFlight (sem y) + needs t.

Record sem_inv (y : sys) : Prop := {
  inv_bounds : 0 <= inFlight (sem y) /\ inFlight (sem y) <= capacity (sem y) /\ capacity (sem y) <= max_permits;
  inv_sum : inFlight (sem y) = total weight (threads y);
  inv_acquired : totalAcquired (sem y) = wrap64 (total granted (threads y));
  inv_waited : totalWaited (sem y) = wrap64 (tally granted_late (threads y));
  inv_ops : Forall (fun t => op_ok (sem y) (t_op t) (at_pc t)) (threads y);
  inv_lock : forall i t, threads y !! i = Some t -> at_pc t = PPark -> lock y = Some i;
  inv_held : forall i, lock y = Some i -> at_pc <$> threads y !! i = Some PPark;
  inv_parked : Forall (fun t => at_pc t = PPark -> short y t) (threads y) }.

(** A caller sleeps only for want of permits, or is about to be woken. *)
Definition sleep_inv (y : sys) : Prop :=
  tally broadcasting (threads y) = 0 ->
  Forall (fun t => sleeping t = true -> short y t) (threads y).

Lemma wake_total (f : thread -> Z) l :
  (forall t, f (wake t) = f t) -> total f (map wake l) = total f l.
Proof. intros. rewrite total_map. by apply total_ext. Qed.

Lemma wake_weight t : weight (wake t) = weight t.
Proof. by destruct t as [[] ? ? ? []]. Qed.
Lemma wake_granted t : granted (wake t) = granted t.
Proof. unfold granted. by rewrite wake_weight. Qed.
Lemma wake_late t : b2z (granted_late (wake t)) = b2z (granted_late t).
Proof. by destruct t as [? ? ? ? []]. Qed.
Lemma wake_ok s t : op_ok s (t_op t) (at_pc t) -> op_ok s (t_op (wake t)) (at_pc (wake t)).
Proof. by destruct t as [[] ? ? ? []]. Qed.
Lemma wake_park t : at_pc (wake t) = PPark <-> at_pc t = PPark.
Proof. by destruct t as [? ? ? ? []]. Qed.
Lemma wake_needs t : needs (wake t) = needs t.
Proof. by destruct t as [? ? ? ? []]. Qed.

Lemma sem_inv_wake y : sem_inv y -> sem_inv (mkSys (sem y) (lock y) (map wake (threads y))).
Proof.
  intros []. split; simpl; auto.
  - by rewrite wake_total by apply wake_weight.
  - by rewrite wake_total by apply wake_granted.
  - unfold tally. by rewrite (wake_total (fun t => b2z (granted_late t))) by apply wake_late.
  - apply Forall_map. apply (Forall_impl _ _ _ inv_ops0). intros t Ht. simpl. by apply wake_ok.
  - intros i t Ht Hp. apply list_lookup_fmap_Some in Ht as (t0 & -> & Ht).
    rewrite wake_park in Hp. eauto.
  - intros i Hi. specialize (inv_held0 i Hi). rewrite list_lookup_fmap.
    destruct (threads y !! i); simplify_eq/=. f_equal. by apply wake_park.
  - apply Forall_map. eapply Forall_impl; [done|]. simpl. intros t Ht Hp. rewrite wake_park in Hp.
    unfold short in *. rewrite wake_needs. auto.
Qed.

Lemma sleep_inv_wake y : sem_inv y -> sleep_inv (mkSys (sem y) (lock y) (map wake (threads y))).
Proof.
  intros [] _. apply Forall_map. eapply Forall_impl; [exact inv_parked0|]. simpl.
  intros [? ? ? ? []] Ht Hs; try done; by apply Ht.
Qed.

(** One thread moves and nobody holds the lock, or the data stays. *)
Record moves (y : sys) (t t' : thread) (s' : Semaphore) : Prop := {
  m_park : at_pc t' = PPark <-> at_pc t = PPark;
  m_parked : at_pc t' = PPark -> needs t' = needs t;
  m_capacity : capacity s' = capacity (sem y);
  m_bounds : 0 <= inFlight s' <= capacity s';
  m_inFlight : inFlight s' = inFlight (sem y) + (weight t' - weight t);
  m_acquired : totalAcquired s' = wrap64 (totalAcquired (sem y) + (granted t' - granted t));
  m_waited : totalWaited s' = wrap64 (totalWaited (sem y) + (b2z (granted_late t') - b2z (granted_late t)));
  m_op : op_ok s' (t_op t') (at_pc t');
  m_shared : inFlight s' = inFlight (sem y) \/ lock y = None }.

Lemma sem_inv_move y i t t' s' :
  sem_inv y -> threads y !! i = Some t -> moves y t t' s' -> sem_inv (put i t' s' y).
Proof.
  intros [] Hi []. split; simpl.
  - lia.
  - rewrite (total_insert _ _ _ _ _ Hi). lia.
  - rewrite m_acquired0, inv_acquired0, wrap64_add_l, (total_insert _ _ _ _ _ Hi). f_equal. lia.
  - rewrite m_waited0, inv_waited0, wrap64_add_l, (tally_insert _ _ _ _ _ Hi). f_equal. lia.
  - apply Forall_insert; [|done]. apply (Forall_impl _ _ _ inv_ops0). intros t0.
    unfold op_ok. by rewrite m_capacity0.
  - intros j t0 [(<- & -> & _)|[Hne Hj]]%list_lookup_insert_Some Hp; [|eauto].
    apply (inv_lock0 _ _ Hi). tauto.
  - intros j Hj. specialize (inv_held0 j Hj). destruct (decide (i = j)) as [<-|Hne].
    + rewrite Hi in inv_held0. simplify_eq/=. rewrite list_lookup_insert_eq; [|by eapply lookup_lt_Some].
      simpl. f_equal. tauto.
    + by rewrite list_lookup_insert_ne.
  - apply Forall_lookup. rewrite Forall_lookup in inv_parked0.
    assert (forall j t0, threads y !! j = Some t0 -> at_pc t0 = PPark -> inFlight s' = inFlight (sem y)) as Heq.
    { intros j t0 Hj Hp. destruct m_shared0 as [|Hl]; [done|]. by rewrite (inv_lock0 j t0 Hj Hp) in Hl. }
    intros j t0 [(<- & -> & _)|[Hne Hj]]%list_lookup_insert_Some Hp; unfold short in *; simpl; rewrite m_capacity0.
    + rewrite (Heq i t Hi), m_parked0 by tauto. apply (inv_parked0 i t Hi). tauto.
    + rewrite (Heq j t0 Hj Hp). by apply (inv_parked0 j t0 Hj).
Qed.

Lemma sleep_inv_move y i t t' s' :
  sleep_inv y -> threads y !! i = Some t ->
  capacity s' = capacity (sem y) ->
  (sleeping t' = true -> sleeping t = true /\ needs t' = needs t) ->
  (broadcasting t = true -> broadcasting t' = true) ->
  inFlight (sem y) <= inFlight s' \/ broadcasting t' = true ->
  sleep_inv (put i t' s' y).
Proof.
  intros Hs Hi Hcap Hsl Hb Hd Ht. simpl in Ht. pose proof (lookup_lt_Some _ _ _ Hi) as Hlt.
  pose proof (list_lookup_insert_eq (threads y) i t' Hlt) as Hi'.
  destruct (broadcasting t') eqn:Hbt'; [by pose proof (tally_pos _ _ _ _ Hi' Hbt'); lia|].
  destruct (broadcasting t) eqn:Hbt; [by discriminate Hb|]. destruct Hd as [Hd|]; [|done].
  rewrite (tally_insert _ _ _ _ _ Hi), Hbt, Hbt' in Ht. simpl in Ht.
  specialize (Hs ltac:(lia)). rewrite Forall_lookup in Hs. apply Forall_lookup. simpl.
  intros j t0 [(<- & -> & _)|[Hne Hj]]%list_lookup_insert_Some Hp; unfold short in *; simpl; rewrite Hcap.
  - destruct (Hsl Hp) as [Hp' ->]. specialize (Hs i t Hi Hp'). lia.
  - specialize (Hs j t0 Hj Hp). lia.
Qed.

Definition idle (p : pc) : bool := match p with PStart | PLock | PPark | PWait => true | _ => false end.

Lemma idle_weights t : idle (at_pc t) = true ->
  weight t = 0 /\ granted t = 0 /\ granted_late t = false /\ broadcasting t = false.
Proof.
  intros. unfold granted, granted_late. destruct t as [[] ? ? ? []]; simpl in *;
    rewrite ?andb_false_r; try done; unfold weight; simpl; split_and!; lia || done.
Qed.

Ltac idles :=
  repeat match goal with
  | |- context [weight (mkThread ?o ?c ?w ?v ?p)] =>
    rewrite (proj1 (idle_weights (mkThread o c w v p) eq_refl))
  | |- context [granted (mkThread ?o ?c ?w ?v ?p)] =>
    rewrite (proj1 (proj2 (idle_weights (mkThread o c w v p) eq_refl)))
  | |- context [granted_late (mkThread ?o ?c ?w ?v ?p)] =>
    rewrite (proj1 (proj2 (proj2 (idle_weights (mkThread o c w v p) eq_refl))))
  end; simpl.

Lemma sem_inv_snoc y o c :
  (forall n, o = OTry n -> n <= 2 ^ 62) -> sem_inv y ->
  sem_inv (mkSys (sem y) (lock y) (threads y ++ [mkThread o c false false PStart])).
Proof.
  intros Ho []. split; simpl; try done; rewrite ?total_snoc, ?tally_snoc.
  - idles. lia.
  - rewrite inv_acquired0. f_equal. idles. lia.
  - rewrite inv_waited0. f_equal. idles. lia.
  - apply Forall_app_2; [done|]. constructor; [|constructor]. destruct o; simpl; auto.
  - intros i t [[_ Ht]|[_ <-]]%lookup_snoc_Some Hp; [by eapply inv_lock0|done].
  - intros i Hi. specialize (inv_held0 i Hi). destruct (threads y !! i) eqn:E; [|done].
    by rewrite (lookup_app_l_Some _ _ _ _ E).
  - apply Forall_app_2; [done|]. by constructor.
Qed.

Lemma sleep_inv_snoc y o c :
  sleep_inv y -> sleep_inv (mkSys (sem y) (lock y) (threads y ++ [mkThread o c false false PStart])).
Proof.
  intros Hs Ht. simpl in *. rewrite tally_snoc in Ht. simpl in Ht.
  apply Forall_app_2; [apply Hs; lia|]. by constructor.
Qed.

(** The lock passes to a caller that is about to sleep, and back. *)
Lemma sem_inv_park y i o c w v n :
  sem_inv y -> lock y = None -> threads y !! i = Some (mkThread o c w v PLock) -> o = OAcquire n ->
  capacity (sem y) < inFlight (sem y) + n ->
  sem_inv (mkSys (sem y) (Some i) (<[i := mkThread o c w true PPark]> (threads y))).
Proof.
  intros [] Hl Hi -> Hn. pose proof (lookup_lt_Some _ _ _ Hi) as Hlt.
  split; simpl; try done; rewrite ?(total_insert _ _ _ _ _ Hi), ?(tally_insert _ _ _ _ _ Hi).
  - idles. lia.
  - rewrite inv_acquired0. f_equal. idles. lia.
  - rewrite inv_waited0. f_equal. idles. lia.
  - apply Forall_insert; [done|]. rewrite Forall_lookup in inv_ops0. exact (inv_ops0 _ _ Hi).
  - intros j t [(<- & <- & _)|[Hne Hj]]%list_lookup_insert_Some Hp; [done|].
    by rewrite (inv_lock0 j t Hj Hp) in Hl.
  - intros j [= <-]. by rewrite list_lookup_insert_eq.
  - apply Forall_insert; [done|]. by intros _.
Qed.

Lemma sem_inv_unpark y i o c w v :
  sem_inv y -> threads y !! i = Some (mkThread o c w v PPark) ->
  sem_inv (mkSys (sem y) None (<[i := mkThread o c w v PWait]> (threads y))).
Proof.
  intros [] Hi. pose proof (inv_lock0 _ _ Hi eq_refl) as Hl.
  split; simpl; try done; rewrite ?(total_insert _ _ _ _ _ Hi), ?(tally_insert _ _ _ _ _ Hi).
  - idles. lia.
  - rewrite inv_acquired0. f_equal. idles. lia.
  - rewrite inv_waited0. f_equal. idles. lia.
  - apply Forall_insert; [done|]. rewrite Forall_lookup in inv_ops0. exact (inv_ops0 _ _ Hi).
  - intros j t [(<- & <- & _)|[Hne Hj]]%list_lookup_insert_Some Hp; [done|].
    rewrite (inv_lock0 j t Hj Hp) in Hl. by simplify_eq.
  - by apply Forall_insert.
Qed.

Lemma sleep_inv_switch y i t t' l :
  sleep_inv y -> threads y !! i = Some t -> broadcasting t = false -> broadcasting t' = false ->
  (sleeping t' = true -> short y t') ->
  sleep_inv (mkSys (sem y) l (<[i := t']> (threads y))).
Proof.
  intros Hs Hi Hb Hb' Hp Ht. simpl in *. rewrite (tally_insert _ _ _ _ _ Hi), Hb, Hb' in Ht. simpl in Ht.
  apply Forall_insert; [|done]. apply Hs. lia.
Qed.

Definition action_ok (a : action) : Prop := forall n c, a = ACall (OTry n) c -> n <= 2 ^ 62.

Definition good (y : sys) : Prop := sem_inv y /\ sleep_inv y.

Lemma good_move y i t t' s' :
  good y -> threads y !! i = Some t -> moves y t t' s' ->
  (sleeping t' = true -> sleeping t = true /\ needs t' = needs t) ->
  (broadcasting t = true -> broadcasting t' = true) ->
  inFlight (sem y) <= inFlight s' \/ broadcasting t' = true ->
  good (put i t' s' y).
Proof.
  intros [Hi Hs] Ht Hm Hsl Hb Hd. split; [by eapply sem_inv_move|].
  eapply sleep_inv_move; eauto using m_capacity.
Qed.

Lemma op_ok_at y i t : good y -> threads y !! i = Some t -> op_ok (sem y) (t_op t) (at_pc t).
Proof. intros [[] _] Hi. rewrite Forall_lookup in inv_ops0. eauto. Qed.

Lemma exceeds_spec y n : good y -> 0 < n <= 2 ^ 62 -> exceeds n (sem y) = true <-> capacity (sem y) < inFlight (sem y) + n.
Proof.
  intros [[] _] Hn. unfold exceeds, max_permits in *.
  rewrite wrap64_id by (unfold int64_ok, minInt64, maxInt64; lia). apply Z.ltb_lt.
Qed.

(** The caller takes [n] permits. *)
Lemma good_take y i t t' n w :
  good y -> lock y = None -> threads y !! i = Some t -> idle (at_pc t) = true -> at_pc t <> PPark -> 0 < n ->
  exceeds n (sem y) = false -> n <= 2 ^ 62 ->
  match at_pc t' with PDone _ => True | _ => False end ->
  weight t' = n -> granted_late t' = w ->
  good (put i t' (take n w (sem y)) y).
Proof.
  intros Hg Hl Hi Hid Hp Hn Hx Hmax Ht' Hw Hlate.
  destruct (idle_weights t Hid) as (Hw0 & Hg0 & Hl0 & Hb0).
  assert (inFlight (sem y) + n <= capacity (sem y)) as Hfit.
  { apply Z.nlt_ge. intros Hc. apply exceeds_spec in Hc; [congruence|done|lia]. }
  assert (wrap64 (inFlight (sem y) + n) = inFlight (sem y) + n) as Hwr.
  { apply wrap64_id. destruct Hg as [[] _]. unfold int64_ok, minInt64, maxInt64, max_permits in *. lia. }
  assert (sleeping t' = false /\ broadcasting t' = false) as [Hs' Hb'].
  { unfold sleeping, broadcasting. by destruct (at_pc t'). }
  eapply good_move; [done..| | | |].
  - destruct Hg as [[] _]. split; unfold take; simpl; rewrite ?Hwr; try done; try lia.
    + by destruct (at_pc t').
    + by destruct (at_pc t').
    + unfold granted at 1. rewrite Hg0, Hw. f_equal. lia.
    + rewrite Hlate, Hl0. destruct w; simpl; [f_equal; lia|].
      rewrite Z.add_0_r, inv_waited0. by rewrite wrap64_idemp.
    + unfold op_ok. by destruct (at_pc t').
    + by right.
  - by rewrite Hs'.
  - by rewrite Hb0.
  - left. unfold take. simpl. lia.
Qed.

(** A caller moves and the data stays. *)
Lemma good_same y i t t' :
  good y -> threads y !! i = Some t ->
  weight t' = weight t -> granted_late t' = granted_late t ->
  (at_pc t' = PPark <-> at_pc t = PPark) ->
  (sleeping t' = true -> sleeping t = true /\ needs t' = needs t) ->
  (broadcasting t = true -> broadcasting t' = true) ->
  op_ok (sem y) (t_op t') (at_pc t') ->
  good (put i t' (sem y) y).
Proof.
  intros Hg Hi Hw Hl Hp Hs Hb Ho. eapply good_move; [done..| |done|done|by left].
  destruct Hg as [[] _]. split; try done; try lia.
  - intros Hpp. apply Hs. unfold sleeping. by rewrite Hpp.
  - unfold granted. rewrite Hw, Z.sub_diag, Z.add_0_r, inv_acquired0. by rewrite wrap64_idemp.
  - rewrite Hl, Z.sub_diag, Z.add_0_r, inv_waited0. by rewrite wrap64_idemp.
Qed.

Lemma good_give y i t n :
  good y -> lock y = None -> threads y !! i = Some t -> t_op t = ORelease n -> at_pc t = PLock ->
  0 < n <= inFlight (sem y) ->
  good (put i (set_pc PBroadcast t) (give n (sem y)) y).
Proof.
  intros Hg Hl Hi Ho Hp Hn. destruct t as [o c w v p]. simpl in Ho, Hp. subst o p.
  eapply good_move; [done..| |done|done|by right].
  destruct Hg as [[] _].
  assert (wrap64 (inFlight (sem y) - n) = inFlight (sem y) - n) as Hwr.
  { apply wrap64_id. unfold int64_ok, minInt64, maxInt64, max_permits in *. lia. }
  split; simpl; rewrite ?Hwr; try done; try lia.
  - unfold weight. simpl. lia.
  - unfold granted, weight. simpl. rewrite (proj2 (Z.max_r_iff _ _)) by lia.
    rewrite Z.sub_0_r, Z.add_0_r, inv_acquired0. by rewrite wrap64_idemp.
  - unfold granted_late. simpl. rewrite andb_false_r. simpl.
    rewrite Z.add_0_r, inv_waited0. by rewrite wrap64_idemp.
  - by right.
Qed.

Lemma good_locked y i t :
  good y -> lock y = None -> threads y !! i = Some t -> at_pc t = PLock -> good (locked i t y).
Proof.
  intros Hg Hl Hi Hp. pose proof (op_ok_at y i t Hg Hi) as Hok.
  destruct t as [o c w v p]. simpl in Hp. subst p.
  unfold locked, TryAcquireN, ReleaseN. simpl in *. destruct o as [n|n|n]; simpl in Hok.
  - assert (n <= 2 ^ 62). { destruct Hg as [[] _]. unfold max_permits in *. lia. }
    destruct (exceeds n (sem y)) eqn:Hx.
    + destruct c as [e|].
      * apply (good_same _ _ _ _ Hg Hi); unfold granted_late; simpl; rewrite ?andb_false_r; done.
      * apply exceeds_spec in Hx; [|done|lia]. destruct Hg as [Hinv Hs]. split.
        -- by eapply sem_inv_park.
        -- by apply (sleep_inv_switch _ _ _ _ _ Hs Hi).
    + eapply (good_take _ _ _ _ n); try done; try lia; unfold weight, granted_late; simpl; rewrite ?andb_true_r; done || lia.
  - rewrite (proj2 (Z.leb_gt n 0)) by lia. destruct (exceeds n (sem y)) eqn:Hx.
    + apply (good_same _ _ _ _ Hg Hi); unfold granted_late; simpl; rewrite ?andb_false_r; done.
    + eapply (good_take _ _ _ _ n); try done; try lia; unfold weight, granted_late; simpl; rewrite ?andb_false_r; done || lia.
  - rewrite (proj2 (Z.leb_gt n 0)) by lia. destruct (Z.ltb_spec (inFlight (sem y)) n).
    + apply (good_same _ _ _ _ Hg Hi); unfold granted_late; simpl; rewrite ?andb_false_r; done.
    + by eapply good_give.
Qed.

Lemma act_good a y y' : action_ok a -> act a y = Some y' -> good y -> good y'.
Proof.
  intros Hok Ha Hg. destruct a as [o c|i e|i|i|i|i|i]; simpl in Ha.
  - simplify_eq. destruct Hg. split; [apply sem_inv_snoc; [|done]|by apply sleep_inv_snoc].
    intros n ->. by eapply Hok.
  - destruct (threads y !! i) as [[o [] w v p]|] eqn:Hi; simplify_eq.
    pose proof (op_ok_at _ _ _ Hg Hi). by apply (good_same _ _ _ _ Hg Hi).
  - destruct (threads y !! i) as [[o c w v []]|] eqn:Hi; simplify_eq.
    pose proof (op_ok_at _ _ _ Hg Hi) as Ho. simpl in Ho. unfold acquire_entry.
    destruct o as [n|n|n]; destruct (Z.leb_spec n 0); try destruct (Z.ltb_spec (capacity (sem y)) n);
      try destruct c as [e|]; apply (good_same _ _ _ _ Hg Hi);
      unfold weight, granted_late; simpl; rewrite ?andb_false_r; try done; lia.
  - destruct (lock y) eqn:Hl; [done|]. destruct (threads y !! i) as [t|] eqn:Hi; [|done].
    destruct (at_pc t) eqn:Hp; simplify_eq. by apply good_locked.
  - destruct (threads y !! i) as [[o c w v []]|] eqn:Hi; simplify_eq. destruct Hg as [Hinv Hs]. split.
    + by eapply sem_inv_unpark.
    + apply (sleep_inv_switch _ _ _ _ _ Hs Hi); [done..|]. intros _.
      destruct Hinv. rewrite Forall_lookup in inv_parked0. exact (inv_parked0 _ _ Hi eq_refl).
  - destruct (threads y !! i) as [[o c w v []]|] eqn:Hi; simplify_eq.
    pose proof (op_ok_at _ _ _ Hg Hi) as Ho. destruct o; try done.
    assert (sem_inv (put i (mkThread (ORelease n) c w v (PDone RUnit)) (sem y) y)) as Hinv.
    { destruct Hg as [Hinv _]. apply (sem_inv_move _ _ _ _ _ Hinv Hi). destruct Hinv.
      split; try done; unfold weight, granted, granted_late; simpl; rewrite ?andb_false_r; try lia.
      - rewrite inv_acquired0, Z.sub_diag, Z.add_0_r. by rewrite wrap64_idemp.
      - rewrite inv_waited0, Z.add_0_r. by rewrite wrap64_idemp. }
    split; [exact (sem_inv_wake _ Hinv)|exact (sleep_inv_wake _ Hinv)].
  - destruct (threads y !! i) as [[o [e|] [] v p]|] eqn:Hi; simplify_eq.
    assert (sem_inv (put i (mkThread o (Some e) false v p) (sem y) y)) as Hinv.
    { pose proof (op_ok_at _ _ _ Hg Hi). by apply (good_same _ _ _ _ Hg Hi). }
    split; [exact (sem_inv_wake _ Hinv)|exact (sleep_inv_wake _ Hinv)].
Qed.

Lemma act_capacity a y y' : act a y = Some y' -> capacity (sem y') = capacity (sem y).
Proof.
  destruct a as [o c|i e|i|i|i|i|i]; simpl; unfold locked, TryAcquireN, ReleaseN, put; intros; go_cases; done.
Qed.

Lemma acts_good l y y' :
  Forall action_ok l -> acts l y = Some y' -> good y -> good y' /\ capacity (sem y') = capacity (sem y).
Proof.
  intros Hl. revert y. induction Hl as [|a l Ha Hl IH]; simpl; intros y Hy Hg; simplify_eq; [done|].
  destruct (act a y) as [y1|] eqn:E; simplify_eq/=. rewrite <- (act_capacity _ _ _ E).
  eauto using act_good.
Qed.

Lemma start_good c s : NewSemaphore c = Some s -> c <= max_permits -> good (start s) /\ capacity s = c.
Proof.
  unfold NewSemaphore. destruct (Z.ltb_spec c 1); intros; simplify_eq. split; [|done].
  split; [split; simpl; done || lia|]. intros _. constructor.
Qed.

(** Actions the callers do not choose. *)
Definition internal (a : action) : bool := match a with ACall _ _ | ACancel _ _ => false | _ => true end.
Definition stuck (y : sys) : Prop := forall a, internal a = true -> act a y = None.

Lemma stuck_sleeping y i t :
  good y -> stuck y -> threads y !! i = Some t ->
  (exists r, at_pc t = PDone r) \/ at_pc t = PWait /\ capacity (sem y) < inFlight (sem y) + needs t.
Proof.
  intros [Hinv Hs] Hst Hi. destruct t as [o c w v p]. simpl.
  assert (lock y = None) as Hl.
  { destruct (lock y) as [j|] eqn:Hl; [|done]. pose proof (inv_held _ Hinv j Hl) as Hp.
    destruct (threads y !! j) as [[]|] eqn:Hj; simplify_eq/=.
    specialize (Hst (APark j) eq_refl). simpl in Hst. by rewrite Hj in Hst. }
  assert (tally broadcasting (threads y) = 0) as Hb.
  { apply tally_none. intros t0 [j Hj]%list_elem_of_lookup. destruct t0 as [? ? ? ? []]; try done.
    specialize (Hst (ABroadcast j) eq_refl). simpl in Hst. by rewrite Hj in Hst. }
  specialize (Hs Hb). rewrite Forall_lookup in Hs. specialize (Hs i _ Hi).
  destruct p; [exfalso|exfalso|exfalso|by right; split; [|apply Hs]|exfalso|by left; eexists].
  - specialize (Hst (AStart i) eq_refl). simpl in Hst. by rewrite Hi in Hst.
  - specialize (Hst (ALock i) eq_refl). simpl in Hst. by rewrite Hl, Hi in Hst.
  - specialize (Hst (APark i) eq_refl). simpl in Hst. by rewrite Hi in Hst.
  - specialize (Hst (ABroadcast i) eq_refl). simpl in Hst. by rewrite Hi in Hst.
Qed.

(** C21. The semaphore under every interleaving of acquires, releases and
    cancellations: the permits in flight are those granted less those given
    back, and stay between 0 and the capacity; [Stats] counts the permits
    granted and the acquires that waited; and no wake-up for permits is lost:
    when no caller can go on, every unfinished one is an [AcquireN] asleep
    that needs more permits than are free. Capacities and [TryAcquireN]
    requests are below 2^62, so that the sums fit an [int]. *)
Theorem semaphore_interleavings (c : Z) (s0 : Semaphore) (l : list action) (y : sys)
  (Hnew : NewSemaphore c = Some s0) (Hmax : c <= max_permits) (Hl : Forall action_ok l)
  (Hy : acts l (start s0) = Some y) :
  0 <= inFlight (sem y) <= c /\
  inFlight (sem y) = total weight (threads y) /\
  stats (sem y) = mkStats (wrap64 (total granted (threads y))) (wrap64 (tally granted_late (threads y))) /\
  (stuck y -> forall i t, threads y !! i = Some t ->
    (exists r, at_pc t = PDone r) \/ at_pc t = PWait /\ c < inFlight (sem y) + needs t).
Proof.
  destruct (start_good c s0 Hnew Hmax) as [Hg Hc]. destruct (acts_good _ _ _ Hl Hy Hg) as [Hg' Hc'].
  simpl in Hc'. rewrite Hc in Hc'. split_and!.
  - destruct Hg' as [[] _]. lia.
  - destruct Hg' as [[] _]. lia.
  - by destruct Hg' as [[] _].
  - destruct Hg' as [[] _]. unfold stats. by f_equal.
  - intros Hst i t Hi. rewrite <- Hc'. by eapply stuck_sleeping.
Qed.

Definition demo_trace : list action :=
  [ACall (OAcquire 2) None; ACall (OAcquire 1) None; AStart 0; AStart 1; ALock 0; ALock 1; APark 1;
   ACall (ORelease 2) None; AStart 2; ALock 2; ABroadcast 2; ALock 1].

Lemma semaphore_interleavings_witness :
  exists y, acts demo_trace (start (mkSemaphore 2 0 0 0)) = Some y /\
    inFlight (sem y) = total weight (threads y) /\ inFlight (sem y) = 1 /\ stats (sem y) = mkStats 3 1.
Proof.
  eexists. split; [vm_compute; reflexivity|]. split; [|done].
  refine (proj1 (proj2 (semaphore_interleavings 2 (mkSemaphore 2 0 0 0) demo_trace _ eq_refl _ _ _))).
  - by vm_compute.
  - repeat constructor; intros ? ? [=].
  - vm_compute. reflexivity.
Defined.

(** A wake-up for a cancellation can be lost: the broadcast is not made under
    [mu], so it may come after the waiter has looked at its context and before
    it sleeps. The waiter then sleeps on, its context cancelled, and nothing
    but a release wakes it. *)
Lemma semaphore_cancel_lost :
  exists y, acts [ACall (OAcquire 1) None; AStart 0; ALock 0; ACall (OAcquire 1) None; AStart 1; ALock 1;
                  ACancel 1 Canceled; AWatch 1; APark 1] (start (mkSemaphore 1 0 0 0)) = Some y /\
    (at_pc <$> threads y !! 1%nat) = Some PWait /\ (ctx <$> threads y !! 1%nat) = Some (Some Canceled) /\
    Forall (fun a => act a y = None) [AStart 0; AStart 1; ALock 0; ALock 1; APark 0; APark 1;
                                      ABroadcast 0; ABroadcast 1; AWatch 0; AWatch 1].
Proof. eexists. split; [vm_compute; reflexivity|]. split_and!; [done..|]. by repeat constructor. Qed.

(** The sum of [TryAcquireN] can wrap around: with one permit out, a request
    for 2^63-1 is granted, and the count turns negative. *)
Lemma semaphore_overflow :
  TryAcquireN maxInt64 (mkSemaphore 1 1 1 0) = (mkSemaphore 1 minInt64 minInt64 0, true).
Proof. vm_compute. reflexivity. Qed.

(** ** The semaphore implements the interface *)

#[export] Instance Semaphore_Limiter : Limiter Semaphore.
Proof.
  refine {| TryAcquire := TryAcquireN 1; Release := ReleaseN 1; InFlight := inFlight; Capacity := capacity;
            limiter_ok s := 0 <= inFlight s <= capacity s /\ capacity s < maxInt64 |}.
  - tauto.
  - intros l [Hb Hc]. unfold TryAcquireN, exceeds. simpl. unfold maxInt64 in *.
    rewrite wrap64_id by (unfold int64_ok, minInt64, maxInt64; lia).
    destruct (Z.ltb_spec (capacity l) (inFlight l + 1)); [split_and!; try done; lia|].
    simpl. rewrite wrap64_id by (unfold int64_ok, minInt64, maxInt64; lia). lia.
  - intros l [Hb Hc]. unfold ReleaseN. simpl. unfold maxInt64 in *.
    destruct (Z.ltb_spec (inFlight l) 1); [lia|]. simpl.
    rewrite wrap64_id by (unfold int64_ok, minInt64, maxInt64; lia). lia.
Defined.
