(* ===== verification/Errgroup.v ===== *)
(** [internal/errgroup]: fan-out with a limit and fail-fast.

    The group is modelled over the interface [Limiter], so its theorems hold
    for any limiter that keeps the laws; [Semaphore] is one. [act] interleaves
    the calls of [Go] and [TryGo], the functions they start, other users of a
    shared limiter, and the cancellation of the parent context. *)
From S2P Require Import Prelude GoNum Limiter.
Open Scope Z_scope.

Section errgroup.
Context {L error : Type} `{Limiter L}.
(** [fmt.Errorf("errgroup: acquire: %w", err)] *)
Context (acquire_error : ctx_err -> error).

(** [cause]: [Some None] is a context cancelled without a cause of its own. *)
Record Group := mkGroup {
  lim : option L;
  err : option error; once : bool;       (* err, errOnce *)
  g_ctx : option ctx_err; cause : option (option error);
  wg : Z }.

(** [WithContext], of a context that may be cancelled already. *)
Definition WithContext (parent : option ctx_err) : Group :=
  mkGroup None None false parent (match parent with Some _ => Some None | None => None end) 0.

(** [cancel(err)] of the derived context; the first cancellation stays. *)
Definition cancel (e : option error) (g : Group) : Group :=
  match g_ctx g with
  | Some _ => g
  | None => mkGroup (lim g) (err g) (once g) (Some Canceled) (Some e) (wg g)
  end.

Definition recordErr (e : error) (g : Group) : Group :=
  if once g then g
  else cancel (Some e) (mkGroup (lim g) (Some e) true (g_ctx g) (cause g) (wg g)).

Definition set_lim (l : option L) (g : Group) : Group :=
  mkGroup l (err g) (once g) (g_ctx g) (cause g) (wg g).
Definition add_wg (n : Z) (g : Group) : Group :=
  mkGroup (lim g) (err g) (once g) (g_ctx g) (cause g) (wg g + n).

(** [assertIdle]: false is the panic. *)
Definition assertIdle (g : Group) : bool :=
  match lim g with Some l => negb (0 <? InFlight l) | None => true end.

Definition SetLimiter (l : option L) (g : Group) : may_panic Group :=
  if assertIdle g then Some (set_lim l g) else None.

(** [release]: [None] is a panic of the limiter. *)
Definition release (g : Group) : may_panic Group :=
  match lim g with
  | Some l => l' ← Release l; Some (set_lim (Some l') g)
  | None => Some g
  end.

(** [Wait], once [wg] is zero. *)
Definition Wait (g : Group) : Group * option error := (cancel (err g) g, err g).

(** ** Any number of tasks

    A task is one call of [Go] or [TryGo]. *)
Inductive tpc :=
| TEnter                    (* in [Go], before [Acquire] looks at the context *)
| TAcquire                  (* in [Acquire], waiting for a permit *)
| TRefused (e : ctx_err)    (* [Acquire] failed, [recordErr] to come *)
| TSkipped                  (* not started *)
| TRun                      (* started: in [fn] *)
| TFailed (e : error)       (* [fn] returned an error, [recordErr] to come *)
| TRelease                  (* before [release] *)
| TFinish                   (* before [wg.Done] *)
| TDone.

(** [outcome]: what [fn] returned. *)
Record task := mkTask { at_tpc : tpc; outcome : option (option error) }.

(** [ext]: permits other users of the limiter hold. [errs]: the errors passed
    to [recordErr], in order. *)
Record sys := mkSys { group : Group; tasks : list task; ext : Z; errs : list error; panicked : bool }.

Inductive action :=
| AGo | ATryGo
| AEnter (i : nat) | ATake (i : nat) | AGiveUp (i : nat) | ARefuse (i : nat)
| AReturn (i : nat) (e : option error) | ARecord (i : nat) | ARelease (i : nat) | AFinish (i : nat)
| AExtTake | AExtGive | ACancel (e : ctx_err).

Definition upd (i : nat) (t : task) (g : Group) (y : sys) : sys :=
  mkSys g (<[i := t]> (tasks y)) (ext y) (errs y) (panicked y).
Definition spawn (i : nat) (g : Group) (y : sys) : sys :=
  upd i (mkTask TRun None) (add_wg 1 g) y.

Definition act (a : action) (y : sys) : option sys :=
  let g := group y in
  match a with
  | AGo => Some (mkSys g (tasks y ++ [mkTask TEnter None]) (ext y) (errs y) (panicked y))
  | ATryGo =>
    let n := length (tasks y) in
    let y' := mkSys g (tasks y ++ [mkTask TSkipped None]) (ext y) (errs y) (panicked y) in
    match lim g with
    | None => Some (spawn n g y')
    | Some l =>
      let '(l', ok) := TryAcquire l in
      Some (if ok : bool then spawn n (set_lim (Some l') g) y' else y')
    end
  | AEnter i =>
    match tasks y !! i with
    | Some (mkTask TEnter o) =>
      match lim g, g_ctx g with
      | None, _ => Some (spawn i g y)
      | Some _, Some e => Some (upd i (mkTask (TRefused e) o) g y)
      | Some _, None => Some (upd i (mkTask TAcquire o) g y)
      end
    | _ => None
    end
  | ATake i =>
    match tasks y !! i, lim g with
    | Some (mkTask TAcquire o), Some l =>
      let '(l', ok) := TryAcquire l in
      if ok : bool then Some (spawn i (set_lim (Some l') g) y) else None
    | _, _ => None
    end
  | AGiveUp i =>
    match tasks y !! i, lim g, g_ctx g with
    | Some (mkTask TAcquire o), Some l, Some e =>
      let '(_, ok) := TryAcquire l in
      if ok : bool then None else Some (upd i (mkTask (TRefused e) o) g y)
    | _, _, _ => None
    end
  | ARefuse i =>
    match tasks y !! i with
    | Some (mkTask (TRefused e) o) =>
      Some (mkSys (recordErr (acquire_error e) g) (<[i := mkTask TSkipped o]> (tasks y)) (ext y)
              (errs y ++ [acquire_error e]) (panicked y))
    | _ => None
    end
  | AReturn i e =>
    match tasks y !! i with
    | Some (mkTask TRun o) =>
      Some (upd i (mkTask (match e with Some e => TFailed e | None => TRelease end) (Some e)) g y)
    | _ => None
    end
  | ARecord i =>
    match tasks y !! i with
    | Some (mkTask (TFailed e) o) =>
      Some (mkSys (recordErr e g) (<[i := mkTask TRelease o]> (tasks y)) (ext y) (errs y ++ [e]) (panicked y))
    | _ => None
    end
  | ARelease i =>
    match tasks y !! i with
    | Some (mkTask TRelease o) =>
      match release g with
      | Some g' => Some (upd i (mkTask TFinish o) g' y)
      | None => Some (mkSys g (<[i := mkTask TFinish o]> (tasks y)) (ext y) (errs y) true)
      end
    | _ => None
    end
  | AFinish i =>
    match tasks y !! i with
    | Some (mkTask TFinish o) => Some (upd i (mkTask TDone o) (add_wg (-1) g) y)
    | _ => None
    end
  | AExtTake =>
    match lim g with
    | Some l =>
      let '(l', ok) := TryAcquire l in
      if ok : bool
      then Some (mkSys (set_lim (Some l') g) (tasks y) (ext y + 1) (errs y) (panicked y)) else None
    | None => None
    end
  | AExtGive =>
    match lim g with
    | Some l =>
      if 0 <? ext y then
        l' ← Release l;
        Some (mkSys (set_lim (Some l') g) (tasks y) (ext y - 1) (errs y) (panicked y))
      else None
    | None => None
    end
  | ACancel e =>
    match g_ctx g with
    | Some _ => None
    | None => Some (mkSys (mkGroup (lim g) (err g) (once g) (Some e) (Some None) (wg g))
                      (tasks y) (ext y) (errs y) (panicked y))
    end
  end.

Fixpoint acts (l : list action) (y : sys) : option sys :=
  match l with
  | [] => Some y
  | a :: l => y ← act a y; acts l y
  end.

(** A group on which [SetLimiter] was called, or not, before any [Go]. *)
Definition start (parent : option ctx_err) (l : option L) (held : Z) : sys :=
  mkSys (set_lim l (WithContext parent)) [] held [] false.

(** ** What holds of every interleaving *)

(** Tasks that hold a permit, and tasks [wg] counts. *)
Definition holds (t : task) : bool := match at_tpc t with TRun | TFailed _ | TRelease => true | _ => false end.
Definition counted (t : task) : bool :=
  match at_tpc t with TRun | TFailed _ | TRelease | TFinish => true | _ => false end.
(** [fn] is running, or a result of it is still to be handled. *)
Definition running (t : task) : bool := match at_tpc t with TRun => true | _ => false end.

(** The outcome of a task is recorded by the time it is past [recordErr]. *)
Definition task_ok (errs : list error) (t : task) : Prop :=
  match at_tpc t, outcome t with
  | (TEnter | TAcquire | TRefused _ | TSkipped | TRun), None => True
  | TFailed e, Some (Some e') => e = e'
  | (TRelease | TFinish | TDone), Some (Some e) => e ∈ errs
  | (TRelease | TFinish | TDone), Some None => True
  | _, _ => False
  end.

Definition errs_ok (g : Group) (es : list error) : Prop :=
  err g = head es /\ (once g = true <-> es <> []) /\ (es <> [] -> g_ctx g <> None).

Record group_inv (y : sys) : Prop := {
  inv_permits : permits_ok (lim (group y)) (ext y) (tally holds (tasks y));
  inv_ext : 0 <= ext y;
  inv_wg : wg (group y) = tally counted (tasks y);
  inv_errs : errs_ok (group y) (errs y);
  inv_tasks : Forall (task_ok (errs y)) (tasks y);
  inv_panic : panicked y = false }.

Lemma task_ok_app es e t : task_ok es t -> task_ok (es ++ [e]) t.
Proof. unfold task_ok. destruct (at_tpc t), (outcome t) as [[]|]; try done; set_solver. Qed.

Lemma recordErr_lim e g : lim (recordErr e g) = lim g.
Proof. unfold recordErr, cancel. by destruct (once g), (g_ctx g). Qed.
Lemma recordErr_wg e g : wg (recordErr e g) = wg g.
Proof. unfold recordErr, cancel. by destruct (once g), (g_ctx g) eqn:E; simpl; rewrite ?E. Qed.

Lemma recordErr_ok e g es : errs_ok g es -> errs_ok (recordErr e g) (es ++ [e]).
Proof.
  intros (He & Ho & Hc). assert (es ++ [e] <> []) by (by destruct es).
  unfold recordErr. destruct (once g) eqn:Honce.
  - assert (es <> []) by (by apply Ho). split_and!; [|tauto|auto]. by destruct es.
  - assert (es = []) as ->. { destruct es; [done|]. by assert (false = true) by (by apply Ho). }
    unfold cancel. simpl. by destruct (g_ctx g) eqn:E; unfold errs_ok; simpl; rewrite ?E.
Qed.

(** One task moves. *)
Lemma group_move y i t t' g' x' es' :
  group_inv y -> tasks y !! i = Some t ->
  permits_ok (lim g') x' (tally holds (tasks y) - b2z (holds t) + b2z (holds t')) -> 0 <= x' ->
  wg g' = wg (group y) - b2z (counted t) + b2z (counted t') ->
  errs_ok g' es' -> es' = errs y \/ (exists e, es' = errs y ++ [e]) ->
  task_ok es' t' ->
  group_inv (mkSys g' (<[i := t']> (tasks y)) x' es' (panicked y)).
Proof.
  intros [] Hi Hl Hx Hw He Hes Ht. split; simpl; [|done| |done| |done].
  - by rewrite (tally_insert _ _ _ _ _ Hi).
  - by rewrite (tally_insert _ _ _ _ _ Hi), Hw, inv_wg0.
  - apply Forall_insert; [|done]. destruct Hes as [->|[e ->]]; [done|].
    apply (Forall_impl _ _ _ inv_tasks0). intros. by apply task_ok_app.
Qed.

(** The same task set, other permits. *)
Lemma group_permits y g' x' :
  group_inv y -> permits_ok (lim g') x' (tally holds (tasks y)) -> 0 <= x' ->
  wg g' = wg (group y) -> errs_ok g' (errs y) ->
  group_inv (mkSys g' (tasks y) x' (errs y) (panicked y)).
Proof. intros [] ????. split; simpl; try done. congruence. Qed.

Lemma group_snoc y p :
  group_inv y -> p = TEnter \/ p = TSkipped ->
  group_inv (mkSys (group y) (tasks y ++ [mkTask p None]) (ext y) (errs y) (panicked y)).
Proof.
  intros [] Hp. split; simpl; rewrite ?tally_snoc; try done.
  - destruct Hp as [-> | ->]; simpl; by rewrite Z.add_0_r.
  - destruct Hp as [-> | ->]; simpl; by rewrite Z.add_0_r.
  - apply Forall_app_2; [done|]. constructor; [|constructor]. by destruct Hp as [-> | ->].
Qed.

Lemma group_spawn y i t g' :
  group_inv y -> tasks y !! i = Some t -> holds t = false -> counted t = false ->
  permits_ok (lim g') (ext y) (tally holds (tasks y) + 1) ->
  wg g' = wg (group y) -> errs_ok g' (errs y) ->
  group_inv (spawn i g' y).
Proof.
  intros Hinv Hi Hh Hc Hl Hw He. pose proof (inv_ext _ Hinv).
  apply (group_move _ _ _ _ _ _ _ Hinv Hi); try done; rewrite ?Hh, ?Hc; simpl; [|lia|by left].
  by rewrite Z.sub_0_r.
Qed.

(** A step of the goroutine at [Hi] that leaves the accounts in balance. *)
Ltac moves Hinv Hi :=
  apply (group_move _ _ _ _ _ _ _ Hinv Hi); try done;
  rewrite ?recordErr_lim, ?recordErr_wg;
  try match goal with H : lim _ = _ |- _ => rewrite H end;
  simpl; try lia; eauto using recordErr_ok;
  rewrite ?Z.sub_simpl_r, ?Z.sub_0_r, ?Z.add_0_r; try done.

Lemma act_group a y y' : act a y = Some y' -> group_inv y -> group_inv y'.
Proof.
  intros Ha Hinv. pose proof Hinv as [Hp Hx Hw He Ht Hpan]. destruct a as [| |i|i|i|i|i e|i|i|i| | |e]; simpl in Ha.
  all: try (destruct (tasks y !! i) as [[[] o]|] eqn:Hi; try done;
    pose proof Ht as Ho; rewrite Forall_lookup in Ho; specialize (Ho _ _ Hi); unfold task_ok in Ho; simpl in Ho).
  - simplify_eq. apply group_snoc; auto.
  - pose proof (group_snoc y TSkipped Hinv ltac:(by right)) as Hinv'.
    set (y1 := mkSys _ _ _ _ _) in Hinv'.
    assert (tasks y1 !! length (tasks y) = Some (mkTask TSkipped None)) as Hi by (by apply list_lookup_middle).
    destruct (lim (group y)) as [l|] eqn:Hl.
    + destruct (TryAcquire l) as [l' []] eqn:Htry; simplify_eq; [|done].
      apply (group_spawn y1 _ _ _ Hinv' Hi); try done.
      pose proof (inv_permits _ Hinv') as Hp'. simpl in Hp'. rewrite Hl in Hp'.
      apply (permits_taken _ _ _ _ Hp' Htry).
    + simplify_eq. apply (group_spawn y1 _ _ _ Hinv' Hi); try done. simpl. by rewrite Hl.
  - destruct (lim (group y)) as [l|] eqn:Hl.
    + destruct (g_ctx (group y)); simplify_eq; moves Hinv Hi.
    + simplify_eq. apply (group_spawn _ _ _ _ Hinv Hi); try done. by rewrite Hl.
  - destruct (lim (group y)) as [l|] eqn:Hl; [|done].
    destruct (TryAcquire l) as [l' []] eqn:Htry; simplify_eq.
    apply (group_spawn _ _ _ _ Hinv Hi); try done. apply (permits_taken _ _ _ _ Hp Htry).
  - destruct (lim (group y)) as [l|] eqn:Hl; [|done]. destruct (g_ctx (group y)); [|done].
    destruct (TryAcquire l) as [l' []] eqn:Htry; simplify_eq.
    moves Hinv Hi.
  - simplify_eq. moves Hinv Hi.
  - destruct e as [e|]; simplify_eq; moves Hinv Hi.
  - simplify_eq. moves Hinv Hi. destruct o as [[]|]; try done. simplify_eq. apply elem_of_app. right. by left.
  - pose proof (tally_pos holds _ _ _ Hi eq_refl) as Hpos. unfold release in Ha.
    destruct (lim (group y)) as [l|] eqn:Hl.
    + destruct (permits_given l _ _ Hp ltac:(lia)) as (l' & Hr & Hp' & _). rewrite Hr in Ha. simplify_eq/=.
      moves Hinv Hi.
    + simplify_eq. moves Hinv Hi.
  - simplify_eq. moves Hinv Hi.
  - destruct (lim (group y)) as [l|] eqn:Hl; [|done].
    destruct (TryAcquire l) as [l' []] eqn:Htry; simplify_eq.
    apply group_permits; try done; [|lia]. apply (permits_taken _ _ _ _ Hp Htry).
  - destruct (lim (group y)) as [l|] eqn:Hl; [|done]. destruct (Z.ltb_spec 0 (ext y)); [|done].
    assert (0 <= tally holds (tasks y)) by apply tally_nonneg.
    destruct (permits_given l _ _ Hp ltac:(lia)) as (l' & Hr & _ & Hp'). rewrite Hr in Ha. simplify_eq/=.
    apply group_permits; try done. lia.
  - destruct (g_ctx (group y)); simplify_eq. apply group_permits; try done.
    destruct He as (? & ? & ?). by split_and!.
Qed.

Definition limit_of (y : sys) : option Z := Capacity <$> lim (group y).

Lemma act_limit a y y' : act a y = Some y' -> group_inv y -> limit_of y' = limit_of y.
Proof.
  intros Ha [Hp _ _ _ _ _]. unfold limit_of.
  assert (forall l l', lim (group y) = Some l -> TryAcquire l = (l', true) -> Capacity l' = Capacity l) as Htake.
  { intros l l' Hl Ht. rewrite Hl in Hp. destruct Hp as [Hok _].
    pose proof (TryAcquire_spec l Hok) as Hs. rewrite Ht in Hs. tauto. }
  assert (forall l l', lim (group y) = Some l -> Release l = Some l' -> Capacity l' = Capacity l) as Hgive.
  { intros l l' Hl Ht. rewrite Hl in Hp. destruct Hp as [Hok _].
    pose proof (Release_spec l Hok) as Hs. rewrite Ht in Hs. tauto. }
  destruct a; simpl in Ha; unfold release, spawn, upd in Ha; go_cases;
    simplify_option_eq; rewrite ?recordErr_lim; try done;
    try match goal with E : lim (group y) = _ |- _ => rewrite E end; simpl; try done; f_equal; eauto.
Qed.

(** Only a group with a limiter has tasks waiting for a permit. *)
Definition nobody_waits (y : sys) : Prop :=
  lim (group y) = None -> Forall (fun t => at_tpc t <> TAcquire) (tasks y).

Lemma act_nobody a y y' :
  act a y = Some y' -> limit_of y' = limit_of y -> nobody_waits y -> nobody_waits y'.
Proof.
  unfold nobody_waits. intros Ha Hl Hn Hnone.
  assert (lim (group y) = None) as Hnone0.
  { unfold limit_of in Hl. rewrite Hnone in Hl. by destruct (lim (group y)). }
  specialize (Hn Hnone0).
  destruct a; simpl in Ha; unfold release, spawn, upd in Ha; rewrite ?Hnone0 in Ha; go_cases; simplify_option_eq;
    try done; repeat first [apply Forall_insert; [|done] | apply Forall_app_2; [done|repeat constructor; done]]; try exact Hn.
Qed.

Lemma acts_group l y y' :
  acts l y = Some y' -> group_inv y -> nobody_waits y ->
  group_inv y' /\ nobody_waits y' /\ limit_of y' = limit_of y.
Proof.
  revert y. induction l as [|a l IH]; simpl; intros y Hy Hi Hn; simplify_eq; [done|].
  destruct (act a y) as [y1|] eqn:Ha; simplify_eq/=. pose proof (act_limit _ _ _ Ha Hi) as Hl.
  rewrite <- Hl. eauto using act_group, act_nobody.
Qed.

(** Actions of the group's own goroutines. *)
Definition internal (a : action) : bool :=
  match a with AGo | ATryGo | AExtTake | AExtGive | ACancel _ => false | _ => true end.
Definition stuck (y : sys) : Prop := forall a, internal a = true -> act a y = None.

Definition over (t : task) : bool := match at_tpc t with TSkipped | TDone => true | _ => false end.

Lemma stuck_over y :
  group_inv y -> nobody_waits y -> stuck y -> ext y = 0 -> (forall c, limit_of y = Some c -> 0 < c) ->
  Forall (fun t => over t = true) (tasks y).
Proof.
  intros Hinv Hn Hst Hx Hc. pose proof Hinv as [Hp _ _ _ _ _].
  assert (forall i t, tasks y !! i = Some t -> over t = true \/ at_tpc t = TAcquire) as Hover.
  { intros i [p o] Hi. destruct p; try (by left); try (by right); exfalso.
    - specialize (Hst (AEnter i) eq_refl). simpl in Hst. rewrite Hi in Hst.
      by destruct (lim (group y)), (g_ctx (group y)).
    - specialize (Hst (ARefuse i) eq_refl). simpl in Hst. by rewrite Hi in Hst.
    - specialize (Hst (AReturn i None) eq_refl). simpl in Hst. by rewrite Hi in Hst.
    - specialize (Hst (ARecord i) eq_refl). simpl in Hst. by rewrite Hi in Hst.
    - specialize (Hst (ARelease i) eq_refl). simpl in Hst. rewrite Hi in Hst. by destruct (release (group y)).
    - specialize (Hst (AFinish i) eq_refl). simpl in Hst. by rewrite Hi in Hst. }
  assert (tally holds (tasks y) = 0) as Hh.
  { apply tally_none. intros t [i Hi]%list_elem_of_lookup. specialize (Hover i t Hi).
    unfold holds, over in *. destruct (at_tpc t); naive_solver. }
  apply Forall_lookup. intros i [p o] Hi. destruct (Hover i _ Hi) as [|Hacq]; [done|]. exfalso.
  simpl in Hacq. subst p. unfold limit_of in Hc.
  specialize (Hst (ATake i) eq_refl) as Ht. simpl in Ht. rewrite Hi in Ht.
  destruct (lim (group y)) as [l|] eqn:Hl; simpl in *.
  - destruct Hp as [Hok Hin]. pose proof (TryAcquire_spec l Hok) as Hs.
    destruct (TryAcquire l) as [l' []]; [done|]. specialize (Hc _ eq_refl). lia.
  - specialize (Hn Hl). rewrite Forall_lookup in Hn. by apply (Hn i _ Hi).
Qed.

Lemma group_start parent l held :
  permits_ok l held 0 -> 0 <= held ->
  group_inv (start parent l held) /\ nobody_waits (start parent l held).
Proof. intros Hp Hh. split; [|constructor]. by split. Qed.
End errgroup.

(** [SetLimit]: a limit of its own. *)
Definition SetLimit {error} (n : Z) (g : @Group Semaphore error) : may_panic (@Group Semaphore error) :=
  if negb (assertIdle g) then None
  else if n <=? 0 then Some (set_lim None g)
  else s ← NewSemaphore n; Some (set_lim (Some s) g).

(** C22. A group over any limiter, under every interleaving with its tasks,
    with other users of the limiter and with cancellation: [release] never
    panics; the functions running, plus the permits held by others, are never
    more than the capacity; [wg] counts the functions started and not over;
    [Wait] returns the first error recorded, and returns nil only if every
    function that is over returned nil; the first error has cancelled the
    context. And the group drains: when none of its goroutines can move and
    nobody else holds a permit, every task is over and [Wait] gets through. *)
Theorem errgroup_interleavings {L error} `{Limiter L} (acquire_error : ctx_err -> error)
  (parent : option ctx_err) (l : option L) (held : Z) (trace : list action) (y : sys)
  (Hlim : permits_ok l held 0) (Hheld : 0 <= held)
  (Hy : acts acquire_error trace (start parent l held) = Some y) :
  panicked y = false /\
  (forall c, Capacity <$> l = Some c -> ext y + tally holds (tasks y) <= c) /\
  wg (group y) = tally counted (tasks y) /\
  (Wait (group y)).2 = head (errs y) /\
  (head (errs y) = None -> Forall (fun t => at_tpc t = TDone -> outcome t = Some None) (tasks y)) /\
  (errs y <> [] -> g_ctx (group y) <> None) /\
  (stuck acquire_error y -> ext y = 0 -> (forall c, Capacity <$> l = Some c -> 0 < c) ->
    wg (group y) = 0 /\ Forall (fun t => over t = true) (tasks y)).
Proof.
  destruct (group_start (error := error) parent l held Hlim Hheld) as [Hi Hn].
  destruct (acts_group _ _ _ _ Hy Hi Hn) as (Hi' & Hn' & Hl). pose proof Hi' as [Hp Hx Hw (He & _ & Hc) Ht Hpan].
  unfold limit_of in Hl. simpl in Hl. split_and!; try done.
  - intros c Hcap. rewrite <- Hl in Hcap. destruct (lim (group y)) as [l1|]; [|done].
    destruct Hp as [Hok <-]. simplify_eq/=. apply InFlight_bounds, Hok.
  - intros Hnone. apply (Forall_impl _ _ _ Ht). intros [p o]. unfold task_ok. simpl. intros Ho ->.
    destruct o as [[e|]|]; [|done..]. destruct (errs y); [by apply not_elem_of_nil in Ho|done].
  - intros Hst Hext Hpos. assert (Forall (fun t => over t = true) (tasks y)) as Hover.
    { apply (stuck_over _ _ Hi' Hn' Hst Hext). unfold limit_of. by rewrite Hl. }
    split; [|done]. rewrite Hw. apply tally_none. intros t Hin. rewrite Forall_forall in Hover.
    specialize (Hover t Hin). unfold over, counted in *. by destruct (at_tpc t).
Qed.

Definition demo_trace : list (@action string) :=
  [AGo; AGo; AEnter 0; AEnter 1; ATake 0; AReturn 0 (Some "boom"); ARecord 0; ARelease 0; AFinish 0;
   ATake 1; AReturn 1 None; ARelease 1; AFinish 1].

Lemma errgroup_interleavings_witness :
  exists y, acts (fun _ => "acquire") demo_trace (start None (Some (mkSemaphore 1 0 0 0)) 0) = Some y /\
    (Wait (group y)).2 = head (errs y) /\ errs y = ["boom"] /\ wg (group y) = 0.
Proof.
  eexists. split; [vm_compute; reflexivity|]. split; [|done].
  refine (proj1 (proj2 (proj2 (proj2 (errgroup_interleavings (fun _ => "acquire") None
    (Some (mkSemaphore 1 0 0 0)) 0 demo_trace _ _ _ _))))).
  - vm_compute. intuition discriminate.
  - done.
  - vm_compute. reflexivity.
Defined.

(** Without a limiter [Go] does not look at the context: the function is
    started although the group is cancelled, and no cause is recorded. *)
Lemma errgroup_go_cancelled :
  exists y, acts (L := Semaphore) (fun _ => "acquire") [AGo; AEnter 0] (start (Some Canceled) None 0) = Some y /\
    at_tpc <$> tasks y !! 0%nat = Some TRun /\ errs y = [].
Proof. eexists. split; [vm_compute; reflexivity|]. by split. Qed.
