(* ===== verification/GoFloat.v ===== *)
(** [float64] arithmetic: the IEEE 754 binary64 operations of [SpecFloat].

    The conversion of a float outside the range of [int64] is left to the
    platform by the language; it is the field of [FloatConv]. *)
From Stdlib Require Import Floats.SpecFloat.
From S2P Require Import Prelude GoNum Model.
Open Scope Z_scope.

Definition fadd (x y : float64) : float64 := SFadd 53 1024 x y.
Definition fsub (x y : float64) : float64 := SFsub 53 1024 x y.
Definition fmul (x y : float64) : float64 := SFmul 53 1024 x y.
Definition fdiv (x y : float64) : float64 := SFdiv 53 1024 x y.
Definition flt (x y : float64) : bool := SFltb x y.
Definition fle (x y : float64) : bool := SFleb x y.

Definition float_of_Z (z : Z) : float64 := binary_normalize 53 1024 z 0 false.
Definition fzero : float64 := S754_zero false.
Definition fone : float64 := float_of_Z 1.
Definition ftwo : float64 := float_of_Z 2.

Class FloatConv := { conv_out_of_range : float64 -> Z; conv_range f : int64_ok (conv_out_of_range f) }.

(** The conversion drops the fraction. *)
Definition ftrunc (f : float64) : option Z :=
  match f with
  | S754_zero _ => Some 0
  | S754_finite s m e =>
    let a := Z.shiftl (Zpos m) e in
    Some (if s then - a else a)
  | _ => None
  end.

Definition int64_of_float `{FloatConv} (f : float64) : Z :=
  match ftrunc f with
  | Some z => if decide (int64_ok z) then z else conv_out_of_range f
  | None => conv_out_of_range f
  end.

Lemma int64_of_float_ok `{FloatConv} f : int64_ok (int64_of_float f).
Proof. unfold int64_of_float. go_cases; apply conv_range || done. Qed.

(** The conversion of amd64: the most negative integer. *)
#[export] Instance amd64_conv : FloatConv.
Proof. refine {| conv_out_of_range _ := minInt64 |}. by vm_compute. Defined.
