(* ===== verification/FloatRound.v ===== *)
(** Rounding of [float64] results: what the operations of [GoFloat] compute.

    [SpecFloat] rounds an exact integer significand by shifting it one bit at a
    time and keeping the last bit and whether any was lost. Here that is shown to
    be rounding to the nearest multiple, and from it follow what the conversion of
    an integer and a product of two normal numbers are. The exponents are those of
    numbers far from overflow and underflow. *)
From Stdlib Require Import Floats.SpecFloat.
From S2P Require Import Prelude GoNum Model GoFloat.
Open Scope Z_scope.

(** ** Digits *)

Lemma digits2_pos_bounds p : 2 ^ (Zpos (digits2_pos p) - 1) <= Zpos p < 2 ^ Zpos (digits2_pos p).
Proof.
  assert (forall q, 2 ^ Zpos (Pos.succ q) = 2 * 2 ^ Zpos q) as Hs.
  { intros q. rewrite Pos2Z.inj_succ, Z.pow_succ_r; lia. }
  assert (forall q, 2 ^ (Zpos (Pos.succ q) - 1) = 2 * 2 ^ (Zpos q - 1)) as Hp.
  { intros q. rewrite <- Z.pow_succ_r by lia. f_equal. lia. }
  induction p as [p IH|p IH|]; cbn [digits2_pos]; rewrite ?Hs, ?Hp; [lia..|done].
Qed.

Lemma digits2_unique p d : 0 < d -> 2 ^ (d - 1) <= Zpos p < 2 ^ d -> Zpos (digits2_pos p) = d.
Proof.
  intros Hd Hp. pose proof (digits2_pos_bounds p) as Hb.
  destruct (Z.lt_trichotomy (Zpos (digits2_pos p)) d) as [Hlt|[|Hgt]]; [|done|].
  - pose proof (Z.pow_le_mono_r 2 (Zpos (digits2_pos p)) (d - 1)). lia.
  - pose proof (Z.pow_le_mono_r 2 d (Zpos (digits2_pos p) - 1)). lia.
Qed.

(** ** Shifting right *)

(** What the two bits say of the part shifted out of [M] in [k] steps. *)
Definition shifted (M k : Z) (x : shr_record) : Prop :=
  exists rem, M = shr_m x * 2 ^ k + rem /\ 0 <= rem < 2 ^ k /\ 0 <= shr_m x /\
    match shr_r x, shr_s x with
    | false, false => rem = 0
    | false, true => 0 < 2 * rem < 2 ^ k
    | true, false => 2 * rem = 2 ^ k
    | true, true => 2 ^ k < 2 * rem
    end.

Lemma shr_1_shifted M k x : 0 <= k -> shifted M k x -> shifted M (k + 1) (shr_1 x).
Proof.
  intros Hk (rem & HM & Hrem & Hm & Hbits). unfold shifted. rewrite (Z.pow_add_r 2 k 1) by lia. change (2 ^ 1) with 2.
  destruct x as [[|p|p] r s]; cbn [shr_m shr_r shr_s] in *; [| |lia].
  - exists rem. simpl. destruct r, s; simpl; lia.
  - destruct p as [p|p|]; [exists (2 ^ k + rem)|exists rem|exists (2 ^ k + rem)]; destruct r, s; simpl; lia.
Qed.

Lemma iter_shifted M p : forall k x, 0 <= k -> shifted M k x -> shifted M (k + Zpos p) (SpecFloat.iter_pos shr_1 p x).
Proof.
  induction p as [p IH|p IH|]; intros k x Hk Hx; cbn [SpecFloat.iter_pos].
  - replace (k + Zpos p~1) with (k + 1 + Zpos p + Zpos p) by lia. do 2 (apply IH; [lia|]). by apply shr_1_shifted.
  - replace (k + Zpos p~0) with (k + Zpos p + Zpos p) by lia. do 2 (apply IH; [lia|]). done.
  - by apply shr_1_shifted.
Qed.

Lemma shr_shifted M e n : 0 <= M -> 0 <= n ->
  shifted M n (shr (shr_record_of_loc M loc_Exact) e n).1 /\ (shr (shr_record_of_loc M loc_Exact) e n).2 = e + n.
Proof.
  intros HM Hn. assert (shifted M 0 (shr_record_of_loc M loc_Exact)) as H0.
  { exists 0. rewrite Z.pow_0_r. simpl. lia. }
  destruct n as [|p|p]; [|split; [|done]; simpl|lia].
  - split; simpl; [done|lia].
  - rewrite <- (Z.add_0_l (Zpos p)). by apply iter_shifted.
Qed.

(** The significand that is kept is the nearest multiple of [2 ^ k]. *)
Lemma round_nearest M k x : 0 <= k -> shifted M k x ->
  let q := round_nearest_even (shr_m x) (loc_of_shr_record x) in
  shr_m x <= q /\ - 2 ^ k <= 2 * (q * 2 ^ k - M) <= 2 ^ k.
Proof.
  intros Hk (rem & -> & Hrem & Hm & Hbits). pose proof (Z.pow_pos_nonneg 2 k ltac:(lia) Hk).
  destruct x as [m [] []]; simpl in *; try destruct (Z.even m); lia.
Qed.

(** ** Rounding a significand *)

Definition pos_of (z : Z) : positive := Z.to_pos z.

(** A significand of up to [2 ^ 53] in its place. *)
Definition carried (q e : Z) : float64 :=
  if q =? 2 ^ 53 then S754_finite false (pos_of (2 ^ 52)) (e + 1) else S754_finite false (pos_of q) e.

Lemma shr_fexp_digits m e : 0 < m -> shr_fexp 53 1024 m e loc_Exact =
  shr (shr_record_of_loc m loc_Exact) e (Z.max (Zdigits2 m - 53) (- 1074 - e)).
Proof. intros Hm. unfold shr_fexp. f_equal. unfold fexp, emin. lia. Qed.

Lemma carried_spec q e : 2 ^ 52 <= q <= 2 ^ 53 -> - 1074 <= e <= 970 ->
  (let '(x, e') := shr_fexp 53 1024 q e loc_Exact in
   match shr_m x with
   | Z0 => S754_zero false
   | Zpos m => if e' <=? 1024 - 53 then S754_finite false m e' else S754_infinity false
   | Zneg _ => S754_nan
   end) = carried q e.
Proof.
  intros Hq He. rewrite shr_fexp_digits by lia. unfold carried. destruct (Z.eqb_spec q (2 ^ 53)) as [->|Hne].
  - replace (Z.max _ _) with 1 by (change (Zdigits2 (2 ^ 53)) with 54; lia). cbn -[Z.leb Z.add Z.sub].
    by rewrite (proj2 (Z.leb_le (e + 1) (1024 - 53))) by lia.
  - destruct q as [|p|p]; try lia. cbn [Zdigits2]. rewrite (digits2_unique p 53) by (simpl; lia).
    replace (Z.max _ _) with 0 by lia. cbn -[Z.leb Z.sub].
    by rewrite (proj2 (Z.leb_le e (1024 - 53))) by lia.
Qed.

Lemma round_aux_spec m e : let k := Zpos (digits2_pos m) - 53 in
  0 <= k -> - 1074 <= e + k <= 970 ->
  exists q, 2 ^ 52 <= q <= 2 ^ 53 /\ - 2 ^ k <= 2 * (q * 2 ^ k - Zpos m) <= 2 ^ k /\
    binary_round_aux 53 1024 false (Zpos m) e loc_Exact = carried q (e + k).
Proof.
  intros k Hk He. unfold binary_round_aux. rewrite shr_fexp_digits by lia. cbn [Zdigits2]. fold k.
  rewrite (Z.max_l k) by lia. destruct (shr_shifted (Zpos m) e k ltac:(lia) Hk) as [Hx He'].
  destruct (shr _ e k) as [x e']. cbn [fst snd] in *. subst e'.
  pose proof (round_nearest _ _ _ Hk Hx) as [Hge Hq]. set (q := round_nearest_even _ _) in *.
  assert (2 ^ 52 <= q <= 2 ^ 53) as Hr.
  { pose proof (digits2_pos_bounds m) as Hm. destruct Hx as (rem & HM & Hrem & _).
    pose proof (Z.pow_pos_nonneg 2 k ltac:(lia) Hk).
    replace (Zpos (digits2_pos m) - 1) with (52 + k) in Hm by lia. replace (Zpos (digits2_pos m)) with (53 + k) in Hm by lia.
    rewrite !Z.pow_add_r in Hm by lia. nia. }
  exists q. split; [done|]. split; [done|]. by apply carried_spec.
Qed.

(** ** Integers *)

Lemma shl_align_pow p d : (0 < d) -> Zpos (shl_align p 0 (- d)).1 = Zpos p * 2 ^ d /\ (shl_align p 0 (- d)).2 = - d.
Proof.
  intros Hd. unfold shl_align. destruct d as [|d|d]; try lia. simpl. split; [|done]. clear Hd. revert p.
  induction d as [|d IH] using Pos.peano_ind; intros p; [simpl; lia|].
  rewrite Pos.iter_succ, Pos2Z.inj_xO, IH, Pos2Z.inj_succ, Z.pow_succ_r by lia. lia.
Qed.

(** An integer of up to 53 bits is kept as it is, shifted to 53 bits. *)
Lemma float_of_small z : 0 < z < 2 ^ 53 -> exists m j,
  float_of_Z z = S754_finite false m (- j) /\ 0 <= j <= 52 /\ 2 ^ 52 <= Zpos m < 2 ^ 53 /\ Zpos m = z * 2 ^ j.
Proof.
  intros Hz. destruct z as [|p|p]; try lia. pose proof (digits2_pos_bounds p) as Hb.
  assert (1 <= Zpos (digits2_pos p) <= 53) as Hd.
  { destruct (Z.le_gt_cases (Zpos (digits2_pos p)) 53); [lia|].
    pose proof (Z.pow_le_mono_r 2 53 (Zpos (digits2_pos p) - 1)). lia. }
  remember (53 - Zpos (digits2_pos p)) as j eqn:Hj. assert (2 ^ 52 <= Zpos p * 2 ^ j < 2 ^ 53) as Hm.
  { replace (2 ^ 52) with (2 ^ (Zpos (digits2_pos p) - 1) * 2 ^ j) by (rewrite <- Z.pow_add_r by lia; f_equal; lia).
    replace (2 ^ 53) with (2 ^ Zpos (digits2_pos p) * 2 ^ j) by (rewrite <- Z.pow_add_r by lia; f_equal; lia).
    pose proof (Z.pow_pos_nonneg 2 j). nia. }
  exists (pos_of (Zpos p * 2 ^ j)), j. unfold pos_of. rewrite Z2Pos.id by lia.
  split; [|lia]. unfold float_of_Z, binary_normalize, binary_round. rewrite Z.add_0_r.
  assert (fexp 53 1024 (Zpos (digits2_pos p)) = - j) as -> by (unfold fexp, emin; lia).
  assert (exists mz, shl_align p 0 (- j) = (mz, - j) /\ Zpos mz = Zpos p * 2 ^ j) as (mz & -> & Hmz).
  { destruct (decide (j = 0)) as [->|]; [exists p; split; [done|by rewrite Z.pow_0_r, Z.mul_1_r]|]. destruct (shl_align_pow p j) as [H1 H2]; [lia|].
    destruct (shl_align p 0 (- j)) as [mz e]. simpl in *. subst. eauto. }
  assert (Zpos (digits2_pos mz) = 53) as H53 by (apply digits2_unique; [done|by rewrite Hmz]).
  destruct (round_aux_spec mz (- j)) as (q & Hq & Hnear & ->); rewrite ?H53; [lia..|].
  rewrite H53 in Hnear. simpl in Hnear. assert (q = Zpos mz) as -> by lia.
  unfold carried. destruct (Z.eqb_spec (Zpos mz) (2 ^ 53)); [lia|]. unfold pos_of. rewrite <- Hmz. f_equal. lia.
Qed.

(** The conversion keeps the order of such integers. *)
Lemma float_small_le a b : 0 < a <= b -> b < 2 ^ 53 -> fle (float_of_Z a) (float_of_Z b) = true.
Proof.
  intros Hab Hb. destruct (float_of_small a) as (m & i & -> & Hi & Hm & Ha); [lia|].
  destruct (float_of_small b) as (n & j & -> & Hj & Hn & Hbn); [lia|]. unfold fle, SFleb, SFcompare.
  destruct (Z.lt_trichotomy i j) as [Hlt|[->|Hgt]].
  - exfalso. assert (2 ^ j = 2 ^ i * 2 ^ (j - i)) as Hp by (rewrite <- Z.pow_add_r by lia; f_equal; lia).
    assert (2 <= 2 ^ (j - i)) by (pose proof (Z.pow_le_mono_r 2 1 (j - i)); lia).
    pose proof (Z.pow_pos_nonneg 2 i). rewrite Hp in Hbn. nia.
  - rewrite Z.compare_refl. change (Pos.compare_cont Eq m n) with (m ?= n)%positive.
    assert (Zpos m <= Zpos n) by (pose proof (Z.pow_pos_nonneg 2 j); nia). destruct (Pos.compare_spec m n); lia || done.
  - by rewrite (proj2 (Z.compare_lt_iff (- i) (- j))) by lia.
Qed.

(** The next number below the float of an integer is below the integer: half of the
    gap is the most that rounding can add. At a power of two the gap below is half
    as wide. All numbers are scaled by [2 ^ 200], so that they are integers. *)
Definition close_above (my ey n : Z) : Prop :=
  (my - 1) * 2 ^ (ey + 200) < n * 2 ^ 200 /\ (my = 2 ^ 52 -> (2 * my - 1) * 2 ^ (ey + 199) < n * 2 ^ 200).

Lemma close_exact n j : 0 <= j <= 52 -> close_above (n * 2 ^ j) (- j) n.
Proof.
  intros Hj. unfold close_above. assert (2 ^ 200 = 2 ^ j * 2 ^ (- j + 200)) as Hp by (rewrite <- Z.pow_add_r by lia; f_equal; lia).
  assert (2 ^ (- j + 200) = 2 * 2 ^ (- j + 199)) as Hq by (rewrite <- Z.pow_succ_r by lia; f_equal; lia).
  pose proof (Z.pow_pos_nonneg 2 (- j + 199)). rewrite Hp, Hq. split; [|intros _]; nia.
Qed.

Lemma close_scaled m e n : 1 <= e -> (m - 1) * 2 ^ e < n ->
  (m = 2 ^ 52 -> (2 * m - 1) * 2 ^ (e - 1) < n) -> close_above m e n.
Proof.
  intros He H1 H2. unfold close_above. replace (e + 199) with (e - 1 + 200) by lia. rewrite !(Z.pow_add_r 2 _ 200) by lia.
  pose proof (Z.pow_pos_nonneg 2 200). split; [|intros Hm; specialize (H2 Hm)]; nia.
Qed.

Lemma float_of_int n : 0 < n <= maxInt64 -> exists m e,
  float_of_Z n = S754_finite false m e /\ 2 ^ 52 <= Zpos m < 2 ^ 53 /\ - 52 <= e <= 11 /\ close_above (Zpos m) e n.
Proof.
  intros Hn. unfold maxInt64 in Hn. destruct (Z.lt_ge_cases n (2 ^ 53)) as [Hs|Hl].
  { destruct (float_of_small n) as (m & j & -> & Hj & Hm & Heq); [lia|]. exists m, (- j).
    split_and!; try done; try lia; rewrite Heq; by apply close_exact. }
  destruct n as [|p|p]; try lia. pose proof (digits2_pos_bounds p) as Hb.
  assert (54 <= Zpos (digits2_pos p) <= 63) as Hd.
  { split; apply Z.le_ngt; intros Hlt.
    - pose proof (Z.pow_le_mono_r 2 (Zpos (digits2_pos p)) 53). lia.
    - pose proof (Z.pow_le_mono_r 2 63 (Zpos (digits2_pos p) - 1)). lia. }
  unfold float_of_Z, binary_normalize, binary_round. rewrite Z.add_0_r.
  assert (shl_align p 0 (fexp 53 1024 (Zpos (digits2_pos p))) = (p, 0)) as ->.
  { unfold shl_align, fexp, emin. destruct (Z.max _ _ - 0) eqn:Hz; [done..|lia]. }
  destruct (round_aux_spec p 0) as (q & Hq & Hnear & ->); [lia..|]. rewrite Z.add_0_l.
  remember (Zpos (digits2_pos p) - 53) as k eqn:Hk.
  replace (Zpos (digits2_pos p) - 1) with (52 + k) in Hb by lia. rewrite Z.pow_add_r in Hb by lia.
  assert (2 ^ k = 2 * 2 ^ (k - 1)) as Hp by (rewrite <- Z.pow_succ_r by lia; f_equal; lia).
  pose proof (Z.pow_pos_nonneg 2 (k - 1)). unfold carried, pos_of.
  destruct (Z.eqb_spec q (2 ^ 53)) as [->|Hne]; eexists _, _; (split; [done|]).
  - split; [done|]. split; [lia|]. change (Zpos (Z.to_pos (2 ^ 52))) with (2 ^ 52).
    apply close_scaled; [lia| |intros _]; rewrite ?Z.add_simpl_r, ?Z.pow_add_r by lia; nia.
  - rewrite Z2Pos.id by lia. split; [lia|]. split; [lia|]. apply close_scaled; [lia|nia|intros ->; nia].
Qed.

(** ** Products with a number below one *)

Lemma ftrunc_carried q e : 0 < q <= 2 ^ 53 -> ftrunc (carried q e) = Some (Z.shiftl q e).
Proof.
  intros Hq. unfold carried, pos_of. destruct (Z.eqb_spec q (2 ^ 53)) as [->|Hne]; cbn [ftrunc].
  - change (Zpos (Z.to_pos (2 ^ 52))) with (2 ^ 52). change (2 ^ 53) with (Z.shiftl (2 ^ 52) 1).
    by rewrite Z.shiftl_shiftl, (Z.add_comm 1) by lia.
  - by rewrite Z2Pos.id by lia.
Qed.

Lemma shiftl_below q e n : 0 <= q -> 0 <= e + 200 -> q * 2 ^ (e + 200) < n * 2 ^ 200 -> 0 <= Z.shiftl q e < n.
Proof.
  intros Hq He Hlt. split; [by apply Z.shiftl_nonneg|]. destruct (Z.le_gt_cases 0 e).
  - rewrite Z.shiftl_mul_pow2 by done. rewrite Z.pow_add_r in Hlt by lia. pose proof (Z.pow_pos_nonneg 2 200). nia.
  - replace e with (- (- e)) by lia. rewrite Z.shiftl_opp_r, Z.shiftr_div_pow2 by lia.
    apply Z.div_lt_upper_bound; [by apply Z.pow_pos_nonneg; lia|].
    assert (2 ^ 200 = 2 ^ (- e) * 2 ^ (e + 200)) as Hp by (rewrite <- Z.pow_add_r by lia; f_equal; lia).
    pose proof (Z.pow_pos_nonneg 2 (e + 200)). nia.
Qed.

(** A multiple of [2 ^ -53] below one, times the float of [n], truncated, is below [n]. *)
Lemma product_below mx j n : 2 ^ 52 <= Zpos mx < 2 ^ 53 -> 0 <= j <= 52 -> 0 < n <= maxInt64 ->
  exists r, ftrunc (fmul (S754_finite false mx (- 53 - j)) (float_of_Z n)) = Some r /\ 0 <= r < n.
Proof.
  intros Hmx Hj Hn. destruct (float_of_int n Hn) as (my & ey & -> & Hmy & Hey & Hc1 & Hc2).
  unfold fmul. cbn [SFmul xorb]. pose proof (digits2_pos_bounds (mx * my)) as Hb. rewrite Pos2Z.inj_mul in *.
  assert (105 <= Zpos (digits2_pos (mx * my)) <= 106) as Hd.
  { split; apply Z.le_ngt; intros Hlt.
    - pose proof (Z.pow_le_mono_r 2 (Zpos (digits2_pos (mx * my))) 104). nia.
    - pose proof (Z.pow_le_mono_r 2 106 (Zpos (digits2_pos (mx * my)) - 1)). nia. }
  destruct (round_aux_spec (mx * my) (- 53 - j + ey)) as (q & Hq & Hnear & Hr); [lia..|].
  rewrite Pos2Z.inj_mul in Hr, Hnear. rewrite Hr, ftrunc_carried by lia. eexists. split; [done|]. apply shiftl_below; [lia..|].
  remember (Zpos (digits2_pos (mx * my)) - 53) as k eqn:Hk.
  assert (Zpos mx * Zpos my <= (2 ^ 53 - 1) * Zpos my) as HP by (apply Z.mul_le_mono_nonneg_r; lia).
  destruct (decide (j = 0)) as [->|Hj0].
  - assert (k = 53 \/ k = 52) as [Hk'|Hk'] by lia; rewrite Hk' in *.
    + replace (- 53 - 0 + ey + 53 + 200) with (ey + 200) by lia. replace (Zpos (digits2_pos (mx * my)) - 1) with 105 in Hb by lia.
      apply Z.le_lt_trans with (2 := Hc1), Z.mul_le_mono_nonneg_r; [apply Z.pow_nonneg|]; lia.
    + replace (- 53 - 0 + ey + 52 + 200) with (ey + 199) by lia.
      assert (2 ^ (ey + 200) = 2 * 2 ^ (ey + 199)) as Hp by (rewrite <- Z.pow_succ_r by lia; f_equal; lia).
      destruct (decide (Zpos my = 2 ^ 52)) as [Heq|Hne].
      * apply Z.le_lt_trans with (2 := Hc2 Heq), Z.mul_le_mono_nonneg_r; [apply Z.pow_nonneg|]; lia.
      * apply Z.le_lt_trans with (2 := Hc1). rewrite Hp, Z.mul_assoc.
        apply Z.mul_le_mono_nonneg_r; [apply Z.pow_nonneg|]; lia.
  - assert (q * 2 ^ k <= 2 ^ 53 * Zpos my) as Hqk by (assert (k = 53 \/ k = 52) as [->| ->] by lia; lia).
    replace (- 53 - j + ey + k + 200) with (k + (ey + 147 - j)) by lia. rewrite Z.pow_add_r, Z.mul_assoc by lia.
    apply Z.le_lt_trans with (2 := Hc1), Z.le_trans with (2 ^ 53 * Zpos my * 2 ^ (ey + 147 - j)).
    { apply Z.mul_le_mono_nonneg_r; [apply Z.pow_nonneg; lia|done]. }
    assert (2 ^ (ey + 200) = 2 ^ 53 * 2 ^ (ey + 147 - j) * (2 * 2 ^ (j - 1))) as Hp.
    { rewrite <- Z.pow_succ_r, <- !Z.pow_add_r by lia. f_equal. lia. }
    pose proof (Z.pow_pos_nonneg 2 (j - 1)). rewrite Hp.
    rewrite (Z.mul_comm (2 ^ 53) (Zpos my)), <- Z.mul_assoc.
    assert (0 <= 2 ^ 53 * 2 ^ (ey + 147 - j)) as Hx by (apply Z.mul_nonneg_nonneg; [lia|apply Z.pow_nonneg; lia]).
    revert Hx. generalize (2 ^ 53 * 2 ^ (ey + 147 - j)). intros x Hx.
    apply Z.le_trans with ((Zpos my - 1) * (x * 2)); [clear -Hmy Hx; nia|].
    apply Z.mul_le_mono_nonneg_l; [lia|]. apply Z.mul_le_mono_nonneg_l; lia.
Qed.

(** ** Quotients by [2 ^ 53] *)

Lemma div_pow53 z : 0 < z < 2 ^ 53 -> exists m j,
  fdiv (float_of_Z z) (float_of_Z (2 ^ 53)) = S754_finite false m (- 53 - j) /\
  0 <= j <= 52 /\ 2 ^ 52 <= Zpos m < 2 ^ 53 /\ Zpos m = z * 2 ^ j.
Proof.
  intros Hz. destruct (float_of_small z Hz) as (m & j & -> & Hj & Hm & Heq). exists m, j. split; [|done].
  change (float_of_Z (2 ^ 53)) with (S754_finite false 4503599627370496 1). unfold fdiv. cbn [SFdiv xorb].
  unfold SFdiv_core_binary. cbn [Zdigits2]. rewrite (digits2_unique m 53) by (simpl; lia).
  change (Zpos (digits2_pos 4503599627370496)) with 53.
  assert (fexp 53 1024 (53 + - j - (53 + 1)) = - j - 54) as -> by (unfold fexp, emin; lia).
  rewrite (Z.min_l (- j - 54)) by lia. replace (- j - 1 - (- j - 54)) with 53 by lia. cbn match.
  rewrite Z.shiftl_mul_pow2 by lia.
  assert (Z.div_eucl (Zpos m * 2 ^ 53) 4503599627370496 = (Zpos (2 * m), 0)) as ->.
  { pose proof (Z_div_mod (Zpos m * 2 ^ 53) 4503599627370496 eq_refl) as Hqr. destruct (Z.div_eucl _ _) as [q r].
    f_equal; lia. }
  change (new_location 4503599627370496 0) with loc_Exact.
  destruct (round_aux_spec (2 * m) (- j - 54)) as (q & Hq & Hnear & ->).
  all: rewrite (digits2_unique (2 * m) 54) in * by (rewrite ?Pos2Z.inj_mul; simpl; lia); try lia.
  change (2 ^ (54 - 53)) with 2 in Hnear. rewrite Pos2Z.inj_mul in Hnear. assert (q = Zpos m) as -> by lia. unfold carried, pos_of.
  destruct (Z.eqb_spec (Zpos m) (2 ^ 53)); [lia|]. cbn [Z.to_pos]. f_equal. lia.
Qed.
