(* ===== verification/Retry.v ===== *)
(** [internal/retry]: bounded retries with backoff.

    [Do] is translated over any world: the operation, the context, the
    sleeper, the random source and the [OnRetry] callback are arguments that
    may change it. Its contract is stated over the world of traces. *)
From S2P Require Import Prelude GoNum Model GoFloat.
Open Scope Z_scope.

Section retry.
Context `{FloatConv} {error : Type}.

Record Policy := mkPolicy {
  MaxAttempts : Z; BaseDelay : Duration; MaxDelay : Duration;
  Multiplier : float64; JitterFraction : float64;
  Retryable : option (error -> bool) }.

Definition maxAttempts (p : Policy) : Z := if MaxAttempts p <=? 0 then 3 else MaxAttempts p.
Definition baseDelay (p : Policy) : Duration :=
  if BaseDelay p <=? 0 then 100 * Millisecond else BaseDelay p.
Definition maxDelay (p : Policy) : Duration :=
  if MaxDelay p <=? 0 then 5 * Second else MaxDelay p.
Definition multiplier (p : Policy) : float64 :=
  if fle (Multiplier p) fzero then ftwo else Multiplier p.

(** The loop of [computeDelay]: [n] multiplications are left. *)
Fixpoint backoff (p : Policy) (n : nat) (base : float64) : float64 :=
  match n with
  | O => base
  | S n =>
    let base := fmul base (multiplier p) in
    if fle (float_of_Z (maxDelay p)) base then float_of_Z (maxDelay p) else backoff p n base
  end.

(** [draw]: the next number of the random source, if there is one. *)
Definition computeDelay (p : Policy) (draw : option float64) (attempt : Z) : Duration :=
  let base := backoff p (Z.to_nat (attempt - 1)) (float_of_Z (baseDelay p)) in
  let base :=
    match draw with
    | Some r =>
      if flt fzero (JitterFraction p) then
        let offset := fmul (fmul (fsub (fmul r ftwo) fone) (JitterFraction p)) base in
        let base := fadd base offset in
        if flt base fzero then fzero else base
      else base
    | None => base
    end in
  int64_of_float base.

(** [Real.Sleep]: [done] is what the context holds if the [select] finds it done
    before the timer. *)
Definition Real_Sleep (d : Duration) (err : option ctx_err) (done : option ctx_err) : option ctx_err :=
  if d <=? 0 then err else done.

Inductive outcome :=
| RNil
| RCtx (e : ctx_err)                      (* [ctx.Err()], also from the sleeper *)
| ROp (e : error)                         (* not retryable *)
| RExhausted (attempts : Z) (e : error)   (* "retry: exhausted %d attempts: %w" *)
| RNoAttempts.

(** What [Do] is given, over a world [W]. *)
Record env (W : Type) := mkEnv {
  ctx_Err : W -> option ctx_err;
  op : Z -> W -> W * option error;
  Sleep : Duration -> W -> W * option ctx_err;
  Float64 : option (W -> W * float64);
  OnRetry : option (Z -> error -> Duration -> W -> W) }.
Arguments ctx_Err {W}. Arguments op {W}. Arguments Sleep {W}. Arguments Float64 {W}. Arguments OnRetry {W}.

(** A draw is made only when the policy has jitter. *)
Definition draw {W} (v : env W) (p : Policy) (w : W) : W * option float64 :=
  match Float64 v with
  | Some f => if flt fzero (JitterFraction p) then let '(w, r) := f w in (w, Some r) else (w, None)
  | None => (w, None)
  end.

(** The loop of [Do] with [n + 1] attempts left, from [attempt] on. *)
Fixpoint loop {W} (v : env W) (p : Policy) (n : nat) (attempt : Z) (w : W) : W * outcome :=
  match ctx_Err v w with
  | Some e => (w, RCtx e)
  | None =>
    match op v attempt w with
    | (w, None) => (w, RNil)
    | (w, Some err) =>
      match n with
      | O => (w, RExhausted (maxAttempts p) err)     (* attempt == maxN *)
      | S n =>
        if negb (match Retryable p with Some f => f err | None => true end) then (w, ROp err)
        else
          let '(w, r) := draw v p w in
          let delay := computeDelay p r attempt in
          let w := match OnRetry v with Some f => f attempt err delay w | None => w end in
          match Sleep v delay w with
          | (w, Some e) => (w, RCtx e)
          | (w, None) => loop v p n (attempt + 1) w
          end
      end
    end
  end.

Definition Do {W} (v : env W) (p : Policy) (w : W) : W * outcome :=
  loop v p (Z.to_nat (maxAttempts p - 1)) 1 w.

(** ** The world of traces

    The operation returns what a script says; the context is cancelled or not
    as a function of what has happened so far; the sleeper is [Instant], which
    records the delay and returns [ctx.Err()]. *)
Inductive event :=
| EOp (attempt : Z)
| ERetry (attempt : Z) (err : error) (delay : Duration)
| ESleep (delay : Duration).

Section traces.
Context (script : Z -> option error) (cancelled : list event -> option ctx_err)
  (draws : option (nat -> float64)) (p : Policy).

Definition sleeps (w : list event) : nat :=
  length (filter (fun e => match e with ESleep _ => true | _ => false end = true) w).

Definition traced : env (list event) := mkEnv _
  cancelled
  (fun a w => (w ++ [EOp a], script a))
  (fun d w => (w ++ [ESleep d], cancelled (w ++ [ESleep d])))
  (match draws with Some f => Some (fun w => (w, f (sleeps w))) | None => None end)
  (Some (fun a e d w => w ++ [ERetry a e d])).

Definition retryable (e : error) : bool := match Retryable p with Some f => f e | None => true end.

(** The delay after attempt [a]: its jitter is the draw number [a - 1]. *)
Definition delay_at (a : Z) : Duration :=
  computeDelay p (match draws with
                  | Some f => if flt fzero (JitterFraction p) then Some (f (Z.to_nat (a - 1))) else None
                  | None => None end) a.

(** What happens in the attempts [1 .. k] when each fails and is retried. *)
Definition round (a : Z) (e : error) : list event := [EOp a; ERetry a e (delay_at a); ESleep (delay_at a)].

Fixpoint rounds (k : nat) : list event :=
  match k with
  | O => []
  | S k => rounds k ++ match script (Z.of_nat (S k)) with Some e => round (Z.of_nat (S k)) e | None => [] end
  end.

(** The first [k] attempts fail, are retried, and the context stays live. *)
Definition retried (k : nat) : Prop :=
  forall a, (1 <= a <= k)%nat ->
    (exists e, script (Z.of_nat a) = Some e /\ retryable e = true) /\
    cancelled (rounds (a - 1)) = None /\
    cancelled (rounds a) = None.

(** How a run ends, and the trace it leaves. *)
Inductive ended : list event -> outcome -> Prop :=
| ended_nil k : (Z.of_nat k < maxAttempts p) -> retried k -> cancelled (rounds k) = None ->
    script (Z.of_nat (S k)) = None ->
    ended (rounds k ++ [EOp (Z.of_nat (S k))]) RNil
| ended_exhausted k e : Z.of_nat (S k) = maxAttempts p -> retried k -> cancelled (rounds k) = None ->
    script (Z.of_nat (S k)) = Some e ->
    ended (rounds k ++ [EOp (Z.of_nat (S k))]) (RExhausted (maxAttempts p) e)
| ended_stop k e : Z.of_nat (S k) < maxAttempts p -> retried k -> cancelled (rounds k) = None ->
    script (Z.of_nat (S k)) = Some e -> retryable e = false ->
    ended (rounds k ++ [EOp (Z.of_nat (S k))]) (ROp e)
| ended_before e : cancelled [] = Some e -> ended [] (RCtx e)
| ended_cancelled k e x : Z.of_nat (S k) < maxAttempts p -> retried k -> cancelled (rounds k) = None ->
    script (Z.of_nat (S k)) = Some x -> retryable x = true -> cancelled (rounds (S k)) = Some e ->
    ended (rounds (S k)) (RCtx e).

Lemma maxAttempts_pos : 1 <= maxAttempts p.
Proof. unfold maxAttempts. destruct (Z.leb_spec (MaxAttempts p) 0); lia. Qed.

Lemma rounds_S k e : script (Z.of_nat (S k)) = Some e ->
  rounds (S k) = rounds k ++ round (Z.of_nat (S k)) e.
Proof. intros He. simpl rounds. by rewrite He. Qed.

Lemma sleeps_rounds k : retried k -> sleeps (rounds k) = k.
Proof.
  induction k as [|k IH]; intros Hr; [done|].
  destruct (Hr (S k) ltac:(lia)) as [(e & He & _) _]. rewrite (rounds_S k e He).
  unfold sleeps in *. rewrite filter_app, length_app, IH; [simpl; lia|].
  intros a Ha. apply Hr. lia.
Qed.

Lemma retried_S k e :
  retried k -> cancelled (rounds k) = None -> script (Z.of_nat (S k)) = Some e -> retryable e = true ->
  cancelled (rounds (S k)) = None -> retried (S k).
Proof.
  intros Hr Hc He Hre Hc' a Ha. destruct (decide (a = S k)) as [->|]; [|apply Hr; lia].
  replace (S k - 1)%nat with k by lia. eauto.
Qed.

Lemma draw_traced k : retried k ->
  draw traced p (rounds k ++ [EOp (Z.of_nat (S k))]) =
    (rounds k ++ [EOp (Z.of_nat (S k))],
     match draws with
     | Some f => if flt fzero (JitterFraction p) then Some (f (Z.to_nat (Z.of_nat (S k) - 1))) else None
     | None => None end).
Proof.
  intros Hr. unfold draw, traced. simpl. destruct draws as [f|]; [|done].
  destruct (flt fzero (JitterFraction p)); [|done]. do 2 f_equal. f_equal.
  unfold sleeps. rewrite filter_app, length_app. fold (sleeps (rounds k)).
  rewrite sleeps_rounds by done. simpl. lia.
Qed.

Lemma loop_ended n : forall k,
  Z.of_nat (S (k + n)) = maxAttempts p -> retried k -> k = O \/ cancelled (rounds k) = None ->
  let '(w, o) := loop traced p n (Z.of_nat (S k)) (rounds k) in ended w o.
Proof.
  induction n as [|n IH]; intros k Hn Hr Hk.
  all: simpl loop; destruct (cancelled (rounds k)) as [e|] eqn:Hc;
    [destruct Hk as [->|]; [by apply ended_before|done]|].
  all: destruct (script (Z.of_nat (S k))) as [x|] eqn:Hx; [|apply ended_nil; done || lia].
  - apply ended_exhausted; try done. rewrite <- Hn. f_equal. lia.
  - fold (retryable x). destruct (retryable x) eqn:Hre; simpl; [|by apply ended_stop; try done; lia].
    rewrite draw_traced by done. fold (delay_at (Z.of_nat (S k))).
    rewrite <- !app_assoc. simpl. fold (round (Z.of_nat (S k)) x). rewrite <- (rounds_S k x Hx).
    destruct (cancelled (rounds (S k))) as [e|] eqn:Hc'; [by eapply ended_cancelled; try done; lia|].
    replace (Z.of_nat (S k) + 1) with (Z.of_nat (S (S k))) by lia.
    apply IH; [lia| |by right]. by eapply retried_S.
Qed.
End traces.
End retry.


(** The default policy: three attempts, 100 ms and 200 ms apart. *)
Example retry_default :
  Do (traced (fun _ => Some "down") (fun _ => None) None)
    (mkPolicy 0 0 0 fzero fzero None) [] =
  ([EOp 1; ERetry 1 "down" (100 * Millisecond); ESleep (100 * Millisecond);
    EOp 2; ERetry 2 "down" (200 * Millisecond); ESleep (200 * Millisecond); EOp 3],
   RExhausted 3 "down").
Proof. vm_compute. reflexivity. Qed.

(** The cap applies from the second delay on: with a base of 10 s and the
    default cap of 5 s the delays are 10 s and 5 s. *)
Example retry_first_delay_uncapped :
  let p := mkPolicy (error := unit) 0 (10 * Second) 0 fzero fzero None in
  computeDelay p None 1 = 10 * Second /\ computeDelay p None 2 = 5 * Second.
Proof. vm_compute. done. Qed.
