(* ===== verification/Shutdown.v ===== *)
(** [internal/shutdown]: teardown hooks in reverse order.

    A hook is known by how it ends: with a result, with a panic, or after its
    context (the parent's, or the per-hook timeout). The parent context is
    cancelled or not as a function of the trace so far. *)
From S2P Require Import Prelude GoNum.
Open Scope Z_scope.

Section shutdown.
Context {error Hook : Type}.

Inductive hook_end := Returned (e : option error) | Panicked (v : string) | Outlived (e : ctx_err).
Context (ends : Hook -> hook_end).

Record registered := mkRegistered { name : string; hook : Hook }.

Record Coordinator := mkCoordinator {
  hookTimeout : Duration; hooks : list registered; started : bool; done_closed : bool }.

Definition New (hookTimeout : Duration) : Coordinator := mkCoordinator hookTimeout [] false false.

(** [Register] returns the closure's captured index and name. *)
Definition Register (n : string) (h : Hook) (c : Coordinator) : Coordinator * (nat * string) :=
  (mkCoordinator (hookTimeout c) (hooks c ++ [mkRegistered n h]) (started c) (done_closed c),
   (length (hooks c), n)).

Definition deregister (token : nat * string) (c : Coordinator) : Coordinator :=
  let '(idx, n) := token in
  match hooks c !! idx with
  | Some r =>
    if started c || negb (name r =? n)%string then c
    else mkCoordinator (hookTimeout c) (take idx (hooks c) ++ drop (S idx) (hooks c)) (started c) (done_closed c)
  | None => c
  end.

Definition Size (c : Coordinator) : nat := length (hooks c).
Definition IsShuttingDown (c : Coordinator) : bool := started c.

Inductive hook_error := HErr (e : error) | HPanic (v : string) | HTimeout (timeout : Duration) (e : ctx_err).

Definition runHook (r : registered) (timeout : Duration) : option hook_error :=
  match ends (hook r) with
  | Returned None => None
  | Returned (Some e) => Some (HErr e)
  | Panicked v => Some (HPanic v)
  | Outlived e => Some (HTimeout timeout e)
  end.

(** What [Shutdown] does, in order: run a hook, call [onHookError]. *)
Inductive event := EHook (n : string) | EOnError (n : string) (e : hook_error).
(** The errors it joins. *)
Inductive shut_error := SAborted (n : string) (e : ctx_err) | SHook (n : string) (e : hook_error).

Context (cancelled : list event -> option ctx_err).

(** The loop, over the hooks left to run. *)
Fixpoint run_hooks (l : list registered) (timeout : Duration) (tr : list event) :
  list event * list shut_error :=
  match l with
  | [] => (tr, [])
  | r :: l =>
    match cancelled tr with
    | Some e => (tr, [SAborted (name r) e])
    | None =>
      match runHook r timeout with
      | None => run_hooks l timeout (tr ++ [EHook (name r)])
      | Some e =>
        let '(tr, es) := run_hooks l timeout (tr ++ [EHook (name r); EOnError (name r) e]) in
        (tr, SHook (name r) e :: es)
      end
    end
  end.

(** [errors.Join] of no errors is nil: the empty list. A second call finds
    the first one over. *)
Definition Shutdown (c : Coordinator) (tr : list event) : Coordinator * (list event * list shut_error) :=
  if started c then (c, (tr, []))
  else
    (mkCoordinator (hookTimeout c) (hooks c) true true,
     run_hooks (rev (hooks c)) (hookTimeout c) tr).

(** ** What a run does *)

Definition events_of (timeout : Duration) (r : registered) : list event :=
  EHook (name r) :: match runHook r timeout with Some e => [EOnError (name r) e] | None => [] end.
Definition error_of (timeout : Duration) (r : registered) : list shut_error :=
  match runHook r timeout with Some e => [SHook (name r) e] | None => [] end.

Lemma run_hooks_spec l timeout tr :
  exists k,
    (run_hooks l timeout tr).1 = tr ++ (take k l ≫= events_of timeout) /\
    (forall j, (j < k)%nat -> cancelled (tr ++ (take j l ≫= events_of timeout)) = None) /\
    ((k = length l /\ (run_hooks l timeout tr).2 = (l ≫= error_of timeout)) \/
     (exists r e, l !! k = Some r /\ cancelled (tr ++ (take k l ≫= events_of timeout)) = Some e /\
       (run_hooks l timeout tr).2 = (take k l ≫= error_of timeout) ++ [SAborted (name r) e])).
Proof.
  revert tr. induction l as [|r l IH]; intros tr; simpl.
  { exists 0%nat. split_and!; [by rewrite app_nil_r|lia|by left]. }
  destruct (cancelled tr) as [e|] eqn:Hc.
  { exists 0%nat. simpl. rewrite app_nil_r. split_and!; [done|lia|]. right. by exists r, e. }
  assert (exists es, events_of timeout r = es /\
    match runHook r timeout with
    | None => run_hooks l timeout (tr ++ [EHook (name r)])
    | Some e =>
      let '(tr, es) := run_hooks l timeout (tr ++ [EHook (name r); EOnError (name r) e]) in
      (tr, SHook (name r) e :: es)
    end = ((run_hooks l timeout (tr ++ es)).1, error_of timeout r ++ (run_hooks l timeout (tr ++ es)).2))
    as (es & Hes & ->).
  { eexists. split; [reflexivity|]. unfold events_of, error_of. destruct (runHook r timeout).
    - by destruct (run_hooks l timeout _).
    - by destruct (run_hooks l timeout _). }
  destruct (IH (tr ++ es)) as (k & Htr & Hlive & Hend). exists (S k). cbn [take length fst snd].
  rewrite !bind_cons, Hes, app_assoc. split_and!.
  - done.
  - intros [|j] Hj; cbn [take]; [by rewrite app_nil_r|]. rewrite bind_cons, Hes, app_assoc. apply Hlive. lia.
  - destruct Hend as [[-> ->]|(r' & e & Hr & He & ->)]; [by left|right].
    exists r', e. rewrite app_assoc. done.
Qed.
End shutdown.

Lemma registers_spec {Hook} timeout (regs : list (@registered Hook)) :
  let c := foldl (fun c r => (Register (name r) (hook r) c).1) (New timeout) regs in
  hooks c = regs /\ started c = false /\ hookTimeout c = timeout.
Proof.
  intros c. subst c. induction regs as [|[n h] regs IH] using rev_ind; [done|].
  rewrite foldl_snoc. destruct IH as (Hh & Hs & Ht). cbn in *. by rewrite Hh.
Qed.

(** [Shutdown] of a coordinator with the hooks registered one after the
    other: they run in reverse order of registration, each at most once and
    none skipped, until the context is found cancelled; a hook that fails,
    panics or outlives its context is reported to the handler right after it
    ran and does not stop the others; the joined errors are those of the
    failed hooks in the order they ran, and last, if the run was cut short,
    one that names the hook before which it was. Afterwards the coordinator
    is done, and a further call runs nothing. *)
Theorem shutdown_lifo {error Hook} (ends : Hook -> @hook_end error) (cancelled : list event -> option ctx_err)
  (timeout : Duration) (regs : list registered) :
  let c := foldl (fun c r => (Register (name r) (hook r) c).1) (New timeout) regs in
  let '(c', (tr, es)) := Shutdown ends cancelled c [] in
  let order := rev regs in
  hooks c = regs /\ done_closed c' = true /\ IsShuttingDown c' = true /\
  (exists k,
    tr = (take k order ≫= events_of ends timeout) /\
    (forall j, (j < k)%nat -> cancelled (take j order ≫= events_of ends timeout) = None) /\
    ((k = length order /\ es = (order ≫= error_of ends timeout)) \/
     exists r e, order !! k = Some r /\ cancelled tr = Some e /\
       es = (take k order ≫= error_of ends timeout) ++ [SAborted (name r) e])) /\
  (forall tr', Shutdown ends cancelled c' tr' = (c', (tr', []))).
Proof.
  intros c. destruct (registers_spec timeout regs) as (Hh & Hs & Ht). fold c in Hh, Hs, Ht.
  unfold Shutdown. rewrite Hs, Hh, Ht. destruct (run_hooks_spec ends cancelled (rev regs) timeout []) as (k & Htr & Hl & He).
  destruct (run_hooks ends cancelled (rev regs) timeout []) as [tr es]. simpl in *. subst tr.
  split_and!; try done. exists k. split_and!; try done.
Qed.

(** A closure of [Register] removes its own hook as long as nothing
    registered before it has been removed and shutdown has not begun. *)
Lemma deregister_own {Hook} n (h : Hook) c more :
  started c = false ->
  let '(c1, token) := Register n h c in
  hooks (deregister token (mkCoordinator (hookTimeout c) (hooks c1 ++ more) false (done_closed c))) =
    hooks c ++ more.
Proof.
  intros Hs. unfold Register, deregister. simpl. rewrite <- app_assoc. simpl.
  rewrite list_lookup_middle by done. simpl. rewrite String.eqb_refl. simpl.
  rewrite take_app_length. f_equal. rewrite drop_app_ge by lia.
  by replace (S (length (hooks c)) - length (hooks c))%nat with 1%nat by lia.
Qed.

(** After an earlier hook is removed the captured index is stale: the closure
    of the second hook does nothing, and with equal names it removes the
    wrong one. *)
Lemma deregister_stale :
  let c0 : @Coordinator nat := New 0 in
  let '(c1, ta) := Register "a" 1%nat c0 in
  let '(c2, tb) := Register "b" 2%nat c1 in
  let c3 := deregister ta c2 in
  hooks (deregister tb c3) = [mkRegistered "b" 2%nat].
Proof. reflexivity. Qed.

Lemma deregister_wrong :
  let c0 : @Coordinator nat := New 0 in
  let '(c1, ta) := Register "db" 1%nat c0 in
  let '(c2, tb) := Register "db" 2%nat c1 in
  let '(c3, tc) := Register "db" 3%nat c2 in
  map hook (hooks (deregister tb (deregister ta c3))) = [2%nat].
Proof. reflexivity. Qed.
