(* ===== verification/ShutdownRuns.v ===== *)
(** [internal/shutdown]: any number of callers, over the coordinator of [Shutdown].

    The first call of [Shutdown] takes the hooks and runs them; each hook is a
    goroutine, which the call leaves behind when its context ends first. Other
    calls of [Shutdown] wait for the first, and [Register] and its closures may
    come at any moment. The handler of [OnHookError] is taken to return. *)
From S2P Require Import Prelude GoNum Shutdown.
Open Scope Z_scope.

Section runs.
Context {error Hook : Type}.

(** How the function of a hook ends; a panic is recovered into an error. *)
Inductive go_end := GReturned (e : option error) | GPanicked (v : string).

Definition as_end (g : go_end) : @hook_end error :=
  match g with GReturned e => Returned e | GPanicked v => Panicked v end.

(** The first call: not made, at the head of its loop, in the [select] of
    [runHook], past its loop. *)
Inductive runner := RIdle | RTop (rest : list (@registered Hook)) | RWait (r : @registered Hook) (rest : list (@registered Hook)) | ROver.

Inductive caller := CRuns | CWaits | CReturned (es : list (@shut_error error)).

Record sys := mkSys {
  coord : @Coordinator Hook;
  parent : option ctx_err;                             (* the context of the first call *)
  run : runner;
  gos : list (@registered Hook * option go_end);       (* the hooks started; [None] is in its function *)
  seen : list (@registered Hook * @hook_end error);    (* what the first call made of each *)
  reports : list (string * @hook_error error);         (* calls of the handler *)
  errs : list (@shut_error error);
  callers : list caller;
  order : list (@registered Hook) }.                   (* what the first call took, last first *)

Inductive action :=
| ARegister (n : string) (h : Hook) | ADeregister (token : nat * string)
| AShutdown | ACancel (e : ctx_err)
| ATop | AHook (g : nat) (e : go_end) | AReceive | ATimeout (e : ctx_err)
| AReturn (i : nat).

Definition close_done (c : @Coordinator Hook) : Coordinator := mkCoordinator (hookTimeout c) (hooks c) (started c) true.

Definition with_coord (c : @Coordinator Hook) (y : sys) : sys :=
  mkSys c (parent y) (run y) (gos y) (seen y) (reports y) (errs y) (callers y) (order y).

(** The loop of the first call is over: the deferred close of [doneCh]. *)
Definition finish (es : list shut_error) (y : sys) : sys :=
  mkSys (close_done (coord y)) (parent y) ROver (gos y) (seen y) (reports y) (errs y ++ es) (callers y) (order y).

(** [runHook] has returned: the rest of the round. *)
Definition conclude (r : @registered Hook) (rest : list registered) (h : @hook_end error) (y : sys) : sys :=
  let failed := option_list (runHook (fun _ => h) r (hookTimeout (coord y))) in
  mkSys (coord y) (parent y) (RTop rest) (gos y) (seen y ++ [(r, h)]) (reports y ++ map (pair (name r)) failed)
    (errs y ++ map (SHook (name r)) failed) (callers y) (order y).

(** The context of a hook is over with [e]. *)
Definition hook_ctx_over (e : ctx_err) (y : sys) : bool :=
  bool_decide (parent y = Some e) || (0 <? hookTimeout (coord y)) && bool_decide (e = DeadlineExceeded).

Definition act (a : action) (y : sys) : option sys :=
  let c := coord y in
  match a with
  | ARegister n h => Some (with_coord (Register n h c).1 y)
  | ADeregister token => Some (with_coord (deregister token c) y)
  | AShutdown =>
    Some (if started c
          then mkSys c (parent y) (run y) (gos y) (seen y) (reports y) (errs y) (callers y ++ [CWaits]) (order y)
          else mkSys (mkCoordinator (hookTimeout c) (hooks c) true (done_closed c)) (parent y) (RTop (rev (hooks c)))
                 (gos y) (seen y) (reports y) (errs y) (callers y ++ [CRuns]) (rev (hooks c)))
  | ACancel e =>
    match parent y with
    | None => Some (mkSys c (Some e) (run y) (gos y) (seen y) (reports y) (errs y) (callers y) (order y))
    | Some _ => None
    end
  | ATop =>
    match run y with
    | RTop [] => Some (finish [] y)
    | RTop (r :: rest) =>
      match parent y with
      | Some e => Some (finish [SAborted (name r) e] y)
      | None => Some (mkSys c (parent y) (RWait r rest) (gos y ++ [(r, None)]) (seen y) (reports y) (errs y) (callers y) (order y))
      end
    | _ => None
    end
  | AHook g e =>
    match gos y !! g with
    | Some (r, None) =>
      Some (mkSys c (parent y) (run y) (<[g := (r, Some e)]> (gos y)) (seen y) (reports y) (errs y) (callers y) (order y))
    | _ => None
    end
  | AReceive =>
    match run y, last (gos y) with
    | RWait r rest, Some (_, Some e) => Some (conclude r rest (as_end e) y)
    | _, _ => None
    end
  | ATimeout e =>
    match run y with
    | RWait r rest => if hook_ctx_over e y then Some (conclude r rest (Outlived e) y) else None
    | _ => None
    end
  | AReturn i =>
    let returns es := Some (mkSys c (parent y) (run y) (gos y) (seen y) (reports y) (errs y) (<[i := CReturned es]> (callers y)) (order y)) in
    match callers y !! i with
    | Some CRuns => match run y with ROver => returns (errs y) | _ => None end
    | Some CWaits => if done_closed c then returns [] else None
    | _ => None
    end
  end.

Fixpoint acts (l : list action) (y : sys) : option sys :=
  match l with
  | [] => Some y
  | a :: l => y ← act a y; acts l y
  end.

Definition start (timeout : Duration) : sys := mkSys (New timeout) None RIdle [] [] [] [] [] [].

(** ** What holds of every interleaving *)

Definition failures (timeout : Duration) (s : list (@registered Hook * @hook_end error)) : list (string * hook_error) :=
  s ≫= fun rh => map (pair (name rh.1)) (option_list (runHook (fun _ => rh.2) rh.1 timeout)).

(** What the run has left to do, and the error it ends with if it is cut short. *)
Definition left_over (y : sys) (rest : list (@registered Hook)) (cut : list (@shut_error error)) : Prop :=
  match run y with
  | RIdle => rest = [] /\ cut = []
  | RTop l => rest = l /\ cut = []
  | RWait r l => rest = r :: l /\ cut = []
  | ROver => rest = [] /\ cut = [] \/ exists r l e, rest = r :: l /\ cut = [SAborted (name r) e] /\ parent y = Some e
  end.

(** The hook at [i] ended as the run says, or was left behind. *)
Definition accounted (gs : list (@registered Hook * option go_end)) (i : nat) (rh : @registered Hook * @hook_end error) : Prop :=
  match rh.2 with
  | Outlived _ => exists o, gs !! i = Some (rh.1, o)
  | h => exists g, gs !! i = Some (rh.1, Some g) /\ as_end g = h
  end.

Record runs_inv (y : sys) : Prop := {
  v_order : exists rest cut, left_over y rest cut /\ order y = (seen y).*1 ++ rest /\
              errs y = map (fun ne => SHook ne.1 ne.2) (failures (hookTimeout (coord y)) (seen y)) ++ cut;
  v_reports : reports y = failures (hookTimeout (coord y)) (seen y);
  v_gos : (gos y).*1 = (seen y).*1 ++ match run y with RWait r _ => [r] | _ => [] end;
  v_seen : forall i rh, seen y !! i = Some rh -> accounted (gos y) i rh;
  v_started : started (coord y) = match run y with RIdle => false | _ => true end;
  v_done : done_closed (coord y) = match run y with ROver => true | _ => false end;
  v_idle : run y = RIdle -> seen y = [] /\ order y = [];
  v_waits : forall i c, callers y !! i = Some c -> started (coord y) = true;
  v_returned : forall i es, callers y !! i = Some (CReturned es) -> run y = ROver /\ (es = [] \/ es = errs y) }.

Lemma failures_snoc t s rh : failures t (s ++ [rh]) =
  failures t s ++ map (pair (name rh.1)) (option_list (runHook (fun _ => rh.2) rh.1 t)).
Proof. unfold failures. rewrite bind_app. simpl. by rewrite app_nil_r. Qed.

(** Only the hooks registered change. *)
Lemma runs_coord y c : runs_inv y -> hookTimeout c = hookTimeout (coord y) -> started c = started (coord y) ->
  done_closed c = done_closed (coord y) -> runs_inv (with_coord c y).
Proof.
  intros [] Ht Hs Hd. split; simpl; rewrite ?Ht, ?Hs, ?Hd; done.
Qed.

Lemma accounted_more gs gs' i rh : (forall j r g, gs !! j = Some (r, Some g) -> gs' !! j = Some (r, Some g)) ->
  (forall j r o, gs !! j = Some (r, o) -> exists o', gs' !! j = Some (r, o')) -> accounted gs i rh -> accounted gs' i rh.
Proof. intros H1 H2. unfold accounted. destruct rh as [r [| |]]; simpl; naive_solver. Qed.

Lemma runs_conclude y r rest h : runs_inv y -> run y = RWait r rest ->
  accounted (gos y) (length (seen y)) (r, h) -> runs_inv (conclude r rest h y).
Proof.
  intros [] Hrun Hacc. rewrite Hrun in *. destruct v_order0 as (rest0 & cut & Hleft & Hord & Herr).
  unfold left_over in Hleft. rewrite Hrun in Hleft. destruct Hleft as [-> ->]. rewrite app_nil_r in Herr.
  split; simpl.
  - exists rest, []. split; [done|]. rewrite fmap_app, <- app_assoc, failures_snoc, map_app, app_nil_r, Herr. split; [done|].
    f_equal. simpl. by rewrite map_map.
  - by rewrite failures_snoc, v_reports0.
  - by rewrite v_gos0, fmap_app, app_nil_r.
  - intros i rh [[_ Hi]|[-> <-]]%lookup_snoc_Some; [by apply v_seen0|done].
  - done.
  - done.
  - done.
  - done.
  - intros i es Hi. by destruct (v_returned0 _ _ Hi).
Qed.

Lemma runs_finish y es : runs_inv y ->
  (exists rest, run y = RTop rest /\
     (rest = [] /\ es = [] \/ exists r l e, rest = r :: l /\ es = [SAborted (name r) e] /\ parent y = Some e)) ->
  runs_inv (finish es y).
Proof.
  intros [] (rest & Hrun & Hes). rewrite Hrun in *. destruct v_order0 as (rest0 & cut & Hleft & Hord & Herr).
  unfold left_over in Hleft. rewrite Hrun in Hleft. destruct Hleft as [-> ->]. rewrite app_nil_r in Herr.
  split; simpl; try done.
  - exists rest, es. rewrite Herr. split_and!; [|done..]. unfold left_over. simpl. done.
  - intros i es' Hi. by destruct (v_returned0 _ _ Hi).
Qed.

(** The loop starts the goroutine of the next hook. *)
Lemma runs_launch y r rest : runs_inv y -> run y = RTop (r :: rest) ->
  runs_inv (mkSys (coord y) (parent y) (RWait r rest) (gos y ++ [(r, None)]) (seen y) (reports y) (errs y) (callers y) (order y)).
Proof.
  intros [] Hrun. rewrite Hrun in *. destruct v_order0 as (rest0 & cut & Hleft & Hord & Herr).
  unfold left_over in Hleft. rewrite Hrun in Hleft. destruct Hleft as [-> ->].
  split; simpl; try done.
  - exists (r :: rest), []. done.
  - by rewrite fmap_app, v_gos0, app_nil_r.
  - intros i rh Hi. apply (accounted_more (gos y)), v_seen0; [intros j r' g Hj|intros j r' o Hj; exists o|done];
      by apply lookup_app_l_Some.
  - intros i es' Hi. by destruct (v_returned0 _ _ Hi).
Qed.

(** The function of a hook ends. *)
Lemma runs_hook y g r e : runs_inv y -> gos y !! g = Some (r, None) ->
  runs_inv (mkSys (coord y) (parent y) (run y) (<[g := (r, Some e)]> (gos y)) (seen y) (reports y) (errs y) (callers y) (order y)).
Proof.
  intros [] Hg. split; simpl; try done.
  - rewrite <- v_gos0, list_fmap_insert. simpl. apply list_insert_id. by rewrite list_lookup_fmap, Hg.
  - intros i rh Hi. apply (accounted_more (gos y)), v_seen0; [| |done].
    + intros j r' g' Hj. rewrite list_lookup_insert_ne; [done|]. intros ->. congruence.
    + intros j r' o Hj. destruct (decide (g = j)) as [->|]; [|rewrite list_lookup_insert_ne; eauto].
      rewrite list_lookup_insert_eq; [|by eapply lookup_lt_Some]. replace r' with r by congruence. eauto.
Qed.

(** The goroutine of the hook under way is the last. *)
Lemma runs_current y r rest : runs_inv y -> run y = RWait r rest ->
  length (gos y) = S (length (seen y)) /\ exists o, last (gos y) = Some (r, o) /\ gos y !! length (seen y) = Some (r, o).
Proof.
  intros [] Hrun. rewrite Hrun in v_gos0.
  assert (length (gos y) = S (length (seen y))) as Hlen.
  { pose proof (f_equal length v_gos0) as H. rewrite length_app, !length_fmap in H. simpl in H. lia. }
  split; [done|]. rewrite last_lookup, Hlen. simpl.
  assert ((gos y).*1 !! length (seen y) = Some r) as H by (rewrite v_gos0; apply list_lookup_middle; by rewrite length_fmap).
  rewrite list_lookup_fmap in H. destruct (gos y !! length (seen y)) as [[r' o]|]; [|done].
  injection H as ->. eauto.
Qed.

Lemma runs_callers y cs : runs_inv y ->
  (forall i c, cs !! i = Some c -> started (coord y) = true) ->
  (forall i es, cs !! i = Some (CReturned es) -> run y = ROver /\ (es = [] \/ es = errs y)) ->
  runs_inv (mkSys (coord y) (parent y) (run y) (gos y) (seen y) (reports y) (errs y) cs (order y)).
Proof. intros [] H1 H2. by split. Qed.

(** The first call takes the hooks. *)
Lemma runs_begin y : runs_inv y -> started (coord y) = false ->
  let c := coord y in
  runs_inv (mkSys (mkCoordinator (hookTimeout c) (hooks c) true (done_closed c)) (parent y) (RTop (rev (hooks c)))
    (gos y) (seen y) (reports y) (errs y) (callers y ++ [CRuns]) (rev (hooks c))).
Proof.
  intros [] Hst. destruct (run y) eqn:Hrun; try congruence. destruct (v_idle0 eq_refl) as [Hs Ho].
  destruct v_order0 as (rest & cut & Hleft & Hord & Herr). unfold left_over in Hleft. rewrite Hrun in Hleft.
  destruct Hleft as [-> ->]. rewrite Hs in *. split; simpl; rewrite ?Hs; try done.
  - eexists _, []. split; [done|]. split; [done|]. by rewrite Herr.
  - intros i es [[_ Hi]|[_ ?]]%lookup_snoc_Some; [|done]. by destruct (v_returned0 _ _ Hi).
Qed.

(** A call returns once the run is over. *)
Lemma runs_return y i c es : runs_inv y -> callers y !! i = Some c -> run y = ROver -> es = [] \/ es = errs y ->
  runs_inv (mkSys (coord y) (parent y) (run y) (gos y) (seen y) (reports y) (errs y) (<[i := CReturned es]> (callers y)) (order y)).
Proof.
  intros Hy Hi Hrun Hes. apply runs_callers; [done| |].
  - intros. by rewrite (v_started _ Hy), Hrun.
  - intros j es' Hj. split; [done|].
    destruct (decide (i = j)) as [->|]; [|rewrite list_lookup_insert_ne in Hj by done; by eapply (v_returned _ Hy)].
    rewrite list_lookup_insert_eq in Hj by (by eapply lookup_lt_Some). by simplify_eq.
Qed.

Lemma runs_act a y y' : act a y = Some y' -> runs_inv y -> runs_inv y'.
Proof.
  intros Ha Hy. pose proof Hy as []. destruct a as [n h|token| |e| |g e| |e|i]; simpl in Ha.
  - simplify_eq. by apply runs_coord.
  - simplify_eq. destruct token as [idx n]. unfold deregister.
    destruct (hooks (coord y) !! idx); [|by apply runs_coord]. destruct (_ || _); by apply runs_coord.
  - destruct (started (coord y)) eqn:Hst; simplify_eq.
    + apply runs_callers; [done| |].
      * intros. done.
      * intros i es [[_ Hi]|[_ ?]]%lookup_snoc_Some; [by eapply v_returned0|done].
    + by apply runs_begin.
  - destruct (parent y) eqn:Hp; simplify_eq. split; simpl; try done.
    destruct v_order0 as (rest & cut & Hleft & ?). exists rest, cut. split; [|done].
    unfold left_over in *. simpl. destruct (run y); try done. rewrite Hp in Hleft. naive_solver.
  - destruct (run y) as [|[|r rest]| |] eqn:Hrun; try done.
    + simplify_eq. apply runs_finish; [done|]. exists []. split; [done|by left].
    + destruct (parent y) eqn:Hp; simplify_eq.
      * apply runs_finish; [done|]. eexists. split; [done|]. right. by eexists _, _, _.
      * rewrite <- Hp. by apply runs_launch.
  - destruct (gos y !! g) as [[r [|]]|] eqn:Hg; simplify_eq. by apply runs_hook.
  - destruct (run y) as [| |r rest|] eqn:Hrun; try done.
    destruct (runs_current y r rest Hy Hrun) as (_ & o & Hl & Hc). rewrite Hl in Ha.
    destruct o as [e|]; simplify_eq. apply runs_conclude; [done|done|].
    unfold accounted. destruct e; simpl; eauto.
  - destruct (run y) as [| |r rest|] eqn:Hrun; try done. destruct (hook_ctx_over e y); simplify_eq.
    destruct (runs_current y r rest Hy Hrun) as (_ & o & _ & Hc).
    apply runs_conclude; [done|done|]. unfold accounted. simpl. eauto.
  - destruct (callers y !! i) as [[| |]|] eqn:Hi; try done.
    + destruct (run y) eqn:Hrun; simplify_eq. rewrite <- Hrun. eapply runs_return; eauto.
    + destruct (done_closed (coord y)) eqn:Hd; simplify_eq. eapply runs_return; [done|done| |by left].
      by destruct (run y).
Qed.

Lemma acts_app l l' y : acts (l ++ l') y = (acts l y ≫= acts l').
Proof. revert y. induction l as [|a l IH]; intros y; simpl; [done|]. destruct (act a y); simpl; [apply IH|done]. Qed.

Lemma runs_acts l y y' : acts l y = Some y' -> runs_inv y -> runs_inv y'.
Proof.
  revert y. induction l as [|a l IH]; intros y Hl Hy; simpl in Hl; [by simplify_eq|].
  destruct (act a y) as [y1|] eqn:Ha; [|done]. eapply IH, runs_act; eauto.
Qed.

Lemma runs_start timeout : runs_inv (start timeout).
Proof. split; simpl; try done. by exists [], []. Qed.

(** ** Where the order comes from, and how many rounds there are *)

Lemma deregister_others token (c : @Coordinator Hook) :
  hookTimeout (deregister token c) = hookTimeout c /\ started (deregister token c) = started c.
Proof. destruct token as [idx n]. unfold deregister. destruct (hooks c !! idx); [|done]. by destruct (_ || _). Qed.

Definition runner_step (a : action) : nat := match a with ATop | AReceive | ATimeout _ => 1 | _ => 0 end.
Definition runner_steps (l : list action) : nat := sum_list_with runner_step l.

Definition work (y : sys) : nat :=
  match run y with RIdle | ROver => 0 | RTop l => 2 * length l + 1 | RWait _ l => 2 * length l + 2 end.

(** A step is the first [Shutdown], or one of the runner, which leaves it less
    to do, or leaves the runner where it is. *)
Lemma act_run a y y' : act a y = Some y' ->
  hookTimeout (coord y') = hookTimeout (coord y) /\
  ((a = AShutdown /\ started (coord y) = false /\ order y' = rev (hooks (coord y)) /\ run y' = RTop (rev (hooks (coord y)))) \/
   (order y' = order y /\ (runner_step a + work y' <= work y)%nat /\ (run y' = RIdle <-> run y = RIdle))).
Proof.
  unfold work. destruct a as [n h|token| |e| |g e| |e|i]; simpl; intros Ha.
  - simplify_eq. naive_solver.
  - pose proof (deregister_others token (coord y)) as [Hd _]. simplify_eq. simpl. rewrite Hd. naive_solver.
  - destruct (started (coord y)); simplify_eq; simpl; [naive_solver|]. by split; [|left].
  - destruct (parent y); simplify_eq. naive_solver.
  - destruct (run y) as [|[|r rest]| |]; simplify_eq.
    + split; [done|right]. simpl. split_and!; [done|lia|done].
    + destruct (parent y); simplify_eq; (split; [done|right]); simpl; (split_and!; [done|lia|done]).
  - destruct (gos y !! g) as [[r [|]]|]; simplify_eq. naive_solver.
  - destruct (run y); try done. destruct (last (gos y)) as [[? [?|]]|]; simplify_eq.
    split; [done|right]. simpl. split_and!; [done|lia|done].
  - destruct (run y); try done. destruct (hook_ctx_over e y); simplify_eq.
    split; [done|right]. simpl. split_and!; [done|lia|done].
  - destruct (callers y !! i) as [[| |]|]; try done; [destruct (run y)|destruct (done_closed (coord y))]; naive_solver.
Qed.

Definition first_shutdown (timeout : Duration) (l : list action) (y0 : sys) : Prop :=
  exists before after, l = before ++ AShutdown :: after /\ acts before (start timeout) = Some y0 /\ started (coord y0) = false.

Lemma runs_history timeout l y : acts l (start timeout) = Some y ->
  hookTimeout (coord y) = timeout /\ (runner_steps l + work y <= 2 * length (order y) + 1)%nat /\
  (run y = RIdle -> runner_steps l = 0%nat) /\
  (run y <> RIdle -> exists y0, first_shutdown timeout l y0 /\ order y = rev (hooks (coord y0))).
Proof.
  revert y. induction l as [|a l IH] using rev_ind; intros y Hl; [injection Hl as <-; cbn; split_and!; [done|lia|done..]|].
  rewrite acts_app in Hl. destruct (acts l (start timeout)) as [y1|] eqn:H1; [|done]. simpl in Hl.
  destruct (act a y1) as [y2|] eqn:Ha; simplify_eq/=.
  destruct (IH _ eq_refl) as (Ht & Hw & Hzero & Hrun). pose proof (runs_acts _ _ _ H1 (runs_start _)) as Hy1.
  assert (runner_steps (l ++ [a]) = runner_steps l + runner_step a)%nat as Hsteps.
  { unfold runner_steps. rewrite sum_list_with_app. simpl. lia. }
  rewrite Hsteps. destruct (act_run a y1 y Ha) as [-> Hstep]. split; [done|].
  destruct Hstep as [(-> & Hst & Ho & Hr)|(Ho & Hle & Hidle)].
  - pose proof Hst as Hidle. rewrite (v_started _ Hy1) in Hidle.
    unfold work. rewrite Hr, Ho, Hzero by (by destruct (run y1)). simpl. split_and!; [lia|done|].
    intros _. exists y1. split; [|done]. by exists l, [].
  - rewrite Ho. split_and!; [lia| |].
    + intros Hr. rewrite (Hzero (proj1 Hidle Hr)). unfold work in Hle. rewrite (proj1 Hidle Hr) in Hle. lia.
    + intros Hr. destruct Hrun as (y0 & (before & after & -> & Hb & Hst) & Ho'); [tauto|].
      exists y0. split; [|done]. exists before, (after ++ [a]). by rewrite <- app_assoc.
Qed.

(** The hooks started are those of the snapshot, up to where the run is. *)
Lemma runs_order y : runs_inv y -> run y <> RIdle ->
  exists rest cut, order y = (gos y).*1 ++ rest /\
    errs y = map (fun ne => SHook ne.1 ne.2) (reports y) ++ cut /\
    (cut = [] \/ exists r e rest', rest = r :: rest' /\ parent y = Some e /\ cut = [SAborted (name r) e]) /\
    (run y = ROver -> cut = [] -> rest = []).
Proof.
  intros Hy Hrun. destruct (v_order _ Hy) as (rest & cut & Hleft & Hord & Herr).
  rewrite (v_gos _ Hy), (v_reports _ Hy), Herr, Hord. unfold left_over in Hleft. destruct (run y) as [|rest'|r rest'|]; try done.
  - destruct Hleft as [-> ->]. exists rest', []. rewrite !app_nil_r. naive_solver.
  - destruct Hleft as [-> ->]. exists rest', []. rewrite <- app_assoc. naive_solver.
  - exists rest, cut. rewrite app_nil_r. naive_solver.
Qed.

(** A goroutine still in its hook when the run has moved on. *)
Lemma runs_left_behind y i r : runs_inv y -> gos y !! i = Some (r, None) ->
  (S i < length (gos y))%nat \/ run y = ROver -> exists e, seen y !! i = Some (r, Outlived e).
Proof.
  intros Hy Hi Hmoved. assert (i < length (seen y))%nat as Hlt.
  { pose proof (f_equal length (v_gos _ Hy)) as Hlen. rewrite length_app, !length_fmap in Hlen.
    apply lookup_lt_Some in Hi. destruct Hmoved as [H|H]; [|rewrite H in Hlen; simpl in Hlen; lia]. destruct (run y); simpl in Hlen; lia. }
  apply lookup_lt_is_Some in Hlt as [[r' h] Hs]. pose proof (v_seen _ Hy _ _ Hs) as Hacc.
  unfold accounted in Hacc. destruct h as [| |e]; simpl in Hacc; [naive_solver..|].
  exists e. destruct Hacc as [o Ho]. congruence.
Qed.

Lemma runs_move_on y : runs_inv y ->
  match run y with
  | RIdle => gos y = []
  | RTop _ => is_Some (act ATop y)
  | RWait r _ =>
    (exists o, last (gos y) = Some (r, o) /\ (is_Some o -> is_Some (act AReceive y))) /\
    (forall e, parent y = Some e -> is_Some (act (ATimeout e) y)) /\
    (0 < hookTimeout (coord y) -> is_Some (act (ATimeout DeadlineExceeded) y))
  | ROver => forall i, callers y !! i = Some CRuns \/ callers y !! i = Some CWaits -> is_Some (act (AReturn i) y)
  end.
Proof.
  intros Hy. destruct (run y) as [|[|r rest]|r rest|] eqn:Hrun; simpl; rewrite ?Hrun.
  - pose proof (v_gos _ Hy) as H. rewrite (proj1 (v_idle _ Hy Hrun)), Hrun in H. by apply fmap_nil_inv in H.
  - eauto.
  - destruct (parent y); eauto.
  - destruct (runs_current y r rest Hy Hrun) as (_ & o & Hl & _). split_and!.
    + exists o. split; [done|]. intros [e ->]. rewrite Hl. eauto.
    + intros e He. unfold hook_ctx_over. rewrite bool_decide_true by done. simpl. eauto.
    + intros Ht. unfold hook_ctx_over. rewrite (bool_decide_true (DeadlineExceeded = _)) by done.
      apply Z.ltb_lt in Ht. rewrite Ht, orb_true_r. eauto.
  - pose proof (v_done _ Hy) as Hd. rewrite Hrun in Hd. rewrite Hd. intros i [-> | ->]; eauto.
Qed.

End runs.

(** The first hook times out, the second fails; the other call waits, and a
    hook registered meanwhile is not run. *)
Definition two_calls : list (@action string nat) :=
  [ARegister "a" 1%nat; ARegister "b" 2%nat; AShutdown; ATop; AShutdown; ARegister "late" 3%nat;
   ATimeout DeadlineExceeded; ATop; AHook 1 (GReturned (Some "boom"%string)); AReceive; ATop; AReturn 0; AReturn 1].

Definition after_two_calls : sys := default (start 5) (acts two_calls (start 5)).

Lemma two_calls_run : acts two_calls (start 5) = Some after_two_calls.
Proof. vm_compute. reflexivity. Qed.


(** The channel of [Done] closes while a hook that was left behind still runs. *)
Lemma done_before_hook : acts two_calls (start 5) = Some after_two_calls /\
  done_closed (coord after_two_calls) = true /\ gos after_two_calls !! 0%nat = Some (mkRegistered "b" 2%nat, None).
Proof. split; [exact two_calls_run|]. by vm_compute. Qed.

(** The call that waited returns nothing, where the first returns two errors. *)
Lemma second_call_nil : acts two_calls (start 5) = Some after_two_calls /\ exists es,
  callers after_two_calls = [CReturned es; CReturned []] /\ length es = 2%nat.
Proof. split; [exact two_calls_run|]. vm_compute. by eexists. Qed.
