(* ===== verification/Kv.v ===== *)
(** [internal/kv]: the sharded in-memory store with expiry.

    A store is a list of shards, one map each; a key lives in the shard its
    FNV-1a hash selects. The methods are functions of the store and the
    clock; [Get] and [Sweep] take their locks more than once, and the pieces
    are separate definitions that [act] interleaves with other callers. *)
From S2P Require Import Prelude GoNum GoStrings.
Open Scope Z_scope.

(** ** The hash *)

Definition fnv_offset : Z := 2166136261.
Definition fnv_prime : Z := 16777619.

(** [fnv.New32a], over the bytes of the key. *)
Fixpoint fnv32a (h : Z) (s : string) : Z :=
  match s with
  | EmptyString => h
  | String c s => fnv32a ((Z.lxor h (byteZ c) * fnv_prime) mod 2 ^ 32) s
  end.

(** [nextPow2]: [fuel] rounds of the loop; [None] is a loop that goes on. *)
Fixpoint nextPow2_from (fuel : nat) (p n : Z) : option Z :=
  if p <? n then
    match fuel with O => None | S fuel => nextPow2_from fuel (wrap64 (Z.shiftl p 1)) n end
  else Some p.

Definition nextPow2 (fuel : nat) (n : Z) : option Z := nextPow2_from fuel 1 n.

Section kv.
Context {V error : Type}.

(** [expiresAt]: the zero time is "no expiration". *)
Record entry := mkEntry { value : V; expiresAt : Time }.

Record Memory := mkMemory { shards : list (gmap string entry); mask : Z }.

(** The shards [NewMemory] makes; [start] below adds the janitor. *)
Definition NewMemory (fuel : nat) (Shards : Z) : option Memory :=
  n ← nextPow2 fuel (if Shards <=? 0 then 16 else Shards);
  Some (mkMemory (replicate (Z.to_nat n) ∅) ((n - 1) mod 2 ^ 32)).

Definition shardFor (m : Memory) (key : string) : nat :=
  Z.to_nat (Z.land (fnv32a fnv_offset key) (mask m)).

(** Out of range would be a panic; [shardFor] never is ([shardFor_lt]). *)
Definition on_shard (f : gmap string entry -> gmap string entry) (i : nat) (m : Memory) : Memory :=
  mkMemory (alter f i (shards m)) (mask m).

Definition find (m : Memory) (key : string) : option entry := s ← shards m !! shardFor m key; s !! key.

Definition expired (now : Time) (e : entry) : bool :=
  negb (IsZero (expiresAt e)) && negb (Before now (expiresAt e)).

(** [Get]: the read, and the re-check and delete of an expired entry. *)
Definition get_read (now : Time) (m : Memory) (key : string) : option V :=
  match find m key with
  | Some e => if expired now e then None else Some (value e)
  | None => None
  end.

Definition get_drop (m : Memory) (key : string) (seen : Time) : Memory :=
  match find m key with
  | Some cur => if expiresAt cur =? seen then on_shard (delete key) (shardFor m key) m else m
  | None => m
  end.

Definition Get (now : Time) (m : Memory) (key : string) : Memory * option V :=
  (match find m key with
   | Some e => if expired now e then get_drop m key (expiresAt e) else m
   | None => m
   end, get_read now m key).

Definition Set_ (m : Memory) (key : string) (v : V) : Memory :=
  on_shard (insert key (mkEntry v zeroTime)) (shardFor m key) m.

Definition SetWithTTL (now : Time) (m : Memory) (key : string) (v : V) (ttl : Duration) : Memory :=
  if ttl <=? 0 then Set_ m key v
  else on_shard (insert key (mkEntry v (Add now ttl))) (shardFor m key) m.

Definition Delete (m : Memory) (key : string) : Memory := on_shard (delete key) (shardFor m key) m.

Definition Len (m : Memory) : nat := sum_list (map size (shards m)).

(** One shard of [Sweep], which read the clock before the first one. *)
Definition sweep_shard (now : Time) (s : gmap string entry) : gmap string entry :=
  filter (fun kv => expired now kv.2 = false) s.

Definition Sweep (now : Time) (m : Memory) : Memory :=
  mkMemory (map (sweep_shard now) (shards m)) (mask m).

(** [GetOrSet], with the result of [compute] and the clock at each use. *)
Definition GetOrSet (now1 : Time) (key : string) (ttl : Duration) (compute : result error V) (now2 : Time)
  (m : Memory) : Memory * result error V :=
  match Get now1 m key with
  | (m, Some v) => (m, Ok v)
  | (m, None) =>
    match compute with
    | Err e => (m, Err e)
    | Ok v => (if 0 <? ttl then SetWithTTL now2 m key v ttl else Set_ m key v, Ok v)
    end
  end.

(** ** Any number of callers, and the janitor

    Each action comes with the time at which it happens. A [Get] copies the entry
    under the lock of its shard and lets the lock go; it reads the clock after that,
    and an expired entry is dropped under the lock taken again. *)
Inductive getter :=
| GSeen (key : string) (o : option entry)
| GDrop (key : string) (seen : Time)
| GDone.

(** [runJanitor]: never started, in its [select], sweeping shard [i] with the time
    read first, returned. *)
Inductive janitor := JNone | JSelect | JSweep (read : Time) (i : nat) | JExit.

Inductive action :=
| AGet (key : string) | AClock (i : nat) | ADrop (i : nat)
| ASet (key : string) (v : V) | ASetTTL (key : string) (v : V) (ttl : Duration)
| ADelete (key : string)
| ASweep (i : nat) (read : Time)      (* one shard of a [Sweep], with the time read before *)
| ATick | AShard | AStop              (* the janitor *)
| AClose | AClosed (i : nat).         (* callers of [Close] *)

Record sys := mkSys {
  mem : Memory; gets : list getter;
  jan : janitor; stop : bool;         (* the channel [stop] is closed *)
  closers : list bool }.              (* calls of [Close], and whether they returned *)

(** The expiry test of [Get] on the entry it has copied. *)
Definition judge (now : Time) (o : option entry) : option V :=
  match o with Some e => if expired now e then None else Some (value e) | None => None end.

Definition with_mem (m : Memory) (y : sys) : sys := mkSys m (gets y) (jan y) (stop y) (closers y).
Definition with_gets (l : list getter) (y : sys) : sys := mkSys (mem y) l (jan y) (stop y) (closers y).
Definition with_jan (j : janitor) (y : sys) : sys := mkSys (mem y) (gets y) j (stop y) (closers y).

(** [m.stopped] is closed. *)
Definition janitor_over (j : janitor) : bool := match j with JNone | JExit => true | _ => false end.

Definition act (now : Time) (a : action) (y : sys) : sys * list (option V) :=
  let m := mem y in
  match a with
  | AGet k => (with_gets (gets y ++ [GSeen k (find m k)]) y, [])
  | AClock i =>
    match gets y !! i with
    | Some (GSeen k o) =>
      (with_gets (<[i := match o with
                         | Some e => if expired now e then GDrop k (expiresAt e) else GDone
                         | None => GDone
                         end]> (gets y)) y, [judge now o])
    | _ => (y, [])
    end
  | ADrop i =>
    match gets y !! i with
    | Some (GDrop k seen) => (with_gets (<[i := GDone]> (gets y)) (with_mem (get_drop m k seen) y), [])
    | _ => (y, [])
    end
  | ASet k v => (with_mem (Set_ m k v) y, [])
  | ASetTTL k v ttl => (with_mem (SetWithTTL now m k v ttl) y, [])
  | ADelete k => (with_mem (Delete m k) y, [])
  | ASweep i read => (with_mem (on_shard (sweep_shard read) i m) y, [])
  | ATick => (match jan y with JSelect => with_jan (JSweep now 0) y | _ => y end, [])
  | AShard =>
    (match jan y with
     | JSweep read i =>
       if (i <? length (shards m))%nat
       then with_jan (JSweep read (S i)) (with_mem (on_shard (sweep_shard read) i m) y)
       else with_jan JSelect y
     | _ => y
     end, [])
  | AStop => (match jan y, stop y with JSelect, true => with_jan JExit y | _, _ => y end, [])
  | AClose => (mkSys m (gets y) (jan y) true (closers y ++ [false]), [])
  | AClosed i =>
    (if janitor_over (jan y) then mkSys m (gets y) (jan y) (stop y) (alter (fun _ => true) i (closers y)) else y, [])
  end.

Fixpoint acts (l : list (Time * action)) (y : sys) : sys * list (option V) :=
  match l with
  | [] => (y, [])
  | (now, a) :: l => let '(y, o) := act now a y in let '(y, os) := acts l y in (y, o ++ os)
  end.

(** A store, its janitor started if [JanitorInterval] is positive. *)
Definition start (JanitorInterval : Duration) (m : Memory) : sys :=
  mkSys m [] (if 0 <? JanitorInterval then JSelect else JNone) false [].

(** ** The specification: one map, and nothing is ever dropped

    A [Get] looks its key up at one moment and tests the expiry at a later one. *)

Abbreviation ttl_map := (gmap string (V * option Time)).

Definition live (now : Time) (e : V * option Time) : option V :=
  match e.2 with Some t => if now <? t then Some e.1 else None | None => Some e.1 end.

Inductive snapshot := Pending (o : option (V * option Time)) | Answered.

Definition spec_act (now : Time) (a : action) (s : ttl_map * list snapshot) : ttl_map * list snapshot * list (option V) :=
  let '(s, ls) := s in
  match a with
  | AGet k => (s, ls ++ [Pending (s !! k)], [])
  | AClock i =>
    match ls !! i with
    | Some (Pending o) => (s, <[i := Answered]> ls, [o ≫= live now])
    | _ => (s, ls, [])
    end
  | ASet k v => (<[k := (v, None)]> s, ls, [])
  | ASetTTL k v ttl => (<[k := (v, if ttl <=? 0 then None else Some (now + ttl))]> s, ls, [])
  | ADelete k => (delete k s, ls, [])
  | _ => (s, ls, [])
  end.

Fixpoint spec_acts (l : list (Time * action)) (s : ttl_map * list snapshot) : list (option V) :=
  match l with
  | [] => []
  | (now, a) :: l => let '(s, o) := spec_act now a s in o ++ spec_acts l s
  end.

(** ** Lookup under the operations *)

Record wf (m : Memory) : Prop := {
  wf_mask : exists j, length (shards m) = Z.to_nat (2 ^ j) /\ mask m = Z.ones j /\ 0 <= j;
  wf_home : forall i s k e, shards m !! i = Some s -> s !! k = Some e -> shardFor m k = i }.

Lemma shardFor_lt m key : wf m -> (shardFor m key < length (shards m))%nat.
Proof.
  intros [(j & Hl & Hm & Hj) _]. rewrite Hl. unfold shardFor. rewrite Hm, Z.land_ones by done.
  pose proof (Z.mod_pos_bound (fnv32a fnv_offset key) (2 ^ j)). lia.
Qed.

Lemma shardFor_is m key : wf m -> exists s, shards m !! shardFor m key = Some s.
Proof. intros Hwf. by apply lookup_lt_is_Some, shardFor_lt. Qed.

Lemma shardFor_on f i m k : shardFor (on_shard f i m) k = shardFor m k.
Proof. done. Qed.

Lemma find_on_shard f i m k :
  find (on_shard f i m) k =
    if decide (shardFor m k = i) then s ← shards m !! i; f s !! k else find m k.
Proof.
  unfold find. rewrite shardFor_on. unfold on_shard. simpl. case_decide as Hi.
  - subst i. rewrite list_lookup_alter_eq. by destruct (shards m !! shardFor m k).
  - by rewrite list_lookup_alter_ne by done.
Qed.

Lemma wf_on_shard f i m :
  (forall s k e, f s !! k = Some e -> is_Some (s !! k) \/ shardFor m k = i) -> wf m -> wf (on_shard f i m).
Proof.
  intros Hf [Hm Hh]. split; simpl; [by rewrite length_alter|].
  intros j s k e Hs Hk. change (shardFor m k = j).
  destruct (decide (i = j)) as [->|Hne].
  - rewrite list_lookup_alter_eq in Hs. destruct (shards m !! j) as [s0|] eqn:E; simplify_eq/=.
    destruct (Hf _ _ _ Hk) as [[e' He']|]; [by eapply Hh|done].
  - rewrite list_lookup_alter_ne in Hs by done. by eapply Hh.
Qed.

Lemma find_insert m key e k : wf m ->
  find (on_shard (insert key e) (shardFor m key) m) k = if decide (k = key) then Some e else find m k.
Proof.
  intros Hwf. rewrite find_on_shard. destruct (shardFor_is m key Hwf) as [s Hs].
  destruct (decide (k = key)) as [->|Hne]; case_decide as Hh; try done.
  - rewrite Hs. simpl. by rewrite lookup_insert_eq.
  - unfold find. rewrite Hh, Hs. simpl. by rewrite lookup_insert_ne.
Qed.

Lemma find_delete m key k : wf m ->
  find (on_shard (delete key) (shardFor m key) m) k = if decide (k = key) then None else find m k.
Proof.
  intros Hwf. rewrite find_on_shard. destruct (shardFor_is m key Hwf) as [s Hs].
  destruct (decide (k = key)) as [->|Hne]; case_decide as Hh; try done.
  - rewrite Hs. simpl. by rewrite lookup_delete_eq.
  - unfold find. rewrite Hh, Hs. simpl. by rewrite lookup_delete_ne.
Qed.

Lemma wf_insert m key e : wf m -> wf (on_shard (insert key e) (shardFor m key) m).
Proof.
  intros. apply wf_on_shard; [|done]. intros s k e'.
  destruct (decide (key = k)) as [->|]; [by right|]. rewrite lookup_insert_ne by done. intros. left. by eexists.
Qed.

Lemma wf_delete m key : wf m -> wf (on_shard (delete key) (shardFor m key) m).
Proof.
  intros. apply wf_on_shard; [|done]. intros s k e' [_ ?]%lookup_delete_Some. left. by eexists.
Qed.

Lemma wf_sweep m i now : wf m -> wf (on_shard (sweep_shard now) i m).
Proof.
  intros. apply wf_on_shard; [|done]. intros s k e' [? _]%map_lookup_filter_Some. left. by eexists.
Qed.

(** ** Reading under the operations, at a time [t] *)

Lemma expired_mono now t e : now <= t -> expired now e = true -> expired t e = true.
Proof. unfold expired, IsZero, Before. intros. bool_to_prop. rewrite andb_true_iff, !negb_true_iff. lia. Qed.

Lemma read_insert t m key e k : wf m ->
  get_read t (on_shard (insert key e) (shardFor m key) m) k =
    if decide (k = key) then (if expired t e then None else Some (value e)) else get_read t m k.
Proof. intros. unfold get_read. rewrite find_insert by done. by case_decide. Qed.

Lemma read_delete t m key k : wf m ->
  get_read t (on_shard (delete key) (shardFor m key) m) k =
    if decide (k = key) then None else get_read t m k.
Proof. intros. unfold get_read. rewrite find_delete by done. by case_decide. Qed.

Lemma read_drop t m key seen k : wf m -> seen <> 0 -> seen <= t ->
  get_read t (get_drop m key seen) k = get_read t m k.
Proof.
  intros Hwf Hz Ht. unfold get_drop. destruct (find m key) as [cur|] eqn:Hf; [|done].
  destruct (Z.eqb_spec (expiresAt cur) seen) as [Hs|]; [|done]. rewrite read_delete by done.
  case_decide as Hk; [|done]. subst k. unfold get_read. rewrite Hf.
  assert (expired t cur = true) as ->; [|done].
  unfold expired, IsZero, Before. rewrite andb_true_iff, !negb_true_iff. lia.
Qed.

Lemma read_sweep t m i now k : now <= t ->
  get_read t (on_shard (sweep_shard now) i m) k = get_read t m k.
Proof.
  intros Ht. unfold get_read. rewrite find_on_shard. case_decide as Hi; [|done].
  unfold find. rewrite Hi. destruct (shards m !! i) as [s|]; [|done]. simpl.
  unfold sweep_shard. rewrite map_lookup_filter. destruct (s !! k) as [e|]; [|done]. simpl.
  case_guard as He; simpl in *; [done|]. destruct (expired now e) eqn:Hx; [|done].
  by rewrite (expired_mono now t).
Qed.

Lemma wf_drop m key seen : wf m -> wf (get_drop m key seen).
Proof. intros. unfold get_drop. go_cases; auto using wf_delete. Qed.

(** ** Refinement *)

(** What a [Get] in progress has seen, against the specification. *)
Definition seen_ok (now : Time) (g : getter) (l : snapshot) : Prop :=
  match g, l with
  | GSeen _ o, Pending o' => forall t, now <= t -> judge t o = o' ≫= live t
  | GDrop _ seen, Answered => seen <> 0 /\ seen <= now
  | GDone, Answered => True
  | _, _ => False
  end.

Record refines (now : Time) (y : sys) (s : ttl_map * list snapshot) : Prop := {
  r_wf : wf (mem y);
  r_read : forall k t, now <= t -> get_read t (mem y) k = s.1 !! k ≫= live t;
  r_gets : Forall2 (seen_ok now) (gets y) s.2;
  r_jan : match jan y with JSweep read _ => read <= now | _ => True end }.

(** The clock does not go back, and a sweep read it in the past. *)
Definition timely (now : Time) (e : Time * action) : Prop :=
  now <= e.1 /\ match e.2 with ASweep _ read => read <= e.1 | _ => True end.

Fixpoint timed (now : Time) (l : list (Time * action)) : Prop :=
  match l with [] => True | e :: l => timely now e /\ timed e.1 l end.

Lemma seen_later now now' g l : now <= now' -> seen_ok now g l -> seen_ok now' g l.
Proof. intros Hle. destruct g, l; simpl; try done; [intros Hs t Ht; apply Hs; lia|lia]. Qed.

Lemma refines_later now now' y s : now <= now' -> refines now y s -> refines now' y s.
Proof.
  intros Hle []. split; [done|intros; apply r_read0; lia| |destruct (jan y); lia || done].
  eapply Forall2_impl; [exact r_gets0|]. intros g l. by apply seen_later.
Qed.

(** The store changes, and reads as the new map does. *)
Lemma refines_mem now y s ls m s' :
  refines now y (s, ls) -> wf m -> (forall k t, now <= t -> get_read t m k = s' !! k ≫= live t) ->
  refines now (with_mem m y) (s', ls).
Proof. intros [] Hwf Hread. by split. Qed.

Lemma seen_insert now i g l gs ls : seen_ok now g l -> Forall2 (seen_ok now) gs ls ->
  Forall2 (seen_ok now) (<[i := g]> gs) (<[i := l]> ls).
Proof. intros. by apply Forall2_insert. Qed.

Lemma clock_refines now i y s :
  0 <= now -> refines now y s ->
  refines now (act now (AClock i) y).1 (spec_act now (AClock i) s).1 /\
  (act now (AClock i) y).2 = (spec_act now (AClock i) s).2.
Proof.
  intros H0 Hy. pose proof Hy as []. destruct s as [s ls]. simpl in *.
  destruct (gets y !! i) as [g|] eqn:Hg.
  - destruct (Forall2_lookup_l _ _ _ _ _ r_gets0 Hg) as (l & Hl & Hok). rewrite Hl.
    destruct g as [k o|k seen|], l as [o'|]; try done; simpl in *. split; [|by rewrite (Hok now ltac:(lia))].
    split; simpl; try done. apply seen_insert; [|done]. destruct o as [e|]; [|done].
    destruct (expired now e) eqn:Hx; [|done]. simpl. unfold expired, IsZero, Before in Hx. bool_to_prop. lia.
  - apply Forall2_length in r_gets0. apply lookup_ge_None in Hg.
    rewrite (proj2 (lookup_ge_None ls i)) by lia. done.
Qed.

Lemma drop_refines now i y s :
  0 <= now -> refines now y s -> refines now (act now (ADrop i) y).1 s /\ (act now (ADrop i) y).2 = [].
Proof.
  intros H0 Hy. pose proof Hy as []. simpl. destruct (gets y !! i) as [g|] eqn:Hg; [|done]. destruct g as [k o|k seen|]; [done| |done].
  destruct (Forall2_lookup_l _ _ _ _ _ r_gets0 Hg) as (l & Hl & Hok). destruct l as [o'|]; [done|]. destruct Hok as [Hz Hs].
  split; [|done]. split; simpl; [by apply wf_drop| | |done].
  - intros k' t Ht. rewrite read_drop; [by apply r_read0|done..|lia].
  - rewrite <- (list_insert_id s.2 i Answered Hl). by apply seen_insert.
Qed.

Lemma act_refines now0 now a y s :
  0 <= now0 -> timely now0 (now, a) -> refines now0 y s ->
  refines now (act now a y).1 (spec_act now a s).1 /\ (act now a y).2 = (spec_act now a s).2.
Proof.
  intros H0 [Hle Ha] Hy0. simpl in Hle, Ha. assert (refines now y s) as Hy by (by eapply refines_later).
  pose proof Hy as []. assert (0 <= now) as Hnow by lia.
  destruct a as [k|i|i|k v|k v ttl|k|i read| | | | |i].
  - destruct s as [s ls]. split; [|done]. split; simpl; try done. apply Forall2_app; [done|]. constructor; [|constructor].
    intros t Ht. rewrite <- r_read0 by done. done.
  - by apply clock_refines.
  - destruct s as [s ls]. by apply drop_refines.
  - destruct s as [s ls]. split; [|done]. apply (refines_mem _ _ s); [done|by apply wf_insert|]. intros k' t Ht. unfold Set_.
    rewrite read_insert by done. case_decide; [subst; by rewrite lookup_insert_eq|].
    rewrite lookup_insert_ne by done. by apply r_read0.
  - destruct s as [s ls]. split; [|done]. simpl. apply (refines_mem _ _ s); [done|unfold SetWithTTL; destruct (ttl <=? 0); by apply wf_insert|].
    intros k' t Ht. unfold SetWithTTL. destruct (Z.leb_spec ttl 0);
      unfold Set_; rewrite read_insert by done; case_decide;
      try (rewrite lookup_insert_ne by done; by apply r_read0); subst; rewrite lookup_insert_eq; [done|].
    unfold live, expired, Add, IsZero, Before. simpl. rewrite (proj2 (Z.eqb_neq (now + ttl) 0)) by lia. simpl.
    by destruct (t <? now + ttl).
  - destruct s as [s ls]. split; [|done]. apply (refines_mem _ _ s); [done|by apply wf_delete|]. intros k' t Ht. unfold Delete.
    rewrite read_delete by done. case_decide; [subst; by rewrite lookup_delete_eq|].
    rewrite lookup_delete_ne by done. by apply r_read0.
  - destruct s as [s ls]. split; [|done]. apply (refines_mem _ _ s); [done|by apply wf_sweep|]. intros k' t Ht.
    rewrite read_sweep by lia. by apply r_read0.
  - destruct s as [s ls]. split; [|done]. simpl. destruct (jan y); try done. split; simpl; done || lia.
  - destruct s as [s ls]. split; [|done]. simpl. destruct (jan y) as [| |read i|] eqn:Hj; try done.
    destruct (i <? length (shards (mem y)))%nat; split; simpl; try done; [by apply wf_sweep|].
    intros k' t Ht. rewrite read_sweep by lia. by apply r_read0.
  - destruct s as [s ls]. split; [|done]. simpl. destruct (jan y), (stop y); try done; by split.
  - destruct s as [s ls]. split; [|done]. by split.
  - destruct s as [s ls]. split; [|done]. simpl. by destruct (janitor_over (jan y)); split.
Qed.

Lemma acts_refine l : forall now y s,
  0 <= now -> timed now l -> refines now y s ->
  (acts l y).2 = spec_acts l s /\ wf (mem (acts l y).1).
Proof.
  induction l as [|[now' a] l IH]; intros now y s H0 Ht Hr; simpl; [by destruct Hr|].
  destruct Ht as [Ht Hl]. simpl in Hl. destruct (act_refines now now' a y s H0 Ht Hr) as [Hr' Ho].
  destruct Ht as [Hle _]. simpl in Hle.
  destruct (act now' a y) as [y' o], (spec_act now' a s) as [s' o']. simpl in *. subst o'.
  destruct (IH now' y' s' ltac:(lia) Hl Hr') as [Hout Hwf].
  destruct (acts l y') as [y'' os]. simpl in *. by rewrite Hout.
Qed.

(** ** The janitor and [Close] *)

(** A [Close] that has returned finds the janitor gone, and it stays so; a janitor
    is only ever gone once it was told to stop. *)
Definition close_ok (y : sys) : Prop :=
  (true ∈ closers y -> janitor_over (jan y) = true) /\ (jan y = JExit -> stop y = true) /\
  (closers y <> [] -> stop y = true).

Lemma act_close now a y : close_ok y -> close_ok (act now a y).1.
Proof.
  intros Hy. assert (forall m, close_ok (with_mem m y)) as Hmem by done.
  assert (forall l, close_ok (with_gets l y)) as Hgets by done.
  assert (forall j, janitor_over j = false -> janitor_over (jan y) = false -> close_ok (with_jan j y)) as Hjan.
  { intros j Hj Hy'. destruct Hy as (Hc & _ & Hs). split_and!; simpl; [|by intros ->|done].
    intros Hin. specialize (Hc Hin). congruence. }
  destruct a as [k|i|i|k v|k v ttl|k|i read| | | | |i]; simpl; try done.
  - by destruct (gets y !! i) as [[]|].
  - by destruct (gets y !! i) as [[]|].
  - destruct (jan y) eqn:Hj; try exact Hy. by apply Hjan.
  - destruct (jan y) as [| |read i|] eqn:Hj; try exact Hy. destruct (i <? _)%nat; [|by apply Hjan].
    exact (Hjan (JSweep read (S i)) eq_refl eq_refl).
  - destruct (jan y) eqn:Hj, (stop y) eqn:Hst; try exact Hy. by split_and!.
  - destruct Hy as (Hc & He & Hs). split_and!; simpl; [|done|done].
    intros [Hin|Hin]%elem_of_app; [auto|by apply list_elem_of_singleton in Hin].
  - destruct (janitor_over (jan y)) eqn:Hj; [|exact Hy]. destruct Hy as (Hc & He & Hs). split_and!; simpl; [by intros|done|].
    intros Hne. apply Hs. by intros Heq; rewrite Heq in Hne.
Qed.

Lemma acts_cons now a l y : (acts ((now, a) :: l) y).1 = (acts l (act now a y).1).1.
Proof. simpl. destruct (act now a y) as [y' o]. simpl. by destruct (acts l y'). Qed.

Lemma acts_close l : forall y, close_ok y -> close_ok (acts l y).1.
Proof.
  induction l as [|[now a] l IH]; intros y Hy; simpl; [done|]. pose proof (act_close now a y Hy) as Hy'.
  destruct (act now a y) as [y' o]. specialize (IH y' Hy'). by destruct (acts l y').
Qed.

Lemma janitor_over_acts l : forall y, janitor_over (jan y) = true -> janitor_over (jan (acts l y).1) = true.
Proof.
  induction l as [|[now a] l IH]; intros y Hy; simpl; [done|].
  assert (janitor_over (jan (act now a y).1) = true) as Hy'.
  { destruct a as [k|i|i|k v|k v ttl|k|i read| | | | |i]; simpl; try done.
    - by destruct (gets y !! i) as [[]|].
    - by destruct (gets y !! i) as [[]|].
    - destruct (jan y) eqn:Hj; try done; by rewrite Hj.
    - destruct (jan y) eqn:Hj; try done; by rewrite Hj.
    - destruct (jan y) eqn:Hj, (stop y); try done; by rewrite Hj.
    - by rewrite Hy. }
  destruct (act now a y) as [y' o]. specialize (IH y' Hy'). by destruct (acts l y').
Qed.

(** Once [stop] is closed the janitor can be over after the shards it has left. *)
Lemma janitor_ends now n : forall y, stop y = true ->
  match jan y with JSweep _ i => (length (shards (mem y)) - i <= n)%nat | _ => True end ->
  janitor_over (jan (acts (replicate (S n) (now, AShard) ++ [(now, AStop)]) y).1) = true.
Proof.
  induction n as [|n IH]; intros y Hs Hn; cbn [replicate app]; rewrite acts_cons.
  - rewrite acts_cons. simpl. destruct (jan y) as [| |read i|] eqn:Hj; simpl; rewrite ?Hj, ?Hs; try done.
    rewrite (proj2 (Nat.ltb_ge _ _)) by lia. simpl. by rewrite Hs.
  - apply IH; simpl.
    + destruct (jan y); try done. by destruct (_ <? _)%nat.
    + destruct (jan y) as [| |read i|] eqn:Hj; rewrite ?Hj; try done.
      destruct (Nat.ltb_spec i (length (shards (mem y)))); simpl; [|done]. rewrite length_alter. lia.
Qed.

(** ** [Len]: the shards are disjoint *)

Lemma union_disjoint (l : list (gmap string entry)) :
  (forall i j s1 s2 k, l !! i = Some s1 -> l !! j = Some s2 -> is_Some (s1 !! k) -> is_Some (s2 !! k) -> i = j) ->
  size (foldr union ∅ l : gmap string entry) = sum_list (map size l) /\
  (forall k e, (foldr union ∅ l : gmap string entry) !! k = Some e <->
     exists i s, l !! i = Some s /\ s !! k = Some e).
Proof.
  induction l as [|s l IH]; intros Hd; simpl.
  { split; [by rewrite map_size_empty|]. intros k e. rewrite lookup_empty. naive_solver. }
  destruct IH as [Hsize Hlook].
  { intros i j s1 s2 k Hi Hj H1 H2. specialize (Hd (S i) (S j) s1 s2 k Hi Hj H1 H2). lia. }
  assert (s ##ₘ foldr union ∅ l) as Hdisj.
  { apply map_disjoint_spec. intros k e1 e2 H1 (i & s2 & Hi & H2)%Hlook.
    specialize (Hd O (S i) s s2 k eq_refl Hi ltac:(by eexists) ltac:(by eexists)). lia. }
  split; [by rewrite map_size_disj_union, Hsize|].
  intros k e. rewrite lookup_union_Some by done. rewrite Hlook. split.
  - intros [Hk|(i & s2 & Hi & Hk)]; [by exists O, s|by exists (S i), s2].
  - intros ([|i] & s2 & Hi & Hk); simplify_eq/=; [by left|right; eauto].
Qed.

Lemma Len_spec m : wf m ->
  exists E : gmap string entry, Len m = size E /\ forall k, E !! k = find m k.
Proof.
  intros Hwf. exists (foldr union ∅ (shards m)). destruct (union_disjoint (shards m)) as [Hs Hl].
  { intros i j s1 s2 k Hi Hj [e1 H1] [e2 H2]. destruct Hwf as [_ Hh].
    by rewrite <- (Hh _ _ _ _ Hi H1), <- (Hh _ _ _ _ Hj H2). }
  split; [by rewrite Hs|]. intros k. apply option_eq. intros e. rewrite Hl. unfold find. split.
  - intros (i & s & Hi & Hk). rewrite (wf_home _ Hwf _ _ _ _ Hi Hk), Hi. done.
  - destruct (shards m !! shardFor m k) as [s|] eqn:Hi; [|done]. simpl. eauto.
Qed.
End kv.

(** ** The number of shards *)

Lemma nextPow2_from_spec n fuel : forall i,
  0 <= i -> n <= 2 ^ 62 -> i <= 62 -> (i = 0 \/ 2 ^ (i - 1) < n) -> (Z.to_nat (62 - i) <= fuel)%nat ->
  exists j, nextPow2_from fuel (2 ^ i) n = Some (2 ^ j) /\ 0 <= j <= 62 /\ n <= 2 ^ j /\ (j = 0 \/ 2 ^ (j - 1) < n).
Proof.
  induction fuel as [|fuel IH]; intros i Hi Hn H62 Hlow Hf; simpl; destruct (Z.ltb_spec (2 ^ i) n) as [Hlt|Hge].
  - assert (i = 62) as -> by lia. lia.
  - exists i. by split_and!.
  - assert (i < 62). { destruct (decide (i = 62)) as [->|]; lia. }
    rewrite Z.shiftl_mul_pow2 by lia. replace (2 ^ i * 2 ^ 1) with (2 ^ (i + 1)) by (rewrite Z.pow_add_r; lia).
    rewrite wrap64_id.
    + apply IH; try lia. right. by replace (i + 1 - 1) with i by lia.
    + unfold int64_ok, minInt64, maxInt64.
      pose proof (Z.pow_le_mono_r 2 (i + 1) 62 ltac:(lia) ltac:(lia)). pose proof (Z.pow_nonneg 2 (i + 1)). lia.
  - exists i. by split_and!.
Qed.

Lemma nextPow2_spec n : n <= 2 ^ 62 ->
  exists j, nextPow2 62 n = Some (2 ^ j) /\ 0 <= j <= 62 /\ n <= 2 ^ j /\ (j = 0 \/ 2 ^ (j - 1) < n).
Proof. intros. unfold nextPow2. apply (nextPow2_from_spec n 62 0); lia. Qed.

(** Past 2^62 the shift wraps to the most negative integer and then to 0,
    and the loop does not end. *)
Lemma nextPow2_diverges n : 2 ^ 62 < n -> forall fuel, nextPow2 fuel n = None.
Proof.
  intros Hn fuel. unfold nextPow2.
  assert (forall p, (exists i, 0 <= i <= 62 /\ p = 2 ^ i) \/ p = minInt64 \/ p = 0 ->
    nextPow2_from fuel p n = None) as Hp; [|apply Hp; left; exists 0; lia].
  induction fuel as [|fuel IH]; intros p Hp; simpl.
  all: assert (p < n) as Hlt by
    (destruct Hp as [(i & Hi & ->)|[-> | ->]]; [pose proof (Z.pow_le_mono_r 2 i 62)|unfold minInt64|]; lia).
  all: rewrite (proj2 (Z.ltb_lt p n) Hlt); try done.
  apply IH. destruct Hp as [(i & Hi & ->)|[-> | ->]]; [|right; by right|right; by right].
  destruct (decide (i = 62)) as [->|]; [by right; left|]. left. exists (i + 1). split; [lia|].
  rewrite Z.shiftl_mul_pow2 by lia. replace (2 ^ i * 2 ^ 1) with (2 ^ (i + 1)) by (rewrite Z.pow_add_r; lia).
  apply wrap64_id. unfold int64_ok, minInt64, maxInt64.
  pose proof (Z.pow_le_mono_r 2 (i + 1) 62 ltac:(lia) ltac:(lia)). pose proof (Z.pow_nonneg 2 (i + 1)). lia.
Qed.

Lemma NewMemory_wf {V} n : n <= 2 ^ 32 ->
  exists m, NewMemory (V := V) 62 n = Some m /\ wf m /\ (forall k, find m k = None) /\
    (n <= Z.of_nat (length (shards m))).
Proof.
  intros Hn. unfold NewMemory. set (n' := if n <=? 0 then 16 else n).
  assert (1 <= n' <= 2 ^ 32 /\ n <= n') as [Hn' Hle] by (unfold n'; destruct (Z.leb_spec n 0); lia).
  destruct (nextPow2_spec n' ltac:(lia)) as (j & Hp & Hj & Hnj & Hlow). rewrite Hp. simpl.
  assert (j <= 32).
  { apply Z.nlt_ge. intros Hlt. pose proof (Z.pow_le_mono_r 2 32 (j - 1) ltac:(lia) ltac:(lia)). lia. }
  pose proof (Z.pow_le_mono_r 2 j 32 ltac:(lia) ltac:(lia)). pose proof (Z.pow_pos_nonneg 2 j ltac:(lia) ltac:(lia)).
  eexists. split; [done|]. split_and!.
  - split; simpl.
    + exists j. rewrite length_replicate, Z.ones_equiv, Z.mod_small by lia. split_and!; lia.
    + intros i s k e Hs%lookup_replicate He. destruct Hs as [-> _]. by rewrite lookup_empty in He.
  - intros k. unfold find. simpl. destruct (_ !! _) as [s|] eqn:Hs; [|done]. simpl.
    apply lookup_replicate in Hs as [-> _]. apply lookup_empty.
  - simpl. rewrite length_replicate. lia.
Qed.

(** C38. The store refines one map with expiry times, whatever the number of
    shards, for every interleaving of callers, sweeps and the janitor over a clock
    that does not go back: each [Get] returns what the single map held under the
    key when it was looked up and has not expired when the clock is read — an entry
    stored with a positive TTL is returned strictly before its deadline and never
    after — although expired entries are dropped lazily, by re-checked deletes that
    may come late, and by sweeps; and [Len] counts each stored key once. A [Close]
    that has returned leaves no janitor behind, and a janitor told to stop is over
    within the shards of one sweep when it looks. *)
Theorem kv_refines {V} (n : Z) (m : @Memory V) (interval : Duration) (t0 : Time) (l : list (Time * action))
  (Hn : n <= 2 ^ 32) (Hm : NewMemory 62 n = Some m) (H0 : 0 <= t0) (Ht : timed t0 l) :
  let '(y, out) := acts l (start interval m) in
  out = spec_acts l (∅, []) /\
  (exists E : gmap string entry, Len (mem y) = size E /\ forall k, E !! k = find (mem y) k) /\
  (true ∈ closers y -> janitor_over (jan y) = true /\
     forall l' : list (Time * action), janitor_over (jan (acts l' y).1) = true) /\
  (closers y <> [] -> forall now, exists k,
     janitor_over (jan (acts (replicate k (now, AShard) ++ [(now, AStop)]) y).1) = true).
Proof.
  destruct (NewMemory_wf (V := V) n Hn) as (m' & Hm' & Hwf & Hnone & _). simplify_eq.
  destruct (acts_refine l t0 (start interval m) (∅, []) H0 Ht) as [Hout Hwf'].
  { split; simpl; [done| |constructor|by destruct (0 <? interval)].
    intros k t _. unfold get_read. by rewrite Hnone, lookup_empty. }
  assert (close_ok (start interval m)) as Hs.
  { split_and!; simpl; [by intros ?%elem_of_nil|by destruct (0 <? interval)|done]. }
  pose proof (acts_close l _ Hs) as Hc. destruct (acts l (start interval m)) as [y out]. simpl in *.
  destruct Hc as (Hret & Hexit & Hstop). split_and!; [done|by apply Len_spec| |].
  - intros Hin. specialize (Hret Hin). split; [done|]. intros l'. by apply janitor_over_acts.
  - intros Hne now. eexists. apply janitor_ends; [by apply Hstop|].
    destruct (jan y) as [| |read i|]; try done. apply Nat.le_sub_l.
Qed.

Definition demo : list (Time * @action nat) :=
  [(1, ASetTTL "a" 1%nat 10); (2, ASet "b" 2%nat); (10, AGet "a"); (10, AClock 0); (10, AGet "a"); (11, AClock 1);
   (11, ASetTTL "a" 3%nat 5); (12, ADrop 1); (12, AGet "a"); (12, AClock 2); (16, ATick); (20, AShard);
   (20, AGet "a"); (20, AClock 3); (20, AClose); (20, AShard); (21, AShard); (21, AStop); (22, AClosed 0);
   (23, AGet "b"); (23, AClock 4)].

Lemma kv_refines_witness :
  exists m, NewMemory 62 2 = Some m /\
    (acts demo (start Second m)).2 = [Some 1%nat; None; Some 3%nat; None; Some 2%nat].
Proof.
  destruct (NewMemory 62 2) as [m|] eqn:Hm; [|by vm_compute in Hm].
  exists m. split; [done|].
  pose proof (kv_refines 2 m Second 1 demo ltac:(lia) Hm ltac:(lia) ltac:(unfold demo, timed, timely; cbn; lia)) as Hk.
  destruct (acts demo (start Second m)) as [y out]. destruct Hk as [-> _]. vm_compute. reflexivity.
Defined.

(** A [Get] reads the clock after it has let go of the lock: an entry replaced in
    time, before it expires, can be missed although the key holds a live value at
    every moment of the call. *)
Lemma get_misses_live_key :
  exists m, NewMemory 62 2 = Some m /\
    (acts [(0, ASetTTL "a" 1%nat 10); (8, AGet "a"); (9, ASetTTL "a" 2%nat 100); (11, AClock 0)] (start 0 m)).2 = [None] /\
    (acts [(0, ASetTTL "a" 1%nat 10); (8, AGet "a"); (8, AClock 0); (9, ASetTTL "a" 2%nat 100);
           (9, AGet "a"); (9, AClock 1); (11, AGet "a"); (11, AClock 2)] (start 0 m)).2 = [Some 1; Some 2; Some 2]%nat.
Proof. eexists. split; [vm_compute; reflexivity|]. split; vm_compute; reflexivity. Qed.
