(* ===== verification/Pcg.v ===== *)
(** The generator behind [random.Seeded]: PCG-DXSM of [math/rand/v2], and the
    methods of its [Rand] that the source uses.

    [Rand.IntN] draws again while the low word of a product is below a threshold,
    so it ends only because the generator reaches a state whose output passes.
    The generator is a linear congruence modulo [2 ^ 128] of full period; that is
    shown here, and the loop is defined by recursion on it. *)
From S2P Require Import Prelude GoNum Model GoFloat.
Open Scope Z_scope.

Definition w64 (z : Z) : Z := z mod 2 ^ 64.

(** [bits.Mul64]: the two words of a product. *)
Definition Mul64 (x y : Z) : Z * Z := (x * y / 2 ^ 64, x * y mod 2 ^ 64).

Record pcg := mkPcg { p_hi : Z; p_lo : Z }.

Definition mulHi : Z := 2549297995355413924.
Definition mulLo : Z := 4865540595714422341.
Definition incHi : Z := 6364136223846793005.
Definition incLo : Z := 1442695040888963407.
Definition cheapMul : Z := 15750249268501108917.

(** [PCG.next]: the state times the multiplier plus the increment, in two words. *)
Definition next (p : pcg) : pcg :=
  let '(hi, lo) := Mul64 (p_lo p) mulLo in
  let hi := w64 (hi + w64 (w64 (p_hi p * mulLo) + w64 (p_lo p * mulHi))) in
  let c := if 2 ^ 64 <=? lo + incLo then 1 else 0 in
  mkPcg (w64 (hi + incHi + c)) (w64 (lo + incLo)).

Definition mix (hi lo : Z) : Z :=
  let hi := Z.lxor hi (Z.shiftr hi 32) in
  let hi := w64 (hi * cheapMul) in
  let hi := Z.lxor hi (Z.shiftr hi 48) in
  w64 (hi * Z.lor lo 1).

Definition Uint64 (p : pcg) : pcg * Z := let p := next p in (p, mix (p_hi p) (p_lo p)).

(** [Rand.Float64] *)
Definition pcg_Float64 (p : pcg) : pcg * float64 :=
  let '(p, u) := Uint64 p in
  (p, fdiv (float_of_Z (Z.shiftr (w64 (Z.shiftl u 11)) 11)) (float_of_Z (2 ^ 53))).

(** ** The period *)

Definition num (p : pcg) : Z := p_hi p * 2 ^ 64 + p_lo p.
Definition mul : Z := mulHi * 2 ^ 64 + mulLo.
Definition inc : Z := incHi * 2 ^ 64 + incLo.
Definition affine (x : Z) : Z := mul * x + inc.
Definition word (z : Z) : Prop := 0 <= z < 2 ^ 64.
Definition words (p : pcg) : Prop := word (p_hi p) /\ word (p_lo p).

Lemma w64_word z : word (w64 z).
Proof. apply Z.mod_pos_bound. lia. Qed.

Lemma next_words p : words (next p).
Proof. unfold next. simpl. split; apply w64_word. Qed.

Lemma w64_eq z : exists q, w64 z = z - 2 ^ 64 * q.
Proof. exists (z / 2 ^ 64). unfold w64. rewrite Z.mod_eq by lia. done. Qed.

Lemma num_next p : exists q, num (next p) = affine (num p) + 2 ^ 128 * q.
Proof.
  unfold next, num, affine, mul, inc, Mul64. cbn [p_hi p_lo].
  destruct (w64_eq (p_hi p * mulLo)) as [q1 ->], (w64_eq (p_lo p * mulHi)) as [q2 ->].
  destruct (w64_eq (p_hi p * mulLo - 2 ^ 64 * q1 + (p_lo p * mulHi - 2 ^ 64 * q2))) as [q3 ->].
  set (a := p_lo p * mulLo). pose proof (Z_div_mod_eq_full a (2 ^ 64)) as Ha.
  pose proof (Z.mod_pos_bound a (2 ^ 64) ltac:(lia)) as Hb. set (h := a / 2 ^ 64) in *. set (l := a mod 2 ^ 64) in *.
  assert (0 <= incLo < 2 ^ 64) as Hi by done.
  assert (w64 (l + incLo) = l + incLo - 2 ^ 64 * (if 2 ^ 64 <=? l + incLo then 1 else 0)) as ->.
  { unfold w64. destruct (Z.leb_spec (2 ^ 64) (l + incLo)).
    - symmetry. apply Z.mod_unique_pos with 1; lia.
    - rewrite Z.mod_small; lia. }
  set (c := if _ <=? _ then 1 else 0).
  destruct (w64_eq (h + (p_hi p * mulLo - 2 ^ 64 * q1 + (p_lo p * mulHi - 2 ^ 64 * q2) - 2 ^ 64 * q3))) as [q4 ->].
  match goal with |- context [w64 ?x] => destruct (w64_eq x) as [q5 ->] end.
  exists (- q1 - q2 - q3 - q4 - q5 - p_hi p * mulHi).
  assert (p_lo p * mulLo = 2 ^ 64 * h + l) as Hlo by done. clearbody a h l c. change (2 ^ 128) with (2 ^ 64 * 2 ^ 64).
  generalize dependent (2 ^ 64). intros w. nia.
Qed.

(** ** Every state is reached *)

(** [2 ^ k] steps add an odd multiple of [2 ^ k], modulo [2 ^ (k + 1)]. *)
Lemma affine_pow (k : nat) : exists b o, forall x,
  Nat.iter (2 ^ k) affine x = x + 2 ^ Z.of_nat k * (4 * (b * x) + (2 * o + 1)).
Proof.
  induction k as [|k (b & o & IH)].
  - exists (mul / 4), (inc / 2). intros x. change (Nat.iter (2 ^ 0) affine x) with (affine x). unfold affine.
    change mul with (4 * (mul / 4) + 1) at 1. change inc with (2 * (inc / 2) + 1) at 1. lia.
  - exists (b + 2 * 2 ^ Z.of_nat k * (b * b)), (o + b * 2 ^ Z.of_nat k * (2 * o + 1)). intros x.
    replace (2 ^ S k)%nat with (2 ^ k + 2 ^ k)%nat by (simpl; lia).
    rewrite Nat.iter_add, !IH, Nat2Z.inj_succ, Z.pow_succ_r by lia. generalize (2 ^ Z.of_nat k). intros w. ring.
Qed.

Lemma affine_reach (k : nat) x y : exists n q, Nat.iter n affine x = y + 2 ^ Z.of_nat k * q.
Proof.
  induction k as [|k (n & t & IH)].
  - exists O, (x - y). simpl. lia.
  - destruct (affine_pow k) as (b & o & Hp). rewrite Nat2Z.inj_succ, Z.pow_succ_r by lia.
    destruct (Z.even t) eqn:He.
    + apply Z.even_spec in He as [u ->]. exists n, u. rewrite IH. lia.
    + assert (Z.odd t = true) as [u ->]%Z.odd_spec by (rewrite <- Z.negb_even, He; done).
      exists (2 ^ k + n)%nat, (u + o + 1 + 2 * (b * Nat.iter n affine x)).
      rewrite Nat.iter_add, Hp, IH. generalize (2 ^ Z.of_nat k). intros w. ring.
Qed.

Lemma num_iter n p : exists q, num (Nat.iter n next p) = Nat.iter n affine (num p) + 2 ^ 128 * q.
Proof.
  induction n as [|n [q IH]]; [exists 0; simpl; lia|]. rewrite !Nat.iter_succ.
  destruct (num_next (Nat.iter n next p)) as [r ->]. rewrite IH. exists (mul * q + r). unfold affine. ring.
Qed.

Lemma num_inj p q r : words p -> words q -> num p = num q + 2 ^ 128 * r -> p = q.
Proof. destruct p, q. unfold words, word, num. simpl. intros. f_equal; lia. Qed.

Lemma iter_words n p : words p -> words (Nat.iter n next p).
Proof. destruct n; [done|]. intros _. apply next_words. Qed.

Lemma every_state p q : words p -> words q -> exists n, Nat.iter n next p = q.
Proof.
  intros Hp Hq. destruct (affine_reach 128 (num p) (num q)) as (n & t & Hn). exists n.
  destruct (num_iter n p) as [u Hu]. apply (num_inj _ _ (t + u)); [by apply iter_words|done|].
  rewrite Hu, Hn. change (Z.of_nat 128) with 128. lia.
Qed.

(** ** The loop of [uint64n] *)

Definition mul_draw (n : Z) (p : pcg) : pcg * (Z * Z) := let '(p, u) := Uint64 p in (p, Mul64 u n).

Definition threshold (n : Z) : Z := (2 ^ 64 - n) mod n.

(** The loop goes from [x] to [y]. *)
Definition again (n : Z) (y x : pcg * (Z * Z)) : Prop :=
  0 < n <= maxInt64 /\ x.2.2 < threshold n /\ y = mul_draw n x.1.

(** A state whose output is the greatest number passes every threshold. *)
Definition good_state : pcg := mkPcg 8285685522624391957 1.

Lemma good_passes n p : 0 < n <= maxInt64 -> next p = good_state -> threshold n <= (mul_draw n p).2.2.
Proof.
  intros Hn Hp. unfold mul_draw, Uint64. rewrite Hp.
  change (mix (p_hi good_state) (p_lo good_state)) with (2 ^ 64 - 1). cbn [snd Mul64].
  assert (((2 ^ 64 - 1) * n) mod 2 ^ 64 = 2 ^ 64 - n) as ->.
  { unfold maxInt64 in Hn. symmetry. apply Z.mod_unique_pos with (n - 1); lia. }
  unfold threshold. pose proof (Z.mod_pos_bound (2 ^ 64 - n) n). unfold maxInt64 in Hn. lia.
Qed.

Lemma again_iter n N : forall x, threshold n <= (Nat.iter N (fun x => mul_draw n x.1) x).2.2 -> Acc (again n) x.
Proof.
  induction N as [|N IH]; intros x Hx; constructor; intros y (_ & Hlt & ->).
  - simpl in Hx. lia.
  - apply IH. by rewrite Nat.iter_succ_r in Hx.
Qed.

Lemma mul_draw_iter n N x : (Nat.iter N (fun x => mul_draw n x.1) x).1 = Nat.iter N next x.1.
Proof. induction N as [|N IH]; [done|]. rewrite !Nat.iter_succ, <- IH. done. Qed.

Lemma again_wf n : well_founded (again n).
Proof.
  intros x. constructor. intros y (Hn & _ & ->). set (y := mul_draw n x.1).
  assert (words (next y.1) /\ words good_state) as [Hw Hg] by (by split; [apply next_words|]).
  destruct (every_state _ _ Hw Hg) as [M HM]. apply (again_iter n (S M)).
  rewrite Nat.iter_succ. apply good_passes; [done|]. by rewrite mul_draw_iter, <- Nat.iter_succ, Nat.iter_succ_r.
Qed.

(** [for lo < thresh { hi, lo = bits.Mul64(r.Uint64(), n) }] *)
Fixpoint redraw (n : Z) (Hn : 0 < n <= maxInt64) (x : pcg * (Z * Z)) (a : Acc (again n) x) : pcg * Z :=
  match Z_lt_dec x.2.2 (threshold n) with
  | left Hlt => redraw n Hn (mul_draw n x.1) (Acc_inv a (conj Hn (conj Hlt eq_refl)))
  | right _ => (x.1, x.2.1)
  end.

(** [uint64n], for [n] from 1 to the greatest [int]. *)
Definition uint64n (n : Z) (Hn : 0 < n <= maxInt64) (p : pcg) : pcg * Z :=
  if Z.land n (n - 1) =? 0 then let '(p, u) := Uint64 p in (p, Z.land u (n - 1))
  else
    let x := mul_draw n p in
    if x.2.2 <? n then redraw n Hn x (Acc_intro_generator 32 (again_wf n) x) else (x.1, x.2.1).

(** [Rand.IntN]: panics unless [n > 0]; an [int] is at most [maxInt64]. *)
Definition pcg_IntN (n : Z) (p : pcg) : may_panic (pcg * Z) :=
  match decide (0 < n <= maxInt64) with
  | left Hn => Some (uint64n n Hn p)
  | right _ => None
  end.

(** ** The bounds *)

Lemma mix_word hi lo : word (mix hi lo).
Proof. apply w64_word. Qed.

Lemma mul_draw_high n p : 0 < n <= maxInt64 -> 0 <= (mul_draw n p).2.1 < n.
Proof.
  intros Hn. unfold mul_draw, Uint64. cbn [Mul64 fst snd]. pose proof (mix_word (p_hi (next p)) (p_lo (next p))) as Hu.
  unfold word in Hu. split; [apply Z.div_pos; nia|]. apply Z.div_lt_upper_bound; nia.
Qed.

(** What the loop returns is the high word of the first draw whose low word passes. *)
Lemma redraw_spec n Hn x a : exists N,
  let z := Nat.iter N (fun x => mul_draw n x.1) x in
  redraw n Hn x a = (z.1, z.2.1) /\ threshold n <= z.2.2 /\
  forall i, (i < N)%nat -> (Nat.iter i (fun x => mul_draw n x.1) x).2.2 < threshold n.
Proof.
  revert x a. fix IH 2. intros x [a]. cbn [redraw]. destruct (Z_lt_dec x.2.2 (threshold n)) as [Hlt|Hge].
  - destruct (IH _ (Acc_inv (Acc_intro x a) (conj Hn (conj Hlt eq_refl)))) as (N & Hr & Hpass & Hbefore). exists (S N).
    rewrite !Nat.iter_succ_r. split; [exact Hr|]. split; [exact Hpass|].
    intros [|i] Hi; [done|]. rewrite Nat.iter_succ_r. apply Hbefore. lia.
  - exists O. split; [done|]. split; [simpl; lia|lia].
Qed.

Lemma land_below a b : 0 <= a -> 0 <= b -> 0 <= Z.land a b <= b.
Proof.
  intros Ha Hb. rewrite <- (Z2N.id a Ha), <- (Z2N.id b Hb), <- N2Z.inj_land.
  pose proof (N.land_le_r (Z.to_N a) (Z.to_N b)). lia.
Qed.

Lemma uint64n_range n Hn p : 0 <= (uint64n n Hn p).2 < n.
Proof.
  unfold uint64n. destruct (Z.eqb_spec (Z.land n (n - 1)) 0) as [Hz|Hnz].
  - unfold Uint64. cbn [snd]. pose proof (mix_word (p_hi (next p)) (p_lo (next p))) as Hu.
    unfold word in Hu. destruct (land_below (mix (p_hi (next p)) (p_lo (next p))) (n - 1)); lia.
  - destruct (_ <? n); [|by apply mul_draw_high].
    destruct (redraw_spec n Hn (mul_draw n p) (Acc_intro_generator 32 (again_wf n) (mul_draw n p))) as (N & -> & _).
    cbn [snd]. destruct N; [by apply mul_draw_high|]. rewrite Nat.iter_succ. by apply mul_draw_high.
Qed.

(** The outputs are those of the package's own tests. *)
Example pcg_outputs :
  let '(p, a) := Uint64 (mkPcg 1 2) in let '(p, b) := Uint64 p in let '(p, c) := Uint64 p in
  [a; b; c] = [14192431797130687760; 11371241257079532652; 14470142590855381128].
Proof. reflexivity. Qed.

Example pcg_IntN_runs : snd <$> pcg_IntN 1000 (mkPcg 1 2) = Some 769.
Proof. reflexivity. Qed.
