(* ===== verification/Random.v ===== *)
(** [internal/random]: the interface, its two sources, and sampling over either.

    [Random] is the Go interface: an instance is a type of source with its five
    methods, a panic being [None]. [RandomLaws] is what the interface's comments
    promise, given that the source works; the helpers [Pick] and [Shuffle] are
    shown right over any source that keeps them, and both implementations are
    shown to keep them: [Crypto] over any reader of random bytes, whose float
    arithmetic is that of [FloatRound], and [Seeded] over the generator of [Pcg]. *)
From Stdlib Require Import Floats.SpecFloat.
From S2P Require Import Prelude GoNum GoStrings Model GoFloat FloatRound Pcg.
Open Scope Z_scope.

Inductive random_error := ErrNegative | ErrSource (e : string).

Class Random (S : Type) := {
  Float64 : S -> may_panic (S * float64);
  IntN : Z -> S -> may_panic (S * Z);
  IntRange : Z -> Z -> S -> may_panic (S * Z);
  Bytes : Z -> S -> S * (list Z + random_error);
  UUID : S -> may_panic (S * string) }.

(** ** UUIDs *)

Definition hex : string := "0123456789abcdef".
Definition hex_digit (d : Z) : string := str_take 1 (str_drop (Z.to_nat d) hex).

(** A dash goes before the bytes 4, 6, 8 and 10. *)
Definition dash_before (i : nat) : bool := bool_decide (i ∈ [4; 6; 8; 10]%nat).

Fixpoint format_from (i : nat) (b : list Z) : string :=
  match b with
  | [] => ""
  | x :: b =>
    (if dash_before i then "-" else "") +:+ hex_digit (Z.shiftr x 4) +:+ hex_digit (Z.land x 15)
      +:+ format_from (S i) b
  end.

Definition formatUUID (b : list Z) : string := format_from 0 b.

(** The sixteen bytes drawn, with the version and the variant set. *)
Definition set_version (b : list Z) : list Z :=
  let b := <[6%nat := Z.lor (Z.land (default 0 (b !! 6%nat)) 15) 64]> b in
  <[8%nat := Z.lor (Z.land (default 0 (b !! 8%nat)) 63) 128]> b.

Definition uuid_of (b : list Z) : string := formatUUID (set_version b).

(** ** [Crypto]

    [crypto/rand] is a reader that fills a buffer with bytes or fails. *)

Definition bytes_ok (b : list Z) : Prop := Forall (fun x => 0 <= x < 256) b.

Class Reader (E : Type) := {
  Read : Z -> E -> E * (list Z + string);
  Read_full n e e' b : Read n e = (e', inl b) -> Z.of_nat (length b) = Z.max 0 n /\ bytes_ok b }.

Record Crypto (E : Type) := NewCrypto { entropy : E }.
Arguments NewCrypto {E} entropy.
Arguments entropy {E} c.

(** [binary.BigEndian.Uint64] *)
Definition big_endian (b : list Z) : Z := foldl (fun u x => u * 256 + x) 0 b.

Section crypto.
Context {E} `{Reader E}.

(** A read whose failure is a panic. *)
Definition must_read (n : Z) (c : Crypto E) : may_panic (Crypto E * list Z) :=
  match Read n (entropy c) with
  | (e, inl b) => Some (NewCrypto e, b)
  | (_, inr _) => None
  end.

Definition crypto_Float64 (c : Crypto E) : may_panic (Crypto E * float64) :=
  '(c, b) ← must_read 8 c;
  let u := Z.shiftr (big_endian b) 11 in
  Some (c, fdiv (float_of_Z u) (float_of_Z (2 ^ 53))).

Definition crypto_IntN (n : Z) (c : Crypto E) : may_panic (Crypto E * Z) :=
  if n <=? 0 then None
  else '(c, f) ← crypto_Float64 c; Some (c, int64_of_float (fmul f (float_of_Z n))).

Definition crypto_IntRange (lo hi : Z) (c : Crypto E) : may_panic (Crypto E * Z) :=
  if hi <? lo then None
  else '(c, r) ← crypto_IntN (wrap64 (wrap64 (hi - lo) + 1)) c; Some (c, wrap64 (lo + r)).

Definition crypto_Bytes (n : Z) (c : Crypto E) : Crypto E * (list Z + random_error) :=
  if n <? 0 then (c, inr ErrNegative)
  else match Read n (entropy c) with
       | (e, inl b) => (NewCrypto e, inl b)
       | (e, inr err) => (NewCrypto e, inr (ErrSource err))
       end.

Definition crypto_UUID (c : Crypto E) : may_panic (Crypto E * string) :=
  '(c, b) ← must_read 16 c; Some (c, uuid_of b).

#[export] Instance crypto_random : Random (Crypto E) :=
  {| Float64 := crypto_Float64; IntN := crypto_IntN; IntRange := crypto_IntRange;
     Bytes := crypto_Bytes; UUID := crypto_UUID |}.

(** Every read from [e] on succeeds. *)
Definition reads (ns : list Z) (e : E) : E := foldl (fun e n => (Read n e).1) e ns.
Definition never_fails (e : E) : Prop := forall ns n, exists b, (Read n (reads ns e)).2 = inl b.
End crypto.

(** ** [Seeded] *)

Record Seeded := mkSeeded { r : pcg }.

Definition NewSeeded (seed : Z) : Seeded := mkSeeded (mkPcg seed (Z.lxor seed 11400714819323198485)).

Definition seeded_Float64 (s : Seeded) : may_panic (Seeded * float64) :=
  let '(p, f) := pcg_Float64 (r s) in Some (mkSeeded p, f).

Definition seeded_IntN (n : Z) (s : Seeded) : may_panic (Seeded * Z) :=
  if n <=? 0 then None else '(p, i) ← pcg_IntN n (r s); Some (mkSeeded p, i).

Definition seeded_IntRange (lo hi : Z) (s : Seeded) : may_panic (Seeded * Z) :=
  if hi <? lo then None
  else '(p, i) ← pcg_IntN (wrap64 (wrap64 (hi - lo) + 1)) (r s); Some (mkSeeded p, wrap64 (lo + i)).

(** [byte(s.r.UintN(256))] *)
Definition seeded_byte (p : pcg) : pcg * Z :=
  let '(p, u) := uint64n 256 ltac:(by split) p in (p, u mod 256).

Fixpoint seeded_fill (n : nat) (p : pcg) : pcg * list Z :=
  match n with
  | O => (p, [])
  | S n => let '(p, x) := seeded_byte p in let '(p, b) := seeded_fill n p in (p, x :: b)
  end.

Definition seeded_Bytes (n : Z) (s : Seeded) : Seeded * (list Z + random_error) :=
  if n <? 0 then (s, inr ErrNegative)
  else let '(p, b) := seeded_fill (Z.to_nat n) (r s) in (mkSeeded p, inl b).

Definition seeded_UUID (s : Seeded) : may_panic (Seeded * string) :=
  let '(p, b) := seeded_fill 16 (r s) in Some (mkSeeded p, uuid_of b).

#[export] Instance seeded_random : Random Seeded :=
  {| Float64 := seeded_Float64; IntN := seeded_IntN; IntRange := seeded_IntRange;
     Bytes := seeded_Bytes; UUID := seeded_UUID |}.

(** ** [Pick] and [Shuffle] *)

Section random.
Context {S} `{Random S}.

Definition Pick {T} (items : list T) (s : S) : may_panic (S * T) :=
  match items with
  | [] => None
  | _ => '(s, i) ← IntN (Z.of_nat (length items)) s; x ← items !! Z.to_nat i; Some (s, x)
  end.

(** [out[i], out[j] = out[j], out[i]]; [None] is an index out of range. *)
Definition swap {T} (i j : nat) (out : list T) : may_panic (list T) :=
  x ← out !! i; y ← out !! j; Some (<[j := x]> (<[i := y]> out)).

(** The loop of [Shuffle], from index [i] down to 1. *)
Fixpoint shuffle_from {T} (i : nat) (out : list T) (s : S) : may_panic (S * list T) :=
  match i with
  | O => Some (s, out)
  | Datatypes.S i' =>
    '(s, j) ← IntN (Z.of_nat i + 1) s;
    out ← swap i (Z.to_nat j) out;
    shuffle_from i' out s
  end.

Definition Shuffle {T} (items : list T) (s : S) : may_panic (S * list T) :=
  shuffle_from (length items - 1) items s.
End random.

(** ** What the interface promises *)

Definition float_unit (f : float64) : Prop := fle fzero f = true /\ flt f fone = true.

Class RandomLaws (S : Type) `{Random S} := {
  works : S -> Prop;
  Float64_law s :
    match Float64 s with Some (s', f) => float_unit f /\ (works s -> works s') | None => ~ works s end;
  IntN_law n s : int64_ok n ->
    match IntN n s with
    | Some (s', i) => 0 <= i < n /\ (works s -> works s')
    | None => n <= 0 \/ ~ works s
    end;
  IntRange_law lo hi s : int64_ok lo -> int64_ok hi ->
    match IntRange lo hi s with
    | Some (s', i) => lo <= i <= hi /\ (works s -> works s')
    | None => hi < lo \/ maxInt64 < hi - lo + 1 \/ ~ works s
    end;
  Bytes_law n s :
    match Bytes n s with
    | (s', inl b) => Z.of_nat (length b) = n /\ bytes_ok b /\ (works s -> works s')
    | (s', inr ErrNegative) => n < 0 /\ s' = s
    | (s', inr (ErrSource _)) => 0 <= n /\ ~ works s
    end;
  UUID_law s :
    match UUID s with
    | Some (s', u) => (exists b, u = uuid_of b /\ length b = 16%nat /\ bytes_ok b) /\ (works s -> works s')
    | None => ~ works s
    end }.

(** ** Reading a UUID back *)

Definition hex_value (c : ascii) : option Z :=
  let b := byteZ c in
  if (48 <=? b) && (b <=? 57) then Some (b - 48)
  else if (97 <=? b) && (b <=? 102) then Some (b - 87)
  else None.

Fixpoint parse_from (i n : nat) (s : string) : option (list Z) :=
  match n with
  | O => if (s =? "")%string then Some [] else None
  | S n =>
    s ← (if dash_before i then match s with String "-" s => Some s | _ => None end else Some s);
    match s with
    | String c (String d s) =>
      h ← hex_value c; l ← hex_value d; rest ← parse_from (S i) n s; Some (16 * h + l :: rest)
    | _ => None
    end
  end.

Definition parseUUID (s : string) : option (list Z) := parse_from 0 16 s.

(** ** Sampling *)

Section sampling.
Context {S} `{RandomLaws S}.

Lemma swap_perm {T} i j (out : list T) :
  (i < length out)%nat -> (j < length out)%nat ->
  exists out', swap i j out = Some out' /\ out' ≡ₚ out.
Proof.
  intros Hi Hj. apply lookup_lt_is_Some in Hi as [x Hx], Hj as [y Hy].
  unfold swap. rewrite Hx, Hy. simpl. eexists. split; [done|].
  destruct (decide (i = j)) as [->|Hne].
  - simplify_eq. by rewrite !list_insert_id by (rewrite ?list_insert_id; done).
  - apply Permutation_inj. rewrite !length_insert. split; [done|].
    exists (fun k => if decide (k = i) then j else if decide (k = j) then i else k). split.
    + intros a b. repeat case_decide; congruence.
    + intros k. cbn beta. pose proof (lookup_lt_Some _ _ _ Hx). pose proof (lookup_lt_Some _ _ _ Hy).
      destruct (decide (k = j)) as [->|].
      * rewrite list_lookup_insert_eq by (by rewrite length_insert). rewrite decide_False by done.
        done.
      * rewrite list_lookup_insert_ne by done. destruct (decide (k = i)) as [->|].
        -- by rewrite list_lookup_insert_eq.
        -- by rewrite list_lookup_insert_ne.
Qed.

Lemma shuffle_perm {T} i : forall (out : list T) s,
  (i < length out)%nat \/ out = [] /\ i = O -> Z.of_nat (length out) <= maxInt64 ->
  match shuffle_from i out s with
  | Some (s', out') => out' ≡ₚ out /\ (works s -> works s')
  | None => ~ works s
  end.
Proof.
  induction i as [|i IH]; intros out s Hi Hmax; [done|].
  destruct Hi as [Hi|[_ Hi]]; [|done]. cbn [shuffle_from].
  pose proof (IntN_law (Z.of_nat (Datatypes.S i) + 1) s ltac:(unfold int64_ok, minInt64 in *; lia)) as Hlaw.
  destruct (IntN _ s) as [[s1 r1]|]; simpl; [destruct Hlaw as [Hr Hw]|destruct Hlaw; [lia|done]].
  destruct (swap_perm (Datatypes.S i) (Z.to_nat r1) out ltac:(lia) ltac:(lia)) as (out' & Ho & Hp).
  rewrite Ho. simpl. specialize (IH out' s1). destruct (shuffle_from i out' s1) as [[s2 out2]|].
  - destruct IH as [Hp' Hw']; [left; rewrite Hp; lia|by rewrite Hp|]. split; [by rewrite Hp', Hp|auto].
  - intros Hs. apply IH; [left; rewrite Hp; lia|by rewrite Hp|auto].
Qed.

(** A pick panics exactly on an empty slice, and a shuffle never, while the source
    works; a slice has at most [maxInt64] items. *)
Lemma sampling {T} (items : list T) s : Z.of_nat (length items) <= maxInt64 ->
  match Pick items s with Some (_, x) => x ∈ items | None => items = [] \/ ~ works s end /\
  match Shuffle items s with Some (_, out) => out ≡ₚ items | None => ~ works s end.
Proof.
  intros Hmax. split.
  - destruct items as [|x items]; [by left|]. unfold Pick.
    pose proof (IntN_law (Z.of_nat (length (x :: items))) s ltac:(unfold int64_ok, minInt64; simpl in *; lia)) as Hlaw.
    destruct (IntN _ s) as [[s' i]|]; simpl; [|destruct Hlaw; [simpl in *; lia|by right]].
    destruct Hlaw as [Hi _]. destruct (lookup_lt_is_Some_2 (x :: items) (Z.to_nat i) ltac:(lia)) as [y Hy].
    rewrite Hy. simpl. by eapply list_elem_of_lookup_2.
  - unfold Shuffle. pose proof (shuffle_perm (length items - 1) items s) as Hp.
    destruct (shuffle_from _ items s) as [[s' out]|]; apply Hp; try done; destruct items; simpl; (by right) || (left; lia).
Qed.
End sampling.

(** ** UUIDs read back *)

Lemma hex_byte x : 0 <= x < 256 ->
  exists c d, hex_digit (Z.shiftr x 4) = String c EmptyString /\ hex_digit (Z.land x 15) = String d EmptyString /\
    exists h l, hex_value c = Some h /\ hex_value d = Some l /\ 16 * h + l = x.
Proof.
  intros Hx. assert (forall n, 0 <= n < 16 -> exists c, hex_digit n = String c EmptyString /\ hex_value c = Some n) as Hd.
  { intros n Hn. assert (n ∈ map Z.of_nat (seq 0 16)) as Hin.
    { apply elem_of_map. exists (Z.to_nat n). split; [lia|]. apply elem_of_seq. lia. }
    clear Hn. revert n Hin. apply Forall_forall. simpl. repeat (constructor; [by eexists|]). constructor. }
  change 15 with (Z.ones 4). rewrite Z.shiftr_div_pow2, Z.land_ones by lia.
  destruct (Hd (x / 2 ^ 4)) as (c & Hc & Hh). { split; [apply Z.div_pos; lia|apply Z.div_lt_upper_bound; lia]. }
  destruct (Hd (x mod 2 ^ 4)) as (d & Hd' & Hl). { apply Z.mod_pos_bound. lia. }
  exists c, d. split_and!; [done..|]. exists (x / 2 ^ 4), (x mod 2 ^ 4). split_and!; [done..|].
  pose proof (Z.div_mod x (2 ^ 4)). lia.
Qed.

Lemma format_parse b : bytes_ok b -> forall i, parse_from i (length b) (format_from i b) = Some b.
Proof.
  induction 1 as [|x b Hx Hb IH]; intros i; [done|].
  destruct (hex_byte x Hx) as (c & d & Hc & Hd & h & l & Hh & Hl & Hv).
  cbn [format_from length parse_from]. rewrite Hc, Hd.
  destruct (dash_before i); simpl; rewrite Hh, Hl; simpl; rewrite IH; simpl; by rewrite Hv.
Qed.

Lemma format_length b : bytes_ok b -> forall i,
  len (format_from i b) = (2 * length b + length (filter (fun j => dash_before j = true) (seq i (length b))))%nat.
Proof.
  induction 1 as [|x b Hx Hb IH]; intros i; [done|].
  destruct (hex_byte x Hx) as (c & d & Hc & Hd & _).
  cbn [format_from length seq]. rewrite Hc, Hd, filter_cons.
  destruct (dash_before i); simpl; rewrite IH; lia.
Qed.

Lemma byte_forall (P : Z -> bool) :
  forallb P (map Z.of_nat (seq 0 256)) = true -> forall x, 0 <= x < 256 -> P x = true.
Proof.
  intros Hall x Hx. rewrite forallb_forall in Hall. apply Hall, in_map_iff.
  exists (Z.to_nat x). split; [lia|]. apply in_seq. lia.
Qed.

Lemma version_bits x : 0 <= x < 256 ->
  Z.lor (Z.land x 15) 64 = 64 + x mod 16 /\ Z.lor (Z.land x 63) 128 = 128 + x mod 64.
Proof.
  intros Hx. pose proof (byte_forall (fun x => (Z.lor (Z.land x 15) 64 =? 64 + x mod 16) &&
    (Z.lor (Z.land x 63) 128 =? 128 + x mod 64)) eq_refl x Hx) as Hb. cbn beta in Hb. bool_to_prop. done.
Qed.

Lemma set_version_spec b : length b = 16%nat -> bytes_ok b ->
  set_version b = <[8%nat := 128 + default 0 (b !! 8%nat) mod 64]> (<[6%nat := 64 + default 0 (b !! 6%nat) mod 16]> b).
Proof.
  intros Hlen Hb. unfold set_version. cbn zeta. rewrite list_lookup_insert_ne by done.
  assert (forall i, 0 <= default 0 (b !! i) < 256) as Hd.
  { intros i. destruct (b !! i) eqn:E; simpl; [|lia]. unfold bytes_ok in Hb. rewrite Forall_lookup in Hb. eauto. }
  destruct (version_bits _ (Hd 6%nat)) as [-> _], (version_bits _ (Hd 8%nat)) as [_ ->]. done.
Qed.

(** UUIDs. [formatUUID] of sixteen bytes is the 36-character form, and
    reading it back gives the bytes; so [UUID] loses nothing of the bytes
    drawn but the six bits it overwrites: the version nibble of byte 6 is 4,
    the top two bits of byte 8 are 10, and every other bit is the one drawn. *)
Theorem uuid_roundtrip (b : list Z) (Hlen : length b = 16%nat) (Hb : bytes_ok b) :
  parseUUID (formatUUID b) = Some b /\ len (formatUUID b) = 36%nat /\
  len (uuid_of b) = 36%nat /\
  exists b', parseUUID (uuid_of b) = Some b' /\
    b' !! 6%nat = (fun x => 64 + x mod 16) <$> b !! 6%nat /\
    b' !! 8%nat = (fun x => 128 + x mod 64) <$> b !! 8%nat /\
    forall i, i <> 6%nat -> i <> 8%nat -> b' !! i = b !! i.
Proof.
  assert (forall b, length b = 16%nat -> bytes_ok b ->
    parseUUID (formatUUID b) = Some b /\ len (formatUUID b) = 36%nat) as Hfmt.
  { intros b' Hl Hb'. unfold parseUUID, formatUUID. rewrite <- Hl at 1. split; [by apply format_parse|].
    rewrite format_length by done. by rewrite Hl. }
  assert (bytes_ok (set_version b) /\ length (set_version b) = 16%nat) as [Hok Hl].
  { rewrite set_version_spec by done. rewrite !length_insert. split; [|done].
    apply Forall_insert; [apply Forall_insert; [done|]|].
    - pose proof (Z.mod_pos_bound (default 0 (b !! 6%nat)) 16). lia.
    - pose proof (Z.mod_pos_bound (default 0 (b !! 8%nat)) 64). lia. }
  destruct (Hfmt b Hlen Hb) as [??]. destruct (Hfmt (set_version b) Hl Hok) as [Hp Hl36].
  split_and!; try done. exists (set_version b). split; [done|].
  rewrite set_version_spec by done.
  destruct (lookup_lt_is_Some_2 b 6 ltac:(lia)) as [x6 H6]. destruct (lookup_lt_is_Some_2 b 8 ltac:(lia)) as [x8 H8].
  rewrite H6, H8. simpl. split_and!.
  - by rewrite list_lookup_insert_ne, list_lookup_insert_eq by (done || lia).
  - by rewrite list_lookup_insert_eq by (rewrite length_insert; lia).
  - intros i ??. by rewrite !list_lookup_insert_ne.
Qed.

Definition demo_bytes : list Z := [1; 35; 69; 103; 137; 171; 205; 239; 1; 35; 69; 103; 137; 171; 205; 239].

Lemma uuid_roundtrip_witness :
  uuid_of demo_bytes = "01234567-89ab-4def-8123-456789abcdef" /\ len (uuid_of demo_bytes) = 36%nat.
Proof.
  split; [vm_compute; reflexivity|].
  refine (proj1 (proj2 (proj2 (uuid_roundtrip demo_bytes _ _)))).
  - reflexivity.
  - repeat (constructor; [lia|]). constructor.
Defined.

(** ** Both sources keep the laws *)

Lemma seeded_byte_range p : 0 <= (seeded_byte p).2 < 256.
Proof. unfold seeded_byte. destruct (uint64n _ _ _) as [q u]. simpl. by apply Z.mod_pos_bound. Qed.

Lemma seeded_fill_ok n p : length (seeded_fill n p).2 = n /\ bytes_ok (seeded_fill n p).2.
Proof.
  revert p. induction n as [|n IH]; intros p; [by split; [|constructor]|]. cbn [seeded_fill].
  pose proof (seeded_byte_range p) as Hx. destruct (seeded_byte p) as [q x]. specialize (IH q).
  destruct (seeded_fill n q) as [q' b]. simpl in *. destruct IH as [-> Hb]. split; [done|by constructor].
Qed.

Lemma pcg_IntN_spec n p : int64_ok n ->
  match pcg_IntN n p with Some (_, i) => 0 <= i < n | None => n <= 0 end.
Proof.
  intros Hn. unfold pcg_IntN, int64_ok in *. destruct (decide _) as [Hd|Hd]; [|lia].
  pose proof (uint64n_range n Hd p). by destruct (uint64n n Hd p).
Qed.

(** A quotient by [2 ^ 53] of a number below it. *)
Lemma unit_float u : 0 <= u < 2 ^ 53 -> float_unit (fdiv (float_of_Z u) (float_of_Z (2 ^ 53))).
Proof.
  intros Hu. destruct (decide (u = 0)) as [->|Hne]; [done|].
  destruct (div_pow53 u) as (m & j & -> & Hj & Hm & _); [lia|]. split; [done|].
  unfold flt, fone, float_of_Z. change (binary_normalize 53 1024 1 0 false) with (S754_finite false 4503599627370496 (-52)).
  unfold SFltb, SFcompare. by rewrite (proj2 (Z.compare_lt_iff (- 53 - j) (-52))) by lia.
Qed.

(** The sum [lo + i] of [IntRange] does not wrap around. *)
Lemma range_sum lo hi : int64_ok lo -> int64_ok hi -> lo <= hi ->
  let n := wrap64 (wrap64 (hi - lo) + 1) in
  int64_ok n /\ (0 < n -> n = hi - lo + 1 /\ forall i, 0 <= i < n -> wrap64 (lo + i) = lo + i) /\
  (n <= 0 -> maxInt64 < hi - lo + 1).
Proof.
  intros Hlo Hhi Hle n. subst n. rewrite wrap64_succ.
  destruct (decide (hi - lo + 1 <= maxInt64)) as [Hfit|Hbig].
  - rewrite wrap64_id by (unfold int64_ok, minInt64, maxInt64 in *; lia).
    split; [unfold int64_ok, minInt64, maxInt64 in *; lia|]. split; [|lia]. intros _. split; [done|].
    intros i Hi. apply wrap64_id. unfold int64_ok, minInt64, maxInt64 in *; lia.
  - assert (wrap64 (hi - lo + 1) <= 0 /\ int64_ok (wrap64 (hi - lo + 1))) as [Hneg Hok].
    { split; [|apply wrap64_ok]. unfold wrap64, int64_ok, minInt64, maxInt64 in *.
      assert (2 ^ 64 <= hi - lo + 1 + 2 ^ 63 < 2 * 2 ^ 64) by lia.
      rewrite <- (Z.mod_unique_pos (hi - lo + 1 + 2 ^ 63) (2 ^ 64) 1 (hi - lo + 1 - 2 ^ 63)); lia. }
    split; [done|]. split; intros; [|unfold maxInt64 in *]; lia.
Qed.

#[export] Instance seeded_laws : RandomLaws Seeded.
Proof.
  refine {| works _ := True |}.
  - intros s. unfold Float64, seeded_random, seeded_Float64, pcg_Float64. destruct (Uint64 (r s)) as [p u]. split; [|done].
    apply unit_float. rewrite Z.shiftr_div_pow2 by lia. unfold w64.
    pose proof (Z.mod_pos_bound (Z.shiftl u 11) (2 ^ 64)). split; [apply Z.div_pos; lia|]. apply Z.div_lt_upper_bound; lia.
  - intros n s Hn. cbn [IntN seeded_random]. unfold seeded_IntN. destruct (Z.leb_spec n 0); [by left|].
    pose proof (pcg_IntN_spec n (r s) Hn). destruct (pcg_IntN n (r s)) as [[p i]|]; [|lia]. simpl. done.
  - intros lo hi s Hlo Hhi. cbn [IntRange seeded_random]. unfold seeded_IntRange. destruct (Z.ltb_spec hi lo) as [|Hle]; [by left|].
    destruct (range_sum lo hi Hlo Hhi Hle) as (Hn & Hpos & Hneg).
    pose proof (pcg_IntN_spec _ (r s) Hn). destruct (pcg_IntN _ (r s)) as [[p i]|]; simpl; [|auto].
    destruct Hpos as [Heq Hsum]; [lia|]. rewrite Hsum by done. split; [lia|done].
  - intros n s. cbn [Bytes seeded_random]. unfold seeded_Bytes. destruct (Z.ltb_spec n 0); [done|].
    pose proof (seeded_fill_ok (Z.to_nat n) (r s)). destruct (seeded_fill _ (r s)) as [p b]. simpl in *. split_and!; try tauto. lia.
  - intros s. cbn [UUID seeded_random]. unfold seeded_UUID.
    pose proof (seeded_fill_ok 16 (r s)). destruct (seeded_fill 16 (r s)) as [p b]. simpl in *. split; [|done]. exists b. tauto.
Defined.

Section crypto_laws.
Context {E} `{Reader E}.

Lemma never_fails_next n e : never_fails e -> never_fails (Read n e).1.
Proof. intros He ns m. exact (He (n :: ns) m). Qed.

Lemma must_read_spec n c : 0 <= n ->
  match must_read n c with
  | Some (c', b) => Z.of_nat (length b) = n /\ bytes_ok b /\ (never_fails (entropy c) -> never_fails (entropy c'))
  | None => ~ never_fails (entropy c)
  end.
Proof.
  intros Hn. unfold must_read. pose proof (never_fails_next n (entropy c)) as Hnext.
  destruct (Read n (entropy c)) as [e [b|err]] eqn:Hr; simpl in *.
  - destruct (Read_full _ _ _ _ Hr) as [Hl Hb]. split_and!; [lia|done|done].
  - intros Hw. destruct (Hw [] n) as [b Hb]. simpl in Hb. by rewrite Hr in Hb.
Qed.

Lemma big_endian_bound b : bytes_ok b -> 0 <= big_endian b < 256 ^ Z.of_nat (length b).
Proof.
  unfold big_endian, bytes_ok. induction b as [|x b IH] using rev_ind; [done|].
  intros [Hb Hx]%Forall_app. apply Forall_cons in Hx as [Hx _]. specialize (IH Hb).
  rewrite foldl_app, length_app, Nat2Z.inj_add, Z.pow_add_r by lia.
  change (256 ^ Z.of_nat (length [x])) with 256. cbn [foldl]. lia.
Qed.

(** The 53 bits of eight bytes. *)
Lemma top_bits b : Z.of_nat (length b) = 8 -> bytes_ok b -> 0 <= Z.shiftr (big_endian b) 11 < 2 ^ 53.
Proof.
  intros Hl Hb. pose proof (big_endian_bound b Hb) as Hu. rewrite Hl in Hu. change (256 ^ 8) with (2 ^ 53 * 2 ^ 11) in Hu.
  rewrite Z.shiftr_div_pow2 by lia. split; [apply Z.div_pos; lia|]. apply Z.div_lt_upper_bound; lia.
Qed.

Lemma crypto_Float64_spec c :
  match crypto_Float64 c with
  | Some (c', f) => (exists u, 0 <= u < 2 ^ 53 /\ f = fdiv (float_of_Z u) (float_of_Z (2 ^ 53))) /\
      (never_fails (entropy c) -> never_fails (entropy c'))
  | None => ~ never_fails (entropy c)
  end.
Proof.
  unfold crypto_Float64. pose proof (must_read_spec 8 c ltac:(lia)) as Hr.
  destruct (must_read 8 c) as [[c' b]|]; simpl; [|done]. destruct Hr as (Hl & Hb & Hw).
  split; [|done]. eexists. split; [by apply top_bits|done].
Qed.

(** A product with [float64(n)], converted back, is below [n]. *)
Lemma scaled_below u n : 0 <= u < 2 ^ 53 -> 0 < n <= maxInt64 ->
  0 <= int64_of_float (fmul (fdiv (float_of_Z u) (float_of_Z (2 ^ 53))) (float_of_Z n)) < n.
Proof.
  intros Hu Hn. unfold int64_of_float.
  assert (exists i, ftrunc (fmul (fdiv (float_of_Z u) (float_of_Z (2 ^ 53))) (float_of_Z n)) = Some i /\ 0 <= i < n)
    as (i & -> & Hi).
  { destruct (decide (u = 0)) as [->|Hne].
    - exists 0. split; [|lia]. destruct (float_of_int n Hn) as (m & e & -> & _). done.
    - destruct (div_pow53 u) as (m & j & -> & Hj & Hm & _); [lia|]. by apply product_below. }
  rewrite decide_True by (unfold int64_ok, minInt64; lia). done.
Qed.

Lemma crypto_IntN_spec n c : int64_ok n ->
  match crypto_IntN n c with
  | Some (c', i) => 0 <= i < n /\ (never_fails (entropy c) -> never_fails (entropy c'))
  | None => n <= 0 \/ ~ never_fails (entropy c)
  end.
Proof.
  intros Hn. unfold crypto_IntN. destruct (Z.leb_spec n 0); [by left|]. pose proof (crypto_Float64_spec c) as Hf.
  destruct (crypto_Float64 c) as [[c' f]|]; simpl; [|by right]. destruct Hf as [(u & Hu & ->) Hw].
  split; [|done]. apply scaled_below; [done|]. unfold int64_ok in Hn. lia.
Qed.

#[export] Instance crypto_laws : RandomLaws (Crypto E).
Proof.
  refine {| works c := never_fails (entropy c) |}.
  - intros c. pose proof (crypto_Float64_spec c) as Hf. cbn [Float64 crypto_random].
    destruct (crypto_Float64 c) as [[c' f]|]; [|done]. destruct Hf as [(u & Hu & ->) Hw]. split; [by apply unit_float|done].
  - intros n c. apply crypto_IntN_spec.
  - intros lo hi c Hlo Hhi. cbn [IntRange crypto_random]. unfold crypto_IntRange. destruct (Z.ltb_spec hi lo) as [|Hle]; [by left|].
    destruct (range_sum lo hi Hlo Hhi Hle) as (Hn & Hpos & Hneg). pose proof (crypto_IntN_spec _ c Hn) as Hi.
    destruct (crypto_IntN _ c) as [[c' i]|]; simpl; [|naive_solver]. destruct Hi as [Hi Hw].
    destruct Hpos as [Heq Hsum]; [lia|]. rewrite Hsum by done. split; [lia|done].
  - intros n c. cbn [Bytes crypto_random]. unfold crypto_Bytes. destruct (Z.ltb_spec n 0); [done|].
    pose proof (must_read_spec n c ltac:(lia)) as Hr. unfold must_read in Hr.
    destruct (Read n (entropy c)) as [e [b|err]]; done.
  - intros c. cbn [UUID crypto_random]. unfold crypto_UUID. pose proof (must_read_spec 16 c ltac:(lia)) as Hr.
    destruct (must_read 16 c) as [[c' b]|]; simpl; [|done]. destruct Hr as (Hl & Hb & Hw). split; [|done].
    exists b. split_and!; [done|lia|done].
Defined.
End crypto_laws.


(** A reader for the examples: all bytes of a read are the number of the read. *)
#[export] Instance counter_reader : Reader Z.
Proof.
  refine {| Read n e := (e + 1, inl (replicate (Z.to_nat n) (e mod 256))) |}.
  intros n e e' b [= <- <-]. rewrite length_replicate. split; [lia|].
  apply Forall_replicate. by apply Z.mod_pos_bound.
Defined.

Definition demo_crypto : Crypto Z := NewCrypto 255.


(** ** [Seeded] ends *)

(** The output of draw [k] from a state, and that it passes the threshold for [n]. *)
Definition output (k : nat) (p : pcg) : Z := let q := Nat.iter k next p in mix (p_hi q) (p_lo q).
Definition passes (n : Z) (k : nat) (p : pcg) : Prop := threshold n <= (output k p * n) mod 2 ^ 64.

#[local] Opaque next mix.

Lemma mul_draw_eq n p : mul_draw n p = (next p, Mul64 (output 1 p) n).
Proof. reflexivity. Qed.

Lemma Uint64_eq p : Uint64 p = (next p, output 1 p).
Proof. reflexivity. Qed.

Lemma Mul64_eq x y : Mul64 x y = (x * y / 2 ^ 64, (x * y) mod 2 ^ 64).
Proof. reflexivity. Qed.

Lemma output_iter k p : output 1 (Nat.iter k next p) = output (S k) p.
Proof. reflexivity. Qed.

#[local] Opaque Mul64 output.

Lemma mul_draws n N p :
  Nat.iter N (fun x => mul_draw n x.1) (mul_draw n p) = (Nat.iter (S N) next p, Mul64 (output (S N) p) n).
Proof.
  destruct N as [|N]; [apply mul_draw_eq|].
  rewrite Nat.iter_succ, (mul_draw_iter n N (mul_draw n p)), !mul_draw_eq. cbn [fst].
  rewrite <- Nat.iter_succ_r, output_iter, <- Nat.iter_succ. reflexivity.
Qed.

(** [IntN] for an [n] that is not a power of two: the first draw that passes. *)
Lemma uint64n_draws n Hn p : Z.land n (n - 1) <> 0 ->
  exists k, uint64n n Hn p = (Nat.iter (S k) next p, output (S k) p * n / 2 ^ 64) /\
    passes n (S k) p /\ forall i, (i < k)%nat -> ~ passes n (S i) p.
Proof.
  intros Hp. unfold uint64n. rewrite (proj2 (Z.eqb_neq _ 0) Hp). cbn zeta.
  generalize (Acc_intro_generator 32 (again_wf n) (mul_draw n p)). intros a.
  destruct (Z.ltb_spec (mul_draw n p).2.2 n) as [Hlt|Hge].
  - destruct (redraw_spec n Hn _ a) as (k & -> & Hk & Hi). exists k. rewrite mul_draws, Mul64_eq in *. cbn [fst snd] in *.
    split; [reflexivity|]. split; [exact Hk|]. intros i Hlt' Hpass. specialize (Hi i Hlt').
    rewrite mul_draws, Mul64_eq in Hi. cbn [fst snd] in Hi. unfold passes in Hpass. lia.
  - exists O. rewrite mul_draw_eq, Mul64_eq in *. cbn [fst snd] in *. split; [reflexivity|]. split; [|lia].
    unfold passes, threshold. pose proof (Z.mod_pos_bound (2 ^ 64 - n) n). lia.
Qed.

Lemma seeded_IntN_eq n s : 0 < n <= maxInt64 ->
  exists Hn, IntN n s = Some (mkSeeded (uint64n n Hn (r s)).1, (uint64n n Hn (r s)).2).
Proof.
  intros Hn. cbn [IntN seeded_random]. unfold seeded_IntN, pcg_IntN. rewrite (proj2 (Z.leb_gt n 0)) by lia.
  destruct (decide _) as [Hd|]; [|done]. exists Hd. by destruct (uint64n n Hd (r s)).
Qed.

Lemma seeded_fill_draws n p : (seeded_fill n p).1 = Nat.iter n next p.
Proof.
  revert p. induction n as [|n IH]; intros p; [done|]. cbn [seeded_fill].
  assert ((seeded_byte p).1 = next p) as Hb by reflexivity. destruct (seeded_byte p) as [q x]. simpl in Hb. subst q.
  specialize (IH (next p)). destruct (seeded_fill n (next p)) as [q b]. simpl in *. by rewrite IH, <- Nat.iter_succ_r.
Qed.

(** C30. [Seeded] returns from every state of its generator. [IntN], for every
    [n > 0] an [int] can be, ends although it draws again as long as a draw falls
    into the biased part of the range: the generator has full period, so no state is
    avoided for ever. It draws once for a power of two, and otherwise returns the
    scaled first output that passes the threshold; the result is in [0, n).
    [IntRange] returns when the bounds are in order and less than [2^63] apart,
    and [Bytes], [Float64] and [UUID] always do, after as many draws as bytes. *)
Theorem seeded_terminates (s : Seeded) :
  (forall n, 0 < n <= maxInt64 -> exists k i, IntN n s = Some (mkSeeded (Nat.iter (S k) next (r s)), i) /\ 0 <= i < n /\
     (Z.land n (n - 1) = 0 /\ k = O /\ i = Z.land (output 1 (r s)) (n - 1) \/
      i = output (S k) (r s) * n / 2 ^ 64 /\ passes n (S k) (r s) /\ forall j, (j < k)%nat -> ~ passes n (S j) (r s))) /\
  (forall lo hi, int64_ok lo -> int64_ok hi -> lo <= hi -> hi - lo < maxInt64 ->
     exists s' i, IntRange lo hi s = Some (s', i) /\ lo <= i <= hi) /\
  (forall n, 0 <= n -> exists b, Bytes n s = (mkSeeded (Nat.iter (Z.to_nat n) next (r s)), inl b) /\ Z.of_nat (length b) = n) /\
  (exists f, Float64 s = Some (mkSeeded (next (r s)), f) /\ float_unit f) /\
  (exists u, UUID s = Some (mkSeeded (Nat.iter 16 next (r s)), u)) /\
  (forall p q, words p -> words q -> exists k, Nat.iter k next p = q).
Proof.
  split_and!.
  - intros n Hn. pose proof (IntN_law n s ltac:(unfold int64_ok, minInt64; lia)) as Hlaw.
    destruct (seeded_IntN_eq n s Hn) as [Hd Heq]. rewrite Heq in *. destruct (decide (Z.land n (n - 1) = 0)) as [Hp|Hp].
    + exists O, (Z.land (output 1 (r s)) (n - 1)). unfold uint64n in *. rewrite (proj2 (Z.eqb_eq _ 0) Hp), Uint64_eq in *.
      split; [reflexivity|]. split; [apply Hlaw|by left].
    + destruct (uint64n_draws n Hd (r s) Hp) as (k & Hdraws & Hk). rewrite Hdraws in *. eexists k, _.
      split; [reflexivity|]. split; [apply Hlaw|by right].
  - intros lo hi Hlo Hhi Hle Hd. pose proof (IntRange_law lo hi s Hlo Hhi) as Hlaw.
    destruct (IntRange lo hi s) as [[s' i]|]; [exists s', i; split; [done|apply Hlaw]|].
    destruct Hlaw as [|[|Hw]]; [lia..|by destruct Hw].
  - intros n Hn. cbn [Bytes seeded_random]. unfold seeded_Bytes. rewrite (proj2 (Z.ltb_ge n 0)) by done.
    pose proof (seeded_fill_draws (Z.to_nat n) (r s)) as Hf. pose proof (seeded_fill_ok (Z.to_nat n) (r s)) as [Hl _].
    destruct (seeded_fill _ _) as [p b]. simpl in *. subst p. exists b. split; [done|lia].
  - pose proof (Float64_law s) as Hlaw. exists (pcg_Float64 (r s)).2.
    assert (Float64 s = Some (mkSeeded (next (r s)), (pcg_Float64 (r s)).2)) as Hf.
    { cbn [Float64 seeded_random]. unfold seeded_Float64, pcg_Float64. rewrite Uint64_eq. reflexivity. }
    rewrite Hf in Hlaw. split; [done|apply Hlaw].
  - cbn [UUID seeded_random]. unfold seeded_UUID. pose proof (seeded_fill_draws 16 (r s)) as Hf.
    destruct (seeded_fill 16 (r s)) as [p b]. cbn [fst] in Hf. subst p. eexists. reflexivity.
  - intros p q Hp Hq. by apply every_state.
Qed.

(** A bound for which almost a quarter of all draws is rejected. *)
Definition awkward : Z := 2 ^ 62 + 1.

Lemma seeded_terminates_witness :
  exists k i, IntN awkward (NewSeeded 42) = Some (mkSeeded (Nat.iter (S k) next (r (NewSeeded 42))), i) /\ 0 <= i < awkward.
Proof.
  destruct (proj1 (seeded_terminates (NewSeeded 42)) awkward ltac:(by vm_compute)) as (k & i & H & Hi & _). eauto.
Defined.

Example seeded_runs : snd <$> IntN awkward (NewSeeded 42) = Some 2093780825751055884.
Proof. vm_compute. reflexivity. Qed.
