(* ===== verification/Scheduler.v ===== *)
(** [internal/scheduler]: the in-process job scheduler.

    An entry of the job table is a heap object: [Schedule] under a name in use
    replaces the pointer in the table while runs of the old entry go on, so
    entries live in [heap] and the table maps names to positions. [RunDue]
    takes a snapshot of the due entries and then launches them one by one;
    each launch is a goroutine that acquires a permit, runs the function,
    reports, releases, clears the running flag and leaves the wait group.
    [act] interleaves all of these, over any [Limiter]. *)
From S2P Require Import Prelude GoNum Limiter.
Open Scope Z_scope.

Definition idleTimeout : Duration := Minute.

(** The function itself is known only by how its runs end. *)
Record Job := mkJob { Name : string; has_Func : bool; Interval : Duration; At : Time }.

Record entry := mkEntry { spec : Job; nextDue : Time; running : bool }.

Inductive schedule_error := ErrNameRequired | ErrNoFunc | ErrNoSchedule | ErrStopped.

Record sched := mkSched { heap : list entry; jobs : gmap string nat; stopped : bool }.

(** ** The methods *)

(** [Schedule] looks at the job and at [stopped], and only then reads the clock
    and locks the table: other callers may come in between. *)
Definition schedule_check (j : Job) (s : sched) : option schedule_error :=
  if (Name j =? "")%string then Some ErrNameRequired
  else if negb (has_Func j) then Some ErrNoFunc
  else if (Interval j <=? 0) && IsZero (At j) then Some ErrNoSchedule
  else if stopped s then Some ErrStopped
  else None.

Definition schedule_insert (j : Job) (now : Time) (s : sched) : sched :=
  let first := if IsZero (At j) then Add now (Interval j) else At j in
  mkSched (heap s ++ [mkEntry j first false]) (<[Name j := length (heap s)]> (jobs s)) (stopped s).

Definition Schedule (j : Job) (now : Time) (s : sched) : sched * option schedule_error :=
  match schedule_check j s with
  | Some e => (s, Some e)
  | None => (schedule_insert j now s, None)
  end.

Definition Unschedule (name : string) (s : sched) : sched * bool :=
  match jobs s !! name with
  | Some _ => (mkSched (heap s) (delete name (jobs s)) (stopped s), true)
  | None => (s, false)
  end.

Definition Names `{MapIter} (s : sched) : list string := sort_Strings (range (jobs s)).*1.

(** [NextDue]: the loop over the entries of the table. *)
Definition earlier (acc : option Time) (e : entry) : option Time :=
  if IsZero (nextDue e) then acc
  else match acc with
       | None => Some (nextDue e)
       | Some t => if Before (nextDue e) t then Some (nextDue e) else acc
       end.

Definition entries_of `{MapIter} (s : sched) : list entry :=
  omap (fun kv : string * nat => heap s !! kv.2) (range (jobs s)).

Definition NextDue `{MapIter} (s : sched) : option Time := foldl earlier None (entries_of s).

Definition nextSleep `{MapIter} (now : Time) (s : sched) : Duration :=
  match NextDue s with
  | None => idleTimeout
  | Some next =>
    let d := Sub next now in
    if d <=? 0 then Microsecond else if idleTimeout <? d then idleTimeout else d
  end.

(** The snapshot of [RunDue]: pointers to the due entries. *)
Definition is_due (now : Time) (e : entry) : bool :=
  negb (IsZero (nextDue e) || After (nextDue e) now) && negb (running e).

Definition due_now (s : sched) (now : Time) (p : nat) : bool :=
  match heap s !! p with Some e => is_due now e | None => false end.

Definition due `{MapIter} (now : Time) (s : sched) : list nat :=
  filter (fun p => due_now s now p = true) (range (jobs s)).*2.

Definition set_entry (p : nat) (e : entry) (s : sched) : sched :=
  mkSched (<[p := e]> (heap s)) (jobs s) (stopped s).

(** [advanceNext] *)
Definition advanced (e : entry) (runStart : Time) : Time :=
  if 0 <? Interval (spec e) then Add runStart (Interval (spec e)) else zeroTime.

(** One round of the loop of [RunDue]: [None] if the entry is running. *)
Definition launch (now : Time) (p : nat) (s : sched) : option sched :=
  e ← heap s !! p;
  if running e then None
  else Some (set_entry p (mkEntry (spec e) (advanced e now) true) s).

(** [RunDue] of a caller that meets no other: the launches it makes. *)
Fixpoint launch_all (now : Time) (ps : list nat) (s : sched) : sched * Z :=
  match ps with
  | [] => (s, 0)
  | p :: ps =>
    match launch now p s with
    | Some s => let '(s, n) := launch_all now ps s in (s, n + 1)
    | None => launch_all now ps s
    end
  end.

Definition RunDue `{MapIter} (now : Time) (s : sched) : sched * Z := launch_all now (due now s) s.

Definition Stop (s : sched) : sched := mkSched (heap s) (jobs s) true.

(** ** The options of [New]

    A limiter, a callback or a logger may be nil. What the runs report is a
    list in the systems below; [report] hands each to the callback, if any. *)

Section options.
Context {L U G : Type}.

Inductive handler := Callback (fn : U) | LogTo (lg : G).
Record config := mkConfig { c_lim : option L; c_onError : option handler }.

Definition WithConcurrencyLimit (l : option L) (c : config) : config := mkConfig l (c_onError c).

Definition WithOnError (fn : option U) (c : config) : config := mkConfig (c_lim c) (Callback <$> fn).

Definition WithLogger (lg : option G) (c : config) : config :=
  match c_onError c, lg with
  | None, Some lg => mkConfig (c_lim c) (Some (LogTo lg))
  | _, _ => c
  end.

Definition New (opts : list (config -> config)) : config :=
  foldl (fun c opt => opt c) (mkConfig None None) opts.

Definition report_error {R} (c : config) (name : string) (err : R) : option (handler * string * R) :=
  h ← c_onError c; Some (h, name, err).

Definition sets_no_callback (opt : config -> config) : Prop :=
  (exists l, opt = WithConcurrencyLimit l) \/ (exists lg, opt = WithLogger lg).

(** [WithOnError] takes precedence over [WithLogger], before or after it. *)
Lemma WithOnError_precedence f pre post :
  Forall sets_no_callback post -> c_onError (New (pre ++ [WithOnError (Some f)] ++ post)) = Some (Callback f).
Proof.
  intros Hpost. unfold New. rewrite !foldl_app. cbn [foldl].
  set (c := WithOnError _ _). assert (c_onError c = Some (Callback f)) as Hc by done. clearbody c.
  revert c Hc. induction Hpost as [|o post [[l ->]|[lg ->]] _ IH]; intros c Hc; simpl; [done|by apply IH..|].
  apply IH. unfold WithLogger. by rewrite Hc.
Qed.
End options.

(** ** What [RunDue] finds due *)

Record table_ok (s : sched) : Prop := {
  t_named : forall name p, jobs s !! name = Some p -> exists e, heap s !! p = Some e /\ Name (spec e) = name;
  t_kept : forall p e, heap s !! p = Some e -> Name (spec e) <> "" }.

Lemma schedule_check_named j s : schedule_check j s = None -> Name j <> "".
Proof. unfold schedule_check. by destruct (String.eqb_spec (Name j) ""). Qed.

Lemma schedule_insert_table j now s : Name j <> "" -> table_ok s -> table_ok (schedule_insert j now s).
Proof.
  intros Hne [Hn Hk]. split; simpl.
  - intros name p [[<- <-]|[Hne' Hp]]%lookup_insert_Some.
    + eexists. split; [by apply list_lookup_middle|done].
    + destruct (Hn _ _ Hp) as (e & He & Hname). exists e. split; [by apply lookup_app_l_Some|done].
  - intros p e [[_ Hp]|[-> <-]]%lookup_snoc_Some; [by eapply Hk|done].
Qed.

Lemma Schedule_table j now s : table_ok s -> table_ok (Schedule j now s).1.
Proof.
  intros Hs. unfold Schedule. destruct (schedule_check j s) eqn:Hc; [done|].
  apply schedule_insert_table; [by eapply schedule_check_named|done].
Qed.

Lemma Unschedule_table name s : table_ok s -> table_ok (Unschedule name s).1.
Proof.
  intros Hs. unfold Unschedule. destruct (jobs s !! name); [|done]. destruct Hs as [Hn Hk]. split; simpl; [|done].
  intros name' q [_ Hq]%lookup_delete_Some. by apply Hn.
Qed.

Lemma is_due_spec now e :
  is_due now e = true <-> nextDue e <> 0 /\ nextDue e <= now /\ running e = false.
Proof.
  unfold is_due, IsZero, After. destruct (Z.eqb_spec (nextDue e) 0), (Z.ltb_spec now (nextDue e)), (running e);
    simpl; split; intros; try done; naive_solver lia.
Qed.

Lemma due_spec `{MapIter} now s p :
  p ∈ due now s <-> (exists name, jobs s !! name = Some p) /\ exists e, heap s !! p = Some e /\ is_due now e = true.
Proof.
  unfold due, due_now. rewrite list_elem_of_filter, list_elem_of_fmap. split.
  - intros [Hd ([name q] & -> & Hin%elem_of_range)]. simpl in *. split; [eauto|]. destruct (heap s !! q); naive_solver.
  - intros [[name Hn] (e & He & Hd)]. rewrite He. split; [done|]. exists (name, p). by rewrite elem_of_range.
Qed.

Lemma due_NoDup `{MapIter} now s : table_ok s -> NoDup (due now s).
Proof.
  intros [Hn _]. unfold due. apply NoDup_filter. rewrite range_perm.
  apply NoDup_fmap_2_strong; [|apply NoDup_map_to_list].
  intros [n1 p1] [n2 p2] H1%elem_of_map_to_list H2%elem_of_map_to_list Hp. simpl in Hp. subst p2. f_equal.
  destruct (Hn _ _ H1) as (e1 & He1 & <-), (Hn _ _ H2) as (e2 & He2 & <-). by simplify_eq.
Qed.

(** ** Any number of callers and runs *)

Section interleavings.
Context {L error : Type} `{Limiter L} `{MapIter}.

(** How a run of a function ends; a panic is recovered into an error. *)
Inductive run_end := RReturned (e : option error) | RPanicked (v : string).
Inductive report := RepAcquire (e : ctx_err) | RepErr (e : error) | RepPanic (v : string).

Inductive rpc :=
| RAcquire        (* before [Acquire], or blocked in it *)
| RFunc           (* in the job function *)
| RRelease        (* the deferred [Release] *)
| RClear          (* the deferred [running.Store(false)] *)
| RLeave          (* the deferred [wg.Done] *)
| ROver.

Record run := mkRun { r_entry : nat; at_rpc : rpc }.

Record sys := mkSys {
  sch : sched;
  lim : option L; ext : Z;                    (* the limiter, and permits others hold *)
  rundues : list (Time * list nat);           (* the calls of [RunDue] in progress *)
  runs : list run; wg : Z;
  launches : list (nat * Time);               (* what was launched, and when *)
  reports : list (string * report);
  panicked : bool;
  checked : list Job }.                       (* calls of [Schedule] before their change *)

Inductive action :=
| ACheck (j : Job) | AInsert (k : nat) (now : Time) | AUnschedule (name : string) | AStop
| ASnapshot (now : Time)                      (* [RunDue] begins *)
| ALaunch (k : nat)                           (* call [k] of [RunDue] goes round its loop *)
| AAcquire (i : nat) | ARefuse (i : nat) (e : ctx_err)
| AEnd (i : nat) (r : run_end)
| ARelease (i : nat) | AClear (i : nat) | ALeave (i : nat)
| AExtTake | AExtGive.

Definition with_sched (s : sched) (y : sys) : sys :=
  mkSys s (lim y) (ext y) (rundues y) (runs y) (wg y) (launches y) (reports y) (panicked y) (checked y).

Definition with_checked (l : list Job) (y : sys) : sys :=
  mkSys (sch y) (lim y) (ext y) (rundues y) (runs y) (wg y) (launches y) (reports y) (panicked y) l.

Definition set_run (i : nat) (p : nat) (c : rpc) (l : option L) (reps : list (string * report)) (y : sys) : sys :=
  mkSys (sch y) l (ext y) (rundues y) (<[i := mkRun p c]> (runs y)) (wg y) (launches y) (reports y ++ reps) (panicked y) (checked y).

Definition name_of (y : sys) (p : nat) : string :=
  match heap (sch y) !! p with Some e => Name (spec e) | None => "" end.

Definition report_of (y : sys) (p : nat) (r : run_end) : list (string * report) :=
  match r with
  | RReturned None => []
  | RReturned (Some e) => [(name_of y p, RepErr e)]
  | RPanicked v => [(name_of y p, RepPanic v)]
  end.

Definition act (a : action) (y : sys) : option sys :=
  let s := sch y in
  match a with
  | ACheck j => Some (match schedule_check j s with Some _ => y | None => with_checked (checked y ++ [j]) y end)
  | AInsert k now =>
    j ← checked y !! k;
    Some (with_checked (delete k (checked y)) (with_sched (schedule_insert j now s) y))
  | AUnschedule name => Some (with_sched (Unschedule name s).1 y)
  | AStop => Some (with_sched (Stop s) y)
  | ASnapshot now =>
    Some (mkSys s (lim y) (ext y) (rundues y ++ [(now, due now s)]) (runs y) (wg y) (launches y) (reports y) (panicked y) (checked y))
  | ALaunch k =>
    match rundues y !! k with
    | Some (now, p :: ps) =>
      let rd := <[k := (now, ps)]> (rundues y) in
      match launch now p s with
      | Some s' =>
        Some (mkSys s' (lim y) (ext y) rd (runs y ++ [mkRun p RAcquire]) (wg y + 1)
                (launches y ++ [(p, now)]) (reports y) (panicked y) (checked y))
      | None => Some (mkSys s (lim y) (ext y) rd (runs y) (wg y) (launches y) (reports y) (panicked y) (checked y))
      end
    | _ => None
    end
  | AAcquire i =>
    match runs y !! i with
    | Some (mkRun p RAcquire) =>
      match lim y with
      | None => Some (set_run i p RFunc None [] y)
      | Some l => let '(l', ok) := TryAcquire l in
        if ok : bool then Some (set_run i p RFunc (Some l') [] y) else None
      end
    | _ => None
    end
  | ARefuse i e =>
    match runs y !! i, lim y with
    | Some (mkRun p RAcquire), Some l => Some (set_run i p RClear (Some l) [(name_of y p, RepAcquire e)] y)
    | _, _ => None
    end
  | AEnd i r =>
    match runs y !! i with
    | Some (mkRun p RFunc) =>
      Some (set_run i p (match lim y with Some _ => RRelease | None => RClear end) (lim y) (report_of y p r) y)
    | _ => None
    end
  | ARelease i =>
    match runs y !! i, lim y with
    | Some (mkRun p RRelease), Some l =>
      match Release l with
      | Some l' => Some (set_run i p RClear (Some l') [] y)
      | None => Some (mkSys s (lim y) (ext y) (rundues y) (<[i := mkRun p RClear]> (runs y)) (wg y)
                        (launches y) (reports y) true (checked y))
      end
    | _, _ => None
    end
  | AClear i =>
    match runs y !! i with
    | Some (mkRun p RClear) =>
      e ← heap s !! p;
      Some (mkSys (set_entry p (mkEntry (spec e) (nextDue e) false) s) (lim y) (ext y) (rundues y)
              (<[i := mkRun p RLeave]> (runs y)) (wg y) (launches y) (reports y) (panicked y) (checked y))
    | _ => None
    end
  | ALeave i =>
    match runs y !! i with
    | Some (mkRun p RLeave) =>
      Some (mkSys s (lim y) (ext y) (rundues y) (<[i := mkRun p ROver]> (runs y)) (wg y - 1)
              (launches y) (reports y) (panicked y) (checked y))
    | _ => None
    end
  | AExtTake =>
    match lim y with
    | Some l => let '(l', ok) := TryAcquire l in
      if ok : bool then Some (mkSys s (Some l') (ext y + 1) (rundues y) (runs y) (wg y) (launches y) (reports y) (panicked y) (checked y))
      else None
    | None => None
    end
  | AExtGive =>
    match lim y with
    | Some l =>
      if 0 <? ext y then
        l' ← Release l;
        Some (mkSys s (Some l') (ext y - 1) (rundues y) (runs y) (wg y) (launches y) (reports y) (panicked y) (checked y))
      else None
    | None => None
    end
  end.

Fixpoint acts (l : list action) (y : sys) : option sys :=
  match l with
  | [] => Some y
  | a :: l => y ← act a y; acts l y
  end.

Definition start (l : option L) (held : Z) : sys :=
  mkSys (mkSched [] ∅ false) l held [] [] 0 [] [] false [].

(** ** What holds of every interleaving *)

Definition active (p : nat) (r : run) : bool :=
  bool_decide (r_entry r = p) && match at_rpc r with RAcquire | RFunc | RRelease | RClear => true | _ => false end.
Definition holds (r : run) : bool := match at_rpc r with RFunc | RRelease => true | _ => false end.
Definition counted (r : run) : bool := match at_rpc r with ROver => false | _ => true end.

(** The running flag of an entry counts its runs: there is at most one. *)
Definition flags_ok (h : list entry) (rs : list run) : Prop :=
  forall p e, h !! p = Some e -> b2z (running e) = tally (active p) rs.

Record sched_inv (y : sys) : Prop := {
  s_flags : flags_ok (heap (sch y)) (runs y);
  s_entries : Forall (fun r => (r_entry r < length (heap (sch y)))%nat) (runs y);
  s_wg : wg y = tally counted (runs y);
  s_permits : permits_ok (lim y) (ext y) (tally holds (runs y));
  s_ext : 0 <= ext y;
  s_table : table_ok (sch y);
  s_launched : map r_entry (runs y) = (launches y).*1;
  s_release : lim y = None -> Forall (fun r => at_rpc r <> RRelease) (runs y);
  s_panic : panicked y = false;
  s_checked : Forall (fun j => Name j <> "") (checked y) }.

Lemma active_none p rs : Forall (fun r => r_entry r <> p) rs -> tally (active p) rs = 0.
Proof.
  intros Hr. apply tally_none. intros r Hin. rewrite Forall_forall in Hr. unfold active.
  by rewrite bool_decide_false by auto.
Qed.

Lemma permits_eq (l : option L) x n n' : permits_ok l x n -> n = n' -> permits_ok l x n'.
Proof. by intros ? <-. Qed.

Lemma runs_entry i p c c' rs :
  rs !! i = Some (mkRun p c) -> map r_entry (<[i := mkRun p c']> rs) = map r_entry rs.
Proof.
  intros Hi. rewrite <- (list_insert_id (map r_entry rs) i p) by (by rewrite list_lookup_fmap, Hi).
  exact (list_fmap_insert r_entry rs i _).
Qed.

(** A run moves on, the table and the flags unchanged. *)
Lemma sched_move y i p c c' l' reps :
  sched_inv y -> runs y !! i = Some (mkRun p c) ->
  active p (mkRun p c') = active p (mkRun p c) -> counted (mkRun p c') = counted (mkRun p c) ->
  permits_ok l' (ext y) (tally holds (runs y) - b2z (holds (mkRun p c)) + b2z (holds (mkRun p c'))) ->
  (l' = None -> lim y = None /\ c' <> RRelease) ->
  sched_inv (set_run i p c' l' reps y).
Proof.
  intros [] Hi Ha Hc Hp Hnone. split; simpl; try done.
  - intros q e Hq. rewrite (tally_insert _ _ _ _ _ Hi), (s_flags0 q e Hq).
    unfold active in *. simpl in *. destruct (decide (p = q)) as [->|Hne].
    + rewrite Ha. lia.
    + rewrite bool_decide_false by done. simpl. lia.
  - apply Forall_insert; [done|]. rewrite Forall_lookup in s_entries0. exact (s_entries0 _ _ Hi).
  - rewrite (tally_insert _ _ _ _ _ Hi), Hc, s_wg0. lia.
  - by rewrite (tally_insert _ _ _ _ _ Hi).
  - by rewrite (runs_entry _ _ _ _ _ Hi).
  - intros Hl. destruct (Hnone Hl). by apply Forall_insert; auto.
Qed.

(** The table alone changes. *)
Lemma sched_table y s' :
  sched_inv y -> flags_ok (heap s') (runs y) -> (length (heap (sch y)) <= length (heap s'))%nat ->
  table_ok s' -> sched_inv (with_sched s' y).
Proof.
  intros [] Hf Hl Ht. split; simpl; try done. eapply Forall_impl; [exact s_entries0|]. simpl. lia.
Qed.

Lemma schedule_insert_inv j now y :
  Name j <> "" -> sched_inv y -> sched_inv (with_sched (schedule_insert j now (sch y)) y).
Proof.
  intros Hne Hy. pose proof Hy as []. apply sched_table; [done| | |]; simpl.
  - intros p e [[_ Hp]|[-> <-]]%lookup_snoc_Some; [by apply s_flags0|]. simpl.
    rewrite active_none; [done|]. eapply Forall_impl; [exact s_entries0|]. simpl. lia.
  - rewrite length_app. lia.
  - by apply schedule_insert_table.
Qed.

Lemma checked_inv l y : Forall (fun j => Name j <> "") l -> sched_inv y -> sched_inv (with_checked l y).
Proof. intros ? []. by split. Qed.

Lemma Unschedule_inv name y : sched_inv y -> sched_inv (with_sched (Unschedule name (sch y)).1 y).
Proof.
  intros Hy. pose proof Hy as []. pose proof (Unschedule_table name _ s_table0) as Ht. revert Ht.
  unfold Unschedule. destruct (jobs (sch y) !! name); [|by destruct y]. simpl. intros Ht. by apply sched_table.
Qed.

Lemma set_entry_table p e0 e s :
  heap s !! p = Some e0 -> spec e = spec e0 -> table_ok s -> table_ok (set_entry p e s).
Proof.
  intros Hp Hs [Hn Hk]. pose proof (lookup_lt_Some _ _ _ Hp). split; simpl.
  - intros name q Hq. destruct (Hn _ _ Hq) as (e' & He' & Hname). destruct (decide (p = q)) as [->|Hne].
    + exists e. rewrite list_lookup_insert_eq by done. split; [done|]. simplify_eq. by rewrite Hs.
    + exists e'. by rewrite list_lookup_insert_ne.
  - intros q e' [(<- & <- & _)|[Hne Hq]]%list_lookup_insert_Some; [|by eapply Hk].
    rewrite Hs. by eapply Hk.
Qed.

Lemma launch_inv now p s' y rd :
  sched_inv y -> launch now p (sch y) = Some s' ->
  sched_inv (mkSys s' (lim y) (ext y) rd (runs y ++ [mkRun p RAcquire]) (wg y + 1)
               (launches y ++ [(p, now)]) (reports y) (panicked y) (checked y)).
Proof.
  intros [] Hl. unfold launch in Hl. destruct (heap (sch y) !! p) as [e|] eqn:Hp; simplify_eq/=.
  destruct (running e) eqn:Hr; simplify_eq. split; simpl; rewrite ?length_insert; try done.
  - intros q e'. rewrite tally_snoc. intros [(<- & <- & _)|[Hne Hq]]%list_lookup_insert_Some.
    + specialize (s_flags0 p e Hp). rewrite Hr in s_flags0. simpl in s_flags0. rewrite <- s_flags0.
      unfold active. by rewrite bool_decide_true.
    + rewrite (s_flags0 q e' Hq). unfold active. simpl. rewrite bool_decide_false by done. simpl. lia.
  - apply Forall_app_2; [done|]. constructor; [|constructor]. simpl. by eapply lookup_lt_Some.
  - rewrite tally_snoc. simpl. lia.
  - rewrite tally_snoc. simpl. by rewrite Z.add_0_r.
  - by eapply set_entry_table.
  - by rewrite map_app, s_launched0, fmap_app.
  - intros Hn. apply Forall_app_2; [by apply s_release0|]. by constructor.
Qed.

(** The deferred [running = false] of a run, under the mutex. *)
Lemma sched_clear y i p e : sched_inv y -> runs y !! i = Some (mkRun p RClear) -> heap (sch y) !! p = Some e ->
  sched_inv (mkSys (set_entry p (mkEntry (spec e) (nextDue e) false) (sch y)) (lim y) (ext y) (rundues y)
    (<[i := mkRun p RLeave]> (runs y)) (wg y) (launches y) (reports y) (panicked y) (checked y)).
Proof.
  intros [Hf He Hw Hp Hx Ht Hl Hrel Hpan Hcheck] Hi Hh.
  split; simpl; rewrite ?length_insert, ?(tally_insert _ _ _ _ _ Hi); try done; simpl; try lia.
  - intros q e'. rewrite (tally_insert _ _ _ _ _ Hi). unfold active at 2 3. simpl.
    intros [(<- & <- & _)|[Hne Hq]]%list_lookup_insert_Some.
    + specialize (Hf p e Hh). assert (1 <= tally (active p) (runs y)).
      { eapply tally_pos; [exact Hi|]. unfold active. simpl. by rewrite bool_decide_true. }
      rewrite bool_decide_true by done. destruct (running e); simpl in *; lia.
    + rewrite (Hf q e' Hq), !bool_decide_false by done. simpl. lia.
  - apply Forall_insert; [done|]. rewrite Forall_lookup in He. exact (He _ _ Hi).
  - eapply permits_eq; [exact Hp|simpl; lia].
  - by eapply set_entry_table.
  - by rewrite (runs_entry _ _ _ _ _ Hi).
  - intros Hn. apply Forall_insert; [by apply Hrel|done].
Qed.

(** The deferred [Done] of a run. *)
Lemma sched_leave y i p : sched_inv y -> runs y !! i = Some (mkRun p RLeave) ->
  sched_inv (mkSys (sch y) (lim y) (ext y) (rundues y) (<[i := mkRun p ROver]> (runs y)) (wg y - 1)
    (launches y) (reports y) (panicked y) (checked y)).
Proof.
  intros [Hf He Hw Hp Hx Ht Hl Hrel Hpan Hcheck] Hi.
  split; simpl; rewrite ?(tally_insert _ _ _ _ _ Hi); try done; simpl; try lia.
  - intros q e' Hq. rewrite (tally_insert _ _ _ _ _ Hi), (Hf q e' Hq). unfold active at 3 4. simpl.
    rewrite !andb_false_r. simpl. lia.
  - apply Forall_insert; [done|]. rewrite Forall_lookup in He. exact (He _ _ Hi).
  - eapply permits_eq; [exact Hp|simpl; lia].
  - by rewrite (runs_entry _ _ _ _ _ Hi).
  - intros Hn. apply Forall_insert; [by apply Hrel|done].
Qed.

Lemma act_sched a y y' : act a y = Some y' -> sched_inv y -> sched_inv y'.
Proof.
  intros Ha Hy. pose proof Hy as [Hf He Hw Hp Hx Ht Hl Hrel Hpan Hcheck].
  destruct a as [j|k now|name| |now|k|i|i e|i r|i|i|i| |]; simpl in Ha.
  - destruct (schedule_check j (sch y)) eqn:Hc; simplify_eq; [done|]. apply checked_inv; [|done].
    apply Forall_app_2; [done|]. constructor; [by eapply schedule_check_named|constructor].
  - destruct (checked y !! k) as [j|] eqn:Hk; simplify_eq/=. apply checked_inv; [by apply Forall_delete|].
    apply schedule_insert_inv; [|done]. exact (Forall_lookup_1 _ _ _ _ Hcheck Hk).
  - simplify_eq. by apply Unschedule_inv.
  - simplify_eq. by apply sched_table; destruct Ht.
  - simplify_eq. by split.
  - destruct (rundues y !! k) as [[now [|p ps]]|] eqn:Hk; try done.
    destruct (launch now p (sch y)) as [s'|] eqn:Hlaunch; simplify_eq; [by apply launch_inv|by split].
  - destruct (runs y !! i) as [[p []]|] eqn:Hi; try done. destruct (lim y) as [l|] eqn:Hlim.
    + destruct (TryAcquire l) as [l' []] eqn:Htry; simplify_eq.
      apply (sched_move _ _ _ _ _ _ _ Hy Hi); try done. rewrite Z.sub_0_r.
      apply (permits_taken _ _ _ _ Hp Htry).
    + simplify_eq. by apply (sched_move _ _ _ _ _ _ _ Hy Hi).
  - destruct (runs y !! i) as [[p []]|] eqn:Hi; try done. destruct (lim y) as [l|] eqn:Hlim; simplify_eq.
    apply (sched_move _ _ _ _ _ _ _ Hy Hi); try done. eapply permits_eq; [exact Hp|simpl; lia].
  - destruct (runs y !! i) as [[p []]|] eqn:Hi; simplify_eq.
    apply (sched_move _ _ _ _ _ _ _ Hy Hi); destruct (lim y) as [l|]; try done. simpl. by rewrite Z.sub_simpl_r.
  - destruct (runs y !! i) as [[p []]|] eqn:Hi; try done. destruct (lim y) as [l|] eqn:Hlim; [|done].
    pose proof (tally_pos holds _ _ _ Hi eq_refl).
    destruct (permits_given l _ _ Hp ltac:(lia)) as (l' & Hr & Hp' & _). rewrite Hr in Ha. simplify_eq.
    apply (sched_move _ _ _ _ _ _ _ Hy Hi); try done. simpl. by rewrite Z.add_0_r.
  - destruct (runs y !! i) as [[p []]|] eqn:Hi; try done. destruct (heap (sch y) !! p) as [e|] eqn:Hh; simplify_eq/=.
    by apply sched_clear.
  - destruct (runs y !! i) as [[p []]|] eqn:Hi; simplify_eq. by apply sched_leave.
  - destruct (lim y) as [l|] eqn:Hlim; [|done]. destruct (TryAcquire l) as [l' []] eqn:Htry; simplify_eq.
    split; simpl; try done; [|lia]. apply (permits_taken _ _ _ _ Hp Htry).
  - destruct (lim y) as [l|] eqn:Hlim; [|done]. destruct (Z.ltb_spec 0 (ext y)); [|done].
    assert (0 <= tally holds (runs y)) by apply tally_nonneg.
    destruct (permits_given l _ _ Hp ltac:(lia)) as (l' & Hr & _ & Hp'). rewrite Hr in Ha. simplify_eq/=.
    split; simpl; try done. lia.
Qed.

Lemma acts_sched l y y' : acts l y = Some y' -> sched_inv y -> sched_inv y'.
Proof.
  revert y. induction l as [|a l IH]; intros y Hl Hy; simplify_eq/=; [done|].
  destruct (act a y) as [y1|] eqn:Ha; simplify_eq/=. eauto using act_sched.
Qed.

(** The capacity of the limiter stays. *)
Lemma sched_capacity a y y' : act a y = Some y' -> sched_inv y -> Capacity <$> lim y' = Capacity <$> lim y.
Proof.
  intros Ha []. assert (forall l l' b, lim y = Some l -> TryAcquire l = (l', b) -> Capacity l' = Capacity l) as Htake.
  { intros l l' b Hl Ht. rewrite Hl in s_permits0. pose proof (TryAcquire_spec l (proj1 s_permits0)) as Hs.
    rewrite Ht in Hs. apply Hs. }
  assert (forall l l', lim y = Some l -> Release l = Some l' -> Capacity l' = Capacity l) as Hgive.
  { intros l l' Hl Ht. rewrite Hl in s_permits0. pose proof (Release_spec l (proj1 s_permits0)) as Hs.
    rewrite Ht in Hs. apply Hs. }
  destruct a; simpl in Ha; repeat case_match; simplify_eq/=; try done; try (f_equal; eauto; done).
  - destruct (checked y !! _); by simplify_eq/=.
  - destruct (heap (sch y) !! _); by simplify_eq/=.
  - destruct (Release _) eqn:Hr; simplify_eq/=. f_equal. eauto.
Qed.

Lemma scheds_capacity l y y' : acts l y = Some y' -> sched_inv y -> Capacity <$> lim y' = Capacity <$> lim y.
Proof.
  revert y. induction l as [|a l IH]; intros y Hl Hy; simplify_eq/=; [done|].
  destruct (act a y) as [y1|] eqn:Ha; simplify_eq/=. rewrite <- (sched_capacity _ _ _ Ha Hy). eauto using act_sched.
Qed.

Lemma sched_start l held : 0 <= held -> permits_ok l held 0 -> sched_inv (start l held).
Proof. intros. split; simpl; try done; split; simpl; intros; by simplify_map_eq. Qed.

(** What is left to do for a run. *)
Definition steps_left (r : run) : Z :=
  match at_rpc r with RAcquire => 5 | RFunc => 4 | RRelease => 3 | RClear => 2 | RLeave => 1 | ROver => 0 end.

Definition run_action (a : action) : option nat :=
  match a with
  | AAcquire i | ARefuse i _ | AEnd i _ | ARelease i | AClear i | ALeave i => Some i
  | _ => None
  end.

(** Every step of a run is one less to take. *)
Lemma run_action_step a i y y' : act a y = Some y' -> run_action a = Some i ->
  exists r r', runs y !! i = Some r /\ runs y' = <[i := r']> (runs y) /\
    r_entry r' = r_entry r /\ (steps_left r' <? steps_left r) = true.
Proof.
  intros Ha Hi. destruct a; simplify_eq/=; destruct (runs y !! i) as [[p []]|] eqn:Hr; try done;
    try destruct (heap (sch y) !! p); go_cases; (eexists; eexists; split_and!; reflexivity).
Qed.

(** A run that is not over can move, unless all permits are out. *)
Lemma run_enabled i r y : sched_inv y -> runs y !! i = Some r -> at_rpc r <> ROver ->
  (at_rpc r = RAcquire -> forall l, lim y = Some l -> InFlight l < Capacity l) ->
  exists a y', run_action a = Some i /\ act a y = Some y'.
Proof.
  intros Hy Hi Hover Hfree. pose proof Hy as []. destruct r as [p []]; simpl in *; try done.
  - exists (AAcquire i). simpl. rewrite Hi. destruct (lim y) as [l|] eqn:Hl; [|by eauto].
    pose proof (TryAcquire_spec l) as Ht. destruct (TryAcquire l) as [l' []]; [by eauto|].
    specialize (Hfree eq_refl l eq_refl). destruct s_permits0 as [Hok _]. destruct (Ht Hok) as (_ & _ & _ & ?). lia.
  - exists (AEnd i (RReturned None)). simpl. rewrite Hi. eauto.
  - exists (ARelease i). simpl. rewrite Hi.
    destruct (lim y) as [l|] eqn:Hl; [|by destruct (Forall_lookup_1 _ _ _ _ (s_release0 eq_refl) Hi)].
    pose proof (tally_pos holds _ _ _ Hi eq_refl).
    destruct (permits_given l _ _ s_permits0 ltac:(lia)) as (l' & -> & _). eauto.
  - exists (AClear i). simpl. rewrite Hi.
    destruct (lookup_lt_is_Some_2 (heap (sch y)) p) as [e He]; [|rewrite He; simpl; eauto].
    rewrite Forall_lookup in s_entries0. exact (s_entries0 _ _ Hi).
  - exists (ALeave i). simpl. rewrite Hi. eauto.
Qed.

Lemma run_action_rank a i y y' : act a y = Some y' -> run_action a = Some i ->
  total steps_left (runs y') < total steps_left (runs y).
Proof.
  intros Ha Hi. destruct (run_action_step _ _ _ _ Ha Hi) as (r & r' & Hr & -> & _ & Hlt%Z.ltb_lt).
  rewrite (total_insert _ _ _ _ _ Hr). lia.
Qed.

Lemma runs_progress y : sched_inv y -> 0 < wg y ->
  (forall l, lim y = Some l -> ext y < Capacity l) ->
  exists a i y', run_action a = Some i /\ act a y = Some y'.
Proof.
  intros Hy Hw Hfree. pose proof Hy as []. set (busy r := match at_rpc r with RAcquire | ROver => false | _ => true end).
  assert (forall i r, runs y !! i = Some r -> at_rpc r <> ROver ->
    (at_rpc r = RAcquire -> forall l, lim y = Some l -> InFlight l < Capacity l) ->
    exists a i y', run_action a = Some i /\ act a y = Some y') as Hgo.
  { intros i r Hi Ho Hf. destruct (run_enabled i r y Hy Hi Ho Hf) as (a & y' & ? & ?). eauto. }
  destruct (decide (Forall (fun r => busy r = false) (runs y))) as [Hall|Hbusy].
  - rewrite Forall_lookup in Hall. assert (tally holds (runs y) = 0) as Hz.
    { apply tally_none. intros r [i Hi]%list_elem_of_lookup. specialize (Hall i r Hi).
      destruct r as [p []]; done. }
    destruct (decide (Forall (fun r => counted r = false) (runs y))) as [Hov|Hov].
    + rewrite (tally_none counted) in s_wg0; [lia|]. by apply Forall_forall.
    + apply not_Forall_Exists in Hov; [|apply _]. apply Exists_exists in Hov as (r & [i Hi]%list_elem_of_lookup & Hr).
      apply (Hgo i r Hi); [by intros Ho; apply Hr; unfold counted; rewrite Ho|]. intros _ l Hl. rewrite Hl in *.
      destruct s_permits0 as [_ ->]. specialize (Hfree l eq_refl). lia.
  - apply not_Forall_Exists in Hbusy; [|apply _].
    apply Exists_exists in Hbusy as (r & [i Hi]%list_elem_of_lookup & Hr).
    apply (Hgo i r Hi); intros Ho; destruct Hr; unfold busy; by rewrite Ho.
Qed.

(** C23. Whatever the order in which any number of callers schedule,
    unschedule, stop and run due jobs, launched runs take their steps, and
    others use the limiter: an entry's running flag is set exactly while a run
    of it is in progress, and never two are (the non-overlap guard); the wait
    group counts the runs in flight, so a wait on it ends exactly when the
    last one is over; runs in a job function never exceed the permits the
    limiter has left, and a release of a permit never panics; and runs end:
    while one is in flight some run has a step to take, unless the others
    hold every permit, and each step brings the end nearer. *)
Theorem scheduler_interleavings l held as_ y :
  0 <= held -> permits_ok l held 0 -> acts as_ (start l held) = Some y ->
  (forall p e, heap (sch y) !! p = Some e ->
     running e = true <-> exists i r, runs y !! i = Some r /\ active p r = true) /\
  (forall p i j r r', runs y !! i = Some r -> runs y !! j = Some r' ->
     active p r = true -> active p r' = true -> i = j) /\
  (wg y = tally counted (runs y) /\ (wg y = 0 <-> Forall (fun r => at_rpc r = ROver) (runs y))) /\
  (forall c, Capacity <$> l = Some c -> ext y + tally holds (runs y) <= c) /\
  panicked y = false /\
  (0 < wg y -> (forall c, Capacity <$> l = Some c -> ext y < c) ->
     exists a i y', run_action a = Some i /\ act a y = Some y') /\
  (forall a i y', act a y = Some y' -> run_action a = Some i ->
     total steps_left (runs y') < total steps_left (runs y)).
Proof.
  intros Hheld Hl Hacts. pose proof (acts_sched _ _ _ Hacts (sched_start _ _ Hheld Hl)) as Hy. pose proof Hy as [].
  pose proof (scheds_capacity _ _ _ Hacts (sched_start _ _ Hheld Hl)) as Hcap. simpl in Hcap.
  assert (forall p i r, runs y !! i = Some r -> active p r = true -> exists e, heap (sch y) !! p = Some e) as Hin.
  { intros p i r Hi [<-%bool_decide_eq_true _]%andb_true_iff. apply lookup_lt_is_Some_2.
    exact (Forall_lookup_1 _ _ _ _ s_entries0 Hi). }
  split_and!.
  - intros p e He. symmetry. exact (b2z_pos_tally _ _ _ (s_flags0 p e He)).
  - intros p i j r r' Hi Hj Hr Hr'. destruct (decide (i = j)) as [|Hne]; [done|].
    destruct (Hin p i r Hi Hr) as [e He]. pose proof (tally_two _ _ _ _ _ _ Hi Hj Hne Hr Hr').
    specialize (s_flags0 p e He). destruct (running e); simpl in *; lia.
  - done.
  - rewrite s_wg0. split.
    + intros Hz. apply Forall_lookup. intros i r Hi. destruct (counted r) eqn:Hc; [|by destruct r as [p []]].
      pose proof (tally_pos _ _ _ _ Hi Hc). lia.
    + intros Hall. apply tally_none. intros r Hr. rewrite Forall_forall in Hall. unfold counted. by rewrite Hall.
  - intros c Hc. rewrite <- Hcap in Hc. destruct (lim y); simplify_eq/=. exact (permits_bound _ _ _ s_permits0).
  - done.
  - intros Hw Hfree. apply runs_progress; [done|done|]. intros l' Hl'. apply Hfree. by rewrite <- Hcap, Hl'.
  - intros a i y' Ha Hi. by eapply run_action_rank.
Qed.

(** ** One [RunDue] at a time, as [Start] makes them *)

Definition quiet (y : sys) : bool := forallb (fun rd => match rd.2 with [] => true | _ => false end) (rundues y).

Fixpoint serial_acts (l : list action) (y : sys) : option sys :=
  match l with
  | [] => Some y
  | a :: l =>
    if match a with ASnapshot _ => quiet y | _ => true end then y ← act a y; serial_acts l y else None
  end.

(** What the due time of an entry says of its launches, past and pending. *)
Record paced (h : list entry) (rds : list (Time * list nat)) (ls : list (nat * Time)) : Prop := {
  p_known : forall p t, (p, t) ∈ ls -> (p < length h)%nat;
  p_next : forall p t e, (p, t) ∈ ls -> h !! p = Some e -> nextDue e <> 0 ->
    0 < Interval (spec e) /\ t + Interval (spec e) <= nextDue e;
  p_at : forall p e, h !! p = Some e -> nextDue e <> 0 -> At (spec e) <> 0 -> At (spec e) <= nextDue e;
  p_pending : forall k now ps p, rds !! k = Some (now, ps) -> p ∈ ps ->
    exists e, h !! p = Some e /\ nextDue e <> 0 /\ nextDue e <= now;
  p_one : forall k k' now now' ps ps' p p', rds !! k = Some (now, p :: ps) ->
    rds !! k' = Some (now', p' :: ps') -> k = k' /\ NoDup (p :: ps);
  p_spaced : forall i j p ti tj e, (i < j)%nat -> ls !! i = Some (p, ti) -> ls !! j = Some (p, tj) ->
    h !! p = Some e -> 0 < Interval (spec e) /\ ti + Interval (spec e) <= tj;
  p_started : forall p t e, (p, t) ∈ ls -> h !! p = Some e -> At (spec e) <> 0 -> At (spec e) <= t }.

Lemma paced_extend h rds ls j first :
  (At j <> 0 -> At j <= first) -> paced h rds ls -> paced (h ++ [mkEntry j first false]) rds ls.
Proof.
  intros Hfirst []. assert (forall p t e, (p, t) ∈ ls -> (h ++ [mkEntry j first false]) !! p = Some e -> h !! p = Some e) as Hold.
  { intros p t e Hin [[_ Hp]|[-> _]]%lookup_snoc_Some; [done|]. specialize (p_known0 _ _ Hin). lia. }
  split; try done; eauto.
  - intros p t Hin. rewrite length_app. specialize (p_known0 _ _ Hin). lia.
  - intros p e [[_ Hp]|[-> <-]]%lookup_snoc_Some; eauto.
  - intros k now ps p Hk Hp. destruct (p_pending0 _ _ _ _ Hk Hp) as (e & He & ?).
    exists e. split; [by apply lookup_app_l_Some|done].
  - intros i k p ti tj e Hlt Hi Hj He. eapply p_spaced0; eauto. eapply Hold; [|exact He].
    by eapply list_elem_of_lookup_2.
Qed.

(** The flag of an entry is not part of it. *)
Lemma paced_flag h rds ls p e b :
  h !! p = Some e -> paced h rds ls -> paced (<[p := mkEntry (spec e) (nextDue e) b]> h) rds ls.
Proof.
  intros Hp []. assert (forall q e', <[p := mkEntry (spec e) (nextDue e) b]> h !! q = Some e' ->
    exists e0, h !! q = Some e0 /\ spec e' = spec e0 /\ nextDue e' = nextDue e0) as Hold.
  { intros q e' [(<- & <- & _)|[_ Hq]]%list_lookup_insert_Some; eauto. }
  split; try done.
  - intros q t Hin. rewrite length_insert. eauto.
  - intros q t e' Hin (e0 & Hq & -> & ->)%Hold. eauto.
  - intros q e' (e0 & Hq & -> & ->)%Hold. eauto.
  - intros k now ps q Hk Hq. destruct (p_pending0 _ _ _ _ Hk Hq) as (e0 & He & ?).
    destruct (decide (p = q)) as [<-|Hne].
    + eexists. rewrite list_lookup_insert_eq by (by eapply lookup_lt_Some). simplify_eq. done.
    + exists e0. by rewrite list_lookup_insert_ne.
  - intros i j q ti tj e' Hlt Hi Hj (e0 & Hq & -> & _)%Hold. eauto.
  - intros q t e' Hin (e0 & Hq & -> & _)%Hold. eauto.
Qed.

Lemma paced_launch h rds ls k now p ps e :
  rds !! k = Some (now, p :: ps) -> h !! p = Some e -> paced h rds ls ->
  paced (<[p := mkEntry (spec e) (advanced e now) true]> h) (<[k := (now, ps)]> rds) (ls ++ [(p, now)]).
Proof.
  intros Hk Hp []. set (e1 := mkEntry (spec e) (advanced e now) true).
  destruct (p_pending0 k now (p :: ps) p Hk ltac:(left)) as (e0 & He0 & Hnz & Hdue). simplify_eq.
  destruct (p_one0 _ _ _ _ _ _ _ _ Hk Hk) as [_ Hnd]. apply NoDup_cons in Hnd as [Hfresh Hnd].
  assert (forall q e', <[p := e1]> h !! q = Some e' -> exists e0, h !! q = Some e0 /\ spec e' = spec e0 /\
    (q <> p -> nextDue e' = nextDue e0) /\ (q = p -> e' = e1 /\ e0 = e)) as Hold.
  { intros q e' [(<- & <- & _)|[Hne Hq]]%list_lookup_insert_Some; [exists e|exists e']; naive_solver. }
  assert (forall q t, (q, t) ∈ ls ++ [(p, now)] -> (q, t) ∈ ls \/ q = p /\ t = now) as Hls.
  { intros q t. rewrite elem_of_app, list_elem_of_singleton. naive_solver. }
  assert (nextDue e1 <> 0 -> 0 < Interval (spec e) /\ nextDue e1 = now + Interval (spec e)) as Hadv.
  { unfold e1, advanced, Add, zeroTime. simpl. destruct (Z.ltb_spec 0 (Interval (spec e))); naive_solver. }
  split.
  - intros q t [Hin|[-> ->]]%Hls; rewrite length_insert; [eauto|by eapply lookup_lt_Some].
  - intros q t e' Hin (e0 & Hq & Hs & Hne & Heq)%Hold Hn. rewrite Hs. destruct (decide (q = p)) as [->|Hqp].
    + destruct (Heq eq_refl) as [-> ->]. destruct (Hadv Hn) as [? Hadv']. split; [done|]. rewrite Hadv'.
      apply Hls in Hin as [Hin|[_ ->]]; [|lia]. destruct (p_next0 _ _ _ Hin Hq Hnz). lia.
    + rewrite Hne in * by done. apply Hls in Hin as [Hin|[-> _]]; [by eauto|done].
  - intros q e' (e0 & Hq & Hs & Hne & Heq)%Hold Hn Hat. rewrite Hs in *. destruct (decide (q = p)) as [->|Hqp].
    + destruct (Heq eq_refl) as [-> ->]. destruct (Hadv Hn) as [? ->]. specialize (p_at0 _ _ Hq Hnz Hat). lia.
    + rewrite Hne in * by done. eauto.
  - intros k' now' ps' q Hk' Hq. apply list_lookup_insert_Some in Hk' as [(<- & [= <- <-] & _)|[Hne Hk']].
    + destruct (p_pending0 k now (p :: ps) q Hk ltac:(by right)) as (e0 & He0 & ?).
      exists e0. rewrite list_lookup_insert_ne; [done|]. intros ->. done.
    + destruct ps' as [|p' ps']; [by apply not_elem_of_nil in Hq|].
      destruct (p_one0 _ _ _ _ _ _ _ _ Hk Hk') as [-> _]. done.
  - intros k1 k2 n1 n2 ps1 ps2 q1 q2 H1 H2.
    apply list_lookup_insert_Some in H1 as [(<- & [= <- ->] & _)|[Hne1 H1]];
      apply list_lookup_insert_Some in H2 as [(<- & [= <- ?] & _)|[Hne2 H2]]; simplify_eq; try done.
    + by destruct (p_one0 _ _ _ _ _ _ _ _ Hk H2) as [-> _].
    + by destruct (p_one0 _ _ _ _ _ _ _ _ Hk H1) as [-> _].
    + by destruct (p_one0 _ _ _ _ _ _ _ _ Hk H1) as [-> _].
  - intros i j q ti tj e' Hlt Hi Hj (e0 & Hq & -> & _ & Heq)%Hold.
    apply lookup_snoc_Some in Hi as [[Hi' Hi]|[-> _]];
      apply lookup_snoc_Some in Hj as [[Hj' Hj]|[-> Hj]]; try lia; [by eauto|].
    simplify_eq. apply list_elem_of_lookup_2 in Hi.
    destruct (p_next0 _ _ _ Hi Hp Hnz). lia.
  - intros q t e' [Hin|[-> ->]]%Hls (e0 & Hq & -> & _ & Heq)%Hold Hat; [by eauto|].
    destruct (Heq eq_refl) as [_ ->]. specialize (p_at0 _ _ Hq Hnz Hat). lia.
Qed.

(** A round that finds the entry running takes it off the list. *)
Lemma paced_skip h rds ls k now p ps :
  rds !! k = Some (now, p :: ps) -> paced h rds ls -> paced h (<[k := (now, ps)]> rds) ls.
Proof.
  intros Hk []. destruct (p_one0 _ _ _ _ _ _ _ _ Hk Hk) as [_ Hnd]. apply NoDup_cons in Hnd as [_ Hnd].
  split; try done.
  - intros k' now' ps' q Hk' Hq. apply list_lookup_insert_Some in Hk' as [(<- & [= <- <-] & _)|[Hne Hk']].
    + apply (p_pending0 k now (p :: ps) q Hk). by right.
    + eauto.
  - intros k1 k2 n1 n2 ps1 ps2 q1 q2 H1 H2.
    apply list_lookup_insert_Some in H1 as [(<- & [= <- ->] & _)|[Hne1 H1]];
      apply list_lookup_insert_Some in H2 as [(<- & [= <- ?] & _)|[Hne2 H2]]; simplify_eq; try done.
    + by destruct (p_one0 _ _ _ _ _ _ _ _ Hk H2) as [-> _].
    + by destruct (p_one0 _ _ _ _ _ _ _ _ Hk H1) as [-> _].
    + eauto.
Qed.

Lemma act_paced a y y' :
  act a y = Some y' -> (match a with ASnapshot _ => quiet y | _ => true end) = true -> table_ok (sch y) ->
  paced (heap (sch y)) (rundues y) (launches y) -> paced (heap (sch y')) (rundues y') (launches y').
Proof.
  intros Ha Hq Ht Hy. destruct a as [j|k now|name| |now|k|i|i e|i r|i|i|i| |]; simpl in Ha.
  - go_cases; done.
  - destruct (checked y !! k) as [j|]; simplify_eq/=. apply paced_extend; [|done]. intros Hat.
    unfold IsZero. by destruct (Z.eqb_spec (At j) 0).
  - simplify_eq. unfold Unschedule. go_cases; done.
  - by simplify_eq.
  - simplify_eq/=. unfold quiet in Hq. rewrite forallb_forall in Hq.
    assert (forall k now ps p, rundues y !! k = Some (now, p :: ps) -> False) as Hnone.
    { intros k n ps p Hk%list_elem_of_lookup_2. specialize (Hq _ (proj1 (list_elem_of_In _ _) Hk)). done. }
    destruct Hy. split; try done.
    + intros k n ps p [[_ Hk]|[-> [= <- <-]]]%lookup_snoc_Some Hp; [by eauto|].
      apply due_spec in Hp as (_ & e & He & (? & ? & _)%is_due_spec). eauto.
    + intros k k' n n' ps ps' p p' [[_ Hk]|[-> [= <- Hk]]]%lookup_snoc_Some; [by destruct (Hnone _ _ _ _ Hk)|].
      intros [[_ Hk']|[-> [= <- Hk']]]%lookup_snoc_Some; [by destruct (Hnone _ _ _ _ Hk')|].
      split; [done|]. rewrite <- Hk. by apply due_NoDup.
  - destruct (rundues y !! k) as [[now [|p ps]]|] eqn:Hk; try done.
    unfold launch in Ha. destruct (heap (sch y) !! p) as [e|] eqn:Hp; simpl in Ha.
    + destruct (running e); simplify_eq/=; [by eapply paced_skip|by apply paced_launch].
    + simplify_eq/=. by eapply paced_skip.
  - go_cases; done.
  - go_cases; done.
  - go_cases; done.
  - go_cases; done.
  - destruct (runs y !! i) as [[p []]|]; try done. destruct (heap (sch y) !! p) as [e|] eqn:Hp; simplify_eq/=.
    by apply paced_flag.
  - go_cases; done.
  - go_cases; done.
  - destruct (lim y); [|done]. destruct (0 <? ext y); [|done]. destruct (Release _); by simplify_eq/=.
Qed.

Lemma serial_paced l y y' : serial_acts l y = Some y' -> sched_inv y ->
  paced (heap (sch y)) (rundues y) (launches y) -> paced (heap (sch y')) (rundues y') (launches y').
Proof.
  revert y. induction l as [|a l IH]; intros y Hl Hy Hp; [by simplify_eq/=|]. simpl in Hl.
  destruct (match a with ASnapshot _ => quiet y | _ => true end) eqn:Hq; [|done].
  destruct (act a y) as [y1|] eqn:Ha; simplify_eq/=.
  apply (IH _ Hl (act_sched _ _ _ Ha Hy)). apply (act_paced _ _ _ Ha Hq (s_table _ Hy) Hp).
Qed.

End interleavings.

(** ** The methods, for one caller *)

Definition launched (now : Time) (e : entry) : entry := mkEntry (spec e) (advanced e now) true.

Lemma launch_all_spec now ps s :
  NoDup ps -> (forall p, p ∈ ps -> exists e, heap s !! p = Some e /\ running e = false) ->
  let '(s', n) := launch_all now ps s in
  n = Z.of_nat (length ps) /\ jobs s' = jobs s /\ stopped s' = stopped s /\
  length (heap s') = length (heap s) /\
  forall p e, heap s !! p = Some e -> heap s' !! p = Some (if decide (p ∈ ps) then launched now e else e).
Proof.
  intros Hnd. revert s. induction Hnd as [|p ps Hp Hnd IH]; intros s Hs; simpl.
  { done. }
  destruct (Hs p ltac:(left)) as (e & He & Hr). unfold launch. rewrite He. simpl. rewrite Hr.
  pose proof (lookup_lt_Some _ _ _ He) as Hlt. specialize (IH (set_entry p (launched now e) s)). unfold launched at 1 in IH.
  destruct (launch_all _ _ _) as [s' n]. destruct IH as (-> & -> & -> & -> & IH).
  { intros q Hq. destruct (Hs q ltac:(by right)) as (e' & ? & ?). exists e'.
    simpl. rewrite list_lookup_insert_ne; [done|]. by intros ->. }
  simpl. rewrite length_insert. split_and!; try done; [lia|].
  intros q e' He'. destruct (decide (p = q)) as [<-|Hne].
  - simplify_eq. rewrite (IH p (launched now e)); [|by apply list_lookup_insert_eq].
    by rewrite decide_False, decide_True by first [done|left].
  - rewrite (IH q e' ltac:(simpl; by rewrite list_lookup_insert_ne)).
    destruct (decide (q ∈ ps)); [rewrite decide_True by (by right)|rewrite decide_False by set_solver]; done.
Qed.

Lemma RunDue_spec `{MapIter} now s : table_ok s ->
  let '(s', n) := RunDue now s in
  n = Z.of_nat (length (due now s)) /\ jobs s' = jobs s /\ stopped s' = stopped s /\
  length (heap s') = length (heap s) /\
  forall p e, heap s !! p = Some e -> heap s' !! p = Some (if decide (p ∈ due now s) then launched now e else e).
Proof.
  intros Hs. apply launch_all_spec; [by apply due_NoDup|].
  intros p (_ & e & He & (_ & _ & ?)%is_due_spec)%due_spec. eauto.
Qed.

Lemma RunDue_table `{MapIter} now s : table_ok s -> table_ok (RunDue now s).1.
Proof.
  intros Hs. pose proof (RunDue_spec now s Hs) as Hr. destruct (RunDue now s) as [s' n].
  destruct Hr as (_ & Hj & _ & Hlen & Hh). destruct Hs as [Hn Hk]. split; simpl.
  - rewrite Hj. intros name p Hp. destruct (Hn _ _ Hp) as (e & He & Hname). eexists. split; [by apply Hh|].
    by destruct (decide _).
  - intros p e' He'. destruct (lookup_lt_is_Some_2 (heap s) p) as [e He]; [rewrite <- Hlen; by eapply lookup_lt_Some|].
    rewrite (Hh p e He) in He'. simplify_eq. specialize (Hk p e He). by destruct (decide _).
Qed.

(** [earlier] folds to the least due time. *)
Definition least (l : list entry) (o : option Time) : Prop :=
  match o with
  | None => Forall (fun e => nextDue e = 0) l
  | Some t => (exists e, e ∈ l /\ nextDue e = t /\ t <> 0) /\ Forall (fun e => nextDue e <> 0 -> t <= nextDue e) l
  end.

Lemma earlier_least l : least l (foldl earlier None l).
Proof.
  induction l as [|e l IH] using rev_ind; [by constructor|]. rewrite foldl_app. simpl.
  unfold earlier at 1, IsZero, Before. destruct (foldl earlier None l) as [t|]; simpl in *;
    destruct (Z.eqb_spec (nextDue e) 0) as [Hz|Hz]; simpl.
  - destruct IH as [(e' & ? & ?) Hall]. split; [exists e'; split; [by apply elem_of_app; left|done]|].
    apply Forall_app_2; [done|]. by constructor.
  - destruct IH as [(e' & ? & ? & ?) Hall]. destruct (Z.ltb_spec (nextDue e) t); simpl.
    + split; [exists e; split; [apply elem_of_app; right; by left|done]|].
      apply Forall_app_2; [|by constructor]. eapply Forall_impl; [exact Hall|]. simpl. lia.
    + split; [exists e'; split; [by apply elem_of_app; left|done]|].
      apply Forall_app_2; [done|]. constructor; [lia|done].
  - apply Forall_app_2; [done|]. by constructor.
  - split; [exists e; split; [apply elem_of_app; right; by left|done]|].
    apply Forall_app_2; [|by constructor]. eapply Forall_impl; [exact IH|]. by simpl.
Qed.

Lemma elem_of_entries `{MapIter} s e :
  e ∈ entries_of s <-> exists name p, jobs s !! name = Some p /\ heap s !! p = Some e.
Proof.
  unfold entries_of. rewrite list_elem_of_omap. split.
  - intros ([name p] & Hin%elem_of_range & He). eauto.
  - intros (name & p & Hn & He). exists (name, p). by rewrite elem_of_range.
Qed.

Lemma Names_spec `{MapIter} s :
  sorted_by String.leb (Names s) /\ NoDup (Names s) /\ (forall name, name ∈ Names s <-> is_Some (jobs s !! name)).
Proof.
  unfold Names. split_and!; [apply sort_Strings_sorted| |].
  - rewrite sort_Strings_perm. apply NoDup_range_keys.
  - intros name. rewrite sort_Strings_perm, list_elem_of_fmap. split.
    + intros ([n p] & -> & Hin%elem_of_range). simpl. eauto.
    + intros [p Hp]. exists (name, p). by rewrite elem_of_range.
Qed.

Definition table_due (now : Time) (s : sched) (p : nat) : Prop :=
  (exists name, jobs s !! name = Some p) /\ exists e, heap s !! p = Some e /\ is_due now e = true.

Lemma RunDue_iter (I1 I2 : MapIter) now s : table_ok s -> @RunDue I1 now s = @RunDue I2 now s.
Proof.
  intros Hs. pose proof (@RunDue_spec I1 now s Hs) as R1. pose proof (@RunDue_spec I2 now s Hs) as R2.
  assert (@due I1 now s ≡ₚ @due I2 now s) as Hp.
  { apply NoDup_Permutation; [by apply due_NoDup..|]. intros p. by rewrite !due_spec. }
  destruct (@RunDue I1 now s) as [[h1 j1 b1] n1], (@RunDue I2 now s) as [[h2 j2 b2] n2]. simpl in *.
  destruct R1 as (-> & -> & -> & Hl1 & H1), R2 as (-> & -> & -> & Hl2 & H2). rewrite Hp. do 2 f_equal.
  apply list_eq_same_length with (length h1); [congruence|done|]. intros p e1 e2 Hlt He1 He2.
  destruct (lookup_lt_is_Some_2 (heap s) p) as [e He]; [congruence|].
  rewrite (H1 p e He) in He1. rewrite (H2 p e He) in He2. simplify_eq.
  destruct (decide (p ∈ @due I1 now s)) as [Hd|Hd]; rewrite Hp in Hd;
    [by rewrite decide_True|by rewrite decide_False].
Qed.

Lemma RunDue_again `{MapIter} now later s :
  table_ok s -> (forall p, p ∈ due now s -> p ∉ due later (RunDue now s).1).
Proof.
  intros Hs p Hp. pose proof (RunDue_spec now s Hs) as Hr. destruct (RunDue now s) as [s' n]. simpl.
  destruct Hr as (_ & _ & _ & _ & Hh). rewrite due_spec. intros (_ & e' & He' & (_ & _ & Hrun)%is_due_spec).
  destruct (proj1 (due_spec _ _ _) Hp) as (_ & e & He & _). rewrite (Hh p e He), decide_True in He' by done.
  by simplify_eq.
Qed.

Lemma nextSleep_bounds `{MapIter} now s :
  0 < nextSleep now s <= idleTimeout /\
  ((forall name p e, jobs s !! name = Some p -> heap s !! p = Some e -> nextDue e <> 0 -> now < nextDue e) ->
   forall name p e, jobs s !! name = Some p -> heap s !! p = Some e -> nextDue e <> 0 ->
     now + nextSleep now s <= nextDue e).
Proof.
  assert (idleTimeout = 60000000000) as Hidle by reflexivity.
  pose proof (earlier_least (entries_of s)) as Hl. unfold nextSleep, NextDue. destruct (foldl _ _ _) as [t|]; simpl in Hl.
  - destruct Hl as [(e0 & Hin & Ht & Hnz) Hall]. rewrite Forall_forall in Hall.
    unfold Sub, minInt64, maxInt64, Microsecond. rewrite Hidle. split.
    + destruct (Z.leb_spec (Z.max (- 2 ^ 63) (Z.min (2 ^ 63 - 1) (t - now))) 0), (Z.ltb_spec 60000000000 (Z.max (- 2 ^ 63) (Z.min (2 ^ 63 - 1) (t - now)))); lia.
    + intros Hfut name p e Hn He Hne. apply elem_of_entries in Hin as (n0 & p0 & Hn0 & He0).
      specialize (Hfut _ _ _ Hn0 He0 ltac:(lia)).
      specialize (Hall e ltac:(by rewrite elem_of_entries; eauto) Hne).
      destruct (Z.leb_spec (Z.max (- 2 ^ 63) (Z.min (2 ^ 63 - 1) (t - now))) 0), (Z.ltb_spec 60000000000 (Z.max (- 2 ^ 63) (Z.min (2 ^ 63 - 1) (t - now)))); lia.
  - rewrite Hidle. split; [lia|]. intros _ name p e Hn He Hne. rewrite Forall_forall in Hl.
    destruct Hne. apply Hl. apply elem_of_entries. eauto.
Qed.

(** For one caller on a table whose entries carry the names they are
    registered under: [RunDue] launches the registered entries that are due
    and not running, each once, marks them running with their next due time
    advanced by the interval from the clock reading (or to never), leaves all
    others alone, returns their number, does not depend on the iteration order
    of the map, and launches none of them again before their runs end;
    [nextSleep] is positive, at most a minute, and does not run past the next
    due time; [NextDue] is the least due time and [Names] the registered names
    in order; scheduling and unscheduling keep such a table. *)
Theorem scheduler_run_due `{MapIter} now s :
  table_ok s ->
  (let '(s', n) := RunDue now s in
   n = Z.of_nat (length (due now s)) /\ jobs s' = jobs s /\ stopped s' = stopped s /\ table_ok s' /\
   (forall p e, heap s !! p = Some e ->
      (table_due now s p -> heap s' !! p = Some (mkEntry (spec e) (advanced e now) true)) /\
      (~ table_due now s p -> heap s' !! p = Some e)) /\
   (forall later p, table_due now s p -> ~ table_due later s' p)) /\
  NoDup (due now s) /\ (forall p, p ∈ due now s <-> table_due now s p) /\
  (forall I2 : MapIter, @RunDue I2 now s = RunDue now s) /\
  0 < nextSleep now s <= idleTimeout /\
  ((forall name p e, jobs s !! name = Some p -> heap s !! p = Some e -> nextDue e <> 0 -> now < nextDue e) ->
   forall name p e, jobs s !! name = Some p -> heap s !! p = Some e -> nextDue e <> 0 ->
     now + nextSleep now s <= nextDue e) /\
  least (entries_of s) (NextDue s) /\
  (forall j t, table_ok (Schedule j t s).1) /\ (forall name, table_ok (Unschedule name s).1) /\
  sorted_by String.leb (Names s) /\ NoDup (Names s) /\ (forall name, name ∈ Names s <-> is_Some (jobs s !! name)).
Proof.
  intros Hs. pose proof (RunDue_spec now s Hs) as Hr. pose proof (RunDue_table now s Hs) as Ht.
  pose proof (fun later => RunDue_again now later s Hs) as Ha. split; [|split_and!].
  - destruct (RunDue now s) as [s' n]. simpl in *. destruct Hr as (-> & -> & -> & _ & Hh). split_and!; try done.
    + intros p e He. rewrite (Hh p e He). split; intros Hd;
        [rewrite decide_True by (by apply due_spec)|rewrite decide_False by (by rewrite due_spec)]; done.
    + intros later p Hp%due_spec Hd%due_spec. by apply (Ha later p Hp).
  - by apply due_NoDup.
  - intros p. apply due_spec.
  - intros I2. by apply RunDue_iter.
  - apply nextSleep_bounds.
  - apply nextSleep_bounds.
  - apply nextSleep_bounds.
  - apply earlier_least.
  - intros. by apply Schedule_table.
  - intros. by apply Unschedule_table.
  - apply Names_spec.
  - apply Names_spec.
  - apply Names_spec.
Qed.

Definition sweep_job : Job := mkJob "kv-sweep" true Second 0.
Definition report_job : Job := mkJob "report" true 0 5000.
Definition two_jobs : sched := (Schedule report_job 1000 (Schedule sweep_job 1000 (mkSched [] ∅ false)).1).1.

Lemma empty_table : table_ok (mkSched [] ∅ false).
Proof. split; intros *; simpl; by rewrite ?lookup_empty, ?lookup_nil. Qed.

Lemma scheduler_run_due_witness :
  least (entries_of two_jobs) (NextDue two_jobs) /\ due 5000 two_jobs = [1%nat] /\ nextSleep 1000 two_jobs = 4000 /\
  (RunDue 5000 two_jobs).2 = 1.
Proof.
  split_and!; [|vm_compute; reflexivity..].
  eapply (scheduler_run_due 5000 two_jobs). do 2 apply Schedule_table. exact empty_table.
Defined.

(** A periodic job and a limiter of one permit: the second run of the entry
    starts when the first is over, while a run under a new entry does not
    wait. *)
Definition sched_trace : list (@action string) :=
  [ACheck sweep_job; AInsert 0 0; ASnapshot Second; ALaunch 0; AAcquire 0; ASnapshot (2 * Second);
   ACheck report_job; AInsert 0 10; ASnapshot (2 * Second); ALaunch 2; AEnd 0 (RReturned (Some "late"));
   ARelease 0; AClear 0; ALeave 0; AAcquire 1; AEnd 1 (RPanicked "oops")].

Lemma scheduler_interleavings_witness :
  exists y, acts sched_trace (start (Some (mkSemaphore 1 0 0 0)) 0) = Some y /\
    wg y = tally counted (runs y) /\ wg y = 1 /\
    reports y = [("kv-sweep", RepErr "late"); ("report", RepPanic "oops")].
Proof.
  eexists. split; [vm_compute; reflexivity|]. split; [|split; vm_compute; reflexivity].
  refine (proj1 (proj1 (proj2 (proj2 (scheduler_interleavings (Some (mkSemaphore 1 0 0 0)) 0 sched_trace _ _ _ _))))).
  - done.
  - vm_compute. intuition discriminate.
  - vm_compute. reflexivity.
Defined.

Definition serial_trace : list (@action string) :=
  [ACheck sweep_job; AInsert 0 0; ASnapshot Second; ALaunch 0; AAcquire 0; AEnd 0 (RReturned None); AClear 0; ALeave 0;
   ASnapshot (3 * Second); ALaunch 1].


(** Two calls of [RunDue] that overlap can both find a one-shot job due: the
    second launches it again after the first run is over. *)
Lemma scheduler_double_launch :
  exists y, acts (L := Semaphore) (error := string)
    [ACheck report_job; AInsert 0 10; ASnapshot 5000; ASnapshot 5000; ALaunch 0; AAcquire 0; AEnd 0 (RReturned None);
     AClear 0; ALeave 0; ALaunch 1] (start None 0) = Some y /\
    Interval (spec (mkEntry report_job 0 false)) = 0 /\ launches y = [(0%nat, 5000); (0%nat, 5000)].
Proof. eexists. split; [vm_compute; reflexivity|]. by split. Qed.

(** Scheduling a name again makes a new entry, so the job can run twice at the
    same time. *)
Lemma scheduler_replaced_overlap :
  exists y, acts (L := Semaphore) (error := string)
    [ACheck sweep_job; AInsert 0 0; ASnapshot Second; ALaunch 0; AAcquire 0; ACheck sweep_job; AInsert 0 Second;
     ASnapshot (2 * Second); ALaunch 1; AAcquire 1] (start None 0) = Some y /\
    map at_rpc (runs y) = [RFunc; RFunc] /\ map (fun r => name_of y (r_entry r)) (runs y) = ["kv-sweep"; "kv-sweep"].
Proof. eexists. split; [vm_compute; reflexivity|]. by split. Qed.
