(* ===== verification/EventBus.v ===== *)
(** [internal/eventbus], the synchronous bus: delivery in the publisher's
    goroutine, in the order of the ids that [sortIDs] puts back after the map
    iteration has lost it. [act] interleaves any number of subscribers and
    publishers at the grain of the code's critical sections. A handler is known
    by a number; a handler that calls the bus is one more caller. Fewer than
    2^64 subscriptions are made, so ids do not wrap around. *)
From S2P Require Import Prelude GoNum.
Open Scope Z_scope.

(** ** [sortIDs]: insertion sort by swaps, in place *)

Definition swap_down (j : nat) (ids : list nat) : list nat :=
  match ids !! j, ids !! pred j with
  | Some x, Some y => <[pred j := x]> (<[j := y]> ids)
  | _, _ => ids
  end.

(** The inner loop: [j] goes down while the element before is greater. *)
Fixpoint sink (j : nat) (ids : list nat) : list nat :=
  match j with
  | O => ids
  | S i =>
    match ids !! i, ids !! j with
    | Some x, Some y => if (y <? x)%nat then sink i (swap_down j ids) else ids
    | _, _ => ids
    end
  end.

(** The outer loop, from [i]; [fuel] is the number of turns left. *)
Fixpoint sortIDs_from (fuel i : nat) (ids : list nat) : list nat :=
  match fuel with
  | O => ids
  | S fuel => sortIDs_from fuel (S i) (sink i ids)
  end.

Definition sortIDs (ids : list nat) : list nat := sortIDs_from (pred (length ids)) 1 ids.

Lemma StronglySorted_snoc (l : list nat) x :
  StronglySorted le (l ++ [x]) <-> StronglySorted le l /\ Forall (fun y => (y <= x)%nat) l.
Proof.
  induction l as [|y l IH]; simpl; [split; [repeat constructor|intros _; repeat constructor]|].
  split.
  - intros [Hl Hy]%StronglySorted_inv. apply IH in Hl as [Hl Hx]. apply Forall_app in Hy as [Hy Hyx].
    split; constructor; try done. by inversion Hyx.
  - intros [[Hl Hy]%StronglySorted_inv Hx]. inversion Hx; subst. constructor; [by apply IH|].
    apply Forall_app. split; [done|]. by constructor.
Qed.

Lemma sink_app l x r : StronglySorted le l ->
  exists l', sink (length l) (l ++ x :: r) = l' ++ r /\ l' ≡ₚ x :: l /\ StronglySorted le l'.
Proof.
  revert r. induction l as [|z l IH] using rev_ind; intros r Hl.
  { exists [x]. split_and!; [done..|repeat constructor]. }
  apply StronglySorted_snoc in Hl as [Hl Hz]. rewrite length_app. simpl.
  replace (length l + 1)%nat with (S (length l)) by lia. rewrite <- app_assoc. simpl.
  rewrite list_lookup_middle by done.
  assert ((l ++ z :: x :: r) !! S (length l) = Some x) as Hx.
  { rewrite lookup_app_r by lia. by replace (S (length l) - length l)%nat with 1%nat by lia. }
  rewrite Hx. destruct (Nat.ltb_spec x z).
  - assert (swap_down (S (length l)) (l ++ z :: x :: r) = l ++ x :: z :: r) as ->.
    { unfold swap_down. rewrite Hx. simpl. rewrite list_lookup_middle by done.
      rewrite insert_app_r_alt by lia. replace (S (length l) - length l)%nat with 1%nat by lia. simpl.
      by rewrite insert_app_r_alt, Nat.sub_diag by lia. }
    destruct (IH (z :: r) Hl) as (l' & -> & Hp & Hs). exists (l' ++ [z]). rewrite <- app_assoc. split_and!; [done| |].
    + rewrite Hp. solve_Permutation.
    + apply StronglySorted_snoc. split; [done|]. rewrite Hp. constructor; [lia|done].
  - exists (l ++ [z; x]). rewrite <- app_assoc. split_and!; [done|solve_Permutation|].
    change [z; x] with ([z] ++ [x]). rewrite app_assoc. apply StronglySorted_snoc. split.
    + by apply StronglySorted_snoc.
    + apply Forall_app. split; [|by constructor]. eapply Forall_impl; [exact Hz|]. simpl. lia.
Qed.

Lemma sortIDs_from_app r : forall l, StronglySorted le l ->
  sortIDs_from (length r) (length l) (l ++ r) ≡ₚ l ++ r /\
  StronglySorted le (sortIDs_from (length r) (length l) (l ++ r)).
Proof.
  induction r as [|x r IH]; intros l Hl; simpl; [by rewrite app_nil_r|].
  destruct (sink_app l x r Hl) as (l' & -> & Hp & Hs).
  replace (S (length l)) with (length l') by (by rewrite Hp).
  destruct (IH l' Hs) as [Hp' Hs']. split; [|done]. rewrite Hp', Hp. solve_Permutation.
Qed.

Lemma sortIDs_spec ids : sortIDs ids ≡ₚ ids /\ StronglySorted le (sortIDs ids).
Proof.
  unfold sortIDs. destruct ids as [|x r]; [split; [done|constructor]|].
  apply (sortIDs_from_app r [x]). repeat constructor.
Qed.

Lemma StronglySorted_filter {A} (R : A -> A -> Prop) (P : A -> Prop) `{!forall i, Decision (P i)} l :
  StronglySorted R l -> StronglySorted R (filter P l).
Proof.
  induction 1 as [|x l Hl IH Hx]; [constructor|]. rewrite filter_cons. destruct (decide (P x)); [|done].
  constructor; [done|]. rewrite Forall_forall in *. intros y [_ Hy]%list_elem_of_filter. auto.
Qed.

Lemma seq_sorted n : forall k, StronglySorted lt (seq k n).
Proof.
  induction n as [|n IH]; intros k; simpl; constructor; [done|].
  apply Forall_forall. intros i Hi%elem_of_seq. lia.
Qed.

Lemma sorted_lt_le l : StronglySorted lt l -> StronglySorted le l.
Proof. induction 1; constructor; [done|]. eapply Forall_impl; [done|]. simpl. lia. Qed.

(** Sorted ids without repetition are the ones the order picks from [0..n). *)
Lemma sortIDs_filter ids n (P : nat -> Prop) `{!forall i, Decision (P i)} :
  NoDup ids -> (forall i, i ∈ ids <-> (i < n)%nat /\ P i) -> sortIDs ids = filter P (seq 0 n).
Proof.
  intros Hnd Hin. destruct (sortIDs_spec ids) as [Hp Hs].
  apply (StronglySorted_unique le); [done|apply sorted_lt_le, StronglySorted_filter, seq_sorted|].
  rewrite Hp. apply NoDup_Permutation; [done|apply NoDup_filter, NoDup_seq|].
  intros i. rewrite list_elem_of_filter, elem_of_seq, Hin. intuition lia.
Qed.

Lemma sortIDs_strict ids : NoDup ids -> StronglySorted lt (sortIDs ids).
Proof.
  intros Hnd. set (n := S (list_max ids)).
  rewrite (sortIDs_filter ids n (fun i => i ∈ ids) Hnd); [apply StronglySorted_filter, seq_sorted|].
  intros i. split; [|by intros [_ ?]]. intros Hi. split; [|done]. unfold n.
  pose proof (proj1 (list_max_le ids (list_max ids)) ltac:(done)) as Hall.
  rewrite Forall_forall in Hall. specialize (Hall i Hi). simpl in Hall. lia.
Qed.

(** ** The bus *)

Section interleavings.
Context {E : Type}.

Record bus := mkBus { nextID : nat; handlers : gmap nat nat }.

Definition NewSync : bus := mkBus 0 ∅.

Definition Subscribe (h : nat) (b : bus) : bus := mkBus (S (nextID b)) (<[nextID b := h]> (handlers b)).
Definition unsubscribe (id : nat) (b : bus) : bus := mkBus (nextID b) (delete id (handlers b)).
Definition Subscribers (b : bus) : nat := size (handlers b).

(** [Publish] in its steps: the ids under the read lock, the handlers still
    there under the second, and the calls outside any lock. *)
Inductive stage :=
| Listed (ids : list nat)            (* after [sortIDs] *)
| Calling (todo : list (nat * nat)). (* id and handler, still to call *)

Record publishing := mkPub { event : E; listed : list nat; at_stage : stage; called : list (nat * nat) }.

Record sys := mkSys { the_bus : bus; pubs : list publishing }.

Inductive action :=
| ASubscribe (h : nat) | AUnsubscribe (id : nat)
| APublish (e : E) (order : list nat)  (* the order in which the map is visited *)
| AResolve (k : nat) | ACall (k : nat).

Definition resolve (b : bus) (ids : list nat) : list (nat * nat) :=
  omap (fun id => (fun h => (id, h)) <$> handlers b !! id) ids.

Definition act (a : action) (y : sys) : option sys :=
  match a with
  | ASubscribe h => Some (mkSys (Subscribe h (the_bus y)) (pubs y))
  | AUnsubscribe id => Some (mkSys (unsubscribe id (the_bus y)) (pubs y))
  | APublish e order =>
    if decide (order ≡ₚ (map_to_list (handlers (the_bus y))).*1) then
      let ids := sortIDs order in
      Some (mkSys (the_bus y) (pubs y ++ [mkPub e ids (Listed ids) []]))
    else None
  | AResolve k =>
    match pubs y !! k with
    | Some (mkPub e l (Listed ids) c) =>
      Some (mkSys (the_bus y) (<[k := mkPub e l (Calling (resolve (the_bus y) ids)) c]> (pubs y)))
    | _ => None
    end
  | ACall k =>
    match pubs y !! k with
    | Some (mkPub e l (Calling (ih :: todo)) c) =>
      Some (mkSys (the_bus y) (<[k := mkPub e l (Calling todo) (c ++ [ih])]> (pubs y)))
    | _ => None
    end
  end.

Fixpoint acts (l : list action) (y : sys) : option sys :=
  match l with
  | [] => Some y
  | a :: l => y ← act a y; acts l y
  end.

(** [Publish] of a caller that meets no other: the calls it makes. *)
Definition Publish (order : list nat) (b : bus) : list nat := (resolve b (sortIDs order)).*2.
(** ** What holds of every interleaving *)

(** The handlers subscribed so far, by id. *)
Definition subscribed (l : list action) : list nat :=
  omap (fun a => match a with ASubscribe h => Some h | _ => None end) l.

Definition bus_ok (log : list nat) (b : bus) : Prop :=
  nextID b = length log /\ forall id h, handlers b !! id = Some h -> log !! id = Some h.

Definition pending (p : publishing) : list (nat * nat) :=
  match at_stage p with Listed _ => [] | Calling todo => todo end.

Definition pub_ok (log : list nat) (p : publishing) : Prop :=
  StronglySorted lt (listed p) /\
  match at_stage p with
  | Listed ids => ids = listed p /\ called p = []
  | Calling _ => True
  end /\
  (called p ++ pending p).*1 `sublist_of` listed p /\
  Forall (fun ih => log !! ih.1 = Some ih.2) (called p ++ pending p).

Definition sync_inv (log : list nat) (y : sys) : Prop :=
  bus_ok log (the_bus y) /\ Forall (pub_ok log) (pubs y).

Lemma resolve_sublist b ids : (resolve b ids).*1 `sublist_of` ids.
Proof.
  unfold resolve. induction ids as [|i ids IH]; simpl; [done|].
  destruct (handlers b !! i); simpl; by constructor.
Qed.

Lemma elem_of_resolve b ids id h : (id, h) ∈ resolve b ids <-> id ∈ ids /\ handlers b !! id = Some h.
Proof.
  unfold resolve. rewrite list_elem_of_omap. split.
  - intros (i & Hi & Hb). destruct (handlers b !! i) eqn:Hh; simplify_eq/=. done.
  - intros [Hi Hh]. exists id. by rewrite Hh.
Qed.

Lemma bus_ok_snoc log b h : bus_ok log b -> bus_ok (log ++ [h]) (Subscribe h b).
Proof.
  intros [Hn Hh]. split; simpl; [rewrite length_app, Hn; simpl; lia|].
  rewrite Hn. intros id h' [[<- <-]|[_ Hid]]%lookup_insert_Some.
  - by apply list_lookup_middle.
  - by apply lookup_app_l_Some, Hh.
Qed.

Lemma pub_ok_snoc log h p : pub_ok log p -> pub_ok (log ++ [h]) p.
Proof.
  intros (Hs & Hst & Hl & Ha). split_and!; try done. eapply Forall_impl; [exact Ha|].
  simpl. intros. by apply lookup_app_l_Some.
Qed.

Lemma act_sync log a y y' :
  act a y = Some y' -> sync_inv log y -> sync_inv (log ++ subscribed [a]) y'.
Proof.
  intros Ha [Hb Hp]. destruct a as [h|id|e order|k|k]; simpl in *; rewrite ?app_nil_r.
  - simplify_eq. split; [by apply bus_ok_snoc|]. eapply Forall_impl; [exact Hp|]. apply pub_ok_snoc.
  - simplify_eq. split; [|done]. destruct Hb as [Hn Hh]. split; [done|].
    intros id' h. simpl. intros [_ Hid]%lookup_delete_Some. by apply Hh.
  - case_decide as Ho; [|done]. simplify_eq. split; [done|]. apply Forall_app_2; [done|]. constructor; [|constructor].
    split_and!; simpl; [|by split|apply sublist_nil_l|constructor]. apply sortIDs_strict. rewrite Ho. apply NoDup_fst_map_to_list.
  - destruct (pubs y !! k) as [[e l [ids|] c]|] eqn:Hk; simplify_eq. split; [done|]. apply Forall_insert; [done|].
    pose proof (Forall_lookup_1 _ _ _ _ Hp Hk) as Hpk. unfold pub_ok in Hpk. simpl in Hpk.
    destruct Hpk as (Hs & [-> ->] & _ & _). split_and!; simpl; try done.
    + apply resolve_sublist.
    + apply Forall_forall. intros [id h] [_ Hh]%elem_of_resolve. by apply Hb.
  - destruct (pubs y !! k) as [[e l [|[|ih todo]] c]|] eqn:Hk; simplify_eq. split; [done|]. apply Forall_insert; [done|].
    destruct (Forall_lookup_1 _ _ _ _ Hp Hk) as (Hs & _ & Hsub & Hall). unfold pending in *. simpl in *.
    unfold pub_ok, pending. simpl. by rewrite <- app_assoc.
Qed.

Lemma acts_sync l : forall log y y', acts l y = Some y' -> sync_inv log y -> sync_inv (log ++ subscribed l) y'.
Proof.
  induction l as [|a l IH]; intros log y y' Hl Hy; simpl in Hl.
  { simplify_eq. by rewrite app_nil_r. }
  assert (subscribed (a :: l) = subscribed [a] ++ subscribed l) as -> by (by destruct a).
  destruct (act a y) as [y1|] eqn:Ha; [|done]. rewrite app_assoc.
  apply (IH _ _ _ Hl). by eapply act_sync.
Qed.

Lemma sublist_sorted {A} (R : A -> A -> Prop) l1 l2 :
  l1 `sublist_of` l2 -> StronglySorted R l2 -> StronglySorted R l1.
Proof.
  intros Hsub Hs. revert l1 Hsub. induction Hs as [|x l Hl IH Hx]; intros l1 Hsub.
  - apply sublist_nil_r in Hsub as ->. constructor.
  - apply sublist_cons_r in Hsub as [Hsub|(l1' & -> & Hsub)]; [auto|]. constructor; [auto|].
    rewrite Forall_forall in *. intros y Hy. apply Hx. eapply elem_of_submseteq; [exact Hy|]. by apply sublist_submseteq.
Qed.

Lemma Publish_in_order log b order : bus_ok log b -> order ≡ₚ (map_to_list (handlers b)).*1 ->
  Publish order b = omap (fun id => handlers b !! id) (seq 0 (nextID b)).
Proof.
  intros [Hn Hh] Ho. unfold Publish. rewrite (sortIDs_filter _ (nextID b) (fun id => is_Some (handlers b !! id))).
  - generalize (seq 0 (nextID b)). induction l as [|i l IH]; [done|]. rewrite filter_cons. simpl.
    destruct (handlers b !! i) eqn:Hi.
    + rewrite decide_True by eauto. simpl. rewrite Hi. simpl. f_equal. exact IH.
    + rewrite decide_False; [done|]. by intros [? ?].
  - rewrite Ho. apply NoDup_fst_map_to_list.
  - intros i. rewrite Ho, list_elem_of_fmap. split.
    + intros ([j h] & -> & Hj%elem_of_map_to_list). simpl. split; [|eauto].
      rewrite Hn. by eapply lookup_lt_Some, Hh.
    + intros [_ [h Hi]]. exists (i, h). by rewrite elem_of_map_to_list.
Qed.

(** The synchronous bus under any interleaving of subscribers,
    unsubscribers and publishers: a publisher calls handlers in strictly
    increasing order of subscription, each at most once, and only with the
    handler subscribed under that id and listed when it began; what it has
    listed is exactly the table at that moment, so a later subscription does
    not see the event; what it calls is what of that list is still subscribed
    when it looks again. Alone, [Publish] calls every handler once in the
    order of subscription, whatever the order in which the map is visited. *)
Theorem sync_delivery (l : list action) (y : sys) :
  acts l (mkSys NewSync []) = Some y ->
  (forall p, p ∈ pubs y -> StronglySorted lt (called p ++ pending p).*1 /\
     forall id h, (id, h) ∈ called p ++ pending p -> subscribed l !! id = Some h /\ id ∈ listed p) /\
  (forall e order y', act (APublish e order) y = Some y' ->
     exists p, pubs y' = pubs y ++ [p] /\ forall id, id ∈ listed p <-> is_Some (handlers (the_bus y) !! id)) /\
  (forall k y', act (AResolve k) y = Some y' ->
     exists p p', pubs y !! k = Some p /\ pubs y' !! k = Some p' /\ listed p' = listed p /\
       forall id h, (id, h) ∈ pending p' <-> id ∈ listed p /\ handlers (the_bus y) !! id = Some h) /\
  (forall order, order ≡ₚ (map_to_list (handlers (the_bus y))).*1 ->
     Publish order (the_bus y) = omap (fun id => handlers (the_bus y) !! id) (seq 0 (length (subscribed l)))).
Proof.
  intros Hl. assert (sync_inv (subscribed l) y) as [Hb Hp].
  { apply (acts_sync l [] _ _ Hl). by split; [split|constructor]. }
  split_and!.
  - intros p Hin. rewrite Forall_forall in Hp. destruct (Hp p Hin) as (Hs & _ & Hsub & Hall). split.
    + by eapply sublist_sorted.
    + intros id h Hih. rewrite Forall_forall in Hall. split; [exact (Hall _ Hih)|].
      eapply (elem_of_submseteq _ (listed p)); [|by apply sublist_submseteq]. apply list_elem_of_fmap. by exists (id, h).
  - intros e order y' Ha. simpl in Ha. case_decide as Ho; simplify_eq/=. eexists. split; [done|].
    intros id. simpl. rewrite (proj1 (sortIDs_spec order)), Ho, list_elem_of_fmap. split.
    + intros ([i h] & -> & Hi%elem_of_map_to_list). eauto.
    + intros [h Hi]. exists (id, h). by rewrite elem_of_map_to_list.
  - intros k y' Ha. simpl in Ha. destruct (pubs y !! k) as [[e ls [ids|] c]|] eqn:Hk; simplify_eq/=.
    pose proof (Forall_lookup_1 _ _ _ _ Hp Hk) as Hpk. unfold pub_ok in Hpk. simpl in Hpk.
    destruct Hpk as (_ & [-> _] & _ & _). do 2 eexists.
    split_and!; [done|apply list_lookup_insert_eq; by eapply lookup_lt_Some|done|].
    intros id h. apply elem_of_resolve.
  - intros order Ho. destruct Hb as [Hn Hh]. rewrite <- Hn. by apply (Publish_in_order (subscribed l)).
Qed.
End interleavings.


(** A handler removed after the listing is not called; one subscribed after it
    does not see the event. *)
Definition sync_trace : list (@action string) :=
  [ASubscribe 7; ASubscribe 8; ASubscribe 9; APublish "hello" [2; 0; 1]%nat; AUnsubscribe 1; ASubscribe 5;
   AResolve 0; ACall 0; ACall 0].

Lemma sync_delivery_witness :
  exists y, acts sync_trace (mkSys NewSync []) = Some y /\
    map called (pubs y) = [[(0, 7); (2, 9)]]%nat /\
    Publish [3; 2; 0]%nat (the_bus y) = [7; 9; 5]%nat.
Proof.
  eexists. split; [vm_compute; reflexivity|]. split; [reflexivity|].
  refine (proj2 (proj2 (proj2 (sync_delivery sync_trace _ _))) _ _); [vm_compute; reflexivity|].
  vm_compute. solve_Permutation.
Defined.
