(* ===== verification/EventAsync.v ===== *)
(** [internal/eventbus], the asynchronous bus: each subscriber has a bounded
    channel and a worker. [act] interleaves any number of subscribers,
    publishers and workers, and the call of [Close], at the grain of the code's
    critical sections and channel operations; where a Go [select] finds several
    cases ready, each is an action. A handler is known by a number. *)
From S2P Require Import Prelude GoNum.
Open Scope Z_scope.

Section interleavings.
Context {E : Type}.

Record AsyncConfig := mkConfig { BufferSize : Z; DropWhenFull : bool }.

Definition normalized (c : AsyncConfig) : AsyncConfig :=
  if BufferSize c <=? 0 then mkConfig 16 (DropWhenFull c) else c.

Inductive worker :=
| WSelect                 (* at the outer [select] *)
| WHandle                 (* in the handler *)
| WDrain                  (* at the inner [select], stop seen *)
| WDrainHandle
| WExit.

(** What the history fields record: every event put into the channel, every
    event handed to the handler, and how many had been put in at the exit. *)
Record asyncSub := mkSub {
  s_handler : nat; ch : list E; stop : bool; at_worker : worker;
  accepted : list E; handled : list E; at_exit : option nat }.

Record publishing := mkPub {
  event : E; snapshot : list nat; todo : list nat;
  sent : list nat; dropped_at : list nat; gone_at : list nat }.

(** [Close]: not called, called, past its critical section. *)
Inductive close_stage := COpen | CClosing | CClosed.

Record sys := mkSys {
  cfg : AsyncConfig;
  subs : list asyncSub;       (* by id *)
  table : gset nat;           (* the ids in [b.subs] *)
  dropped : Z; at_close : close_stage; closedWg : Z;
  joining : nat;              (* calls of [Subscribe] past the check of [closed] *)
  checked : nat;              (* calls of [Publish] past theirs *)
  pubs : list publishing }.

Definition NewAsync (c : AsyncConfig) : sys := mkSys (normalized c) [] ∅ 0 COpen 0 0 0 [].

Definition closed (y : sys) : bool := match at_close y with COpen => false | _ => true end.

Definition full (c : AsyncConfig) (s : asyncSub) : bool := BufferSize c <=? Z.of_nat (length (ch s)).

Inductive action :=
| ACheck                                (* [Subscribe] finds the bus open *)
| AJoin (h : nat)                       (* and goes on *)
| AUnsubscribe (id : nat)
| AEnter                                (* [Publish] finds it open *)
| APublish (e : E) (order : list nat)   (* and visits the table in some order *)
| ASend (k : nat) | ADrop (k : nat) | ASkip (k : nat)
| ARecv (i : nat) | AHandled (i : nat) | AStop (i : nat) | AExit (i : nat)
| AClose | ACloseAll.

Definition with_sub (i : nat) (s : asyncSub) (y : sys) : sys :=
  mkSys (cfg y) (<[i := s]> (subs y)) (table y) (dropped y) (at_close y) (closedWg y) (joining y) (checked y) (pubs y).

Definition set_worker (w : worker) (s : asyncSub) : asyncSub :=
  mkSub (s_handler s) (ch s) (stop s) w (accepted s) (handled s) (at_exit s).
Definition close_stop (s : asyncSub) : asyncSub :=
  mkSub (s_handler s) (ch s) true (at_worker s) (accepted s) (handled s) (at_exit s).
Definition send (e : E) (s : asyncSub) : asyncSub :=
  mkSub (s_handler s) (ch s ++ [e]) (stop s) (at_worker s) (accepted s ++ [e]) (handled s) (at_exit s).
Definition receive (e : E) (q : list E) (w : worker) (s : asyncSub) : asyncSub :=
  mkSub (s_handler s) q (stop s) w (accepted s) (handled s ++ [e]) (at_exit s).
Definition leave (s : asyncSub) : asyncSub :=
  mkSub (s_handler s) (ch s) (stop s) WExit (accepted s) (handled s) (Some (length (accepted s))).

(** [Close]: every subscriber of the table is told to stop. *)
Definition stop_all (t : gset nat) (l : list asyncSub) : list asyncSub :=
  imap (fun i s => if decide (i ∈ t) then close_stop s else s) l.

Definition act (a : action) (y : sys) : option sys :=
  match a with
  | ACheck =>
    if closed y then None
    else Some (mkSys (cfg y) (subs y) (table y) (dropped y) (at_close y) (closedWg y) (S (joining y)) (checked y) (pubs y))
  | AJoin h =>
    match joining y with
    | S j => Some (mkSys (cfg y) (subs y ++ [mkSub h [] false WSelect [] [] None]) ({[length (subs y)]} ∪ table y)
                    (dropped y) (at_close y) (closedWg y + 1) j (checked y) (pubs y))
    | O => None
    end
  | AUnsubscribe id =>
    if decide (id ∈ table y) then
      s ← subs y !! id;
      Some (mkSys (cfg y) (<[id := close_stop s]> (subs y)) (table y ∖ {[id]}) (dropped y) (at_close y)
              (closedWg y) (joining y) (checked y) (pubs y))
    else Some y
  | APublish e order =>
    match checked y with
    | S n =>
      if decide (order ≡ₚ elements (table y)) then
        Some (mkSys (cfg y) (subs y) (table y) (dropped y) (at_close y) (closedWg y) (joining y) n
                (pubs y ++ [mkPub e order order [] [] []]))
      else None
    | O => None
    end
  | AEnter =>
    if closed y then None
    else Some (mkSys (cfg y) (subs y) (table y) (dropped y) (at_close y) (closedWg y) (joining y) (S (checked y)) (pubs y))
  | ASend k =>
    match pubs y !! k with
    | Some (mkPub e sn (i :: t) a d g) =>
      s ← subs y !! i;
      if full (cfg y) s then None
      else Some (mkSys (cfg y) (<[i := send e s]> (subs y)) (table y) (dropped y) (at_close y) (closedWg y)
                   (joining y) (checked y) (<[k := mkPub e sn t (a ++ [i]) d g]> (pubs y)))
    | _ => None
    end
  | ADrop k =>
    match pubs y !! k with
    | Some (mkPub e sn (i :: t) a d g) =>
      s ← subs y !! i;
      if DropWhenFull (cfg y) && full (cfg y) s
      then Some (mkSys (cfg y) (subs y) (table y) (dropped y + 1) (at_close y) (closedWg y)
                   (joining y) (checked y) (<[k := mkPub e sn t a (d ++ [i]) g]> (pubs y)))
      else None
    | _ => None
    end
  | ASkip k =>
    match pubs y !! k with
    | Some (mkPub e sn (i :: t) a d g) =>
      s ← subs y !! i;
      if negb (DropWhenFull (cfg y)) && stop s
      then Some (mkSys (cfg y) (subs y) (table y) (dropped y) (at_close y) (closedWg y)
                   (joining y) (checked y) (<[k := mkPub e sn t a d (g ++ [i])]> (pubs y)))
      else None
    | _ => None
    end
  | ARecv i =>
    s ← subs y !! i;
    match ch s, at_worker s with
    | e :: q, WSelect => Some (with_sub i (receive e q WHandle s) y)
    | e :: q, WDrain => Some (with_sub i (receive e q WDrainHandle s) y)
    | _, _ => None
    end
  | AHandled i =>
    s ← subs y !! i;
    match at_worker s with
    | WHandle => Some (with_sub i (set_worker WSelect s) y)
    | WDrainHandle => Some (with_sub i (set_worker WDrain s) y)
    | _ => None
    end
  | AStop i =>
    s ← subs y !! i;
    match stop s, at_worker s with
    | true, WSelect => Some (with_sub i (set_worker WDrain s) y)
    | _, _ => None
    end
  | AExit i =>
    s ← subs y !! i;
    match ch s, at_worker s with
    | [], WDrain =>
      Some (mkSys (cfg y) (<[i := leave s]> (subs y)) (table y) (dropped y) (at_close y) (closedWg y - 1)
              (joining y) (checked y) (pubs y))
    | _, _ => None
    end
  | AClose =>
    if closed y then None
    else Some (mkSys (cfg y) (subs y) (table y) (dropped y) CClosing (closedWg y) (joining y) (checked y) (pubs y))
  | ACloseAll =>
    match at_close y with
    | CClosing => Some (mkSys (cfg y) (stop_all (table y) (subs y)) ∅ (dropped y) CClosed (closedWg y)
                          (joining y) (checked y) (pubs y))
    | _ => None
    end
  end.

Fixpoint acts (l : list action) (y : sys) : option sys :=
  match l with
  | [] => Some y
  | a :: l => y ← act a y; acts l y
  end.
(** ** What holds of every interleaving *)

Definition running (s : asyncSub) : bool := match at_worker s with WExit => false | _ => true end.
Definition draining (s : asyncSub) : bool := match at_worker s with WDrain | WDrainHandle | WExit => true | _ => false end.

(** A subscriber's queue is what was accepted and not yet handled. *)
Record sub_ok (c : AsyncConfig) (s : asyncSub) : Prop := {
  sb_fifo : accepted s = handled s ++ ch s;
  sb_bound : Z.of_nat (length (ch s)) <= BufferSize c;
  sb_drain : draining s = true -> stop s = true;
  sb_exit : match at_exit s with
            | Some n => at_worker s = WExit /\ length (handled s) = n
            | None => at_worker s <> WExit
            end }.

(** A publisher's snapshot is split into what became of it. *)
Record pub_ok (c : AsyncConfig) (ss : list asyncSub) (p : publishing) : Prop := {
  pb_nodup : NoDup (snapshot p);
  pb_split : snapshot p ≡ₚ sent p ++ dropped_at p ++ gone_at p ++ todo p;
  pb_ids : Forall (fun i => (i < length ss)%nat) (snapshot p);
  pb_mode : if DropWhenFull c then gone_at p = [] else dropped_at p = [];
  pb_gone : Forall (fun i => exists s, ss !! i = Some s /\ stop s = true) (gone_at p) }.

Definition received (i : nat) (ps : list publishing) : list E :=
  event <$> filter (fun p => i ∈ sent p) ps.

Record async_inv (c : AsyncConfig) (y : sys) : Prop := {
  a_cfg : cfg y = c; a_size : 0 < BufferSize c;
  a_subs : Forall (sub_ok c) (subs y);
  a_pubs : Forall (pub_ok c (subs y)) (pubs y);
  a_table : forall i, i ∈ table y <-> exists s, subs y !! i = Some s /\ stop s = false;
  a_received : forall i s, subs y !! i = Some s -> accepted s ≡ₚ received i (pubs y);
  a_dropped : dropped y = total (fun p => Z.of_nat (length (dropped_at p))) (pubs y);
  a_wg : closedWg y = tally running (subs y) }.

(** Subscribers that are there stay, and stop at most once. *)
Lemma pub_ok_mono c ss ss' p :
  (length ss <= length ss')%nat ->
  (forall i s, ss !! i = Some s -> stop s = true -> exists s', ss' !! i = Some s' /\ stop s' = true) ->
  pub_ok c ss p -> pub_ok c ss' p.
Proof.
  intros Hl Hs []. split; try done.
  - eapply Forall_impl; [exact pb_ids0|]. simpl. lia.
  - eapply Forall_impl; [exact pb_gone0|]. simpl. intros i (s & ? & ?). eauto.
Qed.

(** One subscriber changes: its worker moves or its stop channel is closed. *)
Lemma async_sub c y i s s' wg t :
  async_inv c y -> subs y !! i = Some s -> sub_ok c s' ->
  accepted s' = accepted s -> (stop s = true -> stop s' = true) ->
  wg = closedWg y - b2z (running s) + b2z (running s') ->
  (forall j, j ∈ t <-> if decide (j = i) then stop s' = false else j ∈ table y) ->
  async_inv c (mkSys (cfg y) (<[i := s']> (subs y)) t (dropped y) (at_close y) wg (joining y) (checked y) (pubs y)).
Proof.
  intros [] Hi Hok Hacc Hstop Hwg Ht. pose proof (lookup_lt_Some _ _ _ Hi) as Hlt. split; simpl; try done.
  - by apply Forall_insert.
  - eapply Forall_impl; [exact a_pubs0|]. intros p. apply pub_ok_mono; [by rewrite length_insert|].
    intros j sj Hj Hsj. destruct (decide (i = j)) as [<-|Hne].
    + exists s'. rewrite list_lookup_insert_eq by done. simplify_eq. auto.
    + exists sj. by rewrite list_lookup_insert_ne.
  - intros j. rewrite Ht. destruct (decide (j = i)) as [->|Hne].
    + rewrite list_lookup_insert_eq by done. naive_solver.
    + rewrite list_lookup_insert_ne by done. apply a_table0.
  - intros j sj [(<- & -> & _)|[Hne Hj]]%list_lookup_insert_Some; [rewrite Hacc|]; eauto.
  - rewrite Hwg, a_wg0. by rewrite (tally_insert _ _ _ _ _ Hi).
Qed.

(** The worker of a subscriber moves, the stop channel as it was. *)
Lemma async_worker c y i s s' wg :
  async_inv c y -> subs y !! i = Some s -> sub_ok c s' ->
  accepted s' = accepted s -> stop s' = stop s ->
  wg = closedWg y - b2z (running s) + b2z (running s') ->
  async_inv c (mkSys (cfg y) (<[i := s']> (subs y)) (table y) (dropped y) (at_close y) wg (joining y) (checked y) (pubs y)).
Proof.
  intros Hy Hi Hok Hacc Hstop Hwg. eapply async_sub; try done; [congruence|].
  intros j. destruct (decide (j = i)) as [->|]; [|done]. rewrite (a_table _ _ Hy), Hi, Hstop. naive_solver.
Qed.

(** A publisher moves on: what the events received become. *)
Lemma received_same j ps k p p' : ps !! k = Some p -> event p' = event p ->
  (j ∈ sent p' <-> j ∈ sent p) -> received j (<[k := p']> ps) = received j ps.
Proof.
  unfold received. revert k. induction ps as [|q ps IH]; intros [|k] Hk He Hj; simplify_eq/=; rewrite !filter_cons.
  - destruct (decide (j ∈ sent p')), (decide (j ∈ sent p)); try tauto. simpl. by rewrite He.
  - destruct (decide (j ∈ sent q)); simpl; [f_equal|]; exact (IH _ Hk He Hj).
Qed.

Lemma received_more j ps k p p' : ps !! k = Some p -> event p' = event p ->
  j ∈ sent p' -> j ∉ sent p -> received j (<[k := p']> ps) ≡ₚ event p :: received j ps.
Proof.
  unfold received. revert k. induction ps as [|q ps IH]; intros [|k] Hk He Hj Hj'; simplify_eq/=; rewrite !filter_cons.
  - rewrite decide_True, decide_False by done. simpl. by rewrite He.
  - destruct (decide (j ∈ sent q)); simpl; [|exact (IH _ Hk He Hj Hj')].
    etransitivity; [apply perm_skip; exact (IH _ Hk He Hj Hj')|apply perm_swap].
Qed.

Lemma received_new j ps p : sent p = [] -> received j (ps ++ [p]) = received j ps.
Proof.
  intros Hs. unfold received. rewrite filter_app, filter_cons_False by (rewrite Hs; apply not_elem_of_nil).
  by rewrite app_nil_r.
Qed.

Lemma pub_next c ss e sn i t a d g :
  pub_ok c ss (mkPub e sn (i :: t) a d g) ->
  (i < length ss)%nat /\ (i ∉ a) /\
  (forall a' d' g', a' ++ d' ++ g' ≡ₚ i :: (a ++ d ++ g) -> sn ≡ₚ a' ++ d' ++ g' ++ t).
Proof.
  intros []. simpl in *. assert (i ∈ sn) as Hin by (rewrite pb_split0; set_solver).
  split_and!.
  - rewrite Forall_forall in pb_ids0. auto.
  - rewrite pb_split0 in pb_nodup0. apply NoDup_app in pb_nodup0 as (_ & Hd & _). intros Hi.
    apply (Hd i Hi). set_solver.
  - intros a' d' g' Hp. rewrite pb_split0, !app_assoc, <- (app_assoc a' d'), Hp. solve_Permutation.
Qed.

(** Drop and skip: only the publisher and the counter change. *)
Lemma async_pub c y k p p' n :
  async_inv c y -> pubs y !! k = Some p -> pub_ok c (subs y) p' ->
  event p' = event p -> sent p' = sent p ->
  n = dropped y - Z.of_nat (length (dropped_at p)) + Z.of_nat (length (dropped_at p')) ->
  async_inv c (mkSys (cfg y) (subs y) (table y) n (at_close y) (closedWg y) (joining y) (checked y) (<[k := p']> (pubs y))).
Proof.
  intros [] Hk Hok He Hs Hn. split; simpl; try done.
  - by apply Forall_insert.
  - intros i s Hi. rewrite (received_same _ _ _ p p' Hk He); [eauto|by rewrite Hs].
  - rewrite Hn, a_dropped0. by rewrite (total_insert _ _ _ _ _ Hk).
Qed.

Lemma async_send c y k e sn i t a d g s :
  async_inv c y -> pubs y !! k = Some (mkPub e sn (i :: t) a d g) -> subs y !! i = Some s ->
  full (cfg y) s = false ->
  async_inv c (mkSys (cfg y) (<[i := send e s]> (subs y)) (table y) (dropped y) (at_close y) (closedWg y)
                 (joining y) (checked y) (<[k := mkPub e sn t (a ++ [i]) d g]> (pubs y))).
Proof.
  intros Hy Hk Hi Hfull. pose proof Hy as []. pose proof (Forall_lookup_1 _ _ _ _ a_pubs0 Hk) as Hp.
  destruct (pub_next _ _ _ _ _ _ _ _ _ Hp) as (Hlt & Hni & Hsplit).
  pose proof (Forall_lookup_1 _ _ _ _ a_subs0 Hi) as [].
  assert (forall j sj, subs y !! j = Some sj -> stop sj = true ->
    exists sj', <[i := send e s]> (subs y) !! j = Some sj' /\ stop sj' = true) as Hmono.
  { intros j sj Hj Hsj. destruct (decide (i = j)) as [<-|Hne].
    - exists (send e s). rewrite list_lookup_insert_eq by done. by simplify_eq.
    - exists sj. by rewrite list_lookup_insert_ne. }
  split; simpl; try done.
  - apply Forall_insert; [done|]. unfold full in Hfull. rewrite a_cfg0 in Hfull. bool_to_prop.
    split; simpl; try done; [by rewrite sb_fifo0, app_assoc|]. rewrite length_app. simpl. lia.
  - apply Forall_insert.
    + eapply Forall_impl; [exact a_pubs0|]. intros p. apply pub_ok_mono; [by rewrite length_insert|done].
    + apply (pub_ok_mono _ (subs y)); [by rewrite length_insert|done|]. destruct Hp. split; try done.
      simpl. apply Hsplit. solve_Permutation.
  - intros j. rewrite a_table0. destruct (decide (i = j)) as [<-|Hne].
    + rewrite list_lookup_insert_eq, Hi by done. split; intros (s0 & [= <-] & Hs0); eauto.
    + by rewrite list_lookup_insert_ne.
  - intros j sj [(<- & <- & _)|[Hne Hj]]%list_lookup_insert_Some.
    + rewrite (received_more i _ _ _ (mkPub e sn t (a ++ [i]) d g) Hk); simpl; [|done|set_solver|done].
      rewrite <- (a_received0 i s Hi). solve_Permutation.
    + rewrite (received_same j _ _ _ (mkPub e sn t (a ++ [i]) d g) Hk); simpl; [by eauto|done|set_solver].
  - by rewrite (total_insert _ _ _ _ _ Hk), a_dropped0; simpl; lia.
  - by rewrite (tally_insert _ _ _ _ _ Hi), a_wg0; unfold running; simpl; lia.
Qed.

(** [Close] tells every subscriber of the table to stop. *)
Lemma async_close_all c y :
  async_inv c y ->
  async_inv c (mkSys (cfg y) (stop_all (table y) (subs y)) ∅ (dropped y) CClosed (closedWg y) (joining y) (checked y) (pubs y)).
Proof.
  intros [].
  assert (forall i s', stop_all (table y) (subs y) !! i = Some s' ->
    exists s, subs y !! i = Some s /\ stop s' = true /\ (s' = s \/ s' = close_stop s)) as Hst.
  { intros i s'. unfold stop_all. rewrite list_lookup_imap. destruct (subs y !! i) as [s|] eqn:Hi; [|done]. simpl.
    intros [= <-]. exists s. case_decide as Ht; [by eauto|]. split_and!; [done| |by left].
    destruct (stop s) eqn:Hs; [done|]. destruct Ht. apply a_table0. eauto. }
  assert (length (stop_all (table y) (subs y)) = length (subs y)) as Hlen by apply length_imap.
  split; simpl; try done.
  - apply Forall_lookup. intros i s' (s & Hi & _ & [->| ->])%Hst; pose proof (Forall_lookup_1 _ _ _ _ a_subs0 Hi) as []; by split.
  - eapply Forall_impl; [exact a_pubs0|]. intros p. apply pub_ok_mono; [lia|].
    intros i s Hi Hs. destruct (lookup_lt_is_Some_2 (stop_all (table y) (subs y)) i) as [s' Hs'].
    { rewrite Hlen. by eapply lookup_lt_Some. }
    destruct (Hst _ _ Hs') as (_ & _ & ? & _). eauto.
  - intros i. split; [set_solver|]. intros (s' & (s & _ & Hs & _)%Hst & Hs'). congruence.
  - intros i s' (s & Hi & _ & [->| ->])%Hst; simpl; eauto.
  - rewrite a_wg0. unfold tally, stop_all. generalize (table y). clear.
    induction (subs y) as [|s l IH] using rev_ind; intros t; [done|].
    rewrite imap_app, !total_app, <- IH. simpl. f_equal. unfold total. simpl. f_equal.
    by case_decide.
Qed.

Lemma async_join c y h joins : async_inv c y ->
  async_inv c (mkSys (cfg y) (subs y ++ [mkSub h [] false WSelect [] [] None]) ({[length (subs y)]} ∪ table y)
                 (dropped y) (at_close y) (closedWg y + 1) joins (checked y) (pubs y)).
Proof.
  intros []. split; simpl; try done.
  - apply Forall_app_2; [done|]. constructor; [|constructor]. split; simpl; try done. lia.
  - eapply Forall_impl; [exact a_pubs0|]. intros p. apply pub_ok_mono; [rewrite length_app; lia|].
    intros j s Hj Hs. exists s. split; [by apply lookup_app_l_Some|done].
  - intros j. rewrite elem_of_union, elem_of_singleton, a_table0. split.
    + intros [->|(s & Hj & Hs)].
      * eexists. split; [by apply list_lookup_middle|done].
      * exists s. split; [by apply lookup_app_l_Some|done].
    + intros (s & [[_ Hj]|[-> <-]]%lookup_snoc_Some & Hs); [right; eauto|by left].
  - intros j s [[_ Hj]|[-> <-]]%lookup_snoc_Some; [by eauto|]. simpl.
    unfold received.
    rewrite list_filter_none; [done|]. intros p Hp Hin. rewrite Forall_forall in a_pubs0.
    destruct (a_pubs0 p Hp). rewrite Forall_forall in pb_ids0.
    specialize (pb_ids0 (length (subs y)) ltac:(rewrite pb_split0; set_solver)). simpl in pb_ids0. lia.
  - rewrite tally_snoc. simpl. lia.
Qed.

Lemma async_publish c y e order n : async_inv c y -> order ≡ₚ elements (table y) ->
  async_inv c (mkSys (cfg y) (subs y) (table y) (dropped y) (at_close y) (closedWg y) (joining y) n
                 (pubs y ++ [mkPub e order order [] [] []])).
Proof.
  intros [] Ho. split; simpl; try done.
  - apply Forall_app_2; [done|]. constructor; [|constructor]. split; simpl; try done.
    + rewrite Ho. apply NoDup_elements.
    + apply Forall_forall. intros j Hj. rewrite Ho, elem_of_elements in Hj. apply a_table0 in Hj as (s & Hj & _).
      by eapply lookup_lt_Some.
    + by destruct (DropWhenFull _).
  - intros j s Hj. rewrite received_new; [by eauto|done].
  - rewrite total_snoc. simpl. lia.
Qed.

(** A step of the goroutine of [s] that only moves it along its loop. *)
Ltac worker_step s :=
  destruct (at_worker s) eqn:Hw; simplify_eq; unfold with_sub; apply (async_worker _ _ _ s); try done;
  first
    [ unfold running; simpl; rewrite Hw; simpl; lia
    | match goal with Hf : accepted s = _ |- _ =>
        split; simpl in *; [by rewrite ?Hf, <- ?app_assoc|lia|auto|destruct (at_exit s); naive_solver] end ].

Lemma act_async c a y y' : act a y = Some y' -> async_inv c y -> async_inv c y'.
Proof.
  intros Ha Hy. pose proof Hy as [].
  destruct a as [|h|id| |e order|k|k|k|i|i|i|i| |]; simpl in Ha.
  - destruct (closed y); simplify_eq. by split.
  - destruct (joining y); simplify_eq. by apply async_join.
  - case_decide as Ht; [|by simplify_eq]. destruct (subs y !! id) as [s|] eqn:Hi; simplify_eq/=.
    pose proof (Forall_lookup_1 _ _ _ _ a_subs0 Hi) as []. apply (async_sub _ _ _ s); try done; [unfold running; simpl; lia|].
    intros j. simpl. rewrite elem_of_difference, elem_of_singleton. destruct (decide (j = id)); naive_solver.
  - destruct (closed y); simplify_eq. by split.
  - destruct (checked y); [done|]. case_decide as Ho; simplify_eq. by apply async_publish.
  - destruct (pubs y !! k) as [[e sn [|i t] a d g]|] eqn:Hk; try done.
    destruct (subs y !! i) as [s|] eqn:Hi; [|done]. simpl in Ha. destruct (full (cfg y) s) eqn:Hf; simplify_eq.
    by eapply async_send.
  - destruct (pubs y !! k) as [[e sn [|i t] a d g]|] eqn:Hk; try done.
    destruct (subs y !! i) as [s|] eqn:Hi; [|done]. simpl in Ha.
    destruct (DropWhenFull (cfg y)) eqn:Hd; [|done]. destruct (full (cfg y) s) eqn:Hf; simplify_eq/=.
    pose proof (Forall_lookup_1 _ _ _ _ a_pubs0 Hk) as Hp. destruct (pub_next _ _ _ _ _ _ _ _ _ Hp) as (_ & _ & Hsp).
    apply (async_pub _ _ _ _ _ _ Hy Hk); try done; simpl; [|rewrite length_app; simpl; lia].
    destruct Hp. split; try done; simpl; [apply Hsp; solve_Permutation|by rewrite Hd in *].
  - destruct (pubs y !! k) as [[e sn [|i t] a d g]|] eqn:Hk; try done.
    destruct (subs y !! i) as [s|] eqn:Hi; [|done]. simpl in Ha.
    destruct (DropWhenFull (cfg y)) eqn:Hd; [done|]. destruct (stop s) eqn:Hs; simplify_eq/=.
    pose proof (Forall_lookup_1 _ _ _ _ a_pubs0 Hk) as Hp. destruct (pub_next _ _ _ _ _ _ _ _ _ Hp) as (_ & _ & Hsp).
    apply (async_pub _ _ _ _ _ _ Hy Hk); try done; simpl; [|lia].
    destruct Hp. split; try done; simpl; [apply Hsp; solve_Permutation|by rewrite Hd in *|].
    apply Forall_app_2; [done|]. constructor; [by eauto|constructor].
  - destruct (subs y !! i) as [s|] eqn:Hi; [|done]. simpl in Ha.
    pose proof (Forall_lookup_1 _ _ _ _ a_subs0 Hi) as [].
    destruct (ch s) as [|e q] eqn:Hch; [done|]. unfold draining in *.
    worker_step s.
  - destruct (subs y !! i) as [s|] eqn:Hi; [|done]. simpl in Ha.
    pose proof (Forall_lookup_1 _ _ _ _ a_subs0 Hi) as []. unfold draining in *.
    worker_step s.
  - destruct (subs y !! i) as [s|] eqn:Hi; [|done]. simpl in Ha.
    pose proof (Forall_lookup_1 _ _ _ _ a_subs0 Hi) as []. destruct (stop s) eqn:Hs; [|done].
    worker_step s.
  - destruct (subs y !! i) as [s|] eqn:Hi; [|done]. simpl in Ha.
    pose proof (Forall_lookup_1 _ _ _ _ a_subs0 Hi) as []. destruct (ch s) eqn:Hch; [|done].
    destruct (at_worker s) eqn:Hw; simplify_eq. unfold draining in *. rewrite Hw in *.
    apply (async_worker _ _ _ s); try done; [|unfold running; simpl; rewrite Hw; simpl; lia].
    split; simpl; rewrite ?Hch; auto. by rewrite sb_fifo0, app_nil_r.
  - destruct (closed y); simplify_eq. by split.
  - destruct (at_close y); simplify_eq. by apply async_close_all.
Qed.

Lemma normalized_size c : 0 < BufferSize (normalized c).
Proof. unfold normalized. destruct (Z.leb_spec (BufferSize c) 0); simpl; lia. Qed.

Lemma acts_async c l y y' : acts l y = Some y' -> async_inv c y -> async_inv c y'.
Proof.
  revert y. induction l as [|a l IH]; intros y Hl Hy; simplify_eq/=; [done|].
  destruct (act a y) as [y1|] eqn:Ha; simplify_eq/=. eauto using act_async.
Qed.

Lemma NewAsync_inv c : async_inv (normalized c) (NewAsync c).
Proof.
  split; simpl; try done; try constructor; [apply normalized_size|set_solver|].
  by intros (s & Hs & _).
Qed.

(** What is left to do for a worker told to stop, if nothing more arrives. *)
Definition worker_action (a : action) : option nat :=
  match a with ARecv i | AHandled i | AStop i | AExit i => Some i | _ => None end.

Definition work_left (s : asyncSub) : nat :=
  2 * length (ch s) +
  match at_worker s with WHandle => 3 | WSelect => 2 | WDrainHandle => 2 | WDrain => 1 | WExit => 0 end.

Lemma worker_enabled c y i s : async_inv c y -> subs y !! i = Some s -> stop s = true -> running s = true ->
  exists a y', worker_action a = Some i /\ act a y = Some y'.
Proof.
  intros Hy Hi Hs Hr. unfold running in Hr. destruct (at_worker s) eqn:Hw; try done.
  - exists (AStop i). simpl. rewrite Hi. simpl. rewrite Hs, Hw. eauto.
  - exists (AHandled i). simpl. rewrite Hi. simpl. rewrite Hw. eauto.
  - destruct (ch s) as [|e q] eqn:Hch.
    + exists (AExit i). simpl. rewrite Hi. simpl. rewrite Hch, Hw. eauto.
    + exists (ARecv i). simpl. rewrite Hi. simpl. rewrite Hch, Hw. eauto.
  - exists (AHandled i). simpl. rewrite Hi. simpl. rewrite Hw. eauto.
Qed.

Lemma worker_progress a i y y' : act a y = Some y' -> worker_action a = Some i ->
  exists s s', subs y !! i = Some s /\ subs y' !! i = Some s' /\ (work_left s' < work_left s)%nat.
Proof.
  intros Ha Hi. destruct a; simplify_eq/=; destruct (subs y !! i) as [s|] eqn:Hs; try done; simpl in Ha;
    (destruct (ch s) eqn:Hch, (stop s) eqn:Hst, (at_worker s) eqn:Hw; simplify_eq/=;
     (eexists _, _; split; [done|split; [apply list_lookup_insert_eq; by eapply lookup_lt_Some|]]);
     unfold work_left; simpl; rewrite ?Hch, ?Hw; simpl; lia).
Qed.

Lemma close_stops_all c y y' : async_inv c y -> act ACloseAll y = Some y' ->
  Forall (fun s => stop s = true) (subs y').
Proof.
  intros Hy Ha. pose proof (act_async _ _ _ _ Ha Hy) as Hy'.
  apply Forall_lookup. intros i s Hi. destruct (stop s) eqn:Hs; [done|].
  assert (i ∈ table y') as Hin by (apply (a_table _ _ Hy'); eauto).
  simpl in Ha. destruct (at_close y); simplify_eq/=. set_solver.
Qed.

End interleavings.


Definition async_trace : list (@action string) :=
  [ACheck; AJoin 7; AEnter; APublish "a" [0]; ASend 0; ARecv 0; AEnter; APublish "b" [0]; ASend 1;
   AEnter; APublish "c" [0]; ADrop 2; AClose; ACloseAll; AHandled 0; AStop 0; ARecv 0; AHandled 0; AExit 0]%nat.


(** A publisher that read the table before a [Close] can still put its event
    into the queue of a worker that has left: nobody handles or counts it. *)
Lemma async_lost_event :
  exists y, acts [ACheck; AJoin 7; AEnter; APublish "late" [0]; AClose; ACloseAll; AStop 0; AExit 0; ASend 0]%nat
      (NewAsync (mkConfig 1 false)) = Some y /\
    closedWg y = 0 /\ dropped y = 0 /\ map ch (subs y) = [["late"]] /\ map handled (subs y) = [[]].
Proof. eexists. split; [vm_compute; reflexivity|]. by split_and!. Qed.

(** A [Subscribe] that found the bus open and goes on after [Close] leaves a
    worker that only its own [Unsubscribe] can stop. *)
Lemma async_late_subscriber :
  exists y, acts (E := string) [ACheck; AClose; ACloseAll; AJoin 7]%nat (NewAsync (mkConfig 1 false)) = Some y /\
    closedWg y = 1 /\ map stop (subs y) = [false] /\
    act ACloseAll y = None /\ act AClose y = None /\ act (AStop 0) y = None.
Proof. eexists. split; [vm_compute; reflexivity|]. by split_and!. Qed.
