(* ===== verification/Vfs.v ===== *)
(** [internal/vfs]: [Mem], the in-memory file system.

    The state is the map from clean paths to entries. An entry is never
    changed once stored and file contents are copied in and out, so entries
    are values. [MkdirAll] recurs on the parent path; its fuel is the length of
    the path, which is enough. [OS] only calls the [os] package and is not
    modelled. The lock makes every method one step. *)
From S2P Require Import Prelude GoNum GoStrings GoPath PathLaws.

Inductive sentinel := ErrNotExist | errIsDirectory | errNotDirectory | errDirNotEmpty.

Record PathError := mkPathError { Op : string; Path : string; Err_ : sentinel }.

Record memEntry := mkEntry { data : string; perm : Z; dir : bool; modTime : Time }.

Abbreviation Mem := (gmap string memEntry) (only parsing).

Definition NewMem : Mem := {["." := mkEntry "" 493 true zeroTime]}.

Definition ReadFile (path : string) (m : Mem) : result PathError string :=
  let clean := Clean path in
  match m !! clean with
  | None => Err (mkPathError "open" path ErrNotExist)
  | Some e => if dir e then Err (mkPathError "read" path errIsDirectory) else Ok (data e)
  end.

Definition WriteFile (now : Time) (path data : string) (perm : Z) (m : Mem) : Mem * option PathError :=
  let clean := Clean path in
  if (clean =? ".")%string || (clean =? "/")%string then (m, Some (mkPathError "write" path errIsDirectory))
  else if match m !! clean with Some e => dir e | None => false end
       then (m, Some (mkPathError "write" path errIsDirectory))
  else
    let parent := Dir clean in
    if negb ((parent =? ".")%string || (parent =? "/")%string) &&
       match m !! parent with Some e => negb (dir e) | None => true end
    then (m, Some (mkPathError "open" path ErrNotExist))
    else (<[clean := mkEntry data perm false now]> m, None).

(** [memInfo]: the name and the entry. *)
Definition Stat (path : string) (m : Mem) : result PathError (string * memEntry) :=
  let clean := Clean path in
  match m !! clean with
  | None => Err (mkPathError "stat" path ErrNotExist)
  | Some e => Ok (basename clean, e)
  end.

(** [None]: the fuel has run out. *)
Fixpoint mkdirAllLocked (fuel : nat) (now : Time) (clean : string) (perm : Z) (m : Mem) :
  option (Mem * option PathError) :=
  if (clean =? ".")%string || (clean =? "/")%string || (clean =? "")%string then Some (m, None)
  else match m !! clean with
       | Some e => Some (m, if dir e then None else Some (mkPathError "mkdir" clean errNotDirectory))
       | None =>
         match fuel with
         | O => None
         | S fuel =>
           '(m, err) ← mkdirAllLocked fuel now (Dir clean) perm m;
           match err with
           | Some _ => Some (m, err)
           | None => Some (<[clean := mkEntry "" perm true now]> m, None)
           end
         end
       end.

Definition MkdirAll (now : Time) (path : string) (perm : Z) (m : Mem) : option (Mem * option PathError) :=
  let clean := Clean path in mkdirAllLocked (len clean) now clean perm m.

Definition has_child (clean : string) (m : Mem) : bool :=
  existsb (fun p => negb (p =? clean)%string && HasPrefix p (clean +:+ "/")) (map_to_list m).*1.

Definition Remove (path : string) (m : Mem) : Mem * option PathError :=
  let clean := Clean path in
  match m !! clean with
  | None => (m, Some (mkPathError "remove" path ErrNotExist))
  | Some e =>
    if dir e && has_child clean m then (m, Some (mkPathError "remove" path errDirNotEmpty))
    else (delete clean m, None)
  end.

Definition relativeChild (p prefix : string) : option string :=
  if negb (prefix =? "")%string && negb (HasPrefix p prefix) then None
  else
    let rel := if (prefix =? "")%string then p else str_drop (len prefix) p in
    let rel := match Index rel "/" with Some idx => str_take idx rel | None => rel end in
    if (rel =? "")%string then None else Some rel.

(** The loop of [ReadDir] over the map: the first entry seen for each name. *)
Definition read_step (clean prefix : string) (entries : list (string * memEntry)) (kv : string * memEntry) :
  list (string * memEntry) :=
  let '(p, e) := kv in
  if (p =? clean)%string then entries
  else match relativeChild p prefix with
       | None => entries
       | Some rel => if decide (rel ∈ entries.*1) then entries else entries ++ [(rel, e)]
       end.

Definition assertReadDirTarget (path clean : string) (m : Mem) : option PathError :=
  if (clean =? ".")%string then None
  else match m !! clean with
       | None => Some (mkPathError "open" path ErrNotExist)
       | Some e => if dir e then None else Some (mkPathError "fdopendir" path errNotDirectory)
       end.

Definition by_name (a b : string * memEntry) : bool := String.leb a.1 b.1.

Definition ReadDir `{MapIter} (path : string) (m : Mem) : result PathError (list (string * memEntry)) :=
  let clean := Clean path in
  match assertReadDirTarget path clean m with
  | Some err => Err err
  | None =>
    let prefix := if (clean =? ".")%string then "" else clean +:+ "/" in
    Ok (isort by_name (foldl (read_step clean prefix) [] (range m)))
  end.

(** [memInfo] and [memDirEntry] are the name and the entry; these are their methods. *)
Definition ModeDir : Z := 2 ^ 31.
Definition info_Name (i : string * memEntry) : string := i.1.
Definition info_Size (i : string * memEntry) : Z := Z.of_nat (len (data i.2)).
Definition info_Mode (i : string * memEntry) : Z := perm i.2.
Definition info_ModTime (i : string * memEntry) : Time := modTime i.2.
Definition info_IsDir (i : string * memEntry) : bool := dir i.2.
Definition entry_Type (d : string * memEntry) : Z := if dir d.2 then ModeDir else 0.
Definition entry_Info (d : string * memEntry) : string * memEntry := d.

(** [clock]: the time of the function set, if there is one. *)
Definition clock (now : option (unit -> Time)) : Time := match now with None => zeroTime | Some now => now tt end.

(** [os.FileInfo] documents [IsDir] as short for [Mode().IsDir()]; the mode kept here
    has no type bits unless the caller passes them, so the two disagree. *)
Lemma mode_lacks_dir : exists i, Stat "." NewMem = Ok i /\ info_IsDir i = true /\
  Z.land (info_Mode i) ModeDir = 0 /\ entry_Type i = ModeDir /\ info_Mode (entry_Info i) = 493.
Proof. eexists. split; [vm_compute; reflexivity|]. by split_and!. Qed.

(** The calls that change the state. *)
Inductive call :=
| CWrite (now : Time) (path data : string) (perm : Z)
| CMkdir (now : Time) (path : string) (perm : Z)
| CRemove (path : string).

Definition step (c : call) (m : Mem) : option Mem :=
  match c with
  | CWrite now path data perm => Some (WriteFile now path data perm m).1
  | CMkdir now path perm => fst <$> MkdirAll now path perm m
  | CRemove path => Some (Remove path m).1
  end.

Fixpoint steps (l : list call) (m : Mem) : option Mem :=
  match l with
  | [] => Some m
  | c :: l => m ← step c m; steps l m
  end.

(** ** The tree *)

Definition is_root (p : path) : Prop := p.2 = [].

Lemma render_root p : path_ok p -> (render p = "." \/ render p = "/") <-> p.2 = [].
Proof.
  intros Hp. split.
  - intros [He|He].
    + assert (p = (false, [])) as -> by (apply render_inj; [done|done|exact He]). done.
    + assert (p = (true, [])) as -> by (apply render_inj; [done|done|exact He]). done.
  - destruct p as [[] cs]; simpl; intros ->; auto.
Qed.

Lemma clean_cases s : Clean s = s ->
  (s = "." \/ s = "/") \/ exists r cs c, s = render (r, cs ++ [c]) /\ path_ok (r, cs ++ [c]).
Proof.
  rewrite Clean_render. intros Hs. pose proof (parse_ok s) as Hp. destruct (parse s) as [r cs].
  destruct (decide (cs = [])) as [->|Hne]; [left; rewrite <- Hs; by apply (render_root (r, []))|right].
  destruct (exists_last Hne) as (cs' & c & ->). by exists r, cs', c.
Qed.

Lemma render_child r cs c : cs <> [] -> render (r, cs ++ [c]) = render (r, cs) +:+ "/" +:+ c.
Proof.
  intros Hne. unfold render. cbn [fst snd]. rewrite (Join_snoc cs c Hne). destruct r.
  - by rewrite str_app_assoc.
  - destruct cs; [done|]. done.
Qed.

(** Keys are clean, and every directory on the way to one is there. *)
Record fs_wf (m : Mem) : Prop := {
  wf_clean : forall k e, m !! k = Some e -> Clean k = k /\ k <> "/";
  wf_parent : forall r cs c e, path_ok (r, cs ++ [c]) -> m !! render (r, cs ++ [c]) = Some e -> cs <> [] ->
    exists e', m !! render (r, cs) = Some e' /\ dir e' = true }.

Lemma fs_ancestor m r cs cs' e : fs_wf m -> path_ok (r, cs ++ cs') -> cs <> [] -> cs' <> [] ->
  m !! render (r, cs ++ cs') = Some e -> exists e', m !! render (r, cs) = Some e' /\ dir e' = true.
Proof.
  intros Hm. revert e. induction cs' as [|c cs' IH] using rev_ind; intros e Hp Hne Hne' He; [done|].
  rewrite app_assoc in *. destruct (wf_parent m Hm r (cs ++ cs') c e Hp He) as (e' & He' & Hd); [by destruct cs|].
  destruct (decide (cs' = [])) as [->|Hn]; [rewrite app_nil_r in He'; eauto|].
  apply (IH e' (proj1 (path_ok_parent _ _ _ Hp)) Hne Hn He').
Qed.

Lemma NewMem_wf : fs_wf NewMem.
Proof.
  split; unfold NewMem.
  - intros k e [<- <-]%lookup_singleton_Some. done.
  - intros r cs c e Hp [He _]%lookup_singleton_Some Hne. symmetry in He.
    pose proof (proj1 (render_root _ Hp) (or_introl He)) as Hnil. by destruct cs.
Qed.

(** A new file or directory under a directory that is there. *)
Lemma insert_wf m r cs c e :
  fs_wf m -> path_ok (r, cs ++ [c]) ->
  (cs <> [] -> exists e', m !! render (r, cs) = Some e' /\ dir e' = true) ->
  (match m !! render (r, cs ++ [c]) with Some e0 => dir e0 = true -> dir e = true | None => True end) ->
  fs_wf (<[render (r, cs ++ [c]) := e]> m).
Proof.
  intros Hm Hp Hpar Hdir. assert (cs ++ [c] <> []) as Hne by (by destruct cs). split.
  - intros k e' [[<- <-]|[_ Hk]]%lookup_insert_Some; [|by eapply wf_clean].
    split; [by rewrite Clean_render, parse_render|]. intros He.
    by apply Hne, (proj1 (render_root _ Hp)); right.
  - intros r' cs' c' e' Hp' Hk Hne'. destruct (path_ok_parent _ _ _ Hp') as [Hcs' _].
    assert (exists e0, m !! render (r', cs') = Some e0 /\ dir e0 = true) as (e0 & He0 & Hd0).
    { apply lookup_insert_Some in Hk as [[Heq _]|[_ Hk]]; [|by eapply wf_parent].
      apply render_inj in Heq; [|done|done]. injection Heq as <- Hi. apply app_inj_tail in Hi as [<- <-]. by apply Hpar. }
    destruct (decide (render (r, cs ++ [c]) = render (r', cs'))) as [Heq|Hne0].
    + exists e. rewrite Heq, lookup_insert_eq. rewrite Heq, He0 in Hdir. auto.
    + exists e0. by rewrite lookup_insert_ne.
Qed.

(** A child of a directory has the directory's text and a slash before it. *)
Lemma has_child_spec m r cs : path_ok (r, cs) -> cs <> [] ->
  has_child (render (r, cs)) m = false ->
  forall c e, path_ok (r, cs ++ [c]) -> m !! render (r, cs ++ [c]) = Some e -> False.
Proof.
  intros Hp Hne Hch c e Hpc He. apply not_true_iff_false in Hch. apply Hch. unfold has_child.
  apply existsb_exists. exists (render (r, cs ++ [c])). split.
  - apply list_elem_of_In, list_elem_of_fmap. exists (render (r, cs ++ [c]), e). by rewrite elem_of_map_to_list.
  - apply andb_true_iff. split.
    + apply negb_true_iff, String.eqb_neq. intros Heq. apply render_inj in Heq; [|done|done].
      injection Heq as Heq. apply (f_equal length) in Heq. rewrite length_app in Heq. simpl in Heq. lia.
    + apply HasPrefix_spec. exists c. by rewrite render_child, str_app_assoc by done.
Qed.

Lemma Remove_wf path m : fs_wf m -> fs_wf (Remove path m).1.
Proof.
  intros Hm. unfold Remove. destruct (m !! Clean path) as [e|] eqn:He; [|done].
  destruct (dir e && has_child (Clean path) m) eqn:Hc; [done|]. simpl. split.
  - intros k e' [_ Hk]%lookup_delete_Some. by eapply wf_clean.
  - intros r cs c e' Hp [Hne Hk]%lookup_delete_Some Hcs.
    destruct (wf_parent m Hm r cs c e' Hp Hk Hcs) as (e0 & He0 & Hd0). exists e0. split; [|done].
    apply lookup_delete_Some. split; [|done]. intros Heq. rewrite Heq in *. rewrite He in He0. simplify_eq.
    rewrite Hd0 in Hc. simpl in Hc. destruct (path_ok_parent _ _ _ Hp) as [Hpc _].
    by eapply has_child_spec.
Qed.

Lemma Clean_root_test s : (Clean s =? ".")%string || (Clean s =? "/")%string = false ->
  exists r cs c, Clean s = render (r, cs ++ [c]) /\ path_ok (r, cs ++ [c]).
Proof.
  intros [H1%String.eqb_neq H2%String.eqb_neq]%orb_false_iff.
  destruct (clean_cases (Clean s) (Clean_idemp s)) as [[?|?]|?]; done.
Qed.

Lemma WriteFile_wf now path data perm m : fs_wf m -> fs_wf (WriteFile now path data perm m).1.
Proof.
  intros Hm. unfold WriteFile. destruct (_ || _) eqn:Hroot; [done|].
  destruct (match m !! Clean path with Some e => dir e | None => false end) eqn:Hd; [done|].
  destruct (Clean_root_test _ Hroot) as (r & cs & c & Hr & Hp). rewrite Hr in *. rewrite Dir_render by done.
  destruct (negb _ && _) eqn:Hpar; [done|]. simpl. apply insert_wf; [done|done| |].
  - intros Hne. destruct (path_ok_parent _ _ _ Hp) as [Hpc _].
    assert ((render (r, cs) =? ".")%string || (render (r, cs) =? "/")%string = false) as Hnr.
    { apply orb_false_iff. rewrite !String.eqb_neq. split; intros Heq; apply Hne;
        apply (proj1 (render_root _ Hpc)); auto. }
    rewrite Hnr in Hpar. simpl in Hpar. destruct (m !! render (r, cs)) as [e0|]; [|done].
    apply negb_false_iff in Hpar. eauto.
  - destruct (m !! render (r, cs ++ [c])); [congruence|done].
Qed.

Definition made (r : bool) (cs : list string) (e : memEntry) (m m' : Mem) : Prop :=
  fs_wf m' /\ (forall k e0, m !! k = Some e0 -> m' !! k = Some e0) /\
  (forall cs1, cs1 `prefix_of` cs -> cs1 <> [] -> exists e0, m' !! render (r, cs1) = Some e0 /\ dir e0 = true) /\
  (forall k e0, m' !! k = Some e0 ->
     m !! k = Some e0 \/ e0 = e /\ exists cs1, cs1 `prefix_of` cs /\ k = render (r, cs1)).

Definition blocked (r : bool) (cs : list string) (m : Mem) (x : PathError) : Prop :=
  Err_ x = errNotDirectory /\
  exists cs1 e, cs1 `prefix_of` cs /\ Path x = render (r, cs1) /\ m !! render (r, cs1) = Some e /\ dir e = false.

Lemma prefix_snoc_cases {A} (l1 l : list A) x : l1 `prefix_of` l ++ [x] -> l1 `prefix_of` l \/ l1 = l ++ [x].
Proof.
  intros [k Hk]. destruct k as [|y k _] using rev_ind.
  - rewrite app_nil_r in Hk. by right.
  - rewrite app_assoc in Hk. apply app_inj_tail in Hk as [-> _]. left. by apply prefix_app_r.
Qed.

Lemma path_ok_prefix r cs1 cs : cs1 `prefix_of` cs -> path_ok (r, cs) -> path_ok (r, cs1).
Proof.
  intros [k ->]. induction k as [|c k IH] using rev_ind; [by rewrite app_nil_r|].
  rewrite app_assoc. intros [Hp _]%path_ok_parent. auto.
Qed.

Lemma fs_dirs m r cs cs1 e : fs_wf m -> path_ok (r, cs) -> cs1 `prefix_of` cs -> cs1 <> [] ->
  m !! render (r, cs) = Some e -> dir e = true -> exists e', m !! render (r, cs1) = Some e' /\ dir e' = true.
Proof.
  intros Hm Hp [k ->] Hne He Hd. destruct (decide (k = [])) as [->|Hk]; [rewrite app_nil_r in He; eauto|].
  by eapply fs_ancestor.
Qed.

Lemma render_nonempty p : path_ok p -> render p <> "".
Proof.
  destruct p as [[] cs]; intros Hp He; [done|]. destruct cs as [|c cs]; [done|].
  destruct (Join_nonempty _ (path_ok_comps _ _ Hp) ltac:(done)) as (d & t & E & _).
  unfold render in He. cbn [fst snd] in He. by rewrite E in He.
Qed.

Lemma mkdir_root fuel now s perm m :
  (s =? ".")%string || (s =? "/")%string || (s =? "")%string = true ->
  mkdirAllLocked fuel now s perm m = Some (m, None).
Proof. intros Hs. destruct fuel; simpl; by rewrite Hs. Qed.

Lemma mkdir_spec now perm m r cs fuel : (length cs <= fuel)%nat -> path_ok (r, cs) -> fs_wf m ->
  exists m' err, mkdirAllLocked fuel now (render (r, cs)) perm m = Some (m', err) /\
    match err with
    | None => made r cs (mkEntry "" perm true now) m m'
    | Some x => m' = m /\ blocked r cs m x
    end.
Proof.
  intros Hfuel Hp Hm. revert fuel Hfuel Hp. induction cs as [|c cs IH] using rev_ind; intros fuel Hfuel Hp.
  { exists m, None. split; [by rewrite mkdir_root by (by destruct r)|]. split_and!; try done; [|by eauto].
    intros cs1 [k Hk] Hne. by destruct cs1. }
  rewrite length_app in Hfuel. simpl in Hfuel. destruct fuel as [|fuel]; [lia|].
  destruct (path_ok_parent _ _ _ Hp) as [Hpc Hc].
  assert (String.eqb (render (r, cs ++ [c])) "." || String.eqb (render (r, cs ++ [c])) "/"
    || String.eqb (render (r, cs ++ [c])) "" = false) as Hroot.
  { rewrite !orb_false_iff, !String.eqb_neq. split_and!; intros He.
    - pose proof (proj1 (render_root _ Hp) (or_introl He)) as H. by destruct cs.
    - pose proof (proj1 (render_root _ Hp) (or_intror He)) as H. by destruct cs.
    - exact (render_nonempty _ Hp He). }
  simpl. rewrite Hroot. destruct (m !! render (r, cs ++ [c])) as [e|] eqn:He.
  - destruct (dir e) eqn:Hd.
    + do 2 eexists. split; [done|]. simpl. split_and!; try done; [|by eauto].
      intros cs1 Hpre Hne. exact (fs_dirs m r _ cs1 e Hm Hp Hpre Hne He Hd).
    + do 2 eexists. split; [done|]. simpl. split; [done|]. split; [done|]. exists (cs ++ [c]), e. split_and!; done.
  - rewrite Dir_render by done. destruct (IH fuel ltac:(lia) Hpc) as (m1 & err & -> & Hmade). simpl.
    destruct err as [x|].
    + destruct Hmade as (-> & Hx & cs1 & e & Hpre & ? & ? & ?). do 2 eexists. split; [done|]. simpl.
      split; [done|]. split; [done|]. exists cs1, e. split_and!; try done. by apply prefix_app_r.
    + destruct Hmade as (Hm1 & Hsub & Hdirs & Hnew). do 2 eexists. split; [done|]. simpl.
      assert (forall k, k <> render (r, cs ++ [c]) -> <[render (r, cs ++ [c]) := mkEntry "" perm true now]> m1 !! k = m1 !! k)
        as Hother by (intros; by apply lookup_insert_ne).
      split_and!.
      * apply insert_wf; [done|done| |by destruct (m1 !! _)]. intros Hne. by apply Hdirs.
      * intros k e0 Hk. rewrite Hother; [by apply Hsub|]. intros ->. by rewrite He in Hk.
      * intros cs1 [Hpre|Heq]%prefix_snoc_cases Hne.
        -- destruct (Hdirs cs1 Hpre Hne) as (e0 & He0 & Hd0). exists e0. rewrite Hother; [done|].
           intros Heq. apply render_inj in Heq; [|by eapply path_ok_prefix|done].
           injection Heq as ->. by apply prefix_snoc_not in Hpre.
        -- subst cs1. rewrite lookup_insert_eq. eauto.
      * intros k e0 [[<- <-]|[_ Hk]]%lookup_insert_Some; [right; split; [done|]; by exists (cs ++ [c])|].
        destruct (Hnew k e0 Hk) as [?|(-> & cs1 & Hpre & ->)]; [by left|right]. split; [done|].
        exists cs1. split; [by apply prefix_app_r|done].
Qed.

Lemma length_Join cs : Forall comp_ok cs -> (length cs <= len (Join cs "/"))%nat.
Proof.
  induction 1 as [|c cs (Hc & _) Hcs IH]; simpl; [lia|].
  assert (1 <= len c)%nat by (destruct c; [done|simpl; lia]).
  destruct cs; simpl in *; [lia|]. rewrite !str_len_app. simpl in *. lia.
Qed.

Lemma length_render r cs : path_ok (r, cs) -> (length cs <= len (render (r, cs)))%nat.
Proof.
  intros Hp. pose proof (length_Join cs (path_ok_comps _ _ Hp)). unfold render. cbn [fst snd].
  destruct r; [rewrite str_len_app; simpl; lia|]. by destruct cs; [simpl; lia|].
Qed.

Lemma MkdirAll_spec now path perm m r cs : parse path = (r, cs) -> fs_wf m ->
  exists m' err, MkdirAll now path perm m = Some (m', err) /\
    match err with
    | None => made r cs (mkEntry "" perm true now) m m'
    | Some x => m' = m /\ blocked r cs m x
    end.
Proof.
  intros Hpath Hm. pose proof (parse_ok path) as Hp. rewrite Hpath in Hp. unfold MkdirAll. rewrite Clean_render, Hpath.
  apply mkdir_spec; [by apply length_render|done|done].
Qed.

Lemma step_wf c m : fs_wf m -> exists m', step c m = Some m' /\ fs_wf m'.
Proof.
  intros Hm. destruct c as [now path data perm|now path perm|path]; simpl.
  - eexists. split; [done|by apply WriteFile_wf].
  - destruct (parse path) as [r cs] eqn:Hpath. destruct (MkdirAll_spec now path perm m r cs Hpath Hm) as (m' & err & -> & Hx).
    exists m'. split; [done|]. destruct err; [by destruct Hx as [-> _]|apply Hx].
  - eexists. split; [done|by apply Remove_wf].
Qed.

Lemma steps_wf l : forall m, fs_wf m -> exists m', steps l m = Some m' /\ fs_wf m'.
Proof.
  induction l as [|c l IH]; intros m Hm; simpl; [by eauto|].
  destruct (step_wf c m Hm) as (m1 & -> & Hm1). simpl. auto.
Qed.

(** C33. From a new file system, every sequence of writes, directory creations
    and removals goes through (no recursion of [MkdirAll] runs out), and what
    it leaves is a tree: every key is a clean path, and every path strictly
    above a key is a key that holds a directory. *)
Theorem mem_tree l : exists m, steps l NewMem = Some m /\
  (forall k e, m !! k = Some e -> Clean k = k) /\
  (forall r cs cs' e, path_ok (r, cs ++ cs') -> cs <> [] -> cs' <> [] -> m !! render (r, cs ++ cs') = Some e ->
     exists e', m !! render (r, cs) = Some e' /\ dir e' = true).
Proof.
  destruct (steps_wf l NewMem NewMem_wf) as (m & Hl & Hm). exists m. split_and!; [done| |].
  - intros k e Hk. by apply (wf_clean m Hm k e).
  - intros. by eapply fs_ancestor.
Qed.

Lemma root_test p : path_ok p ->
  String.eqb (render p) "." || String.eqb (render p) "/" = bool_decide (p.2 = []).
Proof.
  intros Hp. apply eq_true_iff_eq. rewrite orb_true_iff, !String.eqb_eq, bool_decide_eq_true. by apply render_root.
Qed.

(** When a write goes through: not a root, not a directory, and the parent a
    directory or a root. *)
Definition writable (r : bool) (cs : list string) (m : Mem) : Prop :=
  exists cs' c, cs = cs' ++ [c] /\
    (forall e, m !! render (r, cs) = Some e -> dir e = false) /\
    (cs' <> [] -> exists e, m !! render (r, cs') = Some e /\ dir e = true).

Lemma WriteFile_spec now path d perm m r cs : parse path = (r, cs) ->
  let '(m', err) := WriteFile now path d perm m in
  match err with
  | None => writable r cs m /\ m' = <[render (r, cs) := mkEntry d perm false now]> m
  | Some _ => m' = m /\ ~ writable r cs m
  end.
Proof.
  intros Hpath. pose proof (parse_ok path) as Hp. rewrite Hpath in Hp. unfold WriteFile. rewrite Clean_render, Hpath.
  rewrite (root_test _ Hp). simpl. case_bool_decide as Hcs.
  { split; [done|]. intros (cs' & c & -> & _). by destruct cs'. }
  destruct (exists_last Hcs) as (cs' & c & ->).
  destruct (m !! render (r, cs' ++ [c])) as [e|] eqn:He; [destruct (dir e) eqn:Hd|].
  { split; [done|]. intros (cs1 & c1 & _ & Hx & _). specialize (Hx e He). congruence. }
  all: rewrite Dir_render, root_test by (try done; by apply (path_ok_parent _ _ _ Hp)); simpl; case_bool_decide as Hr; simpl;
    [subst cs'; split; [|done]; exists [], c; rewrite He; split_and!; naive_solver|];
    destruct (m !! render (r, cs')) as [e'|] eqn:He'; [destruct (dir e') eqn:Hd'|]; simpl;
    [split; [|done]; exists cs', c; rewrite He; split_and!; [done|naive_solver|eauto]|..];
    (split; [done|]); intros (cs1 & c1 & [<- <-]%app_inj_tail & _ & Hx); destruct (Hx Hr) as (e1 & He1 & ?); congruence.
Qed.

Lemma Remove_spec path m r cs : parse path = (r, cs) -> fs_wf m ->
  let '(m', err) := Remove path m in
  match err with
  | None => is_Some (m !! render (r, cs)) /\ m' = delete (render (r, cs)) m /\
            (cs <> [] -> forall c, path_ok (r, cs ++ [c]) -> m !! render (r, cs ++ [c]) = None)
  | Some x => m' = m /\ (m !! render (r, cs) = None \/ Err_ x = errDirNotEmpty /\ has_child (render (r, cs)) m = true)
  end.
Proof.
  intros Hpath Hm. pose proof (parse_ok path) as Hp. rewrite Hpath in Hp. unfold Remove. rewrite Clean_render, Hpath.
  destruct (m !! render (r, cs)) as [e|] eqn:He; [|by auto].
  destruct (dir e && has_child (render (r, cs)) m) eqn:Hc.
  - apply andb_true_iff in Hc as [_ Hc]. auto.
  - split_and!; [done|done|]. intros Hne c Hpc. destruct (m !! render (r, cs ++ [c])) as [e1|] eqn:He1; [|done].
    destruct (wf_parent m Hm r cs c e1 Hpc He1 Hne) as (e2 & He2 & Hd). rewrite He in He2. simplify_eq.
    rewrite Hd in Hc. simpl in Hc. destruct (has_child_spec m r cs Hp Hne Hc c e1 Hpc He1).
Qed.


Definition two_files : list call :=
  [CMkdir 1 "src/./lib" 493; CWrite 2 "src/lib/a.go" "package a" 420; CWrite 3 "./src/b.go" "package b" 420].

Definition demo_fs : Mem := default ∅ (steps two_files NewMem).

Lemma demo_fs_wf : fs_wf demo_fs.
Proof. unfold demo_fs. destruct (steps_wf two_files NewMem NewMem_wf) as (m & -> & Hm). exact Hm. Qed.


(** [Remove] takes the implicit root away, whatever is in it. *)
Lemma remove_dot :
  (Remove "." demo_fs).2 = None /\ Stat "." (Remove "." demo_fs).1 = Err (mkPathError "stat" "." ErrNotExist).
Proof. by split; vm_compute. Qed.

(** The absolute root is never an entry: it cannot be listed even when it has
    children. *)
Lemma root_missing : let m := default ∅ (steps [CMkdir 1 "/a" 493] NewMem) in
  ReadDir "/" m = Err (mkPathError "open" "/" ErrNotExist) /\ is_ok (Stat "/a" m) = true.
Proof. by split; vm_compute. Qed.

(** ** Listings *)

Lemma SplitByte_app_sep s t c : SplitByte (s +:+ String c t) c = SplitByte s c ++ SplitByte t c.
Proof.
  induction s as [|d s IH]; simpl; [by rewrite Ascii.eqb_refl|].
  destruct (Ascii.eqb d c); [by rewrite IH|]. rewrite IH.
  destruct (SplitByte_cons_ne s c) as (h & l & ->). done.
Qed.

Definition first_component (rel : string) : string :=
  match Index rel "/" with Some idx => str_take idx rel | None => rel end.

Lemma first_component_split rel : exists l, SplitByte rel slash = first_component rel :: l.
Proof.
  unfold first_component. induction rel as [|d rel IH]; [by exists []|].
  cbn [Index SplitByte]. assert (HasPrefix (String d rel) "/" = Ascii.eqb d slash) as ->.
  { apply eq_true_iff_eq. rewrite HasPrefix_spec, Ascii.eqb_eq. split.
    - by intros [t [= -> _]].
    - intros ->. by exists rel. }
  destruct (Ascii.eqb d slash); [simpl; eauto|]. destruct IH as [l ->]. destruct (Index rel "/"); simpl; eauto.
Qed.

Definition raw (p : path) : list string := if p.1 : bool then "" :: p.2 else p.2.

Lemma SplitByte_render p : path_ok p -> p.2 <> [] -> SplitByte (render p) slash = raw p.
Proof.
  destruct p as [r cs]. intros Hp Hne. pose proof (path_ok_comps _ _ Hp). simpl in Hne. unfold render, raw. cbn [fst snd].
  destruct r.
  - change (SplitByte ("/" +:+ Join cs "/") slash) with ("" :: SplitByte (Join cs "/") slash).
    by rewrite SplitByte_comps.
  - destruct cs; [done|]. by apply SplitByte_comps.
Qed.

Lemma raw_app r cs cs' : raw (r, cs) ++ cs' = raw (r, cs ++ cs').
Proof. by destruct r. Qed.

Lemma raw_inj p q : path_ok p -> path_ok q -> p.2 <> [] -> q.2 <> [] -> raw p = raw q -> p = q.
Proof.
  intros Hp Hq Hp' Hq' He. apply render_inj; [done|done|].
  rewrite <- (SplitByte_Join (render p) slash), <- (SplitByte_Join (render q) slash).
  by rewrite !SplitByte_render, He.
Qed.

(** What [relativeChild] finds in a key. *)
Lemma relativeChild_eq p prefix : relativeChild p prefix =
  if negb (String.eqb prefix "") && negb (HasPrefix p prefix) then None
  else let c := first_component (if String.eqb prefix "" then p else str_drop (len prefix) p) in
       if String.eqb c "" then None else Some c.
Proof. done. Qed.

Lemma relativeChild_dot p c : path_ok p -> p.2 <> [] ->
  relativeChild (render p) "" = Some c <-> p.1 = false /\ exists l, p.2 = c :: l.
Proof.
  intros Hp Hne. rewrite relativeChild_eq. simpl.
  destruct (first_component_split (render p)) as [l Hl]. rewrite SplitByte_render in Hl by done.
  revert Hl. generalize (first_component (render p)). intros f Hl.
  destruct p as [[] cs]; unfold raw in Hl; simpl in *.
  - injection Hl as <- _. simpl. split; [done|]. by intros [? _].
  - subst cs. pose proof (path_ok_comps _ _ Hp) as Hc. inversion Hc as [|x xs (Hx & _) _]; subst.
    destruct (String.eqb_spec f ""); [done|]. naive_solver.
Qed.

Lemma relativeChild_sub r cs p c : path_ok (r, cs) -> cs <> [] -> path_ok p -> p.2 <> [] ->
  relativeChild (render p) (render (r, cs) +:+ "/") = Some c <-> exists l, p = (r, cs ++ c :: l).
Proof.
  intros Hd Hcs Hp Hne. rewrite relativeChild_eq.
  assert (String.eqb (render (r, cs) +:+ "/") "" = false) as ->.
  { apply String.eqb_neq. intros He%(f_equal len). rewrite str_len_app in He. simpl in He. lia. }
  simpl. destruct (HasPrefix (render p) (render (r, cs) +:+ "/")) eqn:Hpre; simpl.
  - apply HasPrefix_spec in Hpre as [rest Hrest]. rewrite Hrest, str_drop_app.
    assert (raw p = raw (r, cs ++ SplitByte rest slash)) as Hraw.
    { rewrite <- raw_app, <- (SplitByte_render (r, cs)), <- SplitByte_render by done. rewrite Hrest, str_app_assoc.
      apply SplitByte_app_sep. }
    destruct (first_component_split rest) as [l Hl]. rewrite Hl in Hraw.
    revert Hraw. generalize (first_component rest). intros f Hraw.
    destruct p as [r' cs']. simpl in Hne.
    assert (r' = r /\ cs' = cs ++ f :: l) as [-> ->].
    { destruct r', r; unfold raw in Hraw; simpl in Hraw; simplify_eq; try done.
      - destruct cs as [|x cs]; [done|]. simplify_eq/=. pose proof (path_ok_comps _ _ Hd) as Hc.
        inversion Hc as [|? ? (Hx & _) _]; subst. done.
      - pose proof (path_ok_comps _ _ Hp) as Hc. inversion Hc as [|? ? (Hx & _) _]; subst. done. }
    assert (f <> "") as Hf.
    { pose proof (path_ok_comps _ _ Hp) as Hc. apply Forall_app in Hc as [_ Hc]. by inversion Hc as [|? ? (Hx & _) _]. }
    destruct (String.eqb_spec f ""); [done|]. split.
    + intros [= ->]. by exists l.
    + intros [l' [= [= -> _]%app_inv_head]]. done.
  - split; [done|]. intros [l ->]. exfalso. apply not_true_iff_false in Hpre. apply Hpre.
    apply HasPrefix_spec. clear Hpre Hne. induction l as [|x l IH] using rev_ind.
    + exists c. by rewrite render_child, str_app_assoc by done.
    + change (c :: l ++ [x]) with ((c :: l) ++ [x]) in *. rewrite app_assoc in *.
      destruct (path_ok_parent _ _ _ Hp) as [Hp' _]. destruct (IH Hp') as [t Ht].
      exists (t +:+ "/" +:+ x). rewrite render_child by (by destruct cs). rewrite Ht. by rewrite !str_app_assoc.
Qed.

(** The names the loop of [ReadDir] collects. *)
Lemma read_step_names clean prefix l acc n : NoDup acc.*1 ->
  NoDup (foldl (read_step clean prefix) acc l).*1 /\
  (n ∈ (foldl (read_step clean prefix) acc l).*1 <->
   n ∈ acc.*1 \/ exists p e, (p, e) ∈ l /\ p <> clean /\ relativeChild p prefix = Some n).
Proof.
  revert acc. induction l as [|[p e] l IH]; intros acc Hnd; simpl.
  { split; [done|]. split; [by left|]. intros [?|(p & e & Hin & _)]; [done|]. by apply not_elem_of_nil in Hin. }
  destruct (IH (read_step clean prefix acc (p, e))) as [Hnd' Hin].
  { simpl. destruct (p =? clean)%string; [done|]. destruct (relativeChild p prefix) as [rel|]; [|done].
    case_decide as Hrel; [done|]. rewrite fmap_app. simpl. apply NoDup_app. split_and!; [done| |apply NoDup_singleton].
    intros x Hx ->%list_elem_of_singleton. done. }
  split; [done|]. rewrite Hin. clear Hin Hnd'.
  assert (n ∈ (read_step clean prefix acc (p, e)).*1 <->
    n ∈ acc.*1 \/ p <> clean /\ relativeChild p prefix = Some n) as ->.
  { simpl. destruct (String.eqb_spec p clean); [naive_solver|]. destruct (relativeChild p prefix) as [rel|]; [|naive_solver].
    case_decide; [naive_solver|]. rewrite fmap_app, elem_of_app. simpl. rewrite list_elem_of_singleton. naive_solver. }
  setoid_rewrite elem_of_cons. naive_solver.
Qed.

Lemma ReadDir_names `{MapIter} clean prefix m n :
  n ∈ (isort by_name (foldl (read_step clean prefix) [] (range m))).*1 <->
  exists p e, m !! p = Some e /\ p <> clean /\ relativeChild p prefix = Some n.
Proof.
  rewrite isort_perm. destruct (read_step_names clean prefix (range m) [] n (NoDup_nil_2)) as [_ ->]. simpl.
  setoid_rewrite elem_of_range. split; [|by eauto]. intros [Hn|?]; [|done]. by apply not_elem_of_nil in Hn.
Qed.

Lemma sorted_names l : sorted_by by_name l -> sorted_by String.leb l.*1.
Proof.
  unfold sorted_by. induction 1 as [|x l Hl IH Hx]; constructor; [done|]. apply Forall_fmap. exact Hx.
Qed.

Lemma key_path m k e : fs_wf m -> m !! k = Some e -> k <> "." ->
  k = render (parse k) /\ path_ok (parse k) /\ (parse k).2 <> [].
Proof.
  intros Hm Hk Hne. destruct (wf_clean m Hm k e Hk) as [Hc Hs]. rewrite Clean_render in Hc.
  split_and!; [done|apply parse_ok|]. intros Hnil. pose proof (proj2 (render_root _ (parse_ok k)) Hnil) as Hr.
  rewrite Hc in Hr. tauto.
Qed.

(** The keys one level down, however deep the keys seen first. *)
Lemma ReadDir_children `{MapIter} m r cs c : fs_wf m -> path_ok (r, cs) -> (cs <> [] \/ r = false) ->
  c ∈ (isort by_name (foldl (read_step (render (r, cs))
        (if String.eqb (render (r, cs)) "." then "" else render (r, cs) +:+ "/")) [] (range m))).*1 <->
  path_ok (r, cs ++ [c]) /\ is_Some (m !! render (r, cs ++ [c])).
Proof.
  intros Hm Hp Hdir. rewrite ReadDir_names.
  assert (forall l e, path_ok (r, cs ++ c :: l) -> m !! render (r, cs ++ c :: l) = Some e ->
    path_ok (r, cs ++ [c]) /\ is_Some (m !! render (r, cs ++ [c]))) as Hup.
  { intros l e Hpl He. change (c :: l) with ([c] ++ l) in *. rewrite app_assoc in *.
    split; [by eapply (path_ok_prefix r (cs ++ [c])); [apply prefix_app_r|]|].
    destruct (decide (l = [])) as [->|Hl]; [rewrite app_nil_r in He; eauto|].
    destruct (fs_ancestor m r (cs ++ [c]) l e Hm Hpl) as (e' & He' & _); [by destruct cs|done|done|by eauto]. }
  assert (forall d, path_ok (r, cs ++ [d]) -> render (r, cs ++ [d]) <> ".") as Hndot.
  { intros d Hpd Hdot. pose proof (proj1 (render_root _ Hpd) (or_introl Hdot)) as Hnil. by destruct cs. }
  destruct (String.eqb_spec (render (r, cs)) ".") as [Hdot|Hdot].
  - pose proof (proj1 (render_root _ Hp) (or_introl Hdot)) as Hnil. simpl in Hnil. subst cs.
    destruct Hdir as [| ->]; [done|]. split.
    + intros (p & e & Hpm & Hne & Hc). change (render (false, [])) with "." in Hne.
      destruct (key_path m p e Hm Hpm Hne) as (Hr & Hpp & Hpne). rewrite Hr in Hc, Hpm.
      apply relativeChild_dot in Hc as [Hf [l Hl]]; [|done|done]. destruct (parse p) as [r' cs']. simpl in *. subst.
      by eapply Hup.
    + intros [Hpc [e He]]. exists (render (false, [c])), e. split_and!; [done|by apply Hndot|].
      apply relativeChild_dot; [done|done|]. simpl. eauto.
  - assert (cs <> []) as Hcs by (destruct Hdir as [| ->]; [done|by intros ->]). split.
    + intros (p & e & Hpm & Hne & Hc). destruct (decide (p = ".")) as [->|Hpd].
      { exfalso. revert Hc. rewrite relativeChild_eq.
        assert (HasPrefix "." (render (r, cs) +:+ "/") = false) as ->.
        { apply not_true_iff_false. rewrite HasPrefix_spec. intros [t Ht]. apply (f_equal len) in Ht.
          rewrite !str_len_app in Ht. simpl in Ht. assert (render (r, cs) = "") as Hemp; [|by apply (render_nonempty _ Hp)].
          destruct (render (r, cs)); [done|simpl in Ht; lia]. }
        destruct (String.eqb_spec (render (r, cs) +:+ "/") "") as [He|]; [|done].
        apply (f_equal len) in He. rewrite str_len_app in He. simpl in He. lia. }
      destruct (key_path m p e Hm Hpm Hpd) as (Hr & Hpp & Hpne). rewrite Hr in Hc, Hpm.
      apply relativeChild_sub in Hc as [l Hl]; [|done..]. rewrite Hl in *. by eapply Hup.
    + intros [Hpc [e He]]. exists (render (r, cs ++ [c])), e. split_and!; [done| |].
      * intros Heq. apply render_inj in Heq; [|done|done]. injection Heq as Heq.
        apply (f_equal length) in Heq. rewrite length_app in Heq. simpl in Heq. lia.
      * apply relativeChild_sub; [done|done|done|by destruct cs|by exists []].
Qed.

(** A listing on a tree: for the relative root or a directory below a
    root, the names of the entries one level down, each once, in byte order,
    whatever the order in which the map is visited; for anything else (a
    missing path, a file, the absolute root) an error. *)
Theorem mem_readdir `{MapIter} m path r cs :
  fs_wf m -> parse path = (r, cs) ->
  match ReadDir path m with
  | Ok es =>
    (cs <> [] \/ r = false) /\ sorted_by String.leb es.*1 /\ NoDup es.*1 /\
    (forall c, c ∈ es.*1 <-> path_ok (r, cs ++ [c]) /\ is_Some (m !! render (r, cs ++ [c]))) /\
    (forall (I2 : MapIter) es2, @ReadDir I2 path m = Ok es2 -> es2.*1 = es.*1)
  | Err x =>
    Path x = path /\
    (cs = [] /\ r = true \/ cs <> [] /\ forall e, m !! render (r, cs) = Some e -> dir e = false)
  end.
Proof.
  intros Hm Hpath. pose proof (parse_ok path) as Hp. rewrite Hpath in Hp.
  assert (Clean path = render (r, cs)) as Hclean by (by rewrite Clean_render, Hpath).
  unfold ReadDir. rewrite Hclean. destruct (assertReadDirTarget path (render (r, cs)) m) as [x|] eqn:Hx; unfold assertReadDirTarget in Hx.
  - destruct (String.eqb_spec (render (r, cs)) ".") as [|Hdot]; [done|].
    destruct (m !! render (r, cs)) as [e|] eqn:He; [destruct (dir e) eqn:Hd|]; simplify_eq; (split; [done|]).
    + right. split; [|naive_solver]. intros ->. destruct (wf_clean m Hm _ e He) as [_ Hs]. by destruct r.
    + destruct (decide (cs = [])) as [->|]; [left; by destruct r|right; naive_solver].
  - assert (cs <> [] \/ r = false) as Hdir.
    { destruct (decide (cs = [])) as [->|]; [right|by left]. destruct r; [|done]. exfalso.
      change (render (true, [])) with "/" in *. destruct (m !! "/") as [e|] eqn:He.
      - by destruct (wf_clean m Hm _ e He).
      - done. }
    assert (forall I : MapIter, sorted_by by_name (isort by_name (foldl (read_step (render (r, cs))
        (if String.eqb (render (r, cs)) "." then "" else render (r, cs) +:+ "/")) [] (range m)))) as Hsorted.
    { intros I. apply isort_sorted; unfold by_name; eauto with go. }
    assert (forall I : MapIter, NoDup (isort by_name (foldl (read_step (render (r, cs))
        (if String.eqb (render (r, cs)) "." then "" else render (r, cs) +:+ "/")) [] (range m))).*1) as Hnd.
    { intros I. rewrite isort_perm. by apply (read_step_names _ _ _ [] ""), NoDup_nil_2. }
    split_and!; [done|apply sorted_names, Hsorted|apply Hnd|by intros; apply ReadDir_children|].
    intros I2 es2 [= <-]. apply (sorted_by_unique String.leb); [eauto with go| |by apply sorted_names, Hsorted..].
    apply NoDup_Permutation; [apply Hnd..|]. intros c. by rewrite !ReadDir_children.
Qed.

Lemma mem_readdir_witness :
  (forall I : MapIter, exists es, @ReadDir I "src/." demo_fs = Ok es /\ es.*1 = ["b.go"; "lib"]) /\
  ReadDir "src/b.go" demo_fs = Err (mkPathError "fdopendir" "src/b.go" errNotDirectory).
Proof.
  split; [|vm_compute; reflexivity]. intros I.
  assert (@ReadDir canonical_iter "src/." demo_fs =
    Ok [("b.go", mkEntry "package b" 420 false 3); ("lib", mkEntry "package a" 420 false 2)]) as Hc by (vm_compute; reflexivity).
  pose proof (@mem_readdir I demo_fs "src/." false ["src"] demo_fs_wf eq_refl) as Hr.
  destruct (@ReadDir I "src/." demo_fs) as [es|x] eqn:He.
  - exists es. split; [done|]. destruct Hr as (_ & _ & _ & _ & Hi). symmetry. exact (Hi canonical_iter _ Hc).
  - destruct Hr as (_ & [[? _]|[_ Hno]]); [done|].
    assert (demo_fs !! render (false, ["src"]) = Some (mkEntry "" 493 true 1)) as Hs by (vm_compute; reflexivity).
    discriminate (Hno _ Hs).
Defined.

(** The entry of a listed directory is that of the key visited first: with one
    order of the map "src" is a directory, with another it is not. *)
Definition reversed_iter : MapIter :=
  {| range V m := reverse (map_to_list m);
     range_perm V m := reverse_Permutation (map_to_list m) |}.

Definition listed_dirs (r : result PathError (list (string * memEntry))) : list (string * bool) :=
  match r with Ok es => map (fun e => (e.1, dir e.2)) es | Err _ => [] end.

Lemma readdir_kind_depends :
  let m := default ∅ (steps [CMkdir 1 "b" 493; CWrite 2 "b/a" "x" 420] NewMem) in
  listed_dirs (@ReadDir canonical_iter "." m) <> listed_dirs (@ReadDir reversed_iter "." m).
Proof. vm_compute. discriminate. Qed.
