(* ===== verification/GoCrypto.v ===== *)
(** The parts of [crypto/sha256], [crypto/hmac] and [encoding/base64] the
    tokens are made of: SHA-256 (FIPS 180-4) on 32-bit words written as
    integers, HMAC (RFC 2104) over it, and [base64.RawURLEncoding] as Go decodes
    it: line breaks are skipped, and unused bits at the end are not looked
    at. *)
From S2P Require Import Prelude GoNum GoStrings.
Open Scope Z_scope.

(** ** SHA-256 *)

Definition w32 (z : Z) : Z := z mod 2 ^ 32.
Definition rotr (n x : Z) : Z := Z.lor (Z.shiftr x n) (w32 (Z.shiftl x (32 - n))).
Definition Ch (x y z : Z) : Z := Z.lxor (Z.land x y) (Z.land (2 ^ 32 - 1 - x) z).
Definition Maj (x y z : Z) : Z := Z.lxor (Z.lxor (Z.land x y) (Z.land x z)) (Z.land y z).
Definition bsig0 (x : Z) : Z := Z.lxor (Z.lxor (rotr 2 x) (rotr 13 x)) (rotr 22 x).
Definition bsig1 (x : Z) : Z := Z.lxor (Z.lxor (rotr 6 x) (rotr 11 x)) (rotr 25 x).
Definition ssig0 (x : Z) : Z := Z.lxor (Z.lxor (rotr 7 x) (rotr 18 x)) (Z.shiftr x 3).
Definition ssig1 (x : Z) : Z := Z.lxor (Z.lxor (rotr 17 x) (rotr 19 x)) (Z.shiftr x 10).

(** The constants are the first 32 bits after the point of the cube roots of
    the first 64 primes, and of the square roots of the first eight; 311 is the
    64th prime. *)
Definition prime_b (p : nat) : bool := forallb (fun d => negb (p mod d =? 0)%nat) (seq 2 (p - 2)).
Definition small_primes : list Z := map Z.of_nat (List.filter prime_b (seq 2 310)).

(** The largest [r] below [2 ^ bits] whose cube is at most [n]. *)
Definition cube_root (bits : nat) (n : Z) : Z :=
  foldr (fun i r => let r' := r + 2 ^ Z.of_nat i in if r' * r' * r' <=? n then r' else r) 0 (seq 0 bits).

Definition round_constants : list Z :=
  Eval vm_compute in map (fun p => w32 (cube_root 36 (p * 2 ^ 96))) small_primes.

Definition initial_hash : list Z :=
  Eval vm_compute in map (fun p => w32 (Z.sqrt (p * 2 ^ 64))) (take 8 small_primes).

(** The message schedule: [w] holds the last sixteen words, the latest first. *)
Fixpoint schedule (n : nat) (w : list Z) : list Z :=
  match n with
  | O => []
  | S n =>
    let at_ i := default 0 (w !! i) in
    let x := w32 (ssig1 (at_ 1%nat) + at_ 6%nat + ssig0 (at_ 14%nat) + at_ 15%nat) in
    x :: schedule n (x :: take 15 w)
  end.

Definition sha_round (h : list Z) (kw : Z * Z) : list Z :=
  match h with
  | [a; b; c; d; e; f; g; h] =>
    let t1 := h + bsig1 e + Ch e f g + kw.1 + kw.2 in
    let t2 := bsig0 a + Maj a b c in
    [w32 (t1 + t2); a; b; c; w32 (d + t1); e; f; g]
  | _ => h
  end.

Definition sha_block (h block : list Z) : list Z :=
  let w := block ++ schedule 48 (reverse block) in
  zip_with (fun x y => w32 (x + y)) h (foldl sha_round h (zip round_constants w)).

Fixpoint be_words (bytes : list Z) : list Z :=
  match bytes with
  | a :: b :: c :: d :: l => (a * 2 ^ 24 + b * 2 ^ 16 + c * 2 ^ 8 + d) :: be_words l
  | _ => []
  end.

Definition be_bytes (n : nat) (z : Z) : list Z :=
  map (fun i => Z.land (Z.shiftr z (8 * Z.of_nat (n - 1 - i))) 255) (seq 0 n).

Definition sha_pad (bytes : list Z) : list Z :=
  let n := length bytes in
  bytes ++ [128] ++ repeat 0 ((119 - n mod 64) mod 64) ++ be_bytes 8 (8 * Z.of_nat n).

Fixpoint sha_blocks (fuel : nat) (h words : list Z) : list Z :=
  match fuel, words with
  | S fuel, _ :: _ => sha_blocks fuel (sha_block h (take 16 words)) (drop 16 words)
  | _, _ => h
  end.

Definition sha256_bytes (bytes : list Z) : list Z :=
  let words := be_words (sha_pad bytes) in
  concat (map (be_bytes 4) (sha_blocks (length words) initial_hash words)).

Fixpoint string_bytes (s : string) : list Z :=
  match s with EmptyString => [] | String c s => byteZ c :: string_bytes s end.

Fixpoint bytes_string (l : list Z) : string :=
  match l with [] => EmptyString | b :: l => String (Zbyte b) (bytes_string l) end.

(** ** HMAC-SHA256 *)

Definition hmac_key (key : list Z) : list Z :=
  let k := if (64 <? length key)%nat then sha256_bytes key else key in
  k ++ repeat 0 (64 - length k).

Definition hmac_sha256 (key input : string) : string :=
  let k := hmac_key (string_bytes key) in
  let inner := sha256_bytes (map (Z.lxor 0x36) k ++ string_bytes input) in
  bytes_string (sha256_bytes (map (Z.lxor 0x5c) k ++ inner)).

(** ** [base64.RawURLEncoding] *)

Definition b64_char (v : Z) : Z :=
  if v <? 26 then 65 + v else if v <? 52 then 71 + v else if v <? 62 then v - 4
  else if v =? 62 then 45 else 95.

Definition b64_val (b : Z) : option Z :=
  if (65 <=? b) && (b <=? 90) then Some (b - 65)
  else if (97 <=? b) && (b <=? 122) then Some (b - 71)
  else if (48 <=? b) && (b <=? 57) then Some (b + 4)
  else if b =? 45 then Some 62
  else if b =? 95 then Some 63
  else None.

Fixpoint b64_encode (l : list Z) : list Z :=
  match l with
  | [] => []
  | [a] => [b64_char (a / 4); b64_char (a mod 4 * 16)]
  | [a; b] => [b64_char (a / 4); b64_char (a mod 4 * 16 + b / 16); b64_char (b mod 16 * 4)]
  | a :: b :: c :: l =>
    b64_char (a / 4) :: b64_char (a mod 4 * 16 + b / 16) :: b64_char (b mod 16 * 4 + c / 64)
      :: b64_char (c mod 64) :: b64_encode l
  end.

Fixpoint b64_groups (l : list Z) : option (list Z) :=
  match l with
  | [] => Some []
  | [_] => None
  | [a; b] => Some [a * 4 + b / 16]
  | [a; b; c] => Some [a * 4 + b / 16; b mod 16 * 16 + c / 4]
  | a :: b :: c :: d :: l =>
    r ← b64_groups l;
    Some ((a * 4 + b / 16) :: (b mod 16 * 16 + c / 4) :: (c mod 4 * 64 + d) :: r)
  end.

Definition line_break (b : Z) : bool := (b =? 10) || (b =? 13).

Definition b64_decode (l : list Z) : option (list Z) :=
  mapM b64_val (filter (fun b => line_break b = false) l) ≫= b64_groups.

Definition EncodeToString (s : string) : string := bytes_string (b64_encode (string_bytes s)).

Definition DecodeString (s : string) : option string := bytes_string <$> b64_decode (string_bytes s).

Section crypto_tests.
(** FIPS 180-4: "abc"; RFC 4231, case 2. *)
Example sha256_abc : sha256_bytes (string_bytes "abc") =
  [0xba;0x78;0x16;0xbf;0x8f;0x01;0xcf;0xea;0x41;0x41;0x40;0xde;0x5d;0xae;0x22;0x23;
   0xb0;0x03;0x61;0xa3;0x96;0x17;0x7a;0x9c;0xb4;0x10;0xff;0x61;0xf2;0x00;0x15;0xad].
Proof. vm_compute. reflexivity. Qed.
Example hmac_rfc4231 : string_bytes (hmac_sha256 "Jefe" "what do ya want for nothing?") =
  [0x5b;0xdc;0xc1;0x46;0xbf;0x60;0x75;0x4e;0x6a;0x04;0x24;0x26;0x08;0x95;0x75;0xc7;
   0x5a;0x00;0x3f;0x08;0x9d;0x27;0x39;0x83;0x9d;0xec;0x58;0xb9;0x64;0xec;0x38;0x43].
Proof. vm_compute. reflexivity. Qed.
Example b64_t : EncodeToString "light work" = "bGlnaHQgd29yaw" /\ DecodeString "bGlnaHQgd29yaw" = Some "light work".
Proof. split; vm_compute; reflexivity. Qed.
End crypto_tests.

(** ** Decoding gives back what was encoded *)

Definition byte_ok (b : Z) : Prop := 0 <= b < 256.

Lemma string_bytes_ok s : Forall byte_ok (string_bytes s).
Proof. induction s; simpl; constructor; [apply byteZ_range|done]. Qed.

Lemma bytes_string_bytes s : bytes_string (string_bytes s) = s.
Proof. induction s as [|c s IH]; simpl; [done|]. by rewrite Zbyte_byteZ, IH. Qed.

Lemma string_bytes_string l : Forall byte_ok l -> string_bytes (bytes_string l) = l.
Proof. induction 1 as [|b l Hb Hl IH]; simpl; [done|]. by rewrite byteZ_Zbyte, IH. Qed.

(** The digits and the separators of a token are apart. *)
Definition b64_alphabet (b : Z) : Prop := byte_ok b /\ line_break b = false /\ b <> 46.

Definition digit_check (v : Z) : bool :=
  bool_decide (b64_val (b64_char v) = Some v) && (0 <=? b64_char v) && (b64_char v <? 256) &&
  negb (line_break (b64_char v)) && negb (b64_char v =? 46).

Lemma b64_digits v : 0 <= v < 64 -> b64_val (b64_char v) = Some v /\ b64_alphabet (b64_char v).
Proof.
  intros Hv. assert (forallb digit_check (map Z.of_nat (seq 0 64)) = true) as Hall by (vm_compute; reflexivity).
  rewrite forallb_forall in Hall. specialize (Hall v). unfold digit_check in Hall.
  rewrite !andb_true_iff in Hall. destruct Hall as [[[[H1 H2] H3] H4] H5].
  { apply in_map_iff. exists (Z.to_nat v). split; [lia|]. apply in_seq. lia. }
  bool_to_prop. unfold b64_alphabet, byte_ok. auto.
Qed.

Lemma b64_encode_ind (P : list Z -> Prop) :
  P [] -> (forall a, P [a]) -> (forall a b, P [a; b]) ->
  (forall a b c l, P l -> P (a :: b :: c :: l)) -> forall l, P l.
Proof.
  intros H0 H1 H2 H3 l. enough (P l /\ (forall a, P (a :: l)) /\ forall a b, P (a :: b :: l)) by tauto.
  induction l as [|c l (IH1 & IH2 & IH3)]; [auto|]. split_and!; auto.
Qed.

Ltac byte_bounds :=
  repeat match goal with H : byte_ok ?a |- _ =>
    unfold byte_ok in H; assert (0 <= a / 4 < 64) by (split; [apply Z.div_pos|apply Z.div_lt_upper_bound]; lia);
    assert (0 <= a / 16 < 16) by (split; [apply Z.div_pos|apply Z.div_lt_upper_bound]; lia);
    assert (0 <= a / 64 < 4) by (split; [apply Z.div_pos|apply Z.div_lt_upper_bound]; lia);
    pose proof (Z.mod_pos_bound a 4); pose proof (Z.mod_pos_bound a 16); pose proof (Z.mod_pos_bound a 64);
    pose proof (Z.div_mod a 4); pose proof (Z.div_mod a 16); pose proof (Z.div_mod a 64); revert H
  end; intros.

Lemma b64_encode_alphabet l : Forall byte_ok l -> Forall b64_alphabet (b64_encode l).
Proof.
  induction l as [|a|a b|a b c l IH] using b64_encode_ind; intros Hl; repeat (inversion Hl as [|? ? ? Hl']; subst; clear Hl; rename Hl' into Hl);
    byte_bounds; simpl; repeat (constructor; [apply b64_digits; lia|]); auto.
Qed.

Lemma mapM_digit v l r : 0 <= v < 64 -> mapM b64_val l = Some r -> mapM b64_val (b64_char v :: l) = Some (v :: r).
Proof. intros Hv Hl. simpl. by rewrite (proj1 (b64_digits v Hv)); simpl; rewrite Hl. Qed.

Lemma b64_decode_digits l : Forall byte_ok l -> exists r, mapM b64_val (b64_encode l) = Some r /\ b64_groups r = Some l.
Proof.
  induction l as [|a|a b|a b c l IH] using b64_encode_ind; intros Hl.
  - by exists [].
  - inversion Hl; subst. byte_bounds. eexists. split; [repeat (apply mapM_digit; [lia|]); done|].
    simpl. do 2 f_equal. rewrite Z.div_mul by lia. lia.
  - inversion Hl as [|? ? ? Hl']; subst. inversion Hl'; subst. byte_bounds.
    eexists. split; [repeat (apply mapM_digit; [lia|]); done|]. simpl.
    assert ((a mod 4 * 16 + b / 16) / 16 = a mod 4) as -> by (rewrite Z.div_add_l by lia; rewrite (Z.div_small (b / 16)); lia).
    assert ((a mod 4 * 16 + b / 16) mod 16 = b / 16) as -> by (rewrite Z.add_comm, Z.mod_add, Z.mod_small; lia).
    rewrite Z.div_mul by lia. do 2 f_equal; [lia|]. f_equal. lia.
  - inversion Hl as [|? ? ? Hl1]; subst. inversion Hl1 as [|? ? ? Hl2]; subst. inversion Hl2 as [|? ? ? Hl3]; subst.
    destruct (IH Hl3) as (r & Hr & Hg). byte_bounds.
    eexists. split; [simpl b64_encode; repeat (apply mapM_digit; [lia|]); exact Hr|]. simpl. rewrite Hg. simpl.
    assert ((a mod 4 * 16 + b / 16) / 16 = a mod 4) as -> by (rewrite Z.div_add_l by lia; rewrite (Z.div_small (b / 16)); lia).
    assert ((a mod 4 * 16 + b / 16) mod 16 = b / 16) as -> by (rewrite Z.add_comm, Z.mod_add, Z.mod_small; lia).
    assert ((b mod 16 * 4 + c / 64) / 4 = b mod 16) as -> by (rewrite Z.div_add_l by lia; rewrite (Z.div_small (c / 64)); lia).
    assert ((b mod 16 * 4 + c / 64) mod 4 = c / 64) as -> by (rewrite Z.add_comm, Z.mod_add, Z.mod_small; lia).
    do 2 f_equal; [lia|]. f_equal; [lia|]. f_equal. lia.
Qed.

Lemma DecodeString_EncodeToString s : DecodeString (EncodeToString s) = Some s.
Proof.
  unfold DecodeString, EncodeToString, b64_decode. pose proof (string_bytes_ok s) as Hs.
  pose proof (b64_encode_alphabet _ Hs) as Ha.
  rewrite string_bytes_string by (eapply Forall_impl; [exact Ha|]; by intros ? [? _]).
  rewrite list_filter_all.
  - destruct (b64_decode_digits _ Hs) as (r & -> & Hg). simpl. rewrite Hg. simpl. by rewrite bytes_string_bytes.
  - intros b Hb. rewrite Forall_forall in Ha. apply (Ha b Hb).
Qed.

(** An encoding has no dot, so it is one part of a token. *)
Lemma EncodeToString_no_dot s : str_forall (fun d => negb (Ascii.eqb d (Zbyte 46))) (EncodeToString s) = true.
Proof.
  unfold EncodeToString. pose proof (b64_encode_alphabet _ (string_bytes_ok s)) as Ha.
  induction Ha as [|b l (Hb & _ & Hdot) Hl IH]; simpl; [done|]. rewrite IH, andb_true_r. apply negb_true_iff.
  apply Ascii.eqb_neq. intros He. apply (f_equal byteZ) in He. rewrite !byteZ_Zbyte in He by (unfold byte_ok in Hb; lia).
  done.
Qed.
