(* ===== verification/Tokens.v ===== *)
(** [internal/tokens]: HS256 tokens, and the scripted fake.

    Claims are the JSON value [json.Marshal] makes of them, and a destination
    is the function [json.Unmarshal] into it computes; [StandardClaims] is
    modelled with its tags. The clock is an argument. *)
From S2P Require Import Prelude GoNum GoStrings GoUnicode Model GoJson IntakeJson GoCrypto.
Open Scope Z_scope.

Inductive malformed := MSegments | MHeaderBase64 | MHeaderJson | MSignatureBase64 | MPayloadBase64 | MPayloadJson.
Inductive verify_error := ErrMalformed (m : malformed) | ErrSignature | ErrAlgorithm (got : string) | ErrExpired | ErrNotYetValid.

Record StandardClaims := mkClaims {
  Subject : string; Issuer : string; Audience : string; JWTID : string;
  IssuedAt : Z; ExpiresAt : Z; NotBefore : Z }.

(** What [Marshal] makes of them: zero values are left out. *)
Definition omit_string (key s : string) : list (string * json) := if (s =? "")%string then [] else [(key, JStr s)].
Definition omit_int (key : string) (z : Z) : list (string * json) := if z =? 0 then [] else [(key, JNum (Itoa z))].

Definition claims_json (c : StandardClaims) : json :=
  JObj (omit_string "sub" (Subject c) ++ omit_string "iss" (Issuer c) ++ omit_string "aud" (Audience c) ++
        omit_string "jti" (JWTID c) ++ omit_int "iat" (IssuedAt c) ++ omit_int "exp" (ExpiresAt c) ++
        omit_int "nbf" (NotBefore c)).

(** [Unmarshal] into an [int64] field. *)
Definition int_into (old : Z) (v : json) : option Z :=
  match v with JNull => Some old | JNum l => ParseInt l | _ => None end.

(** [Unmarshal] into a struct, member by member. *)
Definition struct_into {A} (zero : A) (field : A -> string * json -> option A) (v : json) : option A :=
  match v with
  | JNull => Some zero
  | JObj m => foldl (fun t e => t ← t; field t e) (Some zero) m
  | _ => None
  end.

Definition claims_field (c : StandardClaims) (e : string * json) : option StandardClaims :=
  let '(mkClaims sub iss aud jti iat exp nbf) := c in
  if names_field e.1 "sub" then s ← string_into sub e.2; Some (mkClaims s iss aud jti iat exp nbf)
  else if names_field e.1 "iss" then s ← string_into iss e.2; Some (mkClaims sub s aud jti iat exp nbf)
  else if names_field e.1 "aud" then s ← string_into aud e.2; Some (mkClaims sub iss s jti iat exp nbf)
  else if names_field e.1 "jti" then s ← string_into jti e.2; Some (mkClaims sub iss aud s iat exp nbf)
  else if names_field e.1 "iat" then z ← int_into iat e.2; Some (mkClaims sub iss aud jti z exp nbf)
  else if names_field e.1 "exp" then z ← int_into exp e.2; Some (mkClaims sub iss aud jti iat z nbf)
  else if names_field e.1 "nbf" then z ← int_into nbf e.2; Some (mkClaims sub iss aud jti iat exp z)
  else Some c.

Definition claims_into : json -> option StandardClaims := struct_into (mkClaims "" "" "" "" 0 0 0) claims_field.

(** ** Signing *)

(** The clock of the configuration is read where a method takes its time. *)
Record HMAC256 := mkHMAC256 { secret : string; leeway : Duration }.

Section options.
Context {C : Type} (Default : C).

Record config := mkConfig { clk : C; c_leeway : Duration }.

Definition WithClock (clk : option C) (c : config) : config :=
  match clk with Some clk => mkConfig clk (c_leeway c) | None => c end.
Definition WithLeeway (d : Duration) (c : config) : config := mkConfig (clk c) d.

Definition newConfig (opts : list (config -> config)) : config :=
  foldl (fun c opt => opt c) (mkConfig Default 0) opts.

(** [NewHMAC256] panics on an empty secret. *)
Definition NewHMAC256 (secret : string) (opts : list (config -> config)) : may_panic (HMAC256 * C) :=
  if (secret =? "")%string then None
  else let c := newConfig opts in Some (mkHMAC256 secret (c_leeway c), clk c).

(** The last leeway counts; a nil clock leaves the one before. *)
Lemma NewHMAC256_last secret opts d : secret <> "" ->
  NewHMAC256 secret (opts ++ [WithLeeway d; WithClock None]) = Some (mkHMAC256 secret d, clk (newConfig opts)).
Proof.
  intros Hs. unfold NewHMAC256, newConfig. destruct (String.eqb_spec secret ""); [done|]. by rewrite foldl_app.
Qed.
End options.

Definition quoted (s : string) : string := dquote +:+ s +:+ dquote.
Definition jwtHeader : string :=
  "{" +:+ quoted "alg" +:+ ":" +:+ quoted "HS256" +:+ "," +:+ quoted "typ" +:+ ":" +:+ quoted "JWT" +:+ "}".
Definition jwtHeaderEncoded : string := EncodeToString jwtHeader.

Definition sign (h : HMAC256) (input : string) : string := hmac_sha256 (secret h) input.

(** [claims]: the value, or the error of [Marshal]. *)
Definition Sign (h : HMAC256) (claims : result string json) : result string string :=
  match claims with
  | Err e => Err ("tokens: marshal claims: " +:+ e)
  | Ok v =>
    let signingInput := jwtHeaderEncoded +:+ "." +:+ EncodeToString (Marshal v) in
    Ok (signingInput +:+ "." +:+ EncodeToString (sign h signingInput))
  end.

(** ** Verifying *)

Definition alg_field (s : string) (e : string * json) : option string :=
  if names_field e.1 "alg" then string_into s e.2 else Some s.

Definition verifyAlgorithm (headerRaw : string) : option verify_error :=
  match parse_json headerRaw ≫= struct_into "" alg_field with
  | None => Some (ErrMalformed MHeaderJson)
  | Some alg => if (alg =? "HS256")%string then None else Some (ErrAlgorithm alg)
  end.

(** [time.Unix(sec, 0)]: seconds since year 1, in 64 bits. *)
Definition unixToInternal : Z := 62135596800.
Definition Unix (sec : Z) : Time := wrap64 (sec + unixToInternal) * Second.

(** [t.Add(d)], the seconds saturating. *)
Definition time_Add (t : Time) (d : Duration) : Time :=
  let nsec := t mod Second + Z.rem d Second in
  let carry := nsec / Second in
  let sec := t / Second + (d ÷ Second + carry) in
  Z.max (- maxInt64) (Z.min maxInt64 sec) * Second + nsec mod Second.

Definition times_field (t : Z * Z) (e : string * json) : option (Z * Z) :=
  if names_field e.1 "exp" then z ← int_into t.1 e.2; Some (z, t.2)
  else if names_field e.1 "nbf" then z ← int_into t.2 e.2; Some (t.1, z)
  else Some t.

Definition times_of (payload : string) : option (Z * Z) := parse_json payload ≫= struct_into (0, 0) times_field.

Definition check_times (h : HMAC256) (now : Time) (times : Z * Z) : option verify_error :=
  let '(exp, nbf) := times in
  if negb (exp =? 0) && After now (time_Add (Unix exp) (leeway h)) then Some ErrExpired
  else if negb (nbf =? 0) && Before now (time_Add (Unix nbf) (wrap64 (- leeway h))) then Some ErrNotYetValid
  else None.

Definition checkTimeClaims (h : HMAC256) (now : Time) (payload : string) : option verify_error :=
  match times_of payload with
  | None => None
  | Some times => check_times h now times
  end.

Definition fail_if {A} (e : option verify_error) (k : result verify_error A) : result verify_error A :=
  match e with Some e => Err e | None => k end.

Definition need {A B} (e : verify_error) (o : option A) (k : A -> result verify_error B) : result verify_error B :=
  match o with Some a => k a | None => Err e end.

(** [dst]: nil, or what [Unmarshal] into it does. *)
Definition Verify {A} (h : HMAC256) (now : Time) (token : string) (dst : option (json -> option A)) :
  result verify_error (option A) :=
  match SplitByte token (Zbyte 46) with
  | [p0; p1; p2] =>
    need (ErrMalformed MHeaderBase64) (DecodeString p0) (fun headerRaw =>
    fail_if (verifyAlgorithm headerRaw) (
    let expected := sign h (p0 +:+ "." +:+ p1) in
    need (ErrMalformed MSignatureBase64) (DecodeString p2) (fun got =>
    if negb (expected =? got)%string then Err ErrSignature else
    need (ErrMalformed MPayloadBase64) (DecodeString p1) (fun payload =>
    fail_if (checkTimeClaims h now payload) (
    match dst with
    | None => Ok None
    | Some dst => need (ErrMalformed MPayloadJson) (parse_json payload ≫= dst) (fun a => Ok (Some a))
    end)))))
  | _ => Err (ErrMalformed MSegments)
  end.

(** ** The fake *)

Record Fake := mkFake { f_claims : option json; f_err : option verify_error; signed : Z; verified : Z }.

Definition AlwaysValid (claims : json) : Fake := mkFake (Some claims) None 0 0.
Definition AlwaysInvalid (e : verify_error) : Fake := mkFake None (Some e) 0 0.

Definition fake_Sign (f : Fake) : Fake * result verify_error string :=
  let n := wrap64 (signed f + 1) in
  (mkFake (f_claims f) (f_err f) n (verified f),
   match f_err f with Some e => Err e | None => Ok ("fake-token-" +:+ Itoa n) end).

Definition fake_Verify {A} (f : Fake) (dst : option (json -> option A)) : Fake * result verify_error (option A) :=
  (mkFake (f_claims f) (f_err f) (signed f) (wrap64 (verified f + 1)),
   match f_err f, f_claims f with
   | Some e, _ => Err e
   | None, None => Err ErrSignature
   | None, Some claims =>
     match dst with
     | None => Ok None
     | Some dst => need (ErrMalformed MPayloadJson) (parse_json (Marshal claims) ≫= dst) (fun a => Ok (Some a))
     end
   end).

Definition SignCount (f : Fake) : Z := signed f.
Definition VerifyCount (f : Fake) : Z := verified f.
Definition SetError (e : option verify_error) (f : Fake) : Fake := mkFake (f_claims f) e (signed f) (verified f).
Definition SetClaims (c : option json) (f : Fake) : Fake := mkFake c (f_err f) (signed f) (verified f).

(** ** A signed token verifies *)

Lemma SplitByte_token p0 p1 p2 :
  SplitByte ((EncodeToString p0 +:+ "." +:+ EncodeToString p1) +:+ "." +:+ EncodeToString p2) (Zbyte 46) =
  [EncodeToString p0; EncodeToString p1; EncodeToString p2].
Proof.
  assert ((EncodeToString p0 +:+ "." +:+ EncodeToString p1) +:+ "." +:+ EncodeToString p2 =
    EncodeToString p0 +:+ String (Zbyte 46) (EncodeToString p1 +:+ String (Zbyte 46) (EncodeToString p2))) as ->
    by (by rewrite !str_app_assoc).
  rewrite !SplitByte_app by apply EncodeToString_no_dot.
  by rewrite SplitByte_one by apply EncodeToString_no_dot.
Qed.

Lemma jwtHeader_ok : verifyAlgorithm jwtHeader = None.
Proof. vm_compute. reflexivity. Qed.

(** The checks of the claims' times, on the value itself. *)
Definition value_times (h : HMAC256) (now : Time) (v : json) : option verify_error :=
  match struct_into (0, 0) times_field v with Some times => check_times h now times | None => None end.

Lemma need_Some {A B} e (a : A) (k : A -> result verify_error B) : need e (Some a) k = k a.
Proof. done. Qed.

Lemma fail_if_None {A} (k : result verify_error A) : fail_if None k = k.
Proof. done. Qed.

Lemma Verify_Sign {A} h now v tok (dst : option (json -> option A)) :
  nums_ok v -> depth v <= maxNestingDepth -> Sign h (Ok v) = Ok tok ->
  Verify h now tok dst =
    fail_if (value_times h now (json_clean v))
      match dst with
      | None => Ok None
      | Some dst => need (ErrMalformed MPayloadJson) (dst (json_clean v)) (fun a => Ok (Some a))
      end.
Proof.
  intros Hok Hd Hs.
  assert (tok = (EncodeToString jwtHeader +:+ "." +:+ EncodeToString (Marshal v)) +:+ "." +:+
    EncodeToString (sign h (EncodeToString jwtHeader +:+ "." +:+ EncodeToString (Marshal v)))) as ->.
  { unfold Sign in Hs. by apply (f_equal (fun r => match r with Ok t => t | Err _ => tok end)) in Hs. }
  unfold Verify. rewrite SplitByte_token.
  rewrite DecodeString_EncodeToString, need_Some, jwtHeader_ok, fail_if_None. cbv zeta.
  rewrite DecodeString_EncodeToString, need_Some, String.eqb_refl. cbn [negb].
  rewrite DecodeString_EncodeToString, need_Some. unfold checkTimeClaims, times_of, value_times.
  by rewrite (Marshal_parses v Hok Hd).
Qed.

(** [StandardClaims] through JSON and back. *)
Lemma omit_string_nums key s : Forall (fun e : string * json => nums_ok e.2) (omit_string key s).
Proof. unfold omit_string. destruct (s =? "")%string; repeat constructor. Qed.

Lemma omit_int_nums key z : Forall (fun e : string * json => nums_ok e.2) (omit_int key z).
Proof. unfold omit_int. destruct (z =? 0); repeat constructor. apply num_ok_Itoa. Qed.

Lemma claims_nums c : nums_ok (claims_json c).
Proof. constructor. repeat apply Forall_app_2; auto using omit_string_nums, omit_int_nums. Qed.

Lemma max_list_zero l : Forall (fun z => z = 0) l -> max_list l = 0.
Proof. induction 1; simpl; [done|]. subst. lia. Qed.

Lemma claims_depth c : depth (claims_json c) <= maxNestingDepth.
Proof.
  unfold claims_json. simpl. rewrite max_list_zero; [unfold maxNestingDepth; lia|].
  rewrite !map_app. unfold omit_string, omit_int. repeat apply Forall_app_2; case_match; repeat constructor.
Qed.

(** What a struct made of optional members decodes to, one member at a time. *)
Lemma foldl_omit {A} (f : A -> string * json -> option A) l l' a a' :
  foldl (fun t e => t ← t; f t e) (Some a) l = Some a' ->
  foldl (fun t e => t ← t; f t e) (Some a) (l ++ l') = foldl (fun t e => t ← t; f t e) (Some a') l'.
Proof. intros Hl. by rewrite foldl_app, Hl. Qed.

Definition claims_valid (c : StandardClaims) : Prop :=
  valid_utf8 (Subject c) /\ valid_utf8 (Issuer c) /\ valid_utf8 (Audience c) /\ valid_utf8 (JWTID c) /\
  int64_ok (IssuedAt c) /\ int64_ok (ExpiresAt c) /\ int64_ok (NotBefore c).

Lemma json_clean_omit_string key s : valid_utf8 s -> clean key = key ->
  map (fun e => (clean e.1, json_clean e.2)) (omit_string key s) = omit_string key s.
Proof. intros Hs Hk. unfold omit_string. destruct (s =? "")%string; simpl; [done|]. by rewrite Hs, Hk. Qed.

Lemma json_clean_omit_int key z : clean key = key ->
  map (fun e => (clean e.1, json_clean e.2)) (omit_int key z) = omit_int key z.
Proof. intros Hk. unfold omit_int. destruct (z =? 0); simpl; [done|]. by rewrite Hk. Qed.

Lemma claims_clean c : claims_valid c -> json_clean (claims_json c) = claims_json c.
Proof.
  intros (H1 & H2 & H3 & H4 & _). unfold claims_json. cbn [json_clean]. f_equal. rewrite !map_app.
  rewrite !json_clean_omit_string, !json_clean_omit_int; done.
Qed.

Lemma claims_into_json c : claims_valid c -> claims_into (claims_json c) = Some c.
Proof.
  intros (_ & _ & _ & _ & Hiat & Hexp & Hnbf). destruct c as [sub iss aud jti iat exp nbf]. simpl in *.
  assert (forall z, int64_ok z -> ParseInt (Itoa z) = Some z) as Hint
    by (unfold int64_ok, minInt64, maxInt64; intros; apply ParseInt_Itoa; lia).
  assert (forall f z, int64_ok z -> int_into f (JNum (Itoa z)) = Some z) as Hinto by (intros; by apply Hint).
  unfold claims_into, struct_into, claims_json.
  rewrite (foldl_omit _ _ _ _ (mkClaims sub "" "" "" 0 0 0)).
  2:{ unfold omit_string. destruct (String.eqb_spec sub ""); [by subst|reflexivity]. }
  rewrite (foldl_omit _ _ _ _ (mkClaims sub iss "" "" 0 0 0)).
  2:{ unfold omit_string. cbn [Issuer]. destruct (String.eqb_spec iss ""); [by subst|reflexivity]. }
  rewrite (foldl_omit _ _ _ _ (mkClaims sub iss aud "" 0 0 0)).
  2:{ unfold omit_string. cbn [Audience]. destruct (String.eqb_spec aud ""); [by subst|reflexivity]. }
  rewrite (foldl_omit _ _ _ _ (mkClaims sub iss aud jti 0 0 0)).
  2:{ unfold omit_string. cbn [JWTID]. destruct (String.eqb_spec jti ""); [by subst|reflexivity]. }
  rewrite (foldl_omit _ _ _ _ (mkClaims sub iss aud jti iat 0 0)).
  2:{ unfold omit_int. cbn [IssuedAt]. destruct (Z.eqb_spec iat 0); [by subst|]. cbn [foldl].
      change ((iat' ← int_into 0 (JNum (Itoa iat)); Some (mkClaims sub iss aud jti iat' 0 0)) = Some (mkClaims sub iss aud jti iat 0 0)). by rewrite Hinto. }
  rewrite (foldl_omit _ _ _ _ (mkClaims sub iss aud jti iat exp 0)).
  2:{ unfold omit_int. cbn [ExpiresAt]. destruct (Z.eqb_spec exp 0); [by subst|]. cbn [foldl].
      change ((exp' ← int_into 0 (JNum (Itoa exp)); Some (mkClaims sub iss aud jti iat exp' 0)) = Some (mkClaims sub iss aud jti iat exp 0)). by rewrite Hinto. }
  unfold omit_int. cbn [NotBefore]. destruct (Z.eqb_spec nbf 0); [by subst|]. cbn [foldl].
  change ((nbf' ← int_into 0 (JNum (Itoa nbf)); Some (mkClaims sub iss aud jti iat exp nbf')) = Some (mkClaims sub iss aud jti iat exp nbf)). by rewrite Hinto.
Qed.

Lemma times_skip_string t key s l : names_field key "exp" = false -> names_field key "nbf" = false ->
  foldl (fun t e => t ← t; times_field t e) (Some t) (omit_string key s ++ l) =
  foldl (fun t e => t ← t; times_field t e) (Some t) l.
Proof.
  intros He Hn. apply foldl_omit. unfold omit_string. destruct (s =? "")%string; [done|]. cbn [foldl].
  unfold times_field. cbn [mbind option_bind fst]. by rewrite He, Hn.
Qed.

Lemma claims_times c : claims_valid c ->
  struct_into (0, 0) times_field (claims_json c) = Some (ExpiresAt c, NotBefore c).
Proof.
  intros (_ & _ & _ & _ & Hiat & Hexp & Hnbf).
  assert (forall z, int64_ok z -> ParseInt (Itoa z) = Some z) as Hint
    by (unfold int64_ok, minInt64, maxInt64; intros; apply ParseInt_Itoa; lia).
  unfold struct_into, claims_json. rewrite !times_skip_string by (vm_compute; reflexivity).
  rewrite (foldl_omit _ _ _ _ (0, 0)).
  2:{ unfold omit_int. destruct (Z.eqb_spec (IssuedAt c) 0); reflexivity. }
  rewrite (foldl_omit _ _ _ _ (ExpiresAt c, 0)).
  2:{ unfold omit_int. destruct (Z.eqb_spec (ExpiresAt c) 0) as [->|]; [done|]. cbn [foldl].
      change ((z ← ParseInt (Itoa (ExpiresAt c)); Some (z, 0)) = Some (ExpiresAt c, 0)). by rewrite Hint. }
  unfold omit_int. destruct (Z.eqb_spec (NotBefore c) 0) as [->|]; [done|]. cbn [foldl].
  change ((z ← ParseInt (Itoa (NotBefore c)); Some (ExpiresAt c, z)) = Some (ExpiresAt c, NotBefore c)). by rewrite Hint.
Qed.

(** ** Times *)

Lemma time_Add_exact t d : - maxInt64 <= (t + d) / Second <= maxInt64 -> time_Add t d = t + d.
Proof.
  intros Hr. unfold time_Add. assert (0 < Second) by done.
  assert (t + d = (t / Second + d ÷ Second) * Second + (t mod Second + Z.rem d Second)) as Hd.
  { pose proof (Z.div_mod t Second ltac:(lia)). pose proof (Z.quot_rem d Second ltac:(lia)). lia. }
  assert ((t + d) / Second = t / Second + (d ÷ Second + (t mod Second + Z.rem d Second) / Second)) as Hq.
  { rewrite Hd, Z.div_add_l by lia. lia. }
  rewrite <- Hq. rewrite Z.max_r, Z.min_r by lia.
  assert ((t mod Second + Z.rem d Second) mod Second = (t + d) mod Second) as ->.
  { rewrite Hd, (Z.add_comm (_ * Second)). by rewrite Z.mod_add by lia. }
  pose proof (Z.div_mod (t + d) Second ltac:(lia)). lia.
Qed.

(** Any date within sixty billion years. *)
Definition date_ok (sec : Z) : Prop := - 2 ^ 61 <= sec <= 2 ^ 61.

Definition instant (sec : Z) : Time := (sec + unixToInternal) * Second.

Lemma Unix_instant sec : date_ok sec -> Unix sec = instant sec.
Proof.
  unfold date_ok. intros. unfold Unix, instant, unixToInternal. rewrite wrap64_id; [done|].
  unfold int64_ok, minInt64, maxInt64. lia.
Qed.

Lemma shifted sec d : date_ok sec -> minInt64 < d <= maxInt64 -> time_Add (Unix sec) d = instant sec + d.
Proof.
  unfold date_ok, minInt64, maxInt64. intros Hs Hd. rewrite Unix_instant by done. apply time_Add_exact.
  unfold instant, unixToInternal, Second, maxInt64. split.
  - apply Z.div_le_lower_bound; lia.
  - apply Z.lt_succ_r, Z.div_lt_upper_bound; lia.
Qed.

Definition expired (h : HMAC256) (now : Time) (exp : Z) : Prop := exp <> 0 /\ instant exp + leeway h < now.
Definition too_early (h : HMAC256) (now : Time) (nbf : Z) : Prop := nbf <> 0 /\ now < instant nbf - leeway h.

Lemma check_times_spec h now exp nbf : minInt64 < leeway h <= maxInt64 -> date_ok exp -> date_ok nbf ->
  match check_times h now (exp, nbf) with
  | Some ErrExpired => expired h now exp
  | Some ErrNotYetValid => ~ expired h now exp /\ too_early h now nbf
  | Some _ => False
  | None => ~ expired h now exp /\ ~ too_early h now nbf
  end.
Proof.
  intros Hl He Hn. unfold check_times, expired, too_early, After, Before.
  assert (wrap64 (- leeway h) = - leeway h) as -> by (apply wrap64_id; unfold int64_ok, minInt64, maxInt64 in *; lia).
  rewrite !shifted by (done || unfold minInt64, maxInt64 in *; lia).
  destruct (Z.eqb_spec exp 0), (Z.ltb_spec (instant exp + leeway h) now); simpl;
    destruct (Z.eqb_spec nbf 0), (Z.ltb_spec now (instant nbf + - leeway h)); simpl; try tauto; split; lia || tauto.
Qed.

(** C26. A token [Sign] makes from standard claims verifies under the same
    secret and gives the claims back, unless it is used after its expiry plus
    the leeway or before its start minus the leeway, and then the error says
    so; times and leeway are compared exactly. *)
Theorem tokens_roundtrip h now c tok
  (Hc : claims_valid c) (Hl : minInt64 < leeway h <= maxInt64)
  (He : date_ok (ExpiresAt c)) (Hn : date_ok (NotBefore c))
  (Htok : Sign h (Ok (claims_json c)) = Ok tok) :
  (~ expired h now (ExpiresAt c) -> ~ too_early h now (NotBefore c) ->
     Verify h now tok (Some claims_into) = Ok (Some c)) /\
  (expired h now (ExpiresAt c) -> Verify h now tok (Some claims_into) = Err ErrExpired) /\
  (~ expired h now (ExpiresAt c) -> too_early h now (NotBefore c) ->
     Verify h now tok (Some claims_into) = Err ErrNotYetValid).
Proof.
  rewrite (Verify_Sign h now _ _ _ (claims_nums c) (claims_depth c) Htok).
  rewrite (claims_clean c Hc), (claims_into_json c Hc). unfold value_times. rewrite (claims_times c Hc).
  pose proof (check_times_spec h now _ _ Hl He Hn) as Hs.
  destruct (check_times h now (ExpiresAt c, NotBefore c)) as [[]|]; simpl; tauto.
Qed.

(** C27. What [Verify] accepts, for any token and destination: exactly three
    parts separated by dots whose first part decodes to a JSON object with the
    algorithm HS256, whose third part decodes to the HMAC-SHA256 under the
    secret of the first two as they stand, whose second part decodes to a
    payload that is in time and, with a destination, decodes into it. A token
    with another signature is never accepted, whatever else it says. *)
Theorem tokens_accept {A} h now token (dst : option (json -> option A)) r :
  Verify h now token dst = Ok r <->
  exists p0 p1 p2 header payload,
    SplitByte token (Zbyte 46) = [p0; p1; p2] /\
    DecodeString p0 = Some header /\ parse_json header ≫= struct_into "" alg_field = Some "HS256" /\
    DecodeString p2 = Some (hmac_sha256 (secret h) (p0 +:+ "." +:+ p1)) /\
    DecodeString p1 = Some payload /\
    (forall times, times_of payload = Some times -> check_times h now times = None) /\
    match dst with
    | None => r = None
    | Some d => exists a, parse_json payload ≫= d = Some a /\ r = Some a
    end.
Proof.
  unfold Verify, need, fail_if, verifyAlgorithm, checkTimeClaims, sign. split.
  - destruct (SplitByte token (Zbyte 46)) as [|p0 [|p1 [|p2 [|]]]]; try done.
    destruct (DecodeString p0) as [header|] eqn:H0; [|done].
    destruct (parse_json header ≫= _) as [alg|] eqn:Ha; [|done]. destruct (String.eqb_spec alg "HS256") as [->|]; [|done].
    destruct (DecodeString p2) as [got|] eqn:H2; [|done].
    destruct (String.eqb_spec (hmac_sha256 (secret h) (p0 +:+ "." +:+ p1)) got) as [<-|]; [|done]. simpl.
    destruct (DecodeString p1) as [payload|] eqn:H1; [|done]. intros Hr.
    exists p0, p1, p2, header, payload. split_and!; try done.
    + intros times Ht. rewrite Ht in Hr. by destruct (check_times h now times).
    + destruct (match times_of payload with Some times => _ | None => _ end); [done|]. destruct dst as [d|]; [|congruence].
      destruct (parse_json payload ≫= d) as [a|]; [|done]. exists a. by simplify_eq.
  - intros (p0 & p1 & p2 & header & payload & -> & -> & Ha & -> & -> & Ht & Hd).
    rewrite Ha, !String.eqb_refl. simpl. destruct (times_of payload) as [times|]; [rewrite (Ht _ eq_refl)|];
      (destruct dst as [d|]; [destruct Hd as (a & -> & ->)|subst r]; done).
Qed.

Definition demo_key : HMAC256 := mkHMAC256 "s3cret" (30 * Second).
Definition demo_claims : StandardClaims := mkClaims "u_1" "mcp" "" "" 1700000000 1700003600 1700000000.
Definition demo_token (v : json) : string := match Sign demo_key (Ok v) with Ok tok => tok | Err _ => "" end.

Lemma demo_claims_valid : claims_valid demo_claims.
Proof. unfold claims_valid, valid_utf8, int64_ok, minInt64, maxInt64. split_and!; vm_compute; done || (intros; discriminate). Qed.

Lemma tokens_roundtrip_witness :
  Verify demo_key (instant 1700003629) (demo_token (claims_json demo_claims)) (Some claims_into) = Ok (Some demo_claims) /\
  Verify demo_key (instant 1700003631) (demo_token (claims_json demo_claims)) (Some claims_into) = Err ErrExpired.
Proof.
  assert (minInt64 < leeway demo_key <= maxInt64) as Hl by (vm_compute; intuition discriminate).
  assert (date_ok (ExpiresAt demo_claims) /\ date_ok (NotBefore demo_claims)) as [He Hn]
    by (split; vm_compute; intuition discriminate).
  split.
  - refine (proj1 (tokens_roundtrip demo_key (instant 1700003629) demo_claims (demo_token (claims_json demo_claims))
      demo_claims_valid Hl He Hn eq_refl) _ _); unfold expired, too_early; vm_compute; intros [_ ?]; discriminate.
  - refine (proj1 (proj2 (tokens_roundtrip demo_key (instant 1700003631) demo_claims (demo_token (claims_json demo_claims))
      demo_claims_valid Hl He Hn eq_refl)) _). unfold expired. vm_compute. split; [discriminate|done].
Defined.

(** A payload whose expiry is a number with a fraction (or any of the two
    times of another type) does not decode into the two fields, and is then
    taken to have no times: the token never expires. *)
Lemma tokens_fraction_never_expires :
  Verify (A := StandardClaims) demo_key (instant (2 ^ 40)) (demo_token (JObj [("exp", JNum "1.5")])) None = Ok None /\
  Verify (A := StandardClaims) demo_key (instant (2 ^ 40)) (demo_token (JObj [("exp", JNum "1")])) None = Err ErrExpired.
Proof. split; vm_compute; reflexivity. Qed.

(** Line breaks anywhere in the third part are skipped: another text of the
    same token is accepted. *)
Lemma tokens_line_break :
  Verify (A := StandardClaims) demo_key (instant 1700000000) (demo_token (claims_json demo_claims) +:+ newline) None = Ok None.
Proof. vm_compute. reflexivity. Qed.
