(* ===== verification/RateLimit.v ===== *)
(** [internal/ratelimit]: [Manual], the limiter tests control, and [Bucket],
    the token bucket.

    [Manual] is modelled for any number of callers at the grain of its critical
    sections, with the condition variable and cancellation, as in [Limiter];
    [Bucket] by its methods, on binary64 numbers and for every clock, with the loop
    of [WaitN] over what ends its sleeps. *)
From Stdlib Require Import Floats.SpecFloat.
From S2P Require Import Prelude GoNum Model GoFloat FloatRound.
Open Scope Z_scope.

(** ** [Bucket] *)

Record Bucket := mkBucket { rate : float64; burst : Z; b_tokens : float64; lastFill : Time }.

Definition New (now : Time) (ratePerSec : float64) (burst : Z) : may_panic Bucket :=
  if fle ratePerSec fzero then None
  else if burst <? 1 then None
  else Some (mkBucket ratePerSec burst (float_of_Z burst) now).

(** [d.Seconds()] *)
Definition Seconds (d : Duration) : float64 :=
  fadd (float_of_Z (d ÷ Second)) (fdiv (float_of_Z (Z.rem d Second)) (float_of_Z 1000000000)).

Definition refillLocked (now : Time) (b : Bucket) : Bucket :=
  let elapsed := Seconds (Sub now (lastFill b)) in
  if fle elapsed fzero then b
  else
    let tokens := fadd (b_tokens b) (fmul elapsed (rate b)) in
    let tokens := if flt (float_of_Z (burst b)) tokens then float_of_Z (burst b) else tokens in
    mkBucket (rate b) (burst b) tokens now.

Definition bucket_AllowN (now : Time) (n : Z) (b : Bucket) : Bucket * bool :=
  if n <=? 0 then (b, true)
  else
    let b := refillLocked now b in
    if fle (float_of_Z n) (b_tokens b)
    then (mkBucket (rate b) (burst b) (fsub (b_tokens b) (float_of_Z n)) (lastFill b), true)
    else (b, false).

Inductive wait_turn := TGot | TExceeded | TSleep (d : Duration).

(** One turn of the loop of [WaitN]. *)
Definition bucket_WaitN_turn `{FloatConv} (now : Time) (n : Z) (b : Bucket) : Bucket * wait_turn :=
  if n <=? 0 then (b, TGot)
  else if burst b <? n then (b, TExceeded)
  else
    let b := refillLocked now b in
    if fle (float_of_Z n) (b_tokens b)
    then (mkBucket (rate b) (burst b) (fsub (b_tokens b) (float_of_Z n)) (lastFill b), TGot)
    else
      let need := fsub (float_of_Z n) (b_tokens b) in
      let wait := int64_of_float (fmul (fdiv need (rate b)) (float_of_Z Second)) in
      (b, TSleep (if wait <=? 0 then Millisecond else wait)).

Definition bucket_Allow (now : Time) (b : Bucket) : Bucket * bool := bucket_AllowN now 1 b.

(** What ends a sleep of [WaitN], and what [WaitN] returns. *)
Inductive wake_up := WTimer (now : Time) | WCancel (e : ctx_err).
Inductive wait_result := WNil | WErrBurstExceeded | WCtx (e : ctx_err).

(** [WaitN], for the sequence of what ends its sleeps; [None] is a caller that
    sleeps on. The clock read after a sleep is the bucket's own, which need not be
    that of the timer. *)
Fixpoint bucket_WaitN `{FloatConv} (now : Time) (n : Z) (ups : list wake_up) (b : Bucket) : Bucket * option wait_result :=
  match bucket_WaitN_turn now n b with
  | (b, TGot) => (b, Some WNil)
  | (b, TExceeded) => (b, Some WErrBurstExceeded)
  | (b, TSleep _) =>
    match ups with
    | [] => (b, None)
    | WCancel e :: _ => (b, Some (WCtx e))
    | WTimer now :: ups => bucket_WaitN now n ups b
    end
  end.

Definition bucket_Wait `{FloatConv} (now : Time) (ups : list wake_up) (b : Bucket) : Bucket * option wait_result :=
  bucket_WaitN now 1 ups b.

Definition bucket_Tokens (now : Time) (b : Bucket) : Bucket * float64 :=
  let b := refillLocked now b in (b, b_tokens b).

(** ** [Manual] *)

Inductive op := OSet (n : Z) | OAdd (delta : Z) | OAllow (n : Z) | OWait (n : Z).
Inductive res := RUnit | RBool (b : bool) | RNil | RCtx (e : ctx_err).

Inductive pc :=
| PStart
| PLock        (* wants [mu], or woken and wants it back *)
| PPark        (* holds [mu], between [ctx.Err()] and [cond.Wait()] *)
| PWait        (* asleep on [cond] *)
| PBroadcast   (* unlocked, the broadcast to come *)
| PDone (r : res).

Record thread := mkThread { t_op : op; ctx : option ctx_err; watch : bool; at_pc : pc }.

(** What was done to the count, in the order of the critical sections. *)
Inductive effect := ESet (n : Z) | EAdd (delta : Z) | ETake (n : Z).

Definition apply (t : Z) (e : effect) : Z :=
  match e with ESet n => n | EAdd d => wrap64 (t + d) | ETake n => t - n end.

Record sys := mkSys { tokens : Z; lock : option nat; threads : list thread; log : list effect }.

Inductive action :=
| ACall (o : op) (c : option ctx_err) | ACancel (i : nat) (e : ctx_err)
| AStart (i : nat) | ALock (i : nat) | APark (i : nat) | ABroadcast (i : nat) | AWatch (i : nat).

Definition set_pc (p : pc) (t : thread) : thread := mkThread (t_op t) (ctx t) (watch t) p.
Definition wake (t : thread) : thread := match at_pc t with PWait => set_pc PLock t | _ => t end.

Definition put (i : nat) (t : thread) (y : sys) : sys := mkSys (tokens y) (lock y) (<[i := t]> (threads y)) (log y).
Definition did (e : effect) (y : sys) : sys := mkSys (apply (tokens y) e) (lock y) (threads y) (log y ++ [e]).

(** One turn of a caller that gets [mu]. *)
Definition locked (i : nat) (t : thread) (y : sys) : sys :=
  match t_op t with
  | OSet n => put i (set_pc PBroadcast t) (did (ESet n) y)
  | OAdd d => put i (set_pc PBroadcast t) (did (EAdd d) y)
  | OAllow n =>
    if n <=? tokens y then put i (set_pc (PDone (RBool true)) t) (did (ETake n) y)
    else put i (set_pc (PDone (RBool false)) t) y
  | OWait n =>
    if tokens y <? n then
      match ctx t with
      | Some e => put i (set_pc (PDone (RCtx e)) t) y
      | None => mkSys (tokens y) (Some i) (<[i := set_pc PPark t]> (threads y)) (log y)
      end
    else put i (set_pc (PDone RNil) t) (did (ETake n) y)
  end.

Definition act (a : action) (y : sys) : option sys :=
  match a with
  | ACall o c => Some (mkSys (tokens y) (lock y) (threads y ++ [mkThread o c false PStart]) (log y))
  | ACancel i e =>
    match threads y !! i with
    | Some (mkThread o None w p) => Some (put i (mkThread o (Some e) w p) y)
    | _ => None
    end
  | AStart i =>
    match threads y !! i with
    | Some (mkThread o c w PStart) =>
      Some (put i (match o with
                   | OAllow n => mkThread o c false (if n <=? 0 then PDone (RBool true) else PLock)
                   | OWait n => if n <=? 0 then mkThread o c false (PDone RNil) else mkThread o c true PLock
                   | _ => mkThread o c false PLock
                   end) y)
    | _ => None
    end
  | ALock i =>
    match lock y, threads y !! i with
    | None, Some t => match at_pc t with PLock => Some (locked i t y) | _ => None end
    | _, _ => None
    end
  | APark i =>
    match threads y !! i with
    | Some (mkThread o c w PPark) => Some (mkSys (tokens y) None (<[i := mkThread o c w PWait]> (threads y)) (log y))
    | _ => None
    end
  | ABroadcast i =>
    match threads y !! i with
    | Some (mkThread o c w PBroadcast) =>
      Some (mkSys (tokens y) (lock y) (map wake (<[i := mkThread o c w (PDone RUnit)]> (threads y))) (log y))
    | _ => None
    end
  | AWatch i =>
    match threads y !! i with
    | Some (mkThread o (Some e) true p) =>
      Some (mkSys (tokens y) (lock y) (map wake (<[i := mkThread o (Some e) false p]> (threads y))) (log y))
    | _ => None
    end
  end.

Fixpoint acts (l : list action) (y : sys) : option sys :=
  match l with
  | [] => Some y
  | a :: l => y ← act a y; acts l y
  end.

Definition NewManual (initial : Z) : sys := mkSys initial None [] [].

(** ** What holds of every interleaving *)

(** What a call has taken, and what the effects took. *)
Definition taken (t : thread) : Z :=
  match t_op t, at_pc t with
  | OAllow n, PDone (RBool true) | OWait n, PDone RNil => Z.max n 0
  | _, _ => 0
  end.
Definition took (e : effect) : Z := match e with ETake n => n | _ => 0 end.

(** Every take is of a positive number that is there. *)
Fixpoint covered (t : Z) (l : list effect) : Prop :=
  match l with
  | [] => True
  | e :: l => match e with ETake n => 0 < n <= t | _ => True end /\ covered (apply t e) l
  end.

Lemma covered_snoc t l e :
  covered t (l ++ [e]) <-> covered t l /\ match e with ETake n => 0 < n <= foldl apply t l | _ => True end.
Proof. revert t. induction l as [|e' l IH]; intros t; simpl; [tauto|]. rewrite IH. tauto. Qed.

Definition needs (t : thread) : Z := match t_op t with OWait n => n | _ => 0 end.
Definition sleeping (t : thread) : bool := match at_pc t with PWait | PPark => true | _ => false end.
Definition broadcasting (t : thread) : bool := match at_pc t with PBroadcast => true | _ => false end.

(** Which states a call can be in. *)
Definition pc_ok (t : thread) : Prop :=
  match at_pc t, t_op t with
  | PLock, (OAllow n | OWait n) => 0 < n
  | (PPark | PWait), OWait n => 0 < n
  | (PPark | PWait), _ => False
  | PBroadcast, (OAllow _ | OWait _) => False
  | _, _ => True
  end.

Record manual_inv (init : Z) (y : sys) : Prop := {
  m_count : tokens y = foldl apply init (log y);
  m_covered : covered init (log y);
  m_taken : total taken (threads y) = total took (log y);
  m_pc : Forall pc_ok (threads y);
  m_lock : forall i t, threads y !! i = Some t -> at_pc t = PPark -> lock y = Some i;
  m_held : forall i, lock y = Some i -> at_pc <$> threads y !! i = Some PPark;
  m_parked : Forall (fun t => at_pc t = PPark -> tokens y < needs t) (threads y);
  m_asleep : tally broadcasting (threads y) = 0 -> Forall (fun t => sleeping t = true -> tokens y < needs t) (threads y) }.

Lemma manual_put init y i t t' :
  manual_inv init y -> threads y !! i = Some t -> pc_ok t' -> taken t' = taken t ->
  (at_pc t' = PPark <-> at_pc t = PPark) -> needs t' = needs t ->
  (sleeping t' = true -> sleeping t = true) -> (broadcasting t = true -> broadcasting t' = true) ->
  manual_inv init (put i t' y).
Proof.
  intros [] Hi Hpc Htk Hpark Hn Hsl Hb. pose proof (lookup_lt_Some _ _ _ Hi) as Hlt. split; simpl; try done.
  - rewrite (total_insert _ _ _ _ _ Hi). lia.
  - by apply Forall_insert.
  - intros j tj [(<- & <- & _)|[Hne Hj]]%list_lookup_insert_Some Hp; [|by eauto]. apply (m_lock0 i t Hi). tauto.
  - intros j Hj. specialize (m_held0 j Hj). destruct (decide (i = j)) as [<-|Hne].
    + rewrite Hi in m_held0. simplify_eq/=. rewrite list_lookup_insert_eq by done. simpl. f_equal. tauto.
    + by rewrite list_lookup_insert_ne.
  - apply Forall_insert; [done|]. rewrite Hn, Hpark. exact (Forall_lookup_1 _ _ _ _ m_parked0 Hi).
  - intros Ht. rewrite (tally_insert _ _ _ _ _ Hi) in Ht.
    assert (tally broadcasting (threads y) = 0) as Hz.
    { pose proof (tally_nonneg broadcasting (threads y)). destruct (broadcasting t) eqn:Hbt.
      - rewrite (Hb eq_refl) in Ht. simpl in Ht. lia.
      - destruct (broadcasting t'); simpl in Ht; lia. }
    specialize (m_asleep0 Hz). apply Forall_insert; [done|]. intros Hs. rewrite Hn.
    exact (Forall_lookup_1 _ _ _ _ m_asleep0 Hi (Hsl Hs)).
Qed.

Lemma manual_did init y i t t' e :
  manual_inv init y -> threads y !! i = Some t -> lock y = None -> at_pc t = PLock ->
  pc_ok t' -> sleeping t' = false -> taken t' = took e ->
  match e with ETake n => 0 < n <= tokens y | _ => True end ->
  apply (tokens y) e <= tokens y \/ broadcasting t' = true ->
  manual_inv init (put i t' (did e y)).
Proof.
  intros [] Hi Hlock Hp Hpc Hsl Htk Hcov Hdec. pose proof (lookup_lt_Some _ _ _ Hi) as Hlt.
  assert (forall j tj, threads y !! j = Some tj -> at_pc tj = PPark -> False) as Hnone.
  { intros j tj Hj Hpj. specialize (m_lock0 j tj Hj Hpj). congruence. }
  assert (at_pc t' <> PPark) as Hp' by (intros Hpp; unfold sleeping in Hsl; by rewrite Hpp in Hsl).
  split; simpl; try done.
  - by rewrite foldl_app, <- m_count0.
  - apply covered_snoc. rewrite <- m_count0. done.
  - rewrite (total_insert _ _ _ _ _ Hi), total_snoc, Htk. unfold taken at 2. rewrite Hp. destruct (t_op t); lia.
  - by apply Forall_insert.
  - intros j tj [(<- & <- & _)|[Hne Hj]]%list_lookup_insert_Some Hpj; [done|]. by destruct (Hnone j tj).
  - rewrite Hlock. done.
  - apply Forall_lookup. intros j tj [(<- & <- & _)|[Hne Hj]]%list_lookup_insert_Some Hpj; [done|]. by destruct (Hnone j tj).
  - intros Ht. rewrite (tally_insert _ _ _ _ _ Hi) in Ht.
    assert (broadcasting t = false) as Hbt by (unfold broadcasting; by rewrite Hp). rewrite Hbt in Ht. simpl in Ht.
    pose proof (tally_nonneg broadcasting (threads y)). destruct (broadcasting t') eqn:Hb'; simpl in Ht; [lia|].
    destruct Hdec as [Hdec|]; [|done]. specialize (m_asleep0 ltac:(lia)).
    apply Forall_insert; [|by rewrite Hsl]. eapply Forall_impl; [exact m_asleep0|]. simpl. intros x Hx Hs.
    specialize (Hx Hs). lia.
Qed.

Lemma wake_pc t : pc_ok t -> pc_ok (wake t).
Proof. by destruct t as [[] ? ? []]. Qed.
Lemma wake_taken t : taken (wake t) = taken t.
Proof. by destruct t as [[] ? ? []]. Qed.
Lemma wake_parked t : at_pc (wake t) = PPark <-> at_pc t = PPark.
Proof. by destruct t as [? ? ? []]. Qed.
Lemma wake_need t : needs (wake t) = needs t.
Proof. by destruct t as [? ? ? []]. Qed.

(** Thread [i] moves and everyone asleep is woken. *)
Lemma manual_wake init y i t t' :
  manual_inv init y -> threads y !! i = Some t -> pc_ok t' -> taken t' = taken t ->
  (at_pc t' = PPark <-> at_pc t = PPark) -> needs t' = needs t ->
  manual_inv init (mkSys (tokens y) (lock y) (map wake (<[i := t']> (threads y))) (log y)).
Proof.
  intros [] Hi Hpc Htk Hpark Hn. pose proof (lookup_lt_Some _ _ _ Hi) as Hlt.
  assert (Forall (fun t => at_pc t = PPark -> tokens y < needs t) (<[i := t']> (threads y))) as Hall.
  { apply Forall_insert; [done|]. rewrite Hn, Hpark. exact (Forall_lookup_1 _ _ _ _ m_parked0 Hi). }
  split; simpl; try done.
  - rewrite total_map, (total_ext _ taken) by (intros; apply wake_taken). rewrite (total_insert _ _ _ _ _ Hi). lia.
  - apply Forall_map. eapply Forall_impl; [|exact wake_pc]. by apply Forall_insert.
  - intros j tj Hj Hp. apply list_lookup_fmap_Some in Hj as (t0 & -> & Hj). rewrite wake_parked in Hp.
    apply list_lookup_insert_Some in Hj as [(<- & <- & _)|[Hne Hj]]; [apply (m_lock0 i t Hi); tauto|eauto].
  - intros j Hj. specialize (m_held0 j Hj). rewrite list_lookup_fmap. destruct (decide (i = j)) as [<-|Hne].
    + rewrite Hi in m_held0. simplify_eq/=. rewrite list_lookup_insert_eq by done. simpl. f_equal. apply wake_parked. tauto.
    + rewrite list_lookup_insert_ne by done. destruct (threads y !! j); simplify_eq/=. f_equal. by apply wake_parked.
  - apply Forall_map. eapply Forall_impl; [exact Hall|]. simpl. intros x Hx. by rewrite wake_parked, wake_need.
  - intros _. apply Forall_map. eapply Forall_impl; [exact Hall|]. simpl. intros [o c w []] Hx Hs; try done. by apply Hx.
Qed.

(** A waiter holds the lock, then lets it go and sleeps. *)
Lemma manual_park init y i t :
  manual_inv init y -> threads y !! i = Some t -> lock y = None -> at_pc t = PLock ->
  pc_ok (set_pc PPark t) -> tokens y < needs t ->
  manual_inv init (mkSys (tokens y) (Some i) (<[i := set_pc PPark t]> (threads y)) (log y)).
Proof.
  intros [] Hi Hlock Hp Hpc Hshort. pose proof (lookup_lt_Some _ _ _ Hi) as Hlt. split; simpl; try done.
  - rewrite (total_insert _ _ _ _ _ Hi). unfold taken at 2 3. simpl. rewrite Hp. destruct (t_op t); lia.
  - by apply Forall_insert.
  - intros j tj [(<- & <- & _)|[Hne Hj]]%list_lookup_insert_Some Hpj; [done|]. specialize (m_lock0 j tj Hj Hpj). congruence.
  - intros j [= <-]. by rewrite list_lookup_insert_eq.
  - by apply Forall_insert.
  - rewrite (tally_insert _ _ _ _ _ Hi). unfold broadcasting at 2 3. simpl. rewrite Hp. simpl. intros Ht.
    apply Forall_insert; [apply m_asleep0; lia|done].
Qed.

Lemma manual_unpark init y i t :
  manual_inv init y -> threads y !! i = Some t -> at_pc t = PPark -> pc_ok (set_pc PWait t) ->
  manual_inv init (mkSys (tokens y) None (<[i := set_pc PWait t]> (threads y)) (log y)).
Proof.
  intros [] Hi Hp Hpc. pose proof (m_lock0 i t Hi Hp) as Hl. split; simpl; try done.
  - rewrite (total_insert _ _ _ _ _ Hi). unfold taken at 2 3. simpl. rewrite Hp. destruct (t_op t); lia.
  - by apply Forall_insert.
  - intros j tj [(<- & <- & _)|[Hne Hj]]%list_lookup_insert_Some Hpj; [done|]. specialize (m_lock0 j tj Hj Hpj). congruence.
  - by apply Forall_insert.
  - rewrite (tally_insert _ _ _ _ _ Hi). unfold broadcasting at 2 3. simpl. rewrite Hp. simpl. intros Ht.
    apply Forall_insert; [apply m_asleep0; lia|]. intros _. exact (Forall_lookup_1 _ _ _ _ m_parked0 Hi Hp).
Qed.

Lemma act_manual init a y y' : act a y = Some y' -> manual_inv init y -> manual_inv init y'.
Proof.
  intros Ha Hy. pose proof Hy as []. destruct a as [o c|i e|i|i|i|i|i]; simpl in Ha.
  - simplify_eq. split; simpl; try done.
    + rewrite total_snoc. unfold taken at 2. simpl. destruct o; lia.
    + apply Forall_app_2; [done|]. by constructor; [destruct o|].
    + intros j tj [[_ Hj]|[-> <-]]%lookup_snoc_Some; [by eauto|done].
    + intros j Hj. specialize (m_held0 j Hj). destruct (threads y !! j) eqn:Htj; simplify_eq/=.
      rewrite (lookup_app_l_Some _ _ _ _ Htj). simpl. by f_equal.
    + apply Forall_app_2; [done|]. by constructor.
    + rewrite tally_snoc. simpl. rewrite Z.add_0_r. intros Hz. apply Forall_app_2; [by apply m_asleep0|]. by constructor.
  - destruct (threads y !! i) as [[o [c|] w p]|] eqn:Hi; simplify_eq.
    pose proof (Forall_lookup_1 _ _ _ _ m_pc0 Hi). by apply (manual_put _ _ _ _ _ Hy Hi).
  - destruct (threads y !! i) as [[o c w []]|] eqn:Hi; simplify_eq.
    apply (manual_put _ _ _ _ _ Hy Hi); unfold pc_ok, taken; destruct o as [n|d|n|n]; simpl; try done;
      destruct (Z.leb_spec n 0); simpl; try done; lia.
  - destruct (lock y) as [|] eqn:Hl; [done|]. destruct (threads y !! i) as [t|] eqn:Hi; [|done].
    destruct (at_pc t) eqn:Hp; simplify_eq. unfold locked. destruct t as [o c w p]. simpl in *. subst p.
    pose proof (Forall_lookup_1 _ _ _ _ m_pc0 Hi) as Hpc. unfold pc_ok in Hpc. simpl in Hpc.
    destruct o as [n|d|n|n].
    + apply (manual_did _ _ _ _ _ _ Hy Hi Hl); try done. by right.
    + apply (manual_did _ _ _ _ _ _ Hy Hi Hl); try done. by right.
    + destruct (Z.leb_spec n (tokens y)); [|by apply (manual_put _ _ _ _ _ Hy Hi)].
      apply (manual_did _ _ _ _ _ _ Hy Hi Hl); try done; [unfold taken; simpl; lia|left; simpl; lia].
    + destruct (Z.ltb_spec (tokens y) n); [destruct c as [e|]|].
      * by apply (manual_put _ _ _ _ _ Hy Hi).
      * by apply (manual_park _ _ _ (mkThread (OWait n) None w PLock) Hy Hi).
      * apply (manual_did _ _ _ _ _ _ Hy Hi Hl); try done; [unfold taken; simpl; lia|left; simpl; lia].
  - destruct (threads y !! i) as [[o c w []]|] eqn:Hi; simplify_eq.
    pose proof (Forall_lookup_1 _ _ _ _ m_pc0 Hi). by apply (manual_unpark _ _ _ (mkThread o c w PPark) Hy Hi).
  - destruct (threads y !! i) as [[o c w []]|] eqn:Hi; simplify_eq.
    pose proof (Forall_lookup_1 _ _ _ _ m_pc0 Hi). apply (manual_wake _ _ _ _ _ Hy Hi); try done;
    unfold pc_ok, taken in *; by destruct o.
  - destruct (threads y !! i) as [[o [e|] [] p]|] eqn:Hi; simplify_eq.
    pose proof (Forall_lookup_1 _ _ _ _ m_pc0 Hi). by apply (manual_wake _ _ _ _ _ Hy Hi).
Qed.

Lemma acts_manual init l y y' : acts l y = Some y' -> manual_inv init y -> manual_inv init y'.
Proof.
  revert y. induction l as [|a l IH]; intros y Hl Hy; simplify_eq/=; [done|].
  destruct (act a y) as [y1|] eqn:Ha; simplify_eq/=. eauto using act_manual.
Qed.

Lemma NewManual_inv init : manual_inv init (NewManual init).
Proof. split; simpl; try done; constructor. Qed.

(** No call can take a step on its own. *)
Definition stuck (y : sys) : Prop :=
  forall i, act (AStart i) y = None /\ act (ALock i) y = None /\ act (APark i) y = None /\ act (ABroadcast i) y = None.

Lemma stuck_short init y : manual_inv init y -> stuck y ->
  Forall (fun t => match at_pc t with PDone _ => True | PWait => tokens y < needs t | _ => False end) (threads y).
Proof.
  intros [] Hst. assert (lock y = None) as Hl.
  { destruct (lock y) as [j|] eqn:Hl; [|done]. specialize (m_held0 j eq_refl). destruct (Hst j) as (_ & _ & Hp & _).
    simpl in Hp. destruct (threads y !! j) as [[o c w p]|]; simplify_eq/=. }
  assert (forall i t, threads y !! i = Some t -> match at_pc t with PDone _ | PWait => True | _ => False end) as Hpc.
  { intros i t Hi. destruct (Hst i) as (H1 & H2 & H3 & H4). simpl in *. rewrite Hi in *. rewrite Hl in *.
    destruct t as [o c w []]; simpl in *; done. }
  assert (tally broadcasting (threads y) = 0) as Hb.
  { apply tally_none. intros t [i Hi]%list_elem_of_lookup. specialize (Hpc i t Hi). unfold broadcasting. by destruct (at_pc t). }
  apply Forall_lookup. intros i t Hi. specialize (Hpc i t Hi).
  pose proof (Forall_lookup_1 _ _ _ _ (m_asleep0 Hb) Hi) as Hs. unfold sleeping in Hs. simpl in Hs.
  destruct (at_pc t); auto.
Qed.

(** C36. [Manual] under any interleaving of callers: the count is what the
    critical sections made of it, one after the other; a call takes tokens
    only where they are there, and those that report success have together
    taken exactly what was taken; no change of the count is slept through:
    once no call can go on by itself, every call still waiting waits for more
    tokens than there are, and every other is over. *)
Theorem manual_interleavings init l y :
  acts l (NewManual init) = Some y ->
  tokens y = foldl apply init (log y) /\ covered init (log y) /\
  total taken (threads y) = total took (log y) /\
  (stuck y -> Forall (fun t => match at_pc t with PDone _ => True | PWait => tokens y < needs t | _ => False end) (threads y)).
Proof.
  intros Hl. pose proof (acts_manual init _ _ _ Hl (NewManual_inv init)) as Hy. pose proof Hy as [].
  split_and!; try done. by apply (stuck_short init).
Qed.

Lemma manual_interleavings_witness :
  exists y, acts [ACall (OWait 3) None; ACall (OAllow 2) None; AStart 0; AStart 1; ALock 0; APark 0; ALock 1;
      ACall (OAdd 5) None; AStart 2; ALock 2; ABroadcast 2; ALock 0] (NewManual 2) = Some y /\
    map at_pc (threads y) = [PDone RNil; PDone (RBool true); PDone RUnit] /\
    tokens y = foldl apply 2 (log y) /\ tokens y = 2.
Proof.
  eexists. split; [vm_compute; reflexivity|]. split; [reflexivity|]. split; [|reflexivity].
  refine (proj1 (manual_interleavings 2 [ACall (OWait 3) None; ACall (OAllow 2) None; AStart 0; AStart 1; ALock 0; APark 0; ALock 1;
      ACall (OAdd 5) None; AStart 2; ALock 2; ABroadcast 2; ALock 0] _ _)). vm_compute. reflexivity.
Defined.

(** The broadcast of a cancellation can fall between the waiter's look at its
    context and its sleep: cancelled, it sleeps on. *)
Lemma manual_cancel_lost :
  exists y, acts [ACall (OWait 1) None; AStart 0; ALock 0; ACancel 0 Canceled; AWatch 0; APark 0] (NewManual 0) = Some y /\
    threads y = [mkThread (OWait 1) (Some Canceled) false PWait] /\
    act (AWatch 0) y = None /\ act (ALock 0) y = None.
Proof. eexists. split; [vm_compute; reflexivity|]. by split_and!. Qed.

(** ** The bucket: caps and refusals *)

Lemma flt_irrefl x : flt x x = false.
Proof.
  unfold flt, SFltb. destruct x as [s|[]| |[] m e]; simpl; rewrite ?Z.compare_refl, ?Pos.compare_cont_refl; done.
Qed.

(** Once time has passed, a refill leaves no more than the burst. *)
Lemma refill_capped now b : fle (Seconds (Sub now (lastFill b))) fzero = false ->
  flt (float_of_Z (burst b)) (b_tokens (refillLocked now b)) = false.
Proof.
  intros He. unfold refillLocked. rewrite He. cbv zeta. cbn [b_tokens].
  destruct (flt (float_of_Z (burst b)) (fadd (b_tokens b) (fmul _ (rate b)))) eqn:Hf; [apply flt_irrefl|exact Hf].
Qed.

(** [New] lets a rate that is not a number through; the first refill spoils
    the count, and the bucket refuses for ever. *)
Lemma bucket_nan : exists b, New 0 S754_nan 5 = Some b /\
  (bucket_AllowN Second 1 b).2 = false /\ (bucket_AllowN (1000 * Second) 1 (bucket_AllowN Second 1 b).1).2 = false.
Proof. eexists. split; [reflexivity|]. split; vm_compute; reflexivity. Qed.

(** A turn of [WaitN], told apart by what it finds. *)
Lemma wait_turn_cases `{FloatConv} now n b : 0 < n <= burst b ->
  let b' := refillLocked now b in
  if fle (float_of_Z n) (b_tokens b')
  then bucket_WaitN_turn now n b = (mkBucket (rate b') (burst b') (fsub (b_tokens b') (float_of_Z n)) (lastFill b'), TGot)
  else exists d, bucket_WaitN_turn now n b = (b', TSleep d) /\ 0 < d.
Proof.
  intros Hn b'. unfold bucket_WaitN_turn. rewrite (proj2 (Z.leb_gt n 0)), (proj2 (Z.ltb_ge _ _)) by lia. cbn zeta. fold b'.
  destruct (fle _ _); [done|]. eexists. split; [done|]. destruct (Z.leb_spec (int64_of_float (fmul (fdiv (fsub (float_of_Z n) (b_tokens b')) (rate b')) (float_of_Z Second))) 0); done.
Qed.

(** The clock has moved far enough to fill the bucket. *)
Definition overflows (now : Time) (b : Bucket) : Prop :=
  let elapsed := Seconds (Sub now (lastFill b)) in
  fle elapsed fzero = false /\ flt (float_of_Z (burst b)) (fadd (b_tokens b) (fmul elapsed (rate b))) = true.

Lemma refill_overflow now b : overflows now b ->
  refillLocked now b = mkBucket (rate b) (burst b) (float_of_Z (burst b)) now.
Proof. intros [He Hf]. unfold refillLocked. by rewrite He, Hf. Qed.

(** [WaitN] for what the bucket can hold: a nil result means that the last turn
    found the tokens and took them, once; a cancelled call and one that sleeps on
    have taken none; and a turn that finds the clock far enough on ends the call,
    so the call ends if the clock goes on. *)
Lemma bucket_WaitN_spec `{FloatConv} now n ups b : 0 < n <= burst b -> burst b < 2 ^ 53 ->
  match bucket_WaitN now n ups b with
  | (b', Some WNil) => exists b0, fle (float_of_Z n) (b_tokens b0) = true /\ b_tokens b' = fsub (b_tokens b0) (float_of_Z n) /\
      burst b0 = burst b
  | (b', Some (WCtx e)) => WCancel e ∈ ups /\ burst b' = burst b
  | (b', Some WErrBurstExceeded) => False
  | (b', None) => Forall (fun u => match u with WTimer _ => True | WCancel _ => False end) ups /\ ~ overflows now b
  end.
Proof.
  intros Hn Hmax. assert (forall now b, burst (refillLocked now b) = burst b) as Hburst.
  { intros now' b'. unfold refillLocked. by destruct (fle _ _). }
  assert (forall now b, 0 < n <= burst b -> burst b < 2 ^ 53 -> overflows now b ->
    fle (float_of_Z n) (b_tokens (refillLocked now b)) = true) as Hover.
  { intros now' b' Hn' Hb Ho. rewrite (refill_overflow _ _ Ho). simpl. apply float_small_le; lia. }
  revert now b Hn Hmax. induction ups as [|[now'|e] ups IH]; intros now b Hn Hmax; simpl;
    pose proof (wait_turn_cases now n b Hn) as Ht; cbn zeta in Ht; specialize (Hover now b Hn Hmax);
    (destruct (fle (float_of_Z n) (b_tokens (refillLocked now b))) eqn:Hf;
      [rewrite Ht; by exists (refillLocked now b)|destruct Ht as (d & -> & _)]).
  - split; [constructor|]. intros Ho. by specialize (Hover Ho).
  - specialize (IH now' (refillLocked now b)). rewrite Hburst in IH. specialize (IH Hn Hmax).
    destruct (bucket_WaitN now' n ups (refillLocked now b)) as [b' [[| |e]|]]; [done|done| |].
    + split; [|apply IH]. right. apply IH.
    + split; [constructor; [done|apply IH]|]. intros Ho. by specialize (Hover Ho).
  - split; [left|apply Hburst].
Qed.

(** Three tokens at one per two seconds: the fourth call waits. *)
Example bucket_t : exists b, New 0 (float_of_Z 2) 3 = Some b /\
  let '(b, ok1) := bucket_AllowN 0 2 b in let '(b, ok2) := bucket_AllowN 0 2 b in
  let '(b, w) := bucket_WaitN_turn 0 2 b in let '(b, ok3) := bucket_AllowN (500 * Millisecond) 2 b in
  (ok1, ok2, w, ok3) = (true, false, TSleep (500 * Millisecond), true).
Proof. eexists. split; [reflexivity|]. vm_compute. reflexivity. Qed.
