(* ===== verification/Perf.v ===== *)
(** [internal/perf]: timing trees and their rendering.

    A [realTracker] is an object with a parent, so trackers live in a heap; an
    entry is a tree. The maps given by callers are copied by the code, so they
    are values. The clock is read at the places the code reads it. *)
From Stdlib Require Import Floats.SpecFloat.
From S2P Require Import Prelude GoNum GoStrings GoUnicode Model GoFloat RateLimit.
Open Scope Z_scope.

(** ** Entries *)

Inductive TimingEntry := mkTiming {
  Name : string; DurationMs : Z; Children : list TimingEntry;
  Metrics : gmap string Z; Attributes : gmap string string }.   (* a nil map is empty *)

Fixpoint cloneEntry (e : TimingEntry) : TimingEntry :=
  mkTiming (Name e) (DurationMs e) (map cloneEntry (Children e)) (Metrics e) (Attributes e).

(** ** Trackers *)

Record realTracker := mkTracker { entries : list TimingEntry; parent : option nat; t_name : string; start : Time }.

Abbreviation heap := (list realTracker) (only parsing).

(** [TrackVoid], [Track]: the clock before and after the function. *)
Definition append_entry (p : nat) (e : TimingEntry) (h : heap) : heap :=
  alter (fun t => mkTracker (entries t ++ [e]) (parent t) (t_name t) (start t)) p h.

Definition elapsed_ms (from to : Time) : Z := Milliseconds (Sub to from).

Definition Track (p : nat) (name : string) (from to : Time) (h : heap) : heap :=
  append_entry p (mkTiming name (elapsed_ms from to) [] ∅ ∅) h.

Definition Serial (p : nat) (name : string) (now : Time) (h : heap) : heap * nat :=
  (h ++ [mkTracker [] (Some p) name now], length h).

Definition End (c : nat) (now : Time) (h : heap) : heap * nat :=
  match h !! c with
  | Some t =>
    match parent t with
    | Some p => (append_entry p (mkTiming (t_name t) (elapsed_ms (start t) now) (entries t) ∅ ∅) h, p)
    | None => (h, c)
    end
  | None => (h, c)
  end.

Definition GetTimings (p : nat) (h : heap) : list TimingEntry :=
  match h !! p with Some t => map cloneEntry (entries t) | None => [] end.

(** Any [Tracker]; [Custom] is an implementation of another package, known by
    what its [IsEnabled] says. *)
Inductive Tracker := Real (p : nat) | Noop | Custom (enabled : bool).

Definition IsEnabled (t : Tracker) : bool :=
  match t with Real _ => true | Noop => false | Custom enabled => enabled end.

(** [New], [NewWithClock]: a new tracker without parent. *)
Definition NewWithClock (h : heap) : heap * Tracker := (h ++ [mkTracker [] None "" zeroTime], Real (length h)).

Definition New (enabled : bool) (h : heap) : heap * Tracker :=
  if negb enabled then (h, Noop) else NewWithClock h.

(** [Track] runs a function between two readings of the clock; the function may
    use the trackers itself. [TrackVoid] is the same without an error. *)
Definition real_Track {A} (p : nat) (name : string) (fn : heap -> heap * A) (from to : Time) (h : heap) : heap * A :=
  let '(h, err) := fn h in (Track p name from to h, err).

Definition noop_Track {A} (fn : heap -> heap * A) (h : heap) : heap * A := fn h.
Definition noop_Serial : Tracker := Noop.
Definition noop_End : Tracker := Noop.
Definition noop_GetTimings : list TimingEntry := [].

(** The loops of [cloneMetrics] and [cloneAttributes]: a copy, whatever the order. *)
Definition clone_map `{MapIter} {V} (m : gmap string V) : gmap string V :=
  if (size m =? 0)%nat then ∅ else foldl (fun out kv => <[kv.1 := kv.2]> out) ∅ (range m).

Lemma foldl_insert_list {V} (l : list (string * V)) (out : gmap string V) :
  NoDup l.*1 -> (forall k, k ∈ l.*1 -> out !! k = None) ->
  foldl (fun out kv => <[kv.1 := kv.2]> out) out l = list_to_map l ∪ out.
Proof.
  revert out. induction l as [|[k v] l IH]; intros out Hnd Hout; simpl; [by rewrite (left_id_L ∅ (∪))|].
  apply NoDup_cons in Hnd as [Hk Hnd]. rewrite IH; [|done|].
  - rewrite <- insert_union_l, <- insert_union_r; [done|]. by apply not_elem_of_list_to_map_1.
  - intros k' Hk'. rewrite lookup_insert_ne by (by intros ->). apply Hout. by right.
Qed.

Lemma clone_map_id `{MapIter} {V} (m : gmap string V) : clone_map m = m.
Proof.
  unfold clone_map. destruct (Nat.eqb_spec (size m) 0) as [Hz|_]; [by apply map_size_empty_iff in Hz|].
  rewrite foldl_insert_list by (apply NoDup_range_keys || done). rewrite (right_id_L ∅ (∪)).
  rewrite <- (list_to_map_to_list m) at 2. apply list_to_map_proper; [apply NoDup_range_keys|apply range_perm].
Qed.

Definition AddEntryDetails (t : Tracker) (name : string) (dur : Duration)
    (metrics : gmap string Z) (attrs : gmap string string) (h : heap) : heap :=
  match t with
  | Real p => append_entry p (mkTiming name (Milliseconds dur) [] metrics attrs) h
  | _ => h
  end.

Definition AddEntry (t : Tracker) (name : string) (dur : Duration) (h : heap) : heap :=
  AddEntryDetails t name dur ∅ ∅ h.

Definition AddEntries (t : Tracker) (es : list TimingEntry) (h : heap) : heap :=
  match t with
  | Real p => foldl (fun h e => append_entry p (cloneEntry e) h) h es
  | _ => h
  end.

(** ** Rendering *)

Record RenderOptions := mkOptions {
  MinDuration : Duration; SortByDuration : bool; HidePercents : bool; HideMetrics : bool }.

(** [%Nd] *)
Fixpoint spaces (n : nat) : string := match n with O => "" | S n => " " +:+ spaces n end.
Definition pad (n : nat) (s : string) : string := spaces (n - len s) +:+ s.

(** [%.2f] of a positive number: the exact value rounded to hundredths, ties
    to even. *)
Definition hundredths (f : float64) : Z :=
  match f with
  | S754_finite _ m e =>
    if 0 <=? e then Zpos m * 2 ^ e * 100
    else
      let d := 2 ^ (- e) in
      let q := Zpos m * 100 / d in
      let r := 2 * (Zpos m * 100 mod d) in
      if (d <? r) || (r =? d) && Z.odd q then q + 1 else q
  | _ => 0
  end.

Definition two_digits (z : Z) : string := if z <? 10 then "0" +:+ Itoa z else Itoa z.
Definition fixed2 (f : float64) : string := let h := hundredths f in Itoa (h / 100) +:+ "." +:+ two_digits (h mod 100).

Definition formatDur (ms : Z) : string :=
  let d := wrap64 (ms * Millisecond) in
  if Minute <=? d then Itoa (d ÷ Minute) +:+ "m" +:+ two_digits (Z.rem d Minute ÷ Second) +:+ "s"
  else if Second <=? d then pad 5 (fixed2 (Seconds d)) +:+ "s"
  else if Millisecond <=? d then pad 4 (Itoa ms) +:+ "ms"
  else if Microsecond <=? d then pad 4 (Itoa (Microseconds d)) +:+ "µs"
  else pad 4 (Itoa d) +:+ "ns".

Definition percent (part total : Z) : Z := if total <=? 0 then 0 else wrap64 (part * 100) ÷ total.

Definition sorted_keys `{MapIter} {V} (m : gmap string V) : list string := sort_Strings (range m).*1.

Definition formatExtras `{MapIter} (metrics : gmap string Z) (attrs : gmap string string) : string :=
  if (size metrics =? 0)%nat && (size attrs =? 0)%nat then ""
  else
    "{" +:+ Join (map (fun k => k +:+ "=" +:+ Itoa (default 0 (metrics !! k))) (sorted_keys metrics) ++
                  map (fun k => k +:+ "=" +:+ default "" (attrs !! k)) (sorted_keys attrs)) " " +:+ "}".

Definition nodeConnectors (prefix : string) (isRoot last : bool) : string * string :=
  if isRoot then ("", "")
  else if last then ("└─ ", prefix +:+ "   ")
  else ("├─ ", prefix +:+ "│  ").

Definition formatNodeLine `{MapIter} (prefix connector : string) (e : TimingEntry) (parentMs : Z) (opts : RenderOptions) : string :=
  let line := prefix +:+ connector +:+ Name e +:+ " " +:+ formatDur (DurationMs e) in
  let line := if negb (HidePercents opts) && (0 <? parentMs)
              then line +:+ "  " +:+ pad 3 (Itoa (percent (DurationMs e) parentMs)) +:+ "%" else line in
  if HideMetrics opts then line
  else
    let extra := formatExtras (Metrics e) (Attributes e) in
    if (extra =? "")%string then line else line +:+ "  " +:+ extra.

(** [sort.SliceStable], longest first. *)
Definition longer (a b : TimingEntry) : bool := DurationMs b <=? DurationMs a.

Definition orderedChildren (children : list TimingEntry) (sortByDuration : bool) : list TimingEntry :=
  if negb sortByDuration || (length children <=? 1)%nat then children else isort longer children.

Definition too_short (e : TimingEntry) (opts : RenderOptions) : bool :=
  (0 <? MinDuration opts) && (wrap64 (DurationMs e * Millisecond) <? MinDuration opts).

Fixpoint height (e : TimingEntry) : nat := S (foldr (fun c n => Nat.max (height c) n) O (Children e)).

(** The lines written; [fuel] is at least the height of the tree
    ([renderNode_fuel]). *)
Fixpoint renderNode `{MapIter} (fuel : nat) (e : TimingEntry) (prefix : string) (isRoot last : bool)
    (parentMs : Z) (opts : RenderOptions) : list string :=
  match fuel with
  | O => []
  | S fuel =>
    if too_short e opts then []
    else
      let '(connector, childPrefix) := nodeConnectors prefix isRoot last in
      let children := orderedChildren (Children e) (SortByDuration opts) in
      formatNodeLine prefix connector e parentMs opts ::
      concat (imap (fun i c => renderNode fuel c childPrefix false (i =? length children - 1)%nat (DurationMs e) opts) children)
  end.

Definition RenderTree `{MapIter} (es : list TimingEntry) (opts : RenderOptions) : list string :=
  let totalMs := foldl (fun t e => wrap64 (t + DurationMs e)) 0 es in
  concat (imap (fun i e => renderNode (height e) e "" true (i =? length es - 1)%nat totalMs opts) es).

(** [Summary]: the walk, then the sort. [sort.Slice] is not stable: entries of
    one duration come in any order, here that of the map. *)
Fixpoint tree_totals (e : TimingEntry) (totals : gmap string Z) : gmap string Z :=
  foldl (fun totals c => tree_totals c totals)
    (<[Name e := wrap64 (default 0 (totals !! Name e) + DurationMs e)]> totals) (Children e).

Definition Summary `{MapIter} (es : list TimingEntry) (topN : Z) : list TimingEntry :=
  let totals := foldl (fun totals e => tree_totals e totals) ∅ es in
  let out := isort longer (map (fun kv => mkTiming kv.1 kv.2 [] ∅ ∅) (range totals)) in
  if (0 <? topN) && (topN <? Z.of_nat (length out)) then take (Z.to_nat topN) out else out.

Section render_tests.
Definition demo_tree : list TimingEntry :=
  [mkTiming "parse" 234 [mkTiming "collect" 12 [] {["files" := 120]} ∅;
                         mkTiming "scan" 220 [mkTiming "kotlin" 100 [] ∅ ∅; mkTiming "java" 120 [] ∅ {["jvm" := "17"]}] ∅ ∅] ∅ ∅;
   mkTiming "rest" 61500 [] ∅ ∅; mkTiming "late" 1005 [] ∅ ∅].
Example render_t : RenderTree demo_tree (mkOptions 0 false false false) =
  ["parse  234ms    0%"; "├─ collect   12ms    5%  {files=120}"; "└─ scan  220ms   94%";
   "   ├─ kotlin  100ms   45%"; "   └─ java  120ms   54%  {jvm=17}"; "rest 1m01s   98%"; "late  1.00s    1%"].
Proof. vm_compute. reflexivity. Qed.
Example summary_t : map (fun e => (Name e, DurationMs e)) (Summary demo_tree 2) = [("rest", 61500); ("late", 1005)].
Proof. vm_compute. reflexivity. Qed.
End render_tests.

Lemma height_child e c : c ∈ Children e -> (height c < height e)%nat.
Proof.
  destruct e as [n d cs m a]. simpl. intros Hc. apply Nat.lt_succ_r.
  induction Hc as [|c c' cs Hc IH]; simpl; lia.
Qed.

Lemma orderedChildren_perm cs b : orderedChildren cs b ≡ₚ cs.
Proof. unfold orderedChildren. case_match; [done|]. apply isort_perm. Qed.

(** More fuel than the height of the tree changes nothing. *)
Lemma renderNode_fuel `{MapIter} opts n : forall m e prefix isRoot last ms,
  (height e <= n)%nat -> (height e <= m)%nat ->
  renderNode n e prefix isRoot last ms opts = renderNode m e prefix isRoot last ms opts.
Proof.
  induction n as [|n IH]; intros [|m] e prefix isRoot last ms Hn Hm; try (destruct e; simpl in *; lia).
  cbn [renderNode]. case_match; [done|]. destruct (nodeConnectors prefix isRoot last) as [connector childPrefix].
  do 2 f_equal. apply imap_ext. intros i c Hc%list_elem_of_lookup_2.
  rewrite orderedChildren_perm in Hc. apply height_child in Hc. apply IH; lia.
Qed.

(** ** Programs that nest their scopes *)

(** What a client does under a tracker: some work, a tracked call, a child
    tracker with its own steps, ended after them. *)
Inductive step :=
| SWork (d : Duration)
| STrack (name : string) (d : Duration)
| SScope (name : string) (body : list step).

Fixpoint run (s : step) (p : nat) (ht : heap * Time) : heap * Time :=
  let '(h, t) := ht in
  match s with
  | SWork d => (h, t + d)
  | STrack name d => (Track p name t (t + d) h, t + d)
  | SScope name body =>
    let '(h, c) := Serial p name t h in
    let '(h, t) := foldl (fun ht s => run s c ht) (h, t) body in
    ((End c t h).1, t)
  end.

Definition run_all (l : list step) (p : nat) (ht : heap * Time) : heap * Time :=
  foldl (fun ht s => run s p ht) ht l.

(** The entries the steps stand for, and the time they end. *)
Fixpoint forest (s : step) (t : Time) : list TimingEntry * Time :=
  match s with
  | SWork d => ([], t + d)
  | STrack name d => ([mkTiming name (elapsed_ms t (t + d)) [] ∅ ∅], t + d)
  | SScope name body =>
    let '(es, t') := foldl (fun et s => let '(es, t) := forest s et.2 in (et.1 ++ es, t)) ([], t) body in
    ([mkTiming name (elapsed_ms t t') es ∅ ∅], t')
  end.

Definition forest_all (l : list step) (et : list TimingEntry * Time) : list TimingEntry * Time :=
  foldl (fun et s => let '(es, t) := forest s et.2 in (et.1 ++ es, t)) et l.

Section step_ind.
Context (P : step -> Prop) (Hwork : forall d, P (SWork d)) (Htrack : forall name d, P (STrack name d))
  (Hscope : forall name body, Forall P body -> P (SScope name body)).

Fixpoint step_ind_nested (s : step) : P s :=
  match s with
  | SWork d => Hwork d
  | STrack name d => Htrack name d
  | SScope name body =>
    Hscope name body ((fix go l : Forall P l :=
      match l with [] => Forall_nil_2 _ | s :: l => Forall_cons_2 _ _ _ (step_ind_nested s) (go l) end) body)
  end.
End step_ind.

(** The heap [h] with [es] added at [p]. *)
Definition grown (h h' : heap) (p : nat) (es : list TimingEntry) : Prop :=
  (length h <= length h')%nat /\
  forall q t, h !! q = Some t ->
    h' !! q = Some (if decide (q = p) then mkTracker (entries t ++ es) (parent t) (t_name t) (start t) else t).

Lemma grown_refl h p : grown h h p [].
Proof.
  split; [done|]. intros q t Hq. rewrite Hq. f_equal. case_decide; [|done]. rewrite app_nil_r. by destruct t.
Qed.

Lemma grown_append h p e : grown h (append_entry p e h) p [e].
Proof.
  split; [unfold append_entry; by rewrite length_alter|]. intros q t Hq. unfold append_entry. case_decide as Hqp.
  - subst. by rewrite list_lookup_alter_eq, Hq.
  - by rewrite list_lookup_alter_ne.
Qed.

Lemma grown_trans h1 h2 h3 p es1 es2 : grown h1 h2 p es1 -> grown h2 h3 p es2 -> grown h1 h3 p (es1 ++ es2).
Proof.
  intros [Hl1 H1] [Hl2 H2]. split; [lia|]. intros q t Hq. rewrite (H2 q _ (H1 q t Hq)). f_equal.
  case_decide; [|done]. simpl. by rewrite app_assoc.
Qed.

Lemma run_all_grown body p : 
  Forall (fun s => forall p h t, (p < length h)%nat ->
    let '(h', t') := run s p (h, t) in let '(es, te) := forest s t in t' = te /\ grown h h' p es) body ->
  forall h t acc, (p < length h)%nat ->
    let '(h', t') := run_all body p (h, t) in let '(es, te) := forest_all body (acc, t) in
    t' = te /\ exists es', es = acc ++ es' /\ grown h h' p es'.
Proof.
  induction 1 as [|s body Hs Hbody IH]; intros h t acc Hp.
  { simpl. split; [done|]. exists []. split; [by rewrite app_nil_r|apply grown_refl]. }
  unfold run_all, forest_all in *. simpl foldl. specialize (Hs p h t Hp).
  destruct (run s p (h, t)) as [h1 t1]. simpl. destruct (forest s t) as [es1 te1]. destruct Hs as [-> Hg1].
  specialize (IH h1 te1 (acc ++ es1) ltac:(destruct Hg1; lia)).
  destruct (foldl _ (h1, te1) body) as [h2 t2]. destruct (foldl _ (acc ++ es1, te1) body) as [es te].
  destruct IH as (-> & es' & -> & Hg2). split; [done|]. exists (es1 ++ es').
  split; [by rewrite app_assoc|]. by eapply grown_trans.
Qed.

Lemma run_grown s : forall p h t, (p < length h)%nat ->
  let '(h', t') := run s p (h, t) in let '(es, te) := forest s t in t' = te /\ grown h h' p es.
Proof.
  induction s as [d|name d|name body IH] using step_ind_nested; intros p h t Hp; simpl.
  - split; [done|apply grown_refl].
  - split; [done|apply grown_append].
  - pose proof (run_all_grown body (length h) IH (h ++ [mkTracker [] (Some p) name t]) t []) as Hr.
    unfold run_all, forest_all in Hr. rewrite length_app in Hr. specialize (Hr ltac:(simpl; lia)).
    destruct (foldl _ (h ++ _, t) body) as [h2 t2]. destruct (foldl _ ([], t) body) as [es te].
    destruct Hr as (-> & es' & -> & Hlen & Hg). simpl app. split; [done|].
    assert (h2 !! length h = Some (mkTracker es' (Some p) name t)) as Hc.
    { rewrite (Hg _ (mkTracker [] (Some p) name t)) by (by apply list_lookup_middle). by rewrite decide_True. }
    unfold End. rewrite Hc. simpl. rewrite length_app in Hlen. simpl in Hlen.
    assert (grown h h2 (length h) es') as Hh.
    { split; [lia|]. intros q t0 Hq. apply Hg. by apply lookup_app_l_Some. }
    destruct (grown_append h2 p (mkTiming name (elapsed_ms t te) es' ∅ ∅)) as [Hl3 H3].
    split; [lia|]. intros q t0 Hq. pose proof (lookup_lt_Some _ _ _ Hq).
    pose proof (proj2 Hh q t0 Hq) as Hq2. rewrite decide_False in Hq2 by lia. by apply H3.
Qed.

Lemma cloneEntry_id e : cloneEntry e = e.
Proof.
  revert e. fix IH 1. intros [n d cs m a]. simpl. f_equal. induction cs as [|c cs IHcs]; simpl; [done|].
  by rewrite IH, IHcs.
Qed.

(** Children fit into their parent, and so do the shares printed for them. *)
Inductive nested_ok : TimingEntry -> Prop :=
| nested_intro e :
  0 <= DurationMs e -> total DurationMs (Children e) <= DurationMs e ->
  Forall (fun c => 0 <= percent (DurationMs c) (DurationMs e)) (Children e) ->
  total (fun c => percent (DurationMs c) (DurationMs e)) (Children e) <= 100 ->
  Forall nested_ok (Children e) -> nested_ok e.

Inductive step_ok : step -> Prop :=
| ok_work d : 0 <= d -> step_ok (SWork d)
| ok_track name d : 0 <= d -> step_ok (STrack name d)
| ok_scope name body : Forall step_ok body -> step_ok (SScope name body).

Definition max_ms : Z := maxInt64 / Millisecond.

Lemma percent_exact part whole : 0 <= part <= max_ms -> 0 < whole -> percent part whole = part * 100 / whole.
Proof.
  intros Hp Hw. unfold percent. destruct (Z.leb_spec whole 0); [lia|].
  assert (max_ms = 9223372036854) as Hm by reflexivity.
  rewrite wrap64_id by (unfold int64_ok, minInt64, maxInt64; lia). apply Z.quot_div_nonneg; lia.
Qed.

Lemma elapsed_exact t t' : 0 <= t' - t <= maxInt64 -> elapsed_ms t t' = (t' - t) / Millisecond.
Proof.
  intros Ht. unfold elapsed_ms, Milliseconds. rewrite Sub_exact by (unfold int64_ok, minInt64, maxInt64 in *; lia).
  apply Z.quot_div_nonneg; [lia|done].
Qed.

Lemma div_add_le a b c : 0 < c -> a / c + b / c <= (a + b) / c.
Proof.
  intros Hc. apply Z.div_le_lower_bound; [done|]. pose proof (Z.mul_div_le a c Hc). pose proof (Z.mul_div_le b c Hc). lia.
Qed.

(** The shares of parts that sum to at most the whole. *)
Lemma shares_le ds whole : 0 < whole -> Forall (fun d => 0 <= d <= max_ms) ds ->
  total (fun d => percent d whole) ds <= total (fun d => d) ds * 100 / whole /\
  Forall (fun d => 0 <= percent d whole) ds.
Proof.
  intros Hw. induction 1 as [|d ds Hd Hds [IH1 IH2]]; [split; [by rewrite Z.div_0_l by lia|constructor]|].
  rewrite !total_cons. rewrite (percent_exact d whole Hd Hw). split.
  - pose proof (div_add_le (d * 100) (total (fun d => d) ds * 100) whole Hw). rewrite Z.mul_add_distr_r. lia.
  - constructor; [|done]. rewrite (percent_exact d whole Hd Hw). apply Z.div_pos; lia.
Qed.

Lemma total_ge {A} (f : A -> Z) l x : Forall (fun y => 0 <= f y) l -> x ∈ l -> f x <= total f l.
Proof.
  induction 1 as [|y l Hy Hl IH]; intros Hx; [by apply not_elem_of_nil in Hx|]. rewrite total_cons.
  assert (0 <= total f l) by (apply total_nonneg; intros z Hz; rewrite Forall_forall in Hl; auto).
  apply elem_of_cons in Hx as [->|Hx]; [lia|]. specialize (IH Hx). lia.
Qed.

Lemma nested_scope name D cs : 0 <= D <= max_ms -> total DurationMs cs <= D -> Forall nested_ok cs ->
  nested_ok (mkTiming name D cs ∅ ∅).
Proof.
  intros HD Hsum Hcs.
  assert (Forall (fun c => 0 <= DurationMs c) cs) as Hnn by (eapply Forall_impl; [exact Hcs|]; by intros ? []).
  assert (Forall (fun c => 0 <= DurationMs c <= max_ms) cs) as Hb.
  { rewrite Forall_forall in *. intros c Hc. split; [auto|]. rewrite <- Forall_forall in Hnn.
    pose proof (total_ge DurationMs cs c Hnn Hc). lia. }
  assert (Forall (fun d => 0 <= d <= max_ms) (map DurationMs cs)) as Hb' by (by apply Forall_map).
  constructor; simpl; try done; try lia.
  - destruct (decide (D = 0)) as [->|HD0]; [apply Forall_forall; intros; unfold percent; simpl; lia|].
    destruct (shares_le _ D ltac:(lia) Hb') as [_ Hs]. exact (proj1 (Forall_fmap _ _ _) Hs).
  - destruct (decide (D = 0)) as [->|HD0].
    + assert (forall l : list TimingEntry, total (fun c => percent (DurationMs c) 0) l = 0) as ->; [|lia].
      intros l. induction l; [done|]. rewrite total_cons, IHl. done.
    + destruct (shares_le _ D ltac:(lia) Hb') as [Hs _]. rewrite !total_map in Hs.
      change (total (fun x => DurationMs x) cs) with (total DurationMs cs) in Hs.
      assert (total DurationMs cs * 100 / D <= 100); [|lia]. apply Z.div_le_upper_bound; lia.
Qed.

Definition forest_good (t : Time) (et : list TimingEntry * Time) : Prop :=
  t <= et.2 /\
  (et.2 - t <= maxInt64 -> Forall nested_ok et.1 /\ total DurationMs et.1 <= (et.2 - t) / Millisecond).

Lemma forest_good_app t es1 t1 es2 t2 :
  forest_good t (es1, t1) -> forest_good t1 (es2, t2) -> forest_good t (es1 ++ es2, t2).
Proof.
  intros [Hle1 H1] [Hle2 H2]. unfold forest_good in *. simpl in *. split; [lia|]. intros Ht.
  destruct (H1 ltac:(lia)) as [Hn1 Hs1], (H2 ltac:(lia)) as [Hn2 Hs2]. split; [by apply Forall_app_2|].
  rewrite total_app. pose proof (div_add_le (t1 - t) (t2 - t1) Millisecond ltac:(done)).
  replace (t1 - t + (t2 - t1)) with (t2 - t) in * by lia. lia.
Qed.

Lemma forest_all_good body :
  Forall (fun s => step_ok s -> forall t, forest_good t (forest s t)) body -> Forall step_ok body ->
  forall t0 acc t, forest_good t0 (acc, t) -> forest_good t0 (forest_all body (acc, t)).
Proof.
  intros Hbody Hok. induction Hbody as [|s body Hs Hbody IH]; intros t0 acc t Hg; [done|].
  inversion Hok; subst. unfold forest_all in *. simpl foldl. specialize (Hs ltac:(done) t).
  destruct (forest s t) as [es t1]. apply IH; [done|]. by eapply forest_good_app.
Qed.

Lemma forest_good_nil t : forest_good t ([], t).
Proof. split; simpl; [lia|]. intros _. split; [constructor|]. by rewrite Z.sub_diag. Qed.

Lemma forest_ok s : step_ok s -> forall t, forest_good t (forest s t).
Proof.
  induction s as [d|name d|name body IH] using step_ind_nested; intros Hok t; inversion Hok; subst; simpl.
  - split; simpl; [lia|]. intros _. split; [constructor|]. unfold total. simpl. apply Z.div_pos; [lia|done].
  - split; simpl; [lia|]. intros Ht. rewrite elapsed_exact by lia. split.
    + constructor; [|constructor]. apply nested_scope; [split; [apply Z.div_pos; [lia|done]|apply Z.div_le_mono; [done|lia]]| |constructor].
      unfold total. simpl. apply Z.div_pos; [lia|done].
    + unfold total. simpl. lia.
  - pose proof (forest_all_good body IH ltac:(done) t [] t (forest_good_nil t)) as Hg. unfold forest_all in Hg.
    destruct (foldl _ ([], t) body) as [es t']. destruct Hg as [Hle Hg]. simpl in *. split; simpl; [lia|].
    intros Ht. destruct (Hg Ht) as [Hn Hs]. rewrite elapsed_exact by lia. split.
    + constructor; [|constructor]. apply nested_scope; [split; [apply Z.div_pos; [lia|done]|apply Z.div_le_mono; [done|lia]]|done|done].
    + unfold total at 1. simpl. lia.
Qed.

(** C37. Steps made under a tracker, with any nesting of child trackers ended
    after their own steps, add to that tracker's timings exactly the forest of
    the scopes in order, leave every other tracker alone, and end when the
    steps do; with a clock that does not go back, every duration is
    non-negative, children never last longer together than their parent, and
    the percentages printed for them lie between 0 and 100 and sum to at most
    100. *)
Theorem perf_tree (h : heap) p tr body t :
  h !! p = Some tr -> Forall step_ok body ->
  let '(h', t') := run_all body p (h, t) in
  let '(es, te) := forest_all body ([], t) in
  t' = te /\ GetTimings p h' = entries tr ++ es /\
  (forall q tq, q <> p -> h !! q = Some tq -> h' !! q = Some tq) /\
  t <= te /\
  (te - t <= maxInt64 -> Forall nested_ok es /\ total DurationMs es <= (te - t) / Millisecond).
Proof.
  intros Hp Hok. assert (Forall (fun s => forall p h t, (p < length h)%nat ->
    let '(h', t') := run s p (h, t) in let '(es, te) := forest s t in t' = te /\ grown h h' p es) body) as Hall
    by (apply Forall_forall; intros s _; apply run_grown).
  pose proof (run_all_grown body p Hall h t [] (lookup_lt_Some _ _ _ Hp)) as Hr.
  assert (Forall (fun s => step_ok s -> forall t, forest_good t (forest s t)) body) as Hfor
    by (apply Forall_forall; intros s _; apply forest_ok).
  pose proof (forest_all_good body Hfor Hok t [] t (forest_good_nil t)) as Hg.
  destruct (run_all body p (h, t)) as [h' t']. destruct (forest_all body ([], t)) as [es te].
  destruct Hr as (-> & es' & -> & _ & Hgrow). destruct Hg as [Hle Hg]. simpl in *. split_and!; try done.
  - unfold GetTimings. rewrite (Hgrow p tr Hp), decide_True by done. simpl.
    rewrite <- (map_id (entries tr ++ es')) at 2. apply map_ext. apply cloneEntry_id.
  - intros q tq Hq Hl. by rewrite (Hgrow q tq Hl), decide_False.
Qed.

Definition demo_steps : list step :=
  [STrack "parse" (3 * Millisecond); SScope "scan" [SWork 500000; STrack "ts" (4 * Millisecond); SScope "py" [STrack "ast" 1700000]]].

Lemma perf_tree_witness :
  Forall nested_ok (forest_all demo_steps ([], 1000)).1 /\
  map DurationMs (GetTimings 0 (run_all demo_steps 0 ([mkTracker [] None "" 0], 1000)).1) = [3; 6].
Proof.
  split; [|vm_compute; reflexivity].
  refine (proj1 (proj2 (proj2 (proj2 (proj2 (perf_tree [mkTracker [] None "" 0] 0%nat (mkTracker [] None "" 0)
    demo_steps 1000 eq_refl _)))) _)).
  - repeat constructor; vm_compute; intuition discriminate.
  - vm_compute. discriminate.
Defined.

(** What a tracked function returns does not depend on the tracker, and a disabled
    tracker leaves no trace. *)
Lemma track_transparent {A} p name (fn : heap -> heap * A) from to h :
  (real_Track p name fn from to h).2 = (noop_Track fn h).2 /\
  (New false h).1 = h /\ (New false h).2 = Noop.
Proof. split_and!; try done. unfold real_Track, noop_Track. by destruct (fn h). Qed.

(** The names that make the top of a summary, when durations are equal, depend
    on the order of the map. *)
Definition backward_iter : MapIter :=
  {| range V m := reverse (map_to_list m); range_perm V m := reverse_Permutation (map_to_list m) |}.

Lemma summary_ties :
  let es := [mkTiming "a" 5 [] ∅ ∅; mkTiming "b" 5 [] ∅ ∅] in
  map Name (@Summary canonical_iter es 1) <> map Name (@Summary backward_iter es 1).
Proof. vm_compute. discriminate. Qed.
