(* ===== verification/Spans.v ===== *)
(** [internal/perf/span.go]: spans, over the trackers of [Perf].

    The three types behind the interface [Span], each with its methods. A method
    body is one critical section; a [Stop] records after it has left its own,
    which no other method of the span can tell. A nil map is the empty one. *)
From S2P Require Import Prelude GoNum GoStrings Perf.
Open Scope Z_scope.

Record realSpan := mkRealSpan {
  r_t : nat; r_name : string; r_start : Time;
  r_metrics : gmap string Z; r_attrs : gmap string string; r_stopped : bool }.

Record fallbackSpan := mkFallbackSpan {
  f_t : Tracker; f_name : string; f_start : Time;
  f_metrics : gmap string Z; f_attrs : gmap string string; f_stopped : bool }.

Inductive Span := RealSpan (s : realSpan) | FallbackSpan (s : fallbackSpan) | NoopSpan.

(** [now] is the reading of the tracker's clock, [sysnow] of the system's. *)
Definition NewSpan (t : option Tracker) (name : string) (now sysnow : Time) : Span :=
  match t with
  | None => NoopSpan
  | Some t =>
    if negb (IsEnabled t) then NoopSpan
    else match t with
         | Real rt => RealSpan (mkRealSpan rt name now ∅ ∅ false)
         | _ => FallbackSpan (mkFallbackSpan t name sysnow ∅ ∅ false)
         end
  end.

Definition real_SetAttr (key value : string) (s : realSpan) : realSpan :=
  if r_stopped s then s
  else mkRealSpan (r_t s) (r_name s) (r_start s) (r_metrics s) (<[key := value]> (r_attrs s)) (r_stopped s).

Definition real_AddMetric (key : string) (value : Z) (s : realSpan) : realSpan :=
  if r_stopped s then s
  else mkRealSpan (r_t s) (r_name s) (r_start s) (<[key := value]> (r_metrics s)) (r_attrs s) (r_stopped s).

Definition real_Stop (now : Time) (s : realSpan) (h : list realTracker) : realSpan * list realTracker :=
  if r_stopped s then (s, h)
  else
    let dur := Sub now (r_start s) in
    (mkRealSpan (r_t s) (r_name s) (r_start s) (r_metrics s) (r_attrs s) true,
     AddEntryDetails (Real (r_t s)) (r_name s) dur (r_metrics s) (r_attrs s) h).

Definition fallback_SetAttr (key value : string) (s : fallbackSpan) : fallbackSpan :=
  if f_stopped s then s
  else mkFallbackSpan (f_t s) (f_name s) (f_start s) (f_metrics s) (<[key := value]> (f_attrs s)) (f_stopped s).

Definition fallback_AddMetric (key : string) (value : Z) (s : fallbackSpan) : fallbackSpan :=
  if f_stopped s then s
  else mkFallbackSpan (f_t s) (f_name s) (f_start s) (<[key := value]> (f_metrics s)) (f_attrs s) (f_stopped s).

Definition fallback_Stop (sysnow : Time) (s : fallbackSpan) (h : list realTracker) : fallbackSpan * list realTracker :=
  if f_stopped s then (s, h)
  else
    let dur := Sub sysnow (f_start s) in
    (mkFallbackSpan (f_t s) (f_name s) (f_start s) (f_metrics s) (f_attrs s) true,
     AddEntryDetails (f_t s) (f_name s) dur (f_metrics s) (f_attrs s) h).

(** ** Through the interface *)

Inductive call := CSetAttr (key value : string) | CAddMetric (key : string) (value : Z) | CStop (now sysnow : Time).

(** The methods of [noopSpan] have empty bodies. *)
Definition do_call (c : call) (s : Span) (h : list realTracker) : Span * list realTracker :=
  match s, c with
  | RealSpan s, CSetAttr k v => (RealSpan (real_SetAttr k v s), h)
  | RealSpan s, CAddMetric k v => (RealSpan (real_AddMetric k v s), h)
  | RealSpan s, CStop now _ => let '(s, h) := real_Stop now s h in (RealSpan s, h)
  | FallbackSpan s, CSetAttr k v => (FallbackSpan (fallback_SetAttr k v s), h)
  | FallbackSpan s, CAddMetric k v => (FallbackSpan (fallback_AddMetric k v s), h)
  | FallbackSpan s, CStop _ sysnow => let '(s, h) := fallback_Stop sysnow s h in (FallbackSpan s, h)
  | NoopSpan, _ => (NoopSpan, h)
  end.

Fixpoint do_calls (cs : list call) (s : Span) (h : list realTracker) : Span * list realTracker :=
  match cs with
  | [] => (s, h)
  | c :: cs => let '(s, h) := do_call c s h in do_calls cs s h
  end.

(** ** What a span records *)

Definition is_stop (c : call) : bool := match c with CStop _ _ => true | _ => false end.

(** The values set by calls, the last for each key. *)
Definition metrics_set (cs : list call) (m : gmap string Z) : gmap string Z :=
  foldl (fun m c => match c with CAddMetric k v => <[k := v]> m | _ => m end) m cs.
Definition attrs_set (cs : list call) (m : gmap string string) : gmap string string :=
  foldl (fun m c => match c with CSetAttr k v => <[k := v]> m | _ => m end) m cs.

Lemma do_calls_app cs cs' s h : do_calls (cs ++ cs') s h =
  let '(s, h) := do_calls cs s h in do_calls cs' s h.
Proof. revert s h. induction cs as [|c cs IH]; intros s h; simpl; [done|]. destruct (do_call c s h). apply IH. Qed.

Lemma real_open cs s h : r_stopped s = false -> forallb (fun c => negb (is_stop c)) cs = true ->
  do_calls cs (RealSpan s) h =
    (RealSpan (mkRealSpan (r_t s) (r_name s) (r_start s) (metrics_set cs (r_metrics s)) (attrs_set cs (r_attrs s)) false), h).
Proof.
  revert s. induction cs as [|c cs IH]; intros s Hs Hc; simpl in *; [by destruct s; simpl in *; subst|].
  destruct c as [k v|k v|]; simpl in *; [| |done]; unfold real_SetAttr, real_AddMetric; rewrite Hs, IH; done.
Qed.

Lemma real_over cs s h : r_stopped s = true -> do_calls cs (RealSpan s) h = (RealSpan s, h).
Proof.
  intros Hs. induction cs as [|c cs IH]; simpl; [done|].
  destruct c; simpl; unfold real_SetAttr, real_AddMetric, real_Stop; by rewrite Hs.
Qed.

(** Until its first [Stop] a span records nothing; that one adds one entry with
    the last value of each metric and attribute set so far, and the time since
    the start; what comes later is without effect. *)
Lemma span_records_once p name start sys cs h :
  let s := NewSpan (Some (Real p)) name start sys in
  (forallb (fun c => negb (is_stop c)) cs = true -> (do_calls cs s h).2 = h) /\
  (forall now sysnow after, forallb (fun c => negb (is_stop c)) cs = true ->
     (do_calls (cs ++ CStop now sysnow :: after) s h).2 =
       append_entry p (mkTiming name (elapsed_ms start now) [] (metrics_set cs ∅) (attrs_set cs ∅)) h).
Proof.
  split.
  - intros Hc. unfold NewSpan. simpl. by rewrite real_open.
  - intros now sysnow after Hc. unfold NewSpan. simpl. rewrite do_calls_app, real_open by done.
    simpl. by rewrite real_over.
Qed.

(** A span on no tracker, or on one that is disabled, leaves no trace. *)
Lemma span_noop t name now sys cs h : from_option IsEnabled false t = false ->
  do_calls cs (NewSpan t name now sys) h = (NoopSpan, h).
Proof.
  intros Ht. assert (NewSpan t name now sys = NoopSpan) as ->.
  { destruct t as [t|]; simpl in *; [by rewrite Ht|done]. }
  by induction cs as [|[] cs IH].
Qed.

(** A span on a tracker of another package times itself and then records
    nothing. *)
Lemma span_fallback_lost name now sys cs h :
  (do_calls cs (NewSpan (Some (Custom true)) name now sys) h).2 = h.
Proof.
  assert (forall s, f_t s = Custom true -> (do_calls cs (FallbackSpan s) h).2 = h) as Hall.
  { induction cs as [|c cs IH]; intros s Hs; simpl; [done|].
    destruct c; simpl; unfold fallback_SetAttr, fallback_AddMetric, fallback_Stop;
      destruct (f_stopped s); rewrite ?Hs; simpl; by apply IH. }
  by apply Hall.
Qed.
