(* ===== verification/Surroundings.v ===== *)
(** [internal/clock], [internal/env] and [internal/idgen]: what a client takes
    from its surroundings, and the in-memory implementations tests give it.

    Each method body is one critical section of the value's lock, so a method is
    a function of the state. The [System] clock, the process environment and
    [crypto/rand] are not modelled: a clock reading, a [Reader] and the bytes
    drawn are arguments. *)
From S2P Require Import Prelude GoNum GoStrings GoUnicode GoJson Random.
Open Scope Z_scope.

(** ** clock/clock.go *)

(** The zero value of [Fake] holds the zero [Time]. *)
Record Fake := mkFake { now : Time }.

Definition NewFake (start : Time) : Fake := mkFake start.
Definition Now (f : Fake) : Time := now f.
Definition Set_ (t : Time) (f : Fake) : Fake := mkFake t.
Definition Advance (d : Duration) (f : Fake) : Fake := mkFake (Add (now f) d).

Lemma Advance_all ds f : Now (foldl (fun f d => Advance d f) f ds) = Now f + total id ds.
Proof.
  revert f. induction ds as [|d ds IH]; intros f; simpl; [unfold total; simpl; lia|].
  rewrite IH, total_cons. unfold Now, Advance, Add, id. simpl. lia.
Qed.

(** The zero value reports the year 1, and not the Unix epoch, which is
    62135596800 seconds later. *)
Definition unix_epoch : Time := 62135596800 * Second.
Lemma zero_clock_is_not_epoch : Now (mkFake zeroTime) = zeroTime /\ Now (mkFake zeroTime) <> unix_epoch.
Proof. split; [done|]. vm_compute. discriminate. Qed.

(** ** env/env.go *)

(** [strconv.Atoi] *)
Inductive num_error := ErrSyntax | ErrRange.

Definition Atoi (s : string) : result num_error Z :=
  let '(sg, s1) := opt_char (fun b => (b =? 43) || (b =? 45)) s in
  let p := take_digits s1 in
  if (p.1 =? "")%string || negb (p.2 =? "")%string then Err ErrSyntax
  else
    let v := digits_val 0 p.1 in
    let v := if (sg =? "-")%string then - v else v in
    if (minInt64 <=? v) && (v <=? maxInt64) then Ok v else Err ErrRange.

Inductive error := EInt (name : string) (e : num_error) | EBool (name value : string).

(** [Reader] *)
Class Reader (R : Type) := Lookup : R -> string -> string * bool.

Section readers.
Context `{UnicodeTables} {R : Type} `{Reader R}.

Definition Get (r : R) (name : string) : string := (Lookup r name).1.
Definition GetTrim (r : R) (name : string) : string := TrimSpace (Get r name).

Definition GetInt (r : R) (name : string) (def : Z) : result error Z :=
  let '(v, ok) := Lookup r name in
  let v := TrimSpace v in
  if negb ok || (v =? "")%string then Ok def
  else match Atoi v with Err e => Err (EInt name e) | Ok n => Ok n end.

Definition GetBool (r : R) (name : string) (def : bool) : result error bool :=
  let '(v, ok) := Lookup r name in
  let v := ToLower (TrimSpace v) in
  if negb ok || (v =? "")%string then Ok def
  else if bool_decide (v ∈ ["1"; "true"; "yes"; "on"; "y"; "t"]) then Ok true
  else if bool_decide (v ∈ ["0"; "false"; "no"; "off"; "n"; "f"]) then Ok false
  else Err (EBool name v).
End readers.

(** [Map]; a nil map and an empty one answer alike. *)
Abbreviation Map := (gmap string string).
Definition Map_Lookup (m : Map) (name : string) : string * bool :=
  match m !! name with Some v => (v, true) | None => ("", false) end.
#[export] Instance Map_reader : Reader Map := Map_Lookup.
Definition With (m : Map) (name value : string) : Map := <[name := value]> m.

Section laws.
Context `{UnicodeTables}.

Lemma Lookup_With (m : Map) k v k' :
  Lookup (With m k v) k' = if decide (k' = k) then (v, true) else Lookup m k'.
Proof.
  unfold Lookup, Map_reader, Map_Lookup, With. case_decide as Hk; [subst; by rewrite lookup_insert_eq|by rewrite lookup_insert_ne].
Qed.

Lemma Atoi_Itoa z : int64_ok z -> Atoi (Itoa z) = Ok z.
Proof.
  unfold int64_ok. intros Hz. destruct (Itoa_form z) as (sg & c & ds & -> & Hsg & Hf & H0 & Hv).
  assert (48 <= byteZ c <= 57) as Hc.
  { simpl in Hf. apply andb_true_iff in Hf as [Hf' _]. unfold is_dig, in_rng in Hf'. bool_to_prop. done. }
  unfold Atoi.
  assert (opt_char (fun b => (b =? 43) || (b =? 45)) (sg +:+ String c ds) = (sg, String c ds)) as ->.
  { destruct Hsg as [->| ->]; simpl; [|done]. by decide_cmp. }
  rewrite take_digits_only by done. cbn [fst snd].
  assert ((if (sg =? "-")%string then - digits_val 0 (String c ds) else digits_val 0 (String c ds)) = z) as ->
    by (destruct Hsg as [-> | ->]; exact Hv).
  change (String c ds =? "")%string with false. change ("" =? "")%string with true. cbn [orb negb].
  by rewrite (proj2 (Z.leb_le _ _)), (proj2 (Z.leb_le _ _)) by lia.
Qed.

Lemma Atoi_bounds s n : Atoi s = Ok n -> int64_ok n.
Proof.
  unfold Atoi, int64_ok. destruct (opt_char _ s) as [sg s1]. destruct (_ || _); [done|].
  destruct ((minInt64 <=? _) && _) eqn:E; [|done]. intros [= <-]. bool_to_prop. lia.
Qed.

(** A number that was printed is read back, whatever space is around it; what
    is read fits in an [int]; an unset or blank variable gives the default. *)
Lemma GetInt_spec {R} `{Reader R} (r : R) name def v : Lookup r name = (v, true) ->
  (forall z, int64_ok z -> TrimSpace v = Itoa z -> GetInt r name def = Ok z) /\
  (TrimSpace v = "" -> GetInt r name def = Ok def) /\
  (forall n, TrimSpace v <> "" -> GetInt r name def = Ok n -> int64_ok n).
Proof.
  intros Hv. unfold GetInt. rewrite Hv. cbn [negb orb]. split_and!.
  - intros z Hz Ht. rewrite Ht, (Atoi_Itoa z Hz).
    destruct (Itoa_form z) as (sg & c & ds & -> & Hsg & _). by destruct Hsg as [-> | ->].
  - by intros ->.
  - intros n Hne. destruct (String.eqb_spec (TrimSpace v) "") as [|_]; [done|].
    destruct (Atoi (TrimSpace v)) as [m|] eqn:E; [|done]. intros [= <-]. by eapply Atoi_bounds.
Qed.

Lemma unset_default {R} `{Reader R} (r : R) name v : Lookup r name = (v, false) ->
  (forall def, GetInt r name def = Ok def) /\ (forall def, GetBool r name def = Ok def).
Proof. intros Hv. unfold GetInt, GetBool. by rewrite Hv. Qed.
End laws.

Section tests.
Local Instance latin : UnicodeTables := latin1_tables.
Example getint_t : map (fun v => GetInt (With ∅ "N" v) "N" 7) [" 42 "; "-1"; ""; "x"; "9223372036854775808"] =
  [Ok 42; Ok (-1); Ok 7; Err (EInt "N" ErrSyntax); Err (EInt "N" ErrRange)].
Proof. vm_compute. reflexivity. Qed.
Example getbool_t : map (fun v => GetBool (With ∅ "B" v) "B" false) ["YES"; " off"; "2"] =
  [Ok true; Ok false; Err (EBool "B" "2")].
Proof. vm_compute. reflexivity. Qed.
End tests.

(** ** idgen/idgen.go *)

(** [UUID.Next], from the sixteen bytes drawn. *)
Definition EncodeToString (b : list Z) : string :=
  str_concat (map (fun x => hex_digit (Z.shiftr x 4) +:+ hex_digit (Z.land x 15)) b).

Record Sequence := mkSequence { prefix : string; n : Z }.

Definition NewSequence (prefix : string) : Sequence :=
  mkSequence (if (prefix =? "")%string then "id" else prefix) 0.
Definition Next (s : Sequence) : string * Sequence :=
  let n' := (n s + 1) mod 2 ^ 64 in
  (prefix s +:+ "-" +:+ Itoa n', mkSequence (prefix s) n').
Definition Reset_ (s : Sequence) : Sequence := mkSequence (prefix s) 0.

(** The first [k] ids. *)
Fixpoint ids (k : nat) (s : Sequence) : list string :=
  match k with O => [] | S k => let '(id, s) := Next s in id :: ids k s end.

Lemma ids_from k p m : 0 <= m -> m + Z.of_nat k < 2 ^ 64 ->
  ids k (mkSequence p m) = map (fun i => p +:+ "-" +:+ Itoa (m + Z.of_nat i)) (seq 1 k).
Proof.
  revert m. induction k as [|k IH]; intros m Hm Hk; [done|]. cbn [ids Next seq map]. simpl prefix. simpl n.
  rewrite Z.mod_small by lia. f_equal. rewrite IH by lia.
  rewrite <- (seq_shift k 1), map_map. apply map_ext. intros i. do 3 f_equal. lia.
Qed.

(** Ids of one sequence are all different. *)
Lemma ids_distinct k p m : 0 <= m -> m + Z.of_nat k < 2 ^ 63 -> NoDup (ids k (mkSequence p m)).
Proof.
  intros Hm Hk. rewrite ids_from by lia. apply NoDup_fmap_2_strong; [|apply NoDup_seq].
  intros i j Hi%elem_of_seq Hj%elem_of_seq He. apply str_app_inj_l, (str_app_inj_l "-") in He.
  apply (f_equal ParseInt) in He. rewrite !ParseInt_Itoa in He by lia. injection He. lia.
Qed.

Section tests.
Example ids_t : ids 3 (NewSequence "") = ["id-1"; "id-2"; "id-3"]. Proof. vm_compute. reflexivity. Qed.
Example hex_t : EncodeToString [0; 255; 26] = "00ff1a". Proof. reflexivity. Qed.
End tests.
