(* ===== verification/Logger.v ===== *)
(** [internal/logger]: the interface, the logger over [log/slog] that [New]
    configures, and [Capture], the logger that keeps its records. What a handler
    of [log/slog] writes is a parameter. *)
From S2P Require Import Prelude GoStrings.
Open Scope Z_scope.

Definition FormatText : Z := 0.
Definition FormatJSON : Z := 1.

Definition LevelDebug : Z := -4.
Definition LevelInfo : Z := 0.
Definition LevelWarn : Z := 4.
Definition LevelError : Z := 8.

(** An argument is a string or some other value. *)
Inductive arg {V : Type} := AStr (s : string) | AVal (v : V).
Arguments arg V : clear implicits.

(** The interface [Logger]: [Log l] is the method for the level [l], and a
    logger is the state that its calls leave. *)
Class Logger (V L : Type) := {
  Log : Z -> string -> list (arg V) -> L -> L;
  With : list (arg V) -> L -> L;
  Enabled : Z -> L -> bool }.


(** What its methods promise of one another. *)
Class LoggerLaws (V L : Type) `{Logger V L} := {
  Log_disabled : forall l msg (args : list (arg V)) (lg : L), Enabled l lg = false -> Log l msg args lg = lg;
  Log_enabled : forall l l' msg (args : list (arg V)) (lg : L), Enabled l' (Log l msg args lg) = Enabled l' lg;
  With_enabled : forall l (args : list (arg V)) (lg : L), Enabled l (With args lg) = Enabled l lg }.

Section methods.
Context {V L : Type} `{Logger V L}.
Definition Debug_ : string -> list (arg V) -> L -> L := Log LevelDebug.
Definition Info_ : string -> list (arg V) -> L -> L := Log LevelInfo.
Definition Warn : string -> list (arg V) -> L -> L := Log LevelWarn.
Definition Error : string -> list (arg V) -> L -> L := Log LevelError.

(** Calls of the logger: level, message and arguments. *)
Definition log (lg : L) (calls : list (Z * string * list (arg V))) : L :=
  foldl (fun lg '(l, msg, args) => Log l msg args lg) lg calls.

(** The calls below the level of a logger may be left out. *)
Lemma log_enabled `{!LoggerLaws V L} lg calls :
  log lg calls = log lg (List.filter (fun '(l, _, _) => Enabled l lg) calls).
Proof.
  unfold log. revert lg. induction calls as [|[[l msg] args] calls IH]; intros lg; simpl; [done|].
  rewrite IH. destruct (Enabled l lg) eqn:He; simpl; [|by rewrite Log_disabled by done].
  f_equal. apply List.filter_ext. intros [[l' ?] ?]. apply Log_enabled.
Qed.
End methods.

(** ** The logger over [log/slog] *)
Section slog.
Context {V W : Type}.

Inductive writer := Stderr | IoDiscard | OtherWriter (w : W).
Record HandlerOptions := mkHandlerOptions { o_Level : Z; o_AddSource : bool }.
Inductive handler := TextHandler (w : writer) (o : HandlerOptions) | JSONHandler (w : writer) (o : HandlerOptions).
Record Config := mkConfig { Writer : option W; Format : Z; Level : Z; AddSource : bool }.

(** The package [slog]: [slog.New], and the methods of its [Logger]. *)
Class Slog (S : Type) := { slog_New : handler -> S; #[global] slog_methods :: Logger V S }.

Context {S : Type} `{!Slog S}.
Record slogLogger := mkSlogLogger { l_ : S }.

(** The handler [New] builds. *)
Definition new_handler (cfg : Config) : handler :=
  let w := match Writer cfg with None => Stderr | Some w => OtherWriter w end in
  let opts := mkHandlerOptions (Level cfg) (AddSource cfg) in
  if Format cfg =? FormatText then TextHandler w opts else JSONHandler w opts.

Definition New (cfg : Config) : slogLogger := mkSlogLogger (slog_New (new_handler cfg)).
Definition FromSlog (l : S) : slogLogger := mkSlogLogger l.
Definition Discard : slogLogger := mkSlogLogger (slog_New (TextHandler IoDiscard (mkHandlerOptions LevelInfo false))).

Definition slog_Log (level : Z) (msg : string) (args : list (arg V)) (s : slogLogger) : slogLogger :=
  mkSlogLogger (Log level msg args (l_ s)).
Definition slog_With (args : list (arg V)) (s : slogLogger) : slogLogger := mkSlogLogger (With args (l_ s)).
Definition slog_Enabled (level : Z) (s : slogLogger) : bool := Enabled level (l_ s).

#[global] Instance slogLogger_Logger : Logger V slogLogger :=
  {| Log := slog_Log; With := slog_With; Enabled := slog_Enabled |}.

#[global] Instance slogLogger_laws `{!LoggerLaws V S} : LoggerLaws V slogLogger.
Proof.
  split; simpl; unfold slog_Log, slog_With, slog_Enabled; intros; [|apply Log_enabled|apply With_enabled].
  rewrite Log_disabled by done. by destruct lg.
Qed.

(** The zero value of [Config] writes text. *)
Lemma zero_config_is_text : new_handler (mkConfig None 0 0 false) = TextHandler Stderr (mkHandlerOptions LevelInfo false).
Proof. done. Qed.
End slog.

(** ** The capturing logger *)
Section capture.
Context {V : Type}.
#[local] Abbreviation arg := (arg V).

Record Record_ := mkRecord { r_Level : Z; Msg : string; Attrs : gmap string arg }.
Record Capture := mkCapture { level : Z; with_ : list arg; records : list Record_ }.

Definition NewCapture (level : Z) : Capture := mkCapture level [] [].

(** The pairs of [merged]; a key that is not a string is passed over with its
    value, and a last argument without a value is dropped. *)
Fixpoint pairs (merged : list arg) (attrs : gmap string arg) : gmap string arg :=
  match merged with
  | k :: v :: merged => pairs merged (match k with AStr k => <[k := v]> attrs | AVal _ => attrs end)
  | _ => attrs
  end.

Definition record (level' : Z) (msg : string) (args : list arg) (c : Capture) : Capture :=
  if level' <? level c then c
  else mkCapture (level c) (with_ c) (records c ++ [mkRecord level' msg (pairs (with_ c ++ args) ∅)]).

(** [With]: a new capture, with its own records. *)
Definition capture_With (args : list arg) (c : Capture) : Capture := mkCapture (level c) (with_ c ++ args) [].
Definition capture_Enabled (l : Z) (c : Capture) : bool := level c <=? l.

#[export] Instance Capture_Logger : Logger V Capture := {| Log := record; With := capture_With; Enabled := capture_Enabled |}.

#[export] Instance Capture_laws : LoggerLaws V Capture.
Proof.
  split; simpl; intros; unfold record, capture_Enabled in *; [|by destruct (_ <? _)|done].
  rewrite Z.leb_antisym, negb_false_iff in *. by rewrite H.
Qed.

Definition Records (c : Capture) : list Record_ := records c.
Definition Reset_ (c : Capture) : Capture := mkCapture (level c) (with_ c) [].
Definition HasMessage (substr : string) (c : Capture) : bool :=
  existsb (fun r => Contains (Msg r) substr) (records c).
Definition FilterLevel (l : Z) (c : Capture) : list Record_ := List.filter (fun r => r_Level r =? l) (records c).

Definition kept (c : Capture) (calls : list (Z * string * list arg)) : list Record_ :=
  map (fun '(l, msg, args) => mkRecord l msg (pairs (with_ c ++ args) ∅))
    (List.filter (fun '(l, _, _) => Enabled l c) calls).

(** Exactly the enabled calls are recorded, in order. *)
Lemma log_spec calls c : log c calls = mkCapture (level c) (with_ c) (records c ++ kept c calls).
Proof.
  unfold log, kept. revert c. induction calls as [|[[l msg] args] calls IH]; intros c; simpl.
  - rewrite app_nil_r. by destruct c.
  - rewrite IH. unfold Enabled, Capture_Logger, record, capture_Enabled. rewrite Z.leb_antisym. destruct (l <? level c) eqn:E; simpl; [done|].
    by rewrite <- app_assoc.
Qed.

(** Arguments of the call come after those of [With]: they win. *)
Lemma pairs_app n l1 l2 m : length l1 = (2 * n)%nat -> pairs (l1 ++ l2) m = pairs l2 (pairs l1 m).
Proof.
  revert l1 m. induction n as [|n IH]; intros [|a [|b l1]] m Hl; simpl in Hl; try lia; [done|].
  simpl. apply IH. lia.
Qed.

Lemma pairs_last l k v m : Nat.Even (length l) -> pairs (l ++ [AStr k; v]) m !! k = Some v.
Proof. intros [n Hn]. rewrite (pairs_app n) by done. simpl. by rewrite lookup_insert_eq. Qed.

(** What is logged through the capture [With] returns stays there. *)
Lemma With_separate args calls c : records (log (With args c) calls) = kept (With args c) calls.
Proof. by rewrite log_spec. Qed.

(** The calls below its level leave no trace in a capture. *)
Lemma records_filtered c calls : records (log c calls) =
  records (log c (List.filter (fun '(l, _, _) => Enabled l c) calls)).
Proof. f_equal. apply log_enabled. Qed.
End capture.
