(* ===== verification/Proc.v ===== *)
(** [internal/proc]: commands, matchers, and the [Fake] runner. Each method is
    one critical section; [Run] reads the rules in it and matches after it,
    against the slice it read. [OS.Run] is modelled over what [os/exec] does with
    the command it builds. *)
From S2P Require Import Prelude GoStrings.
Open Scope Z_scope.

Record Cmd := mkCmd { Name : string; Args : list string; Dir : string; Env : option (list string); Stdin : string }.
Record Result := mkResult { Stdout : string; Stderr : string; ExitCode : Z }.
(** ** [OS] *)

Section os.
(** [E] holds the errors of [os/exec] other than [exec.ExitError]. *)
Context {E : Type}.

(** [exec.Cmd], as far as [Run] fills it in; a nil [Stdin] is no input. *)
Record exec_cmd := mkExec { x_Name : string; x_Args : list string; x_Dir : string; x_Env : option (list string); x_Stdin : option string }.

Inductive run_error := ExitError | RunError (e : E).

(** What [Cmd.Run] leaves: the buffers, [ProcessState] if there was a process, with
    its [ExitCode], and the error. *)
Record run_outcome := mkOutcome { o_stdout : string; o_stderr : string; o_state : option Z; o_err : option run_error }.

Definition command (cmd : Cmd) : exec_cmd :=
  let c := mkExec (Name cmd) (Args cmd) "" None None in
  let c := if negb (Dir cmd =? "")%string then mkExec (x_Name c) (x_Args c) (Dir cmd) (x_Env c) (x_Stdin c) else c in
  let c := match Env cmd with Some env => mkExec (x_Name c) (x_Args c) (x_Dir c) (Some env) (x_Stdin c) | None => c end in
  if (0 <? Z.of_nat (String.length (Stdin cmd))) then mkExec (x_Name c) (x_Args c) (x_Dir c) (x_Env c) (Some (Stdin cmd)) else c.

Definition OS_Run (exec : exec_cmd -> run_outcome) (cmd : Cmd) : Result * option E :=
  let o := exec (command cmd) in
  let res := mkResult (o_stdout o) (o_stderr o) (match o_state o with Some code => code | None => -1 end) in
  match o_err o with
  | Some ExitError => (res, None)
  | Some (RunError e) => (res, Some e)
  | None => (res, None)
  end.

(** The command is handed over field by field, an empty input as none. *)
Lemma command_spec cmd : command cmd =
  mkExec (Name cmd) (Args cmd) (Dir cmd) (Env cmd) (if (Stdin cmd =? "")%string then None else Some (Stdin cmd)).
Proof.
  unfold command. destruct cmd as [name args dir env stdin]. simpl.
  assert ((0 <? Z.of_nat (String.length stdin)) = negb (stdin =? "")%string) as -> by (by destruct stdin).
  destruct (String.eqb_spec dir "") as [->|]; destruct env, (stdin =? "")%string; done.
Qed.

(** A run that ends is never an error, whatever its exit code; an error is one of
    [os/exec], and a process that never was has code -1. *)
Lemma OS_Run_spec exec cmd :
  let o := exec (command cmd) in let '(res, err) := OS_Run exec cmd in
  Stdout res = o_stdout o /\ Stderr res = o_stderr o /\
  (o_err o = None \/ o_err o = Some ExitError -> err = None) /\
  (forall e, err = Some e <-> o_err o = Some (RunError e)) /\
  (forall code, o_state o = Some code -> ExitCode res = code) /\ (o_state o = None -> ExitCode res = -1).
Proof.
  cbn zeta. unfold OS_Run. destruct (exec (command cmd)) as [so se st [[|e]|]]; simpl; split_and!; try done;
    intros; try destruct st; naive_solver.
Qed.
End os.

Record Call := mkCall { c_Name : string; c_Args : list string; c_Dir : string }.

Definition Matcher : Type := Cmd -> bool.

(** The loop over [want]: [None] is an index out of range. *)
Fixpoint args_equal (i : nat) (want args : list string) : option bool :=
  match want with
  | [] => Some true
  | a :: want => b ← args !! i; if negb (b =? a)%string then Some false else args_equal (S i) want args
  end.

Definition matches (r : option bool) : bool := match r with Some b => b | None => false end.

Definition MatchExact (name : string) (want : list string) : Matcher := fun c =>
  if negb (Name c =? name)%string then false
  else if negb (length (Args c) =? length want)%nat then false
  else matches (args_equal 0 want (Args c)).

Definition MatchPrefix (name : string) (prefix : list string) : Matcher := fun c =>
  if negb (Name c =? name)%string then false
  else if (length (Args c) <? length prefix)%nat then false
  else matches (args_equal 0 prefix (Args c)).

Lemma args_equal_spec want : forall i args, (i + length want <= length args)%nat ->
  args_equal i want args = Some (bool_decide (take (length want) (drop i args) = want)).
Proof.
  induction want as [|a want IH]; intros i args Hl; simpl in *; [done|].
  destruct (lookup_lt_is_Some_2 args i) as [b Hb]; [lia|]. rewrite Hb. simpl.
  rewrite (drop_S _ _ _ Hb). simpl. destruct (String.eqb_spec b a) as [->|Hne]; simpl.
  - rewrite IH by lia. f_equal. apply bool_decide_ext. split; congruence.
  - f_equal. symmetry. apply bool_decide_eq_false. congruence.
Qed.

Lemma MatchExact_spec name want c : MatchExact name want c = true <-> Name c = name /\ Args c = want.
Proof.
  unfold MatchExact. destruct (String.eqb_spec (Name c) name) as [->|]; simpl; [|naive_solver].
  destruct (Nat.eqb_spec (length (Args c)) (length want)) as [Hl|Hl]; simpl; [|naive_solver].
  rewrite args_equal_spec by (simpl; lia). simpl. rewrite drop_0, <- Hl, firstn_all. rewrite bool_decide_eq_true. naive_solver.
Qed.

Lemma MatchPrefix_spec name prefix c :
  MatchPrefix name prefix c = true <-> Name c = name /\ exists rest, Args c = prefix ++ rest.
Proof.
  unfold MatchPrefix. destruct (String.eqb_spec (Name c) name) as [->|]; simpl; [|naive_solver].
  destruct (Nat.ltb_spec (length (Args c)) (length prefix)) as [Hl|Hl].
  - split; [done|]. intros (_ & rest & Hr). rewrite Hr, length_app in Hl. lia.
  - rewrite args_equal_spec by (simpl; lia). simpl. rewrite drop_0, bool_decide_eq_true. split.
    + intros Ht. split; [done|]. exists (drop (length prefix) (Args c)). rewrite <- Ht at 1. by rewrite take_drop.
    + intros (_ & rest & ->). by rewrite take_app_length.
Qed.

Definition formatCmd (c : Cmd) : string :=
  if (length (Args c) =? 0)%nat then Name c else Name c +:+ " " +:+ Join (Args c) " ".

Section fake.
Context {E : Type}.
Inductive error := Scripted (e : E) | NoRule (cmd : string).
Record Response := mkResponse { p_Result : Result; p_Err : option E }.
Record rule := mkRule { match_ : Matcher; resp : Response }.
Record Fake := mkFake { rules : list rule; calls : list Call }.

Definition NewFake : Fake := mkFake [] [].
Definition On (m : Matcher) (resp : Response) (f : Fake) : Fake := mkFake (rules f ++ [mkRule m resp]) (calls f).
Definition OnExact (name : string) (args : list string) (resp : Response) (f : Fake) : Fake :=
  On (MatchExact name args) resp f.

Fixpoint first_match (rules : list rule) (cmd : Cmd) : option Response :=
  match rules with [] => None | r :: rules => if match_ r cmd then Some (resp r) else first_match rules cmd end.

Definition Run (cmd : Cmd) (f : Fake) : (Result * option error) * Fake :=
  (match first_match (rules f) cmd with
   | Some r => (p_Result r, Scripted <$> p_Err r)
   | None => (mkResult "" "" (-1), Some (NoRule (formatCmd cmd)))
   end, mkFake (rules f) (calls f ++ [mkCall (Name cmd) (Args cmd) (Dir cmd)])).

Definition Calls (f : Fake) : list Call := calls f.
Definition CallCount (f : Fake) : nat := length (calls f).
Definition Reset_ (f : Fake) : Fake := mkFake (rules f) [].

(** The first rule that matches, in order of registration, answers. *)
Lemma first_match_spec rules cmd r : first_match rules cmd = Some r <->
  exists l1 x l2, rules = l1 ++ x :: l2 /\ Forall (fun y => match_ y cmd = false) l1 /\
    match_ x cmd = true /\ resp x = r.
Proof.
  induction rules as [|x rules IH]; simpl.
  - split; [done|]. intros (l1 & x & l2 & Hl & _). by destruct l1.
  - destruct (match_ x cmd) eqn:Ex.
    + split; [intros [= <-]; by exists [], x, rules|]. intros (l1 & y & l2 & Hl & Hf & Hy & <-).
      destruct l1 as [|z l1]; simplify_eq/=; [done|]. apply Forall_cons in Hf as [? _]. congruence.
    + rewrite IH. split.
      * intros (l1 & y & l2 & -> & Hf & Hy). exists (x :: l1), y, l2. split_and!; [done|by constructor|by apply Hy..].
      * intros (l1 & y & l2 & Hl & Hf & Hy & Hr). destruct l1 as [|z l1]; simplify_eq/=; [congruence|].
        apply Forall_cons in Hf as [_ Hf]. by exists l1, y, l2.
Qed.

(** Every command is recorded, answered or not. *)
Lemma Run_records cmds f : calls (foldl (fun f c => (Run c f).2) f cmds) =
  calls f ++ map (fun c => mkCall (Name c) (Args c) (Dir c)) cmds.
Proof.
  revert f. induction cmds as [|c cmds IH]; intros f; simpl; [by rewrite app_nil_r|].
  rewrite IH. simpl. by rewrite <- app_assoc.
Qed.
End fake.
