(* ===== verification/Httpx.v ===== *)
(** [internal/httpx]: matchers and the [Fake] client. Each method is one
    critical section. [Real.Do] is modelled over the calls it makes of [net/http]. *)
From S2P Require Import Prelude GoNum GoStrings.
Open Scope Z_scope.

Definition MethodGet : string := "GET".

Record Request := mkRequest { Method : string; URL : string; ReqHeaders : list (string * list string); ReqBody : string }.
Record Response := mkResponse { Status : Z; Headers : list (string * list string); Body : string }.

(** [NewReal]: the timeout of the client it makes. *)
Definition NewReal (timeout : Duration) : Duration := if timeout <=? 0 then 30 * Second else timeout.

Definition Match : Type := Request -> bool.
Definition methodOrGet (r : Request) : string := if (Method r =? "")%string then MethodGet else Method r.

Definition MatchExact (method url : string) : Match :=
  let method := if (method =? "")%string then MethodGet else method in
  fun r => (methodOrGet r =? method)%string && (URL r =? url)%string.
Definition MatchPrefix (prefix : string) : Match := fun r => HasPrefix (URL r) prefix.

(** ** [Real]

    [net/http] is a parameter: building a request, adding a header, sending a
    request with a client, and reading the body of what comes back. *)

Section real.
Context {E client hreq hresp : Type}.
Context (NewRequest : string -> string -> string -> E + hreq).   (* method, URL, body *)
Context (Header_Add : string -> string -> hreq -> hreq).
Context (DefaultClient : client) (client_Do : client -> hreq -> E + hresp).
Context (StatusCode : hresp -> Z) (resp_Header : hresp -> list (string * list string)) (ReadAll : hresp -> E + string).

Record Real := mkReal { HTTP : option client; Timeout : Duration }.

Inductive real_error := BuildRequest (e : E) | Send (method url : string) (e : E) | ReadBody (e : E).

Definition empty_response : Response := mkResponse 0 [] "".

(** The headers in the order in which the loop over the map finds them. *)
Definition Real_Do (r : Real) (req : Request) : Response * option real_error :=
  let method := if (Method req =? "")%string then MethodGet else Method req in
  match NewRequest method (URL req) (ReqBody req) with
  | inl e => (empty_response, Some (BuildRequest e))
  | inr h =>
    let h := foldl (fun h kvs => foldl (fun h v => Header_Add kvs.1 v h) h kvs.2) h (ReqHeaders req) in
    let client := match HTTP r with Some c => c | None => DefaultClient end in
    match client_Do client h with
    | inl e => (empty_response, Some (Send method (URL req) e))
    | inr resp =>
      match ReadAll resp with
      | inl e => (empty_response, Some (ReadBody e))
      | inr body => (mkResponse (StatusCode resp) (resp_Header resp) body, None)
      end
    end
  end.

Lemma add_headers hs : forall h,
  foldl (fun h kvs => foldl (fun h v => Header_Add kvs.1 v h) h kvs.2) h hs =
  foldl (fun h kv => Header_Add kv.1 kv.2 h) h (concat (map (fun kvs => map (pair kvs.1) kvs.2) hs)).
Proof.
  assert (forall k vs h, foldl (fun h v => Header_Add k v h) h vs = foldl (fun h kv => Header_Add kv.1 kv.2 h) h (map (pair k) vs)) as Hk.
  { intros k vs. induction vs as [|v vs IH]; intros h; simpl; [done|apply IH]. }
  induction hs as [|[k vs] hs IH]; intros h; simpl; [done|]. by rewrite IH, foldl_app, Hk.
Qed.

(** Every header value is added once, in order; any status is a response; and the
    response of an error is empty. *)
Lemma Real_Do_spec r req :
  (forall h resp body, NewRequest (if (Method req =? "")%string then MethodGet else Method req) (URL req) (ReqBody req) = inr h ->
     client_Do (default DefaultClient (HTTP r))
       (foldl (fun h kv => Header_Add kv.1 kv.2 h) h (concat (map (fun kvs => map (pair kvs.1) kvs.2) (ReqHeaders req)))) = inr resp ->
     ReadAll resp = inr body ->
     Real_Do r req = (mkResponse (StatusCode resp) (resp_Header resp) body, None)) /\
  (forall e, (Real_Do r req).2 = Some e -> (Real_Do r req).1 = empty_response).
Proof.
  split.
  - intros h resp body Hn Hd Hb. unfold Real_Do. rewrite Hn.
    rewrite add_headers.
    replace (match HTTP r with Some c => c | None => DefaultClient end) with (default DefaultClient (HTTP r)) by done.
    by rewrite Hd, Hb.
  - intros e. unfold Real_Do. destruct (NewRequest _ _ _); [done|]. destruct (client_Do _ _); [done|]. by destruct (ReadAll _).
Qed.

(** The timeout of a [Real] is never looked at: without a client of its own it has
    the one of the default client. *)
Lemma Real_timeout_unused t t' : Real_Do (mkReal None t) = Real_Do (mkReal None t').
Proof. done. Qed.
End real.

Lemma MatchExact_request method url r : MatchExact method url r = true <->
  methodOrGet r = (if (method =? "")%string then MethodGet else method) /\ URL r = url.
Proof. unfold MatchExact. by rewrite andb_true_iff, !String.eqb_eq. Qed.

Section fake.
(** [E] holds the errors stubs are scripted with. *)
Context {E : Type}.
Inductive error := ErrNoStub | Scripted (e : E) | Text (msg : string).

Record Stub := mkStub { s_Match : option Match; s_Response : Response; s_Err : option E; Times : Z; used : Z }.
Record Fake := mkFake { stubs : list Stub; Calls : list Request }.

Definition NewFake : Fake := mkFake [] [].
Definition add_stub (s : Stub) (f : Fake) : Fake := mkFake (stubs f ++ [s]) (Calls f).
Definition On (m : Match) (status : Z) (body : string) (f : Fake) : Fake :=
  add_stub (mkStub (Some m) (mkResponse status [] body) None 0 0) f.

(** A stub the loop of [Do] stops at. *)
Definition answers (req : Request) (s : Stub) : bool :=
  match s_Match s with None => false | Some m => m req end && negb ((0 <? Times s) && (Times s <=? used s)).

Definition use (s : Stub) : Stub :=
  mkStub (s_Match s) (s_Response s) (s_Err s) (Times s) (wrap64 (used s + 1)).

Fixpoint find_stub (req : Request) (stubs : list Stub) : option Stub * list Stub :=
  match stubs with
  | [] => (None, [])
  | s :: stubs =>
    if answers req s then (Some s, use s :: stubs)
    else let '(r, stubs) := find_stub req stubs in (r, s :: stubs)
  end.

Definition no_response : Response := mkResponse 0 [] "".

Definition Do (req : Request) (f : Fake) : (Response * option error) * Fake :=
  let '(r, stubs) := find_stub req (stubs f) in
  (match r with
   | Some s => match s_Err s with Some e => (no_response, Some (Scripted e)) | None => (s_Response s, None) end
   | None => (no_response, Some (Text ("httpx.Fake: no stub for " +:+ methodOrGet req +:+ " " +:+ URL req)))
   end, mkFake stubs (Calls f ++ [req])).

Definition CallsFor (m : Match) (f : Fake) : list Request := List.filter m (Calls f).

(** The first stub that matches and has budget left answers, and only it is
    charged. *)
Lemma find_stub_spec req l : match find_stub req l with
  | (None, l') => l' = l /\ Forall (fun s => answers req s = false) l
  | (Some s, l') => exists l1 l2, l = l1 ++ s :: l2 /\ l' = l1 ++ use s :: l2 /\
      Forall (fun s => answers req s = false) l1 /\ answers req s = true
  end.
Proof.
  induction l as [|s l IH]; simpl; [done|]. destruct (answers req s) eqn:Es.
  - exists [], l. by split_and!.
  - destruct (find_stub req l) as [[s'|] l'].
    + destruct IH as (l1 & l2 & -> & -> & Hf & Hs). exists (s :: l1), l2. split_and!; auto.
    + destruct IH as [-> Hf]. split; [done|]. by constructor.
Qed.

(** A stub registered unused never answers more often than [Times]. *)
Definition budget_ok (s : Stub) : Prop := 0 < Times s -> 0 <= used s <= Times s /\ Times s <= maxInt64.

Lemma use_budget req s : answers req s = true -> budget_ok s -> budget_ok (use s).
Proof.
  unfold answers, budget_ok. intros [_ Ha]%andb_true_iff Hs Ht. simpl in *. destruct (Hs Ht) as [Hu Hm].
  rewrite (proj2 (Z.ltb_lt _ _) Ht) in Ha. simpl in Ha. apply negb_true_iff, Z.leb_gt in Ha.
  rewrite wrap64_id; [lia|]. unfold int64_ok, minInt64, maxInt64 in *. lia.
Qed.

Lemma Do_budget req f : Forall budget_ok (stubs f) -> Forall budget_ok (stubs (Do req f).2).
Proof.
  intros Hf. unfold Do. pose proof (find_stub_spec req (stubs f)) as Hs.
  destruct (find_stub req (stubs f)) as [[s|] l']; simpl.
  - destruct Hs as (l1 & l2 & He & -> & _ & Ha). rewrite He in Hf.
    apply Forall_app in Hf as [H1 [H2 H3]%Forall_cons]. apply Forall_app_2; [done|]. constructor; [by eapply use_budget|done].
  - by destruct Hs as [-> _].
Qed.

(** The error of a request no stub answers is a text, not [ErrNoStub]. *)
Lemma Do_never_ErrNoStub req f : (Do req f).1.2 <> Some ErrNoStub.
Proof. unfold Do. destruct (find_stub req (stubs f)) as [[s|] l']; [destruct (s_Err s)|]; done. Qed.
End fake.
