(* ===== verification/AsyncWriter.v ===== *)
(** [internal/cacheutil/async_writer.go]: background cache writes.

    [act] interleaves any number of callers of [Submit], [Flush] and [Close] and
    the workers, at the grain of atomic operations, channel operations and
    critical sections of [mu]; the wait group of the jobs is the one of [sync],
    with its panics. A job is known by its place in the order of acceptance, and
    what it returns is up to it. The methods of a nil writer and the submission
    of a nil job return at once and are left out. *)
From S2P Require Import Prelude GoNum.
Open Scope Z_scope.

(** ** [sync.WaitGroup]

    [Add] and [Done] change the counter first; the one that brings it to zero
    then checks that nothing has moved and wakes the waiters. *)
Record WaitGroup := mkWG { count : Z; waiters : Z }.

Definition wg_add (g : WaitGroup) : WaitGroup := mkWG (count g + 1) (waiters g).
Definition add_panics (g : WaitGroup) : bool := negb (waiters g =? 0) && (count g + 1 =? 1).
Definition wg_done (g : WaitGroup) : WaitGroup := mkWG (count g - 1) (waiters g).
Definition done_panics (g : WaitGroup) : bool := count g - 1 <? 0.
Definition done_wakes (g : WaitGroup) : bool := (count g - 1 =? 0) && negb (waiters g =? 0).

Section interleavings.
Context {E : Type}.

(** [errors.Join] of the error so far and one more. *)
Inductive joined := JErr (e : E) | JJoin (l : list joined).

Definition Join (first : option joined) (e : E) : joined :=
  JJoin (match first with Some f => [f; JErr e] | None => [JErr e] end).

(** The errors a joined error wraps, in the order its text lists them. *)
Fixpoint leaves (j : joined) : list E :=
  match j with JErr e => [e] | JJoin l => concat (map leaves l) end.
Definition errors_in (r : option joined) : list E := match r with Some j => leaves j | None => [] end.

(** Who holds [mu]: nobody, or a [Submit] after [Add(1)], after the send, or
    about to wake the waiters of the group. *)
Inductive holder := Free | Added | Sent | SubmitWakes (w : Z).

(** A worker: at the receive, in the job, at each of the steps after it, about
    to wake the waiters of the group, or gone. *)
Inductive worker :=
| WIdle | WRun (j : nat) | WBytes (b : Z) (e : option E) | WFailed (e : E) | WRecord (e : E)
| WComplete | WDone | WWakes (w : Z) | WExit.

(** A call of [Flush], or of [Close] past its critical section: before [Wait],
    asleep in it, woken, after it, joining the workers, returned. *)
Inductive stage := FWait | FSleep | FWoken | FRead | FJoin (r : option joined) | FReturn (r : option joined).

Record caller := mkCaller { is_close : bool; seen : nat; at_ : stage }.

Record AsyncWriterStats := mkStats { Queued : Z; Completed : Z; Failed : Z; Bytes : Z }.

Record AsyncWriter := mkWriter {
  capacity : Z; jobs : list nat; closed : bool; firstErr : option joined;
  jobsWG : WaitGroup; workersWG : Z; stats : AsyncWriterStats }.

(** From [taken] on, history: how many jobs workers have received, what the
    jobs that ended returned, and what the calls of [Submit] answered. *)
Record sys := mkSys {
  wr : AsyncWriter; mu : holder; workers : list worker; callers : list caller; crashed : bool;
  taken : nat; ended : list (nat * Z * option E); results : list (option nat) }.

Definition accepted (y : sys) : nat := (taken y + length (jobs (wr y)))%nat.

Definition NewAsyncWriter (workers queueSize : Z) : sys :=
  let workers := if workers <? 1 then 1 else workers in
  let queueSize := if queueSize <? 1 then 1 else queueSize in
  mkSys (mkWriter queueSize [] false None (mkWG 0 0) workers (mkStats 0 0 0 0)) Free
    (repeat WIdle (Z.to_nat workers)) [] false 0 [] [].

(** The four counters are read one after another. *)
Definition Stats (y1 y2 y3 y4 : sys) : AsyncWriterStats :=
  mkStats (Queued (stats (wr y1))) (Completed (stats (wr y2))) (Failed (stats (wr y3))) (Bytes (stats (wr y4))).

Definition set_jobs q w := mkWriter (capacity w) q (closed w) (firstErr w) (jobsWG w) (workersWG w) (stats w).
Definition set_closed w := mkWriter (capacity w) (jobs w) true (firstErr w) (jobsWG w) (workersWG w) (stats w).
Definition set_jobsWG g w := mkWriter (capacity w) (jobs w) (closed w) (firstErr w) g (workersWG w) (stats w).
Definition set_workersWG n w := mkWriter (capacity w) (jobs w) (closed w) (firstErr w) (jobsWG w) n (stats w).
Definition set_stats s w := mkWriter (capacity w) (jobs w) (closed w) (firstErr w) (jobsWG w) (workersWG w) s.
Definition recordErr e w :=
  mkWriter (capacity w) (jobs w) (closed w) (Some (Join (firstErr w) e)) (jobsWG w) (workersWG w) (stats w).

Definition on_wr f y :=
  mkSys (f (wr y)) (mu y) (workers y) (callers y) (crashed y) (taken y) (ended y) (results y).
Definition set_mu m y :=
  mkSys (wr y) m (workers y) (callers y) (crashed y) (taken y) (ended y) (results y).
Definition set_worker i x y :=
  mkSys (wr y) (mu y) (<[i := x]> (workers y)) (callers y) (crashed y) (taken y) (ended y) (results y).
Definition set_callers l y :=
  mkSys (wr y) (mu y) (workers y) l (crashed y) (taken y) (ended y) (results y).
Definition crash y :=
  mkSys (wr y) (mu y) (workers y) (callers y) true (taken y) (ended y) (results y).
Definition answer r y :=
  mkSys (wr y) (mu y) (workers y) (callers y) (crashed y) (taken y) (ended y) (results y ++ [r]).

(** The rest of the [Done] that brought the counter to zero. *)
Definition wake_one (c : caller) : caller :=
  match at_ c with FSleep => mkCaller (is_close c) (seen c) FWoken | _ => c end.

Definition wake (w : Z) (y : sys) : sys :=
  let g := jobsWG (wr y) in
  if (count g =? 0) && (waiters g =? w)
  then set_callers (map wake_one (callers y)) (on_wr (set_jobsWG (mkWG 0 0)) y)
  else crash y.

Definition add_bytes (b : Z) (s : AsyncWriterStats) : AsyncWriterStats :=
  if 0 <? b then mkStats (Queued s) (Completed s) (Failed s) (wrap64 (Bytes s + b)) else s.
Definition add_failed (s : AsyncWriterStats) := mkStats (Queued s) (Completed s) (Failed s + 1) (Bytes s).
Definition add_completed (s : AsyncWriterStats) := mkStats (Queued s) (Completed s + 1) (Failed s) (Bytes s).
Definition add_queued (s : AsyncWriterStats) := mkStats (Queued s + 1) (Completed s) (Failed s) (Bytes s).
Definition on_stats f w := set_stats (f (stats w)) w.

(** ** Steps *)

(** [Submit] up to its [select], the [select], and the rest. *)
Definition submit_enter (y : sys) : option sys :=
  match mu y with
  | Free =>
    if closed (wr y) then Some (answer None y)
    else
      let g := jobsWG (wr y) in
      if add_panics g then Some (crash y)
      else Some (set_mu Added (on_wr (set_jobsWG (wg_add g)) y))
  | _ => None
  end.

Definition submit_select (y : sys) : option sys :=
  match mu y with
  | Added =>
    let g := jobsWG (wr y) in
    if Z.of_nat (length (jobs (wr y))) <? capacity (wr y)
    then Some (set_mu Sent (on_wr (set_jobs (jobs (wr y) ++ [accepted y])) y))
    else if done_panics g then Some (crash y)
    else Some (answer None (set_mu (if done_wakes g then SubmitWakes (waiters g) else Free)
                              (on_wr (set_jobsWG (wg_done g)) y)))
  | _ => None
  end.

Definition submit_leave (y : sys) : option sys :=
  match mu y with
  | Sent => Some (answer (Some (pred (accepted y))) (set_mu Free (on_wr (on_stats add_queued) y)))
  | SubmitWakes w => Some (wake w (set_mu Free y))
  | _ => None
  end.

(** [run], one step of worker [i] after the job has returned. *)
Definition run_step (i : nat) (y : sys) : option sys :=
  x ← workers y !! i;
  match x with
  | WBytes b e =>
    Some (set_worker i (match e with Some e => WFailed e | None => WComplete end) (on_wr (on_stats (add_bytes b)) y))
  | WFailed e => Some (set_worker i (WRecord e) (on_wr (on_stats add_failed) y))
  | WRecord e =>
    match mu y with Free => Some (set_worker i WComplete (on_wr (recordErr e) y)) | _ => None end
  | WComplete => Some (set_worker i WDone (on_wr (on_stats add_completed) y))
  | WDone =>
    let g := jobsWG (wr y) in
    if done_panics g then Some (crash y)
    else Some (set_worker i (if done_wakes g then WWakes (waiters g) else WIdle) (on_wr (set_jobsWG (wg_done g)) y))
  | WWakes w => Some (wake w (set_worker i WIdle y))
  | _ => None
  end.

Definition run_receive (i : nat) (y : sys) : option sys :=
  x ← workers y !! i;
  match x, jobs (wr y) with
  | WIdle, j :: q =>
    Some (mkSys (set_jobs q (wr y)) (mu y) (<[i := WRun j]> (workers y)) (callers y) (crashed y)
            (S (taken y)) (ended y) (results y))
  | WIdle, [] =>
    if closed (wr y) then Some (set_worker i WExit (on_wr (set_workersWG (workersWG (wr y) - 1)) y)) else None
  | _, _ => None
  end.

(** The job of worker [i] returns. *)
Definition run_return (i : nat) (b : Z) (e : option E) (y : sys) : option sys :=
  x ← workers y !! i;
  match x with
  | WRun j => Some (mkSys (wr y) (mu y) (<[i := WBytes b e]> (workers y)) (callers y) (crashed y)
                     (taken y) (ended y ++ [(j, b, e)]) (results y))
  | _ => None
  end.

(** [Flush] begins; [Close] up to the end of its critical section. *)
Definition flush_enter (y : sys) : sys := set_callers (callers y ++ [mkCaller false (accepted y) FWait]) y.

Definition close_enter (y : sys) : option sys :=
  match mu y with
  | Free => Some (set_callers (callers y ++ [mkCaller true (accepted y) FWait]) (on_wr set_closed y))
  | _ => None
  end.

(** The next step of the call [k]. *)
Definition call_step (k : nat) (y : sys) : option sys :=
  c ← callers y !! k;
  let goto s := set_callers (<[k := mkCaller (is_close c) (seen c) s]> (callers y)) y in
  let g := jobsWG (wr y) in
  match at_ c with
  | FWait =>
    if count g =? 0 then Some (goto FRead)
    else Some (on_wr (set_jobsWG (mkWG (count g) (waiters g + 1))) (goto FSleep))
  | FWoken => if (count g =? 0) && (waiters g =? 0) then Some (goto FRead) else Some (crash y)
  | FRead =>
    match mu y with
    | Free => let r := firstErr (wr y) in Some (goto (if is_close c then FJoin r else FReturn r))
    | _ => None
    end
  | FJoin r => if workersWG (wr y) =? 0 then Some (goto (FReturn r)) else None
  | FSleep | FReturn _ => None
  end.

Inductive action :=
| ASubmit | ASelect | ALeave
| AReceive (i : nat) | AReturn (i : nat) (b : Z) (e : option E) | AStep (i : nat)
| AFlush | AClose | ACall (k : nat).

Definition act (a : action) (y : sys) : option sys :=
  if crashed y then None
  else
    match a with
    | ASubmit => submit_enter y
    | ASelect => submit_select y
    | ALeave => submit_leave y
    | AReceive i => run_receive i y
    | AReturn i b e => run_return i b e y
    | AStep i => run_step i y
    | AFlush => Some (flush_enter y)
    | AClose => close_enter y
    | ACall k => call_step k y
    end.

Fixpoint acts (l : list action) (y : sys) : option sys :=
  match l with
  | [] => Some y
  | a :: l => y ← act a y; acts l y
  end.
(** ** What holds of every interleaving *)

Definition busy (x : worker) : bool := match x with WIdle | WWakes _ | WExit => false | _ => true end.
Definition waking (x : worker) : bool := match x with WWakes _ => true | _ => false end.
Definition alive (x : worker) : bool := match x with WExit => false | _ => true end.
Definition job_of (x : worker) : option nat := match x with WRun j => Some j | _ => None end.

(** What a worker still has to put into the counters and the error. *)
Definition owed_err (x : worker) : option E :=
  match x with WBytes _ e => e | WFailed e | WRecord e => Some e | _ => None end.
Definition owed_fail (x : worker) : bool :=
  match x with WBytes _ (Some _) | WFailed _ => true | _ => false end.
Definition owed_done (x : worker) : bool :=
  match x with WBytes _ _ | WFailed _ | WRecord _ | WComplete => true | _ => false end.
Definition owed_bytes (x : worker) : Z := match x with WBytes b _ => Z.max 0 b | _ => 0 end.

Definition asleep (c : caller) : bool := match at_ c with FSleep => true | _ => false end.
Definition is_added (m : holder) : bool := match m with Added => true | _ => false end.

Definition written (y : sys) : Z := total (fun r => Z.max 0 r.1.2) (ended y).
Definition errors (y : sys) : list E := omap snd (ended y).

(** The first [n] jobs have ended, and their errors are in [errs]. *)
Definition settled (n : nat) (errs : list E) (y : sys) : Prop :=
  forall j, (j < n)%nat -> exists b e, (j, b, e) ∈ ended y /\ forall err, e = Some err -> err ∈ errs.

Definition caller_ok (y : sys) (c : caller) : Prop :=
  (seen c <= accepted y)%nat /\
  (is_close c = true -> closed (wr y) = true /\ seen c = accepted y) /\
  match at_ c with
  | FWait | FSleep => True
  | FWoken | FRead => settled (seen c) (errors_in (firstErr (wr y))) y
  | FJoin r => settled (seen c) (errors_in r) y
  | FReturn r => settled (seen c) (errors_in r) y /\ (is_close c = true -> workersWG (wr y) = 0)
  end.

Record aw_inv (y : sys) : Prop := {
  v_jobs : jobs (wr y) = seq (taken y) (length (jobs (wr y)));
  v_cap : 1 <= capacity (wr y) /\ Z.of_nat (length (jobs (wr y))) <= capacity (wr y);
  v_run : seq 0 (taken y) ≡ₚ (ended y).*1.*1 ++ omap job_of (workers y);
  v_count : count (jobsWG (wr y)) =
    Z.of_nat (length (jobs (wr y))) + tally busy (workers y) + b2z (is_added (mu y));
  v_waiters : waiters (jobsWG (wr y)) = tally asleep (callers y);
  v_waking : tally waking (workers y) =
    b2z ((count (jobsWG (wr y)) =? 0) && negb (waiters (jobsWG (wr y)) =? 0));
  v_wakes : forall i w, workers y !! i = Some (WWakes w) -> waiters (jobsWG (wr y)) = w;
  v_mu : match mu y with Free => True | Added | Sent => closed (wr y) = false | SubmitWakes _ => False end;
  v_errs : errors_in (firstErr (wr y)) ++ omap owed_err (workers y) ≡ₚ errors y;
  v_failed : Failed (stats (wr y)) + tally owed_fail (workers y) = Z.of_nat (length (errors y));
  v_completed : Completed (stats (wr y)) + tally owed_done (workers y) = Z.of_nat (length (ended y));
  v_bytes : Bytes (stats (wr y)) = wrap64 (written y - total owed_bytes (workers y));
  v_results : omap id (results y) ++ match mu y with Sent => [pred (accepted y)] | _ => [] end = seq 0 (accepted y);
  v_queued : Queued (stats (wr y)) = Z.of_nat (length (omap id (results y)));
  v_alive : workersWG (wr y) = tally alive (workers y);
  v_exit : WExit ∈ workers y -> closed (wr y) = true /\ jobs (wr y) = [];
  v_callers : Forall (caller_ok y) (callers y);
  v_some : workers y <> [] }.

(** Updating one element changes what it contributes to an [omap]. *)
Lemma omap_insert_perm {A B} (f : A -> option B) (l : list A) (i : nat) x x' : l !! i = Some x ->
  option_list (f x') ++ omap f l ≡ₚ option_list (f x) ++ omap f (<[i := x']> l).
Proof.
  revert i. induction l as [|z l IH]; intros [|i] Hi; simplify_eq/=.
  - destruct (f x'), (f x); simpl; try done; apply perm_swap.
  - specialize (IH _ Hi). destruct (f z) as [b|]; [|done].
    rewrite <- !Permutation_middle. by rewrite IH.
Qed.

Lemma omap_insert_same {A B} (f : A -> option B) (l : list A) (i : nat) x x' : l !! i = Some x -> f x' = f x ->
  omap f (<[i := x']> l) = omap f l.
Proof.
  revert i. induction l as [|z l IH]; intros [|i] Hi Hf; simplify_eq/=; [by rewrite Hf|].
  by rewrite (IH _ Hi Hf).
Qed.

(** Steps that only add to what a call relies on. *)
Lemma caller_mono y y' c :
  (accepted y <= accepted y')%nat -> (closed (wr y) = true -> closed (wr y') = true /\ accepted y' = accepted y) ->
  ended y ⊆ ended y' -> errors_in (firstErr (wr y)) ⊆ errors_in (firstErr (wr y')) ->
  (workersWG (wr y) = 0 -> workersWG (wr y') = 0) ->
  caller_ok y c -> caller_ok y' c.
Proof.
  intros Ha Hc He Hf Hw (H1 & H2 & H3).
  assert (forall n l l', l ⊆ l' -> settled n l y -> settled n l' y') as Hs.
  { intros n l l' Hl Hy j Hj. destruct (Hy j Hj) as (b & e & Hin & Herr). exists b, e. split; auto. }
  split_and!; [lia|intros Hcl; destruct (H2 Hcl) as [Hcl' ->]; destruct (Hc Hcl'); auto|].
  destruct (at_ c); eauto; destruct H3; eauto.
Qed.

(** With the counter at zero, everything accepted has ended and is recorded. *)
Lemma all_settled y : aw_inv y -> count (jobsWG (wr y)) = 0 ->
  forall n, (n <= accepted y)%nat -> settled n (errors_in (firstErr (wr y))) y.
Proof.
  intros [] Hc n Hn j Hj. pose proof (tally_nonneg busy (workers y)).
  assert (jobs (wr y) = []) as Hq by (destruct (jobs (wr y)); [done|]; destruct (is_added (mu y)); simpl in *; lia).
  assert (tally busy (workers y) = 0) as Hb by (destruct (is_added (mu y)); simpl in *; lia).
  assert (forall B (f : worker -> option B), (forall x, busy x = false -> f x = None) -> omap f (workers y) = []) as Hom.
  { intros B f Hf. apply elem_of_nil_inv. intros bb (x & Hx & Hfx)%list_elem_of_omap.
    apply list_elem_of_lookup in Hx as [i Hi].
    destruct (busy x) eqn:Hbx; [|by rewrite Hf in Hfx].
    pose proof (tally_pos busy _ _ _ Hi Hbx). lia. }
  rewrite (Hom _ job_of), app_nil_r in v_run0 by (by intros []).
  rewrite (Hom _ owed_err), app_nil_r in v_errs0 by (by intros []).
  assert (j ∈ seq 0 (taken y)) as Hin by (apply elem_of_seq; unfold accepted in Hn; rewrite Hq in Hn; simpl in Hn; lia).
  rewrite v_run0 in Hin. apply list_elem_of_fmap in Hin as ([j' b] & -> & Hin).
  apply list_elem_of_fmap in Hin as ([[j1 b1] e] & Heq & Hin). simplify_eq/=.
  exists b1, e. split; [done|]. intros err ->. rewrite v_errs0. unfold errors.
  apply list_elem_of_omap. by exists (j1, b1, Some err).
Qed.

Lemma insert_nonnil {A} (l : list A) (i : nat) x : l <> [] -> <[i := x]> l <> [].
Proof. destruct l, i; simpl; congruence. Qed.

(** A worker enters what its job returned. *)
Lemma aw_book y i x x' w' :
  aw_inv y -> workers y !! i = Some x -> busy x' = busy x -> alive x' = alive x -> job_of x' = job_of x ->
  waking x = false -> waking x' = false -> alive x' = true ->
  capacity w' = capacity (wr y) -> jobs w' = jobs (wr y) -> closed w' = closed (wr y) ->
  jobsWG w' = jobsWG (wr y) -> workersWG w' = workersWG (wr y) -> Queued (stats w') = Queued (stats (wr y)) ->
  errors_in (firstErr w') ++ option_list (owed_err x') ≡ₚ errors_in (firstErr (wr y)) ++ option_list (owed_err x) ->
  errors_in (firstErr (wr y)) ⊆ errors_in (firstErr w') ->
  Failed (stats w') + b2z (owed_fail x') = Failed (stats (wr y)) + b2z (owed_fail x) ->
  Completed (stats w') + b2z (owed_done x') = Completed (stats (wr y)) + b2z (owed_done x) ->
  Bytes (stats w') = wrap64 (Bytes (stats (wr y)) + owed_bytes x - owed_bytes x') ->
  aw_inv (mkSys w' (mu y) (<[i := x']> (workers y)) (callers y) (crashed y) (taken y) (ended y) (results y)).
Proof.
  intros [] Hi Hb Ha Hj Hwk Hwk' Hal Ecap Ejobs Eclosed Ewg Ewwg Eq Herr Hsub Hfail Hdone Hbytes.
  split; unfold accepted, written, errors in *; simpl; rewrite ?Ecap, ?Ejobs, ?Eclosed, ?Ewg, ?Ewwg, ?Eq;
    rewrite ?(tally_insert _ _ _ _ _ Hi), ?(total_insert _ _ _ _ _ Hi); try done.
  - by rewrite (omap_insert_same _ _ _ _ _ Hi).
  - rewrite Hb. lia.
  - rewrite Hwk, Hwk'. simpl. rewrite <- v_waking0. lia.
  - intros k w [(<- & -> & _)|[_ Hk]]%list_lookup_insert_Some; [done|eauto].
  - pose proof (omap_insert_perm owed_err _ _ _ x' Hi) as Hp. rewrite <- v_errs0.
    apply (Permutation_app_inv_l (option_list (owed_err x))).
    rewrite (Permutation_app_comm (errors_in (firstErr w'))), app_assoc, <- Hp.
    rewrite (Permutation_app_comm (option_list (owed_err x'))), <- app_assoc, (Permutation_app_comm (option_list (owed_err x'))), Herr.
    solve_Permutation.
  - lia.
  - lia.
  - rewrite Hbytes, v_bytes0. unfold Z.sub. rewrite <- !Z.add_assoc, wrap64_add_l. f_equal. lia.
  - rewrite Ha. lia.
  - intros [k Hk]%list_elem_of_lookup. apply list_lookup_insert_Some in Hk as [(<- & -> & _)|[_ Hk]]; [done|].
    apply v_exit0. by eapply list_elem_of_lookup_2.
  - eapply Forall_impl; [exact v_callers0|]. intros c. apply caller_mono; unfold accepted; simpl;
      rewrite ?Ejobs, ?Eclosed, ?Ewwg; done.
  - by apply insert_nonnil.
Qed.

Lemma count_nonneg y : aw_inv y -> 0 <= count (jobsWG (wr y)).
Proof. intros []. pose proof (tally_nonneg busy (workers y)). destruct (is_added (mu y)); simpl in *; lia. Qed.

Lemma aw_wake y i w : aw_inv y -> workers y !! i = Some (WWakes w) -> crashed y = false ->
  crashed (wake w (set_worker i WIdle y)) = false /\ aw_inv (wake w (set_worker i WIdle y)).
Proof.
  intros Hy Hi Hcr. pose proof Hy as []. pose proof (v_wakes0 _ _ Hi) as Hw.
  pose proof (tally_pos waking _ _ _ Hi eq_refl) as Hpos.
  unfold wake. simpl. destruct (Z.eqb_spec (count (jobsWG (wr y))) 0) as [Hc|]; [|simpl in *; lia].
  rewrite Hw, Z.eqb_refl. split; [done|]. rewrite Hw in *.
  assert (tally waking (workers y) = 1) as Hone by (destruct (negb (w =? 0)); simpl in *; lia).
  split; unfold accepted, written, errors in *; simpl; rewrite ?(tally_insert _ _ _ _ _ Hi), ?(total_insert _ _ _ _ _ Hi); try done.
  - by rewrite (omap_insert_same _ _ _ _ _ Hi).
  - simpl. lia.
  - symmetry. apply tally_none. intros c (c0 & -> & _)%elem_of_map. unfold wake_one, asleep.
    by destruct (at_ c0) eqn:E0; rewrite ?E0.
  - rewrite Hone. done.
  - intros k w' Hk. apply list_lookup_insert_Some in Hk as [(<- & ? & _)|[Hne Hk]]; [done|].
    pose proof (tally_two waking _ _ _ _ _ Hi Hk Hne eq_refl eq_refl). lia.
  - by rewrite (omap_insert_same _ _ _ _ _ Hi).
  - simpl. lia.
  - simpl. lia.
  - simpl. rewrite v_bytes0. f_equal. lia.
  - simpl. lia.
  - intros [k Hk]%list_elem_of_lookup. apply list_lookup_insert_Some in Hk as [(<- & ? & _)|[_ Hk]]; [done|].
    apply v_exit0. by eapply list_elem_of_lookup_2.
  - apply Forall_fmap. eapply Forall_impl; [exact v_callers0|]. intros c Hok. unfold compose.
    assert (caller_ok y (wake_one c)) as Hok'.
    { unfold wake_one. destruct (at_ c) eqn:Ec; try done. destruct Hok as (H1 & H2 & _).
      split_and!; [done..|]. by apply (all_settled y Hy Hc). }
    by eapply caller_mono; [..|exact Hok'].
  - by apply insert_nonnil.
Qed.

(** The worker's [Done]. *)
Lemma aw_done y i : aw_inv y -> workers y !! i = Some WDone ->
  done_panics (jobsWG (wr y)) = false /\
  aw_inv (set_worker i (if done_wakes (jobsWG (wr y)) then WWakes (waiters (jobsWG (wr y))) else WIdle)
            (on_wr (set_jobsWG (wg_done (jobsWG (wr y)))) y)).
Proof.
  intros Hy Hi. pose proof Hy as []. pose proof (tally_pos busy _ _ _ Hi eq_refl) as Hpos.
  assert (1 <= count (jobsWG (wr y))) as Hc by (destruct (is_added (mu y)); simpl in *; lia).
  split; [unfold done_panics; apply Z.ltb_ge; lia|].
  assert (tally waking (workers y) = 0) as Hnone.
  { rewrite v_waking0. destruct (Z.eqb_spec (count (jobsWG (wr y))) 0); [lia|done]. }
  set (x' := if _ : bool then _ else _).
  assert (busy x' = false /\ alive x' = true /\ job_of x' = None /\ owed_err x' = None /\ owed_fail x' = false /\
    owed_done x' = false /\ owed_bytes x' = 0 /\ waking x' = done_wakes (jobsWG (wr y))) as
    (E1 & E2 & E3 & E4 & E5 & E6 & E7 & E8) by (unfold x'; by destruct (done_wakes _)).
  split; unfold accepted, written, errors in *; simpl; rewrite ?(tally_insert _ _ _ _ _ Hi), ?(total_insert _ _ _ _ _ Hi);
    rewrite ?E1, ?E2, ?E5, ?E6, ?E7, ?E8; try done.
  - by rewrite (omap_insert_same _ _ _ _ _ Hi).
  - simpl. lia.
  - rewrite Hnone. done.
  - intros k w [(<- & Hx & _)|[_ Hk]]%list_lookup_insert_Some; [|eauto].
    unfold x' in Hx. by destruct (done_wakes _); simplify_eq.
  - by rewrite (omap_insert_same _ _ _ _ _ Hi).
  - simpl. lia.
  - simpl. lia.
  - simpl. rewrite v_bytes0. f_equal. lia.
  - simpl. lia.
  - intros [k Hk]%list_elem_of_lookup. apply list_lookup_insert_Some in Hk as [(<- & Hx & _)|[_ Hk]]; [by rewrite Hx in E2|].
    apply v_exit0. by eapply list_elem_of_lookup_2.
  - by apply insert_nonnil.
Qed.

Lemma bytes_same y : aw_inv y -> Bytes (stats (wr y)) = wrap64 (Bytes (stats (wr y)) + 0 - 0).
Proof. intros Hy. rewrite Z.add_0_r, Z.sub_0_r, (v_bytes _ Hy). by rewrite wrap64_idemp. Qed.

Lemma bytes_added y b : aw_inv y ->
  Bytes (add_bytes b (stats (wr y))) = wrap64 (Bytes (stats (wr y)) + Z.max 0 b - 0).
Proof.
  intros Hy. rewrite Z.sub_0_r. unfold add_bytes. destruct (Z.ltb_spec 0 b); simpl; [by rewrite Z.max_r by lia|].
  rewrite Z.max_l by lia. pose proof (bytes_same _ Hy) as Hb. by rewrite Z.sub_0_r in Hb.
Qed.

Lemma add_bytes_rest b s :
  Queued (add_bytes b s) = Queued s /\ Completed (add_bytes b s) = Completed s /\ Failed (add_bytes b s) = Failed s.
Proof. unfold add_bytes. by destruct (0 <? b). Qed.

Lemma act_run_step i y y' : run_step i y = Some y' -> aw_inv y -> crashed y = false ->
  crashed y' = false /\ aw_inv y'.
Proof.
  intros Ha Hy Hcr. unfold run_step in Ha. destruct (workers y !! i) as [x|] eqn:Hi; [|done]. simpl in Ha.
  destruct x as [| |b e|e|e| | |w|]; try done.
  - simplify_eq. split; [done|]. unfold set_worker, on_wr. simpl.
    destruct (add_bytes_rest b (stats (wr y))) as (Eq & Ec & Ef).
    destruct e as [e|]; apply (aw_book _ _ _ _ _ Hy Hi); try done; simpl; try lia; by apply bytes_added.
  - simplify_eq. split; [done|]. unfold set_worker, on_wr. simpl. apply (aw_book _ _ _ _ _ Hy Hi); try done; simpl; try lia.
    by apply bytes_same.
  - destruct (mu y); simplify_eq. split; [done|]. unfold set_worker, on_wr. simpl.
    apply (aw_book _ _ _ _ _ Hy Hi); try done; simpl.
    + unfold Join. destruct (firstErr (wr y)); simpl; by rewrite ?app_nil_r.
    + unfold Join. destruct (firstErr (wr y)); simpl; set_solver.
    + by apply bytes_same.
  - simplify_eq. split; [done|]. unfold set_worker, on_wr. simpl. apply (aw_book _ _ _ _ _ Hy Hi); try done; simpl; try lia.
    by apply bytes_same.
  - destruct (aw_done _ _ Hy Hi) as [Hp Hinv]. rewrite Hp in Ha. by simplify_eq.
  - simplify_eq. by apply aw_wake.
Qed.

Lemma seq_head n m j (q : list nat) : j :: q = seq n m -> j = n /\ q = seq (S n) (length q) /\ m = S (length q).
Proof. destruct m; simpl; intros; simplify_eq. by rewrite length_seq. Qed.

Lemma act_run_receive i y y' : run_receive i y = Some y' -> aw_inv y -> crashed y = false ->
  crashed y' = false /\ aw_inv y'.
Proof.
  intros Ha Hy Hcr. unfold run_receive in Ha. destruct (workers y !! i) as [x|] eqn:Hi; [|done]. simpl in Ha.
  pose proof Hy as []. destruct x; try done.
  destruct (jobs (wr y)) as [|j q] eqn:Hq.
  - destruct (closed (wr y)) eqn:Hcl; simplify_eq. split; [done|].
    split; unfold accepted, written, errors in *; simpl; rewrite ?(tally_insert _ _ _ _ _ Hi), ?(total_insert _ _ _ _ _ Hi);
      rewrite ?Hq in *; simpl in *; try done; try lia.
    + by rewrite (omap_insert_same _ _ _ _ _ Hi).
    + intros k w [(<- & Hx & _)|[_ Hk]]%list_lookup_insert_Some; [done|eauto].
    + by rewrite Hcl.
    + by rewrite (omap_insert_same _ _ _ _ _ Hi).
    + rewrite v_bytes0. f_equal. lia.
    + eapply Forall_impl; [exact v_callers0|]. intros c. apply caller_mono; unfold accepted; simpl; try done.
      intros Hz. pose proof (tally_pos alive _ _ _ Hi eq_refl). lia.
    + by apply insert_nonnil.
  - simplify_eq. split; [done|].
    destruct (seq_head _ _ _ _ v_jobs0) as (-> & Hq' & _).
    assert (S (taken y) + length q = taken y + S (length q))%nat as Hacc by lia.
    split; unfold accepted, written, errors in *; simpl; rewrite ?(tally_insert _ _ _ _ _ Hi), ?(total_insert _ _ _ _ _ Hi);
      rewrite ?Hq in *; simpl in *; try done; try lia.
    + pose proof (omap_insert_perm job_of _ _ _ (WRun (taken y)) Hi) as Hp. simpl in Hp.
      change (0%nat :: seq 1 (taken y)) with (seq 0 (S (taken y))). rewrite seq_S. simpl.
      rewrite <- Hp, <- Permutation_cons_append, v_run0. apply Permutation_middle.
    + intros k w [(<- & Hx & _)|[_ Hk]]%list_lookup_insert_Some; [done|eauto].
    + by rewrite (omap_insert_same _ _ _ _ _ Hi).
    + rewrite v_bytes0. f_equal. lia.
    + rewrite Nat.add_succ_r in v_results0. exact v_results0.
    + intros [k Hk]%list_elem_of_lookup. apply list_lookup_insert_Some in Hk as [(<- & ? & _)|[_ Hk]]; [done|].
      destruct v_exit0; [by eapply list_elem_of_lookup_2|done].
    + eapply Forall_impl; [exact v_callers0|]. intros c. apply caller_mono; unfold accepted; simpl; rewrite ?Hq; simpl; try done; try lia.
    + by apply insert_nonnil.
Qed.

Lemma act_run_return i b e y y' : run_return i b e y = Some y' -> aw_inv y -> crashed y = false ->
  crashed y' = false /\ aw_inv y'.
Proof.
  intros Ha Hy Hcr. unfold run_return in Ha. destruct (workers y !! i) as [x|] eqn:Hi; [|done]. simpl in Ha.
  pose proof Hy as []. destruct x as [|j| | | | | | |]; simplify_eq. split; [done|].
  pose proof (omap_insert_perm job_of _ _ _ (WBytes b e) Hi) as Hpj.
  pose proof (omap_insert_perm owed_err _ _ _ (WBytes b e) Hi) as Hpe. simpl in Hpj, Hpe.
  assert (omap snd (ended y ++ [(j, b, e)]) = omap snd (ended y) ++ option_list e) as Hom
    by (rewrite omap_app; simpl; by destruct e).
  split; unfold accepted, written, errors in *; simpl; rewrite ?(tally_insert _ _ _ _ _ Hi), ?(total_insert _ _ _ _ _ Hi);
    rewrite ?Hom, ?length_app, ?total_snoc; simpl; try done; try lia.
  - rewrite v_run0, Hpj, !fmap_app. simpl. solve_Permutation.
  - intros k w [(<- & Hx & _)|[_ Hk]]%list_lookup_insert_Some; [done|eauto].
  - rewrite <- Hpe, <- v_errs0. solve_Permutation.
  - destruct e; simpl; lia.
  - rewrite v_bytes0. f_equal. lia.
  - intros [k Hk]%list_elem_of_lookup. apply list_lookup_insert_Some in Hk as [(<- & ? & _)|[_ Hk]]; [done|].
    apply v_exit0. by eapply list_elem_of_lookup_2.
  - eapply Forall_impl; [exact v_callers0|]. intros c. apply caller_mono; unfold accepted; simpl; try done. set_solver.
  - by apply insert_nonnil.
Qed.

Lemma act_submit_enter y y' : submit_enter y = Some y' -> aw_inv y -> crashed y = false ->
  (crashed y' = false -> aw_inv y') /\ (crashed y' = true -> exists c, c ∈ callers y /\ asleep c = true).
Proof.
  intros Ha Hy Hcr. unfold submit_enter in Ha. destruct (mu y) eqn:Hmu; try done.
  destruct (closed (wr y)) eqn:Hcl; [|destruct (add_panics (jobsWG (wr y))) eqn:Hp]; simplify_eq; simpl;
    pose proof Hy as [].
  - split; [intros _|congruence]. split; unfold accepted, written, errors in *; simpl; rewrite ?Hmu in *; try done.
    + by rewrite omap_app, app_nil_r.
    + by rewrite omap_app, app_nil_r.
  - split; [done|intros _]. apply andb_true_iff in Hp as [Hw _]. apply negb_true_iff, Z.eqb_neq in Hw.
    destruct (decide (Exists (fun c => asleep c = true) (callers y))) as [[c ?]%Exists_exists|Hno]; [by exists c|].
    exfalso. apply Hw. rewrite v_waiters0. apply tally_none. intros c Hc. apply not_true_iff_false. intros Ht.
    apply Hno, Exists_exists. eauto.
  - split; [intros _|congruence]. pose proof (count_nonneg _ Hy) as Hnn.
    split; unfold accepted, written, errors in *; simpl; rewrite ?Hmu in *; simpl; try done; try lia.
    + rewrite v_count0. simpl. lia.
    + unfold add_panics in Hp. rewrite v_waking0.
      destruct (Z.eqb_spec (count (jobsWG (wr y))) 0) as [Hz|Hz]; simpl.
      * rewrite Hz in *. simpl in Hp. rewrite andb_true_r in Hp. by rewrite Hp.
      * by destruct (Z.eqb_spec (count (jobsWG (wr y)) + 1) 0); [lia|].
Qed.

Lemma act_submit_select y y' : submit_select y = Some y' -> aw_inv y -> crashed y = false ->
  crashed y' = false /\ aw_inv y'.
Proof.
  intros Ha Hy Hcr. unfold submit_select in Ha. destruct (mu y) eqn:Hmu; try done. pose proof Hy as [].
  rewrite Hmu in *. simpl in *.
  assert (~ WExit ∈ workers y) as Hnoexit by (intros []%v_exit0; congruence).
  destruct (Z.ltb_spec (Z.of_nat (length (jobs (wr y)))) (capacity (wr y))) as [Hlt|Hge].
  - simplify_eq. split; [done|].
    split; unfold accepted, written, errors in *; simpl; rewrite ?length_app; simpl; try done; try lia.
    + by rewrite Nat.add_1_r, seq_S, <- v_jobs0.
    + rewrite Nat.add_1_r, <- plus_n_Sm. simpl Nat.pred. rewrite app_nil_r in v_results0.
      rewrite v_results0. exact (eq_sym (seq_S (taken y + length (jobs (wr y))) 0)).
    + eapply Forall_impl; [exact v_callers0|]. intros c. apply caller_mono; unfold accepted; simpl; rewrite ?length_app; simpl; try done; try lia. congruence.
  - assert (2 <= count (jobsWG (wr y))) as Hc by (pose proof (tally_nonneg busy (workers y)); lia).
    assert (done_panics (jobsWG (wr y)) = false /\ done_wakes (jobsWG (wr y)) = false) as [E1 E2].
    { unfold done_panics, done_wakes. split; [apply Z.ltb_ge; lia|]. by destruct (Z.eqb_spec (count (jobsWG (wr y)) - 1) 0); [lia|]. }
    rewrite E1, E2 in Ha. simplify_eq. split; [done|].
    split; unfold accepted, written, errors in *; simpl; try done; try lia.
    + rewrite v_waking0. destruct (Z.eqb_spec (count (jobsWG (wr y))) 0); [lia|].
      by destruct (Z.eqb_spec (count (jobsWG (wr y)) - 1) 0); [lia|].
    + by rewrite omap_app, app_nil_r.
    + by rewrite omap_app, app_nil_r.
Qed.

Lemma act_submit_leave y y' : submit_leave y = Some y' -> aw_inv y -> crashed y = false ->
  crashed y' = false /\ aw_inv y'.
Proof.
  intros Ha Hy Hcr. unfold submit_leave in Ha. pose proof Hy as []. destruct (mu y) eqn:Hmu; try done.
  simplify_eq. split; [done|].
  split; unfold accepted, written, errors in *; simpl in *; try done.
  - by rewrite omap_app, app_nil_r.
  - rewrite omap_app, length_app, v_queued0. simpl. lia.
Qed.

Lemma aw_new_call y c : aw_inv y -> asleep c = false -> caller_ok y c -> aw_inv (set_callers (callers y ++ [c]) y).
Proof.
  intros [] Hc Hok. split; unfold accepted, written, errors in *; simpl; try done.
  - rewrite tally_snoc, Hc. simpl. lia.
  - apply Forall_app_2; [done|]. by constructor.
Qed.

Lemma aw_close y : mu y = Free -> aw_inv y -> aw_inv (on_wr set_closed y).
Proof.
  intros Hmu []. rewrite Hmu in *. split; unfold accepted, written, errors in *; simpl; rewrite ?Hmu; try done.
  - intros []%v_exit0. done.
  - eapply Forall_impl; [exact v_callers0|]. intros c. by apply (caller_mono y).
Qed.

Lemma aw_caller y k c c' : aw_inv y -> callers y !! k = Some c -> asleep c' = asleep c -> caller_ok y c' ->
  aw_inv (set_callers (<[k := c']> (callers y)) y).
Proof.
  intros [] Hk Hc Hok. split; unfold accepted, written, errors in *; simpl; try done.
  - rewrite (tally_insert _ _ _ _ _ Hk), Hc. lia.
  - by apply Forall_insert.
Qed.

Lemma aw_sleep y k c : aw_inv y -> callers y !! k = Some c -> at_ c = FWait -> count (jobsWG (wr y)) <> 0 ->
  aw_inv (on_wr (set_jobsWG (mkWG (count (jobsWG (wr y))) (waiters (jobsWG (wr y)) + 1)))
            (set_callers (<[k := mkCaller (is_close c) (seen c) FSleep]> (callers y)) y)).
Proof.
  intros Hy Hk Hc Hcount. pose proof Hy as [].
  assert (tally waking (workers y) = 0) as Hnone by (rewrite v_waking0; by destruct (Z.eqb_spec (count (jobsWG (wr y))) 0)).
  split; unfold accepted, written, errors in *; simpl; try done.
  - rewrite (tally_insert _ _ _ _ _ Hk), v_waiters0. unfold asleep at 3 4. rewrite Hc. simpl. lia.
  - rewrite Hnone. by destruct (Z.eqb_spec (count (jobsWG (wr y))) 0).
  - intros i w Hi. pose proof (tally_pos waking _ _ _ Hi eq_refl). lia.
  - apply Forall_insert.
    + eapply Forall_impl; [exact v_callers0|]. intros c0. by apply (caller_mono y).
    + pose proof (Forall_lookup_1 _ _ _ _ v_callers0 Hk) as (H1 & H2 & _). by split_and!.
Qed.

(** A call that finds the group in use again when it wakes up. *)
Definition reused (k : nat) (y : sys) : Prop :=
  exists c, callers y !! k = Some c /\ at_ c = FWoken /\
    (count (jobsWG (wr y)) <> 0 \/ waiters (jobsWG (wr y)) <> 0).

Lemma act_call_step k y y' : call_step k y = Some y' -> aw_inv y -> crashed y = false ->
  (crashed y' = false -> aw_inv y') /\ (crashed y' = true -> reused k y).
Proof.
  intros Ha Hy Hcr. unfold call_step in Ha. destruct (callers y !! k) as [c|] eqn:Hk; [|done]. simpl in Ha.
  pose proof (Forall_lookup_1 _ _ _ _ (v_callers _ Hy) Hk) as (H1 & H2 & H3).
  destruct (at_ c) as [| | | |r|r] eqn:Hc; try done.
  - destruct (Z.eqb_spec (count (jobsWG (wr y))) 0) as [Hz|Hz]; simplify_eq; (split; [intros _|simpl; congruence]).
    + eapply aw_caller; [done..|unfold asleep; by rewrite Hc|]. split_and!; [done..|]. by apply all_settled.
    + by apply aw_sleep.
  - destruct (Z.eqb_spec (count (jobsWG (wr y))) 0) as [Hz|Hz]; simpl in Ha;
      [destruct (Z.eqb_spec (waiters (jobsWG (wr y))) 0) as [Hw|Hw]|]; simplify_eq/=.
    + split; [intros _|congruence]. eapply aw_caller; [done..|unfold asleep; by rewrite Hc|]. by split_and!.
    + split; [done|]. exists c. auto.
    + split; [done|]. exists c. auto.
  - destruct (mu y); simplify_eq/=. split; [intros _|congruence].
    eapply aw_caller; [done..|unfold asleep; rewrite Hc; by destruct (is_close c)|].
    split_and!; [done..|]. simpl. destruct (is_close c); [done|]. by split.
  - destruct (Z.eqb_spec (workersWG (wr y)) 0); simplify_eq/=. split; [intros _|congruence].
    eapply aw_caller; [done..|unfold asleep; by rewrite Hc|]. by split_and!.
Qed.

(** The ways the program can stop with a panic: the group is used again before
    a waiting call has returned. *)
Definition misused (a : action) (y : sys) : Prop :=
  match a with
  | ASubmit => exists c, c ∈ callers y /\ asleep c = true
  | ACall k => reused k y
  | _ => False
  end.

Lemma act_aw a y y' : act a y = Some y' -> aw_inv y ->
  (crashed y' = false -> aw_inv y') /\ (crashed y' = true -> misused a y).
Proof.
  intros Ha Hy. unfold act in Ha. destruct (crashed y) eqn:Hcr; [done|].
  assert (forall P : Prop, crashed y' = false /\ aw_inv y' ->
    (crashed y' = false -> aw_inv y') /\ (crashed y' = true -> P)) as Hok by (intros P [-> ?]; by split).
  destruct a; simpl.
  - by apply (act_submit_enter y).
  - apply Hok. by apply (act_submit_select y).
  - apply Hok. by apply (act_submit_leave y).
  - apply Hok. by eapply (act_run_receive _ y).
  - apply Hok. by eapply (act_run_return _ _ _ y).
  - apply Hok. by eapply (act_run_step _ y).
  - apply Hok. simplify_eq. split; [done|]. apply aw_new_call; [done..|]. by split_and!.
  - apply Hok. unfold close_enter in Ha. destruct (mu y) eqn:Hmu; simplify_eq. split; [done|].
    apply (aw_new_call (on_wr set_closed y)); [by apply aw_close|done|]. by split_and!.
  - by apply (act_call_step _ y).
Qed.

Lemma acts_aw l y y' : acts l y = Some y' -> aw_inv y -> crashed y' = false -> aw_inv y'.
Proof.
  revert y. induction l as [|a l IH]; intros y Hl Hy Hcr; simplify_eq/=; [done|].
  destruct (act a y) as [y1|] eqn:Ha; simplify_eq/=. destruct (act_aw _ _ _ Ha Hy) as [Hnext _].
  destruct (crashed y1) eqn:Hc1; [|by eauto].
  destruct l as [|b l]; simplify_eq/=; [congruence|]. unfold act in Hl. by rewrite Hc1 in Hl.
Qed.

Lemma tally_repeat {A} (f : A -> bool) x n : tally f (repeat x n) = if f x then Z.of_nat n else 0.
Proof.
  unfold tally. induction n as [|n IH]; [by destruct (f x)|]. simpl repeat. rewrite total_cons, IH.
  destruct (f x); simpl; lia.
Qed.

Lemma NewAsyncWriter_inv n q : aw_inv (NewAsyncWriter n q).
Proof.
  unfold NewAsyncWriter. set (n' := if _ <? _ then _ else n). set (q' := if _ <? _ then _ else q).
  assert (1 <= n') as Hn by (unfold n'; destruct (Z.ltb_spec n 1); lia).
  assert (1 <= q') as Hq by (unfold q'; destruct (Z.ltb_spec q 1); lia).
  assert (forall B (f : worker -> option B), f WIdle = None -> omap f (repeat WIdle (Z.to_nat n')) = []) as Hom.
  { intros B f Hf. induction (Z.to_nat n') as [|m IH]; [done|]. simpl. by rewrite Hf. }
  split; unfold accepted, written, errors; simpl; rewrite ?tally_repeat, ?Hom; simpl; try done; try lia.
  - intros i w Hi%list_elem_of_lookup_2. apply list_elem_of_In, repeat_spec in Hi. done.
  - assert (total owed_bytes (repeat WIdle (Z.to_nat n')) = 0) as ->; [|done].
    clear Hom. induction (Z.to_nat n') as [|m IH]; [done|]. simpl repeat. by rewrite total_cons.
  - intros Hin%list_elem_of_In%repeat_spec. done.
  - destruct (Z.to_nat n') eqn:En; [lia|done].
Qed.

(** A worker that has something to do can do it, or waits for [mu], whose
    holder can go on. *)
Definition turn_of (a : action) : option nat :=
  match a with AReceive i | AReturn i _ _ | AStep i => Some i | _ => None end.

Lemma holder_enabled y : aw_inv y -> crashed y = false -> mu y <> Free ->
  exists a y', (a = ASelect \/ a = ALeave) /\ act a y = Some y'.
Proof.
  intros Hy Hcr Hmu. pose proof (v_mu _ Hy) as Hm. destruct (mu y) eqn:Em; try done.
  - exists ASelect. unfold act. rewrite Hcr. unfold submit_select. rewrite Em.
    destruct (_ <? _); [|destruct (done_panics _)]; eauto.
  - exists ALeave. unfold act. rewrite Hcr. unfold submit_leave. rewrite Em. eauto.
Qed.

Lemma worker_can y i x : crashed y = false -> workers y !! i = Some x ->
  busy x || waking x = true \/ alive x = true /\ (jobs (wr y) <> [] \/ closed (wr y) = true) ->
  (exists a y', turn_of a = Some i /\ act a y = Some y') \/ mu y <> Free.
Proof.
  intros Hcr Hi Hx. unfold act. setoid_rewrite Hcr.
  destruct x as [|j| | |e| | | |] eqn:Ex; simpl in Hx; try (left; exists (AStep i); simpl; unfold run_step; rewrite Hi; by eauto).
  - left. exists (AReceive i). simpl. unfold run_receive. rewrite Hi. simpl.
    destruct (jobs (wr y)); [|by eauto]. destruct Hx as [?|[_ [?| ->]]]; by eauto.
  - left. exists (AReturn i 0 None). simpl. unfold run_return. rewrite Hi. by eauto.
  - destruct (mu y) eqn:Hm; [left|by right..].
    exists (AStep i). simpl. unfold run_step. rewrite Hi. simpl. rewrite Hm. by eauto.
  - left. exists (AStep i). simpl. unfold run_step. rewrite Hi. simpl. destruct (done_panics _); by eauto.
  - naive_solver.
Qed.

(** Steps still to take for the jobs accepted so far, and for the exits. *)
Definition turns (x : worker) : Z :=
  match x with
  | WRun _ => 8 | WBytes _ _ => 7 | WFailed _ => 6 | WRecord _ => 5 | WComplete => 4 | WDone => 3 | WWakes _ => 2
  | WIdle => 1 | WExit => 0
  end.
Definition turns_left (y : sys) : Z := 8 * Z.of_nat (length (jobs (wr y))) + total turns (workers y).

Lemma turn_progress a i y y' : act a y = Some y' -> turn_of a = Some i -> crashed y' = false ->
  0 <= turns_left y' < turns_left y.
Proof.
  intros Ha Hi Hcr'. unfold act in Ha. destruct (crashed y) eqn:Hcr; [done|].
  assert (forall z : sys, 0 <= turns_left z) as Hnn.
  { intros z. unfold turns_left. assert (0 <= total turns (workers z)); [|lia].
    apply total_nonneg. intros x _. by destruct x. }
  split; [done|]. unfold turns_left.
  destruct a; simplify_eq/=; unfold run_receive, run_return, run_step in Ha;
    (destruct (workers y !! i) as [x|] eqn:Hx; [|done]); simpl in Ha.
  - destruct x; try done. destruct (jobs (wr y)) eqn:Hj; simpl in Ha; [destruct (closed (wr y))|]; simplify_eq/=;
      rewrite (total_insert _ _ _ _ _ Hx), ?Hj; simpl length; simpl turns; lia.
  - destruct x; simplify_eq/=. rewrite (total_insert _ _ _ _ _ Hx). simpl turns. lia.
  - destruct x as [|j|b e0| | | | |w|]; try done.
    + simplify_eq/=. rewrite (total_insert _ _ _ _ _ Hx). destruct e0; simpl turns; lia.
    + simplify_eq/=. rewrite (total_insert _ _ _ _ _ Hx). simpl turns; lia.
    + destruct (mu y); simplify_eq/=. rewrite (total_insert _ _ _ _ _ Hx). simpl turns; lia.
    + simplify_eq/=. rewrite (total_insert _ _ _ _ _ Hx). simpl turns; lia.
    + destruct (done_panics _); simplify_eq/=. rewrite (total_insert _ _ _ _ _ Hx). destruct (done_wakes _); simpl turns; lia.
    + simplify_eq. unfold wake in *. simpl in *. destruct (_ && _); simpl in *; [|done].
      rewrite (total_insert _ _ _ _ _ Hx). simpl turns; lia.
Qed.

Lemma someone_wakes y c : aw_inv y -> c ∈ callers y -> asleep c = true -> count (jobsWG (wr y)) = 0 ->
  exists i w, workers y !! i = Some (WWakes w).
Proof.
  intros Hy [k Hk]%list_elem_of_lookup Hc Hz. pose proof (v_waking _ Hy) as Hw.
  pose proof (tally_pos asleep _ _ _ Hk Hc). rewrite Hz, (v_waiters _ Hy) in Hw.
  destruct (Z.eqb_spec (tally asleep (callers y)) 0); [lia|]. simpl in Hw.
  symmetry in Hw. apply (b2z_pos_tally waking _ true) in Hw.
  destruct (proj2 Hw eq_refl) as (i & x & Hi & Hx). destruct x; try done. eauto.
Qed.

Lemma close_complete y c r : aw_inv y -> c ∈ callers y -> is_close c = true -> at_ c = FReturn r ->
  seen c = accepted y /\ jobs (wr y) = [] /\ Forall (fun x => x = WExit) (workers y).
Proof.
  intros Hy Hc Hcl Hr. pose proof (v_callers _ Hy) as Hcs. rewrite Forall_forall in Hcs.
  destruct (Hcs _ Hc) as (_ & H2 & H3). rewrite Hr in H3. destruct H3 as [_ Hwg]. specialize (Hwg Hcl).
  assert (Forall (fun x => x = WExit) (workers y)) as Hall.
  { apply Forall_lookup. intros i x Hi. destruct (alive x) eqn:Hx; [|by destruct x].
    pose proof (tally_pos alive _ _ _ Hi Hx). pose proof (v_alive _ Hy). lia. }
  split_and!; [by apply H2| |done]. destruct (workers y) as [|x l] eqn:Hw; [by destruct (v_some _ Hy)|].
  apply (v_exit _ Hy). rewrite Hw. apply Forall_cons in Hall as [-> _]. by left.
Qed.

End interleavings.

Arguments sys : clear implicits.
Arguments joined : clear implicits.

(** Two workers; one job fails, a [Flush] waits for both, a [Close] ends. *)
Definition writer_trace : list (@action string) :=
  [ASubmit; ASelect; AReceive 0; ALeave; ASubmit; ASelect; ALeave; AFlush; ACall 0; AReceive 1;
   AReturn 1 7 (Some "disk full"); AStep 1; AStep 1; AStep 1; AStep 1; AStep 1;
   AReturn 0 5 None; AStep 0; AStep 0; AStep 0; AStep 0; ACall 0; ACall 0;
   AClose; ASubmit; ACall 1; ACall 1; AReceive 0; AReceive 1; ACall 1]%nat.


(** A [Submit] between the end of the last job and the return of a waiting
    [Flush] uses the wait group again too early: the [Flush] panics. *)
Lemma async_writer_reuse_panics :
  exists y, acts (E := string)
      [ASubmit; ASelect; ALeave; AFlush; ACall 0; AReceive 0; AReturn 0 1 None; AStep 0; AStep 0; AStep 0; AStep 0;
       ASubmit; ACall 0]%nat (NewAsyncWriter 1 1) = Some y /\ crashed y = true.
Proof. eexists. by split; [vm_compute; reflexivity|]. Qed.
