(* ===== verification/AtomicFile.v ===== *)
(** [internal/fsutil]: atomic file writes over any operating system.

    The operating system is any state with the calls the code makes, each of
    which may fail; [FileSystemLaws] is what their documentation promises about
    the contents of regular files. A computation yields, next to its result,
    every state that was visible on the way, so that a theorem can speak of a
    crash, or of a reader, at any moment. [WriteFileAtomicStream] hands its callback
    a [bufio.Writer] over the temporary file, modelled as the standard library has
    it; the callback is any tree of writes that looks at their results. *)
From S2P Require Import Prelude GoStrings GoPath PathLaws.

(** ** Computations with their visible states *)

Definition io (S A : Type) : Type := S -> list S * (A * S).

#[export] Instance io_ret {S} : MRet (io S) := fun A a s => ([], (a, s)).
#[export] Instance io_bind {S} : MBind (io S) := fun A B f m s =>
  let '(vs, (a, s1)) := m s in
  let '(vs', r) := f a s1 in
  (vs ++ s1 :: vs', r).

(** Started in [s], every visible state satisfies [I], and the end [Q]. *)
Definition wp {S A} (m : io S A) (I : S -> Prop) (Q : A -> S -> Prop) (s : S) : Prop :=
  Forall I (m s).1 /\ Q (m s).2.1 (m s).2.2.

Lemma wp_ret {S A} (a : A) (I : S -> Prop) Q s : Q a s -> wp (mret a) I Q s.
Proof. split; [constructor|done]. Qed.

Lemma wp_bind {S A B} (m : io S A) (f : A -> io S B) (I : S -> Prop) Q s :
  wp m I (fun a t => I t /\ wp (f a) I Q t) s -> wp (m ≫= f) I Q s.
Proof.
  unfold wp, mbind, io_bind. destruct (m s) as [vs [a s1]]. simpl.
  destruct (f a s1) as [vs' [b s2]]. simpl. intros (Hvs & HI & Hvs' & HQ).
  split; [|done]. apply Forall_app_2; [done|]. by constructor.
Qed.

Lemma wp_mono {S A} (m : io S A) (I I' : S -> Prop) (Q Q' : A -> S -> Prop) s :
  wp m I Q s -> (forall t, I t -> I' t) -> (forall a t, Q a t -> Q' a t) -> wp m I' Q' s.
Proof. intros [HI HQ] Hi Hq. split; [by eapply Forall_impl|by apply Hq]. Qed.

(** ** The operating system *)

Inductive os_err := NotExist | OtherErr (what : string).

Class FileSystem (S : Type) := {
  content : S -> string -> option string;
  MkdirAll : string -> io S (option os_err);
  ReadFile : string -> io S (result os_err string);
  RemoveAll : string -> io S (option os_err);
  Remove : string -> io S (option os_err);
  CreateTemp : string -> string -> string -> io S (result os_err string); (* directory, text before and after the star *)
  Write : string -> string -> io S (option os_err);
  Chmod : string -> Z -> io S (option os_err);
  Sync : string -> io S (option os_err);
  CloseFile : string -> io S (option os_err);
  Rename : string -> string -> io S (option os_err) }.

(** The file [q] is [p], or lies below it. *)
Definition under (p q : string) : Prop := q = p \/ exists t, q = p +:+ "/" +:+ t.

(** The name [CreateTemp] makes of a directory, the pattern and its random
    part. *)
Definition temp_name (dir pre r suf : string) : string :=
  (if HasSuffix dir "/" then dir else dir +:+ "/") +:+ pre +:+ r +:+ suf.

Section contents.
Context {S : Type} `{FileSystem S}.

Definition same (s t : S) : Prop := forall q, content t q = content s q.
Definition changed (f : string) (s t : S) : Prop := forall q, q <> f -> content t q = content s q.
(** Of the files [P] selects, some are gone. *)
Definition removed (P : string -> Prop) (s t : S) : Prop :=
  forall q, content t q = content s q \/ P q /\ content t q = None.
Definition created (P : string -> Prop) (s t : S) : Prop :=
  forall q, content t q = content s q \/ P q /\ content s q = None.
Definition renamed (a b : string) (s t : S) : Prop :=
  content t b = content s a /\ content t a = None /\ forall q, q <> a -> q <> b -> content t q = content s q.
End contents.

Class FileSystemLaws (S : Type) `{FileSystem S} : Prop := {
  law_MkdirAll p s : wp (MkdirAll p) (same s) (fun _ => same s) s;
  law_ReadFile p s : wp (ReadFile p) (same s) (fun r t => same s t /\
    match r with Ok d => content s p = Some d | Err NotExist => content s p = None | Err _ => True end) s;
  law_RemoveAll p s : wp (RemoveAll p) (removed (under p) s) (fun r t => removed (under p) s t /\
    (r = None -> forall q, under p q -> content t q = None)) s;
  law_Remove p s : wp (Remove p) (removed (eq p) s) (fun r t => removed (eq p) s t /\
    match r with None | Some NotExist => content t p = None | _ => True end) s;
  law_CreateTemp dir pre suf s :
    wp (CreateTemp dir pre suf) (created (fun q => exists r, no_slash (pre +:+ r +:+ suf) = true /\ q = temp_name dir pre r suf) s)
      (fun res t =>
       match res with
       | Ok f => exists r, no_slash (pre +:+ r +:+ suf) = true /\ f = temp_name dir pre r suf /\
                   content s f = None /\ content t f = Some "" /\ changed f s t
       | Err _ => same s t
       end) s;
  law_Write f data s : wp (Write f data) (changed f s) (fun r t => changed f s t /\
    (r = None -> forall old, content s f = Some old -> content t f = Some (old +:+ data))) s;
  law_Chmod f perm s : wp (Chmod f perm) (same s) (fun _ => same s) s;
  law_Sync f s : wp (Sync f) (same s) (fun _ => same s) s;
  law_Close f s : wp (CloseFile f) (same s) (fun _ => same s) s;
  law_Rename a b s : wp (Rename a b) (fun t => same s t \/ renamed a b s t) (fun r t =>
    match r with None => renamed a b s t | Some _ => same s t end) s }.

(** ** fsutil/atomic.go *)

(** [filepath.Base] *)
Definition Base (p : string) : string :=
  if (p =? "")%string then "."
  else match trim_slashes p with EmptyString => "/" | t => after_last slash t end.

Inductive write_error :=
| WriteTemp (e : os_err) | SyncTemp (e : os_err) | CloseTemp (e : os_err) | RenameTemp (e : os_err).

Section atomic.
Context {S : Type} `{FileSystem S}.

Definition cleanup (tmp : string) : io S unit :=
  _ ← CloseFile tmp; _ ← Remove tmp; mret tt.

Definition writeAtomic (path : string) (perm : Z) (payload : string -> io S (option os_err)) :
    io S (option write_error) :=
  let dir := Dir path in
  let base := Base path in
  created ← CreateTemp dir ("." +:+ base +:+ ".tmp-") "";
  match created with
  | Err e => mret (Some (WriteTemp e))
  | Ok tmpName =>
    err ← Chmod tmpName perm;
    match err with
    | Some e => _ ← cleanup tmpName; mret (Some (WriteTemp e))
    | None =>
      err ← payload tmpName;
      match err with
      | Some e => _ ← cleanup tmpName; mret (Some (WriteTemp e))
      | None =>
        err ← Sync tmpName;
        match err with
        | Some e => _ ← cleanup tmpName; mret (Some (SyncTemp e))
        | None =>
          err ← CloseFile tmpName;
          match err with
          | Some e => _ ← Remove tmpName; mret (Some (CloseTemp e))
          | None =>
            err ← Rename tmpName path;
            match err with
            | Some e => _ ← Remove tmpName; mret (Some (RenameTemp e))
            | None => mret None
            end
          end
        end
      end
    end
  end.

Definition WriteFileAtomic (path data : string) (perm : Z) : io S (option write_error) :=
  writeAtomic path perm (fun f => Write f data).

(** *** [bufio.Writer]

    What is buffered and the first error, which sticks. The buffer that a failed
    flush leaves is never looked at again. *)
Record bufw := mkBuf { b_buf : string; b_err : option os_err }.

Definition bufSize : nat := 4096.
Definition NewWriter : bufw := mkBuf "" None.
Definition Available (b : bufw) : nat := bufSize - len (b_buf b).

Definition Flush (f : string) (b : bufw) : io S (bufw * option os_err) :=
  match b_err b with
  | Some e => mret (b, Some e)
  | None =>
    if (b_buf b =? "")%string then mret (b, None)
    else
      err ← Write f (b_buf b);
      match err with
      | Some e => mret (mkBuf (b_buf b) (Some e), Some e)
      | None => mret (mkBuf "" None, None)
      end
  end.

(** The loop of [Write]: while the text does not fit, write it directly if the
    buffer is empty, and otherwise fill the buffer and flush it. It goes round at
    most twice ([bw_fill_fits]). *)
Fixpoint bw_fill (fuel : nat) (f p : string) (b : bufw) : io S (string * bufw) :=
  match b_err b with
  | Some _ => mret (p, b)
  | None =>
    if (len p <=? Available b)%nat then mret (p, b)
    else
      match fuel with
      | O => mret (p, b)
      | Datatypes.S fuel =>
        if (b_buf b =? "")%string then
          err ← Write f p;
          match err with Some e => mret (p, mkBuf "" (Some e)) | None => bw_fill fuel f "" b end
        else
          let n := Available b in
          r ← Flush f (mkBuf (b_buf b +:+ str_take n p) None);
          bw_fill fuel f (str_drop n p) r.1
      end
  end.

Definition bw_Write (f p : string) (b : bufw) : io S (bufw * option os_err) :=
  r ← bw_fill 2 f p b;
  let '(p, b) := r in
  match b_err b with
  | Some e => mret (b, Some e)
  | None => mret (mkBuf (b_buf b +:+ p) None, None)
  end.

(** *** The callback of [WriteFileAtomicStream]

    Writes, each followed by what depends on its result, and an error or none. *)
Inductive stream :=
| Return (err : option os_err)
| Put (p : string) (k : option os_err -> stream).

Fixpoint run_stream (w : stream) (f : string) (b : bufw) : io S (bufw * option os_err) :=
  match w with
  | Return err => mret (b, err)
  | Put p k => r ← bw_Write f p b; run_stream (k r.2) f r.1
  end.

Definition WriteFileAtomicStream (path : string) (perm : Z) (write : stream) : io S (option write_error) :=
  writeAtomic path perm (fun f =>
    r ← run_stream write f NewWriter;
    match r.2 with
    | Some e => mret (Some e)
    | None => r ← Flush f r.1; mret r.2
    end).

(** What a callback writes when no write fails. *)
Fixpoint produced (w : stream) : string :=
  match w with Return _ => "" | Put p k => p +:+ produced (k None) end.

(** And what it returns then. *)
Fixpoint returned (w : stream) : option os_err :=
  match w with Return err => err | Put _ k => returned (k None) end.
End atomic.

(** ** Names of temporary files *)

Lemma from_last_none x : no_slash x = true -> from_last slash x = None.
Proof.
  unfold no_slash. induction x as [|c x IH]; simpl; [done|].
  intros [Hc%negb_true_iff Hx]%andb_true_iff. by rewrite (IH Hx), Hc.
Qed.

Lemma from_last_app s x : no_slash x = true -> from_last slash (s +:+ String slash x) = Some (String slash x).
Proof.
  intros Hx. induction s as [|c s IH]; cbn [String.append from_last]; [|by rewrite IH].
  rewrite (from_last_none _ Hx). by rewrite Ascii.eqb_refl.
Qed.

Lemma trim_slashes_app s x : x <> "" -> trim_slashes x = x -> trim_slashes (s +:+ x) = s +:+ x.
Proof.
  intros Hne Hx. induction s as [|c s IH]; [done|]. cbn [String.append trim_slashes]. rewrite IH.
  destruct s as [|d s]; simpl; [|done]. by destruct x.
Qed.

Lemma trim_slashes_id x : no_slash x = true -> trim_slashes x = x.
Proof.
  unfold no_slash. induction x as [|c x IH]; simpl; [done|].
  intros [Hc%negb_true_iff Hx]%andb_true_iff. rewrite (IH Hx). destruct x; [by rewrite Hc|done].
Qed.

Lemma Base_file d x : x <> "" -> no_slash x = true -> Base (d +:+ "/" +:+ x) = x.
Proof.
  intros Hne Hx. unfold Base. change ("/" +:+ x) with (String slash x).
  destruct (String.eqb_spec (d +:+ String slash x) "") as [He|_]; [by destruct d|].
  change (String slash x) with ("/" +:+ x) at 1. rewrite <- str_app_assoc.
  rewrite trim_slashes_app by auto using trim_slashes_id. rewrite str_app_assoc. change ("/" +:+ x) with (String slash x).
  assert (after_last slash (d +:+ String slash x) = x) as Ha
    by (unfold after_last; rewrite (from_last_app _ _ Hx); simpl; by destruct x).
  destruct (d +:+ String slash x) as [|c t] eqn:E; [by destruct d|done].
Qed.

Lemma temp_not_path path r : no_slash (("." +:+ Base path +:+ ".tmp-") +:+ r +:+ "") = true ->
  temp_name (Dir path) ("." +:+ Base path +:+ ".tmp-") r "" <> path.
Proof.
  set (x := _ +:+ r +:+ ""). intros Hx He.
  assert (exists d, temp_name (Dir path) ("." +:+ Base path +:+ ".tmp-") r "" = d +:+ "/" +:+ x) as [d Hd].
  { unfold temp_name. fold x. destruct (HasSuffix (Dir path) "/") eqn:Hs.
    - apply HasSuffix_spec in Hs as [t Ht]. exists t. rewrite Ht. by rewrite str_app_assoc.
    - exists (Dir path). by rewrite str_app_assoc. }
  assert (Base path = x) as Hb by (rewrite <- He, Hd; apply Base_file; [done|done]).
  assert (len x = len (Base path)) as Hl by (by rewrite Hb). unfold x in Hl. rewrite !str_len_app in Hl. simpl in Hl. lia.
Qed.

(** ** An atomic write *)

Section atomic_laws.
Context {S : Type} `{FileSystemLaws S}.

(** The names a write to [path] may use for its temporary file. *)
Definition is_temp (path q : string) : Prop :=
  exists r, no_slash (("." +:+ Base path +:+ ".tmp-") +:+ r +:+ "") = true /\
    q = temp_name (Dir path) ("." +:+ Base path +:+ ".tmp-") r "".

(** What a reader may see while [data] is being written to [path]. *)
Definition atomic_state (path data : string) (s t : S) : Prop :=
  (content t path = content s path \/ content t path = Some data) /\
  forall q, q <> path -> content t q = content s q \/ is_temp path q /\ content s q = None.

(** Only the temporary file [tmp] differs from [s]. *)
Record with_temp (path tmp : string) (s t : S) : Prop := {
  wt_name : is_temp path tmp; wt_path : tmp <> path; wt_new : content s tmp = None;
  wt_rest : changed tmp s t }.

Lemma with_temp_atomic path data tmp s t : with_temp path tmp s t -> atomic_state path data s t.
Proof.
  intros []. split; [left; by apply wt_rest0|]. intros q Hq.
  destruct (decide (q = tmp)) as [->|Hne]; [by right|left; by apply wt_rest0].
Qed.

Lemma with_temp_step path tmp s t t' : changed tmp t t' -> with_temp path tmp s t -> with_temp path tmp s t'.
Proof. intros Ht []. split; try done. intros q Hq. rewrite Ht by done. by apply wt_rest0. Qed.

Lemma same_changed f s t : same s t -> changed f s t.
Proof. intros Hs q _. apply Hs. Qed.

Lemma removed_changed f s t : removed (eq f) s t -> changed f s t.
Proof. intros Hr q Hq. by destruct (Hr q) as [|[<- _]]. Qed.

(** A call that touches the temporary file at most. *)
Lemma wp_temp {A} (m : io S A) path data tmp s t (I : S -> Prop) (Q : A -> S -> Prop) :
  with_temp path tmp s t -> (forall u, I u -> changed tmp t u) -> (forall a u, Q a u -> changed tmp t u) ->
  wp m I Q t ->
  wp m (atomic_state path data s) (fun a u => atomic_state path data s u /\ (with_temp path tmp s u /\ Q a u)) t.
Proof.
  intros Ht Hi Hq Hm. eapply wp_mono; [exact Hm| |].
  - intros u Hu. eapply with_temp_atomic, with_temp_step; [by apply Hi|done].
  - intros a u Hu. assert (with_temp path tmp s u) by (by eapply with_temp_step; [eapply Hq|]).
    split_and!; [by eapply with_temp_atomic|done..].
Qed.

Lemma wp_cleanup path data tmp s t : with_temp path tmp s t ->
  forall Q : S -> Prop, (forall u, with_temp path tmp s u -> Q u) ->
  wp (cleanup tmp) (atomic_state path data s) (fun _ => Q) t.
Proof.
  intros Ht Q HQ. unfold cleanup. apply wp_bind.
  eapply wp_mono; [eapply (wp_temp _ _ _ _ _ _ _ _ Ht); [| |apply law_Close]; intros; by eapply same_changed|done|].
  intros _ u [Hu [Hwt _]]. split; [done|]. apply wp_bind.
  eapply wp_mono; [eapply (wp_temp _ _ _ _ _ _ _ _ Hwt); [| |apply law_Remove]|done|].
  - intros w Hw. by apply removed_changed.
  - intros r w [Hw _]. by apply removed_changed.
  - intros r w [Hw [Hwt' _]]. split; [done|]. apply wp_ret. by apply HQ.
Qed.

(** The rest of an error path: clean up and return the error. *)
Lemma wp_fail {A} path data tmp s t (e : write_error) (m : io S A) (N : S -> Prop) :
  (forall Q : S -> Prop, (forall u, with_temp path tmp s u -> Q u) ->
     wp m (atomic_state path data s) (fun _ => Q) t) ->
  wp (m ≫= fun _ => mret (Some e)) (atomic_state path data s)
    (fun err u => atomic_state path data s u /\
       match err with None => N u | Some _ => content u path = content s path end) t.
Proof.
  intros Hm. apply wp_bind. eapply (wp_mono _ _ _ _ _ _ (Hm _ (fun u Hu => Hu))); [done|]. intros _ u Hu. split; [by eapply with_temp_atomic|]. apply wp_ret.
  split; [by eapply with_temp_atomic|]. destruct Hu. by apply wt_rest0.
Qed.

Lemma wp_remove path data tmp s t : with_temp path tmp s t ->
  forall Q : S -> Prop, (forall u, with_temp path tmp s u -> Q u) ->
  wp (Remove tmp) (atomic_state path data s) (fun _ => Q) t.
Proof.
  intros Ht Q HQ. eapply wp_mono; [eapply (wp_temp _ _ _ _ _ _ _ _ Ht); [| |apply law_Remove]|done|].
  - intros w Hw. by apply removed_changed.
  - intros r w [Hw _]. by apply removed_changed.
  - intros r w [_ [Hwt' _]]. by apply HQ.
Qed.

Ltac temp_step Hwt law :=
  apply wp_bind; eapply wp_mono;
    [eapply (wp_temp _ _ _ _ _ _ _ _ Hwt); [| |exact law]; simpl; intros; first [by eapply same_changed|tauto]|done|].

(** A payload that touches the temporary file only, and leaves [data] in it when it
    reports no error, which it does only if [P]. *)
Definition payload_ok (data : string) (P : Prop) (payload : string -> io S (option os_err)) : Prop :=
  forall tmp t, content t tmp = Some "" ->
    wp (payload tmp) (changed tmp t) (fun r u => changed tmp t u /\ (r = None -> content u tmp = Some data /\ P)) t.

(** At every moment a reader finds the old contents or all of the new ones, and
    no other file is touched but a temporary one; success means the new
    contents and no temporary file, an error the old contents. *)
Lemma writeAtomic_spec path data P perm payload s : payload_ok data P payload ->
  wp (writeAtomic path perm payload) (atomic_state path data s)
    (fun err t => atomic_state path data s t /\
       match err with
       | None => (content t path = Some data /\ changed path s t) /\ P
       | Some _ => content t path = content s path
       end) s.
Proof.
  intros Hpay. unfold writeAtomic. apply wp_bind. eapply wp_mono; [apply law_CreateTemp| |].
  { intros t Ht. split.
    - left. destruct (Ht path) as [|[(r & Hr & Hp) Hn]]; [done|]. symmetry in Hp. by apply temp_not_path in Hp.
    - intros q _. destruct (Ht q) as [|[Hq ?]]; [by left|by right]. }
  intros [tmp|e] t Ht.
  2:{ assert (atomic_state path data s t) as Ha by (split; [left|left]; apply Ht).
      split; [done|]. apply wp_ret. split; [done|apply Ht]. }
  destruct Ht as (r & Hr & Hn & Hs & Hc & Hch).
  assert (with_temp path tmp s t) as Hwt.
  { split; [by exists r|rewrite Hn; by apply temp_not_path|done|done]. }
  split; [by eapply with_temp_atomic|].
  temp_step Hwt (law_Chmod tmp perm t). intros err u1 (Ha1 & Hwt1 & Hs1). split; [done|].
  destruct err; [eapply wp_fail; by apply wp_cleanup|].
  temp_step Hwt1 (Hpay tmp u1 ltac:(by rewrite Hs1)). intros err u2 (Ha2 & Hwt2 & Hs2 & Hw). split; [done|].
  destruct err; [eapply wp_fail; by apply wp_cleanup|].
  destruct (Hw eq_refl) as [Hwd HP].
  temp_step Hwt2 (law_Sync tmp u2). intros err u3 (Ha3 & Hwt3 & Hs3). split; [done|].
  destruct err; [eapply wp_fail; by apply wp_cleanup|].
  temp_step Hwt3 (law_Close tmp u3). intros err u4 (Ha4 & Hwt4 & Hs4). split; [done|].
  destruct err; [eapply wp_fail; by apply wp_remove|].
  assert (content u4 tmp = Some data) as Hd by (by rewrite Hs4, Hs3, Hwd).
  assert (forall u, renamed tmp path u4 u -> atomic_state path data s u /\ content u path = Some data /\ changed path s u) as Hren.
  { intros u (Hp & Ht & Hq). rewrite Hd in Hp. destruct Hwt4.
    assert (changed path s u) as Hch'.
    { intros q Hne. destruct (decide (q = tmp)) as [->|Hne']; [congruence|]. rewrite Hq by done. by apply wt_rest0. }
    split_and!; [|done..]. split; [by right|]. intros q Hne. left. by apply Hch'. }
  assert (forall u, same u4 u -> with_temp path tmp s u) as Hsame
    by (intros u Hu; eapply with_temp_step; [by eapply same_changed|done]).
  apply wp_bind. eapply wp_mono; [apply law_Rename| |].
  - intros u [Hu|Hu]; [by eapply with_temp_atomic, Hsame|by apply Hren].
  - intros [e|] u Hu; (split; [|]); [by eapply with_temp_atomic, Hsame| |by apply Hren|apply wp_ret; destruct (Hren u Hu) as (? & ? & ?); by split_and!].
    eapply wp_fail. apply wp_remove. by apply Hsame.
Qed.
Lemma WriteFileAtomic_spec path data perm s :
  wp (WriteFileAtomic path data perm) (atomic_state path data s)
    (fun err t => atomic_state path data s t /\
       match err with None => content t path = Some data /\ changed path s t | Some _ => content t path = content s path end) s.
Proof.
  eapply wp_mono; [apply (writeAtomic_spec path data True)|done|by intros [] t; naive_solver]. intros tmp t Ht.
  eapply wp_mono; [apply law_Write|done|]. intros r u [Hc Hw]. split; [done|]. intros Hr. split; [exact (Hw Hr "" Ht)|done].
Qed.

(** *** The buffered writer *)

(** The file followed by the buffer is [acc], until there is an error. *)
Definition buf_ok (f acc : string) (b : bufw) (t : S) : Prop :=
  b_err b = None -> exists old, content t f = Some old /\ old +:+ b_buf b = acc /\ (len (b_buf b) <= bufSize)%nat.

Lemma changed_refl f (s : S) : changed f s s.
Proof. by intros q. Qed.

Lemma changed_trans f (s t u : S) : changed f s t -> changed f t u -> changed f s u.
Proof. intros H1 H2 q Hq. by rewrite H2, H1. Qed.

Lemma wp_from {A} (m : io S A) f s t Q : changed f s t ->
  wp m (changed f t) (fun a u => changed f t u /\ Q a u) t -> wp m (changed f s) (fun a u => changed f s u /\ Q a u) t.
Proof.
  intros Hst Hm. eapply wp_mono; [exact Hm| |].
  - intros u. by apply changed_trans.
  - intros a u [Hu HQ]. split; [by eapply changed_trans|done].
Qed.

Lemma wp_ret_here {A} (a : A) f (s : S) (Q : A -> S -> Prop) : Q a s -> wp (mret a) (changed f s) (fun a u => changed f s u /\ Q a u) s.
Proof. intros HQ. apply wp_ret. split; [apply changed_refl|done]. Qed.

(** One call, and then the rest. *)
Lemma wp_then {A B} (m : io S A) (k : A -> io S B) f (s : S) (P : A -> S -> Prop) Q :
  wp m (changed f s) (fun a u => changed f s u /\ P a u) s ->
  (forall a u, P a u -> wp (k a) (changed f u) (fun b w => changed f u w /\ Q b w) u) ->
  wp (m ≫= k) (changed f s) (fun b w => changed f s w /\ Q b w) s.
Proof.
  intros Hm Hk. apply wp_bind. eapply wp_mono; [exact Hm|done|]. intros a u [Hu HP]. split; [done|].
  by apply wp_from; [|apply Hk].
Qed.

Lemma Flush_spec f acc b t : buf_ok f acc b t ->
  wp (Flush f b) (changed f t) (fun r u => changed f t u /\
    (buf_ok f acc r.1 u /\ r.2 = b_err r.1 /\ (b_err r.1 = None -> b_buf r.1 = "" /\ b_err b = None))) t.
Proof.
  intros Hb. unfold Flush. destruct (b_err b) as [e|] eqn:He; [apply wp_ret_here; simpl; by rewrite He|].
  destruct (String.eqb_spec (b_buf b) "") as [Hz|Hnz]; [apply wp_ret_here; simpl; by rewrite He|].
  eapply wp_then; [apply law_Write|]. intros [e|] u Hw; apply wp_ret_here; simpl; [by split|].
  destruct (Hb He) as (old & Hold & Hacc & Hlen). split_and!; try done. intros _. exists acc.
  rewrite (Hw eq_refl old Hold), Hacc. split_and!; [done|apply str_app_nil_r|simpl; lia].
Qed.

(** The rounds the loop needs. *)
Definition fill_rounds (p : string) (b : bufw) : nat :=
  if (len p <=? Available b)%nat then O else if (b_buf b =? "")%string then 1%nat else 2%nat.

Lemma bw_fill_spec fuel f : forall acc p b t, buf_ok f acc b t -> (fill_rounds p b <= fuel)%nat ->
  wp (bw_fill fuel f p b) (changed f t) (fun r u => changed f t u /\
    (b_err r.2 = None -> exists acc', buf_ok f acc' r.2 u /\ acc' +:+ r.1 = acc +:+ p /\ (len r.1 <= Available r.2)%nat)) t.
Proof.
  induction fuel as [|fuel IH]; intros acc p b t Hb Hr; unfold fill_rounds in Hr; cbn [bw_fill];
    (destruct (b_err b) as [e|] eqn:He; [apply wp_ret_here; simpl; by rewrite He|]);
    (destruct (Nat.leb_spec (len p) (Available b)) as [Hfit|Hbig]; [apply wp_ret_here; simpl; eauto|]);
    [destruct (b_buf b =? "")%string; lia|].
  destruct (Hb He) as (old & Hold & Hacc & Hlen). destruct (String.eqb_spec (b_buf b) "") as [Hz|Hnz].
  - eapply wp_then; [apply law_Write|]. intros [e|] u Hw; [by apply wp_ret_here|].
    eapply wp_mono; [apply (IH (acc +:+ p) "" b u)|done|].
    + intros _. exists (old +:+ p). rewrite (Hw eq_refl old Hold). rewrite Hz, str_app_nil_r in *. by subst acc.
    + unfold fill_rounds. simpl. lia.
    + intros r w [Hcw Hq]. split; [done|]. intros Hn. destruct (Hq Hn) as (acc' & Hok & Heq & Hle).
      exists acc'. by rewrite Heq, str_app_nil_r.
  - set (n := Available b). eapply wp_then; [apply (Flush_spec f (acc +:+ str_take n p))|].
    + intros _. exists old. split_and!; [done|cbn [b_buf]; by rewrite <- str_app_assoc, Hacc|]. simpl. rewrite str_len_app.
      rewrite str_len_take. unfold n, Available. lia.
    + intros r u (Hok & _ & Hempty). destruct (b_err r.1) as [e|] eqn:He'.
      { destruct fuel; cbn [bw_fill]; rewrite He'; apply wp_ret_here; simpl; by rewrite He'. }
      destruct (Hempty eq_refl) as [Hemp _]. eapply wp_mono; [apply (IH _ (str_drop n p) r.1 u Hok)|done|].
      * unfold fill_rounds. rewrite Hemp. simpl. destruct (_ <=? _)%nat; lia.
      * intros r' w [Hcw Hq]. split; [done|]. intros Hn. destruct (Hq Hn) as (acc' & Hok' & Heq & Hle).
        exists acc'. by rewrite Heq, str_app_assoc, str_take_drop.
Qed.

Lemma bw_fill_fits p b : (fill_rounds p b <= 2)%nat.
Proof. unfold fill_rounds. destruct (len p <=? Available b)%nat, (b_buf b =? "")%string; lia. Qed.

Lemma bw_Write_spec f acc p b t : buf_ok f acc b t ->
  wp (bw_Write f p b) (changed f t) (fun r u => changed f t u /\ (buf_ok f (acc +:+ p) r.1 u /\ r.2 = b_err r.1)) t.
Proof.
  intros Hb. unfold bw_Write. eapply wp_then; [apply (bw_fill_spec 2 f acc p b t Hb (bw_fill_fits p b))|].
  intros [q b'] u Hq. simpl in Hq. destruct (b_err b') as [e|] eqn:He; apply wp_ret_here; simpl; [split; [intros Hn; congruence|done]|].
  destruct (Hq eq_refl) as (acc' & Hok & Heq & Hle). destruct (Hok He) as (old & Hold & Hacc & Hlen).
  split; [|done]. intros _. exists old. rewrite <- Heq, <- Hacc, str_app_assoc. split_and!; try done. simpl.
  rewrite str_len_app. unfold Available in Hle. lia.
Qed.

Lemma bw_Write_sticks f p b t e : b_err b = Some e ->
  wp (bw_Write f p b) (changed f t) (fun r u => changed f t u /\ b_err r.1 = Some e) t.
Proof.
  intros He. unfold bw_Write. eapply (wp_then _ _ _ _ (fun r _ => r.2 = b)).
  - cbn [bw_fill]. rewrite He. by apply wp_ret_here.
  - intros [q b'] u Hb. simpl in Hb. subst b'. rewrite He. by apply wp_ret_here.
Qed.

Lemma run_stream_sticks f w e : forall b t, b_err b = Some e ->
  wp (run_stream w f b) (changed f t) (fun r u => changed f t u /\ b_err r.1 = Some e) t.
Proof.
  induction w as [err|p k IH]; intros b t Hb; cbn [run_stream]; [by apply wp_ret_here|].
  eapply wp_then; [by apply bw_Write_sticks|]. intros r u He. by apply IH.
Qed.

Lemma run_stream_spec f w : forall acc b t, buf_ok f acc b t ->
  wp (run_stream w f b) (changed f t) (fun r u => changed f t u /\
    (buf_ok f (acc +:+ produced w) r.1 u /\ (b_err r.1 = None -> r.2 = returned w))) t.
Proof.
  induction w as [err|p k IH]; intros acc b t Hb; cbn [run_stream produced].
  - apply wp_ret_here. rewrite str_app_nil_r. by split.
  - eapply wp_then; [by apply bw_Write_spec|]. intros r u [Hok Hr]. cbn [returned]. rewrite <- str_app_assoc.
    destruct r.2 as [e|] eqn:He; [|by apply IH].
    eapply wp_mono; [apply run_stream_sticks; by rewrite <- Hr|done|]. intros r' w' [Hc He']. split; [done|].
    split; [intros Hn|]; congruence.
Qed.

(** What a successful stream leaves in the file is what its callback writes when
    no write fails, whatever the callback does with the errors it is told of. *)
Lemma stream_payload write : payload_ok (produced write) (returned write = None) (fun f =>
  r ← run_stream write f NewWriter;
  match r.2 with
  | Some e => mret (Some e)
  | None => r ← Flush f r.1; mret r.2
  end).
Proof.
  intros tmp t Ht. eapply wp_then; [apply (run_stream_spec tmp write "")|].
  { intros _. exists "". split_and!; [done..|]. simpl. lia. }
  intros r u [Hok Hret]. destruct r.2 as [e|] eqn:He; [by apply wp_ret_here|].
  eapply wp_then; [exact (Flush_spec tmp (produced write) r.1 u Hok)|]. intros r' w (Hok' & Hr & Hempty).
  apply wp_ret_here. intros Hn. rewrite Hr in Hn. destruct (Hok' Hn) as (old & Hold & Hacc & _), (Hempty Hn) as [Hemp Hfirst].
  rewrite Hemp, str_app_nil_r in Hacc. rewrite Hold, Hacc. split; [done|]. by rewrite <- Hret.
Qed.

(** C29. Atomic writes over any operating system that keeps its documented contract,
    whichever of its calls fail: at every moment, and so after a crash at any moment,
    the file holds its old contents or all of the new ones, and no other file is
    touched but temporary ones; success means the new contents, and an error the old
    ones. For the streaming form the new contents are the concatenation of what the
    callback writes, through a buffer of 4096 bytes flushed by the helper: success is
    only reported when every write reached the file and the callback itself
    succeeded, even if the callback ignores the errors of its writes. *)
Theorem atomic_writes path perm data write s :
  wp (WriteFileAtomic path data perm) (atomic_state path data s)
    (fun err t => atomic_state path data s t /\
       match err with None => content t path = Some data /\ changed path s t | Some _ => content t path = content s path end) s /\
  wp (WriteFileAtomicStream path perm write) (atomic_state path (produced write) s)
    (fun err t => atomic_state path (produced write) s t /\
       match err with
       | None => (content t path = Some (produced write) /\ changed path s t) /\ returned write = None
       | Some _ => content t path = content s path
       end) s.
Proof. split; [apply WriteFileAtomic_spec|]. apply writeAtomic_spec, stream_payload. Qed.
End atomic_laws.

(** ** A file system in memory whose calls fail as a list says *)

Section disk.
Definition disk : Type := gmap string string * list bool.

Definition call {A} (failed : A) (f : gmap string string -> A * gmap string string) : io disk A :=
  fun s => match s with
  | (m, true :: o) => ([], (failed, (m, o)))
  | (m, _ :: o) => ([], ((f m).1, ((f m).2, o)))
  | (m, []) => ([], ((f m).1, ((f m).2, [])))
  end.

Definition under_b (p q : string) : bool := (q =? p)%string || HasPrefix q (p +:+ "/").
Definition io_error : os_err := OtherErr "input/output error".

#[export] Instance disk_fs : FileSystem disk := {
  content s q := s.1 !! q;
  MkdirAll _ := call (Some io_error) (fun m => (None, m));
  ReadFile p := call (Err io_error) (fun m => (match m !! p with Some d => Ok d | None => Err NotExist end, m));
  RemoveAll p := call (Some io_error) (fun m => (None, filter (fun kv => under_b p kv.1 = false) m));
  Remove p := call (Some io_error) (fun m => (match m !! p with Some _ => None | None => Some NotExist end, delete p m));
  CreateTemp dir pre suf := call (Err io_error) (fun m =>
    let f := temp_name dir pre "1" suf in
    if no_slash (pre +:+ "1" +:+ suf) then
      match m !! f with Some _ => (Err io_error, m) | None => (Ok f, <[f := ""]> m) end
    else (Err io_error, m));
  Write f data := call (Some io_error) (fun m =>
    (None, match m !! f with Some old => <[f := old +:+ data]> m | None => m end));
  Chmod _ _ := call (Some io_error) (fun m => (None, m));
  Sync _ := call (Some io_error) (fun m => (None, m));
  CloseFile _ := call (Some io_error) (fun m => (None, m));
  Rename a b := call (Some io_error) (fun m =>
    match m !! a with Some d => if decide (a = b) then (Some io_error, m) else (None, <[b := d]> (delete a m)) | None => (Some NotExist, m) end) }.

Lemma under_b_spec p q : under_b p q = true <-> under p q.
Proof.
  unfold under_b, under. rewrite orb_true_iff, String.eqb_eq, HasPrefix_spec. setoid_rewrite str_app_assoc. done.
Qed.

Lemma wp_call {A} (failed : A) f (I : disk -> Prop) (Q : A -> disk -> Prop) m o :
  (forall o, Q failed (m, o)) -> (forall o, Q (f m).1 ((f m).2, o)) -> wp (call failed f) I Q (m, o).
Proof. intros Hf Ho. destruct o as [|[|] o]; split; simpl; try constructor; auto. Qed.

#[export] Instance disk_laws : FileSystemLaws disk.
Proof.
  split; intros; (match goal with s : disk |- _ => destruct s as [m o] end; apply wp_call; intros o'; simpl); try done.
  - split; [done|]. by destruct (m !! p) eqn:E.
  - split; [by left|done].
  - assert (forall q, filter (fun kv => under_b p kv.1 = false) m !! q = if under_b p q then None else m !! q) as Hf.
    { intros q. destruct (under_b p q) eqn:E.
      - apply map_lookup_filter_None. right. intros x _. simpl. by rewrite E.
      - destruct (m !! q) eqn:Em; [by apply map_lookup_filter_Some|apply map_lookup_filter_None; by left]. }
    split.
    + intros q. simpl. rewrite Hf. destruct (under_b p q) eqn:E; [right; by rewrite <- under_b_spec|by left].
    + intros _ q Hq%under_b_spec. rewrite Hf. by rewrite Hq.
  - split; [by left|done].
  - split.
    + intros q. simpl. destruct (decide (q = p)) as [->|Hne]; [right; by rewrite lookup_delete_eq|left; by rewrite lookup_delete_ne].
    + destruct (m !! p); by rewrite lookup_delete_eq.
  - destruct (no_slash (pre +:+ String "1" suf)) eqn:E; simpl; [|done].
    destruct (m !! temp_name dir pre "1" suf) eqn:Em; simpl; [done|]. exists "1". split_and!; [done..| |].
    + by rewrite lookup_insert_eq.
    + intros q Hq. simpl. by rewrite lookup_insert_ne.
  - split.
    + intros q Hq. simpl. destruct (m !! f); [by rewrite lookup_insert_ne|done].
    + intros _ old Hold. rewrite Hold. by rewrite lookup_insert_eq.
  - destruct (m !! a) eqn:Ea; simpl; [|done]. case_decide as Hab; simpl; [done|]. split_and!.
    + simpl. by rewrite lookup_insert_eq, Ea.
    + simpl. by rewrite lookup_insert_ne, lookup_delete_eq.
    + intros q Hqa Hqb. simpl. by rewrite lookup_insert_ne, lookup_delete_ne.
Qed.
End disk.


(** A callback that writes a short text and then a long one, and ignores errors: the
    long one fills the buffer first. *)
Definition long (n : nat) : string := Nat.iter n (fun s => String "x" s) "".
Definition demo_stream : stream := Put "head" (fun _ => Put (long 5000) (fun _ => Put "tail" (fun _ => Return None))).

Lemma atomic_writes_witness :
  wp (WriteFileAtomicStream "/d/f" 420 demo_stream) (atomic_state "/d/f" (produced demo_stream) ({["/d/f" := "old"]}, []))
    (fun err t => atomic_state "/d/f" (produced demo_stream) ({["/d/f" := "old"]}, []) t /\
       match err with
       | None => (content t "/d/f" = Some (produced demo_stream) /\ changed "/d/f" ({["/d/f" := "old"]}, []) t) /\ returned demo_stream = None
       | Some _ => content t "/d/f" = content (({["/d/f" := "old"]}, []) : disk) "/d/f"
       end) (({["/d/f" := "old"]}, []) : disk) /\
  (WriteFileAtomicStream "/d/f" 420 demo_stream (({["/d/f" := "old"]}, []) : disk)).2.1 = None /\
  (* the flush on the way fails, the callback does not care, and the write is undone *)
  (WriteFileAtomicStream "/d/f" 420 demo_stream (({["/d/f" := "old"]}, [false; false; true]) : disk)).2.1 =
    Some (WriteTemp io_error).
Proof.
  split; [exact (proj2 (atomic_writes (S := disk) "/d/f" 420 "" demo_stream ({["/d/f" := "old"]}, [])))|].
  split; vm_compute; reflexivity.
Defined.
