(* ===== verification/Cache.v ===== *)
(** [internal/cacheutil]: the cache directory whose entries are invalidated when a
    schema token changes, and the paths of its entries, over the operating system
    and the atomic writes of [AtomicFile]. *)
From S2P Require Import Prelude GoStrings GoPath PathLaws AtomicFile.

(** ** cacheutil/sharded.go *)

(** [filepath.Join] *)
Fixpoint JoinAll (elem : list string) : string :=
  match elem with
  | [] => ""
  | e :: l => if (e =? "")%string then JoinAll l else Clean (Join elem "/")
  end.

Definition ShardedEntryPath (root hash ext : string) : string :=
  if (len hash <? 3)%nat then JoinAll [root; "_"; hash +:+ ext]
  else JoinAll [root; str_take 2 hash; str_drop 2 hash +:+ ext].

(** ** cacheutil/zstd_gob.go

    The two codecs are those of [encoding/gob] and of the zstd package: parameters,
    with what their documentation promises. *)
Section zstd_gob.
Context {A error : Type}.
Context (gob_Encode : A -> result error string) (gob_Decode : string -> result error A).
Context (EncodeAll : string -> string) (DecodeAll : string -> result error string).

Definition EncodeZstdGob (v : A) : result error string :=
  match gob_Encode v with
  | Err e => Err e
  | Ok raw => Ok (EncodeAll raw)
  end.

(** [init] makes the shared encoder and decoder, or panics. *)
Context {Encoder Decoder : Type} (NewWriter : result error Encoder) (NewReader : result error Decoder).

Inductive init_panic := EncoderPanic (e : error) | DecoderPanic (e : error).

Definition init : result init_panic (Encoder * Decoder) :=
  match NewWriter with
  | Err e => Err (EncoderPanic e)
  | Ok enc =>
    match NewReader with
    | Err e => Err (DecoderPanic e)
    | Ok dec => Ok (enc, dec)
    end
  end.

(** [r] is what [io.ReadAll] returns of the reader. *)
Definition DecodeZstdGob (r : result error string) : result error A :=
  match r with
  | Err e => Err e
  | Ok compressed =>
    match DecodeAll compressed with
    | Err e => Err e
    | Ok raw => gob_Decode raw
    end
  end.

Definition IsZstdFrame (b : string) : bool :=
  match b with
  | String b0 (String b1 (String b2 (String b3 _))) =>
    (byteZ b0 =? 40)%Z && (byteZ b1 =? 181)%Z && (byteZ b2 =? 47)%Z && (byteZ b3 =? 253)%Z
  | _ => false
  end.

(** A payload is read back, and starts with the magic number, given that each codec
    reads its own output and that a frame starts with its magic number. *)
Lemma zstd_gob_roundtrip v raw :
  gob_Encode v = Ok raw -> gob_Decode raw = Ok v -> DecodeAll (EncodeAll raw) = Ok raw ->
  IsZstdFrame (EncodeAll raw) = true ->
  exists b, EncodeZstdGob v = Ok b /\ IsZstdFrame b = true /\ DecodeZstdGob (Ok b) = Ok v.
Proof.
  intros He Hd Hz Hm. exists (EncodeAll raw). unfold EncodeZstdGob, DecodeZstdGob. by rewrite He, Hz, Hd.
Qed.
End zstd_gob.

(** ** cacheutil/versioned_dir.go *)

Record SchemaToken := mkToken { t_Name : string; t_Value : string }.

Record VersionedDir := mkDir {
  Root : string; EntriesDir : string; ExtraDirs : list string; ExtraFiles : list string;
  Tokens : list SchemaToken }.

Inductive cache_error :=
| EMkdir (e : os_err) | EReadSidecar (name : string) (e : os_err) | ERemoveEntries (e : os_err)
| EMkdirAfter (e : os_err) | EExtraDir (name : string) (e : os_err) | EExtraFile (name : string) (e : os_err)
| ESidecar (name : string) (e : write_error) | EClear (root : string) (e : os_err).

Definition entries_path (v : VersionedDir) : string :=
  JoinAll [Root v; if (EntriesDir v =? "")%string then "entries" else EntriesDir v].
Definition sidecar (v : VersionedDir) (t : SchemaToken) : string := JoinAll [Root v; t_Name t].

Section versioned.
Context {S : Type} `{FileSystem S}.

Fixpoint tokensMismatched (v : VersionedDir) (tokens : list SchemaToken) : io S (result cache_error bool) :=
  match tokens with
  | [] => mret (Ok false)
  | token :: tokens =>
    data ← ReadFile (sidecar v token);
    match data with
    | Err NotExist => tokensMismatched v tokens
    | Err e => mret (Err (EReadSidecar (t_Name token) e))
    | Ok data => if negb (data =? t_Value token)%string then mret (Ok true) else tokensMismatched v tokens
    end
  end.

Fixpoint remove_dirs (v : VersionedDir) (extras : list string) : io S (option cache_error) :=
  match extras with
  | [] => mret None
  | extra :: extras =>
    if (extra =? "")%string then remove_dirs v extras
    else
      err ← RemoveAll (JoinAll [Root v; extra]);
      match err with Some e => mret (Some (EExtraDir extra e)) | None => remove_dirs v extras end
  end.

Fixpoint remove_files (v : VersionedDir) (extras : list string) : io S (option cache_error) :=
  match extras with
  | [] => mret None
  | extra :: extras =>
    if (extra =? "")%string then remove_files v extras
    else
      err ← Remove (JoinAll [Root v; extra]);
      match err with
      | None | Some NotExist => remove_files v extras
      | Some e => mret (Some (EExtraFile extra e))
      end
  end.

Definition nukeEntries (v : VersionedDir) (entriesPath : string) : io S (option cache_error) :=
  err ← RemoveAll entriesPath;
  match err with
  | Some e => mret (Some (ERemoveEntries e))
  | None =>
    err ← MkdirAll entriesPath;
    match err with
    | Some e => mret (Some (EMkdirAfter e))
    | None =>
      err ← remove_dirs v (ExtraDirs v);
      match err with Some e => mret (Some e) | None => remove_files v (ExtraFiles v) end
    end
  end.

Fixpoint write_sidecars (v : VersionedDir) (tokens : list SchemaToken) : io S (option cache_error) :=
  match tokens with
  | [] => mret None
  | token :: tokens =>
    err ← WriteFileAtomic (sidecar v token) (t_Value token) 420;
    match err with Some e => mret (Some (ESidecar (t_Name token) e)) | None => write_sidecars v tokens end
  end.

Definition Open (v : VersionedDir) : io S (result cache_error string) :=
  let entriesPath := entries_path v in
  err ← MkdirAll entriesPath;
  match err with
  | Some e => mret (Err (EMkdir e))
  | None =>
    nuke ← tokensMismatched v (Tokens v);
    match nuke with
    | Err e => mret (Err e)
    | Ok nuke =>
      err ← (if nuke : bool then nukeEntries v entriesPath else mret None);
      match err with
      | Some e => mret (Err e)
      | None =>
        err ← write_sidecars v (Tokens v);
        match err with Some e => mret (Err e) | None => mret (Ok entriesPath) end
      end
    end
  end.

Definition Clear (v : VersionedDir) : io S (option cache_error) :=
  err ← RemoveAll (Root v);
  match err with
  | None | Some NotExist => mret None
  | Some e => mret (Some (EClear (Root v) e))
  end.
End versioned.

(** ** The cache directory *)

Section versioned_laws.
Context {S : Type} `{FileSystemLaws S} (v : VersionedDir).

(** The files [Open] removes when it finds a token changed. *)
Definition target (q : string) : Prop :=
  under (entries_path v) q \/
  (exists extra, extra ∈ ExtraDirs v /\ extra <> "" /\ under (JoinAll [Root v; extra]) q) \/
  (exists extra, extra ∈ ExtraFiles v /\ extra <> "" /\ q = JoinAll [Root v; extra]).

Definition token_file (q : string) : Prop := exists token, token ∈ Tokens v /\ q = sidecar v token.
Definition temp_file (q : string) : Prop := exists token, token ∈ Tokens v /\ is_temp (sidecar v token) q.

(** The side files are apart from what is removed, and from each other. *)
Record dir_ok : Prop := {
  d_sidecar : forall q, token_file q -> ~ target q /\ ~ temp_file q;
  d_temp : forall q, temp_file q -> ~ target q;
  d_distinct : NoDup (map (sidecar v) (Tokens v)) }.

Definition mismatched (s : S) : Prop :=
  exists token d, token ∈ Tokens v /\ content s (sidecar v token) = Some d /\ d <> t_Value token.
Definition cleared (s : S) : Prop := forall q, target q -> content s q = None.

Lemma removed_refl P (s : S) : removed P s s.
Proof. intros q. by left. Qed.

Lemma removed_trans P (s t u : S) : removed P s t -> removed P t u -> removed P s u.
Proof. intros H1 H2 q. destruct (H2 q) as [->|]; [apply H1|by right]. Qed.

Lemma removed_weaken (P Q : string -> Prop) (s t : S) : (forall q, P q -> Q q) -> removed P s t -> removed Q s t.
Proof. intros HPQ Hr q. destruct (Hr q) as [|[]]; [by left|right; auto]. Qed.

Lemma removed_gone P (s t : S) q : removed P s t -> content s q = None -> content t q = None.
Proof. intros Hr Hs. by destruct (Hr q) as [->|[]]. Qed.

Lemma same_removed P (s t : S) : same s t -> removed P s t.
Proof. intros Hs q. left. apply Hs. Qed.

Lemma same_trans (s t u : S) : same s t -> same t u -> same s u.
Proof. intros H1 H2 q. by rewrite H2. Qed.

Lemma tokensMismatched_spec ts (s u : S) : ts ⊆ Tokens v -> same s u ->
  wp (tokensMismatched v ts) (same s) (fun r t => same s t /\
    match r with
    | Ok true => mismatched s
    | Ok false => forall token d, token ∈ ts -> content s (sidecar v token) = Some d -> d = t_Value token
    | Err _ => True
    end) u.
Proof.
  revert u. induction ts as [|token ts IH]; intros u Hts Hu; cbn [tokensMismatched].
  { apply wp_ret. split; [done|]. by intros ? ? ?%not_elem_of_nil. }
  apply wp_bind. eapply wp_mono; [apply law_ReadFile|intros t Ht; by eapply same_trans|].
  intros r t [Ht Hr]. assert (same s t) as Hst by (by eapply same_trans). split; [done|].
  assert (forall d, r = Ok d -> content s (sidecar v token) = Some d) as Hd by (intros d ->; by rewrite <- Hu).
  assert (r = Err NotExist -> content s (sidecar v token) = None) as Hn by (intros ->; by rewrite <- Hu).
  assert (Hrest : wp (tokensMismatched v ts) (same s) (fun r t => same s t /\
    match r with Ok true => mismatched s
    | Ok false => forall token d, token ∈ ts -> content s (sidecar v token) = Some d -> d = t_Value token
    | Err _ => True end) t) by (apply IH; [set_solver|done]).
  destruct r as [d|[|e]].
  - destruct (String.eqb_spec d (t_Value token)) as [->|Hne]; simpl.
    + eapply wp_mono; [exact Hrest|done|]. intros r w [Hw Hm]. split; [done|]. destruct r as [[|]|]; try done.
      intros tk d [->|Htk]%elem_of_cons Hc; [rewrite (Hd _ eq_refl) in Hc; by simplify_eq|by eapply Hm].
    + apply wp_ret. split; [done|]. exists token, d. split_and!; [apply Hts; by left|by apply Hd|done].
  - eapply wp_mono; [exact Hrest|done|]. intros r w [Hw Hm]. split; [done|]. destruct r as [[|]|]; try done.
    intros tk d [->|Htk]%elem_of_cons Hc; [by rewrite (Hn eq_refl) in Hc|by eapply Hm].
  - apply wp_ret. by split.
Qed.

(** A removal, seen from an earlier state. *)
Lemma wp_removed {A} (m : io S A) (P : string -> Prop) (Q : A -> S -> Prop) (s u : S) :
  removed P s u -> wp m (removed P u) Q u -> wp m (removed P s) Q u.
Proof. intros Hu Hm. eapply wp_mono; [exact Hm|intros t; by apply removed_trans|done]. Qed.

Lemma remove_dirs_spec l (s : S) : l ⊆ ExtraDirs v ->
  wp (remove_dirs v l) (removed target s) (fun r t => removed target s t /\
    (r = None -> forall extra q, extra ∈ l -> extra <> "" -> under (JoinAll [Root v; extra]) q -> content t q = None)) s.
Proof.
  revert s. induction l as [|extra l IH]; intros s Hl; cbn [remove_dirs].
  { apply wp_ret. split; [apply removed_refl|]. by intros _ ? ? ?%not_elem_of_nil. }
  assert (l ⊆ ExtraDirs v /\ extra ∈ ExtraDirs v) as [Hl' Hin] by set_solver.
  destruct (String.eqb_spec extra "") as [->|Hne].
  { eapply wp_mono; [by apply IH|done|]. intros r t [Ht Hc]. split; [done|]. intros Hr e q [->|He]%elem_of_cons; [done|by apply Hc]. }
  apply wp_bind.
  assert (forall t, removed (under (JoinAll [Root v; extra])) s t -> removed target s t) as Hw.
  { intros t. apply removed_weaken. intros q Hq. right; left. by exists extra. }
  eapply wp_mono; [apply law_RemoveAll|exact Hw|]. intros r t [Ht%Hw Hc]. split; [done|].
  destruct r as [e|]; [by apply wp_ret|].
  eapply wp_mono; [apply (wp_removed _ _ _ _ _ Ht), IH, Hl'|done|]. intros r u [Hu Hc']. split; [by eapply removed_trans|].
  intros Hr e q [->|He]%elem_of_cons Hne' Hq; [|by eapply Hc']. eapply removed_gone; [exact Hu|]. by apply Hc.
Qed.

Lemma remove_files_spec l (s : S) : l ⊆ ExtraFiles v ->
  wp (remove_files v l) (removed target s) (fun r t => removed target s t /\
    (r = None -> forall extra, extra ∈ l -> extra <> "" -> content t (JoinAll [Root v; extra]) = None)) s.
Proof.
  revert s. induction l as [|extra l IH]; intros s Hl; cbn [remove_files].
  { apply wp_ret. split; [apply removed_refl|]. by intros _ ? ?%not_elem_of_nil. }
  assert (l ⊆ ExtraFiles v /\ extra ∈ ExtraFiles v) as [Hl' Hin] by set_solver.
  destruct (String.eqb_spec extra "") as [->|Hne].
  { eapply wp_mono; [by apply IH|done|]. intros r t [Ht Hc]. split; [done|]. intros Hr e [->|He]%elem_of_cons; [done|by apply Hc]. }
  apply wp_bind.
  assert (forall t, removed (eq (JoinAll [Root v; extra])) s t -> removed target s t) as Hw.
  { intros t. apply removed_weaken. intros q <-. right; right. by exists extra. }
  eapply wp_mono; [apply law_Remove|exact Hw|]. intros r t [Ht%Hw Hc]. split; [done|].
  assert (content t (JoinAll [Root v; extra]) = None ->
    wp (remove_files v l) (removed target s) (fun r u => removed target s u /\
      (r = None -> forall e, e ∈ extra :: l -> e <> "" -> content u (JoinAll [Root v; e]) = None)) t) as Hrest.
  { intros Hgone. eapply wp_mono; [apply (wp_removed _ _ _ _ _ Ht), IH, Hl'|done|]. intros r' u [Hu Hc'].
    split; [by eapply removed_trans|]. intros Hr e [->|He]%elem_of_cons Hne'; [by eapply removed_gone|by eapply Hc']. }
  destruct r as [[|e]|]; [by apply Hrest| |by apply Hrest]. by apply wp_ret.
Qed.

Lemma nukeEntries_spec (s : S) :
  wp (nukeEntries v (entries_path v)) (removed target s) (fun r t => removed target s t /\ (r = None -> cleared t)) s.
Proof.
  unfold nukeEntries. apply wp_bind.
  assert (forall t, removed (under (entries_path v)) s t -> removed target s t) as Hw
    by (intros t; apply removed_weaken; intros q Hq; by left).
  eapply wp_mono; [apply law_RemoveAll|exact Hw|]. intros r t [Ht%Hw Hc]. split; [done|].
  destruct r as [e|]; [by apply wp_ret|]. specialize (Hc eq_refl). apply wp_bind.
  eapply wp_mono; [apply law_MkdirAll|intros u Hu; eapply removed_trans; [exact Ht|by apply same_removed]|].
  intros r u Hu. assert (removed target s u) as Hsu by (eapply removed_trans; [exact Ht|by apply same_removed]).
  split; [done|]. destruct r as [e|]; [by apply wp_ret|]. apply wp_bind.
  eapply wp_mono; [apply (wp_removed _ _ _ _ _ Hsu), (remove_dirs_spec (ExtraDirs v)); set_solver|done|].
  intros r w [Huw Hd]. assert (removed target s w) as Hsw by (by eapply removed_trans).
  split; [done|]. destruct r as [e|]; [by apply wp_ret|].
  eapply wp_mono; [apply (wp_removed _ _ _ _ _ Hsw), (remove_files_spec (ExtraFiles v)); set_solver|done|].
  intros r x [Hwx Hf]. split; [by eapply removed_trans|]. intros -> q [Hq|[(e & He & Hne & Hq)|(e & He & Hne & ->)]].
  - eapply removed_gone; [exact Hwx|]. eapply removed_gone; [exact Huw|]. rewrite Hu. by apply Hc.
  - eapply removed_gone; [exact Hwx|]. by eapply Hd.
  - by apply Hf.
Qed.

(** What may have happened since [u] while the side files of [ts] are
    written. *)
Definition writing (ts : list SchemaToken) (u t : S) : Prop := forall q,
  content t q = content u q \/
  (exists token, token ∈ ts /\ q = sidecar v token /\ content t q = Some (t_Value token)) \/
  ((exists token, token ∈ ts /\ is_temp (sidecar v token) q) /\ content u q = None).

Lemma atomic_writing token ts u t : atomic_state (sidecar v token) (t_Value token) u t -> writing (token :: ts) u t.
Proof.
  intros [Hp Hq] q. destruct (decide (q = sidecar v token)) as [->|Hne].
  - destruct Hp as [Hp|Hp]; [by left|]. right; left. exists token. split_and!; [by left|done..].
  - destruct (Hq q Hne) as [|[Htmp Hn]]; [by left|]. right; right. split; [|done]. exists token. split; [by left|done].
Qed.

Lemma writing_cons token ts u u1 t : changed (sidecar v token) u u1 ->
  content u1 (sidecar v token) = Some (t_Value token) -> writing ts u1 t -> writing (token :: ts) u t.
Proof.
  intros Hch Hd Hw q. destruct (Hw q) as [He|[(tk & Htk & -> & Hc)|[(tk & Htk & Htmp) Hn]]].
  - destruct (decide (q = sidecar v token)) as [->|Hne]; [|left; by rewrite He, Hch].
    right; left. exists token. split_and!; [by left|done|by rewrite He].
  - right; left. exists tk. split_and!; [by right|done..].
  - right; right. split; [exists tk; split; [by right|done]|].
    rewrite <- Hch; [done|]. intros ->. congruence.
Qed.

Lemma write_sidecars_spec ts (u : S) : NoDup (map (sidecar v) ts) ->
  wp (write_sidecars v ts) (writing ts u) (fun r t => writing ts u t /\
    (r = None -> forall token, token ∈ ts -> content t (sidecar v token) = Some (t_Value token))) u.
Proof.
  revert u. induction ts as [|token ts IH]; intros u Hnd; cbn [write_sidecars].
  { apply wp_ret. split; [by left|]. by intros _ ? ?%not_elem_of_nil. }
  simpl in Hnd. apply NoDup_cons in Hnd as [Hni Hnd].
  apply wp_bind. eapply wp_mono; [apply WriteFileAtomic_spec|intros t; apply atomic_writing|].
  intros r t [Ha Hr]. split; [by apply atomic_writing|]. destruct r as [e|]; [apply wp_ret; split; [by apply atomic_writing|done]|].
  destruct Hr as [Hd Hch].
  eapply wp_mono; [apply IH, Hnd|intros w; by apply writing_cons|]. intros r w [Hw Hall].
  split; [by eapply writing_cons|]. intros Hr tk [->|Htk]%elem_of_cons; [|by apply Hall].
  destruct (Hw (sidecar v token)) as [->|[(tk & Htk & He & _)|[_ Hn]]]; [done| |congruence].
  destruct Hni. rewrite He. apply list_elem_of_fmap. by exists tk.
Qed.

(** What may be seen while the directory found as [s] is opened. *)
Record opening (s t : S) : Prop := {
  o_safe : mismatched s -> mismatched t \/ cleared t;
  o_token : forall token, token ∈ Tokens v ->
    content t (sidecar v token) = content s (sidecar v token) \/
    content t (sidecar v token) = Some (t_Value token);
  o_other : forall q, ~ target q -> ~ token_file q ->
    content t q = content s q \/ temp_file q /\ content s q = None;
  o_keep : ~ mismatched s -> forall q, target q -> content t q = content s q }.

Lemma mismatched_same s t : (forall q, token_file q -> content t q = content s q) -> mismatched s -> mismatched t.
Proof.
  intros Hst (token & d & Hin & Hd & Hne). exists token, d. split_and!; [done| |done]. rewrite Hst; [done|]. by exists token.
Qed.

Lemma same_opening s t : same s t -> opening s t.
Proof.
  intros Hst. split; intros; try (left; by apply Hst); [|apply Hst].
  left. eapply mismatched_same; [|done]. intros q _. apply Hst.
Qed.

Lemma nuking_opening s t : dir_ok -> mismatched s -> removed target s t -> opening s t.
Proof.
  intros [] Hm Hr.
  assert (forall q, ~ target q -> content t q = content s q) as Hkeep by (intros q Hq; by destruct (Hr q) as [|[]]).
  split; try done.
  - intros _. left. eapply mismatched_same; [|done]. intros q Hq. by apply Hkeep, d_sidecar0.
  - intros token Htk. left. apply Hkeep, d_sidecar0. by exists token.
  - intros q Hq _. left. by apply Hkeep.
Qed.

Lemma writing_opening s u t : dir_ok -> (mismatched s -> cleared u) ->
  (forall q, ~ target q -> content u q = content s q) -> (~ mismatched s -> same s u) ->
  writing (Tokens v) u t -> opening s t /\ (mismatched s -> cleared t).
Proof.
  intros [] Hcl Hu Hsame Hw.
  assert (forall q, target q -> content t q = content u q) as Htgt.
  { intros q Hq. destruct (Hw q) as [|[(tk & Htk & -> & _)|[(tk & Htk & Htmp) _]]]; [done| |].
    - destruct (d_sidecar0 (sidecar v tk)) as [Hno _]; [by exists tk|done].
    - destruct (d_temp0 q); [by exists tk|done]. }
  assert (mismatched s -> cleared t) as Hclt by (intros Hm q Hq; rewrite Htgt by done; by apply Hcl).
  split; [|done]. split; auto.
  - intros token Htk. assert (token_file (sidecar v token)) as Htf by (by exists token).
    destruct (d_sidecar0 _ Htf) as [Hnt Hntmp].
    destruct (Hw (sidecar v token)) as [->|[(tk & Htk' & He & Hc)|[(tk & Htk' & Htmp) _]]].
    + left. by apply Hu.
    + right. rewrite Hc. assert (tk = token) as ->; [|done].
      apply list_elem_of_lookup in Htk as [i Hi]. apply list_elem_of_lookup in Htk' as [j Hj].
      assert (i = j) as ->; [|congruence].
      eapply (NoDup_lookup _ _ _ (sidecar v token) d_distinct0); [|rewrite He];
        rewrite list_lookup_fmap; [by rewrite Hi|by rewrite Hj].
    + destruct Hntmp. by exists tk.
  - intros q Hq Hntf. destruct (Hw q) as [->|[(tk & Htk & -> & _)|[Htmp Hn]]].
    + left. by apply Hu.
    + destruct Hntf. by exists tk.
    + right. split; [done|]. by rewrite <- Hu.
  - intros Hm q Hq. rewrite Htgt by done. by apply Hsame.
Qed.

Lemma Open_spec (s : S) : dir_ok ->
  wp (Open v) (opening s) (fun r t => opening s t /\
    match r with
    | Ok p => p = entries_path v /\ (mismatched s -> cleared t) /\
              forall token, token ∈ Tokens v -> content t (sidecar v token) = Some (t_Value token)
    | Err _ => True
    end) s.
Proof.
  intros Hok. unfold Open. apply wp_bind.
  eapply wp_mono; [apply law_MkdirAll|apply same_opening|]. intros r t Hst. split; [by apply same_opening|].
  destruct r as [e|]; [apply wp_ret; split; [by apply same_opening|done]|]. apply wp_bind.
  eapply wp_mono; [by apply (tokensMismatched_spec (Tokens v) s)|apply same_opening|].
  intros r u [Hsu Hm]. split; [by apply same_opening|].
  destruct r as [nuke|e]; [|apply wp_ret; split; [by apply same_opening|done]]. apply wp_bind.
  assert (forall r w, opening s w -> (r = None -> (mismatched s -> cleared w) /\
      (forall q, ~ target q -> content w q = content s q) /\ (~ mismatched s -> same s w)) ->
    opening s w /\ wp (match r with
      | Some e => mret (Err e)
      | None => err ← write_sidecars v (Tokens v);
                match err with Some e => mret (Err e) | None => mret (Ok (entries_path v)) end
      end) (opening s) (fun r t => opening s t /\
      match r with
      | Ok p => p = entries_path v /\ (mismatched s -> cleared t) /\
                forall token, token ∈ Tokens v -> content t (sidecar v token) = Some (t_Value token)
      | Err _ => True
      end) w) as Hrest.
  { intros r w Hw Hr. split; [done|]. destruct r as [e|]; [by apply wp_ret|]. destruct (Hr eq_refl) as (H1 & H2 & H3).
    apply wp_bind. eapply wp_mono; [apply write_sidecars_spec, Hok|intros x Hx; by eapply writing_opening|].
    intros r x [Hx Hall]. destruct (writing_opening s w x) as [Hox Hcx]; [done..|]. split; [done|].
    destruct r as [e|]; apply wp_ret; [by split|]. split_and!; try done. by apply Hall. }
  destruct nuke.
  - eapply wp_mono; [apply (wp_removed _ target _ s u); [by apply same_removed|apply nukeEntries_spec]| |].
    + intros w. by apply nuking_opening.
    + intros r w [Huw Hcl]. assert (removed target s w) as Hsw by (eapply removed_trans; [by apply same_removed|done]).
      apply Hrest; [by apply nuking_opening|]. intros ->. split_and!; [auto| |done].
      intros q Hq. by destruct (Hsw q) as [|[]].
  - apply wp_ret. apply (Hrest None u); [by apply same_opening|]. intros _. split_and!; [|intros q _; apply Hsu|done].
    intros (tk & d & Htk & Hd & []). by eapply Hm.
Qed.


(** A directory in use holds together: after a successful [Open] the next one
    finds no mismatch. *)
Lemma Open_again (s t : S) p : dir_ok -> (Open v s).2 = (Ok p, t) -> ~ mismatched t.
Proof.
  intros Hok Heq (token & d & Hin & Hd & Hne). destruct (Open_spec s Hok) as (_ & _ & Hres).
  rewrite Heq in Hres. destruct Hres as (_ & _ & Hall). simpl in *. rewrite (Hall _ Hin) in Hd. congruence.
Qed.
End versioned_laws.

(** ** An example *)

Definition demo_dir : VersionedDir :=
  mkDir "/c" "" ["blobs"; ""] ["index"] [mkToken "version" "2"; mkToken "grammar" "7"].
Definition old_disk : gmap string string :=
  {["/c/version" := "1"; "/c/grammar" := "7"; "/c/entries/ab/cd.json" := "stale"; "/c/blobs/x" := "b"; "/c/index" := "i"; "/c/notes" := "n"]}.

Lemma demo_dir_ok : dir_ok demo_dir.
Proof.
  assert (forall q, token_file demo_dir q -> q = "/c/version" \/ q = "/c/grammar") as Hfile.
  { intros q (tk & Htk & ->). apply elem_of_cons in Htk as [->|Htk]; [by left|].
    apply elem_of_cons in Htk as [->|Htk]; [by right|by apply not_elem_of_nil in Htk]. }
  assert (forall q, temp_file demo_dir q -> exists r, q = "/c/.version.tmp-" +:+ r \/ q = "/c/.grammar.tmp-" +:+ r) as Htemp.
  { intros q (tk & Htk & r & _ & ->). exists (r +:+ ""). apply elem_of_cons in Htk as [->|Htk]; [by left|].
    apply elem_of_cons in Htk as [->|Htk]; [by right|by apply not_elem_of_nil in Htk]. }
  assert (forall q, target demo_dir q ->
    under_b "/c/entries" q = true \/ under_b "/c/blobs" q = true \/ q = "/c/index") as Htgt.
  { intros q [Hq|[(e & He & Hne & Hq)|(e & He & Hne & ->)]]; [left; by apply under_b_spec| |].
    - right; left. apply elem_of_cons in He as [->|He]; [by apply under_b_spec|].
      by apply elem_of_cons in He as [->|He%not_elem_of_nil].
    - right; right. by apply elem_of_cons in He as [->|He%not_elem_of_nil]. }
  split.
  - intros q Hq%Hfile. split.
    + intros Ht%Htgt. destruct Hq as [-> | ->]; vm_compute in Ht; naive_solver.
    + intros [r Hr]%Htemp. destruct Hq as [-> | ->]; naive_solver.
  - intros q [r Hr]%Htemp Ht%Htgt. destruct Hr as [-> | ->]; destruct Ht as [Ht|[Ht|Ht]]; done.
  - vm_compute. repeat constructor; set_solver.
Qed.


(** ** Sharded paths *)

Section sharded_tests.
Example sharded_t1 : ShardedEntryPath "/c/entries" "abcdef" ".json" = "/c/entries/ab/cdef.json". Proof. reflexivity. Qed.
Example sharded_t2 : ShardedEntryPath "/c/entries" "ab" ".json" = "/c/entries/_/ab.json". Proof. reflexivity. Qed.
End sharded_tests.

Definition plain (c : string) : Prop := c <> ".." /\ comp_ok c.

Lemma path_ok_snoc r cs c : path_ok (r, cs) -> plain c -> path_ok (r, cs ++ [c]).
Proof. unfold path_ok. simpl. rewrite reverse_app. intros Hcs [Hdd Hc]. by split_and!. Qed.

Lemma JoinAll_render r cs a b : path_ok (r, cs) -> cs <> [] -> plain a -> plain b ->
  JoinAll [render (r, cs); a; b] = render (r, (cs ++ [a]) ++ [b]) /\ path_ok (r, (cs ++ [a]) ++ [b]).
Proof.
  intros Hp Hne Ha Hb. assert (path_ok (r, (cs ++ [a]) ++ [b])) as Hok by auto using path_ok_snoc. split; [|done].
  assert (render (r, cs) +:+ "/" +:+ a +:+ "/" +:+ b = render (r, (cs ++ [a]) ++ [b])) as Hr.
  { unfold render. cbn [fst snd]. rewrite Join_snoc by (by destruct cs). rewrite Join_snoc by done.
    destruct r, cs; try done; simpl app; cbn iota; by rewrite !str_app_assoc. }
  unfold JoinAll. destruct (String.eqb_spec (render (r, cs)) "") as [He|_].
  - exfalso. destruct (Join_nonempty cs (path_ok_comps _ _ Hp) Hne) as (d & t & Hj & _).
    unfold render in He. cbn [fst snd] in He. destruct r; [done|]. destruct cs; [done|]. congruence.
  - change (Join [render (r, cs); a; b] "/") with (render (r, cs) +:+ "/" +:+ a +:+ "/" +:+ b).
    rewrite Hr. rewrite Clean_render. f_equal. by apply parse_render.
Qed.

(** A hash as callers make them: hexadecimal digits and the like. *)
Definition hash_ok (h : string) : Prop :=
  h <> "" /\ str_forall (fun c => negb (Ascii.eqb c slash) && negb (Ascii.eqb c dot)) h = true.

Lemma hash_plain h ext : hash_ok h -> no_slash ext = true -> plain (h +:+ ext).
Proof.
  intros [Hne Hh] He. pose proof Hh as Hstr. destruct h as [|c h]; [done|]. simpl in Hh.
  apply andb_true_iff in Hh as [[_ Hc%negb_true_iff]%andb_true_iff Hh].
  assert (c <> dot) as Hcd by (intros ->; by rewrite Ascii.eqb_refl in Hc).
  split; [intros [= -> _]; done|]. split_and!; [done|intros [= -> _]; done|].
  unfold no_slash in *. rewrite str_forall_app, He, andb_true_r.
  eapply str_forall_impl; [|exact Hstr]. by intros x [Hx _]%andb_true_iff.
Qed.

Lemma hash_cut n h : hash_ok h -> (0 < n < len h)%nat -> hash_ok (str_take n h) /\ hash_ok (str_drop n h).
Proof.
  intros [_ Hh] Hn. rewrite <- (str_take_drop n h), str_forall_app in Hh. apply andb_true_iff in Hh as [Ht Hd].
  split; (split; [|done]); intros He.
  - pose proof (str_len_take n h) as Hl. rewrite He in Hl. simpl in Hl. lia.
  - pose proof (str_len_drop n h) as Hl. rewrite He in Hl. simpl in Hl. lia.
Qed.

(** Different hashes never share a file. *)
Lemma sharded_inj r cs ext h1 h2 : path_ok (r, cs) -> cs <> [] -> no_slash ext = true -> hash_ok h1 -> hash_ok h2 ->
  ShardedEntryPath (render (r, cs)) h1 ext = ShardedEntryPath (render (r, cs)) h2 ext -> h1 = h2.
Proof.
  intros Hp Hne Hext.
  assert (forall h, hash_ok h -> exists a b, hash_ok b /\ plain a /\ plain (b +:+ ext) /\
    ShardedEntryPath (render (r, cs)) h ext = JoinAll [render (r, cs); a; b +:+ ext] /\
    (a = "_" /\ b = h \/ len a = 2%nat /\ h = a +:+ b)) as Hcase.
  { intros h Hh. unfold ShardedEntryPath. destruct (Nat.ltb_spec (len h) 3) as [Hl|Hl].
    - exists "_", h. split_and!; try done; [by apply hash_plain|by left].
    - destruct (hash_cut 2 h Hh) as [Ha Hb]; [lia|]. exists (str_take 2 h), (str_drop 2 h).
      split_and!; [done| |by apply hash_plain|done|right; split; [|by rewrite str_take_drop]].
      + rewrite <- (str_app_nil_r (str_take 2 h)). by apply hash_plain.
      + rewrite str_len_take. lia. }
  intros Hh1%Hcase Hh2%Hcase He. destruct Hh1 as (a1 & b1 & Hb1 & Pa1 & Pb1 & E1 & C1), Hh2 as (a2 & b2 & Hb2 & Pa2 & Pb2 & E2 & C2).
  rewrite E1, E2 in He. destruct (JoinAll_render r cs a1 (b1 +:+ ext)) as [J1 O1]; [done..|]. rewrite J1 in He.
  destruct (JoinAll_render r cs a2 (b2 +:+ ext)) as [J2 O2]; [done..|]. rewrite J2 in He.
  apply render_inj in He; [|done..]. injection He as He. apply app_inj_tail in He as [Ha Hb].
  apply app_inj_tail in Ha as [_ ->].
  assert (b1 = b2) as -> by (apply (str_app_inj b1 b2 ext ext) in Hb as [? _]; [done|
    apply (f_equal len) in Hb; rewrite !str_len_app in Hb; lia]).
  destruct C1 as [[? ?]|[Hl ?]], C2 as [[? ?]|[Hl' ?]]; subst; try done.
Qed.
