(* ===== verification/SchedulerLoop.v ===== *)
(** [internal/scheduler]: [Start] and [Stop], over the jobs of [Scheduler].

    The loop of [Start] makes the calls of [RunDue] that [Scheduler] interleaves
    with runs and with other callers; between them it reads the next due time,
    reads the clock, and sleeps on its timer, the wake channel and its context.
    Each step of the whole is at most one step of [Scheduler]. Callers of
    [Schedule] and [Unschedule] change the table first and signal after; the
    first [Stop] cancels the context of the loop, if there is one by then. Only the
    loop calls [RunDue]. *)
From S2P Require Import Prelude GoNum Limiter Scheduler.
Open Scope Z_scope.

(** The sleep [nextSleep] computes from a due time and a clock reading. *)
Definition sleep_for (now : Time) (next : option Time) : Duration :=
  match next with
  | None => idleTimeout
  | Some next =>
    let d := Sub next now in
    if d <=? 0 then Microsecond else if idleTimeout <? d then idleTimeout else d
  end.

Lemma nextSleep_for `{MapIter} now s : nextSleep now s = sleep_for now (NextDue s).
Proof. done. Qed.

Section loop.
Context {L error : Type} `{Limiter L} `{MapIter}.

(** [Start]: not called, before [RunDue], in its loop, before and after
    [NextDue], in the [select], returned. *)
Inductive loop_pc :=
| LOff | LRun | LLaunch (k : nat) | LNext | LClock (next : option Time)
| LSelect (next : option Time) (read : Time) (wait : Duration) | LExit.

(** A call of [Stop]: at [stopOnce], in its body, waiting for runs, returned. *)
Inductive stop_pc := SOnce | SCancel | SWait | SDone (ok : bool).

Inductive once := ONew | OBusy | ODone.

Record lsys := mkLsys {
  base : @sys L error; pc : loop_pc;
  cancel : bool;                 (* [s.cancel] is set *)
  ctx_done : bool;               (* the context of the loop is cancelled *)
  wake : bool;                   (* the channel holds its one value *)
  signalers : nat;               (* callers between their change and [signalWake] *)
  stop_once : once; stops : list stop_pc }.

Inductive laction :=
| LCheck (j : Job) | LInsert (k : nat) (now : Time) | LUnschedule (name : string) | LSignal
| LStart | LParentDone
| LRunDue (now : Time) | LGoRound | LNextDue | LReadClock (now : Time) | LWake | LTimer | LDone
| LStopCall | LStopStep (k : nat) | LStopTimeout (k : nat)
| LBase (a : @action error).     (* the runs and the other users of the limiter *)

Definition on_base (b : @sys L error) (y : lsys) : lsys :=
  mkLsys b (pc y) (cancel y) (ctx_done y) (wake y) (signalers y) (stop_once y) (stops y).
Definition set_pc (p : loop_pc) (y : lsys) : lsys :=
  mkLsys (base y) p (cancel y) (ctx_done y) (wake y) (signalers y) (stop_once y) (stops y).
Definition set_wake (w : bool) (n : nat) (y : lsys) : lsys :=
  mkLsys (base y) (pc y) (cancel y) (ctx_done y) w n (stop_once y) (stops y).
Definition set_stop (k : nat) (p : stop_pc) (o : once) (y : lsys) : lsys :=
  mkLsys (base y) (pc y) (cancel y) (ctx_done y) (wake y) (signalers y) o (<[k := p]> (stops y)).
Definition set_ctx (d : bool) (y : lsys) : lsys :=
  mkLsys (base y) (pc y) (cancel y) d (wake y) (signalers y) (stop_once y) (stops y).

(** Steps of the runs: neither the table nor a [RunDue]. *)
Definition run_action (a : @action error) : bool :=
  match a with
  | AAcquire _ | ARefuse _ _ | AEnd _ _ | ARelease _ | AClear _ | ALeave _ | AExtTake | AExtGive => true
  | _ => false
  end.

(** [WaitInflight], once it can return: the wait group is at zero, or the
    context of the caller is done. *)
Definition WaitInflight (ctx_over : bool) (b : @sys L error) : option bool :=
  if ctx_over then Some false else if wg b =? 0 then Some true else None.

(** The one [Stop] in the body of [stopOnce], and the others. *)
Definition stop_step (k : nat) (y : lsys) : option lsys :=
  p ← stops y !! k;
  match p, stop_once y with
  | SOnce, ONew => b ← act AStop (base y); Some (set_stop k SCancel OBusy (on_base b y))
  | SOnce, ODone => Some (set_stop k SWait ODone y)
  | SCancel, o => Some (set_stop k SWait ODone (set_ctx (ctx_done y || cancel y) y))
  | SWait, o => ok ← WaitInflight false (base y); Some (set_stop k (SDone ok) o y)
  | _, _ => None
  end.

Definition lact (a : laction) (y : lsys) : option lsys :=
  match a with
  | LCheck j => b ← act (ACheck j) (base y); Some (on_base b y)
  | LInsert k now =>
    b ← act (AInsert k now) (base y);
    Some (set_wake (wake y) (S (signalers y)) (on_base b y))
  | LUnschedule name =>
    b ← act (AUnschedule name) (base y);
    Some (if (Unschedule name (sch (base y))).2 then set_wake (wake y) (S (signalers y)) (on_base b y) else y)
  | LSignal => match signalers y with S n => Some (set_wake true n y) | O => None end
  | LStart =>
    Some (match pc y with
          | LOff => mkLsys (base y) LRun true (ctx_done y) (wake y) (signalers y) (stop_once y) (stops y)
          | _ => y
          end)
  | LParentDone => Some (set_ctx true y)
  | LRunDue now =>
    match pc y with
    | LRun => b ← act (ASnapshot now) (base y); Some (set_pc (LLaunch (length (rundues (base y)))) (on_base b y))
    | _ => None
    end
  | LGoRound =>
    match pc y with
    | LLaunch k =>
      match rundues (base y) !! k with
      | Some (_, []) => Some (set_pc LNext y)
      | _ => b ← act (ALaunch k) (base y); Some (on_base b y)
      end
    | _ => None
    end
  | LNextDue => match pc y with LNext => Some (set_pc (LClock (NextDue (sch (base y)))) y) | _ => None end
  | LReadClock now =>
    match pc y with LClock next => Some (set_pc (LSelect next now (sleep_for now next)) y) | _ => None end
  | LWake =>
    match pc y, wake y with LSelect _ _ _, true => Some (set_pc LRun (set_wake false (signalers y) y)) | _, _ => None end
  | LTimer => match pc y with LSelect _ _ _ => Some (set_pc LRun y) | _ => None end
  | LDone => match pc y, ctx_done y with LSelect _ _ _, true => Some (set_pc LExit y) | _, _ => None end
  | LStopCall =>
    Some (mkLsys (base y) (pc y) (cancel y) (ctx_done y) (wake y) (signalers y) (stop_once y) (stops y ++ [SOnce]))
  | LStopStep k => stop_step k y
  | LStopTimeout k =>
    match stops y !! k with
    | Some SWait => ok ← WaitInflight true (base y); Some (set_stop k (SDone ok) (stop_once y) y)
    | _ => None
    end
  | LBase a => if run_action a then b ← act a (base y); Some (on_base b y) else None
  end.

Fixpoint lacts (l : list laction) (y : lsys) : option lsys :=
  match l with
  | [] => Some y
  | a :: l => y ← lact a y; lacts l y
  end.

Definition lstart (l : option L) (held : Z) : lsys := mkLsys (start l held) LOff false false false 0 ONew [].

(** ** What holds of every interleaving *)

Ltac step_base Ha :=
  match type of Ha with context [act ?b0 ?y] =>
    let b := fresh "b" in let Hb := fresh "Hb" in
    destruct (act b0 y) as [b|] eqn:Hb; cbn [mbind option_bind] in Ha; [|by repeat case_match; simplify_eq];
    match goal with Hone : forall b0 b, _ |- _ => apply Hone in Hb end;
    repeat case_match; by simplify_eq
  end.

(** Each step of the whole is at most one of [Scheduler]. *)
Lemma lact_base a y y' : lact a y = Some y' -> exists l, acts l (base y) = Some (base y').
Proof.
  intros Ha. assert (exists l, acts l (base y) = Some (base y)) as Hid by (by exists []).
  assert (forall b0 b, act b0 (base y) = Some b -> exists l, acts l (base y) = Some b) as Hone.
  { intros b0 b Hb. exists [b0]. cbn [acts]. by rewrite Hb. }
  destruct a; cbn [lact] in Ha; try (step_base Ha).
  - destruct (signalers y); by simplify_eq.
  - destruct (pc y); by simplify_eq.
  - by simplify_eq.
  - destruct (pc y) as [| |k| | | |]; try done. destruct (rundues (base y) !! k) as [[now [|p ps]]|]; [by simplify_eq|step_base Ha..].
  - destruct (pc y); by simplify_eq.
  - destruct (pc y); by simplify_eq.
  - destruct (pc y), (wake y); by simplify_eq.
  - destruct (pc y); by simplify_eq.
  - destruct (pc y), (ctx_done y); by simplify_eq.
  - by simplify_eq.
  - unfold stop_step in Ha. destruct (stops y !! k) as [p|]; [|done]. cbn [mbind option_bind] in Ha.
    destruct p, (stop_once y); try done; try (by simplify_eq); try (step_base Ha);
      unfold WaitInflight in Ha; destruct (wg (base y) =? 0); by simplify_eq/=.
  - destruct (stops y !! k) as [[]|]; by simplify_eq/=.
Qed.

Lemma lacts_base l y y' : lacts l y = Some y' -> exists l', acts l' (base y) = Some (base y').
Proof.
  revert y. induction l as [|a l IH]; intros y Hl; simplify_eq/=; [by exists []|].
  destruct (lact a y) as [y1|] eqn:Ha; simplify_eq/=.
  destruct (lact_base _ _ _ Ha) as [l1 H1], (IH _ Hl) as [l2 H2]. exists (l1 ++ l2).
  clear -H1 H2. revert H1. generalize (base y). induction l1 as [|b l1 IH]; intros z Hz; simplify_eq/=; [done|].
  destruct (act b z); simplify_eq/=. by apply IH.
Qed.

(** The due time the loop has read covers the table [s]. *)
Definition covered (next : option Time) (s : sched) : Prop :=
  forall name p e, jobs s !! name = Some p -> heap s !! p = Some e -> nextDue e <> 0 ->
    exists t, next = Some t /\ t <= nextDue e.

Lemma NextDue_covered s : covered (NextDue s) s.
Proof.
  intros name p e Hn He Hne. pose proof (earlier_least (entries_of s)) as Hl. unfold NextDue.
  assert (e ∈ entries_of s) as Hin by (apply elem_of_entries; eauto).
  destruct (foldl earlier None (entries_of s)) as [t|]; simpl in Hl.
  - destruct Hl as [_ Hall]. rewrite Forall_forall in Hall. exists t. split; [done|]. by apply Hall.
  - rewrite Forall_forall in Hl. by destruct Hne; apply Hl.
Qed.

(** The table has no new entries, and due times are as they were. *)
Definition no_sooner (s s' : sched) : Prop :=
  (forall name p, jobs s' !! name = Some p -> jobs s !! name = Some p) /\
  (forall p e', heap s' !! p = Some e' -> exists e, heap s !! p = Some e /\ nextDue e = nextDue e').

Lemma covered_mono next s s' : no_sooner s s' -> covered next s -> covered next s'.
Proof.
  intros [Hj Hh] Hc name p e' Hn He' Hne. destruct (Hh p e' He') as (e & He & Hd).
  rewrite <- Hd in *. by eapply Hc; [apply Hj| |].
Qed.

Lemma no_sooner_refl s : no_sooner s s.
Proof. split; eauto. Qed.

Lemma run_action_table a (b b' : @sys L error) : run_action a = true -> act a b = Some b' ->
  no_sooner (sch b) (sch b') /\ stopped (sch b') = stopped (sch b) /\ rundues b' = rundues b.
Proof.
  intros Hr Ha. assert (no_sooner (sch b) (sch b)) as Hrefl by apply no_sooner_refl.
  destruct a; try done; cbn [act] in Ha; unfold set_run in Ha;
    repeat (case_match; simplify_eq/=; try by split_and!).
  all: try (destruct (Release _) eqn:?; by simplify_eq/=).
  destruct (heap (sch b) !! _) as [e|] eqn:He; simplify_eq/=. split_and!; [|done..]. split; [by intros ?|]. simpl.
  intros p e' [(<- & <- & _)|[_ Hp]]%list_lookup_insert_Some; simpl; eauto.
Qed.

Definition in_body (p : stop_pc) : bool := match p with SCancel => true | _ => false end.
Definition past_once (p : stop_pc) : bool := match p with SWait | SDone _ => true | _ => false end.
Definition is_busy (o : once) : bool := match o with OBusy => true | _ => false end.

(** A signal the loop has not answered yet, or is about to get. *)
Definition nudged (y : lsys) : Prop := wake y = true \/ (0 < signalers y)%nat.

Record loop_inv (y : lsys) : Prop := {
  i_wake : match pc y with
           | LClock next | LSelect next _ _ => covered next (sch (base y)) \/ nudged y
           | _ => True
           end;
  i_wait : match pc y with LSelect next read wait => wait = sleep_for read next | _ => True end;
  i_exit : pc y = LExit -> ctx_done y = true;
  i_started : cancel y = match pc y with LOff => false | _ => true end;
  i_once : tally in_body (stops y) = b2z (is_busy (stop_once y));
  i_past : forall k p, stops y !! k = Some p -> past_once p = true -> stop_once y = ODone;
  i_stopped : stop_once y <> ONew -> stopped (sch (base y)) = true;
  i_launch : match pc y with LLaunch k => (k < length (rundues (base y)))%nat | _ => True end }.

(** The table changes under the loop, and so may what is due first. *)
Lemma loop_table y b w n :
  loop_inv y -> (nudged (set_wake w n y) \/ wake y = w /\ signalers y = n /\ no_sooner (sch (base y)) (sch b)) ->
  stopped (sch b) = stopped (sch (base y)) -> rundues b = rundues (base y) -> loop_inv (set_wake w n (on_base b y)).
Proof.
  intros [] Hn Hst Hrd. split; simpl; rewrite ?Hrd, ?Hst; try done.
  destruct (pc y); try done; (destruct Hn as [Hn|(<- & <- & Hn)]; [by right|]);
    (destruct i_wake0 as [Hc|Hc]; [left; by eapply covered_mono|by right]).
Qed.

(** The loop moves by itself. *)
Lemma loop_moves y b p :
  loop_inv y -> pc y <> LOff -> p <> LOff -> (p = LExit -> ctx_done y = true) ->
  match p with LClock next | LSelect next _ _ => covered next (sch b) \/ nudged y | _ => True end ->
  match p with LSelect next read wait => wait = sleep_for read next | _ => True end ->
  match p with LLaunch k => (k < length (rundues b))%nat | _ => True end ->
  stopped (sch b) = stopped (sch (base y)) -> loop_inv (set_pc p (on_base b y)).
Proof.
  intros [] Hy Hp Hexit Hw Hs Hl Hst. split; simpl; try done; [by destruct (pc y), p|by rewrite Hst].
Qed.

Lemma loop_moves_here y p :
  loop_inv y -> pc y <> LOff -> p <> LOff -> (p = LExit -> ctx_done y = true) ->
  match p with LClock next | LSelect next _ _ => covered next (sch (base y)) \/ nudged y | _ => True end ->
  match p with LSelect next read wait => wait = sleep_for read next | _ => True end ->
  match p with LLaunch k => (k < length (rundues (base y)))%nat | _ => True end ->
  loop_inv (set_pc p y).
Proof. intros Hy H1 H2 H3 H4 H5 H6. exact (loop_moves y (base y) p Hy H1 H2 H3 H4 H5 H6 eq_refl). Qed.

Lemma launch_stopped now p s s' : launch now p s = Some s' -> stopped s' = stopped s.
Proof. unfold launch. destruct (heap s !! p) as [e|]; [|done]. simpl. destruct (running e); intros; by simplify_eq. Qed.

Lemma launch_action_stopped k (b b' : @sys L error) : act (ALaunch k) b = Some b' ->
  stopped (sch b') = stopped (sch b) /\ length (rundues b') = length (rundues b).
Proof.
  cbn [act]. intros Ha. repeat (case_match; simplify_eq/=; try done); rewrite length_insert; [|done].
  split; [by eapply launch_stopped|done].
Qed.

Lemma stop_inv k y y' : stop_step k y = Some y' -> loop_inv y -> loop_inv y'.
Proof.
  intros Ha Hy. pose proof Hy as []. unfold stop_step in Ha. destruct (stops y !! k) as [p|] eqn:Hk; [|done]. simpl in Ha.
  unfold WaitInflight in Ha. destruct p; [destruct (stop_once y) eqn:Ho| |destruct (wg (base y) =? 0)|]; simplify_eq/=.
  - split; simpl; try done; [by rewrite (tally_insert _ _ _ _ _ Hk), i_once0|].
    intros j q [(<- & <- & _)|[_ Hj]]%list_lookup_insert_Some Hq; [done|]. by specialize (i_past0 _ _ Hj Hq).
  - split; simpl; try done. by rewrite (tally_insert _ _ _ _ _ Hk), i_once0.
  - assert (is_busy (stop_once y) = true) as Hb.
    { pose proof (tally_pos in_body _ _ _ Hk eq_refl). destruct (is_busy (stop_once y)); [done|]. simpl in *. lia. }
    split; simpl; try done.
    + intros He. by rewrite (i_exit0 He).
    + rewrite (tally_insert _ _ _ _ _ Hk), i_once0, Hb. done.
    + intros _. apply i_stopped0. by intros Heq; rewrite Heq in Hb.
  - pose proof (i_past0 _ _ Hk eq_refl) as Ho. split; simpl; try done; first [by rewrite (tally_insert _ _ _ _ _ Hk), i_once0, Ho|intros; exact Ho].
Qed.

Lemma lact_inv a y y' : lact a y = Some y' -> loop_inv y -> loop_inv y'.
Proof.
  intros Ha Hy. pose proof Hy as [].
  destruct a as [j|k now|name| | | |now| | |now| | | | |k|k|a]; cbn [lact] in Ha.
  - cbn [act mbind option_bind] in Ha. simplify_eq.
    apply (loop_table y _ (wake y) (signalers y)); [done|right|by destruct (schedule_check _ _)..].
    split_and!; [done..|]. destruct (schedule_check _ _); apply no_sooner_refl.
  - cbn [act] in Ha. destruct (checked (base y) !! k) as [j|]; simplify_eq/=.
    apply loop_table; [done|left; right; simpl; lia|done..].
  - cbn [act mbind option_bind] in Ha. destruct (Unschedule name (sch (base y))).2 eqn:Hs; simplify_eq; [|done].
    apply loop_table; [done|left; right; simpl; lia| |done]. simpl. unfold Unschedule. by destruct (jobs _ !! name).
  - destruct (signalers y) as [|n]; simplify_eq. apply (loop_table y (base y)); [done|left; by left|done|done].
  - destruct (pc y) eqn:Hpc; simplify_eq; [|done..]. split; simpl; try done.
  - simplify_eq. split; simpl; try done.
  - destruct (pc y) eqn:Hpc; try done. cbn [act mbind option_bind] in Ha. simplify_eq.
    apply loop_moves; [done|by rewrite Hpc|done..| |done]. simpl. rewrite length_app. simpl. lia.
  - destruct (pc y) as [| |k| | | |] eqn:Hpc; try done.
    assert ((b ← act (ALaunch k) (base y); Some (on_base b y)) = Some y' -> loop_inv y') as Hgo.
    { intros Hb. destruct (act (ALaunch k) (base y)) as [b|] eqn:Hl; [|done]. cbn [mbind option_bind] in Hb. simplify_eq.
      destruct (launch_action_stopped _ _ _ Hl) as [Hst Hrd].
      split; simpl; rewrite ?Hpc in *; try done; [by rewrite Hst|by rewrite Hrd]. }
    destruct (rundues (base y) !! k) as [[now [|p ps]]|]; [|by apply Hgo..]. simplify_eq.
    apply loop_moves_here; [done|by rewrite Hpc|done..].
  - destruct (pc y) eqn:Hpc; simplify_eq. apply loop_moves_here; [done|by rewrite Hpc|done|done| |done|done].
    left. apply NextDue_covered.
  - destruct (pc y) as [| | | |next| |] eqn:Hpc; simplify_eq. apply loop_moves_here; [done|by rewrite Hpc|done..].
  - destruct (pc y) eqn:Hpc, (wake y) eqn:Hw; simplify_eq. split; simpl; try done.
  - destruct (pc y) eqn:Hpc; simplify_eq. apply loop_moves_here; [done|by rewrite Hpc|done..].
  - destruct (pc y) eqn:Hpc, (ctx_done y) eqn:Hd; simplify_eq. apply loop_moves_here; [done|by rewrite Hpc|done|done|done..].
  - simplify_eq. split; simpl; try done; [rewrite tally_snoc; simpl; lia|].
    intros k p [[_ Hk]|[_ <-]]%lookup_snoc_Some; [by eapply i_past0|done].
  - by eapply stop_inv.
  - destruct (stops y !! k) as [[]|] eqn:Hk; simplify_eq/=. pose proof (i_past0 _ _ Hk eq_refl) as Ho.
    split; simpl; try done; first [by rewrite (tally_insert _ _ _ _ _ Hk), i_once0, Ho|intros; exact Ho].
  - destruct (run_action a) eqn:Hr; [|done]. destruct (act a (base y)) as [b|] eqn:Hb; simplify_eq/=.
    destruct (run_action_table _ _ _ Hr Hb) as (Hns & Hst & Hrd).
    apply (loop_table y b (wake y) (signalers y) Hy); [right; by split_and!|done|done].
Qed.

Lemma lacts_inv l y y' : lacts l y = Some y' -> loop_inv y -> loop_inv y'.
Proof.
  revert y. induction l as [|a l IH]; intros y Hl Hy; simplify_eq/=; [done|].
  destruct (lact a y) as [y1|] eqn:Ha; simplify_eq/=. eauto using lact_inv.
Qed.

Lemma lstart_inv lim held : loop_inv (lstart lim held).
Proof. by split. Qed.

(** The sleep is positive, at most a minute, and ends no later than a covered
    due time, but for the microsecond of a job already due. *)
Lemma sleep_for_bounds read next : 0 < sleep_for read next <= idleTimeout.
Proof.
  assert (idleTimeout = 60000000000 /\ Microsecond = 1000) as [E1 E2] by done. unfold sleep_for.
  destruct next as [t|]; [|lia]. destruct (Z.leb_spec (Sub t read) 0), (Z.ltb_spec idleTimeout (Sub t read)); lia.
Qed.

Lemma sleep_for_covered read next s : covered next s ->
  forall name p e, jobs s !! name = Some p -> heap s !! p = Some e -> nextDue e <> 0 ->
    sleep_for read next <= Z.max Microsecond (nextDue e - read).
Proof.
  assert (idleTimeout = 60000000000 /\ Microsecond = 1000) as [E1 E2] by done.
  intros Hc name p e Hn He Hne. destruct (Hc name p e Hn He Hne) as (t & -> & Ht). unfold sleep_for.
  assert (0 < Sub t read -> Sub t read <= t - read) as Hs by (unfold Sub, minInt64, maxInt64; lia).
  destruct (Z.leb_spec (Sub t read) 0), (Z.ltb_spec idleTimeout (Sub t read)); lia.
Qed.

(** The loop of [RunDue] goes round once per entry of the snapshot. *)
Lemma RunDue_ends ps : forall y k now, pc y = LLaunch k -> rundues (base y) !! k = Some (now, ps) ->
  exists y', lacts (repeat LGoRound (S (length ps))) y = Some y' /\ pc y' = LNext.
Proof.
  induction ps as [|p ps IH]; intros y k now Hpc Hk; cbn [length repeat lacts lact]; rewrite Hpc, Hk.
  { simpl. eauto. }
  assert (exists b, act (ALaunch k) (base y) = Some b /\ rundues b !! k = Some (now, ps)) as (b & Hb & Hbk).
  { cbn [act]. rewrite Hk. pose proof (lookup_lt_Some _ _ _ Hk).
    destruct (launch now p (sch (base y))); eexists; (split; [reflexivity|]); by apply list_lookup_insert_eq. }
  rewrite Hb. cbn [mbind option_bind]. by apply (IH (on_base b y) k now).
Qed.

Lemma stopped_refuses j s : stopped s = true -> schedule_check j s <> None.
Proof. intros Hs. unfold schedule_check. rewrite Hs. by repeat case_match. Qed.

Lemma ctx_done_stays a y y' : lact a y = Some y' -> ctx_done y = true -> ctx_done y' = true.
Proof.
  intros Ha Hd. destruct a; cbn [lact] in Ha;
    try (match type of Ha with context [act ?b ?z] => destruct (act b z) end); cbn [mbind option_bind] in Ha;
    try (unfold stop_step in Ha; destruct (stops y !! k) as [p|]; [|done]; cbn [mbind option_bind act] in Ha);
    repeat (case_match; simplify_eq/=; try done); simplify_eq/=; rewrite ?Hd; done.
Qed.

(** C25. [Start] and [Stop] with any number of other callers, at every moment:
    the jobs go through an execution of [Scheduler], so everything shown there
    holds; asleep, the loop waits between nothing and a minute, and no longer
    than until the first due time of the table, unless a wake-up is pending or
    about to be sent, which ends the sleep; each call of [RunDue] in the loop
    ends; the loop returns only when its context is done; once a [Stop] has been
    through after [Start], the context is done and stays so, and the loop can
    return from its sleep; and a [Schedule] made after the first [Stop] is refused. *)
Theorem scheduler_loop (lim : option L) (held : Z) (l : list laction) (y : lsys) :
  lacts l (lstart lim held) = Some y ->
  (exists l', acts l' (start lim held) = Some (base y)) /\
  (forall next read wait, pc y = LSelect next read wait ->
     0 < wait <= idleTimeout /\
     (nudged y \/ forall name p e, jobs (sch (base y)) !! name = Some p -> heap (sch (base y)) !! p = Some e ->
        nextDue e <> 0 -> wait <= Z.max Microsecond (nextDue e - read)) /\
     (wake y = true -> exists y', lact LWake y = Some y' /\ pc y' = LRun) /\
     (ctx_done y = true -> exists y', lact LDone y = Some y' /\ pc y' = LExit)) /\
  ((0 < signalers y)%nat -> exists y', lact LSignal y = Some y' /\ wake y' = true) /\
  (forall k, pc y = LLaunch k -> exists n y', lacts (repeat LGoRound n) y = Some y' /\ pc y' = LNext) /\
  (pc y = LExit -> ctx_done y = true) /\
  (forall k y', stops y !! k = Some SCancel -> pc y <> LOff -> lact (LStopStep k) y = Some y' -> ctx_done y' = true) /\
  (ctx_done y = true -> forall a y', lact a y = Some y' -> ctx_done y' = true) /\
  (stop_once y <> ONew -> forall j, schedule_check j (sch (base y)) <> None).
Proof.
  intros Hl. pose proof (lacts_inv _ _ _ Hl (lstart_inv lim held)) as []. split_and!.
  - exact (lacts_base _ _ _ Hl).
  - intros next read wait Hpc. rewrite Hpc in *. subst wait. split; [apply sleep_for_bounds|]. split_and!.
    + destruct i_wake0 as [Hc|]; [right|by left]. by apply sleep_for_covered.
    + intros Hw. simpl. rewrite Hpc, Hw. eauto.
    + intros Hd. simpl. rewrite Hpc, Hd. eauto.
  - intros Hs. simpl. destruct (signalers y); [lia|eauto].
  - intros k Hpc. rewrite Hpc in i_launch0. destruct (lookup_lt_is_Some_2 _ _ i_launch0) as [[now ps] Hk].
    destruct (RunDue_ends ps y k now Hpc Hk) as (y' & Hy' & Hp). eauto.
  - done.
  - intros k y' Hk Hpc Ha. simpl in Ha. unfold stop_step in Ha. rewrite Hk in Ha. simpl in Ha. simplify_eq. simpl.
    rewrite i_started0. destruct (pc y); try done; by rewrite orb_true_r.
  - intros Hd a y' Ha. by eapply ctx_done_stays.
  - intros Hs j. apply stopped_refuses. by apply i_stopped0.
Qed.
End loop.

Definition demo_job : Job := mkJob "sweep" true Second 0.

(** The loop sleeps until a job is due, is woken for an earlier one, and ends
    when it is stopped. *)
Definition loop_trace : list (@laction string) :=
  [LStart; LRunDue 0; LGoRound; LNextDue; LCheck demo_job; LInsert 0 5; LReadClock 10; LSignal; LWake; LRunDue 20; LGoRound;
   LNextDue; LReadClock 30]%nat.

Lemma scheduler_loop_witness :
  exists y, lacts loop_trace (lstart (None : option Semaphore) 0) = Some y /\
    pc y = LSelect (Some 1000000005) 30 999999975 /\ 0 < 999999975 <= idleTimeout.
Proof.
  eexists. split; [vm_compute; reflexivity|]. split; [reflexivity|].
  refine (proj1 (proj1 (proj2 (scheduler_loop (None : option Semaphore) 0 loop_trace _ _)) (Some 1000000005) 30 _ _));
    vm_compute; reflexivity.
Defined.

(** [Stop] before [Start]: it finds no context to cancel, and no later [Stop]
    looks again. The loop then runs jobs although every [Stop] has returned. *)
Lemma scheduler_stop_before_start :
  exists y, lacts (error := string) [LCheck demo_job; LInsert 0 0; LStopCall; LStopStep 0; LStopStep 0; LStopStep 0;
      LStart; LStopCall; LStopStep 1; LStopStep 1; LRunDue (2 * Second); LGoRound]%nat
      (lstart (None : option Semaphore) 0) = Some y /\
    stops y = [SDone true; SDone true] /\ ctx_done y = false /\ length (launches (base y)) = 1%nat.
Proof. eexists. split; [vm_compute; reflexivity|]. by split_and!. Qed.

(** A [Stop] that falls between the snapshot of [RunDue] and its launches
    returns, and the job is launched after. *)
Lemma scheduler_launch_after_stop :
  exists y, lacts (error := string) [LCheck demo_job; LInsert 0 0; LStart; LRunDue (2 * Second);
      LStopCall; LStopStep 0; LStopStep 0; LStopStep 0; LGoRound]%nat (lstart (None : option Semaphore) 0) = Some y /\
    stops y = [SDone true] /\ ctx_done y = true /\ length (launches (base y)) = 1%nat.
Proof. eexists. split; [vm_compute; reflexivity|]. by split_and!. Qed.

(** A [Schedule] that looked at [stopped] before [Stop] changes the table after it,
    and returns no error: the loop has returned, and the job never runs. *)
Lemma scheduler_register_after_stop :
  exists y, lacts (error := string) [LStart; LRunDue 0; LGoRound; LNextDue; LReadClock 0; LCheck demo_job;
      LStopCall; LStopStep 0; LStopStep 0; LStopStep 0; LDone; LInsert 0 5]%nat
      (lstart (None : option Semaphore) 0) = Some y /\
    stops y = [SDone true] /\ pc y = LExit /\ Names (sch (base y)) = ["sweep"] /\
    schedule_check demo_job (sch (base y)) = Some ErrStopped.
Proof. eexists. split; [vm_compute; reflexivity|]. by split_and!. Qed.
